(* ===== verification/_CoqProject ===== *)
-Q . S2P
Prelude.v
Platform.v
Ints.v
Sys.v
KernelSpec.v
Util.v
RefKernel.v
DirFdIter.v
FdIter.v
IterFds.v
Steady.v
Threads.v
IterThreads.v
Undercount.v
SizeHint.v
IterTests.v
UtilTests.v
KeepFds.v
Visit.v
LoopThreads.v
Close.v
Cloexec.v
CloseFds.v
CloexecThreads.v
CloseThreads.v
Trace.v
Fuel.v
Command.v
Lib.v
ProbeThreads.v
IntegrationTests.v
Shown.v
TestsPass.v
PossibleTests.v
Calls.v
Runs.v
Witnesses.v
