(* ===== verification/Prelude.v ===== *)
(** * The close_fds verification development

    close_fds (Rust, src/src/) closes every descriptor of the process from a
    minimum up, or marks it close-on-exec, except for a list of kept ones; and it
    iterates over the descriptors. It chooses among several methods by target and
    by what the system offers at run time, and falls back from one to the next.
    This development models the whole crate for all its targets and proves that
    whatever method is used, the descriptor table ends up as documented.

    ** The parts of the crate and the files that model them

    - Platform.v: the targets, [cfg] predicates, build profiles and the [repr(C)]
      layout of the directory entry that sys.rs declares.
    - Ints.v: [i32], [u32] and [usize] with overflow (a panic with overflow
      checks, wrapping without), slice indexing, [debug_assert!].
    - Sys.v: the calls to the system and the C library as a class of parameters
      on an abstract kernel state; the crate's [static]s (close.rs, cloexec.rs,
      util.rs, lib.rs); the world, which is both.
    - KernelSpec.v: the laws of these calls that the crate relies on.
    - RefKernel.v: one executable kernel that has the laws.
    - Util.v: util.rs.
    - DirFdIter.v: iterfds/dirfd.rs, the iterator over the directory of
      descriptors. [next] of the source is [next], [next_loop] (its loop) and
      [consume_entry] (the part of the loop body after the read).
    - FdIter.v: iterfds/fditer.rs. [scan] and [scan_loop] are the fallback part
      of [next].
    - IterFds.v: iterfds/mod.rs; and what a whole iteration yields.
    - Steady.v: systems that answer the same question in the same way, and that
      an iteration is repeatable there.
    - Threads.v: other threads, whose opening, closing and marking of
      descriptors is interleaved with the crate's system calls, and whose stores
      to the statics with its loads; IterThreads.v: iteration among them;
      LoopThreads.v: what the loops of close.rs and cloexec.rs need there;
      CloexecThreads.v, CloseThreads.v, ProbeThreads.v: marking, closing and
      probing among them; Undercount.v: what an iteration yields when they open
      descriptors while it counts.
    - Trace.v: the system calls as a trace; Calls.v: which calls the entry points
      make, and how many.
    - SizeHint.v: the two [size_hint]s against iteration.
    - IterTests.v, UtilTests.v: the unit tests in iterfds/mod.rs, util.rs and
      dirfd.rs as programs, and that they pass.
    - KeepFds.v, CloseFds.v: closefds/mod.rs.
    - Visit.v: the loop that close.rs and cloexec.rs share, for any action.
    - Close.v: closefds/close.rs; Cloexec.v: closefds/cloexec.rs.
    - Fuel.v: more fuel never changes an outcome.
    - Command.v: examples/command-close.rs.
    - Lib.v: lib.rs.
    - IntegrationTests.v: tests/test_close_fds.rs as programs; Shown.v: what they
      see of the table; TestsPass.v: that they pass; PossibleTests.v: that the test
      of [possible], and so all of [run_tests], passes on a steady system.
    - Runs.v: runs of the model, among them scenarios of the crate's integration
      tests and schedules of threads that make an iterator skip a descriptor and
      closing take one of another thread.
    - Witnesses.v: the theorems at concrete inputs.

    ** How code is modelled

    A function without effects is a function to [outcome]: a value, a panic, an
    undefined read, or lack of fuel. Code that calls the system or touches a
    static is in the state monad [ST (World K)], where it can also be killed by
    [SIGSYS] (FreeBSD's answer to an unknown system call). A loop is a fixpoint
    on fuel. Rust's ownership is explicit: a method that changes [self] returns
    the new value, and a drop is a call at the end of the value's scope.
    [wp m Q w] says that [m] run from [w] ends with a value, and [Q] holds then;
    so every theorem about [wp] includes termination and the absence of panics,
    undefined reads and kills. Fuel is enough when it is at least 2^48
    ([enough_fuel]): there are fewer than 2^31 descriptors, and a buffer of
    directory entries has fewer than 2^16 bytes.

    ** What the theorems show

    - Closing and marking (C1 to C6, C13, C14): the table after [closefrom] and
      [cloexecfrom] is the table before with exactly the chosen descriptors
      closed or marked, up to the limit of the fallback loop ([scan_limit]), and
      without a limit where the system can act on ranges; the method does not
      matter.
    - Iterating (C7, C8, C19 to C21, C25, C27, C28, C33): what is yielded,
      in which order, that no directory is leaked, fusedness, [size_hint],
      repeatability, and that no byte outside the entry buffer is read.
    - Other threads (C9 to C12, C26, C37): what an iterator, [cloexecfrom],
      [closefrom] and [probe_features] promise while other threads work, inside
      the crate or outside, with and without [threadsafe]; and exactly what is
      lost on OpenBSD without it (C26). In FreeBSD builds with debug assertions
      C12 asks that [kern.osreldate] is readable at any time, because
      [try_close_range] asserts the answer of a check that another thread may have
      changed (Runs.v, [assertion_race_debug]).
    - The calls made (C15 to C18): closing and marking are async-signal-safe
      where the documentation says so, the options that forbid the file system
      are obeyed, and where [close_range] exists a few calls are enough.
    - The example program and the documented use before [execve] (C22, C23).
    - The crate's own integration tests (C24) pass on every steady system, and not
      only on the one on which they are run; so do the others (IterTests.v,
      UtilTests.v, TestsPass.v).
    - The helpers (C29 to C31, C34, C35): lists of descriptors, ranges, parsing.
    - The system interface (C32, C36): [close_range] never kills the
      process, what is remembered about the system is true, probing.
    - The bounds (C38, C39): when and how [simplify_keep_fds] and [apply_range]
      overflow, on any sorted slice; the other theorems exclude [c_int::MAX] from
      the slice.
    - Names that do not fit (C40): see Solaris and illumos below.

    That every loop ends is part of each of these, as [wp] asks for it; Fuel.v adds
    that no other amount of fuel gives an operation another outcome.

    ** What the statics say

    [statics_ok] of Util.v is what is true of the statics at any time:
    [MAY_HAVE_CLOSE_RANGE] is not clear where [close_range] works, nor
    [MAY_HAVE_CLOSE_RANGE_CLOEXEC] where its flag does, and [HAS_CLOSE_RANGE] and
    [IS_WSL1] say no untruth. [settled] of Lib.v is what else is true after the
    first [probe_features]: on Linux the first two are also not set where these do
    not work, and what can be asked is known. Whether [close_range] works is a part
    of the system ([env_close_range], [env_cloexec_range] of [Env]), [None] for one
    whose calls sometimes fail, of which nothing is promised.

    ** Solaris and illumos

    The directory iterator reads [d_name] of the structure that libc declares
    (dirfd.rs, [RawDirent]), as long as it is declared. For Solaris and illumos it
    is declared with three characters, though the name goes on behind it, so that
    only descriptors up to 999 are read right: C40 shows what is made of the
    others. The law on directories ([dirents] of KernelSpec.v) asks that the names
    fit into the declared array; on these two targets the theorems therefore hold
    of systems whose directory of descriptors has none from 1000 up, and
    everywhere else without this condition, as the array has room for every
    [c_int].

    The abstract specification of closing is [finished] and [completed] in
    Visit.v, a relation between the tables before and after; [visit_loop_spec],
    [gaps_spec] and [rest_loop] show that each method refines it for any action,
    and close.rs and cloexec.rs instantiate the action.

    ** Other threads

    The laws of KernelSpec.v are about one call; the theorems on [wp] are about
    the crate alone in its process. For other threads the kernel is replaced by
    [Shared K] of Threads.v, a kernel with a schedule of bursts of their actions,
    one before each call of the crate; the crate's definitions run on it
    unchanged. [allowed] says what the other threads may do ([Rely] which of it is
    ruled out), [evolves] what the crate may then still rely on.

    The statics are relaxed atomics. A load ([race] in Sys.v) lets the other
    threads run and then finds all they have stored; [allowed] asks that what they
    store is true of the system ([true_store]), and each theorem shows the same of
    what this thread stores ([published], [guarantee_rely]); so any number of
    threads may be inside the crate. A store of another thread may appear at any
    later load, before or after this thread's own, and no operation depends on
    more than one static being up to date, so the order in which stores to
    different statics become visible does not matter.

    Closing takes promises away as it goes: once the crate has closed a descriptor
    another thread may open it again, and nothing is promised of it any more. In
    CloseThreads.v the lemmas on iteration are used at a [Rely] that shrinks with
    each step ([besides]); [shut] remembers what the crate has closed.

    [Traced K] of Trace.v wraps a kernel in the same way: it records the calls
    made, and every other law holds of it because it holds of [K].

    ** Steady systems

    The laws let a system answer one question in two ways: the directory may fail
    to open once and open the next time. That is all the other theorems need, but
    [iter_possible_fds_test] compares iterations with each other, and with
    [possible] the answer depends on the method. [Steady] of Steady.v asks that
    the answers of a system depend on its descriptors and the position in the
    directory alone; a program is [steady] if from two worlds that are [similar]
    in this sense it yields the same and leaves similar worlds, and all of an
    iteration is, by composition. The reference kernel is an instance.

    ** What is not modelled

    What becomes of another thread whose descriptor is closed under it (the
    documentation of [closefrom] forbids such use; CloseThreads.v is about the
    descriptors that the others leave alone). The arguments and buffers of foreign
    calls below the level of [Sys] (pointers, [MaybeUninit]). Of the integration
    tests, [fork] and [waitpid]. *)

From stdpp Require Export base tactics list sorting gmap fin_maps strings.
From Stdlib Require Export ZArith Lia.

#[export] Set Default Goal Selector "!".
#[global] Open Scope Z_scope.

(** ** Outcomes

    What running a piece of the program can end in: a value, a Rust panic
    (failed [debug_assert!], arithmetic overflow in a build with overflow
    checks, slice index out of range), undefined behaviour (an unchecked read
    outside its buffer), the death of the process by [SIGSYS] (FreeBSD kills a
    process that issues a system call the kernel does not know), or, for the
    model only, a loop that was given too little fuel. *)

Inductive outcome (A : Type) : Type :=
| Done (a : A)
| Panic
| Undefined
| Killed
| OutOfFuel.
Arguments Done {_} _.
Arguments Panic {_}.
Arguments Undefined {_}.
Arguments Killed {_}.
Arguments OutOfFuel {_}.

#[export] Instance outcome_ret : MRet outcome := @Done.
#[export] Instance outcome_bind : MBind outcome := fun A B f o =>
  match o with
  | Done a => f a
  | Panic => Panic
  | Undefined => Undefined
  | Killed => Killed
  | OutOfFuel => OutOfFuel
  end.

(** A Rust [Result<T, ()>]: an error carries no value anywhere in the crate. *)
Inductive result (A : Type) : Type :=
| Ok (a : A)
| Err.
Arguments Ok {_} _.
Arguments Err {_}.

Definition is_ok {A} (r : result A) : bool :=
  match r with Ok _ => true | Err => false end.

(** ** State and outcome

    Stateful code over a world [S]: it reads and changes the world and may end
    in any outcome. *)

Definition ST (S A : Type) : Type := S -> outcome (A * S).

#[export] Instance ST_ret {S} : MRet (ST S) := fun A a s => Done (a, s).
#[export] Instance ST_bind {S} : MBind (ST S) := fun A B f m s =>
  match m s with
  | Done (a, s') => f a s'
  | Panic => Panic
  | Undefined => Undefined
  | Killed => Killed
  | OutOfFuel => OutOfFuel
  end.

(** Code that touches no state, run in the stateful monad. *)
Definition lift {S A} (o : outcome A) : ST S A := fun s =>
  match o with
  | Done a => Done (a, s)
  | Panic => Panic
  | Undefined => Undefined
  | Killed => Killed
  | OutOfFuel => OutOfFuel
  end.

Definition panic {S A} : ST S A := fun _ => Panic.
Definition out_of_fuel {S A} : ST S A := fun _ => OutOfFuel.
Definition gets {S A} (f : S -> A) : ST S A := fun s => Done (f s, s).
Definition modify {S} (f : S -> S) : ST S unit := fun s => Done (tt, f s).

(** [assert!(c)], in every build. *)
Definition assert {S} (c : bool) : ST S unit := if c then mret tt else panic.

(** Rust's [?] on a [Result<(), ()>]. *)
Definition try_then {S A} (m : ST S (result unit)) (k : ST S (result A))
  : ST S (result A) :=
  r ← m; match r with Ok _ => k | Err => mret Err end.

(** ** Total correctness

    [wp m Q s]: from world [s], [m] runs to the end with a value and a world
    that satisfy [Q]; it does not panic, read out of bounds, die or run out of
    fuel. *)

Definition wp {S A} (m : ST S A) (Q : A -> S -> Prop) (s : S) : Prop :=
  match m s with Done (a, s') => Q a s' | _ => False end.

Lemma wp_ret {S A} (a : A) (Q : A -> S -> Prop) s :
  Q a s -> wp (mret a) Q s.
Proof. done. Qed.

Lemma wp_bind {S A B} (m : ST S A) (f : A -> ST S B) (Q : B -> S -> Prop) s :
  wp m (fun a s' => wp (f a) Q s') s -> wp (m ≫= f) Q s.
Proof.
  unfold wp, mbind, ST_bind. destruct (m s) as [[a s']| | | |]; done.
Qed.

Lemma wp_mono {S A} (m : ST S A) (P Q : A -> S -> Prop) s :
  wp m P s -> (forall a s', P a s' -> Q a s') -> wp m Q s.
Proof.
  unfold wp. destruct (m s) as [[a s']| | | |]; try done. auto.
Qed.

Lemma wp_and {S A} (m : ST S A) (P Q : A -> S -> Prop) s :
  wp m P s -> wp m Q s -> wp m (fun a s' => P a s' /\ Q a s') s.
Proof. unfold wp. destruct (m s) as [[a s']| | | |]; done. Qed.

Lemma wp_ext {S A} (m m' : ST S A) (Q : A -> S -> Prop) s :
  m s = m' s -> wp m' Q s -> wp m Q s.
Proof. unfold wp. by intros ->. Qed.

Lemma wp_gets {S A} (f : S -> A) (Q : A -> S -> Prop) s :
  Q (f s) s -> wp (gets f) Q s.
Proof. done. Qed.

Lemma wp_modify {S} (f : S -> S) (Q : unit -> S -> Prop) s :
  Q tt (f s) -> wp (modify f) Q s.
Proof. done. Qed.

Lemma wp_assert {S} c (Q : unit -> S -> Prop) s : c = true -> Q tt s -> wp (assert c) Q s.
Proof. by intros ->. Qed.

Lemma wp_lift {S A} (o : outcome A) (a : A) (Q : A -> S -> Prop) s :
  o = Done a -> Q a s -> wp (lift o) Q s.
Proof. intros -> HQ. done. Qed.

Lemma wp_try {S A} (m : ST S (result unit)) (k : ST S (result A))
    (Q : result A -> S -> Prop) s :
  wp m (fun r s' => match r with Ok _ => wp k Q s' | Err => Q Err s' end) s ->
  wp (try_then m k) Q s.
Proof.
  intros Hm. apply wp_bind. eapply wp_mono; [exact Hm|].
  intros [[]|] s' HQ; done.
Qed.

Lemma try_then_ext {S A} (m m' : ST S (result unit)) (k k' : ST S (result A)) s :
  m s = m' s -> (forall s', k s' = k' s') -> try_then m k s = try_then m' k' s.
Proof.
  intros Hm Hk. unfold try_then, mbind, ST_bind. rewrite Hm.
  by destruct (m' s) as [[[] s']| | | |].
Qed.

Lemma try_then_assoc {S A} (m1 m2 : ST S (result unit)) (k : ST S (result A)) s :
  try_then (try_then m1 m2) k s = try_then m1 (try_then m2 k) s.
Proof.
  unfold try_then, mbind, ST_bind. by destruct (m1 s) as [[[] s']| | | |].
Qed.

Lemma try_then_ret {S} (m : ST S (result unit)) s :
  try_then m (mret (Ok tt)) s = m s.
Proof.
  unfold try_then, mbind, ST_bind. by destruct (m s) as [[[[]|] s']| | | |].
Qed.

Lemma lift_Done {S A B} (a : A) (f : A -> ST S B) : lift (Done a) ≫= f = f a.
Proof. reflexivity. Qed.

Lemma try_then_Ok {S A} (k : ST S (result A)) : try_then (mret (Ok tt)) k = k.
Proof. reflexivity. Qed.

(** [wp] spelled out, for the statements a reader sees. *)
Lemma wp_done {S A} (m : ST S A) (Q : A -> S -> Prop) s :
  wp m Q s <-> exists a s', m s = Done (a, s') /\ Q a s'.
Proof.
  unfold wp. split.
  - destruct (m s) as [[a s']| | | |]; try done. eauto.
  - intros (a & s' & -> & HQ). done.
Qed.

Lemma ST_bind_Done {S A B} (m : ST S A) (f : A -> ST S B) s b s2 :
  (m ≫= f) s = Done (b, s2) <-> exists a s1, m s = Done (a, s1) /\ f a s1 = Done (b, s2).
Proof.
  unfold mbind, ST_bind. split.
  - destruct (m s) as [[a s1]| | | |]; try done. eauto.
  - by intros (a & s1 & -> & Hf).
Qed.

Lemma lift_inv {S A} (o : outcome A) (s : S) a s' :
  lift o s = Done (a, s') -> o = Done a /\ s' = s.
Proof. by destruct o; intros [= -> ->]. Qed.

Lemma outcome_bind_Done {A B} (o : outcome A) (f : A -> outcome B) (b : B) :
  o ≫= f = Done b <-> exists a, o = Done a /\ f a = Done b.
Proof.
  split.
  - destruct o; simpl; try done. eauto.
  - intros (a & -> & Hf). done.
Qed.

(** ** Slices: [iter().position(p)] and sub-slices *)

Section position.
Context {A : Type} (p : A -> bool).

Fixpoint position (l : list A) : option nat :=
  match l with
  | [] => None
  | x :: l' => if p x then Some 0%nat else S <$> position l'
  end.

Lemma position_None l : position l = None <-> Forall (fun x => p x = false) l.
Proof.
  induction l as [|x l IH]; simpl.
  - split; [constructor | done].
  - destruct (p x) eqn:Hx.
    + split; [done|]. intros Hf. inversion Hf. congruence.
    + rewrite fmap_None, IH, Forall_cons. tauto.
Qed.

Lemma position_Some l i :
  position l = Some i ->
  exists pre x suf, l = pre ++ x :: suf /\ length pre = i /\ p x = true /\
    Forall (fun y => p y = false) pre.
Proof.
  revert i. induction l as [|y l IH]; simpl; [done|]. intros i.
  destruct (p y) eqn:Hy.
  - intros [= <-]. exists [], y, l. auto.
  - intros (j & Hj & ->)%fmap_Some.
    destruct (IH _ Hj) as (pre & x & suf & -> & <- & Hx & Hpre).
    exists (y :: pre), x, suf. auto.
Qed.
End position.

(** ** Ascending lists of integers *)

Abbreviation ascending := (Sorted Z.le).
Abbreviation strictly_ascending := (Sorted Z.lt).

Lemma ascending_strongly l : ascending l <-> StronglySorted Z.le l.
Proof.
  split; [|apply StronglySorted_Sorted].
  apply Sorted_StronglySorted. intros ???; lia.
Qed.

Lemma strictly_ascending_strongly l :
  strictly_ascending l <-> StronglySorted Z.lt l.
Proof.
  split; [|apply StronglySorted_Sorted].
  apply Sorted_StronglySorted. intros ???; lia.
Qed.

Lemma ascending_cons x l :
  ascending (x :: l) <-> Forall (fun y => x <= y) l /\ ascending l.
Proof.
  rewrite !ascending_strongly. split.
  - intros Hs. inversion Hs; subst. auto.
  - intros [? ?]. by constructor.
Qed.

Lemma strictly_ascending_cons x l :
  strictly_ascending (x :: l) <-> Forall (fun y => x < y) l /\ strictly_ascending l.
Proof.
  rewrite !strictly_ascending_strongly. split.
  - intros Hs. inversion Hs; subst. auto.
  - intros [? ?]. by constructor.
Qed.

Lemma ascending_app l1 l2 :
  ascending (l1 ++ l2) <->
  ascending l1 /\ ascending l2 /\ (forall x y, x ∈ l1 -> y ∈ l2 -> x <= y).
Proof.
  induction l1 as [|a l1 IH]; simpl.
  - split; [|tauto]. intros H. split_and!; [constructor|done|].
    intros x y []%not_elem_of_nil.
  - rewrite !ascending_cons, IH, Forall_app, !Forall_forall.
    split.
    + intros ([Ha1 Ha2] & H1 & H2 & H12). split_and!; auto.
      intros x y [->|Hx]%elem_of_cons Hy; auto.
    + intros ([Ha H1] & H2 & H12). split_and!; auto.
      * intros y Hy. apply H12; [by left|done].
      * intros x y Hx Hy. apply H12; [by right|done].
Qed.

Lemma strictly_ascending_ext l1 l2 :
  strictly_ascending l1 -> strictly_ascending l2 ->
  (forall x, x ∈ l1 <-> x ∈ l2) -> l1 = l2.
Proof.
  revert l2. induction l1 as [|a l1 IH]; intros [|b l2] H1 H2 Hin; auto.
  - exfalso. apply (not_elem_of_nil b), Hin. by left.
  - exfalso. apply (not_elem_of_nil a), Hin. by left.
  - apply strictly_ascending_cons in H1 as [Ha H1].
    apply strictly_ascending_cons in H2 as [Hb H2].
    rewrite Forall_forall in Ha, Hb.
    assert (a = b) as ->.
    { pose proof (proj1 (Hin a) ltac:(by left)) as Hab.
      pose proof (proj2 (Hin b) ltac:(by left)) as Hba.
      apply elem_of_cons in Hab as [?|Hab]; [done|].
      apply elem_of_cons in Hba as [?|Hba]; [done|].
      specialize (Hb _ Hab). specialize (Ha _ Hba). lia. }
    f_equal. apply IH; auto. intros x. specialize (Hin x).
    rewrite !elem_of_cons in Hin. split; intros Hx.
    + specialize (Ha _ Hx). destruct (proj1 Hin ltac:(by right)); [lia|done].
    + specialize (Hb _ Hx). destruct (proj2 Hin ltac:(by right)); [lia|done].
Qed.

Lemma ascending_NoDup_strict l : ascending l -> NoDup l -> strictly_ascending l.
Proof.
  induction l as [|x l IH]; [constructor|].
  rewrite ascending_cons, strictly_ascending_cons, NoDup_cons.
  intros [Hx Hs] [Hn Hd]. split; [|auto]. rewrite Forall_forall in *.
  intros y Hy. specialize (Hx y Hy). assert (x <> y) by naive_solver. lia.
Qed.

Lemma strictly_ascending_filter (P : Z -> Prop) `{forall x, Decision (P x)} l :
  strictly_ascending l -> strictly_ascending (filter P l).
Proof.
  induction l as [|x l IH]; [done|]. rewrite strictly_ascending_cons. intros [Hx Hs].
  rewrite filter_cons. case_decide; [|auto]. rewrite strictly_ascending_cons.
  split; [|auto]. rewrite Forall_forall in *. intros y [_ Hy]%list_elem_of_filter. auto.
Qed.

Lemma strictly_ascending_app l1 l2 :
  strictly_ascending (l1 ++ l2) <->
  strictly_ascending l1 /\ strictly_ascending l2 /\
  (forall x y, x ∈ l1 -> y ∈ l2 -> x < y).
Proof.
  induction l1 as [|a l1 IH]; simpl.
  - split; [|tauto]. intros Hs. split_and!; [constructor|done|].
    intros x y []%not_elem_of_nil.
  - rewrite !strictly_ascending_cons, IH, Forall_app, !Forall_forall. split.
    + intros ([Ha1 Ha2] & H1 & H2 & H12). split_and!; auto.
      intros x y [->|Hx]%elem_of_cons Hy; auto.
    + intros ([Ha H1] & H2 & H12). split_and!; auto.
      * intros y Hy. apply H12; [by left|done].
      * intros x y Hx Hy. apply H12; [by right|done].
Qed.

(** ** Automation *)

Create HintDb close_fds discriminated.
#[export] Hint Resolve wp_ret wp_gets wp_modify : close_fds.

(** One step of a program under [wp]: descend into the head of a bind. *)
Ltac wp_step :=
  lazymatch goal with
  | |- wp (mbind _ _) _ _ => apply wp_bind
  | |- wp (mret _) _ _ => apply wp_ret
  | |- wp (gets _) _ _ => apply wp_gets
  | |- wp (modify _) _ _ => apply wp_modify
  | |- wp (try_then _ _) _ _ => apply wp_try
  | |- wp (lift _) _ _ => eapply wp_lift
  end.
Ltac wp_steps := repeat (wp_step; cbn beta).
