(* ===== verification/Platform.v ===== *)
(** * Targets, build profiles and memory layouts

    The crate is one source text for ten Unix targets, chosen by
    [#[cfg(target_os = ...)]]; [Config] carries the target, the build profile
    and what the [libc] crate declares for the target. [cfg] predicates are
    boolean functions of the target. The file ends with the layout of the
    [dirent] structure that src/sys.rs declares for FreeBSD. *)

From S2P Require Import Prelude.

(** ** Targets *)

Inductive target_os :=
| linux | macos | ios | freebsd | netbsd | openbsd | dragonfly | solaris | illumos
| other_unix.

#[export] Instance target_os_eq_dec : EqDecision target_os.
Proof. solve_decision. Defined.

Definition cfg_any (l : list target_os) (t : target_os) : bool := bool_decide (t ∈ l).

(** The [cfg] of the directory iterator: src/iterfds/mod.rs, lines 4-12. *)
Definition has_dirfd : target_os -> bool :=
  cfg_any [linux; macos; ios; freebsd; netbsd; solaris; illumos].
(** The [cfg] of the "nfds" methods. *)
Definition has_nfds : target_os -> bool := cfg_any [freebsd; openbsd].
(** The [cfg] of [closefrom]. *)
Definition has_closefrom : target_os -> bool :=
  cfg_any [freebsd; netbsd; openbsd; dragonfly].
(** The [cfg] of [apply_range]. *)
Definition has_close_range : target_os -> bool := cfg_any [linux; freebsd].

(** ** Structure layouts *)

(** The part of a [dirent] structure the crate reads: where [d_reclen] (a
    [u16]) and [d_name] (an array of [d_name_len] C characters) start, and the
    size of the whole structure. *)
Record dirent_layout := {
  d_reclen_off : nat;
  d_name_off : nat;
  d_name_len : nat;
  d_size : nat;
}.

(** The header comes before the name, and the name array lies in the structure.
    How long a name it has room for depends on the target: 256 characters on most
    of them, but only three are declared for Solaris and Illumos. *)
Record dirent_layout_ok (l : dirent_layout) : Prop := {
  layout_reclen : (d_reclen_off l + 2 <= d_name_off l)%nat;
  layout_name : (d_name_off l + d_name_len l <= d_size l)%nat;
  layout_size : Z.of_nat (d_size l) < 65536;
}.

(** ** Configuration *)

Class Config := {
  (** [cfg(target_os)] *)
  target : target_os;
  (** [cfg(debug_assertions)], which also turns the overflow checks on (the dev
      profile); [false] is the release profile. *)
  debug : bool;
  (** The width of [usize]. *)
  usize_bits : Z;
  (** The byte order of the target. *)
  big_endian : bool;
  (** The size of [libc::ino_t], which [sys::dirent] uses. *)
  ino_t_size : nat;
  (** The directory entry that the libc crate declares ([libc::dirent] or
      [libc::dirent64]). *)
  libc_dirent : dirent_layout;
}.

(** A native-endian [u16] read from two bytes. *)
Definition u16_of_bytes `{Config} (b0 b1 : Z) : Z :=
  if big_endian then 256 * b0 + b1 else b0 + 256 * b1.

(** What is assumed of a configuration. *)
Class ConfigOk (C : Config) : Prop := {
  usize_bits_ok : usize_bits = 32 \/ usize_bits = 64;
  ino_t_size_ok : ino_t_size = 4%nat \/ ino_t_size = 8%nat;
  libc_dirent_ok : dirent_layout_ok libc_dirent;
}.

(** ** [#[repr(C)]] and FreeBSD's [dirent] *)

(** A field of a [#[repr(C)]] structure: its name, the size of its type and the
    type's alignment. *)
Record field := { f_name : string; f_size : nat; f_align : nat }.

Definition align_up (off align : nat) : nat :=
  ((off + align - 1) / align * align)%nat.

(** The offset of each field, and the end of the last. *)
Fixpoint repr_c_offsets (off : nat) (fs : list field) : list (string * nat) * nat :=
  match fs with
  | [] => ([], off)
  | f :: fs' =>
      let start := align_up off (f_align f) in
      let '(offs, e) := repr_c_offsets (start + f_size f) fs' in
      ((f_name f, start) :: offs, e)
  end.

Definition repr_c_align (fs : list field) : nat :=
  foldr (fun f a => Nat.max (f_align f) a) 1%nat fs.

Definition repr_c_size (fs : list field) : nat :=
  align_up (snd (repr_c_offsets 0 fs)) (repr_c_align fs).

Definition offset_of (name : string) (fs : list field) : nat :=
  match list_find (fun p => fst p = name) (fst (repr_c_offsets 0 fs)) with
  | Some (_, (_, off)) => off
  | None => 0
  end.

(** [pub struct dirent] of src/sys.rs. *)
Definition sys_dirent_fields (ino_t : nat) : list field :=
  [ {| f_name := "d_fileno"; f_size := ino_t; f_align := ino_t |};
    {| f_name := "d_off"; f_size := 8; f_align := 8 |};
    {| f_name := "d_reclen"; f_size := 2; f_align := 2 |};
    {| f_name := "d_type"; f_size := 1; f_align := 1 |};
    {| f_name := "d_pad0"; f_size := 1; f_align := 1 |};
    {| f_name := "d_namlen"; f_size := 2; f_align := 2 |};
    {| f_name := "d_pad1"; f_size := 2; f_align := 2 |};
    {| f_name := "d_name"; f_size := 256; f_align := 1 |} ].

Definition sys_dirent_layout (ino_t : nat) : dirent_layout :=
  let fs := sys_dirent_fields ino_t in
  {| d_reclen_off := offset_of "d_reclen" fs;
     d_name_off := offset_of "d_name" fs;
     d_name_len := 256;
     d_size := repr_c_size fs |}.

(** [type RawDirent] of src/iterfds/dirfd.rs. *)
Definition RawDirent `{Config} : dirent_layout :=
  if decide (target = freebsd) then sys_dirent_layout ino_t_size else libc_dirent.

(** ** Lemmas *)

(** By the rules of [#[repr(C)]], the [dirent] that src/sys.rs declares for
    FreeBSD has [d_reclen] at offset 16, [d_name] at offset 24 and 280 bytes,
    whether [ino_t] has 32 or 64 bits: the layout of the system's own header. *)
Theorem sys_dirent_layout_correct `{C : Config, !ConfigOk C} :
  sys_dirent_layout ino_t_size =
    {| d_reclen_off := 16; d_name_off := 24; d_name_len := 256; d_size := 280 |}.
Proof. destruct ino_t_size_ok as [-> | ->]; reflexivity. Qed.

Lemma RawDirent_ok `{C : Config, !ConfigOk C} : dirent_layout_ok RawDirent.
Proof.
  unfold RawDirent. case_decide; [|apply libc_dirent_ok].
  destruct ino_t_size_ok as [-> | ->]; constructor; vm_compute; first [done | lia].
Qed.
