(* ===== verification/Ints.v ===== *)
(** * Machine integers

    [libc::c_int] is [i32], [libc::c_uint] is [u32]; [usize] has the target's
    pointer width. A value is a [Z]; the operations say what happens at the
    bounds. In a build with overflow checks an overflow panics, in a release
    build it wraps around. *)

From S2P Require Import Prelude Platform.

Definition i32_MIN : Z := -2147483648.
Definition i32_MAX : Z := 2147483647.
Definition u32_MAX : Z := 4294967295.

Definition in_i32 (z : Z) : bool := (i32_MIN <=? z) && (z <=? i32_MAX).

(** Wrapping to 32 bits, signed and unsigned ([as c_uint]). *)
Definition wrap_i32 (z : Z) : Z := (z + 2147483648) mod 4294967296 - 2147483648.
Definition as_u32 (z : Z) : Z := z mod 4294967296.

(** [checked_mul], [checked_add] *)
Definition i32_checked (z : Z) : option Z := if in_i32 z then Some z else None.
Definition checked_mul (a b : Z) : option Z := i32_checked (a * b).
Definition checked_add (a b : Z) : option Z := i32_checked (a + b).

Section ints.
Context `{Config}.

(** The result of an [i32] operation whose exact result is [z]. *)
Definition i32_result (z : Z) : outcome Z :=
  if in_i32 z then Done z else if debug then Panic else Done (wrap_i32 z).
Definition i32_add (a b : Z) : outcome Z := i32_result (a + b).
Definition i32_sub (a b : Z) : outcome Z := i32_result (a - b).
Definition i32_mul (a b : Z) : outcome Z := i32_result (a * b).

Definition usize_MAX : Z := 2 ^ usize_bits - 1.
Definition as_usize (z : Z) : Z := z mod 2 ^ usize_bits.
Definition usize_add (a b : Z) : outcome Z :=
  if a + b <=? usize_MAX then Done (a + b)
  else if debug then Panic else Done (as_usize (a + b)).
Definition usize_sub (a b : Z) : outcome Z :=
  if 0 <=? a - b then Done (a - b)
  else if debug then Panic else Done (as_usize (a - b)).
(** [saturating_sub] on [usize] *)
Definition saturating_sub (a b : Z) : Z := Z.max 0 (a - b).

(** [debug_assert!(c)] *)
Definition debug_assert (c : bool) : outcome unit :=
  if debug && negb c then Panic else Done tt.
End ints.

(** ** Indexing a slice

    [l[i]] panics out of range; [l.get_unchecked(i)] and a read through a raw
    pointer are undefined behaviour there. *)
Definition index (l : list Z) (i : Z) : outcome Z :=
  match l !! Z.to_nat i with Some x => Done x | None => Panic end.
Definition get_unchecked (l : list Z) (i : Z) : outcome Z :=
  match l !! Z.to_nat i with Some x => Done x | None => Undefined end.

(** ** Lemmas *)

Abbreviation is_i32 z := (i32_MIN <= z <= i32_MAX).

Lemma in_i32_true z : in_i32 z = true <-> is_i32 z.
Proof. unfold in_i32. rewrite andb_true_iff, !Z.leb_le. done. Qed.

Lemma in_i32_false z : in_i32 z = false <-> ~ is_i32 z.
Proof. rewrite <- in_i32_true. destruct (in_i32 z); naive_solver. Qed.

Lemma as_u32_small z : 0 <= z <= u32_MAX -> as_u32 z = z.
Proof. unfold as_u32, u32_MAX. intros ?. apply Z.mod_small. lia. Qed.

Lemma i32_checked_Some z r : i32_checked z = Some r <-> r = z /\ is_i32 z.
Proof.
  unfold i32_checked. destruct (in_i32 z) eqn:Hz.
  - apply in_i32_true in Hz. split; [by intros [= <-] | by intros [-> _]].
  - apply in_i32_false in Hz. split; [done | by intros [-> ?]].
Qed.

Section lemmas.
Context `{C : Config}.

Lemma i32_result_ok z : is_i32 z -> i32_result z = Done z.
Proof. intros ?%in_i32_true. unfold i32_result. by rewrite H. Qed.
Lemma i32_add_ok a b : is_i32 (a + b) -> i32_add a b = Done (a + b).
Proof. apply i32_result_ok. Qed.
Lemma i32_sub_ok a b : is_i32 (a - b) -> i32_sub a b = Done (a - b).
Proof. apply i32_result_ok. Qed.
Lemma i32_mul_ok a b : is_i32 (a * b) -> i32_mul a b = Done (a * b).
Proof. apply i32_result_ok. Qed.

Lemma debug_assert_ok c : c = true -> debug_assert c = Done tt.
Proof. intros ->. unfold debug_assert. by rewrite andb_false_r. Qed.

Lemma usize_MAX_large {OK : ConfigOk C} : u32_MAX <= usize_MAX.
Proof. unfold usize_MAX. destruct usize_bits_ok as [-> | ->]; done. Qed.

Lemma usize_add_ok a b : a + b <= usize_MAX -> usize_add a b = Done (a + b).
Proof. intros ?%Z.leb_le. unfold usize_add. by rewrite H. Qed.

Lemma usize_sub_ok a b : b <= a -> usize_sub a b = Done (a - b).
Proof. intros Hab. unfold usize_sub. by rewrite (proj2 (Z.leb_le _ _)) by lia. Qed.

Lemma as_usize_small {OK : ConfigOk C} z : 0 <= z <= u32_MAX -> as_usize z = z.
Proof.
  intros ?. pose proof usize_MAX_large. unfold usize_MAX in *.
  apply Z.mod_small. lia.
Qed.
End lemmas.
