(* ===== verification/Sys.v ===== *)
(** * The system interface and the world

    The crate is a layer between the operating system and its user. The
    operating system and the C library are not part of the crate: [Sys] lists
    the calls the crate makes to them as functions on an abstract kernel state,
    and the development is generic in it (KernelSpec.v states what the crate
    relies on, RefKernel.v is one kernel that has it).

    The world of the crate is that kernel state and the crate's own [static]
    variables. *)

From S2P Require Import Prelude Platform Ints.

(** ** The crate's static variables

    All are atomics used with [Ordering::Relaxed]. For one thread such an atomic
    is a variable; the threads of a process share them. *)
Record Statics := {
  MAY_HAVE_CLOSE_RANGE : bool;
  MAY_HAVE_CLOSE_RANGE_CLOEXEC : bool;
  (** 1=present, 0=absent, other values=uninitialized *)
  HAS_CLOSE_RANGE : Z;
  (** 0=not WSL 1, 1=WSL 1, other values=uninitialized *)
  IS_WSL1 : Z;
  PROBED : bool;
}.

(** The initial values of the statics. *)
Definition initial_statics : Statics :=
  {| MAY_HAVE_CLOSE_RANGE := true;
     MAY_HAVE_CLOSE_RANGE_CLOEXEC := true;
     HAS_CLOSE_RANGE := 2;
     IS_WSL1 := 2;
     PROBED := false |}.

Definition store_MAY_HAVE_CLOSE_RANGE (b : bool) (s : Statics) : Statics :=
  {| MAY_HAVE_CLOSE_RANGE := b;
     MAY_HAVE_CLOSE_RANGE_CLOEXEC := MAY_HAVE_CLOSE_RANGE_CLOEXEC s;
     HAS_CLOSE_RANGE := HAS_CLOSE_RANGE s; IS_WSL1 := IS_WSL1 s;
     PROBED := PROBED s |}.
Definition store_MAY_HAVE_CLOSE_RANGE_CLOEXEC (b : bool) (s : Statics) : Statics :=
  {| MAY_HAVE_CLOSE_RANGE := MAY_HAVE_CLOSE_RANGE s;
     MAY_HAVE_CLOSE_RANGE_CLOEXEC := b;
     HAS_CLOSE_RANGE := HAS_CLOSE_RANGE s; IS_WSL1 := IS_WSL1 s;
     PROBED := PROBED s |}.
Definition store_HAS_CLOSE_RANGE (v : Z) (s : Statics) : Statics :=
  {| MAY_HAVE_CLOSE_RANGE := MAY_HAVE_CLOSE_RANGE s;
     MAY_HAVE_CLOSE_RANGE_CLOEXEC := MAY_HAVE_CLOSE_RANGE_CLOEXEC s;
     HAS_CLOSE_RANGE := v; IS_WSL1 := IS_WSL1 s; PROBED := PROBED s |}.
Definition store_IS_WSL1 (v : Z) (s : Statics) : Statics :=
  {| MAY_HAVE_CLOSE_RANGE := MAY_HAVE_CLOSE_RANGE s;
     MAY_HAVE_CLOSE_RANGE_CLOEXEC := MAY_HAVE_CLOSE_RANGE_CLOEXEC s;
     HAS_CLOSE_RANGE := HAS_CLOSE_RANGE s; IS_WSL1 := v; PROBED := PROBED s |}.
Definition store_PROBED (b : bool) (s : Statics) : Statics :=
  {| MAY_HAVE_CLOSE_RANGE := MAY_HAVE_CLOSE_RANGE s;
     MAY_HAVE_CLOSE_RANGE_CLOEXEC := MAY_HAVE_CLOSE_RANGE_CLOEXEC s;
     HAS_CLOSE_RANGE := HAS_CLOSE_RANGE s; IS_WSL1 := IS_WSL1 s; PROBED := b |}.

(** ** Calls to the system *)

Inductive oflag := O_RDONLY | O_DIRECTORY | O_CLOEXEC.

#[export] Instance oflag_eq_dec : EqDecision oflag.
Proof. solve_decision. Defined.

(** The function that reads directory entries, per target. *)
Inductive getdents_call :=
| SYS_getdents64      (* Linux, a raw system call *)
| getdirentries       (* FreeBSD *)
| SYS_GETDIRENTRIES64 (* macOS and iOS, a raw system call *)
| getdents_libc.      (* NetBSD ([__getdents30]), Solaris and Illumos *)

Class Sys (K : Type) := {
  (** Constants of the C library. *)
  FD_CLOEXEC : Z;
  EINVAL : Z;
  (** The thread's [errno]. *)
  errno_get : K -> Z;
  errno_set : Z -> K -> K;
  (** Each call returns what the C function returns, and the new kernel. *)
  sys_open : string -> list oflag -> K -> Z * K;
  sys_close : Z -> K -> Z * K;
  sys_fcntl_getfd : Z -> K -> Z * K;
  sys_fcntl_setfd : Z -> Z -> K -> Z * K;
  sys_fcntl_maxfd : K -> Z * K;
  (** Returns the number of bytes and, when that is positive, the bytes. *)
  sys_getdents : getdents_call -> Z -> Z -> K -> (Z * list Z) * K;
  (** [None]: the kernel killed the process with [SIGSYS]. *)
  sys_close_range : Z -> Z -> Z -> K -> option Z * K;
  sys_closefrom : Z -> K -> K;
  sys_sysconf_open_max : K -> Z * K;
  (** The array [release] of the structure that [uname] fills, as bytes. *)
  sys_uname_release : K -> list Z * K;
  (** [sysctl] of [kern.proc.nfds] and of [kern.osreldate]: the return value
      and the integer written. *)
  sys_sysctl_nfds : K -> (Z * Z) * K;
  sys_sysctl_osreldate : K -> (Z * Z) * K;
  sys_getdtablecount : K -> Z * K;
  (** [stat] and [fstat]: the return value and [st_dev]. *)
  sys_stat_dev : string -> K -> (Z * Z) * K;
  sys_fstat_dev : Z -> K -> (Z * Z) * K;
  (** The memory that the threads of the process share: the statics as a load
      finds them, given what this thread last knew of them, and the moment at
      which this thread has stored to one of them. *)
  race : Statics -> K -> Statics * K;
  publish : Statics -> K -> K;
}.

(** [sys::CLOSE_RANGE_CLOEXEC] of src/sys.rs. *)
Definition CLOSE_RANGE_CLOEXEC : Z := Z.shiftl 1 2.

(** ** The world *)

Record World (K : Type) := mkWorld { kern : K; statics : Statics }.
Arguments mkWorld {_} _ _.
Arguments kern {_} _.
Arguments statics {_} _.

Section world.
Context {K : Type}.

(** A call to the system, in the crate's monad. *)
Definition call {A} (f : K -> A * K) : ST (World K) A := fun w =>
  let '(a, k) := f (kern w) in Done (a, mkWorld k (statics w)).

(** A system call that may be fatal. *)
Definition call_or_die {A} (f : K -> option A * K) : ST (World K) A := fun w =>
  match f (kern w) with
  | (Some a, k) => Done (a, mkWorld k (statics w))
  | (None, _) => Killed
  end.

Context `{Sys K}.

Definition load {A} (f : Statics -> A) : ST (World K) A := fun w =>
  let '(s, k) := race (statics w) (kern w) in Done (f s, mkWorld k s).
Definition store (f : Statics -> Statics) : ST (World K) unit := fun w =>
  let s := f (statics w) in Done (tt, mkWorld (publish s (kern w)) s).

Definition set_errno (e : Z) : ST (World K) unit :=
  modify (fun w => mkWorld (errno_set e (kern w)) (statics w)).
Definition get_errno : ST (World K) Z := gets (fun w => errno_get (kern w)).

Definition libc_open (path : string) (flags : list oflag) : ST (World K) Z :=
  call (sys_open path flags).
Definition libc_close (fd : Z) : ST (World K) unit :=
  _ ← call (sys_close fd); mret tt.

(** ** Lemmas *)

Lemma wp_call {A} (f : K -> A * K) (Q : A -> World K -> Prop) w :
  (forall a k, f (kern w) = (a, k) -> Q a (mkWorld k (statics w))) ->
  wp (call f) Q w.
Proof. intros HQ. unfold wp, call. destruct (f (kern w)) as [a k]. auto. Qed.

Lemma wp_call_or_die {A} (f : K -> option A * K) (Q : A -> World K -> Prop) w :
  (forall r k, f (kern w) = (r, k) ->
     exists a, r = Some a /\ Q a (mkWorld k (statics w))) ->
  wp (call_or_die f) Q w.
Proof.
  intros HQ. unfold wp, call_or_die. destruct (f (kern w)) as [r k].
  destruct (HQ _ _ eq_refl) as (a & -> & Ha). done.
Qed.
End world.
