(* ===== verification/KernelSpec.v ===== *)
(** * What the crate relies on

    [KernelView] is the part of a kernel's state the crate's behaviour is about:
    the descriptor table, the position of each directory stream that lists the
    table, and the constants of the system. [KernelSpec] states the documented
    behaviour of each call of [Sys] on that view, for a process in which no
    other thread opens or closes descriptors. Nothing here mentions the crate's
    code; every theorem about the world is proved against this interface. *)

From S2P Require Import Prelude Platform Ints Sys.

(** ** Directory entries *)

(** A descriptor's name in [/proc/self/fd] and [/dev/fd]: its number in decimal. *)
Fixpoint decimal_aux (fuel : nat) (n : Z) : list Z :=
  match fuel with
  | O => []
  | S fuel' =>
      if n <? 10 then [48 + n] else decimal_aux fuel' (n / 10) ++ [48 + n mod 10]
  end.
(** Twenty digits are enough for every 64-bit number. *)
Definition decimal (n : Z) : list Z := decimal_aux 20 n.

(** An entry of the directory is a descriptor or one of "." and "..". *)
Inductive dirent_name : option Z -> list Z -> Prop :=
| name_fd fd : 0 <= fd -> dirent_name (Some fd) (decimal fd)
| name_dot : dirent_name None [46]
| name_dotdot : dirent_name None [46; 46].

(** [dirents data es]: the bytes [data] are the entries [es] one after the
    other, each with its record length and its NUL-terminated name in place. The
    name fits the array [d_name] of the target's declaration. For Solaris and
    Illumos the libc crate declares three characters: there a process has no
    descriptor above 999, or the crate reads the wrong numbers
    ([DirFdIter.long_name_truncated]). *)
Inductive dirents `{Config} : list Z -> list (option Z) -> Prop :=
| dirents_nil : dirents [] []
| dirents_cons header name pad b0 b1 e data es :
    dirent_name e name -> (length name <= d_name_len RawDirent)%nat ->
    length header = d_name_off RawDirent ->
    header !! d_reclen_off RawDirent = Some b0 ->
    header !! S (d_reclen_off RawDirent) = Some b1 ->
    u16_of_bytes b0 b1 = Z.of_nat (length (header ++ name ++ 0 :: pad)) ->
    dirents data es ->
    dirents ((header ++ name ++ 0 :: pad) ++ data) (e :: es).

(** The descriptors among the entries. *)
Definition listed_fds (es : list (option Z)) : list Z := omap id es.

(** ** System constants *)

Record Env := {
  (** [sysconf(_SC_OPEN_MAX)] *)
  env_open_max : Z;
  (** The array [release] of [uname]. *)
  env_release : list Z;
  (** [kern.osreldate] *)
  env_osreldate : Z;
  (** The device of [/dev], and of what is at [/dev/fd]. *)
  env_dev : Z;
  env_devfd : Z;
  (** The files that can be opened. *)
  env_paths : list string;
  (** Linux: whether the system call [close_range] works, and whether it knows
      the flag [CLOSE_RANGE_CLOEXEC], where that is settled; a system in which it
      works from time to time has [None]. *)
  env_close_range : option bool;
  env_cloexec_range : option bool;
  (** [kern.osreldate] can be read at any time. *)
  env_osreldate_known : bool;
}.

(** The string of a NUL-terminated array. *)
Fixpoint cstr (l : list Z) : list Z :=
  match l with
  | [] => []
  | c :: l' => if c =? 0 then [] else c :: cstr l'
  end.

(** [b"Microsoft"] *)
Definition Microsoft : list Z := [77; 105; 99; 114; 111; 115; 111; 102; 116].

(** WSL 1 is a kernel whose release name ends with "Microsoft". *)
Definition wsl1_release (release : list Z) : Prop := Microsoft `suffix_of` cstr release.

(** The directories that list the process's descriptors. On FreeBSD [/dev/fd]
    does so when an [fdescfs] is mounted there, on a device of its own. *)
Definition lists_fds (t : target_os) (e : Env) (path : string) : Prop :=
  match t with
  | linux => path = "/proc/self/fd"%string /\ ~ wsl1_release (env_release e)
  | freebsd => path = "/dev/fd"%string /\ env_dev e <> env_devfd e
  | netbsd => path = "/proc/self/fd"%string
  | macos | ios => path = "/dev/fd"%string
  | solaris | illumos => path = "/dev/fd"%string \/ path = "/proc/self/fd"%string
  | _ => False
  end.

Definition native_getdents (t : target_os) (c : getdents_call) : Prop :=
  match t with
  | linux => c = SYS_getdents64
  | freebsd => c = getdirentries
  | macos | ios => c = SYS_GETDIRENTRIES64
  | netbsd | solaris | illumos => c = getdents_libc
  | _ => False
  end.

(** ** The view *)

Class KernelView (K : Type) := {
  (** The open descriptors with their descriptor flags. *)
  fds : K -> gmap Z Z;
  (** For a stream that lists the descriptors: every open descriptor that is at
      least this number is still to be reported. Negative numbers are the
      positions of "." and "..". *)
  dirnext : K -> Z -> option Z;
  env : K -> Env;
}.

Section frame.
Context {K : Type} `{KernelView K}.

(** The constants stay, and so do the streams that are open afterwards. *)
Definition frame (k k' : K) : Prop :=
  env k' = env k /\
  forall d, is_Some (fds k' !! d) -> dirnext k' d = dirnext k d.

(** The call changes nothing the view shows. *)
Definition same_view (k k' : K) : Prop := fds k' = fds k /\ frame k k'.

(** The descriptor [d] is open, and nothing happened to it. *)
Definition untouched (d : Z) (k k' : K) : Prop :=
  is_Some (fds k' !! d) /\ fds k' !! d = fds k !! d /\ dirnext k' d = dirnext k d.
End frame.

(** ** The laws *)

Class KernelSpec (K : Type) `{Config} `{SK : Sys K} `{KernelView K} : Prop := {
  (** Descriptors and their flags are nonnegative, and no system has a limit on
      descriptors near 2^31. *)
  fds_wf k fd fl :
    fds k !! fd = Some fl -> 0 <= fd < i32_MAX /\ 0 <= fl;
  FD_CLOEXEC_wf : 0 < FD_CLOEXEC;
  dirnext_wf k d p : dirnext k d = Some p -> -2 <= p;

  errno_set_get e k : errno_get (errno_set e k) = e;
  errno_set_view e k : same_view k (errno_set e k);

  (** [open] fails, or returns a descriptor that was closed. *)
  open_spec path flags k r k' :
    sys_open path flags k = (r, k') ->
    (r < 0 /\ same_view k k') \/
    (0 <= r /\ fds k !! r = None /\ env k' = env k /\
     (exists fl, fds k' = <[r := fl]> (fds k)) /\
     (forall d, d <> r -> is_Some (fds k' !! d) -> dirnext k' d = dirnext k d) /\
     (lists_fds target (env k) path ->
        exists p, dirnext k' r = Some p /\ p <= 0));

  (** A new descriptor is close-on-exec exactly when that is asked for. *)
  open_flags path flags k r k' fl :
    sys_open path flags k = (r, k') -> 0 <= r -> fds k' !! r = Some fl ->
    Z.land fl FD_CLOEXEC = if decide (O_CLOEXEC ∈ flags) then FD_CLOEXEC else 0;

  (** The new descriptor is the lowest closed one, and is within the limit of the
      process; a negative [_SC_OPEN_MAX] says that there is none. *)
  open_lowest path flags k r k' f :
    sys_open path flags k = (r, k') -> 0 <= f < r -> is_Some (fds k !! f);
  open_limit path flags k r k' :
    sys_open path flags k = (r, k') -> 0 <= env_open_max (env k) -> r < env_open_max (env k);

  open_missing path flags k r k' :
    sys_open path flags k = (r, k') -> path ∉ env_paths (env k) -> r < 0;

  (** [close] closes; on a closed descriptor it fails and does nothing. *)
  close_spec fd k r k' :
    sys_close fd k = (r, k') -> fds k' = delete fd (fds k) /\ frame k k';
  getfd_spec fd k r k' :
    sys_fcntl_getfd fd k = (r, k') ->
    r = default (-1) (fds k !! fd) /\ same_view k k';
  setfd_spec fd fl k r k' :
    sys_fcntl_setfd fd fl k = (r, k') -> is_Some (fds k !! fd) -> 0 <= fl ->
    fds k' = <[fd := fl]> (fds k) /\ frame k k';
  setfd_result fd fl k r k' :
    sys_fcntl_setfd fd fl k = (r, k') -> is_Some (fds k !! fd) -> 0 <= fl -> r = 0;
  setfd_closed fd fl k r k' :
    sys_fcntl_setfd fd fl k = (r, k') -> fds k !! fd = None -> same_view k k';

  (** A directory read returns whole entries: consecutive open descriptors in
      ascending order, or nothing when none is left. *)
  getdents_spec c d len k n data k' p :
    native_getdents target c ->
    sys_getdents c d len k = ((n, data), k') ->
    is_Some (fds k !! d) -> dirnext k d = Some p ->
    fds k' = fds k /\ env k' = env k /\
    (n = 0 -> forall f, p <= f -> fds k !! f = None) /\
    (0 < n -> n = Z.of_nat (length data) /\ n <= len /\
       exists es p', dirents data es /\ dirnext k' d = Some p' /\
         p < p' <= i32_MAX + 1 /\ strictly_ascending (listed_fds es) /\
         forall f, f ∈ listed_fds es <-> p <= f < p' /\ is_Some (fds k !! f));

  (** [close_range] does its work or fails and does nothing. *)
  close_range_spec lo hi k r k' :
    sys_close_range lo hi 0 k = (Some r, k') ->
    frame k k' /\
    (r = 0 -> lo <= hi /\
       forall f, fds k' !! f = if decide (lo <= f <= hi) then None else fds k !! f) /\
    (r <> 0 -> fds k' = fds k);
  close_range_cloexec_spec lo hi k r k' :
    sys_close_range lo hi 4 k = (Some r, k') ->
    frame k k' /\
    (r = 0 -> lo <= hi /\
       forall f, fds k' !! f =
         if decide (lo <= f <= hi) then (fun fl => Z.lor fl FD_CLOEXEC) <$> fds k !! f
         else fds k !! f) /\
    (r <> 0 -> fds k' = fds k);
  (** Linux refuses an unknown system call with an error; FreeBSD has
      [close_range] since 12.2 ([osreldate] 1202000). *)
  close_range_survives lo hi fl k k' :
    target = linux \/ (target = freebsd /\ 1202000 <= env_osreldate (env k)) ->
    sys_close_range lo hi fl k <> (None, k');
  (** Linux: where it works it closes every range and refuses an inverted one
      with [EINVAL]; where it does not exist it fails with another error. *)
  close_range_present lo hi k r k' :
    target = linux -> env_close_range (env k) = Some true ->
    sys_close_range lo hi 0 k = (Some r, k') ->
    (0 <= lo <= hi -> hi <= u32_MAX -> r = 0) /\ (hi < lo -> errno_get k' = EINVAL);
  close_range_absent lo hi k r k' :
    target = linux -> env_close_range (env k) = Some false ->
    sys_close_range lo hi 0 k = (Some r, k') -> r <> 0 /\ errno_get k' <> EINVAL;
  cloexec_range_present lo hi k r k' :
    target = linux -> env_cloexec_range (env k) = Some true ->
    sys_close_range lo hi 4 k = (Some r, k') -> 0 <= lo <= hi -> hi <= u32_MAX -> r = 0;
  cloexec_range_absent lo hi k r k' :
    target = linux -> env_cloexec_range (env k) = Some false ->
    sys_close_range lo hi 4 k = (Some r, k') -> r <> 0;
  closefrom_spec lo k :
    frame k (sys_closefrom lo k) /\
    forall f, fds (sys_closefrom lo k) !! f =
      if decide (lo <= f) then None else fds k !! f;

  sysconf_spec k r k' :
    sys_sysconf_open_max k = (r, k') -> r = env_open_max (env k) /\ same_view k k';
  uname_spec k r k' :
    sys_uname_release k = (r, k') -> r = env_release (env k) /\ same_view k k';
  osreldate_spec k r v k' :
    sys_sysctl_osreldate k = ((r, v), k') ->
    same_view k k' /\ (r = 0 -> v = env_osreldate (env k));
  osreldate_known k r v k' :
    sys_sysctl_osreldate k = ((r, v), k') -> env_osreldate_known (env k) = true -> r = 0;
  (** The number of open descriptors. *)
  nfds_spec k r v k' :
    sys_sysctl_nfds k = ((r, v), k') ->
    same_view k k' /\ (r = 0 -> v = Z.of_nat (size (fds k)));
  getdtablecount_spec k r k' :
    sys_getdtablecount k = (r, k') ->
    same_view k k' /\ r = Z.of_nat (size (fds k));
  (** NetBSD: [fcntl(0, F_MAXFD)] returns the highest open descriptor; -1 with
      [errno] left alone says that none is open. *)
  maxfd_spec k r k' :
    sys_fcntl_maxfd k = (r, k') ->
    same_view k k' /\ r < i32_MAX /\
    (0 <= r -> forall f, is_Some (fds k !! f) -> f <= r) /\
    (r = -1 -> errno_get k = 0 -> errno_get k' = 0 -> fds k = ∅);
  stat_spec path k r k' : sys_stat_dev path k = (r, k') -> same_view k k';
  stat_dev k dev k' :
    sys_stat_dev "/dev"%string k = ((0, dev), k') -> dev = env_dev (env k);
  fstat_spec fd k r k' : sys_fstat_dev fd k = (r, k') -> same_view k k';
  (** [fstat] of a descriptor that was opened as [/dev/fd]. *)
  fstat_devfd flags k0 d k1 k2 devfd k3 :
    sys_open "/dev/fd"%string flags k0 = (d, k1) -> 0 <= d ->
    env k2 = env k1 -> untouched d k1 k2 ->
    sys_fstat_dev d k2 = ((0, devfd), k3) -> devfd = env_devfd (env k0);

  (** No other thread is in the crate. *)
  race_alone s k : race s k = (s, k);
  publish_alone s k : publish s k = k;
}.

(** ** Lemmas *)

Section lemmas.
Context {K : Type} `{KernelView K}.

Lemma frame_refl (k : K) : frame k k.
Proof. done. Qed.

Lemma frame_trans (k1 k2 k3 : K) :
  frame k1 k2 -> frame k2 k3 ->
  (forall d, is_Some (fds k3 !! d) -> is_Some (fds k2 !! d)) -> frame k1 k3.
Proof.
  intros [E1 D1] [E2 D2] Hsub. split; [congruence|].
  intros d Hd. rewrite D2 by done. apply D1. auto.
Qed.

Lemma same_view_refl (k : K) : same_view k k.
Proof. done. Qed.

Lemma same_view_trans (k1 k2 k3 : K) :
  same_view k1 k2 -> same_view k2 k3 -> same_view k1 k3.
Proof.
  intros (E1 & V1 & D1) (E2 & V2 & D2). split; [congruence|].
  split; [congruence|].
  intros d Hd. rewrite D2 by done. apply D1. by rewrite <- E2.
Qed.

Lemma same_view_untouched d (k k' : K) :
  is_Some (fds k !! d) -> same_view k k' -> untouched d k k'.
Proof. intros Hd (E & _ & D). unfold untouched. rewrite D by (by rewrite E). by rewrite E. Qed.
End lemmas.

(** *** The statics of one thread *)

Section alone.
Context `{C : Config} {K : Type} `{SK : Sys K} `{KV : KernelView K} {KS : KernelSpec K}.

Lemma load_alone {A} (f : Statics -> A) (w : World K) : load f w = Done (f (statics w), w).
Proof. unfold load. rewrite race_alone. by destruct w. Qed.

Lemma store_alone f (w : World K) : store f w = Done (tt, mkWorld (kern w) (f (statics w))).
Proof. unfold store. by rewrite publish_alone. Qed.

Lemma wp_load {A} (f : Statics -> A) (Q : A -> World K -> Prop) w :
  Q (f (statics w)) w -> wp (load f) Q w.
Proof. intros HQ. unfold wp. by rewrite load_alone. Qed.

Lemma wp_store (f : Statics -> Statics) (Q : unit -> World K -> Prop) w :
  Q tt (mkWorld (kern w) (f (statics w))) -> wp (store f) Q w.
Proof. intros HQ. unfold wp. by rewrite store_alone. Qed.
End alone.

(** *** Names of descriptors *)

Lemma decimal_aux_length fuel n : (length (decimal_aux fuel n) <= fuel)%nat.
Proof.
  revert n. induction fuel as [|fuel IH]; intros n; simpl; [lia|].
  destruct (n <? 10); simpl; [lia|]. rewrite length_app. specialize (IH (n / 10)).
  simpl. lia.
Qed.

Lemma decimal_aux_enough fuel1 fuel2 n :
  0 <= n < 10 ^ (Z.of_nat fuel1 + 1) -> (fuel1 <= fuel2)%nat ->
  decimal_aux (S fuel2) n = decimal_aux (S fuel1) n.
Proof.
  revert fuel2 n. induction fuel1 as [|fuel1 IH]; intros fuel2 n Hn Hf.
  - simpl. by rewrite (proj2 (Z.ltb_lt _ _)) by (simpl in Hn; lia).
  - destruct fuel2 as [|fuel2]; [lia|].
    change (decimal_aux (S (S ?f)) n) with
      (if n <? 10 then [48 + n] else decimal_aux (S f) (n / 10) ++ [48 + n mod 10]).
    destruct (Z.ltb_spec n 10); [done|]. f_equal. apply IH; [|lia].
    rewrite Nat2Z.inj_succ, Z.add_succ_l, Z.pow_succ_r in Hn by lia. split.
    + apply Z.div_pos; lia.
    + apply Z.div_lt_upper_bound; lia.
Qed.

(** A 32-bit descriptor has at most ten digits. *)
Lemma decimal_length n : 0 <= n <= i32_MAX -> (length (decimal n) <= 10)%nat.
Proof.
  intros Hn. unfold decimal.
  rewrite (decimal_aux_enough 9 19) by (unfold i32_MAX in *; lia).
  apply decimal_aux_length.
Qed.

