(* ===== verification/Util.v ===== *)
(** * src/util.rs

    The helpers on lists of descriptors ([inspect_keep_fds],
    [simplify_keep_fds], [check_should_keep], [apply_range]) and on single
    descriptors ([is_fd_valid], [set_cloexec]), and the detection of WSL 1. *)

From S2P Require Import Prelude Platform Ints Sys KernelSpec.

(** ** Definitions *)

Section util.
Context `{C : Config}.

(** The [for] loop of [inspect_keep_fds]. *)
Fixpoint inspect_loop (keep_fds : list Z) (max_keep_fd last_fd : Z)
    (fds_sorted : bool) : outcome (Z * bool) :=
  match keep_fds with
  | [] => mret (max_keep_fd, fds_sorted)
  | fd :: rest =>
      if max_keep_fd <? fd then
        debug_assert (last_fd <=? fd);;
        inspect_loop rest fd fd fds_sorted
      else if fd <? last_fd then inspect_loop rest max_keep_fd fd false
      else inspect_loop rest max_keep_fd fd fds_sorted
  end.

Definition inspect_keep_fds (keep_fds : list Z) : outcome (Z * bool) :=
  inspect_loop keep_fds i32_MIN i32_MIN true.

(** The [while let] loop of [simplify_keep_fds]; the result is the rest of the
    slice and the new [minfd]. *)
Fixpoint simplify_loop (keep_fds : list Z) (minfd : Z) : outcome (list Z * Z) :=
  match keep_fds with
  | [] => mret ([], minfd)
  | first :: rest =>
      match first ?= minfd with
      | Gt => mret (keep_fds, minfd)
      | Eq => minfd' ← i32_add minfd 1; simplify_loop rest minfd'
      | Lt => simplify_loop rest minfd
      end
  end.

Definition simplify_keep_fds (keep_fds : list Z) (fds_sorted : bool) (minfd : Z)
  : outcome (list Z * Z) :=
  if fds_sorted then simplify_loop keep_fds minfd else mret (keep_fds, minfd).

(** Returns the answer and the slice that [*keep_fds] points to afterwards. *)
Definition check_should_keep (keep_fds : list Z) (fd : Z) (fds_sorted : bool)
  : bool * list Z :=
  if fds_sorted then
    let keep_fds' :=
      match position (fun x => fd <=? x) keep_fds with
      | Some index => drop index keep_fds
      | None => keep_fds
      end in
    (bool_decide (head keep_fds' = Some fd), keep_fds')
  else (bool_decide (fd ∈ keep_fds), keep_fds).

(** The [for i in 0..(keep_fds.len() - 1)] loop of [apply_range]. *)
Fixpoint apply_range_loop {S} (keep_fds : list Z) (indices : list nat)
    (func : Z -> Z -> ST S (result unit)) : ST S (result unit) :=
  match indices with
  | [] => mret (Ok tt)
  | i :: indices' =>
      low ← lift (get_unchecked keep_fds (Z.of_nat i));
      high ← lift (get_unchecked keep_fds (Z.of_nat i + 1));
      lift (debug_assert (low <=? high));;
      gap ← lift (i32_sub high low);
      try_then
        (if 2 <=? gap then
           lo ← lift (i32_add low 1);
           hi ← lift (i32_sub high 1);
           func lo hi
         else mret (Ok tt))
        (apply_range_loop keep_fds indices' func)
  end.

Definition apply_range {S} (minfd : Z) (keep_fds : list Z)
    (func : Z -> Z -> ST S (result unit)) : ST S (result unit) :=
  match position (fun fd => minfd <=? fd) keep_fds with
  | None => func minfd i32_MAX
  | Some idx =>
      let keep_fds := drop idx keep_fds in
      first ← lift (index keep_fds 0);
      try_then
        (if minfd <? first then hi ← lift (i32_sub first 1); func minfd hi
         else mret (Ok tt))
        (n ← lift (usize_sub (Z.of_nat (length keep_fds)) 1);
         try_then (apply_range_loop keep_fds (seq 0 (Z.to_nat n)) func)
           (last ← lift (index keep_fds n);
            lo ← lift (i32_add last 1);
            func lo i32_MAX))
  end.
End util.

Section system.
Context `{C : Config} {K : Type} `{SK : Sys K}.

(** [uname_release.ends_with(suffix)] *)
Definition ends_with (l suffix : list Z) : bool :=
  bool_decide (length suffix <= length l)%nat &&
  bool_decide (drop (length l - length suffix) l = suffix).

Definition is_wsl_1 : ST (World K) bool :=
  v ← load IS_WSL1;
  if v =? 1 then mret true
  else if v =? 0 then mret false
  else
    release ← call sys_uname_release;
    let uname_release_len :=
      default (length release) (position (fun c => c =? 0) release) in
    let uname_release := take uname_release_len release in
    let wsl := ends_with uname_release Microsoft in
    store (store_IS_WSL1 (if wsl then 1 else 0));;
    mret wsl.

Definition is_fd_valid (fd : Z) : ST (World K) bool :=
  r ← call (sys_fcntl_getfd fd); mret (0 <=? r).

Definition set_cloexec (fd : Z) : ST (World K) unit :=
  flags ← call (sys_fcntl_getfd fd);
  if (0 <=? flags) && negb (Z.land flags FD_CLOEXEC =? FD_CLOEXEC) then
    _ ← call (sys_fcntl_setfd fd (Z.lor flags FD_CLOEXEC)); mret tt
  else mret tt.
End system.

(** The cached answers agree with the system. *)
Record statics_ok `{Config} (e : Env) (s : Statics) : Prop := {
  statics_wsl_0 : IS_WSL1 s = 0 -> ~ wsl1_release (env_release e);
  statics_wsl_1 : IS_WSL1 s = 1 -> wsl1_release (env_release e);
  statics_has_close_range : HAS_CLOSE_RANGE s = 1 -> 1202000 <= env_osreldate e;
  statics_no_close_range : HAS_CLOSE_RANGE s = 0 ->
    env_osreldate_known e = true -> env_osreldate e < 1202000;
  statics_close_range : MAY_HAVE_CLOSE_RANGE s = false -> env_close_range e <> Some true;
  statics_cloexec_range :
    MAY_HAVE_CLOSE_RANGE_CLOEXEC s = false -> env_cloexec_range e <> Some true;
}.

(** What may be stored. *)
Section stores.
Context `{C : Config} (e : Env) (s : Statics) (Hs : statics_ok e s).

Lemma store_no_close_range :
  env_close_range e <> Some true -> statics_ok e (store_MAY_HAVE_CLOSE_RANGE false s).
Proof. intros He. destruct Hs. by constructor. Qed.

Lemma store_no_cloexec_range :
  env_cloexec_range e <> Some true -> statics_ok e (store_MAY_HAVE_CLOSE_RANGE_CLOEXEC false s).
Proof. intros He. destruct Hs. by constructor. Qed.

Lemma store_has_close_range v :
  (v = 1 -> 1202000 <= env_osreldate e) ->
  (v = 0 -> env_osreldate_known e = true -> env_osreldate e < 1202000) ->
  statics_ok e (store_HAS_CLOSE_RANGE v s).
Proof. intros H1 H0. destruct Hs. by constructor. Qed.

Lemma store_probed b : statics_ok e (store_PROBED b s).
Proof. destruct Hs. by constructor. Qed.
End stores.

(** ** Specifications *)

(** The ranges between the elements of [keep_fds], from [minfd] up: what
    [apply_range] is to call its function on. *)
Fixpoint gaps (minfd : Z) (keep_fds : list Z) : list (Z * Z) :=
  match keep_fds with
  | [] => [(minfd, i32_MAX)]
  | x :: rest =>
      if x <? minfd then gaps minfd rest
      else (if minfd <? x then [(minfd, x - 1)] else []) ++ gaps (x + 1) rest
  end.

(** All of these but the last, and where the last one starts: after the last
    element, if that is not below [minfd]. *)
Fixpoint inner_gaps (minfd : Z) (keep_fds : list Z) : list (Z * Z) :=
  match keep_fds with
  | [] => []
  | x :: rest =>
      if x <? minfd then inner_gaps minfd rest
      else (if minfd <? x then [(minfd, x - 1)] else []) ++ inner_gaps (x + 1) rest
  end.
Definition last_start (minfd : Z) (keep_fds : list Z) : Z :=
  match last keep_fds with
  | Some x => if x <? minfd then minfd else x + 1
  | None => minfd
  end.

(** Call a function on each range, up to the first error. *)
Fixpoint run_ranges {S} (func : Z -> Z -> ST S (result unit)) (rs : list (Z * Z))
  : ST S (result unit) :=
  match rs with
  | [] => mret (Ok tt)
  | (lo, hi) :: rs' => try_then (func lo hi) (run_ranges func rs')
  end.

(** ** [inspect_keep_fds] *)

Section inspect.
Context `{C : Config}.

Lemma inspect_loop_spec keep mx last srt :
  last <= mx ->
  exists mx' b, inspect_loop keep mx last srt = Done (mx', b) /\
    (b = true <-> srt = true /\ ascending (last :: keep)) /\
    mx <= mx' /\ (mx' = mx \/ mx' ∈ keep) /\ (forall x, x ∈ keep -> x <= mx').
Proof.
  revert mx last srt. induction keep as [|fd keep IH]; intros mx last srt Hl; simpl.
  - exists mx, srt. split_and!; auto; [|lia|set_solver].
    split; [|tauto]. intros ->. split; [done|]. by repeat constructor.
  - assert (Hcons : ascending (last :: fd :: keep) <->
                    last <= fd /\ ascending (fd :: keep)).
    { split; [|intros []; constructor; [done|by constructor]].
      intros Hs. inversion Hs as [|?? Hs' Hh]; subst. by inversion Hh. }
    destruct (Z.ltb_spec mx fd); [|destruct (Z.ltb_spec fd last)].
    + rewrite debug_assert_ok by (apply Z.leb_le; lia). simpl.
      destruct (IH fd fd srt) as (mx' & b & -> & Hb & H1 & H2 & H3); [lia..|].
      exists mx', b. split_and!; [done| |lia| |].
      * rewrite Hb, Hcons. intuition lia.
      * right. destruct H2 as [->|]; [by left|by right].
      * intros x [->|Hx]%elem_of_cons; [lia|auto].
    + destruct (IH mx fd false) as (mx' & b & -> & Hb & H1 & H2 & H3); [lia..|].
      exists mx', b. split_and!; [done| |lia| |].
      * rewrite Hb, Hcons. intuition (try lia; try done).
      * destruct H2 as [->|]; [by left|right; by right].
      * intros x [->|Hx]%elem_of_cons; [lia|auto].
    + destruct (IH mx fd srt) as (mx' & b & -> & Hb & H1 & H2 & H3); [lia..|].
      exists mx', b. split_and!; [done| |lia| |].
      * rewrite Hb, Hcons. intuition lia.
      * destruct H2 as [->|]; [by left|right; by right].
      * intros x [->|Hx]%elem_of_cons; [lia|auto].
Qed.

(** For a slice of [c_int]s, [inspect_keep_fds] never trips its assertion;
    its flag says exactly whether the slice is ascending, and its maximum is
    the largest element, [c_int::MIN] for the empty slice. *)
Lemma inspect_keep_fds_spec keep :
  Forall (fun x => is_i32 x) keep ->
  exists mx b, inspect_keep_fds keep = Done (mx, b) /\
    (b = true <-> ascending keep) /\
    (forall x, x ∈ keep -> x <= mx) /\
    (keep = [] /\ mx = i32_MIN \/ mx ∈ keep).
Proof.
  intros Hi. destruct (inspect_loop_spec keep i32_MIN i32_MIN true)
    as (mx & b & Heq & Hb & H1 & H2 & H3); [lia|].
  exists mx, b. split_and!; auto.
  - rewrite Hb, ascending_cons. split; [tauto|]. intros Hs. split_and!; [done| |done].
    eapply Forall_impl; [exact Hi|]. simpl. lia.
  - destruct H2 as [->|]; [|by right]. destruct keep as [|x keep]; [by left|right].
    inversion Hi; subst. specialize (H3 x ltac:(by left)).
    replace i32_MIN with x by lia. by left.
Qed.
End inspect.

(** ** [simplify_keep_fds] and [check_should_keep] *)

Section keep_lists.
Context `{C : Config}.

Lemma simplify_loop_spec keep minfd :
  ascending keep -> i32_MAX ∉ keep -> Forall (fun x => is_i32 x) keep ->
  is_i32 minfd ->
  exists keep' minfd', simplify_loop keep minfd = Done (keep', minfd') /\
    minfd <= minfd' <= i32_MAX /\ keep' `suffix_of` keep /\
    Forall (fun x => minfd' < x) keep' /\
    (forall f, minfd <= f -> f ∉ keep <-> minfd' <= f /\ f ∉ keep') /\
    (keep' = [] -> Forall (fun x => x < minfd') keep).
Proof.
  revert minfd. induction keep as [|x keep IH]; intros minfd Hs Hx Hi Hm; simpl.
  - exists [], minfd. split_and!; auto; [lia|lia|]. intros f Hf. set_solver +Hf.
  - apply ascending_cons in Hs as [Hle Hs].
    apply not_elem_of_cons in Hx as [Hx Hnin]. apply Forall_cons in Hi as [Hix Hi].
    destruct (Z.compare_spec x minfd).
    + rewrite i32_add_ok by (unfold i32_MAX, i32_MIN in *; lia). simpl.
      destruct (IH (minfd + 1)) as (k & m & -> & Hm' & Hsuf & Hk & Heq & Hnil);
        [done|done|done|unfold i32_MAX, i32_MIN in *; lia|].
      exists k, m. split_and!; [done|lia|lia|by apply suffix_cons_r|done| |].
      * intros f Hf. rewrite not_elem_of_cons. destruct (decide (f = x)) as [->|Hne].
        -- split; [tauto|lia].
        -- rewrite <- Heq by lia. tauto.
      * intros Hk0. constructor; [lia|auto].
    + destruct (IH minfd) as (k & m & -> & Hm' & Hsuf & Hk & Heq & Hnil); [done..|].
      exists k, m. split_and!; [done|lia|lia|by apply suffix_cons_r|done| |].
      * intros f Hf. rewrite not_elem_of_cons, <- Heq by lia. split; [tauto|]. intuition lia.
      * intros Hk0. constructor; [lia|auto].
    + exists (x :: keep), minfd. split_and!; [done|lia|lia|done| | |done].
      * constructor; [lia|]. eapply Forall_impl; [exact Hle|]. simpl. lia.
      * intros f Hf. tauto.
Qed.

(** With [c_int::MAX] in the slice, the increment may overflow. *)
Lemma simplify_loop_wrapped keep :
  Forall (eq i32_MAX) keep -> simplify_loop keep i32_MIN = Done (keep, i32_MIN).
Proof. by intros [|x l <- _]. Qed.

Lemma simplify_loop_overflow keep minfd :
  ascending keep -> Forall (fun x => is_i32 x) keep -> is_i32 minfd ->
  (forall f, minfd <= f <= i32_MAX -> f ∈ keep) ->
  if debug then simplify_loop keep minfd = Panic
  else exists rest, simplify_loop keep minfd = Done (rest, i32_MIN) /\ Forall (eq i32_MAX) rest.
Proof.
  revert minfd. induction keep as [|x keep IH]; intros minfd Hs Hi Hm Hall.
  { by destruct (not_elem_of_nil i32_MAX); apply Hall; lia. }
  apply ascending_cons in Hs as [Hle Hs]. apply Forall_cons in Hi as [Hx Hi]. simpl.
  assert (Hrest : forall m, x < m -> minfd <= m -> forall f, m <= f <= i32_MAX -> f ∈ keep).
  { intros m Hxm Hmm f Hf. destruct (proj1 (elem_of_cons _ _ _) (Hall f ltac:(lia))); [lia|done]. }
  destruct (Z.compare_spec x minfd) as [->|Hlt|Hgt].
  - destruct (decide (minfd = i32_MAX)) as [->|Hne].
    + unfold i32_add, i32_result. simpl. destruct debug; [done|]. simpl.
      assert (Hmax : Forall (eq i32_MAX) keep).
      { rewrite Forall_forall in Hle, Hi |- *. intros y Hy. specialize (Hle y Hy).
        specialize (Hi y Hy). lia. }
      exists keep. split; [|done]. by apply simplify_loop_wrapped.
    + rewrite i32_add_ok by (unfold i32_MIN, i32_MAX in *; lia). simpl.
      apply IH; [done|done|unfold i32_MIN, i32_MAX in *; lia|]. apply Hrest; lia.
  - apply IH; [done..|]. apply Hrest; lia.
  - exfalso. destruct (proj1 (elem_of_cons _ _ _) (Hall minfd ltac:(lia))) as [?|Hin]; [lia|].
    rewrite Forall_forall in Hle. specialize (Hle _ Hin). lia.
Qed.

Lemma simplify_loop_below keep minfd f :
  is_i32 minfd -> minfd <= f <= i32_MAX -> f ∉ keep ->
  exists rest minfd', simplify_loop keep minfd = Done (rest, minfd') /\ minfd <= minfd' <= f.
Proof.
  revert minfd. induction keep as [|x keep IH]; intros minfd Hm Hf Hn; simpl.
  { eexists _, _. split; [done|lia]. }
  apply not_elem_of_cons in Hn as [Hne Hn].
  destruct (Z.compare_spec x minfd) as [->|Hlt|Hgt].
  - rewrite i32_add_ok by (unfold i32_MIN, i32_MAX in *; lia). simpl.
    destruct (IH (minfd + 1)) as (rest & m & ? & ?); [unfold i32_MIN, i32_MAX in *; lia|lia|done|].
    exists rest, m. split; [done|lia].
  - by apply IH.
  - eexists _, _. split; [done|lia].
Qed.

(** [simplify_keep_fds] does not change which descriptors are to be acted on:
    those from [minfd] up that are not kept. On a sorted slice the new slice
    is a suffix of the old one with every element above the new [minfd], and
    when nothing is left, every element was below the new [minfd]. *)
Lemma simplify_keep_fds_spec keep srt minfd :
  (srt = true -> ascending keep) -> i32_MAX ∉ keep ->
  Forall (fun x => is_i32 x) keep -> is_i32 minfd ->
  exists keep' minfd',
    simplify_keep_fds keep srt minfd = Done (keep', minfd') /\
    minfd <= minfd' <= i32_MAX /\ keep' `suffix_of` keep /\
    (forall f, minfd <= f /\ f ∉ keep <-> minfd' <= f /\ f ∉ keep') /\
    (srt = true -> Forall (fun x => minfd' < x) keep' /\
       (keep' = [] -> Forall (fun x => x < minfd') keep)).
Proof.
  intros Hs Hx Hi Hm. unfold simplify_keep_fds. destruct srt.
  - destruct (simplify_loop_spec keep minfd) as (k & m & -> & Hm' & Hsuf & Hk & Heq & Hnil);
      auto.
    exists k, m. split_and!; auto; [lia|lia|]. intros f. split.
    + intros [Hf Hn]. by apply Heq.
    + intros [Hf Hn]. split; [lia|]. apply Heq; auto. lia.
  - exists keep, minfd. split_and!; auto; [lia|lia|done].
Qed.

Lemma head_Some_ascending l fd :
  ascending l -> Forall (fun x => fd <= x) l -> head l = Some fd <-> fd ∈ l.
Proof.
  intros Hs Hf. destruct l as [|x l]; simpl; [set_solver|].
  apply ascending_cons in Hs as [Hx _]. rewrite Forall_forall in Hx.
  apply Forall_cons in Hf as [Hle _]. rewrite elem_of_cons. split.
  - intros [= ->]. by left.
  - intros [->|Hin]; [done|]. specialize (Hx _ Hin). f_equal. lia.
Qed.

(** [check_should_keep] answers whether [fd] is in the slice, and on a sorted
    slice drops only elements below [fd], so that later queries for larger
    descriptors still get the right answer. *)
Lemma check_should_keep_spec keep srt fd :
  (srt = true -> ascending keep) ->
  exists b keep', check_should_keep keep fd srt = (b, keep') /\
    (b = true <-> fd ∈ keep) /\ keep' `suffix_of` keep /\
    (srt = true -> ascending keep') /\
    (forall f, fd <= f -> f ∈ keep' <-> f ∈ keep).
Proof.
  intros Hs. unfold check_should_keep. destruct srt; last first.
  { eexists _, _. split_and!; [done| |done|done|done]. apply bool_decide_eq_true. }
  specialize (Hs eq_refl).
  destruct (position _ keep) as [i|] eqn:Hpos; eexists _, _; (split; [done|]).
  - apply position_Some in Hpos as (pre & x & suf & -> & <- & Hx & Hpre).
    apply Z.leb_le in Hx. rewrite drop_app_length, bool_decide_eq_true.
    apply ascending_app in Hs as (_ & Hs & _).
    assert (Hge : Forall (fun y => fd <= y) (x :: suf)).
    { constructor; [done|]. apply ascending_cons in Hs as [Hf _].
      eapply Forall_impl; [exact Hf|]. simpl. lia. }
    assert (Hnin : forall f, fd <= f -> f ∉ pre).
    { intros f Hf Hin. rewrite Forall_forall in Hpre. specialize (Hpre _ Hin).
      apply Z.leb_gt in Hpre. lia. }
    split_and!; auto.
    + rewrite (head_Some_ascending (x :: suf)) by done. rewrite elem_of_app.
      specialize (Hnin fd ltac:(lia)). tauto.
    + by apply suffix_app_r.
    + intros f Hf. rewrite elem_of_app. specialize (Hnin f Hf). tauto.
  - apply position_None in Hpos. split_and!; [|done|done|done].
    rewrite bool_decide_eq_true. rewrite Forall_forall in Hpos. split.
    + destruct keep as [|x keep]; [done|]. intros [= ->]. by left.
    + intros Hin. specialize (Hpos _ Hin). apply Z.leb_gt in Hpos. lia.
Qed.
End keep_lists.

(** ** [apply_range] *)

Section ranges.
Context `{C : Config}.

Lemma gaps_wf minfd keep :
  minfd <= i32_MAX -> Forall (fun x => x < i32_MAX) keep ->
  Forall (fun r => minfd <= r.1 <= r.2 /\ r.2 <= i32_MAX) (gaps minfd keep).
Proof.
  revert minfd. induction keep as [|x keep IH]; intros minfd Hm Hk; simpl.
  - repeat constructor; simpl; lia.
  - apply Forall_cons in Hk as [Hx Hk]. destruct (Z.ltb_spec x minfd); [auto|].
    apply Forall_app. split.
    + destruct (Z.ltb_spec minfd x); repeat constructor; simpl; lia.
    + eapply Forall_impl; [apply IH; [lia|done]|]. simpl. lia.
Qed.

(** The ranges cover exactly what is to be acted on. *)
Lemma gaps_cover_le minfd keep f :
  ascending keep -> Forall (fun x => x <= i32_MAX) keep -> minfd <= i32_MAX + 1 ->
  (exists r, r ∈ gaps minfd keep /\ r.1 <= f <= r.2) <->
  minfd <= f <= i32_MAX /\ f ∉ keep.
Proof.
  revert minfd. induction keep as [|x keep IH]; intros minfd Hs Hk Hm; simpl.
  - split.
    + intros (r & ->%list_elem_of_singleton & Hr). simpl in Hr. split; [lia|apply not_elem_of_nil].
    + intros [Hf _]. exists (minfd, i32_MAX). split; [by left|done].
  - apply ascending_cons in Hs as [Hle Hs]. apply Forall_cons in Hk as [Hx Hk].
    rewrite not_elem_of_cons. destruct (Z.ltb_spec x minfd).
    { rewrite IH by done. split; [|tauto]. intros [Hf Hn]. split_and!; [lia|lia|lia|done]. }
    setoid_rewrite elem_of_app. split.
    + intros (r & [Hr|Hr] & Hf).
      * destruct (Z.ltb_spec minfd x); [|by apply not_elem_of_nil in Hr].
        apply list_elem_of_singleton in Hr as ->. simpl in Hf. split_and!; [lia..|].
        intros Hin. rewrite Forall_forall in Hle. specialize (Hle _ Hin). lia.
      * destruct (proj1 (IH (x + 1) Hs Hk ltac:(lia)) (ex_intro _ r (conj Hr Hf)))
          as [? ?]. split_and!; [lia|lia|lia|done].
    + intros [Hf [Hne Hn]]. destruct (Z.lt_ge_cases f x).
      * exists (minfd, x - 1). simpl. split; [left|lia].
        rewrite (proj2 (Z.ltb_lt _ _)) by lia. by left.
      * destruct (proj2 (IH (x + 1) Hs Hk ltac:(lia))) as (r & Hr & ?);
          [split; [lia|done]|]. exists r. auto.
Qed.

Lemma gaps_cover minfd keep f :
  ascending keep -> Forall (fun x => x < i32_MAX) keep -> minfd <= i32_MAX ->
  (exists r, r ∈ gaps minfd keep /\ r.1 <= f <= r.2) <->
  minfd <= f <= i32_MAX /\ f ∉ keep.
Proof.
  intros Hs Hk Hm. apply gaps_cover_le; [done| |lia].
  eapply Forall_impl; [exact Hk|]. simpl. lia.
Qed.

Lemma last_start_below minfd keep :
  Forall (fun x => x < minfd) keep -> last_start minfd keep = minfd.
Proof.
  intros Hk. unfold last_start. destruct (last keep) as [x|] eqn:Hl; [|done].
  apply last_Some_elem_of in Hl. rewrite Forall_forall in Hk.
  by rewrite (proj2 (Z.ltb_lt _ _)) by auto.
Qed.

(** Nothing comes after an element that is not below [minfd]. *)
Lemma last_start_cons minfd x keep :
  minfd <= x -> ascending (x :: keep) -> last_start (x + 1) keep = last_start minfd (x :: keep).
Proof.
  intros Hx [Hle _]%ascending_cons. unfold last_start. rewrite last_cons.
  destruct (last keep) as [y|] eqn:Hl.
  - apply last_Some_elem_of in Hl. rewrite Forall_forall in Hle. specialize (Hle y Hl).
    rewrite (proj2 (Z.ltb_ge y minfd)) by lia. destruct (Z.ltb_spec y (x + 1)); lia.
  - by rewrite (proj2 (Z.ltb_ge x minfd)).
Qed.

Lemma last_start_max minfd keep :
  0 <= minfd <= i32_MAX -> ascending keep -> Forall (fun x => is_i32 x) keep ->
  i32_MAX ∈ keep -> last_start minfd keep = i32_MAX + 1.
Proof.
  intros Hm Hs Hi Hin. unfold last_start. destruct (last keep) as [x|] eqn:Hl.
  - apply last_Some in Hl as [pre ->]. apply ascending_app in Hs as (_ & _ & Hs).
    rewrite Forall_forall in Hi. specialize (Hi x ltac:(apply elem_of_app; right; by left)).
    assert (x = i32_MAX) as ->; [|by rewrite (proj2 (Z.ltb_ge _ _)) by lia].
    apply elem_of_app in Hin as [Hin| ->%list_elem_of_singleton]; [|done].
    specialize (Hs _ x Hin ltac:(by left)). lia.
  - apply last_None in Hl as ->. by apply not_elem_of_nil in Hin.
Qed.

Lemma gaps_inner minfd keep :
  ascending keep ->
  gaps minfd keep = inner_gaps minfd keep ++ [(last_start minfd keep, i32_MAX)].
Proof.
  revert minfd. induction keep as [|x keep IH]; intros minfd Hs; [done|]. simpl.
  pose proof Hs as [_ Hs']%ascending_cons. destruct (Z.ltb_spec x minfd).
  - rewrite IH by done. do 2 f_equal. f_equal. unfold last_start. rewrite last_cons.
    destruct (last keep); [done|]. by rewrite (proj2 (Z.ltb_lt _ _)).
  - by rewrite IH, (last_start_cons minfd), app_assoc by done.
Qed.

Lemma get_unchecked_ok l (i : nat) x :
  l !! i = Some x -> get_unchecked l (Z.of_nat i) = Done x.
Proof. intros Hi. unfold get_unchecked. by rewrite Nat2Z.id, Hi. Qed.

Lemma index_ok l (i : nat) x : l !! i = Some x -> index l (Z.of_nat i) = Done x.
Proof. intros Hi. unfold index. by rewrite Nat2Z.id, Hi. Qed.

Context {S : Type} (func : Z -> Z -> ST S (result unit)).

Lemma apply_range_loop_shift x keep indices s :
  apply_range_loop (x :: keep) (Datatypes.S <$> indices) func s =
  apply_range_loop keep indices func s.
Proof.
  revert s. induction indices as [|i indices IH]; intros s; [done|]. simpl.
  unfold get_unchecked. replace (Z.to_nat (Z.of_nat (Datatypes.S i)))
    with (Datatypes.S (Z.to_nat (Z.of_nat i))) by lia.
  replace (Z.to_nat (Z.of_nat (Datatypes.S i) + 1))
    with (Datatypes.S (Z.to_nat (Z.of_nat i + 1))) by lia. simpl.
  unfold mbind, ST_bind, lift.
  destruct (keep !! Z.to_nat (Z.of_nat i)) as [low|]; [|done].
  destruct (keep !! Z.to_nat (Z.of_nat i + 1)) as [high|]; [|done].
  destruct (debug_assert _); try done. destruct (i32_sub _ _); try done.
  by apply try_then_ext.
Qed.

(** What [apply_range] does after its first two calls. *)
Definition after_first (keep : list Z) : ST S (result unit) :=
  try_then (apply_range_loop keep (seq 0 (length keep - 1)) func)
    (last ← lift (index keep (Z.of_nat (length keep - 1)));
     lo ← lift (i32_add last 1);
     func lo i32_MAX).


Lemma after_first_step x y keep s :
  0 <= x <= y -> y <= i32_MAX ->
  after_first (x :: y :: keep) s =
  try_then (if 2 <=? y - x then func (x + 1) (y - 1) else mret (Ok tt))
    (after_first (y :: keep)) s.
Proof.
  intros Hxy Hy. unfold after_first. simpl length. rewrite !Nat.sub_succ, !Nat.sub_0_r.
  cbn [seq]. rewrite <- fmap_S_seq. cbn [apply_range_loop].
  rewrite (get_unchecked_ok (x :: y :: keep) 0 x), lift_Done by done.
  change (Z.of_nat 0 + 1) with (Z.of_nat 1).
  rewrite (get_unchecked_ok (x :: y :: keep) 1 y), lift_Done by done.
  rewrite debug_assert_ok, lift_Done by (apply Z.leb_le; lia).
  cbn beta. rewrite (i32_sub_ok y x), lift_Done by (unfold i32_MIN, i32_MAX in *; lia).
  rewrite try_then_assoc. apply try_then_ext.
  - destruct (Z.leb_spec 2 (y - x)); [|done].
    rewrite i32_add_ok, lift_Done by (unfold i32_MIN, i32_MAX in *; lia).
    by rewrite i32_sub_ok, lift_Done by (unfold i32_MIN, i32_MAX in *; lia).
  - intros s'. apply try_then_ext; [apply apply_range_loop_shift|].
    intros s''. unfold index. rewrite !Nat2Z.id. done.
Qed.

Lemma after_first_inner x keep s :
  0 <= x -> ascending (x :: keep) -> Forall (fun y => y <= i32_MAX) (x :: keep) ->
  after_first (x :: keep) s =
    try_then (run_ranges func (inner_gaps (x + 1) keep))
      (lo ← lift (i32_add (last_start (x + 1) keep - 1) 1); func lo i32_MAX) s.
Proof.
  revert x s. induction keep as [|y keep IH]; intros x s H0 Hs Hk;
    apply Forall_cons in Hk as [Hx Hk].
  - unfold after_first. simpl. rewrite !try_then_Ok, (index_ok [x] 0 x), lift_Done by done.
    unfold last_start. simpl. by rewrite Z.add_simpl_r.
  - pose proof (proj1 (Forall_cons _ _ _) Hk) as [Hy _].
    pose proof Hs as [Hle Hs']%ascending_cons. apply Forall_cons in Hle as [Hxy _].
    rewrite after_first_step by lia. simpl.
    destruct (Z.ltb_spec y (x + 1)).
    { replace y with x in * by lia. rewrite (proj2 (Z.leb_gt _ _)) by lia.
      rewrite try_then_Ok, IH by done. unfold last_start at 2. rewrite last_cons.
      unfold last_start. destruct (last keep); [done|].
      by rewrite (proj2 (Z.ltb_lt x (x + 1))) by lia. }
    rewrite <- (last_start_cons (x + 1) y) by done.
    destruct (Z.ltb_spec (x + 1) y).
    + rewrite (proj2 (Z.leb_le _ _)) by lia. simpl. rewrite try_then_assoc.
      apply try_then_ext; [done|]. intros s'. apply IH; [lia|done..].
    + rewrite (proj2 (Z.leb_gt _ _)) by lia. rewrite try_then_Ok.
      apply IH; [lia|done..].
Qed.

Lemma gaps_app minfd pre keep :
  Forall (fun x => x < minfd) pre -> gaps minfd (pre ++ keep) = gaps minfd keep.
Proof.
  induction 1 as [|x pre Hx _ IH]; simpl; [done|].
  by rewrite (proj2 (Z.ltb_lt _ _)) by lia.
Qed.

Lemma inner_gaps_app minfd pre keep :
  Forall (fun x => x < minfd) pre -> inner_gaps minfd (pre ++ keep) = inner_gaps minfd keep.
Proof.
  induction 1 as [|x pre Hx _ IH]; simpl; [done|].
  by rewrite (proj2 (Z.ltb_lt _ _)) by lia.
Qed.

(** What [apply_range] does with any ascending slice of nonnegative C integers:
    it computes the start of the last range only when it gets there. *)
Lemma apply_range_parts minfd keep s :
  0 <= minfd <= i32_MAX -> ascending keep -> Forall (fun x => is_i32 x) keep ->
  apply_range minfd keep func s =
    try_then (run_ranges func (inner_gaps minfd keep))
      (lo ← lift (if last_start minfd keep =? minfd then mret minfd
                  else i32_add (last_start minfd keep - 1) 1);
       func lo i32_MAX) s.
Proof.
  intros Hm Hs Hk. unfold apply_range.
  assert (Hlt : Forall (fun y => y <= i32_MAX) keep) by
    (eapply Forall_impl; [exact Hk|]; simpl; lia).
  destruct (position _ keep) as [i|] eqn:Hpos.
  - apply position_Some in Hpos as (pre & x & suf & -> & <- & Hx & Hpre).
    apply Z.leb_le in Hx. rewrite drop_app_length.
    rewrite inner_gaps_app by (eapply Forall_impl; [exact Hpre|]; intros ? ?%Z.leb_gt; lia).
    apply ascending_app in Hs as (_ & Hs & _). apply Forall_app in Hlt as [_ Hlt].
    pose proof (proj1 (Forall_cons _ _ _) Hlt) as [Hxm _].
    assert (last_start minfd (pre ++ x :: suf) = last_start (x + 1) suf) as ->.
    { rewrite (last_start_cons minfd x suf) by done. unfold last_start. by rewrite last_app_cons. }
    assert (Hst : x + 1 <= last_start (x + 1) suf).
    { unfold last_start. destruct (last suf) as [y|]; [|lia]. destruct (Z.ltb_spec y (x + 1)); lia. }
    rewrite (proj2 (Z.eqb_neq _ minfd)) by lia.
    change (index (x :: suf) 0) with (Done x). cbn zeta. rewrite lift_Done.
    cbn [inner_gaps]. rewrite (proj2 (Z.ltb_ge x minfd)) by lia.
    assert (Haf : forall s', (n ← lift (usize_sub (Z.of_nat (length (x :: suf))) 1);
         try_then (apply_range_loop (x :: suf) (seq 0 (Z.to_nat n)) func)
           (last ← lift (index (x :: suf) n);
            lo ← lift (i32_add last 1);
            func lo i32_MAX)) s' = after_first (x :: suf) s').
    { intros s'. rewrite usize_sub_ok by (simpl; lia). rewrite lift_Done.
      unfold after_first.
      replace (Z.of_nat (length (x :: suf)) - 1) with (Z.of_nat (length (x :: suf) - 1))
        by (simpl; lia).
      by rewrite Nat2Z.id. }
    destruct (Z.ltb_spec minfd x); simpl.
    + rewrite try_then_assoc. apply try_then_ext.
      * by rewrite i32_sub_ok, lift_Done by (unfold i32_MIN, i32_MAX in *; lia).
      * intros s'. rewrite Haf. apply after_first_inner; [lia|done..].
    + rewrite try_then_Ok, Haf. apply after_first_inner; [lia|done..].
  - apply position_None in Hpos.
    assert (Hb : Forall (fun x => x < minfd) keep) by
      (eapply Forall_impl; [exact Hpos|]; intros ? ?%Z.leb_gt; lia).
    rewrite last_start_below, Z.eqb_refl by done.
    rewrite <- (app_nil_r keep), inner_gaps_app by done. reflexivity.
Qed.

Lemma run_ranges_app rs1 rs2 s :
  run_ranges func (rs1 ++ rs2) s = try_then (run_ranges func rs1) (run_ranges func rs2) s.
Proof.
  revert s. induction rs1 as [|[lo hi] rs1 IH]; intros s; simpl; [by rewrite try_then_Ok|].
  rewrite try_then_assoc. by apply try_then_ext.
Qed.

(** On an ascending slice of descriptors below [c_int::MAX], [apply_range]
    calls its function on exactly the ranges [gaps], in order, up to the first
    error; no addition overflows and no index is out of range. *)
Lemma apply_range_spec minfd keep s :
  0 <= minfd <= i32_MAX -> ascending keep ->
  Forall (fun x => is_i32 x /\ x < i32_MAX) keep ->
  apply_range minfd keep func s = run_ranges func (gaps minfd keep) s.
Proof.
  intros Hm Hs Hk.
  assert (Hi : Forall (fun x => is_i32 x) keep) by
    (eapply Forall_impl; [exact Hk|]; simpl; tauto).
  rewrite apply_range_parts by done.
  rewrite gaps_inner, run_ranges_app by done. apply try_then_ext; [done|]. intros s'. simpl.
  rewrite try_then_ret. destruct (Z.eqb_spec (last_start minfd keep) minfd) as [He|He].
  { by rewrite He. }
  rewrite i32_add_ok, lift_Done; [by rewrite Z.sub_add|].
  unfold last_start in *. destruct (last keep) as [x|] eqn:Hl; [|done].
  apply last_Some_elem_of in Hl. rewrite Forall_forall in Hk. specialize (Hk x Hl).
  destruct (x <? minfd); unfold i32_MIN, i32_MAX in *; lia.
Qed.
End ranges.

(** ** Single descriptors *)

Section system_spec.
Context `{C : Config} {K : Type} `{SK : Sys K} `{KV : KernelView K} {KS : KernelSpec K}.

(** The table after marking [fd] close-on-exec. *)
Definition marked (P : Z -> Prop) `{forall f, Decision (P f)} (m m' : gmap Z Z) : Prop :=
  forall f, m' !! f =
    if decide (P f) then (fun fl => Z.lor fl FD_CLOEXEC) <$> m !! f else m !! f.

Lemma wp_libc_close fd (Q : unit -> World K -> Prop) w :
  (forall k', fds k' = delete fd (fds (kern w)) -> frame (kern w) k' ->
     Q tt (mkWorld k' (statics w))) ->
  wp (libc_close fd) Q w.
Proof.
  intros HQ. unfold libc_close. apply wp_bind, wp_call. intros r k' Hk.
  destruct (close_spec _ _ _ _ Hk). apply wp_ret. auto.
Qed.

(** [is_fd_valid] tells whether the descriptor is open. *)
Lemma is_fd_valid_spec fd w :
  wp (is_fd_valid fd) (fun b w' =>
    (b = true <-> is_Some (fds (kern w) !! fd)) /\
    same_view (kern w) (kern w') /\ statics w' = statics w) w.
Proof.
  unfold is_fd_valid. apply wp_bind, wp_call. intros r k' Hk.
  destruct (getfd_spec _ _ _ _ Hk) as [-> Hv]. apply wp_ret. simpl.
  split_and!; [|done|done]. rewrite Z.leb_le.
  destruct (fds (kern w) !! fd) as [fl|] eqn:Hfd; simpl.
  - apply fds_wf in Hfd. split; [done|lia].
  - split; [lia|]. by intros [? ?].
Qed.

Lemma lor_absorb fl c : Z.land fl c = c -> Z.lor fl c = fl.
Proof.
  intros Hc. apply Z.bits_inj'. intros n _. rewrite Z.lor_spec.
  apply (f_equal (fun z => Z.testbit z n)) in Hc. rewrite Z.land_spec in Hc.
  destruct (Z.testbit fl n), (Z.testbit c n); done.
Qed.

(** [set_cloexec] adds close-on-exec to the flags of the descriptor, keeps
    its other flags and every other descriptor, and ignores a closed one. *)
Lemma set_cloexec_spec fd w :
  wp (set_cloexec fd) (fun _ w' =>
    marked (eq fd) (fds (kern w)) (fds (kern w')) /\
    frame (kern w) (kern w') /\ statics w' = statics w) w.
Proof.
  unfold set_cloexec. apply wp_bind, wp_call. intros r k1 Hk.
  destruct (getfd_spec _ _ _ _ Hk) as [-> Hv].
  destruct (fds (kern w) !! fd) as [fl|] eqn:Hfd; simpl.
  - pose proof (fds_wf _ _ _ Hfd) as [_ Hfl].
    rewrite (proj2 (Z.leb_le 0 fl)) by lia. simpl.
    destruct (Z.eqb_spec (Z.land fl FD_CLOEXEC) FD_CLOEXEC) as [He|He]; simpl.
    + apply wp_ret. simpl. destruct Hv as [Hv Hf]. split_and!; [|done|done].
      intros f. rewrite Hv. case_decide as Hd; [|done]. subst f. rewrite Hfd. simpl.
      by rewrite lor_absorb.
    + apply wp_bind, wp_call. intros r k2 Hk2. simpl in Hk2.
      destruct Hv as [Hv [He1 Hf]].
      destruct (setfd_spec _ _ _ _ _ Hk2) as [Hs [He2 Hf2]];
        [by rewrite Hv, Hfd|apply Z.lor_nonneg; pose proof FD_CLOEXEC_wf; lia|].
      apply wp_ret. simpl. split_and!; [| |done].
      * intros f. rewrite Hs, Hv. case_decide as Hd; subst.
        -- by rewrite lookup_insert_eq, Hfd.
        -- by rewrite lookup_insert_ne.
      * split; [congruence|]. intros d Hd. rewrite Hf2 by done. apply Hf.
        rewrite Hv. rewrite Hs, Hv in Hd.
        destruct (decide (fd = d)) as [<-|]; [by rewrite Hfd|].
        by rewrite lookup_insert_ne in Hd.
  - apply wp_ret. simpl. destruct Hv as [Hv Hf]. split_and!; [|done|done].
    intros f. rewrite Hv. case_decide; [|done]. subst f. by rewrite Hfd.
Qed.

(** *** WSL 1 *)

Lemma ends_with_suffix l suffix : ends_with l suffix = true <-> suffix `suffix_of` l.
Proof.
  unfold ends_with. rewrite andb_true_iff, !bool_decide_eq_true. split.
  - intros [_ <-]. exists (take (length l - length suffix) l). by rewrite take_drop.
  - intros [pre ->]. rewrite length_app. split; [lia|].
    replace (length pre + length suffix - length suffix)%nat with (length pre) by lia.
    by rewrite drop_app_length.
Qed.

Lemma take_to_nul l :
  take (default (length l) (position (fun c => c =? 0) l)) l = cstr l.
Proof.
  induction l as [|c l IH]; [done|]. simpl. destruct (c =? 0); [done|].
  destruct (position _ l); simpl in *; by f_equal.
Qed.

(** What [is_wsl_1] computes from the release name, and stores. *)
Lemma wsl_answer_spec e st :
  statics_ok e st ->
  let rel := env_release e in
  let wsl := ends_with (take (default (length rel) (position (fun c => c =? 0) rel)) rel)
               Microsoft in
  (wsl = true <-> wsl1_release rel) /\
  statics_ok e (store_IS_WSL1 (if wsl then 1 else 0) st).
Proof.
  intros Hok rel wsl. unfold wsl. rewrite take_to_nul.
  assert (Hw : ends_with (cstr rel) Microsoft = true <-> wsl1_release rel)
    by apply ends_with_suffix.
  split; [done|]. destruct Hok as [Ha Hb Hc]. constructor; simpl; [..|done];
    destruct (ends_with (cstr rel) Microsoft); try done; intros _.
  - intros Hx. by apply Hw in Hx.
  - by apply Hw.
Qed.

(** [is_wsl_1] answers whether the kernel's release name ends with
    "Microsoft". The answer is cached: once it is known, a call asks the
    system nothing. *)
Lemma is_wsl_1_spec w :
  statics_ok (env (kern w)) (statics w) ->
  wp is_wsl_1 (fun b w' =>
    (b = true <-> wsl1_release (env_release (env (kern w)))) /\
    same_view (kern w) (kern w') /\
    statics w' = store_IS_WSL1 (if b then 1 else 0) (statics w) /\
    statics_ok (env (kern w')) (statics w') /\
    (IS_WSL1 (statics w) = 0 \/ IS_WSL1 (statics w) = 1 -> w' = w)) w.
Proof.
  intros Hok. unfold is_wsl_1. apply wp_bind, wp_load.
  destruct (Z.eqb_spec (IS_WSL1 (statics w)) 1) as [H1|H1].
  { apply wp_ret. split_and!; [|done| |done|done].
    - split; [|done]. intros _. by apply (statics_wsl_1 _ _ Hok).
    - destruct w as [? []]. simpl in *. by subst. }
  destruct (Z.eqb_spec (IS_WSL1 (statics w)) 0) as [H0|H0].
  { apply wp_ret. split_and!; [|done| |done|done].
    - split; [done|]. intros Hw. by destruct (statics_wsl_0 _ _ Hok).
    - destruct w as [? []]. simpl in *. by subst. }
  apply wp_bind, wp_call. intros rel k Hk.
  destruct (uname_spec _ _ _ Hk) as [-> Hv].
  destruct (wsl_answer_spec (env (kern w)) (statics w) Hok) as [Hw Hok'].
  apply wp_bind, wp_store, wp_ret. simpl in *. destruct Hv as (Hv & He & Hf). rewrite He.
  split_and!; [done|done|done|done|tauto].
Qed.
End system_spec.

(** ** Properties *)

Section properties.
Context `{C : Config}.

(** For any slice of C integers, [inspect_keep_fds] never trips its
    assertion; its flag says exactly whether the slice is ascending, and its
    maximum is the largest element, [c_int::MIN] for the empty slice. *)
Theorem inspect_keep_fds_correct keep :
  Forall (fun x => is_i32 x) keep ->
  exists mx b, inspect_keep_fds keep = Done (mx, b) /\
    (b = true <-> ascending keep) /\
    (forall x, x ∈ keep -> x <= mx) /\
    (keep = [] /\ mx = i32_MIN \/ mx ∈ keep).
Proof. apply inspect_keep_fds_spec. Qed.

(** C29. [simplify_keep_fds] does not change which descriptors are to be acted
    on (those from [minfd] up that are not kept). On a sorted slice the new
    slice is a suffix of the old one whose elements are all above the new
    [minfd], so the new [minfd] itself is to be acted on. *)
Theorem simplify_keep_fds_correct keep srt minfd :
  (srt = true -> ascending keep) -> i32_MAX ∉ keep ->
  Forall (fun x => is_i32 x) keep -> is_i32 minfd ->
  exists keep' minfd', simplify_keep_fds keep srt minfd = Done (keep', minfd') /\
    minfd <= minfd' <= i32_MAX /\ keep' `suffix_of` keep /\
    (forall f, minfd <= f /\ f ∉ keep <-> minfd' <= f /\ f ∉ keep') /\
    (srt = true -> Forall (fun x => minfd' < x) keep' /\ minfd' ∉ keep).
Proof.
  intros Hs Hx Hi Hm.
  destruct (simplify_keep_fds_spec keep srt minfd) as (k & m & H1 & H2 & H3 & H4 & H5); [done..|].
  exists k, m. split_and!; [done|lia|lia|done|done|]. intros Hb. destruct (H5 Hb) as [H6 _].
  split; [done|]. apply H4. split; [lia|]. intros Hin. rewrite Forall_forall in H6.
  specialize (H6 m Hin). lia.
Qed.

(** C38. When [simplify_keep_fds] overflows, for any sorted slice: exactly when
    every number from [minfd] to [c_int::MAX] is kept. Then a build with overflow
    checks panics, and another one goes on with [c_int::MIN] for [minfd] and
    nothing left in the slice but repetitions of [c_int::MAX]. Otherwise the new
    [minfd] is not above any of the numbers to be acted on. *)
Theorem simplify_keep_fds_overflow keep minfd :
  ascending keep -> Forall (fun x => is_i32 x) keep -> is_i32 minfd ->
  ((forall f, minfd <= f <= i32_MAX -> f ∈ keep) ->
   if debug then simplify_keep_fds keep true minfd = Panic
   else exists rest, simplify_keep_fds keep true minfd = Done (rest, i32_MIN) /\
          Forall (eq i32_MAX) rest) /\
  (forall f, minfd <= f <= i32_MAX -> f ∉ keep ->
     exists rest minfd', simplify_keep_fds keep true minfd = Done (rest, minfd') /\
       minfd <= minfd' <= f).
Proof.
  intros Hs Hi Hm. split; [by apply simplify_loop_overflow|].
  intros f Hf Hn. by apply simplify_loop_below.
Qed.

(** [check_should_keep] answers whether [fd] is in the slice. On a sorted
    slice it drops only elements below [fd], so every later query for a larger
    descriptor is still answered right. *)
Theorem check_should_keep_correct keep srt fd :
  (srt = true -> ascending keep) ->
  exists b keep', check_should_keep keep fd srt = (b, keep') /\
    (b = true <-> fd ∈ keep) /\ keep' `suffix_of` keep /\
    (srt = true -> ascending keep') /\
    (forall f, fd <= f -> f ∈ keep' <-> f ∈ keep).
Proof. apply check_should_keep_spec. Qed.

(** C30. On an ascending slice of descriptors below [c_int::MAX],
    [apply_range] calls its function on a list of ranges in order, up to the
    first error; no addition overflows and no index is out of range. Each
    range is nonempty, and together they cover exactly the numbers from
    [minfd] to [c_int::MAX] that are not in the slice. *)
Theorem apply_range_correct {S} (func : Z -> Z -> ST S (result unit)) minfd keep s :
  0 <= minfd <= i32_MAX -> ascending keep ->
  Forall (fun x => is_i32 x /\ x < i32_MAX) keep ->
  apply_range minfd keep func s = run_ranges func (gaps minfd keep) s /\
  Forall (fun r => minfd <= r.1 <= r.2 /\ r.2 <= i32_MAX) (gaps minfd keep) /\
  (forall f, (exists r, r ∈ gaps minfd keep /\ r.1 <= f <= r.2) <->
     minfd <= f <= i32_MAX /\ f ∉ keep).
Proof.
  intros Hm Hs Hk. assert (Hlt : Forall (fun x => x < i32_MAX) keep).
  { eapply Forall_impl; [exact Hk|]. simpl. tauto. }
  split_and!.
  - by apply apply_range_spec.
  - apply gaps_wf; [lia|done].
  - intros f. apply gaps_cover; [done|done|lia].
Qed.

(** C39. When [apply_range] overflows: with [c_int::MAX] in its sorted slice it
    first calls its function on all the ranges it should ([inner_gaps] covers what
    is not kept), and then computes the start of one more. A build with overflow
    checks panics there; another one calls the function on the range from
    [c_int::MIN] to [c_int::MAX], which is inverted once its bounds are cast to
    [c_uint], as both callers do. *)
Theorem apply_range_overflow {S} (func : Z -> Z -> ST S (result unit)) minfd keep s :
  0 <= minfd <= i32_MAX -> ascending keep -> Forall (fun x => is_i32 x) keep ->
  i32_MAX ∈ keep ->
  apply_range minfd keep func s =
    try_then (run_ranges func (inner_gaps minfd keep))
      (if debug then panic else func i32_MIN i32_MAX) s /\
  (forall f, (exists r, r ∈ inner_gaps minfd keep /\ r.1 <= f <= r.2) <->
     minfd <= f <= i32_MAX /\ f ∉ keep) /\
  as_u32 i32_MAX < as_u32 i32_MIN.
Proof.
  intros Hm Hs Hi Hin. pose proof (last_start_max minfd keep Hm Hs Hi Hin) as Hl.
  split_and!; [| |done].
  - rewrite apply_range_parts, Hl by done. apply try_then_ext; [done|]. intros s'.
    rewrite (proj2 (Z.eqb_neq _ minfd)) by lia. rewrite Z.add_simpl_r.
    unfold i32_add, i32_result. simpl. by destruct debug.
  - intros f. rewrite <- gaps_cover_le; [|done| |lia].
    2:{ eapply Forall_impl; [exact Hi|]. simpl. lia. }
    rewrite gaps_inner, Hl by done. setoid_rewrite elem_of_app.
    split; [intros (rg & Hr & Hf); eauto|].
    intros (rg & [Hr| ->%list_elem_of_singleton] & Hf); [eauto|]. simpl in Hf. lia.
Qed.
End properties.

Section system_properties.
Context `{C : Config} {K : Type} `{SK : Sys K} `{KV : KernelView K} {KS : KernelSpec K}.

(** [is_wsl_1] answers whether the kernel's release name ends with
    "Microsoft", and remembers the answer: a second call returns the same and
    asks the system nothing. *)
Theorem is_wsl_1_correct w :
  statics_ok (env (kern w)) (statics w) ->
  wp is_wsl_1 (fun b w' =>
    (b = true <-> wsl1_release (env_release (env (kern w)))) /\
    same_view (kern w) (kern w') /\ statics_ok (env (kern w')) (statics w') /\
    is_wsl_1 w' = Done (b, w')) w.
Proof.
  intros Hok. eapply wp_mono; [by apply is_wsl_1_spec|].
  intros b w' (H1 & H2 & H3 & H4 & _).
  split; [done|]. split; [done|]. split; [done|].
  unfold is_wsl_1, mbind, ST_bind. rewrite load_alone, H3. by destruct b.
Qed.

(** [is_fd_valid] tells whether the descriptor is open and changes
    nothing. *)
Theorem is_fd_valid_correct fd w :
  wp (is_fd_valid fd) (fun b w' =>
    (b = true <-> is_Some (fds (kern w) !! fd)) /\
    same_view (kern w) (kern w') /\ statics w' = statics w) w.
Proof. apply is_fd_valid_spec. Qed.

(** [set_cloexec] adds close-on-exec to the flags of the descriptor, keeps
    its other flags and every other descriptor, and ignores a closed one. *)
Theorem set_cloexec_correct fd w :
  wp (set_cloexec fd) (fun _ w' =>
    (forall fl, fds (kern w) !! fd = Some fl ->
       fds (kern w') !! fd = Some (Z.lor fl FD_CLOEXEC)) /\
    (fds (kern w) !! fd = None -> fds (kern w') !! fd = None) /\
    (forall f, f <> fd -> fds (kern w') !! f = fds (kern w) !! f) /\
    statics w' = statics w) w.
Proof.
  eapply wp_mono; [apply set_cloexec_spec|]. intros [] w' (Hm & _ & Hs).
  split_and!; [..|done].
  - intros fl Hfl. by rewrite (Hm fd), decide_True, Hfl.
  - intros Hn. by rewrite (Hm fd), decide_True, Hn.
  - intros f Hf. by rewrite (Hm f), decide_False by done.
Qed.
End system_properties.
