(* ===== verification/RefKernel.v ===== *)
(** * A kernel that satisfies the specification

    [RK] is a small executable kernel: a descriptor table, directory streams
    that encode their entries into bytes, [close_range] and [closefrom], and
    switches that take each facility away, so that every fallback of the crate
    can be run. It is the instance of [KernelSpec] the examples and the concrete
    instances of the theorems use, and shows that the laws can hold together. *)

From S2P Require Import Prelude Platform Ints Sys KernelSpec.

Record RKConf := {
  rc_env : Env;
  (** Directory reads fail from this position on. *)
  rc_getdents_fail : option Z;
  (** The sysctl [kern.proc.nfds], and [F_MAXFD], work. *)
  rc_nfds : bool;
  rc_maxfd : bool;
}.

Record RK := {
  rk_table : gmap Z Z;
  rk_dirs : gmap Z Z;
  rk_errno : Z;
  rk_conf : RKConf;
}.

Definition rk_valid (p : Z * Z) : Prop := 0 <= p.1 < i32_MAX /\ 0 <= p.2.
#[export] Instance rk_valid_dec p : Decision (rk_valid p).
Proof. unfold rk_valid. apply _. Defined.

Definition rk_fds (k : RK) : gmap Z Z := filter rk_valid (rk_table k).

#[export] Instance rk_view : KernelView RK := {|
  fds := rk_fds;
  dirnext k d := Z.max (-2) <$> rk_dirs k !! d;
  env k := rc_env (rk_conf k);
|}.

Definition rk_set (m : gmap Z Z) (k : RK) : RK :=
  {| rk_table := m; rk_dirs := rk_dirs k; rk_errno := rk_errno k; rk_conf := rk_conf k |}.
Definition rk_set_dir (d p : Z) (k : RK) : RK :=
  {| rk_table := rk_table k; rk_dirs := <[d := p]> (rk_dirs k); rk_errno := rk_errno k;
     rk_conf := rk_conf k |}.
Definition rk_set_errno (e : Z) (k : RK) : RK :=
  {| rk_table := rk_table k; rk_dirs := rk_dirs k; rk_errno := e; rk_conf := rk_conf k |}.

(** The lowest closed descriptor. *)
Definition next_free (m : gmap Z Z) : option Z :=
  snd <$> list_find (fun f => m !! f = None) (seqZ 0 (Z.of_nat (size m) + 1)).

(** [fd] is a number that this process may have. *)
Definition rk_within (k : RK) (fd : Z) : bool :=
  let m := env_open_max (rc_env (rk_conf k)) in
  (fd <? i32_MAX) && ((m <? 0) || (fd <? m)).

Definition rk_open (path : string) (flags : list oflag) (k : RK) : Z * RK :=
  if decide (path ∈ env_paths (rc_env (rk_conf k))) then
    match next_free (rk_fds k) with
    | Some fd =>
        if rk_within k fd then
          (fd, rk_set_dir fd (-1)
                 (rk_set (<[fd := if decide (O_CLOEXEC ∈ flags) then 1 else 0]> (rk_fds k)) k))
        else (-1, rk_set_errno 24 k)
    | None => (-1, rk_set_errno 24 k)
    end
  else (-1, rk_set_errno 2 k).

Definition rk_close (fd : Z) (k : RK) : Z * RK :=
  match rk_fds k !! fd with
  | Some _ => (0, rk_set (delete fd (rk_fds k)) k)
  | None => (-1, rk_set_errno 9 k)
  end.

Definition rk_getfd (fd : Z) (k : RK) : Z * RK :=
  match rk_fds k !! fd with Some fl => (fl, k) | None => (-1, rk_set_errno 9 k) end.

Definition rk_setfd (fd fl : Z) (k : RK) : Z * RK :=
  match rk_fds k !! fd with
  | Some _ => (0, rk_set (<[fd := fl]> (rk_fds k)) k)
  | None => (-1, rk_set_errno 9 k)
  end.

(** *** Directories *)

Definition sorted_fds (m : gmap Z Z) : list Z := merge_sort Z.le (map_to_list m).*1.

Definition u16_bytes `{Config} (n : Z) : Z * Z :=
  if big_endian then (n / 256, n mod 256) else (n mod 256, n / 256).

(** Every record has room for the longest name; where the target's declaration
    has not, this kernel has no directory. *)
Definition record_len `{Config} : nat := (d_name_off RawDirent + 11)%nat.

Definition record_header `{Config} : list Z :=
  let '(b0, b1) := u16_bytes (Z.of_nat record_len) in
  replicate (d_reclen_off RawDirent) 0 ++ b0 :: b1 ::
  replicate (d_name_off RawDirent - d_reclen_off RawDirent - 2) 0.

Definition encode_name `{Config} (name : list Z) : list Z :=
  record_header ++ name ++ 0 :: replicate (10 - length name) 0.

Definition encode_fd `{Config} (fd : Z) : list Z := encode_name (decimal fd).

Definition rk_getdents `{Config} (c : getdents_call) (d len : Z) (k : RK)
  : (Z * list Z) * RK :=
  let room := (Z.to_nat len / record_len)%nat in
  match rk_fds k !! d, dirnext k d with
  | Some _, Some p =>
      if (room <? 2)%nat || (d_name_len RawDirent <? 11)%nat then ((-1, []), rk_set_errno 22 k)
      else if (match rc_getdents_fail (rk_conf k) with Some q => q <=? p | None => false end)
      then ((-1, []), rk_set_errno 5 k)
      else if p <? 0 then
        let data := encode_name [46] ++ encode_name [46; 46] in
        ((Z.of_nat (length data), data), rk_set_dir d 0 k)
      else
        let batch := take room (filter (fun f => p <= f) (sorted_fds (rk_fds k))) in
        match last batch with
        | None => ((0, []), k)
        | Some l =>
            let data := concat (encode_fd <$> batch) in
            ((Z.of_nat (length data), data), rk_set_dir d (l + 1) k)
        end
  | _, _ => ((-1, []), rk_set_errno 9 k)
  end.

(** *** Ranges *)

(** [close_range] exists, and knows the flag [CLOSE_RANGE_CLOEXEC]. *)
Definition rc_close_range (c : RKConf) : bool := default true (env_close_range (rc_env c)).
Definition rc_cloexec_range (c : RKConf) : bool := default true (env_cloexec_range (rc_env c)).

Definition rk_has_range (fl : Z) (k : RK) : bool :=
  if fl =? 0 then rc_close_range (rk_conf k) else (fl =? 4) && rc_cloexec_range (rk_conf k).

Definition rk_close_range `{Config} (lo hi fl : Z) (k : RK) : option Z * RK :=
  if decide (target = freebsd /\ env_osreldate (rc_env (rk_conf k)) < 1202000)
  then (None, k)
  else if negb (rk_has_range fl k)
  then (Some (-1), rk_set_errno (if rc_close_range (rk_conf k) then 22 else 38) k)
  else if hi <? lo then (Some (-1), rk_set_errno 22 k)
  else if fl =? 0 then
    (Some 0, rk_set (filter (fun p => ~ (lo <= p.1 <= hi)) (rk_fds k)) k)
  else
    (Some 0, rk_set (map_imap (fun f x =>
        Some (if decide (lo <= f <= hi) then Z.lor x 1 else x)) (rk_fds k)) k).

Definition rk_closefrom (lo : Z) (k : RK) : RK :=
  rk_set (filter (fun p => p.1 < lo) (rk_fds k)) k.

Definition rk_maxfd (k : RK) : Z * RK :=
  if rc_maxfd (rk_conf k) then
    (default (-1) (last (sorted_fds (rk_fds k))), k)
  else (-1, rk_set_errno 22 k).

#[export] Instance rk_sys `{Config} : Sys RK := {|
  FD_CLOEXEC := 1;
  EINVAL := 22;
  errno_get := rk_errno;
  errno_set := rk_set_errno;
  sys_open := rk_open;
  sys_close := rk_close;
  sys_fcntl_getfd := rk_getfd;
  sys_fcntl_setfd := rk_setfd;
  sys_fcntl_maxfd := rk_maxfd;
  sys_getdents := rk_getdents;
  sys_close_range := rk_close_range;
  sys_closefrom := rk_closefrom;
  sys_sysconf_open_max k := (env_open_max (rc_env (rk_conf k)), k);
  sys_uname_release k := (env_release (rc_env (rk_conf k)), k);
  sys_sysctl_nfds k :=
    if rc_nfds (rk_conf k) then ((0, Z.of_nat (size (rk_fds k))), k)
    else ((-1, 0), rk_set_errno 2 k);
  sys_sysctl_osreldate k := ((0, env_osreldate (rc_env (rk_conf k))), k);
  sys_getdtablecount k := (Z.of_nat (size (rk_fds k)), k);
  sys_stat_dev path k := ((0, env_dev (rc_env (rk_conf k))), k);
  sys_fstat_dev fd k := ((0, env_devfd (rc_env (rk_conf k))), k);
  race s k := (s, k);
  publish _ k := k;
|}.

(** ** Lemmas *)

Lemma rk_fds_lookup k f fl :
  rk_fds k !! f = Some fl <-> rk_table k !! f = Some fl /\ rk_valid (f, fl).
Proof. unfold rk_fds. by rewrite map_lookup_filter_Some. Qed.

Lemma rk_fds_valid k f fl : rk_fds k !! f = Some fl -> rk_valid (f, fl).
Proof. by intros [_ ?]%rk_fds_lookup. Qed.

(** A table whose entries are valid is what the view shows. *)
Lemma rk_fds_set m k :
  (forall f fl, m !! f = Some fl -> rk_valid (f, fl)) -> rk_fds (rk_set m k) = m.
Proof.
  intros Hm. apply map_eq. intros f. apply option_eq. intros fl.
  rewrite rk_fds_lookup. simpl. specialize (Hm f fl). tauto.
Qed.

Lemma rk_fds_sub m k :
  m ⊆ rk_fds k -> rk_fds (rk_set m k) = m.
Proof.
  intros Hm. apply rk_fds_set. intros f fl Hf. eapply rk_fds_valid.
  by eapply lookup_weaken.
Qed.

Lemma next_free_spec m fd :
  next_free m = Some fd ->
  0 <= fd /\ m !! fd = None /\ forall f, 0 <= f < fd -> is_Some (m !! f).
Proof.
  unfold next_free. intros ([i x] & Hl & ->)%fmap_Some. simpl.
  apply list_find_Some in Hl as (Hi & Hn & Hlow).
  apply lookup_seqZ in Hi as [-> Hlt]. split_and!; [lia|done|].
  intros f Hf. apply not_eq_None_Some. apply (Hlow (Z.to_nat f)); [|lia].
  apply lookup_seqZ. lia.
Qed.

Lemma sorted_fds_elem m f : f ∈ sorted_fds m <-> is_Some (m !! f).
Proof.
  unfold sorted_fds. rewrite merge_sort_Permutation, list_elem_of_fmap. split.
  - intros ([g x] & -> & Hin%elem_of_map_to_list). eauto.
  - intros [x Hx]. exists (f, x). split; [done|]. by apply elem_of_map_to_list.
Qed.

Lemma sorted_fds_ascending m : strictly_ascending (sorted_fds m).
Proof.
  apply ascending_NoDup_strict.
  - apply Sorted_merge_sort. intros ??. lia.
  - unfold sorted_fds. rewrite merge_sort_Permutation. apply NoDup_fst_map_to_list.
Qed.


(** *** The encoding of entries *)

Section encoding.
Context `{C : Config, !ConfigOk C}.

Lemma record_len_u16 :
  (11 <= d_name_len RawDirent)%nat -> 0 <= Z.of_nat record_len < 65536.
Proof. intros Hlen. unfold record_len. pose proof RawDirent_ok as []. lia. Qed.

Lemma length_record_header : length record_header = d_name_off RawDirent.
Proof.
  unfold record_header. destruct (u16_bytes _) as [b0 b1]. pose proof RawDirent_ok as [].
  rewrite length_app. simpl. rewrite !length_replicate. lia.
Qed.

Lemma u16_of_to_bytes n b0 b1 :
  0 <= n < 65536 -> u16_bytes n = (b0, b1) -> u16_of_bytes b0 b1 = n.
Proof.
  unfold u16_bytes, u16_of_bytes. intros Hn. pose proof (Z.div_mod n 256 ltac:(lia)).
  destruct big_endian; intros [= <- <-]; lia.
Qed.

Lemma record_header_reclen :
  (11 <= d_name_len RawDirent)%nat -> exists b0 b1, record_header !! d_reclen_off RawDirent = Some b0 /\
    record_header !! S (d_reclen_off RawDirent) = Some b1 /\
    u16_of_bytes b0 b1 = Z.of_nat record_len.
Proof.
  intros Hlen. unfold record_header. destruct (u16_bytes _) as [b0 b1] eqn:Hb. exists b0, b1.
  pose proof (record_len_u16 Hlen). apply u16_of_to_bytes in Hb; [|done].
  split_and!; [| |done].
  - rewrite lookup_app_r; rewrite length_replicate; [|lia].
    by replace (_ - _)%nat with 0%nat by lia.
  - rewrite lookup_app_r; rewrite length_replicate; [|lia].
    by replace (_ - _)%nat with 1%nat by lia.
Qed.

Lemma length_encode_name name :
  (length name <= 10)%nat -> length (encode_name name) = record_len.
Proof.
  intros Hn. unfold encode_name, record_len. rewrite !length_app, length_record_header.
  simpl. rewrite length_replicate. lia.
Qed.

(** Encoding an entry in front of encoded entries. *)
Lemma dirents_encode e name data es :
  (11 <= d_name_len RawDirent)%nat -> dirent_name e name -> (length name <= 10)%nat ->
  dirents data es -> dirents (encode_name name ++ data) (e :: es).
Proof.
  intros Hlen He Hn Hd. destruct (record_header_reclen Hlen) as (b0 & b1 & H0 & H1 & Hb).
  pose proof (length_encode_name name Hn) as Hl. unfold encode_name in *.
  eapply dirents_cons; try done; [lia|apply length_record_header|]. by rewrite Hl.
Qed.

Lemma dirents_batch batch :
  (11 <= d_name_len RawDirent)%nat -> Forall (fun f => 0 <= f <= i32_MAX) batch ->
  dirents (concat (encode_fd <$> batch)) (Some <$> batch).
Proof.
  intros Hlen. induction 1 as [|f batch Hf _ IH]; simpl; [constructor|].
  apply dirents_encode; [done|constructor; lia|by apply decimal_length|done].
Qed.

Lemma length_batch batch :
  Forall (fun f => 0 <= f <= i32_MAX) batch ->
  length (concat (encode_fd <$> batch)) = (length batch * record_len)%nat.
Proof.
  induction 1 as [|f batch Hf _ IH]; [done|].
  rewrite fmap_cons. cbn [concat length].
  rewrite length_app, IH. unfold encode_fd.
  rewrite length_encode_name by (by apply decimal_length). lia.
Qed.

Lemma listed_fds_Some batch : listed_fds (Some <$> batch) = batch.
Proof.
  induction batch as [|f batch IH]; [done|]. rewrite fmap_cons.
  change (listed_fds (Some f :: ?es)) with (f :: listed_fds es). by rewrite IH.
Qed.
End encoding.

(** ** The laws hold *)

Section laws.
Context `{C : Config, !ConfigOk C}.

(** The batch of a directory read. *)
Lemma rk_batch_spec (m : gmap Z Z) q room l :
  last (take room (filter (fun f => q <= f) (sorted_fds m))) = Some l ->
  let batch := take room (filter (fun f => q <= f) (sorted_fds m)) in
  strictly_ascending batch /\
  (forall f, f ∈ batch <-> q <= f <= l /\ is_Some (m !! f)) /\ q <= l /\ is_Some (m !! l).
Proof.
  set (L := filter _ _). intros Hlast.
  assert (HL : strictly_ascending L) by apply strictly_ascending_filter, sorted_fds_ascending.
  assert (Hin : forall f, f ∈ L <-> q <= f /\ is_Some (m !! f)).
  { intros f. unfold L. by rewrite list_elem_of_filter, sorted_fds_elem. }
  rewrite <- (take_drop room L) in HL. apply strictly_ascending_app in HL as (HT & _ & Htd).
  apply last_Some in Hlast as [pre Hpre].
  assert (Hle : forall f, f ∈ take room L -> f <= l).
  { rewrite Hpre in HT |- *. apply strictly_ascending_app in HT as (_ & _ & Hp).
    intros f [Hf| ->%list_elem_of_singleton]%elem_of_app; [|done].
    specialize (Hp f l Hf ltac:(by left)). lia. }
  assert (Hl : l ∈ take room L) by (rewrite Hpre, elem_of_app; right; by left).
  split_and!; [done| | |].
  - intros f. split.
    + intros Hf. specialize (Hle f Hf).
      apply (subseteq_take room) in Hf. apply Hin in Hf. tauto.
    + intros [Hf Hsome]. assert (HfL : f ∈ L) by (apply Hin; tauto).
      rewrite <- (take_drop room L), elem_of_app in HfL.
      destruct HfL as [?|Hd]; [done|]. specialize (Htd l f Hl Hd). lia.
  - apply (subseteq_take room) in Hl. by apply Hin in Hl as [? _].
  - apply (subseteq_take room) in Hl. by apply Hin in Hl as [_ ?].
Qed.

(** The law of a directory read, for its result. *)
Definition getdents_law (d len : Z) (k : RK) (n : Z) (data : list Z) (k' : RK) (p : Z) : Prop :=
  fds k' = fds k /\ env k' = env k /\
  (n = 0 -> forall f, p <= f -> fds k !! f = None) /\
  (0 < n -> n = Z.of_nat (length data) /\ n <= len /\
     exists es p', dirents data es /\ dirnext k' d = Some p' /\
       p < p' <= i32_MAX + 1 /\ strictly_ascending (listed_fds es) /\
       forall f, f ∈ listed_fds es <-> p <= f < p' /\ is_Some (fds k !! f)).

(** The first read: "." and "..". *)
Lemma rk_dots_spec d len k p :
  (11 <= d_name_len RawDirent)%nat -> p < 0 -> (2 * record_len <= Z.to_nat len)%nat ->
  let data := encode_name [46] ++ encode_name [46; 46] in
  getdents_law d len k (Z.of_nat (length data)) data (rk_set_dir d 0 k) p.
Proof.
  intros Hlen Hp Hroom data. unfold data. rewrite length_app, !length_encode_name by (simpl; lia).
  assert (0 < record_len)%nat by (unfold record_len; lia).
  split_and!; [done|done|lia|]. intros _.
  split_and!; [rewrite length_app, !length_encode_name by (simpl; lia); done|lia|].
  exists [None; None], 0. split_and!.
  - apply dirents_encode; [done|constructor|simpl; lia|].
    rewrite <- (app_nil_r (encode_name [46; 46])).
    apply dirents_encode; [done|constructor|simpl; lia|constructor].
  - simpl. by rewrite lookup_insert_eq.
  - lia.
  - unfold i32_MAX. lia.
  - constructor.
  - intros f. split; [by intros []%not_elem_of_nil|].
    intros [Hf [fl Hfl%rk_fds_valid]]. destruct Hfl. simpl in *. lia.
Qed.

(** A read of descriptors. *)
Lemma rk_batch_law d len k q room l :
  (11 <= d_name_len RawDirent)%nat -> (room * record_len <= Z.to_nat len)%nat -> 0 <= q ->
  let batch := take room (filter (fun f => q <= f) (sorted_fds (rk_fds k))) in
  let data := concat (encode_fd <$> batch) in
  last batch = Some l ->
  getdents_law d len k (Z.of_nat (length data)) data (rk_set_dir d (l + 1) k) q.
Proof.
  intros Hlen Hroom Hq batch data Hlast. unfold data.
  destruct (rk_batch_spec (rk_fds k) q room l Hlast) as (Hs & Hin & Hl & [fl Hfl%rk_fds_valid]).
  destruct Hfl as [Hlm _]. simpl in Hlm. fold batch in Hs, Hin.
  assert (Hb : Forall (fun f => 0 <= f <= i32_MAX) batch).
  { apply Forall_forall. intros f [_ [x' Hx'%rk_fds_valid]]%Hin. destruct Hx'. simpl in *. lia. }
  assert (Hne : (0 < length batch)%nat) by (destruct batch; [done|simpl; lia]).
  assert (Hrl : (0 < record_len)%nat) by (unfold record_len; lia).
  assert (length batch <= room)%nat by (unfold batch; rewrite length_take; lia).
  assert (length batch * record_len <= room * record_len)%nat by (by apply Nat.mul_le_mono_r).
  unfold getdents_law. rewrite length_batch by done. split_and!; [done|done|nia|].
  intros _. split_and!; [done|nia|].
  exists (Some <$> batch), (l + 1). rewrite listed_fds_Some. split_and!.
  - apply dirents_batch; [lia|done].
  - simpl. rewrite lookup_insert_eq. simpl. f_equal. lia.
  - lia.
  - lia.
  - done.
  - intros f. rewrite Hin. intuition lia.
Qed.

Lemma rk_getdents_spec c d len k n data k' p :
  rk_getdents c d len k = ((n, data), k') ->
  is_Some (fds k !! d) -> dirnext k d = Some p ->
  getdents_law d len k n data k' p.
Proof.
  unfold rk_getdents. intros Hk [x Hx] Hq. simpl in Hx.
  rewrite Hx, Hq in Hk. set (room := (Z.to_nat len / record_len)%nat) in *.
  assert (Hroom : (room * record_len <= Z.to_nat len)%nat).
  { unfold room. rewrite Nat.mul_comm. apply Nat.Div0.mul_div_le. }
  destruct (_ || _) eqn:Hbig.
  { injection Hk as <- <- <-. split_and!; [done|done|lia|lia]. }
  apply orb_false_iff in Hbig as [Hbig%Nat.ltb_ge Hlen%Nat.ltb_ge].
  destruct (match rc_getdents_fail _ with Some q0 => _ | None => _ end).
  { injection Hk as <- <- <-. split_and!; [done|done|lia|lia]. }
  destruct (Z.ltb_spec p 0).
  { injection Hk as <- <- <-. apply rk_dots_spec; [done|lia|]. nia. }
  destruct (last _) as [l|] eqn:Hlast; injection Hk as <- <- <-.
  { by apply (rk_batch_law d len k p room l). }
  apply last_None in Hlast. split_and!; [done|done| |lia]. intros _ f Hf.
  apply eq_None_not_Some. intros Hsome.
  assert (Hfin : f ∈ filter (fun f => p <= f) (sorted_fds (rk_fds k))).
  { apply list_elem_of_filter. split; [done|]. by apply sorted_fds_elem. }
  destruct (filter _ _); [by apply not_elem_of_nil in Hfin|].
  destruct room; [lia|done].
Qed.

Lemma rk_same_view_errno e k : same_view k (rk_set_errno e k).
Proof. done. Qed.

Lemma rk_frame_set m k : frame k (rk_set m k).
Proof. done. Qed.

Lemma rk_open_spec path flags k r k' :
  rk_open path flags k = (r, k') ->
  (r < 0 /\ same_view k k') \/
  (0 <= r /\ fds k !! r = None /\ env k' = env k /\
   (exists fl, fds k' = <[r := fl]> (fds k)) /\
   (forall d, d <> r -> is_Some (fds k' !! d) -> dirnext k' d = dirnext k d) /\
   exists p, dirnext k' r = Some p /\ p <= 0).
Proof.
  unfold rk_open. case_decide; last by (intros [= <- <-]; left).
  destruct (next_free _) as [fd|] eqn:Hfree; last by (intros [= <- <-]; left).
  destruct (rk_within k fd) eqn:Hw; last by (intros [= <- <-]; left).
  intros [= <- <-]. apply next_free_spec in Hfree as (Hpos & Hnone & _).
  apply andb_true_iff in Hw as [Hw%Z.ltb_lt _].
  right. simpl. split_and!; [done|done|done| | |].
  - exists (if decide (O_CLOEXEC ∈ flags) then 1 else 0).
    change (rk_fds (rk_set_dir fd (-1) ?k0)) with (rk_fds k0).
    apply rk_fds_set. intros f fl.
    destruct (decide (f = fd)) as [->|].
    + rewrite lookup_insert_eq. intros [= <-]. split; [done|].
      simpl. case_decide; lia.
    + rewrite lookup_insert_ne by done. apply rk_fds_valid.
  - intros d Hd _. by rewrite lookup_insert_ne.
  - exists (-1). rewrite lookup_insert_eq. split; [done|lia].
Qed.

Lemma rk_open_flags path flags k r k' fl :
  rk_open path flags k = (r, k') -> 0 <= r -> fds k' !! r = Some fl ->
  fl = if decide (O_CLOEXEC ∈ flags) then 1 else 0.
Proof.
  unfold rk_open. case_decide; [|by intros [= <- <-]].
  destruct (next_free _) as [fd|]; [|by intros [= <- <-]].
  destruct (rk_within k fd); [|by intros [= <- <-]]. intros [= <- <-] _ Hfl.
  apply map_lookup_filter_Some in Hfl as [Hfl _]. simpl in Hfl.
  rewrite lookup_insert_eq in Hfl. by injection Hfl.
Qed.

Lemma rk_open_lowest path flags k r k' f :
  rk_open path flags k = (r, k') -> 0 <= f < r -> is_Some (rk_fds k !! f).
Proof.
  unfold rk_open. case_decide; [|by intros [= <- <-] ?; lia].
  destruct (next_free _) as [fd|] eqn:Hfree; [|by intros [= <- <-] ?; lia].
  destruct (rk_within k fd); [|by intros [= <- <-] ?; lia].
  intros [= <- <-] Hf. by apply next_free_spec in Hfree as (_ & _ & Hlow); apply Hlow.
Qed.

Lemma rk_open_limit path flags k r k' :
  rk_open path flags k = (r, k') -> 0 <= env_open_max (env k) -> r < env_open_max (env k).
Proof.
  unfold rk_open. case_decide; [|by intros [= <- <-] ?; lia].
  destruct (next_free _) as [fd|]; [|by intros [= <- <-] ?; lia].
  destruct (rk_within k fd) eqn:Hw; [|by intros [= <- <-] ?; lia].
  intros [= <- <-] Hm. apply andb_true_iff in Hw as [_ Hw]. simpl in *.
  apply orb_true_iff in Hw as [Hw%Z.ltb_lt|Hw%Z.ltb_lt]; lia.
Qed.

(** Among the numbers up to the size of the table one is free. *)
Lemma next_free_exists (m : gmap Z Z) :
  exists fd, next_free m = Some fd /\ fd <= Z.of_nat (size m).
Proof.
  unfold next_free. destruct (list_find _ _) as [[i fd]|] eqn:Hl; simpl.
  - exists fd. split; [done|]. apply list_find_Some in Hl as (Hi & _).
    apply lookup_seqZ in Hi. lia.
  - exfalso. apply list_find_None in Hl. rewrite Forall_forall in Hl.
    assert (Hsub : seqZ 0 (Z.of_nat (size m) + 1) ⊆+ (map_to_list m).*1).
    { apply NoDup_submseteq; [apply NoDup_seqZ|]. intros f [x Hx]%Hl%not_eq_None_Some.
      apply list_elem_of_fmap. exists (f, x). split; [done|]. by apply elem_of_map_to_list. }
    apply submseteq_length in Hsub.
    rewrite length_seqZ, length_fmap, length_map_to_list in Hsub. lia.
Qed.

Lemma rk_open_succeeds path flags k r k' :
  rk_open path flags k = (r, k') -> path ∈ env_paths (env k) ->
  Z.of_nat (size (rk_fds k)) < Z.min i32_MAX (env_open_max (env k)) -> 0 <= r.
Proof.
  unfold rk_open. simpl. intros Hk Hp Hsz. rewrite decide_True in Hk by done.
  destruct (next_free_exists (rk_fds k)) as (fd & Hfd & Hle). rewrite Hfd in Hk.
  apply next_free_spec in Hfd as [Hpos _]. unfold rk_within in Hk.
  rewrite (proj2 (Z.ltb_lt fd i32_MAX)) in Hk by lia.
  rewrite (proj2 (Z.ltb_lt fd _)), orb_true_r in Hk by lia. by injection Hk as <- _.
Qed.

Lemma rk_fds_filter_set (P : Z * Z -> Prop) `{forall x, Decision (P x)} k :
  rk_fds (rk_set (filter P (rk_fds k)) k) = filter P (rk_fds k).
Proof. apply rk_fds_sub, map_filter_subseteq. Qed.

Lemma rk_close_range_spec lo hi k r k' :
  rk_close_range lo hi 0 k = (Some r, k') ->
  frame k k' /\
  (r = 0 -> lo <= hi /\
     forall f, fds k' !! f = if decide (lo <= f <= hi) then None else fds k !! f) /\
  (r <> 0 -> fds k' = fds k).
Proof.
  unfold rk_close_range. case_decide; [done|].
  destruct (negb _); [by intros [= <- <-]|].
  destruct (Z.ltb_spec hi lo); [by intros [= <- <-]|].
  intros [= <- <-]. split_and!; [done| |done]. intros _. split; [lia|].
  intros f. simpl. rewrite rk_fds_filter_set. case_decide as Hd.
  - apply map_lookup_filter_None. right. simpl. tauto.
  - apply option_eq. intros fl. rewrite map_lookup_filter_Some. simpl. tauto.
Qed.

Lemma rk_close_range_cloexec_spec lo hi k r k' :
  rk_close_range lo hi 4 k = (Some r, k') ->
  frame k k' /\
  (r = 0 -> lo <= hi /\
     forall f, fds k' !! f =
       if decide (lo <= f <= hi) then (fun fl => Z.lor fl 1) <$> fds k !! f
       else fds k !! f) /\
  (r <> 0 -> fds k' = fds k).
Proof.
  unfold rk_close_range. case_decide; [done|].
  destruct (negb _); [by intros [= <- <-]|].
  destruct (Z.ltb_spec hi lo); [by intros [= <- <-]|]. simpl.
  intros [= <- <-]. split_and!; [done| |done]. intros _. split; [lia|].
  intros f. simpl. rewrite rk_fds_set.
  - rewrite map_lookup_imap. destruct (rk_fds k !! f); simpl; [|by case_decide].
    by case_decide.
  - intros g fl. rewrite map_lookup_imap.
    destruct (rk_fds k !! g) as [x|] eqn:Hx; [|done]. simpl. intros [= <-].
    apply rk_fds_valid in Hx as [? ?]. split; [done|]. simpl in *.
    case_decide; [apply Z.lor_nonneg|]; lia.
Qed.

(** On Linux an unknown call is not fatal. *)
Lemma rk_close_range_linux lo hi fl k :
  target = linux ->
  sys_close_range lo hi fl k =
    if negb (rk_has_range fl k)
    then (Some (-1), rk_set_errno (if rc_close_range (rk_conf k) then 22 else 38) k)
    else if hi <? lo then (Some (-1), rk_set_errno 22 k)
    else if fl =? 0 then
      (Some 0, rk_set (filter (fun p => ~ (lo <= p.1 <= hi)) (rk_fds k)) k)
    else
      (Some 0, rk_set (map_imap (fun f x =>
          Some (if decide (lo <= f <= hi) then Z.lor x 1 else x)) (rk_fds k)) k).
Proof.
  intros Ht. simpl. unfold rk_close_range. rewrite decide_False; [done|].
  intros [? _]. congruence.
Qed.

Lemma rk_last_spec k :
  let r := default (-1) (last (sorted_fds (rk_fds k))) in
  r < i32_MAX /\ (0 <= r -> forall f, is_Some (rk_fds k !! f) -> f <= r) /\
  (r = -1 -> rk_fds k = ∅).
Proof.
  pose proof (sorted_fds_ascending (rk_fds k)) as Hs.
  pose proof (sorted_fds_elem (rk_fds k)) as Hin.
  destruct (last _) as [l|] eqn:Hl; simpl.
  - apply last_Some in Hl as [pre Hpre]. rewrite Hpre in Hs, Hin.
    apply strictly_ascending_app in Hs as (_ & _ & Hlt).
    destruct (proj1 (Hin l)) as [fl [Hv _]%rk_fds_valid].
    { apply elem_of_app. right. by left. }
    simpl in Hv. split_and!; [lia| |lia]. intros _ f Hf%Hin.
    apply elem_of_app in Hf as [Hf| ->%list_elem_of_singleton]; [|done].
    specialize (Hlt f l Hf ltac:(by left)). lia.
  - apply last_None in Hl. rewrite Hl in Hin. split_and!; [unfold i32_MAX; lia|lia|].
    intros _. apply map_empty. intros f. apply eq_None_not_Some.
    intros Hf%Hin. by apply not_elem_of_nil in Hf.
Qed.

#[export] Instance rk_spec : KernelSpec RK.
Proof.
  constructor.
  - intros k fd fl Hk. by apply rk_fds_valid in Hk.
  - done.
  - intros k d p. simpl. intros (q & _ & ->)%fmap_Some. lia.
  - done.
  - intros. apply rk_same_view_errno.
  - intros path flags k r k' Hk. destruct (rk_open_spec _ _ _ _ _ Hk) as [?|H]; [by left|].
    right. destruct H as (? & ? & ? & ? & ? & ?). auto 10.
  - intros path flags k r k' fl Hk Hr Hfl. rewrite (rk_open_flags _ _ _ _ _ _ Hk Hr Hfl).
    by case_decide.
  - intros path flags k r k' f. apply rk_open_lowest.
  - intros path flags k r k'. apply rk_open_limit.
  - intros path flags k r k' Hk Hp. simpl in Hk. unfold rk_open in Hk.
    rewrite decide_False in Hk by done. by injection Hk as <- _.
  - intros fd k r k'. simpl. unfold rk_close. destruct (rk_fds k !! fd) eqn:Hfd.
    + intros [= <- <-]. split; [|done]. apply rk_fds_sub, delete_subseteq.
    + intros [= <- <-]. split; [|done]. by rewrite delete_id.
  - intros fd k r k'. simpl. unfold rk_getfd.
    destruct (rk_fds k !! fd); by intros [= <- <-].
  - intros fd fl k r k'. simpl. unfold rk_setfd. intros Hk [x Hx] Hfl.
    rewrite Hx in Hk. injection Hk as _ <-. split; [|done]. apply rk_fds_set.
    intros f g. destruct (decide (f = fd)) as [->|].
    + rewrite lookup_insert_eq. intros [= <-]. apply rk_fds_valid in Hx as [? ?].
      by split.
    + rewrite lookup_insert_ne by done. apply rk_fds_valid.
  - intros fd fl k r k'. simpl. unfold rk_setfd. intros Hk [x Hx] _.
    rewrite Hx in Hk. by injection Hk as <- _.
  - intros fd fl k r k'. simpl. unfold rk_setfd. intros Hk Hx.
    rewrite Hx in Hk. by injection Hk as _ <-.
  - intros c d len k n data k' p _. apply rk_getdents_spec.
  - apply rk_close_range_spec.
  - apply rk_close_range_cloexec_spec.
  - intros lo hi fl k k' Ht. simpl. unfold rk_close_range.
    case_decide as Hd; [|repeat case_match; done].
    destruct Hd as [Hd1 Hd2], Ht as [?|[_ ?]]; [congruence|simpl in *; lia].
  - intros lo hi k r k' Ht He Hk. rewrite rk_close_range_linux in Hk by done.
    unfold rk_has_range, rc_close_range in Hk. simpl in *. rewrite He in Hk. simpl in Hk.
    destruct (Z.ltb_spec hi lo); injection Hk as <- <-; (split; [lia|done || lia]).
  - intros lo hi k r k' Ht He Hk. rewrite rk_close_range_linux in Hk by done.
    unfold rk_has_range, rc_close_range in Hk. simpl in *. rewrite He in Hk.
    by injection Hk as <- <-.
  - intros lo hi k r k' Ht He Hk Hle _. rewrite rk_close_range_linux in Hk by done.
    unfold rk_has_range, rc_cloexec_range in Hk. simpl in *. rewrite He in Hk. simpl in Hk.
    rewrite (proj2 (Z.ltb_ge hi lo)) in Hk by lia. by injection Hk as <- _.
  - intros lo hi k r k' Ht He Hk. rewrite rk_close_range_linux in Hk by done.
    unfold rk_has_range, rc_cloexec_range in Hk. simpl in *. rewrite He in Hk.
    by injection Hk as <- _.
  - intros lo k. split; [done|]. intros f. simpl. unfold rk_closefrom.
    rewrite rk_fds_filter_set. case_decide.
    + apply map_lookup_filter_None. right. simpl. lia.
    + apply option_eq. intros fl. rewrite map_lookup_filter_Some. simpl. intuition lia.
  - intros k r k' [= <- <-]. done.
  - intros k r k' [= <- <-]. done.
  - intros k r v k' [= <- <- <-]. done.
  - intros k r v k' [= <- <- <-] _. done.
  - intros k r v k'. simpl. destruct (rc_nfds _); by intros [= <- <- <-].
  - intros k r k' [= <- <-]. done.
  - intros k r k'. simpl. unfold rk_maxfd. destruct (rc_maxfd _).
    + intros [= <- <-]. destruct (rk_last_spec k) as (H1 & H2 & H3). split_and!; [done|done|done|]. auto.
    + intros [= <- <-]. split_and!; [done|unfold i32_MAX; lia|lia|done].
  - intros path k r k' [= <- <-]. done.
  - intros k dev k' [= <- _]. done.
  - intros fd k r k' [= <- <-]. done.
  - intros flags k0 d k1 k2 devfd k3 Ho Hd He _ [= <- _].
    destruct (rk_open_spec _ _ _ _ _ Ho) as [?|(_ & _ & He1 & _)]; [lia|].
    rewrite <- He1, <- He. done.
  - done.
  - done.
Qed.
End laws.
