(* ===== verification/DirFdIter.v ===== *)
(** * src/iterfds/dirfd.rs

    [DirFdIter]: reading the directory that lists the process's descriptors
    ([/proc/self/fd] or [/dev/fd]), entry by entry, through a buffer of raw
    [dirent] structures. *)

From S2P Require Import Prelude Platform Ints Sys KernelSpec Util.

(** ** Definitions *)

(** An [Iterator<Item = u8>] is the list of the reads it still makes; a read
    happens when its item is asked for, and may be undefined. *)
Abbreviation bytes_iter := (list (outcome Z)).

(** The [for] loop of [parse_int_bytes], with its [?] and [return None]: it
    stops asking for items at the first that is not a digit, and on overflow. *)
Fixpoint parse_loop (it : bytes_iter) (num : Z) (seen_any : bool) : outcome (option Z) :=
  match it with
  | [] => mret (if seen_any then Some num else None)
  | ch :: it' =>
      ch ← ch;
      if (48 <=? ch) && (ch <=? 57) then
        match (num ← checked_mul num 10; checked_add num (ch - 48)) with
        | Some num => parse_loop it' num true
        | None => mret None
        end
      else mret None
  end.

Definition parse_int_bytes (it : bytes_iter) : outcome (option Z) := parse_loop it 0 false.

(** [take_while(|c| **c != 0)] *)
Fixpoint take_while_nonzero (it : bytes_iter) : bytes_iter :=
  match it with
  | [] => []
  | Done c :: it' => if c =? 0 then [] else Done c :: take_while_nonzero it'
  | bad :: _ => [bad]
  end.

(** The structure [DirFdIter]. The iterator owns [dirfd] while it is not
    negative; the buffer is [DirFdIterBuf], the size of one [RawDirent]. *)
Record DirFdIter := {
  minfd : Z;
  dirfd : Z;
  dirent_buf : list Z;
  dirent_nbytes : Z;
  dirent_offset : Z;
}.

Definition set_dirfd (d : Z) (it : DirFdIter) : DirFdIter :=
  {| minfd := minfd it; dirfd := d; dirent_buf := dirent_buf it;
     dirent_nbytes := dirent_nbytes it; dirent_offset := dirent_offset it |}.
Definition set_buffer (buf : list Z) (nbytes offset : Z) (it : DirFdIter) : DirFdIter :=
  {| minfd := minfd it; dirfd := dirfd it; dirent_buf := buf;
     dirent_nbytes := nbytes; dirent_offset := offset |}.

Section dirfd.
Context `{C : Config} {K : Type} `{SK : Sys K}.

(** The wrapper [getdents] of each target. It writes the entries it returns
    over the beginning of the buffer. (On the targets without it the module
    is not compiled.) *)
Definition getdents (fd : Z) (buf : list Z) : ST (World K) (Z * list Z) :=
  r ← call (match target with
    | linux => sys_getdents SYS_getdents64 (as_u32 fd) (Z.of_nat (length buf))
    | freebsd => sys_getdents getdirentries fd (Z.of_nat (length buf))
    | macos | ios => sys_getdents SYS_GETDIRENTRIES64 fd (Z.of_nat (length buf))
    | _ => sys_getdents getdents_libc fd (Z.of_nat (length buf))
    end);
  let '(n, data) := (r : Z * list Z) in
  mret (n, take (length buf) (data ++ drop (length data) buf)).

(** The part of [DirFdIter::open] that opens the directory, per target; [None]
    is the early [return None] on WSL 1. *)
Definition open_dirfd : ST (World K) (option Z) :=
  match target with
  | linux =>
      wsl ← is_wsl_1;
      if (wsl : bool) then mret None
      else
        dirfd ← libc_open "/proc/self/fd" [O_RDONLY; O_DIRECTORY; O_CLOEXEC];
        mret (Some dirfd)
  | freebsd =>
      dirfd ← libc_open "/dev/fd" [O_RDONLY; O_DIRECTORY; O_CLOEXEC];
      if 0 <=? dirfd then
        dev_stat ← call (sys_stat_dev "/dev");
        let '(r1, st_dev) := (dev_stat : Z * Z) in
        untrusted ←
          (if negb (r1 =? 0) then mret true
           else
             devfd_stat ← call (sys_fstat_dev dirfd);
             let '(r2, fst_dev) := (devfd_stat : Z * Z) in
             mret (negb (r2 =? 0) || (st_dev =? fst_dev)));
        if (untrusted : bool) then libc_close dirfd;; mret (Some (-1))
        else mret (Some dirfd)
      else mret (Some dirfd)
  | netbsd =>
      dirfd ← libc_open "/proc/self/fd" [O_RDONLY; O_DIRECTORY; O_CLOEXEC];
      mret (Some dirfd)
  | solaris | illumos =>
      fd ← libc_open "/dev/fd" [O_RDONLY; O_CLOEXEC];
      if fd <? 0 then
        fd ← libc_open "/proc/self/fd" [O_RDONLY; O_CLOEXEC];
        mret (Some fd)
      else mret (Some fd)
  | _ => (* macOS, iOS *)
      dirfd ← libc_open "/dev/fd" [O_RDONLY; O_DIRECTORY; O_CLOEXEC];
      mret (Some dirfd)
  end.

Definition open (minfd : Z) : ST (World K) (option DirFdIter) :=
  o ← open_dirfd;
  match o with
  | None => mret None
  | Some dirfd =>
      if 0 <=? dirfd then
        mret (Some {| minfd := minfd; dirfd := dirfd;
                      dirent_buf := replicate (d_size RawDirent) 0;
                      dirent_nbytes := 0; dirent_offset := 0 |})
      else mret None
  end.

(** [entry.d_name.iter()] of the entry at [offset]: a read for each index of the
    array, wherever in or beyond the buffer it lies. *)
Definition d_name_iter (buf : list Z) (offset : Z) : bytes_iter :=
  (fun i => get_unchecked buf (offset + Z.of_nat (d_name_off RawDirent + i))) <$>
    seq 0 (d_name_len RawDirent).

Definition get_entry_info (it : DirFdIter) (offset : Z) : outcome (option Z * Z) :=
  fd ← parse_int_bytes (take_while_nonzero (d_name_iter (dirent_buf it) offset));
  b0 ← get_unchecked (dirent_buf it) (offset + Z.of_nat (d_reclen_off RawDirent));
  b1 ← get_unchecked (dirent_buf it) (offset + Z.of_nat (d_reclen_off RawDirent) + 1);
  mret (fd, u16_of_bytes b0 b1).

(** The second half of an iteration of the [loop] of [DirFdIter::next]: take
    the entry at the offset, and return its descriptor or go [again]. *)
Definition consume_entry
    (again : DirFdIter -> ST (World K) (result (option Z) * DirFdIter))
    (it : DirFdIter) : ST (World K) (result (option Z) * DirFdIter) :=
  info ← lift (get_entry_info it (dirent_offset it));
  let '(fd, reclen) := (info : option Z * Z) in
  offset ← lift (usize_add (dirent_offset it) reclen);
  let it := set_buffer (dirent_buf it) (dirent_nbytes it) offset it in
  match fd with
  | Some fd =>
      if (minfd it <=? fd) && negb (fd =? dirfd it) then mret (Ok (Some fd), it)
      else again it
  | None => again it
  end.

(** The [loop] itself, one iteration per unit of fuel. *)
Fixpoint next_loop (fuel : nat) (it : DirFdIter)
  : ST (World K) (result (option Z) * DirFdIter) :=
  match fuel with
  | O => out_of_fuel
  | S fuel' =>
      if dirent_nbytes it <=? dirent_offset it then
        r ← getdents (dirfd it) (dirent_buf it);
        let '(nbytes, buf) := (r : Z * list Z) in
        match nbytes ?= 0 with
        | Gt => consume_entry (next_loop fuel') (set_buffer buf nbytes 0 it)
        | Eq => libc_close (dirfd it);; mret (Ok None, set_dirfd (-1) it)
        | Lt => mret (Err, set_buffer buf (dirent_nbytes it) (dirent_offset it) it)
        end
      else consume_entry (next_loop fuel') it
  end.

Definition next (fuel : nat) (it : DirFdIter)
  : ST (World K) (result (option Z) * DirFdIter) :=
  if dirfd it <? 0 then mret (Ok None, it) else next_loop fuel it.

(** The [while] loop of [DirFdIter::size_hint]. *)
Fixpoint size_hint_loop (fuel : nat) (it : DirFdIter) (dirent_offset low : Z)
  : outcome Z :=
  match fuel with
  | O => OutOfFuel
  | S fuel' =>
      if dirent_offset <? dirent_nbytes it then
        info ← get_entry_info it dirent_offset;
        let '(fd, reclen) := (info : option Z * Z) in
        dirent_offset ← usize_add dirent_offset reclen;
        match fd with
        | Some fd =>
            debug_assert (minfd it <=? fd);;
            if negb (fd =? dirfd it) then
              low ← usize_add low 1; size_hint_loop fuel' it dirent_offset low
            else size_hint_loop fuel' it dirent_offset low
        | None => size_hint_loop fuel' it dirent_offset low
        end
      else mret low
  end.

Definition size_hint (fuel : nat) (it : DirFdIter) : outcome (Z * option Z) :=
  if dirfd it <? 0 then mret (0, Some 0)
  else
    low ← size_hint_loop fuel it (dirent_offset it) 0;
    mret (low, Some (as_usize i32_MAX)).

(** [impl Drop for DirFdIter] *)
Definition drop_iter (it : DirFdIter) : ST (World K) unit :=
  if 0 <=? dirfd it then libc_close (dirfd it) else mret tt.
End dirfd.

(** ** [parse_int_bytes] *)

Definition is_digit (c : Z) : Prop := 48 <= c <= 57.

(** The number a string of digits denotes. *)
Definition digits_value (acc : Z) (bs : list Z) : Z :=
  foldl (fun a c => 10 * a + (c - 48)) acc bs.

Lemma digits_value_ge bs acc :
  0 <= acc -> Forall is_digit bs -> acc <= digits_value acc bs.
Proof.
  revert acc. induction bs as [|c bs IH]; intros acc Ha Hd; [done|].
  apply Forall_cons in Hd as [Hc Hd]. unfold is_digit in Hc. simpl.
  etrans; [|apply IH; [lia|done]]. lia.
Qed.

(** One step of the loop on a digit, exactly: both checked operations succeed
    when the new value fits. *)
Lemma parse_step num c :
  0 <= num -> is_digit c ->
  (n ← checked_mul num 10; checked_add n (c - 48)) =
    if 10 * num + (c - 48) <=? i32_MAX then Some (10 * num + (c - 48)) else None.
Proof.
  unfold is_digit, checked_mul, checked_add. intros Hn Hc.
  assert (Hck : forall z, 0 <= z -> i32_checked z = if z <=? i32_MAX then Some z else None).
  { intros z Hz. unfold i32_checked, in_i32, i32_MIN.
    by rewrite (proj2 (Z.leb_le (-2147483648) z)) by lia. }
  rewrite Hck by lia. replace (num * 10) with (10 * num) by lia.
  destruct (Z.leb_spec (10 * num) i32_MAX); simpl; [by rewrite Hck by lia|].
  by rewrite (proj2 (Z.leb_gt _ _)) by lia.
Qed.

Lemma parse_loop_spec bs num seen :
  0 <= num <= i32_MAX ->
  exists o, parse_loop (Done <$> bs) num seen = Done o /\ forall r, o = Some r <->
    (seen = true \/ bs <> []) /\ Forall is_digit bs /\ digits_value num bs = r /\ r <= i32_MAX.
Proof.
  revert num seen. induction bs as [|c bs IH]; intros num seen Hn; simpl.
  - eexists. split; [done|]. intros r. destruct seen; split.
    + intros [= <-]. split_and!; [by left|done|done|lia].
    + intros (_ & _ & -> & _). done.
    + done.
    + by intros ([?|?] & _).
  - destruct ((48 <=? c) && (c <=? 57)) eqn:Hc; last first.
    { eexists. split; [done|]. intros r. split; [done|]. intros (_ & Hf & _).
      apply Forall_cons in Hf as [Hd _]. unfold is_digit in Hd. lia. }
    assert (Hd : is_digit c) by (unfold is_digit; lia). rewrite parse_step by (done || lia).
    destruct (Z.leb_spec (10 * num + (c - 48)) i32_MAX); last first.
    { eexists. split; [done|]. intros r. split; [done|].
      intros (_ & [_ Hf]%Forall_cons & <- & Hle).
      pose proof (digits_value_ge bs (10 * num + (c - 48))
        ltac:(unfold is_digit in Hd; lia) Hf). lia. }
    destruct (IH (10 * num + (c - 48)) true) as (o & Ho & Hr); [unfold is_digit in Hd; lia|].
    exists o. split; [exact Ho|]. intros r. rewrite Hr, Forall_cons. split.
    + intros (_ & Hf & Hv & Hle). split_and!; auto.
    + intros (_ & [_ Hf] & Hv & Hle). split_and!; auto.
Qed.

(** [parse_int_bytes] accepts exactly the nonempty strings of decimal digits
    whose value fits a [c_int], and returns that value. *)
Lemma parse_int_bytes_spec bs :
  exists o, parse_int_bytes (Done <$> bs) = Done o /\ forall r, o = Some r <->
    bs <> [] /\ Forall is_digit bs /\ digits_value 0 bs = r /\ r <= i32_MAX.
Proof.
  destruct (parse_loop_spec bs 0 false) as (o & Ho & Hr); [unfold i32_MAX; lia|].
  exists o. split; [exact Ho|]. intros r. rewrite Hr.
  split; [intros ([?|?] & ?); [done|auto] | intros (? & ?); auto].
Qed.

(** The loop asks for nothing behind a byte that is not a digit. *)
Lemma parse_loop_lazy bs c rest num seen :
  0 <= num <= i32_MAX -> ~ is_digit c -> parse_loop ((Done <$> bs) ++ Done c :: rest) num seen = Done None.
Proof.
  intros Hn Hc. revert num seen Hn. induction bs as [|b bs IH]; intros num seen Hn; simpl.
  - destruct ((48 <=? c) && (c <=? 57)) eqn:Hx; [|done]. unfold is_digit in Hc. lia.
  - destruct ((48 <=? b) && (b <=? 57)) eqn:Hb; [|done].
    rewrite parse_step by (unfold is_digit; lia).
    destruct (Z.leb_spec (10 * num + (b - 48)) i32_MAX); [|done]. apply IH. lia.
Qed.

(** The digits that are left when the last ones are cut off. *)
Lemma digits_value_bounds acc bs :
  Forall is_digit bs ->
  let p := 10 ^ Z.of_nat (length bs) in acc * p <= digits_value acc bs < (acc + 1) * p.
Proof.
  intros Hd p. subst p. revert acc. induction Hd as [|c bs Hc _ IH]; intros acc.
  { unfold digits_value. simpl. lia. }
  change (digits_value acc (c :: bs)) with (digits_value (10 * acc + (c - 48)) bs).
  specialize (IH (10 * acc + (c - 48))). cbn [length].
  rewrite Nat2Z.inj_succ, Z.pow_succ_r by lia. unfold is_digit in Hc. nia.
Qed.

Lemma digits_value_take n bs :
  Forall is_digit bs ->
  digits_value 0 (take n bs) = digits_value 0 bs / 10 ^ Z.of_nat (length bs - n).
Proof.
  intros Hd. rewrite <- length_drop. set (v := digits_value 0 (take n bs)).
  assert (digits_value 0 bs = digits_value v (drop n bs)) as ->.
  { unfold v, digits_value. by rewrite <- foldl_app, take_drop. }
  pose proof (digits_value_bounds v (drop n bs) (Forall_drop _ _ _ Hd)) as Hb. cbn zeta in Hb.
  eapply Z.div_unique with
    (r := digits_value v (drop n bs) - v * 10 ^ Z.of_nat (length (drop n bs))); lia.
Qed.

Lemma decimal_aux_value fuel n :
  0 <= n < 10 ^ (Z.of_nat fuel + 1) ->
  decimal_aux (S fuel) n <> [] /\ Forall is_digit (decimal_aux (S fuel) n) /\
  digits_value 0 (decimal_aux (S fuel) n) = n.
Proof.
  revert n. induction fuel as [|fuel IH]; intros n Hn.
  - simpl. rewrite (proj2 (Z.ltb_lt _ _)) by (simpl in Hn; lia). simpl in Hn |- *.
    split_and!; [done| |lia]. constructor; [unfold is_digit; lia|done].
  - change (decimal_aux (S (S ?f)) n) with
      (if n <? 10 then [48 + n] else decimal_aux (S f) (n / 10) ++ [48 + n mod 10]).
    destruct (Z.ltb_spec n 10).
    + simpl. split_and!; [done| |lia]. constructor; [unfold is_digit; lia|done].
    + rewrite Nat2Z.inj_succ, Z.add_succ_l, Z.pow_succ_r in Hn by lia.
      destruct (IH (n / 10)) as (Hnil & Hd & Hv).
      { split; [apply Z.div_pos; lia|apply Z.div_lt_upper_bound; lia]. }
      pose proof (Z.mod_pos_bound n 10 ltac:(lia)). pose proof (Z.div_mod n 10 ltac:(lia)).
      split_and!; [by destruct (decimal_aux _ _)| |].
      * apply Forall_app. split; [done|]. constructor; [unfold is_digit; lia|done].
      * unfold digits_value in *. rewrite foldl_app, Hv. simpl. lia.
Qed.

(** Parsing the name the system gives a descriptor returns the descriptor. *)
Lemma parse_decimal n :
  0 <= n <= i32_MAX -> parse_int_bytes (Done <$> decimal n) = Done (Some n).
Proof.
  intros Hn. destruct (parse_int_bytes_spec (decimal n)) as (o & -> & Hr). f_equal.
  apply Hr. unfold decimal.
  destruct (decimal_aux_value 19 n) as (? & ? & ?); [unfold i32_MAX in *; simpl; lia|].
  split_and!; [done|done|done|lia].
Qed.

(** The name of a descriptor that has lost its end is read as another one. *)
Lemma parse_decimal_take k n :
  0 <= n <= i32_MAX -> (0 < k)%nat ->
  parse_int_bytes (Done <$> take k (decimal n)) =
    Done (Some (n / 10 ^ Z.of_nat (length (decimal n) - k))).
Proof.
  intros Hn Hk. destruct (parse_int_bytes_spec (take k (decimal n))) as (o & -> & Hr).
  f_equal. apply Hr. unfold decimal in *.
  destruct (decimal_aux_value 19 n) as (Hnil & Hd & Hv); [unfold i32_MAX in *; simpl; lia|].
  set (l := decimal_aux 20 n) in *. split_and!.
  - by destruct l, k; try lia.
  - by apply Forall_take.
  - by rewrite digits_value_take, Hv.
  - etrans; [|apply Hn]. apply Z.div_le_upper_bound; [lia|].
    assert (0 < 10 ^ Z.of_nat (length l - k)) by lia. nia.
Qed.

(** ** Reading an entry *)

Section entries.
Context `{C : Config, !ConfigOk C}.

(** What [get_entry_info] parses from the name of an entry. *)
Lemma parse_dirent_name e name :
  dirent_name e name -> (forall fd, e = Some fd -> fd <= i32_MAX) ->
  parse_int_bytes (Done <$> name) = Done e /\ Forall (fun c => c <> 0) name /\ (length name <= 10)%nat.
Proof.
  intros He Hfd. destruct He as [fd Hpos| |].
  - specialize (Hfd fd eq_refl). split_and!; [by apply parse_decimal| |by apply decimal_length].
    destruct (decimal_aux_value 19 fd) as (_ & Hd & _); [unfold i32_MAX in *; simpl; lia|].
    eapply Forall_impl; [exact Hd|]. unfold is_digit. intros ?; lia.
  - split_and!; [done|by repeat constructor|simpl; lia].
  - split_and!; [done|by repeat constructor|simpl; lia].
Qed.

Lemma get_unchecked_drop buf i j l x :
  drop i buf = l -> l !! j = Some x -> get_unchecked buf (Z.of_nat i + Z.of_nat j) = Done x.
Proof.
  intros <- Hj. rewrite lookup_drop in Hj. unfold get_unchecked.
  by replace (Z.to_nat (Z.of_nat i + Z.of_nat j)) with (i + j)%nat by lia; rewrite Hj.
Qed.

Lemma take_while_all name :
  Forall (fun c => c <> 0) name -> take_while_nonzero (Done <$> name) = Done <$> name.
Proof.
  induction 1 as [|c name Hc _ IH]; csimpl; [done|]. rewrite (proj2 (Z.eqb_neq c 0)) by done. by f_equal.
Qed.

Lemma take_while_name name rest :
  Forall (fun c => c <> 0) name ->
  take_while_nonzero ((Done <$> name) ++ Done 0 :: rest) = Done <$> name.
Proof.
  induction 1 as [|c name Hc _ IH]; csimpl; [done|]. rewrite (proj2 (Z.eqb_neq c 0)) by done. by f_equal.
Qed.

(** As far as it lies in the buffer, the array is read as it is. *)
Lemma d_name_iter_read buf off l rest n :
  drop (off + d_name_off RawDirent) buf = l ++ rest -> (n <= length l)%nat ->
  (fun i => get_unchecked buf (Z.of_nat off + Z.of_nat (d_name_off RawDirent + i))) <$>
    seq 0 n = Done <$> take n l.
Proof.
  intros Hd Hn. apply list_eq. intros i. rewrite !list_lookup_fmap.
  destruct (decide (i < n)%nat) as [Hi|Hi]; last first.
  { rewrite lookup_seq_ge, lookup_take_ge by lia. done. }
  rewrite lookup_seq_lt, lookup_take_lt by done.
  destruct (lookup_lt_is_Some_2 l i ltac:(lia)) as [c Hc]. rewrite Hc. simpl.
  rewrite Nat2Z.inj_add, Z.add_assoc, <- Nat2Z.inj_add.
  by rewrite (get_unchecked_drop _ _ i _ c Hd (lookup_app_l_Some _ _ _ _ Hc)).
Qed.

(** What is taken of the array is the name, as far as the array reaches. *)
Lemma d_name_iter_name buf off name rest :
  drop (off + d_name_off RawDirent) buf = name ++ 0 :: rest -> Forall (fun c => c <> 0) name ->
  take_while_nonzero (d_name_iter buf (Z.of_nat off)) =
    Done <$> take (d_name_len RawDirent) name.
Proof.
  intros Hd Hnz. unfold d_name_iter.
  destruct (decide (length name < d_name_len RawDirent)%nat) as [Hlt|Hge].
  - replace (d_name_len RawDirent)
      with (S (length name) + (d_name_len RawDirent - S (length name)))%nat by lia.
    rewrite seq_app, fmap_app, (d_name_iter_read buf off (name ++ [0]) rest) by
      (rewrite ?length_app, <- ?app_assoc; simpl; done || lia).
    rewrite (take_ge (name ++ [0])) by (rewrite length_app; simpl; lia).
    rewrite fmap_app, <- app_assoc. simpl. rewrite take_while_name by done.
    by rewrite take_ge by lia.
  - rewrite (d_name_iter_read buf off name (0 :: rest)) by (done || lia).
    apply take_while_all, Forall_take, Hnz.
Qed.

(** The descriptor of an entry is parsed from as much of its name as the array
    holds. *)
Lemma get_entry_info_record it off header name pad b0 b1 rest :
  drop off (dirent_buf it) = (header ++ name ++ 0 :: pad) ++ rest ->
  Forall (fun c => c <> 0) name -> length header = d_name_off RawDirent ->
  header !! d_reclen_off RawDirent = Some b0 -> header !! S (d_reclen_off RawDirent) = Some b1 ->
  get_entry_info it (Z.of_nat off) =
    (fd ← parse_int_bytes (Done <$> take (d_name_len RawDirent) name);
     mret (fd, u16_of_bytes b0 b1)).
Proof.
  intros Hrd Hnz Hlen H0 H1. unfold get_entry_info. rewrite <- !app_assoc in Hrd. simpl in Hrd.
  rewrite (d_name_iter_name (dirent_buf it) off name (pad ++ rest)); [|..|done].
  2:{ rewrite <- drop_drop, Hrd, <- Hlen. apply drop_app_length. }
  destruct (parse_int_bytes _) as [fd| | | |]; try done. simpl.
  rewrite (get_unchecked_drop _ _ _ _ b0 Hrd (lookup_app_l_Some _ _ _ _ H0)). simpl.
  rewrite <- Z.add_assoc. replace (Z.of_nat (d_reclen_off RawDirent) + 1)
    with (Z.of_nat (S (d_reclen_off RawDirent))) by lia.
  by rewrite (get_unchecked_drop _ _ _ _ b1 Hrd (lookup_app_l_Some _ _ _ _ H1)).
Qed.

(** Reading the first of the encoded entries: no byte outside the buffer is
    read, and the result is the entry and the length of its record. *)
Lemma get_entry_info_ok it off data tail e es :
  drop off (dirent_buf it) = data ++ tail -> dirents data (e :: es) ->
  (forall fd, e = Some fd -> fd <= i32_MAX) ->
  exists n data', get_entry_info it (Z.of_nat off) = Done (e, Z.of_nat n) /\
    (0 < n)%nat /\ length data = (n + length data')%nat /\
    drop (off + n) (dirent_buf it) = data' ++ tail /\ dirents data' es.
Proof.
  intros Hdrop Hdir Hfd. inversion Hdir as [|header name pad b0 b1 e' data' es' Hname Hroom Hlen
    H0 H1 Hu16 Hdir' Heq]; subst.
  destruct (parse_dirent_name e name) as (Hparse & Hnz & Hnlen); [done..|].
  set (record := header ++ name ++ 0 :: pad) in *.
  exists (length record), data'.
  assert (Hrd : drop off (dirent_buf it) = record ++ data' ++ tail) by (by rewrite Hdrop, app_assoc).
  split_and!.
  - rewrite (get_entry_info_record it off header name pad b0 b1 (data' ++ tail)) by done.
    by rewrite take_ge, Hparse, Hu16 by done.
  - unfold record. rewrite !length_app. simpl. lia.
  - by rewrite length_app.
  - by rewrite <- drop_drop, Hrd, drop_app_length.
  - done.
Qed.

Lemma dirents_length data es : dirents data es -> (length es <= length data)%nat.
Proof.
  induction 1; [done|]. rewrite !length_app. simpl. lia.
Qed.

(** The entries [es] are still in the buffer, from the offset on. *)
Definition layout (it : DirFdIter) (es : list (option Z)) : Prop :=
  length (dirent_buf it) = d_size RawDirent /\
  exists off data tail,
    dirent_offset it = Z.of_nat off /\
    drop off (dirent_buf it) = data ++ tail /\
    dirent_nbytes it = Z.of_nat (off + length data) /\
    dirents data es.

Lemma layout_length it es : layout it es -> (length es <= d_size RawDirent)%nat.
Proof.
  intros (Hbuf & off & data & tail & _ & Hdrop & _ & Hdir).
  apply (f_equal length) in Hdrop. rewrite length_drop, length_app in Hdrop.
  pose proof (dirents_length _ _ Hdir). lia.
Qed.

(** The test for a new read: whether the entries are used up. *)
Lemma layout_test it es :
  layout it es ->
  (dirent_nbytes it <=? dirent_offset it) = match es with [] => true | _ => false end.
Proof.
  intros (_ & off & data & tail & -> & _ & -> & Hdir). destruct es as [|e es].
  - inversion Hdir; subst. apply Z.leb_le. simpl. lia.
  - pose proof (dirents_length _ _ Hdir). simpl in *. apply Z.leb_gt. lia.
Qed.

Lemma layout_fresh minfd0 d :
  layout {| minfd := minfd0; dirfd := d; dirent_buf := replicate (d_size RawDirent) 0;
            dirent_nbytes := 0; dirent_offset := 0 |} [].
Proof.
  split; [apply length_replicate|].
  exists 0%nat, [], (replicate (d_size RawDirent) 0). split_and!; [done..|constructor].
Qed.

(** The buffer after a read is the entries and the old rest. *)
Lemma layout_refill it es0 n data es :
  layout it es0 -> n = Z.of_nat (length data) -> n <= Z.of_nat (length (dirent_buf it)) ->
  dirents data es ->
  layout (set_buffer
    (take (length (dirent_buf it)) (data ++ drop (length data) (dirent_buf it))) n 0 it) es.
Proof.
  intros [Hbuf _] -> Hle Hdir.
  assert (Hlen : length (data ++ drop (length data) (dirent_buf it)) = length (dirent_buf it)).
  { rewrite length_app, length_drop. lia. }
  rewrite take_ge by lia. split; simpl; [by rewrite Hlen|].
  exists 0%nat, data, (drop (length data) (dirent_buf it)). auto.
Qed.

(** What the second half of an iteration does with the entry at the offset: no
    undefined read and no overflow. *)
Lemma consume_entry_eq {K} (again : DirFdIter -> ST (World K) (result (option Z) * DirFdIter))
    it w e es :
  layout it (e :: es) -> (forall fd, e = Some fd -> fd <= i32_MAX) ->
  exists it1, layout it1 es /\ minfd it1 = minfd it /\ dirfd it1 = dirfd it /\
    consume_entry again it w =
      (match e with
       | Some fd =>
           if (minfd it <=? fd) && negb (fd =? dirfd it) then mret (Ok (Some fd), it1)
           else again it1
       | None => again it1
       end) w.
Proof.
  intros (Hbuf & off & data & tail & Hoff & Hdrop & Hnb & Hdir) Hfd.
  destruct (get_entry_info_ok it off data tail e es) as
    (n & data' & Hinfo & Hn & Hlen & Hdrop' & Hdir'); [done..|].
  pose proof RawDirent_ok as [_ _ Hsz]. pose proof usize_MAX_large.
  pose proof (f_equal length Hdrop) as Hle. rewrite length_drop, length_app in Hle.
  exists (set_buffer (dirent_buf it) (dirent_nbytes it) (Z.of_nat (off + n)) it). split_and!.
  - split; [done|]. exists (off + n)%nat, data', tail. simpl. split_and!; [done..| |done]. lia.
  - done.
  - done.
  - unfold consume_entry. rewrite Hoff, Hinfo. rewrite lift_Done.
    rewrite usize_add_ok by (unfold u32_MAX in *; lia). rewrite lift_Done, <- Nat2Z.inj_add.
    by destruct e as [fd|].
Qed.
End entries.

(** ** The stream invariant *)

Section stream.
Context `{C : Config, !ConfigOk C} {K : Type} `{SK : Sys K} `{KV : KernelView K}
  {KS : KernelSpec K}.

(** The iterator owns an open stream at position [p], the entries [es] are
    still in its buffer, and everything open from [c] up is still to come. *)
Record stream_inv (it : DirFdIter) (k : K) (c : Z) (es : list (option Z)) (p : Z)
  : Prop := {
  si_open : is_Some (fds k !! dirfd it);
  si_next : dirnext k (dirfd it) = Some p;
  si_layout : layout it es;
  si_sorted : strictly_ascending (listed_fds es);
  si_below : forall f, f ∈ listed_fds es -> f < p;
  si_limit : p <= i32_MAX + 1;
  si_minfd : 0 <= minfd it <= c;
  si_pos : c <= p \/ c = minfd it;
  si_cover : forall f, c <= f -> f <> dirfd it -> is_Some (fds k !! f) ->
    f ∈ listed_fds es \/ p <= f;
  si_live : forall f, f ∈ listed_fds es -> minfd it <= f ->
    c <= f /\ is_Some (fds k !! f);
}.

(** The postcondition of [next], for an iterator with descriptor [d]. *)
Definition stream_post (it : DirFdIter) (w : World K) (c : Z)
    (r : result (option Z) * DirFdIter) (w' : World K) : Prop :=
  let '(r, it') := r in
  statics w' = statics w /\ env (kern w') = env (kern w) /\ minfd it' = minfd it /\
  match r with
  | Ok (Some fd) =>
      c <= fd < i32_MAX /\ fd <> dirfd it /\ is_Some (fds (kern w) !! fd) /\
      (forall f, c <= f < fd -> f <> dirfd it -> fds (kern w) !! f = None) /\
      fds (kern w') = fds (kern w) /\ dirfd it' = dirfd it /\
      exists es p, stream_inv it' (kern w') (fd + 1) es p /\
        forall f, f ∈ listed_fds es -> fd < f
  | Ok None =>
      dirfd it' = -1 /\ fds (kern w') = delete (dirfd it) (fds (kern w)) /\
      (forall f, c <= f -> f <> dirfd it -> fds (kern w) !! f = None)
  | Err => dirfd it' = dirfd it /\ fds (kern w') = fds (kern w)
  end.

Lemma listed_fds_cons e es :
  listed_fds (e :: es) = match e with Some f => f :: listed_fds es | None => listed_fds es end.
Proof. by destruct e. Qed.

(** Entries are below the limit, so every name parses. *)
Lemma stream_entry_small it k c e es p fd :
  stream_inv it k c (e :: es) p -> e = Some fd -> fd <= i32_MAX.
Proof.
  intros Hi ->. pose proof (si_below _ _ _ _ _ Hi fd) as Hb.
  pose proof (si_limit _ _ _ _ _ Hi). rewrite listed_fds_cons in Hb.
  specialize (Hb ltac:(by left)). lia.
Qed.

Lemma stream_skip it it1 k c e es p :
  stream_inv it k c (e :: es) p ->
  (forall fd, e = Some fd -> fd < minfd it \/ fd = dirfd it) ->
  layout it1 es -> minfd it1 = minfd it -> dirfd it1 = dirfd it ->
  stream_inv it1 k c es p.
Proof.
  intros [Ho Hn _ Hs Hb Hl Hm Hpos Hc Hlive] Hskip Hlay Em Ed.
  rewrite listed_fds_cons in *. constructor; rewrite ?Em, ?Ed; auto.
  - destruct e; [|done]. by apply strictly_ascending_cons in Hs as [_ Hs].
  - intros f Hf. apply Hb. destruct e; [by right|done].
  - intros f Hcf Hfd Hsome. destruct (Hc f Hcf Hfd Hsome) as [Hin|?]; [|by right].
    destruct e as [g|]; [|by left]. apply elem_of_cons in Hin as [->|?]; [|by left].
    destruct (Hskip g eq_refl); lia.
  - intros f Hf. apply Hlive. destruct e; [by right|done].
Qed.

Lemma stream_yield it it1 k c fd es p :
  stream_inv it k c (Some fd :: es) p -> minfd it <= fd ->
  layout it1 es -> minfd it1 = minfd it -> dirfd it1 = dirfd it ->
  stream_inv it1 k (fd + 1) es p.
Proof.
  intros [Ho Hn _ Hs Hb Hl Hm Hpos Hc Hlive] Hge Hlay Em Ed.
  rewrite listed_fds_cons in *. apply strictly_ascending_cons in Hs as [Hgt Hs].
  rewrite Forall_forall in Hgt.
  assert (Hfd : c <= fd) by (apply Hlive; [by left|done]).
  assert (Hfp : fd < p) by (apply Hb; by left).
  constructor; rewrite ?Em, ?Ed; auto; try lia.
  - intros f Hf. apply Hb. by right.
  - intros f Hcf Hne Hsome. destruct (Hc f ltac:(lia) Hne Hsome) as [Hin|?]; [|by right].
    apply elem_of_cons in Hin as [->|?]; [lia|by left].
  - intros f Hf Hmf. split; [specialize (Hgt f Hf); lia|]. apply Hlive; [by right|done].
Qed.

Lemma consume_entry_spec again it w c e es p :
  stream_inv it (kern w) c (e :: es) p ->
  (forall it', stream_inv it' (kern w) c es p -> minfd it' = minfd it ->
     dirfd it' = dirfd it -> wp (again it') (stream_post it w c) w) ->
  wp (consume_entry again it) (stream_post it w c) w.
Proof.
  intros Hi Hagain.
  destruct (consume_entry_eq again it w e es (si_layout _ _ _ _ _ Hi)) as
    (it1 & Hlay & Em & Ed & Heq); [intros fd; by eapply stream_entry_small|].
  assert (Hskip : (forall fd, e = Some fd -> fd < minfd it \/ fd = dirfd it) ->
    wp (again it1) (stream_post it w c) w).
  { intros Hs. apply Hagain; [|done|done]. by eapply stream_skip. }
  eapply wp_ext; [exact Heq|]. clear Heq.
  destruct e as [fd|]; [|by apply Hskip].
  destruct (Z.leb_spec (minfd it) fd); simpl; [|apply Hskip; intros ? [= <-]; lia].
  destruct (Z.eqb_spec fd (dirfd it)); simpl; [apply Hskip; intros ? [= <-]; lia|].
  apply wp_ret. unfold stream_post. do 3 (split; [done|]).
  assert (Hlive : c <= fd /\ is_Some (fds (kern w) !! fd)).
  { apply (si_live _ _ _ _ _ Hi); [rewrite listed_fds_cons; by left|done]. }
  destruct Hlive as [Hcfd Hopen]. split_and!; auto.
  - destruct Hopen as [fl Hfl]. apply fds_wf in Hfl. lia.
  - intros f Hf Hne. apply eq_None_not_Some. intros Hsome.
    pose proof (si_sorted _ _ _ _ _ Hi) as Hsort. rewrite listed_fds_cons in Hsort.
    apply strictly_ascending_cons in Hsort as [Hgt _]. rewrite Forall_forall in Hgt.
    destruct (si_cover _ _ _ _ _ Hi f ltac:(lia) Hne Hsome) as [Hin|Hp].
    + rewrite listed_fds_cons in Hin. apply elem_of_cons in Hin as [->|Hin]; [lia|].
      specialize (Hgt f Hin). lia.
    + assert (fd < p); [|lia]. apply (si_below _ _ _ _ _ Hi).
      rewrite listed_fds_cons. by left.
  - exists es, p. split; [by eapply stream_yield|].
    pose proof (si_sorted _ _ _ _ _ Hi) as Hsort. rewrite listed_fds_cons in Hsort.
    apply strictly_ascending_cons in Hsort as [Hgt _]. by rewrite Forall_forall in Hgt.
Qed.

(** Iterations left: the entries in the buffer, and a buffer of them for each
    position that is left. *)
Definition stream_measure (es : list (option Z)) (p : Z) : nat :=
  length es + Z.to_nat (i32_MAX + 1 - p) * S (d_size RawDirent).

Lemma stream_post_transport it it1 w w1 c r w' :
  fds (kern w1) = fds (kern w) -> env (kern w1) = env (kern w) ->
  statics w1 = statics w -> dirfd it1 = dirfd it -> minfd it1 = minfd it ->
  stream_post it1 w1 c r w' -> stream_post it w c r w'.
Proof.
  unfold stream_post. destruct r as [r it'].
  intros -> -> -> -> ->. by destruct r as [[fd|]|].
Qed.

Lemma wp_getdents d buf (Q : Z * list Z -> World K -> Prop) w p :
  has_dirfd target = true -> is_Some (fds (kern w) !! d) ->
  dirnext (kern w) d = Some p ->
  (forall n data k', fds k' = fds (kern w) -> env k' = env (kern w) ->
     (n = 0 -> forall f, p <= f -> fds (kern w) !! f = None) ->
     (0 < n -> n = Z.of_nat (length data) /\ n <= Z.of_nat (length buf) /\
        exists es p', dirents data es /\ dirnext k' d = Some p' /\
          p < p' <= i32_MAX + 1 /\ strictly_ascending (listed_fds es) /\
          forall f, f ∈ listed_fds es <-> p <= f < p' /\ is_Some (fds (kern w) !! f)) ->
     Q (n, take (length buf) (data ++ drop (length data) buf)) (mkWorld k' (statics w))) ->
  wp (getdents d buf) Q w.
Proof.
  intros Ht [fl Hfl] Hp HQ. unfold getdents. apply wp_bind, wp_call.
  intros [n data] k' Hk. apply wp_ret.
  pose proof (fds_wf _ _ _ Hfl) as [Hd _].
  assert (exists call, native_getdents target call /\
    sys_getdents call d (Z.of_nat (length buf)) (kern w) = ((n, data), k')) as (call & Hc & Hcall).
  { rewrite as_u32_small in Hk by (unfold i32_MAX, u32_MAX in *; lia).
    destruct target; try discriminate Ht; eexists; (split; [reflexivity|exact Hk]). }
  destruct (getdents_spec _ _ _ _ _ _ _ _ Hc Hcall (mk_is_Some _ _ Hfl) Hp)
    as (H1 & H2 & H3 & H4).
  apply HQ; auto.
Qed.

(** The stream after a read. *)
Lemma stream_refill it w c p n data k' es p' :
  stream_inv it (kern w) c [] p ->
  fds k' = fds (kern w) ->
  n = Z.of_nat (length data) -> n <= Z.of_nat (length (dirent_buf it)) ->
  dirents data es -> dirnext k' (dirfd it) = Some p' -> p < p' <= i32_MAX + 1 ->
  strictly_ascending (listed_fds es) ->
  (forall f, f ∈ listed_fds es <-> p <= f < p' /\ is_Some (fds (kern w) !! f)) ->
  stream_inv (set_buffer
      (take (length (dirent_buf it)) (data ++ drop (length data) (dirent_buf it))) n 0 it)
    k' c es p'.
Proof.
  intros [Ho Hn Hlay _ _ Hl Hm Hpos Hc _] Hfds Hlen Hle Hdir Hp' Hpp Hs Hes.
  constructor; simpl; rewrite ?Hfds; auto.
  - by eapply layout_refill.
  - intros f Hf%Hes. lia.
  - lia.
  - destruct Hpos; [left; lia|by right].
  - intros f Hcf Hne Hsome. destruct (Hc f Hcf Hne Hsome) as [[]%not_elem_of_nil|?].
    destruct (Z.lt_ge_cases f p'); [left; by apply Hes|by right].
  - intros f Hf Hmf. apply Hes in Hf as [Hf Hsome]. split; [|done].
    destruct Hpos; lia.
Qed.

Lemma next_loop_spec fuel it w c es p :
  has_dirfd target = true -> stream_inv it (kern w) c es p ->
  (stream_measure es p < fuel)%nat ->
  wp (next_loop fuel it) (stream_post it w c) w.
Proof.
  intros Ht. revert it w es p. induction fuel as [|fuel IH]; intros it w es p Hi Hf; [lia|].
  simpl. rewrite (layout_test _ _ (si_layout _ _ _ _ _ Hi)). destruct es as [|e es]; last first.
  { apply consume_entry_spec with (e := e) (es := es) (p := p); [done|].
    intros it' Hi' Hm Hd. eapply wp_mono.
    - apply (IH it' w es p Hi'). unfold stream_measure in *. simpl in *. lia.
    - intros r w' Hr. by eapply stream_post_transport; [..|exact Hr]. }
  apply wp_bind. eapply wp_getdents; [done|by eapply si_open|by eapply si_next|].
  intros n bytes k' Hfds Henv H0 Hpos. cbn beta iota.
  destruct (Z.compare_spec n 0).
  - apply wp_bind, wp_libc_close. intros k2 Hk2 [He2 _]. apply wp_ret. simpl in *.
    rewrite Hk2, He2, Hfds. unfold stream_post. simpl. split_and!; try done.
    intros f Hcf Hne. apply eq_None_not_Some. intros Hsome.
    destruct (si_cover _ _ _ _ _ Hi f Hcf Hne Hsome) as [[]%not_elem_of_nil|Hp].
    rewrite H0 in Hsome by done. by destruct Hsome.
  - apply wp_ret. done.
  - destruct Hpos as (Hn & Hle & es' & p' & Hdir' & Hp' & Hpp & Hs & Hes); [done|].
    pose proof (stream_refill it w c p n bytes k' es' p' Hi Hfds Hn Hle Hdir' Hp' Hpp Hs Hes)
      as Hi'.
    pose proof (dirents_length _ _ Hdir') as Hlen. rewrite (proj1 (si_layout _ _ _ _ _ Hi)) in Hle.
    destruct es' as [|e es']; [inversion Hdir'; subst; simpl in *; lia|].
    eapply wp_mono.
    + apply (consume_entry_spec _ _ (mkWorld k' (statics w)) c e es' p' Hi').
      intros it' Hi2 Hm Hd. eapply wp_mono.
      * apply (IH it' (mkWorld k' (statics w)) es' p' Hi2).
        unfold stream_measure in *. simpl in *.
        assert (Z.to_nat (i32_MAX + 1 - p) >= S (Z.to_nat (i32_MAX + 1 - p')))%nat by lia. nia.
      * intros r w' Hr. by eapply stream_post_transport; [..|exact Hr].
    + intros r w' Hr. by eapply stream_post_transport; [..|exact Hr].
Qed.

(** ** The iterator as its user sees it *)

(** Fuel for any loop of the crate: a descriptor has at most 2^31 values, and
    a buffer holds fewer than 2^16 entries. *)
Definition enough_fuel (fuel : nat) : Prop := 2 ^ 48 <= Z.of_nat fuel.

Lemma measure_fuel es p fuel :
  (length es <= d_size RawDirent)%nat -> -2 <= p -> p <= i32_MAX + 1 -> enough_fuel fuel ->
  (stream_measure es p < fuel)%nat.
Proof.
  unfold enough_fuel, stream_measure. intros Hlen Hp Hp' Hf.
  pose proof RawDirent_ok as [_ _ Hsz]. unfold i32_MAX in *. apply Nat2Z.inj_lt.
  rewrite Nat2Z.inj_add, Nat2Z.inj_mul, Z2Nat.id by lia. rewrite Nat2Z.inj_succ. nia.
Qed.

Lemma stream_fuel it k c es p fuel :
  stream_inv it k c es p -> enough_fuel fuel -> (stream_measure es p < fuel)%nat.
Proof.
  intros Hi. apply measure_fuel; [by eapply layout_length, si_layout| |by eapply si_limit].
  by eapply dirnext_wf, si_next.
Qed.

(** The table without the descriptor that the iterator owns. *)
Definition dir_view (it : DirFdIter) (k : K) : gmap Z Z :=
  if 0 <=? dirfd it then delete (dirfd it) (fds k) else fds k.

(** The iterator is exhausted and nothing is open from [c] up, or it owns a
    stream that has everything from [c] up still to come. *)
Definition dir_inv (it : DirFdIter) (k : K) (c : Z) : Prop :=
  (dirfd it < 0 /\ forall f, c <= f -> fds k !! f = None) \/
  exists es p, stream_inv it k c es p /\ forall f, f ∈ listed_fds es -> minfd it <= f.

Lemma stream_dirfd it k c es p : stream_inv it k c es p -> 0 <= dirfd it.
Proof. intros Hi. destruct (si_open _ _ _ _ _ Hi) as [fl Hfl%fds_wf]. lia. Qed.

Lemma dir_view_active it k : 0 <= dirfd it -> dir_view it k = delete (dirfd it) (fds k).
Proof. intros H. unfold dir_view. by rewrite (proj2 (Z.leb_le _ _)). Qed.

Lemma dir_view_exhausted it k : dirfd it < 0 -> dir_view it k = fds k.
Proof. intros H. unfold dir_view. by rewrite (proj2 (Z.leb_gt _ _)). Qed.

(** [DirFdIter::next] with enough fuel runs to the end in every build, reads
    no byte outside its buffer, and leaves the descriptors of the process
    alone. It returns the lowest descriptor from [c] up that is open (its own
    directory aside), or that there is none, in which case the directory is
    closed; or it reports an error, and still owns the directory. *)
Lemma dir_next_spec fuel it w c :
  has_dirfd target = true -> enough_fuel fuel -> dir_inv it (kern w) c ->
  wp (next fuel it) (fun '(r, it') w' =>
    statics w' = statics w /\ env (kern w') = env (kern w) /\
    dir_view it' (kern w') = dir_view it (kern w) /\
    match r with
    | Ok (Some fd) =>
        c <= fd < i32_MAX /\ is_Some (dir_view it (kern w) !! fd) /\
        (forall f, c <= f < fd -> dir_view it (kern w) !! f = None) /\
        dirfd it' = dirfd it /\ fd <> dirfd it /\
        dir_inv it' (kern w') (fd + 1)
    | Ok None =>
        (forall f, c <= f -> dir_view it (kern w) !! f = None) /\
        dirfd it' < 0 /\ dir_inv it' (kern w') c
    | Err => dirfd it' = dirfd it
    end) w.
Proof.
  intros Ht Hf [[Hd Hnone]|(es & p & Hi & _)]; unfold next.
  { rewrite (proj2 (Z.ltb_lt _ _)) by done. apply wp_ret. rewrite dir_view_exhausted by done.
    split_and!; try done. left. done. }
  pose proof (stream_dirfd _ _ _ _ _ Hi) as Hd. rewrite (proj2 (Z.ltb_ge _ _)) by done.
  eapply wp_mono; [apply (next_loop_spec fuel it w c es p Ht Hi); by eapply stream_fuel|].
  intros [r it'] w' (Hst & He & Hm & Hr). rewrite (dir_view_active it) by done.
  split; [done|]. split; [done|]. destruct r as [[fd|]|].
  - destruct Hr as (H1 & H2 & H3 & H4 & H5 & H6 & es' & p' & Hi' & Hgt).
    rewrite (dir_view_active it') by lia. split_and!; try lia; try done.
    + by rewrite H5, H6.
    + by rewrite lookup_delete_ne.
    + intros f Hf'. destruct (decide (f = dirfd it)) as [->|Hne].
      * apply lookup_delete_eq.
      * rewrite lookup_delete_ne by done. by apply H4.
    + right. exists es', p'. split; [done|]. intros f Hin. specialize (Hgt f Hin).
      pose proof (si_minfd _ _ _ _ _ Hi). lia.
  - destruct Hr as (H1 & H2 & H3). rewrite dir_view_exhausted by lia.
    assert (Hnone : forall f, c <= f -> delete (dirfd it) (fds (kern w)) !! f = None).
    { intros f Hcf. destruct (decide (f = dirfd it)) as [->|Hne].
      - apply lookup_delete_eq.
      - rewrite lookup_delete_ne by done. by apply H3. }
    split_and!; try done; try lia. left. rewrite H2. split; [lia|done].
  - destruct Hr as [H1 H2]. rewrite dir_view_active by lia. by rewrite H1, H2.
Qed.

(** Changes below [c], and changes of flags, do not disturb the iterator. *)
Lemma dir_inv_stable it k k' c :
  dir_inv it k c -> frame k k' ->
  (0 <= dirfd it -> is_Some (fds k' !! dirfd it)) ->
  (forall f, c <= f -> is_Some (fds k' !! f) <-> is_Some (fds k !! f)) ->
  dir_inv it k' c.
Proof.
  intros [[Hd Hnone]|(es & p & Hi & Hmin)] [_ Hfr] Hopen Hsame.
  - left. split; [done|]. intros f Hf. apply eq_None_not_Some.
    rewrite Hsame by done. intros [? Hx]. by rewrite Hnone in Hx.
  - right. exists es, p. split; [|done]. pose proof (stream_dirfd _ _ _ _ _ Hi).
    destruct Hi. constructor; auto.
    + by rewrite Hfr by auto.
    + intros f Hf Hne Hs. apply si_cover0; auto. by apply Hsame.
    + intros f Hf Hm. destruct (si_live0 f Hf Hm). split; [done|]. by apply Hsame.
Qed.

(** Dropping the iterator closes the directory it owns, and only that. *)
Lemma drop_iter_spec it w :
  wp (drop_iter it) (fun _ w' =>
    fds (kern w') = dir_view it (kern w) /\ frame (kern w) (kern w') /\
    statics w' = statics w) w.
Proof.
  unfold drop_iter, dir_view. destruct (0 <=? dirfd it).
  - apply wp_libc_close. auto.
  - apply wp_ret. done.
Qed.

(** ** Opening the directory *)

(** A fresh descriptor [d], the only change of the table. *)
Definition opened (d : Z) (k k' : K) : Prop :=
  0 <= d /\ fds k !! d = None /\ env k' = env k /\
  exists fl, fds k' = <[d := fl]> (fds k).

Definition at_start (d : Z) (k : K) : Prop := exists p, dirnext k d = Some p /\ p <= 0.

Lemma wp_libc_open path flags (Q : Z -> World K -> Prop) w :
  (forall r k', sys_open path flags (kern w) = (r, k') ->
     (r < 0 /\ same_view (kern w) k') \/
     (0 <= r /\ opened r (kern w) k' /\
      (lists_fds target (env (kern w)) path -> at_start r k')) ->
     Q r (mkWorld k' (statics w))) ->
  wp (libc_open path flags) Q w.
Proof.
  intros HQ. unfold libc_open. apply wp_call. intros r k' Hk. apply HQ; [done|].
  destruct (open_spec _ _ _ _ _ Hk) as [?|(H1 & H2 & H3 & H4 & _ & H6)]; [by left|right].
  unfold opened. auto 10.
Qed.

Lemma opened_trans d k k1 k2 : opened d k k1 -> same_view k1 k2 -> opened d k k2.
Proof.
  intros (H1 & H2 & H3 & fl & H4) (V1 & V2 & V3). unfold opened.
  rewrite V1, V2. eauto.
Qed.

Lemma same_view_opened d k k1 k2 : same_view k k1 -> opened d k1 k2 -> opened d k k2.
Proof.
  intros (V1 & V2 & V3) (H1 & H2 & H3 & fl & H4). unfold opened.
  rewrite V1 in H2. rewrite V2 in H3. rewrite H4, V1. eauto.
Qed.

Lemma opened_open d k k' : opened d k k' -> is_Some (fds k' !! d).
Proof. intros (_ & _ & _ & fl & ->). rewrite lookup_insert_eq. eauto. Qed.

Lemma at_start_view d k k' :
  is_Some (fds k !! d) -> same_view k k' -> at_start d k -> at_start d k'.
Proof.
  intros Hd (V1 & _ & V3) (p & Hp & Hle). exists p. split; [|done].
  rewrite V3; [done|]. by rewrite V1.
Qed.

(** What opening the directory does: no directory, and the table as it was;
    or a new descriptor, which is a stream that lists the table. *)
Definition open_dirfd_post (w : World K) (o : option Z) (w' : World K) : Prop :=
  env (kern w') = env (kern w) /\ statics_ok (env (kern w')) (statics w') /\
  match o with
  | Some d =>
      (d < 0 /\ fds (kern w') = fds (kern w)) \/
      (0 <= d /\ opened d (kern w) (kern w') /\ at_start d (kern w'))
  | None => fds (kern w') = fds (kern w)
  end.

Lemma open_one path flags w :
  lists_fds target (env (kern w)) path ->
  statics_ok (env (kern w)) (statics w) ->
  wp (d ← libc_open path flags; mret (Some d)) (open_dirfd_post w) w.
Proof.
  intros Hl Hok. apply wp_bind, wp_libc_open. intros d k' _ Hr. apply wp_ret.
  unfold open_dirfd_post. simpl. destruct Hr as [(H1 & H2 & H3 & _)|(H1 & H2 & H3)].
  - rewrite H3. split_and!; [done|done|]. by left.
  - assert (env k' = env (kern w)) as -> by apply H2. split_and!; [done|done|].
    right. auto.
Qed.

Lemma open_dirfd_linux w :
  target = linux -> statics_ok (env (kern w)) (statics w) ->
  wp open_dirfd (open_dirfd_post w) w.
Proof.
  intros Ht Hok. unfold open_dirfd. rewrite Ht. apply wp_bind.
  eapply wp_mono; [by apply is_wsl_1_spec|].
  intros wsl w1 (Hw & (V1 & V2 & V3) & _ & Hok1 & _). destruct wsl.
  { apply wp_ret. by split_and!. }
  eapply wp_mono; [apply open_one; [|done]|].
  - rewrite V2, Ht. split; [done|]. intros Hx. by apply Hw in Hx.
  - intros o w2 (H1 & H2 & H3). split; [congruence|]. split; [done|].
    destruct o as [d|]; [|congruence].
    destruct H3 as [[??]|(? & ? & ?)]; [left; split; congruence|right].
    split_and!; [done| |done]. by eapply same_view_opened.
Qed.

Lemma open_dirfd_freebsd w :
  target = freebsd -> statics_ok (env (kern w)) (statics w) ->
  wp open_dirfd (open_dirfd_post w) w.
Proof.
  intros Ht Hok. unfold open_dirfd. rewrite Ht. apply wp_bind, wp_libc_open.
  intros d k1 Hopen Hr. destruct Hr as [(Hd & V1 & V2 & V3)|(Hd & Ho & Hlist)].
  { rewrite (proj2 (Z.leb_gt _ _)) by done. apply wp_ret.
    unfold open_dirfd_post. simpl. rewrite V2. auto. }
  rewrite (proj2 (Z.leb_le _ _)) by done. apply wp_bind, wp_call.
  intros [r1 dev] k2 Hstat. simpl in Hstat. pose proof (stat_spec _ _ _ _ Hstat) as Hv2.
  cbn beta iota.
  assert (Hclose : forall k3, opened d (kern w) k3 ->
    wp (libc_close d;; mret (Some (-1))) (open_dirfd_post w) (mkWorld k3 (statics w))).
  { intros k3 (_ & Hn & He & fl & Hf). apply wp_bind, wp_libc_close. intros k4 Hk4 [He4 _].
    apply wp_ret. unfold open_dirfd_post. simpl in *. rewrite He4, He, Hk4, Hf.
    split_and!; [done|done|]. left. split; [lia|]. by rewrite delete_insert_eq, delete_id. }
  pose proof (opened_trans _ _ _ _ Ho Hv2) as Ho2.
  apply wp_bind. destruct (Z.eqb_spec r1 0) as [->|Hne]; simpl; last first.
  { apply wp_ret. by apply Hclose. }
  apply wp_bind, wp_call. intros [r2 devfd] k3 Hfstat. simpl in Hfstat.
  pose proof (fstat_spec _ _ _ _ Hfstat) as Hv3.
  pose proof (opened_trans _ _ _ _ Ho2 Hv3) as Ho3.
  apply wp_ret. destruct (Z.eqb_spec r2 0) as [->|Hne]; simpl; [|by apply Hclose].
  destruct (Z.eqb_spec dev devfd); [by apply Hclose|].
  apply wp_ret. unfold open_dirfd_post. simpl.
  assert (env k3 = env (kern w)) as -> by apply Ho3. split_and!; [done|done|]. right.
  split_and!; [done|done|].
  pose proof (opened_open _ _ _ Ho) as Hop1. pose proof (opened_open _ _ _ Ho2) as Hop2.
  apply (at_start_view d k2); [done|done|]. apply (at_start_view d k1); [done|done|].
  apply Hlist. rewrite Ht. split; [done|].
  rewrite <- (fstat_devfd _ _ _ _ k2 _ _ Hopen Hd (proj1 (proj2 Hv2)) (same_view_untouched _ _ _ Hop1 Hv2) Hfstat).
  rewrite (stat_dev _ _ _ Hstat) in n. destruct Ho as (_ & _ & He1 & _). by rewrite He1 in n.
Qed.

Lemma open_dirfd_sun w :
  target = solaris \/ target = illumos -> statics_ok (env (kern w)) (statics w) ->
  wp open_dirfd (open_dirfd_post w) w.
Proof.
  intros Ht Hok.
  assert (Hall : forall path, path = "/dev/fd"%string \/ path = "/proc/self/fd"%string ->
    lists_fds target (env (kern w)) path).
  { intros path Hp. destruct Ht as [-> | ->]; done. }
  assert (wp (fd ← libc_open "/dev/fd" [O_RDONLY; O_CLOEXEC];
      if fd <? 0 then fd ← libc_open "/proc/self/fd" [O_RDONLY; O_CLOEXEC]; mret (Some fd)
      else mret (Some fd)) (open_dirfd_post w) w) as Hwp.
  { apply wp_bind, wp_libc_open. intros d k1 _ Hr.
    destruct Hr as [(Hd & Hv)|(Hd & Ho & Hs)].
    - rewrite (proj2 (Z.ltb_lt _ _)) by done. pose proof Hv as (V1 & V2 & V3).
      eapply wp_mono; [apply open_one; simpl; rewrite V2; [by auto|done]|].
      intros o w2 (H1 & H2 & H3). simpl in *. split; [congruence|]. split; [done|].
      destruct o as [d2|]; [|congruence].
      destruct H3 as [[??]|(? & ? & ?)]; [left; split; congruence|right].
      split_and!; [done| |done]. by eapply same_view_opened.
    - rewrite (proj2 (Z.ltb_ge _ _)) by done. apply wp_ret. unfold open_dirfd_post. simpl.
      assert (env k1 = env (kern w)) as -> by apply Ho. auto 10. }
  unfold open_dirfd. destruct Ht as [-> | ->]; exact Hwp.
Qed.

Lemma open_dirfd_spec w :
  has_dirfd target = true -> statics_ok (env (kern w)) (statics w) ->
  wp open_dirfd (open_dirfd_post w) w.
Proof.
  intros Ht Hok. destruct target eqn:Htgt; try discriminate Ht.
  - by apply open_dirfd_linux.
  - unfold open_dirfd. rewrite Htgt. apply open_one; [by rewrite Htgt|done].
  - unfold open_dirfd. rewrite Htgt. apply open_one; [by rewrite Htgt|done].
  - by apply open_dirfd_freebsd.
  - unfold open_dirfd. rewrite Htgt. apply open_one; [by rewrite Htgt|done].
  - apply open_dirfd_sun; auto.
  - apply open_dirfd_sun; auto.
Qed.

(** [DirFdIter::open] either leaves the table as it was and returns nothing,
    or takes one new descriptor: a directory that lists the process's
    descriptors, with everything from [minfd] up still to come. *)
Lemma dir_open_spec minfd0 w :
  has_dirfd target = true -> 0 <= minfd0 -> statics_ok (env (kern w)) (statics w) ->
  wp (open minfd0) (fun o w' =>
    env (kern w') = env (kern w) /\ statics_ok (env (kern w')) (statics w') /\
    match o with
    | None => fds (kern w') = fds (kern w)
    | Some it =>
        0 <= dirfd it /\ fds (kern w) !! dirfd it = None /\
        dir_view it (kern w') = fds (kern w) /\ dir_inv it (kern w') minfd0
    end) w.
Proof.
  intros Ht Hm Hok. unfold open. apply wp_bind.
  eapply wp_mono; [by apply open_dirfd_spec|]. intros o w' (He & Hok' & Ho).
  destruct o as [d|]; [|by apply wp_ret].
  destruct Ho as [[Hd Hf]|(Hd & Ho & p & Hp & Hp0)].
  { rewrite (proj2 (Z.leb_gt _ _)) by done. by apply wp_ret. }
  rewrite (proj2 (Z.leb_le _ _)) by done. apply wp_ret.
  pose proof (opened_open _ _ _ Ho) as Hopen.
  destruct Ho as (_ & Hnone & _ & fl & Hfds). split_and!; simpl; try done.
  - unfold dir_view. simpl. rewrite (proj2 (Z.leb_le _ _)) by done.
    by rewrite Hfds, delete_insert_eq, delete_id.
  - right. exists [], p. split; [|by intros f []%not_elem_of_nil].
    constructor; simpl; auto; try lia; try (by intros f Hf%not_elem_of_nil).
    + apply layout_fresh.
    + unfold i32_MAX. lia.
Qed.
End stream.

(** ** The end of the stream *)

Section fused.
Context `{C : Config} {K : Type} `{SK : Sys K}.

(** After [Ok(None)] the iterator owns no descriptor. *)
Lemma next_loop_None fuel it w it' w' :
  next_loop fuel it w = Done ((Ok None, it'), w') -> dirfd it' < 0.
Proof.
  revert it w. induction fuel as [|fuel IH]; intros it w; [done|]. simpl.
  assert (Hcons : forall it w,
    consume_entry (next_loop fuel) it w = Done ((Ok None, it'), w') -> dirfd it' < 0).
  { clear it w. intros it w. unfold consume_entry.
    intros ([fd reclen] & w1 & _ & (off & w2 & _ & H)%ST_bind_Done)%ST_bind_Done.
    destruct fd as [fd|]; [|by apply IH in H].
    destruct (_ && _); [|by apply IH in H]. discriminate H. }
  destruct (_ <=? _); [|apply Hcons].
  intros ([n buf] & w1 & _ & H)%ST_bind_Done. destruct (n ?= 0).
  - apply ST_bind_Done in H as (_ & w2 & _ & [= <- _]). simpl. lia.
  - discriminate H.
  - by apply Hcons in H.
Qed.

Lemma next_None fuel it w it' w' :
  next fuel it w = Done ((Ok None, it'), w') -> dirfd it' < 0.
Proof.
  unfold next. destruct (Z.ltb_spec (dirfd it) 0); [by intros [= <- _]|].
  apply next_loop_None.
Qed.

Lemma next_exhausted fuel it w :
  dirfd it < 0 -> next fuel it w = Done ((Ok None, it), w).
Proof. intros Hd. unfold next. by rewrite (proj2 (Z.ltb_lt _ _)). Qed.
End fused.

(** ** Properties *)

(** C34. [parse_int_bytes] accepts exactly the nonempty strings of decimal digits
    whose value fits a [c_int], and returns that value; so no sign, no blank and
    no overflow. It never panics, and it asks for no item behind the first that
    is not a digit, so an undefined read there does not happen. *)
Theorem parse_int_bytes_correct bs :
  (exists o, parse_int_bytes (Done <$> bs) = Done o /\ forall r, o = Some r <->
    bs <> [] /\ Forall is_digit bs /\ digits_value 0 bs = r /\ r <= i32_MAX) /\
  (forall c rest, ~ is_digit c ->
    parse_int_bytes ((Done <$> bs) ++ Done c :: rest) = Done None).
Proof.
  split; [apply parse_int_bytes_spec|]. intros c rest Hc.
  apply parse_loop_lazy; [unfold i32_MAX; lia|done].
Qed.

(** C35. Round trip: parsing the name the system gives a descriptor, its number
    in decimal, returns the descriptor. *)
Theorem parse_decimal_roundtrip n :
  0 <= n <= i32_MAX -> parse_int_bytes (Done <$> decimal n) = Done (Some n).
Proof. apply parse_decimal. Qed.

Section properties.
Context `{C : Config, !ConfigOk C}.

(** C28. [get_entry_info], at the offset of an entry in the buffer, reads no
    byte outside the buffer, returns the entry's descriptor (nothing for "."
    and ".."), and a record length that leads to the next entry. *)
Theorem get_entry_info_correct it off data tail e es :
  drop off (dirent_buf it) = data ++ tail -> dirents data (e :: es) ->
  (forall fd, e = Some fd -> fd <= i32_MAX) ->
  exists n data', get_entry_info it (Z.of_nat off) = Done (e, Z.of_nat n) /\
    (0 < n)%nat /\ drop (off + n) (dirent_buf it) = data' ++ tail /\ dirents data' es.
Proof.
  intros H1 H2 H3. destruct (get_entry_info_ok it off data tail e es H1 H2 H3)
    as (n & data' & ? & ? & _ & ? & ?). by exists n, data'.
Qed.

(** C40. The libc crate declares three characters of [d_name] for Solaris and Illumos,
    and [get_entry_info] iterates over that array, not over the name: of a
    descriptor whose name is longer it returns the leading digits, so that 1000 to
    1009 all read as 100. *)
Theorem long_name_truncated it off header fd pad b0 b1 rest :
  drop off (dirent_buf it) = (header ++ decimal fd ++ 0 :: pad) ++ rest ->
  length header = d_name_off RawDirent ->
  header !! d_reclen_off RawDirent = Some b0 -> header !! S (d_reclen_off RawDirent) = Some b1 ->
  0 <= fd <= i32_MAX -> (0 < d_name_len RawDirent)%nat ->
  get_entry_info it (Z.of_nat off) =
    Done (Some (fd / 10 ^ Z.of_nat (length (decimal fd) - d_name_len RawDirent)),
          u16_of_bytes b0 b1).
Proof.
  intros Hd Hlen H0 H1 Hfd Hn.
  destruct (parse_dirent_name (Some fd) (decimal fd)) as (_ & Hnz & _);
    [apply name_fd; lia|intros ? [= <-]; lia|].
  rewrite (get_entry_info_record it off header (decimal fd) pad b0 b1 rest) by done.
  by rewrite parse_decimal_take.
Qed.

Context {K : Type} `{SK : Sys K} `{KV : KernelView K} {KS : KernelSpec K}.

(** [DirFdIter::open] either leaves the table as it was and returns
    nothing, or takes one new descriptor for a directory that lists the
    process's descriptors, with everything from [minfd] up still to come. *)
Theorem dir_open_correct minfd0 w :
  has_dirfd target = true -> 0 <= minfd0 -> statics_ok (env (kern w)) (statics w) ->
  wp (open minfd0) (fun o w' =>
    env (kern w') = env (kern w) /\ statics_ok (env (kern w')) (statics w') /\
    match o with
    | None => fds (kern w') = fds (kern w)
    | Some it =>
        0 <= dirfd it /\ fds (kern w) !! dirfd it = None /\
        delete (dirfd it) (fds (kern w')) = fds (kern w) /\ dir_inv it (kern w') minfd0
    end) w.
Proof.
  intros Ht Hm Hok. eapply wp_mono; [by apply dir_open_spec|].
  intros o w' (H1 & H2 & H3). split_and!; [done|done|]. destruct o as [it|]; [|done].
  destruct H3 as (H3 & H4 & H5 & H6). by rewrite dir_view_active in H5.
Qed.

(** C27. [DirFdIter::next] with enough fuel runs to the end in every build,
    reads no byte outside its buffer, and leaves the user's descriptors alone.
    It returns the lowest descriptor from [c] up that is open, its own
    directory aside; or that there is none, and then the directory is closed;
    or it reports an error and still owns the directory. *)
Theorem dir_next_correct fuel it w c :
  has_dirfd target = true -> enough_fuel fuel -> dir_inv it (kern w) c ->
  wp (next fuel it) (fun '(r, it') w' =>
    dir_view it' (kern w') = dir_view it (kern w) /\
    match r with
    | Ok (Some fd) =>
        c <= fd < i32_MAX /\ is_Some (dir_view it (kern w) !! fd) /\
        (forall f, c <= f < fd -> dir_view it (kern w) !! f = None) /\
        dirfd it' = dirfd it /\ fd <> dirfd it /\ dir_inv it' (kern w') (fd + 1)
    | Ok None =>
        (forall f, c <= f -> dir_view it (kern w) !! f = None) /\
        dirfd it' < 0 /\ dir_inv it' (kern w') c
    | Err => dirfd it' = dirfd it
    end) w.
Proof.
  intros Ht Hf Hi. eapply wp_mono; [by apply dir_next_spec|].
  intros [r it'] w' (_ & _ & Hv & Hr). by split.
Qed.

(** Dropping a [DirFdIter] closes the directory it owns, if it still owns
    one, and nothing else: no descriptor is leaked. *)
Theorem drop_iter_correct it w :
  wp (drop_iter it) (fun _ w' =>
    fds (kern w') = (if 0 <=? dirfd it then delete (dirfd it) (fds (kern w)) else fds (kern w)) /\
    statics w' = statics w) w.
Proof.
  eapply wp_mono; [apply drop_iter_spec|]. intros [] w' (H1 & _ & H2). by split.
Qed.
End properties.
