(* ===== verification/FdIter.v ===== *)
(** * src/iterfds/fditer.rs

    [FdIter]: an iterator over the descriptors of the process, which reads the
    directory of descriptors while it can and otherwise tries every number up to
    a maximum. *)

From S2P Require Import Prelude Platform Ints Sys KernelSpec Util DirFdIter.

(** ** Definitions *)

(** The structure [FdIter]. The fields [dirfd_iter] and [skip_nfds] exist only on
    some targets; on the others the model has them and never looks at them. *)
Record FdIter := {
  dirfd_iter : option DirFdIter;
  curfd : Z;
  possible : bool;
  maxfd : option Z;
  skip_nfds : bool;
}.

Definition set_dirfd_iter (o : option DirFdIter) (it : FdIter) : FdIter :=
  {| dirfd_iter := o; curfd := curfd it; possible := possible it; maxfd := maxfd it;
     skip_nfds := skip_nfds it |}.
Definition set_curfd (c : Z) (it : FdIter) : FdIter :=
  {| dirfd_iter := dirfd_iter it; curfd := c; possible := possible it; maxfd := maxfd it;
     skip_nfds := skip_nfds it |}.
Definition set_maxfd (m : Z) (it : FdIter) : FdIter :=
  {| dirfd_iter := dirfd_iter it; curfd := curfd it; possible := possible it;
     maxfd := Some m; skip_nfds := skip_nfds it |}.

Section fditer.
Context `{C : Config} {K : Type} `{SK : Sys K}.

(** The number of open descriptors, if the system tells. *)
Definition get_nfds : ST (World K) (option Z) :=
  match target with
  | freebsd =>
      r ← call sys_sysctl_nfds;
      let '(ret, nfds) := (r : Z * Z) in
      mret (if ret =? 0 then Some nfds else None)
  | _ => (* OpenBSD *)
      n ← call sys_getdtablecount; mret (Some n)
  end.

(** The [for fd in 0..(nfds * 2)] loop of [nfds_to_maxfd]. *)
Fixpoint nfds_loop (range : list Z) (nfds nfds_found : Z) : ST (World K) (option Z) :=
  match range with
  | [] => mret None
  | fd :: range' =>
      valid ← is_fd_valid fd;
      if (valid : bool) then
        nfds_found ← lift (i32_add nfds_found 1);
        if nfds <=? nfds_found then mret (Some fd)
        else nfds_loop range' nfds nfds_found
      else nfds_loop range' nfds nfds_found
  end.

Definition nfds_to_maxfd (nfds : Z) : ST (World K) (option Z) :=
  if nfds =? 0 then mret (Some (-1))
  else if nfds <? 0 then mret None
  else if 100 <=? nfds then mret None
  else
    limit ← lift (i32_mul nfds 2);
    nfds_loop (seqZ 0 limit) nfds 0.

(** The fallback of [get_maxfd_direct]. *)
Definition maxfd_sysconf : ST (World K) Z :=
  fdlimit ← call sys_sysconf_open_max;
  lift (i32_sub (Z.min (Z.max fdlimit 1024) 65536) 1).

Definition get_maxfd_direct (it : FdIter) : ST (World K) Z :=
  if decide (target = netbsd) then
    set_errno 0;;
    maxfd ← call sys_fcntl_maxfd;
    if 0 <=? maxfd then mret maxfd
    else
      errno ← get_errno;
      if (maxfd =? -1) && (errno =? 0) then mret (-1) else maxfd_sysconf
  else if has_nfds target && negb (skip_nfds it) then
    nfds ← get_nfds;
    o ← match nfds with Some n => nfds_to_maxfd n | None => mret None end;
    match o with Some maxfd => mret maxfd | None => maxfd_sysconf end
  else maxfd_sysconf.

Definition get_maxfd (it : FdIter) : ST (World K) (Z * FdIter) :=
  match maxfd it with
  | Some m => mret (m, it)
  | None =>
      m ← get_maxfd_direct it;
      lift (debug_assert (-1 <=? m));;
      mret (m, set_maxfd m it)
  end.

Definition is_possible_iter (it : FdIter) : bool := possible it.

(** The [while self.curfd <= maxfd] loop of [FdIter::next]. *)
Fixpoint scan_loop (fuel : nat) (maxfd : Z) (it : FdIter)
  : ST (World K) (option Z * FdIter) :=
  match fuel with
  | O => out_of_fuel
  | S fuel' =>
      if curfd it <=? maxfd then
        let fd := curfd it in
        c ← lift (i32_add (curfd it) 1);
        let it := set_curfd c it in
        yield ← (if possible it then mret true else is_fd_valid fd);
        if (yield : bool) then mret (Some fd, it) else scan_loop fuel' maxfd it
      else mret (None, it)
  end.

Definition scan (fuel : nat) (it : FdIter) : ST (World K) (option Z * FdIter) :=
  r ← get_maxfd it;
  let '(m, it) := (r : Z * FdIter) in
  scan_loop fuel m it.

Definition next (fuel : nat) (it : FdIter) : ST (World K) (option Z * FdIter) :=
  match (if has_dirfd target then dirfd_iter it else None) with
  | Some d =>
      r ← DirFdIter.next fuel d;
      let '(o, d) := (r : result (option Z) * DirFdIter) in
      match o with
      | Ok (Some fd) =>
          lift (debug_assert (curfd it <=? fd));;
          c ← lift (i32_add fd 1);
          mret (Some fd, set_curfd c (set_dirfd_iter (Some d) it))
      | Ok None => mret (None, set_dirfd_iter (Some d) it)
      | Err => drop_iter d;; scan fuel (set_dirfd_iter None it)
      end
  | None => scan fuel it
  end.

Definition size_hint (fuel : nat) (it : FdIter) : outcome (Z * option Z) :=
  match (if has_dirfd target then dirfd_iter it else None) with
  | Some d => DirFdIter.size_hint fuel d
  | None =>
      match maxfd it with
      | Some m =>
          if m =? -1 then mret (0, Some 0)
          else
            debug_assert (0 <=? m);;
            top ← usize_add (as_usize m) 1;
            let diff := saturating_sub top (as_usize (curfd it)) in
            mret (if possible it then diff else 0, Some diff)
      | None => mret (0, Some (as_usize i32_MAX))
      end
  end.

(** Dropping an [FdIter] drops the [DirFdIter] in it. *)
Definition drop_fditer (it : FdIter) : ST (World K) unit :=
  match dirfd_iter it with Some d => drop_iter d | None => mret tt end.

(** A [for fd in it { body(fd) }] loop, which consumes the iterator; [n] bounds
    the iterations. *)
Fixpoint for_each (n fuel : nat) (body : Z -> ST (World K) unit) (it : FdIter)
  : ST (World K) unit :=
  match n with
  | O => out_of_fuel
  | S n' =>
      r ← next fuel it;
      let '(o, it) := (r : option Z * FdIter) in
      match o with
      | Some fd => body fd;; for_each n' fuel body it
      | None => drop_fditer it
      end
  end.

(** [it.collect()] *)
Fixpoint collect (n fuel : nat) (it : FdIter) : ST (World K) (list Z) :=
  match n with
  | O => out_of_fuel
  | S n' =>
      r ← next fuel it;
      let '(o, it) := (r : option Z * FdIter) in
      match o with
      | Some fd => l ← collect n' fuel it; mret (fd :: l)
      | None => drop_fditer it;; mret []
      end
  end.

(** [Iterator::min] and [Iterator::max] of [FdIter]; both consume it. *)
Definition min (fuel : nat) (it : FdIter) : ST (World K) (option Z) :=
  r ← next fuel it;
  let '(o, it) := (r : option Z * FdIter) in
  drop_fditer it;; mret o.

Fixpoint last_loop (n fuel : nat) (acc : option Z) (it : FdIter)
  : ST (World K) (option Z) :=
  match n with
  | O => out_of_fuel
  | S n' =>
      r ← next fuel it;
      let '(o, it) := (r : option Z * FdIter) in
      match o with
      | Some fd => last_loop n' fuel (Some fd) it
      | None => drop_fditer it;; mret acc
      end
  end.

Definition max (n fuel : nat) (it : FdIter) : ST (World K) (option Z) :=
  last_loop n fuel None it.
End fditer.

(** ** Specification *)

(** The highest number the fallback loop tries when only [sysconf] tells. *)
Definition scan_limit (e : Env) : Z := Z.min (Z.max (env_open_max e) 1024) 65536 - 1.

(** ** The maximum descriptor *)

Section maxfd.
Context `{C : Config, !ConfigOk C} {K : Type} `{SK : Sys K} `{KV : KernelView K}
  {KS : KernelSpec K}.

(** The view and the statics did not change. *)
Definition quiet (w w' : World K) : Prop :=
  same_view (kern w) (kern w') /\ statics w' = statics w.

Lemma quiet_trans w1 w2 w3 : quiet w1 w2 -> quiet w2 w3 -> quiet w1 w3.
Proof.
  intros [V1 S1] [V2 S2]. split; [by eapply same_view_trans|congruence].
Qed.

Lemma quiet_fds w w' : quiet w w' -> fds (kern w') = fds (kern w).
Proof. intros [[H _] _]. done. Qed.

Lemma quiet_env w w' : quiet w w' -> env (kern w') = env (kern w).
Proof. intros [(_ & H & _) _]. done. Qed.

Lemma wp_is_fd_valid fd (Q : bool -> World K -> Prop) w :
  (forall b w', (b = true <-> is_Some (fds (kern w) !! fd)) -> quiet w w' -> Q b w') ->
  wp (is_fd_valid fd) Q w.
Proof.
  intros HQ. eapply wp_mono; [apply is_fd_valid_spec|].
  intros b w' (Hb & Hv & Hs). apply HQ; [done|]. by split.
Qed.

(** [m] is the highest open descriptor, or -1. *)
Definition highest (t : gmap Z Z) (m : Z) : Prop :=
  (forall f, is_Some (t !! f) -> f <= m) /\ (m = -1 /\ t = ∅ \/ is_Some (t !! m)).

(** Counting the open descriptors [seen] below [c]. *)
Lemma nfds_loop_spec k c nfds found seen w :
  0 <= c -> 0 <= found < nfds -> nfds < 100 ->
  nfds = Z.of_nat (size (fds (kern w))) ->
  seen ⊆ dom (fds (kern w)) -> Z.of_nat (size (seen : gset Z)) = found ->
  (forall f, f ∈ seen -> f < c) ->
  wp (nfds_loop (seqZ c (Z.of_nat k)) nfds found) (fun o w' => quiet w w' /\
    forall m, o = Some m -> c <= m < c + Z.of_nat k /\ highest (fds (kern w)) m) w.
Proof.
  revert c found seen w. induction k as [|k IH];
    intros c found seen w Hc Hfound Hn Hsize Hsub Hseen Hlt.
  { apply wp_ret. done. }
  rewrite seqZ_cons by lia. rewrite Nat2Z.inj_succ, Z.pred_succ. simpl.
  apply wp_bind, wp_is_fd_valid. intros b w1 Hb Hq.
  (* the rest of the range, with what is seen by then *)
  assert (Hrec : forall found' (seen' : gset Z), 0 <= found' < nfds ->
    seen' ⊆ dom (fds (kern w)) -> Z.of_nat (size seen') = found' ->
    (forall f, f ∈ seen' -> f < Z.succ c) ->
    wp (nfds_loop (seqZ (Z.succ c) (Z.of_nat k)) nfds found') (fun o w' => quiet w w' /\
      forall m, o = Some m ->
        c <= m < c + Z.succ (Z.of_nat k) /\ highest (fds (kern w)) m) w1).
  { intros found' seen' H1 H2 H3 H4. pose proof (quiet_fds _ _ Hq) as Hf.
    rewrite <- Hf in Hsize, H2 |- *.
    eapply wp_mono; [apply (IH (Z.succ c) found' seen'); done || lia|].
    intros o w2 [Hq2 Ho]. split; [by eapply quiet_trans|]. intros m Hm.
    destruct (Ho m Hm). split; [lia|done]. }
  destruct b; [|apply (Hrec found seen); try done; intros f Hf; specialize (Hlt f Hf); lia].
  apply proj1 in Hb. specialize (Hb eq_refl).
  assert (Hnew : c ∉ seen) by (intros Hin; specialize (Hlt c Hin); lia).
  assert (Hsub' : {[c]} ∪ seen ⊆ dom (fds (kern w))).
  { intros f [->%elem_of_singleton|Hf]%elem_of_union; [by apply elem_of_dom|auto]. }
  assert (Hsize' : Z.of_nat (size ({[c]} ∪ seen : gset Z)) = found + 1).
  { rewrite size_union by (intros f ->%elem_of_singleton; done). rewrite size_singleton. lia. }
  assert (Hlt' : forall f, f ∈ {[c]} ∪ seen -> f < Z.succ c).
  { intros f [->%elem_of_singleton|Hf]%elem_of_union; [lia|]. specialize (Hlt f Hf). lia. }
  apply wp_bind. eapply wp_lift; [apply i32_add_ok; unfold i32_MIN, i32_MAX; lia|].
  destruct (Z.leb_spec nfds (found + 1)); [|apply (Hrec _ ({[c]} ∪ seen)); done || lia].
  apply wp_ret. split; [done|]. intros m [= <-]. split; [lia|]. split; [|by right].
  assert (Heq : {[c]} ∪ seen ≡ dom (fds (kern w))).
  { apply set_subseteq_size_equiv; [done|]. rewrite size_dom. lia. }
  intros f Hf. apply elem_of_dom in Hf. rewrite <- Heq in Hf. specialize (Hlt' f Hf). lia.
Qed.

(** Given the number of open descriptors, [nfds_to_maxfd] returns the highest
    open descriptor, or gives up; it tries fewer than 200 numbers. *)
Lemma nfds_to_maxfd_spec nfds w :
  nfds = Z.of_nat (size (fds (kern w))) ->
  wp (nfds_to_maxfd nfds) (fun o w' => quiet w w' /\
    forall m, o = Some m -> -1 <= m < 198 /\ highest (fds (kern w)) m) w.
Proof.
  intros Hn. unfold nfds_to_maxfd. destruct (Z.eqb_spec nfds 0) as [->|].
  { apply wp_ret. split; [done|]. intros m [= <-]. split; [lia|].
    assert (fds (kern w) = ∅) as He by (apply map_size_empty_inv; lia).
    split; [|by left]. rewrite He. intros f [? Hf]. by rewrite lookup_empty in Hf. }
  destruct (Z.ltb_spec nfds 0); [by apply wp_ret|].
  destruct (Z.leb_spec 100 nfds); [by apply wp_ret|].
  apply wp_bind. eapply wp_lift.
  { apply i32_mul_ok. unfold i32_MIN, i32_MAX. lia. }
  replace (nfds * 2) with (Z.of_nat (Z.to_nat (nfds * 2))) by lia.
  eapply wp_mono; [apply (nfds_loop_spec _ 0 _ _ ∅); try done; try lia; set_solver|].
  intros o w' [Hq Ho]. split; [done|]. intros m Hm. destruct (Ho m Hm). split; [lia|done].
Qed.

Lemma maxfd_sysconf_spec w :
  wp maxfd_sysconf (fun m w' =>
    quiet w w' /\ m = scan_limit (env (kern w)) /\ 1023 <= m <= 65535) w.
Proof.
  unfold maxfd_sysconf. apply wp_bind, wp_call. intros r k Hk.
  destruct (sysconf_spec _ _ _ Hk) as [-> Hv]. eapply wp_lift.
  { apply i32_sub_ok. unfold i32_MIN, i32_MAX. lia. }
  unfold scan_limit. split_and!; [done..|lia|lia].
Qed.

(** A maximum that is safe for the fallback loop: nothing is open between it
    and the limit. *)
Definition safe_max (m : Z) (t : gmap Z Z) (e : Env) : Prop :=
  -1 <= m < i32_MAX /\ forall f, m < f <= scan_limit e -> t !! f = None.

Lemma highest_safe t m e : -1 <= m < i32_MAX -> highest t m -> safe_max m t e.
Proof.
  intros Hm [Hmax _]. split; [done|]. intros f Hf. apply eq_None_not_Some.
  intros Hs. specialize (Hmax f Hs). lia.
Qed.

Lemma maxfd_sysconf_safe w t :
  wp maxfd_sysconf (fun m w' => quiet w w' /\ safe_max m t (env (kern w))) w.
Proof.
  eapply wp_mono; [apply maxfd_sysconf_spec|]. intros m w' (Hq & -> & Hm).
  split; [done|]. split; [unfold i32_MAX; lia|]. intros f Hf. lia.
Qed.

Lemma get_nfds_spec w :
  has_nfds target = true ->
  wp get_nfds (fun o w' => quiet w w' /\
    forall n, o = Some n -> n = Z.of_nat (size (fds (kern w)))) w.
Proof.
  intros Hnf. unfold get_nfds. destruct target; try discriminate Hnf.
  - apply wp_bind, wp_call. intros [r v] k Hk.
    destruct (nfds_spec _ _ _ _ Hk) as [Hv Hn]. apply wp_ret. split; [by split|].
    destruct (Z.eqb_spec r 0); [|done]. intros n [= <-]. auto.
  - apply wp_bind, wp_call. intros n k Hk.
    destruct (getdtablecount_spec _ _ _ Hk) as [Hv Hn]. apply wp_ret.
    split; [by split|]. by intros n' [= <-].
Qed.

(** [get_maxfd_direct] asks the system in the best way the target has. Its
    result is at least -1, and no descriptor between it and the limit of the
    fallback loop is open. Asking changes nothing. *)
Lemma get_maxfd_direct_spec it w :
  wp (get_maxfd_direct it) (fun m w' =>
    quiet w w' /\ safe_max m (fds (kern w)) (env (kern w))) w.
Proof.
  unfold get_maxfd_direct. case_decide as Hnb.
  - apply wp_bind. unfold set_errno. apply wp_modify.
    pose proof (errno_set_view 0 (kern w)) as Hv1.
    apply wp_bind, wp_call. intros m k Hk. simpl in Hk.
    destruct (maxfd_spec _ _ _ Hk) as (Hv2 & Hlt & Hpos & Hneg).
    assert (Hv : same_view (kern w) k) by (by eapply same_view_trans).
    rewrite (proj1 Hv1) in Hpos, Hneg.
    destruct (Z.leb_spec 0 m).
    { apply wp_ret. split; [by split|]. split; [lia|]. intros f Hf.
      apply eq_None_not_Some. intros Hs. specialize (Hpos ltac:(lia) f Hs). lia. }
    apply wp_bind, wp_gets. simpl.
    destruct (Z.eqb_spec m (-1)) as [->|]; simpl; [destruct (Z.eqb_spec (errno_get k) 0)|].
    + apply wp_ret. split; [by split|]. split; [unfold i32_MAX; lia|]. intros f _.
      rewrite Hneg by (rewrite ?errno_set_get; done). apply lookup_empty.
    + eapply wp_mono; [apply (maxfd_sysconf_safe _ (fds (kern w)))|]. intros m' w' [Hq Hs].
      split; [|by rewrite <- (proj1 (proj2 Hv))].
      eapply quiet_trans; [|exact Hq]. by split.
    + eapply wp_mono; [apply (maxfd_sysconf_safe _ (fds (kern w)))|]. intros m' w' [Hq Hs].
      split; [|by rewrite <- (proj1 (proj2 Hv))].
      eapply quiet_trans; [|exact Hq]. by split.
  - destruct (has_nfds target && negb (skip_nfds it)) eqn:Hnf; [|apply maxfd_sysconf_safe].
    apply andb_true_iff in Hnf as [Hnf _]. apply wp_bind.
    eapply wp_mono; [by apply get_nfds_spec|]. intros nfds w1 [Hq1 Hn]. apply wp_bind.
    assert (Hmax : wp (match nfds with Some n => nfds_to_maxfd n | None => mret None end)
      (fun o w' => quiet w w' /\ forall m, o = Some m -> -1 <= m < 198 /\ highest (fds (kern w)) m) w1).
    { destruct nfds as [n|]; [|by apply wp_ret].
      eapply wp_mono; [apply nfds_to_maxfd_spec; rewrite (quiet_fds _ _ Hq1); by apply Hn|].
      intros o w2 [Hq2 Ho]. rewrite (quiet_fds _ _ Hq1) in Ho.
      split; [by eapply quiet_trans|done]. }
    eapply wp_mono; [exact Hmax|]. intros o w2 [Hq2 Ho]. destruct o as [m|].
    + apply wp_ret. split; [done|]. destruct (Ho m eq_refl) as [Hm Hh].
      apply highest_safe; [unfold i32_MAX; lia|done].
    + eapply wp_mono; [apply (maxfd_sysconf_safe _ (fds (kern w)))|]. intros m' w' [Hq Hs].
      split; [by eapply quiet_trans|]. by rewrite <- (quiet_env _ _ Hq2).
Qed.
End maxfd.

(** ** The iterator *)

Section iterator.
Context `{C : Config, !ConfigOk C} {K : Type} `{SK : Sys K} `{KV : KernelView K}
  {KS : KernelSpec K}.

(** The descriptor table without the iterator's own directory. *)
Definition fd_view (it : FdIter) (k : K) : gmap Z Z :=
  match dirfd_iter it with Some d => dir_view d k | None => fds k end.

Record fd_inv (it : FdIter) (k : K) : Prop := {
  fi_curfd : 0 <= curfd it <= i32_MAX;
  fi_dir : forall d, dirfd_iter it = Some d ->
    has_dirfd target = true /\ dir_inv d k (curfd it);
  fi_maxfd : forall m, maxfd it = Some m -> safe_max m (fd_view it k) (env k);
}.

(** What [next] promises: the lowest descriptor from [curfd] up, or that none
    is left (up to the limit, when there is no directory). *)
Definition next_post (it : FdIter) (w : World K) (r : option Z * FdIter) (w' : World K)
  : Prop :=
  let '(o, it') := r in
  statics w' = statics w /\ env (kern w') = env (kern w) /\
  fd_view it' (kern w') = fd_view it (kern w) /\ fd_inv it' (kern w') /\
  possible it' = possible it /\
  match o with
  | Some fd =>
      curfd it <= fd < i32_MAX /\ curfd it' = fd + 1 /\
      (forall f, curfd it <= f < fd -> fd_view it (kern w) !! f = None) /\
      (possible it = false \/ dirfd_iter it' <> None ->
         is_Some (fd_view it (kern w) !! fd)) /\
      (forall d, dirfd_iter it' = Some d -> dirfd d <> fd)
  | None =>
      forall f, curfd it <= f -> (dirfd_iter it' = None -> f <= scan_limit (env (kern w))) ->
        fd_view it (kern w) !! f = None
  end.

(** The loop that started as [it] in [w] has come to [it1] in [w1] without
    finding anything. *)
Record scanning (m : Z) (it : FdIter) (w : World K) (it1 : FdIter) (w1 : World K) : Prop := {
  sc_dirfd : dirfd_iter it1 = None;
  sc_maxfd : maxfd it1 = Some m;
  sc_possible : possible it1 = possible it;
  sc_curfd : curfd it <= curfd it1 <= i32_MAX;
  sc_quiet : quiet w w1;
  sc_none : forall f, curfd it <= f < curfd it1 -> fds (kern w) !! f = None;
}.

Lemma fd_view_None it (k : K) : dirfd_iter it = None -> fd_view it k = fds k.
Proof. intros Hd. unfold fd_view. by rewrite Hd. Qed.

(** The loop keeps the invariant wherever it is. *)
Lemma scan_inv m it w it1 w1 :
  dirfd_iter it = None -> maxfd it = Some m -> fd_inv it (kern w) ->
  dirfd_iter it1 = None -> maxfd it1 = Some m -> curfd it <= curfd it1 <= i32_MAX ->
  quiet w w1 -> fd_inv it1 (kern w1).
Proof.
  intros Hd Hm Hi Hd1 Hm1 Hc1 Hq. pose proof (fi_curfd _ _ Hi).
  constructor; [lia|by rewrite Hd1|]. intros m' Hm'. rewrite Hm1 in Hm'. injection Hm' as <-.
  pose proof (fi_maxfd _ _ Hi m Hm) as Hs. rewrite fd_view_None in Hs |- * by done.
  by rewrite (quiet_fds _ _ Hq), (quiet_env _ _ Hq).
Qed.

Lemma scan_end m it w it1 w1 :
  dirfd_iter it = None -> maxfd it = Some m -> fd_inv it (kern w) ->
  scanning m it w it1 w1 -> m < curfd it1 -> next_post it w (None, it1) w1.
Proof.
  intros Hd Hm Hi [S1 S2 S3 S4 S5 S6] Hlt. pose proof (fi_maxfd _ _ Hi m Hm) as [_ Hmn].
  rewrite fd_view_None in Hmn by done.
  unfold next_post. rewrite (fd_view_None it1), (fd_view_None it) by done.
  split_and!; [apply S5|by apply quiet_env|by apply quiet_fds|by apply (scan_inv m it w)|done|].
  intros f Hf1 Hf2. specialize (Hf2 S1).
  destruct (Z.lt_ge_cases f (curfd it1)); [apply S6; lia|apply Hmn; lia].
Qed.

Lemma scan_yield m it w it1 w1 w2 :
  dirfd_iter it = None -> maxfd it = Some m -> fd_inv it (kern w) ->
  scanning m it w it1 w1 -> curfd it1 <= m -> quiet w w2 ->
  (possible it = false -> is_Some (fds (kern w) !! curfd it1)) ->
  next_post it w (Some (curfd it1), set_curfd (curfd it1 + 1) it1) w2.
Proof.
  intros Hd Hm Hi [S1 S2 S3 S4 S5 S6] Hle Hq Hopen.
  pose proof (fi_maxfd _ _ Hi m Hm) as [Hmr _].
  unfold next_post. rewrite (fd_view_None (set_curfd _ it1)), (fd_view_None it) by done.
  split_and!; try done; try (simpl; lia).
  - apply Hq.
  - by apply quiet_env.
  - by apply quiet_fds.
  - apply (scan_inv m it w); try done. simpl. lia.
  - intros [Hp|Hx]; [by apply Hopen|done].
  - intros d Hx. simpl in Hx. congruence.
Qed.

Lemma scan_loop_from fuel m it w it1 w1 :
  dirfd_iter it = None -> maxfd it = Some m -> fd_inv it (kern w) ->
  scanning m it w it1 w1 -> (Z.to_nat (m + 1 - curfd it1) < fuel)%nat ->
  wp (scan_loop fuel m it1) (next_post it w) w1.
Proof.
  intros Hd Hm Hi. revert it1 w1. induction fuel as [|fuel IH]; intros it1 w1 Hsc Hf; [lia|].
  simpl. pose proof (fi_maxfd _ _ Hi m Hm) as [Hmr _]. pose proof (fi_curfd _ _ Hi) as Hcr.
  destruct (Z.leb_spec (curfd it1) m); [|by apply wp_ret; eapply scan_end].
  pose proof Hsc as [S1 S2 S3 S4 S5 S6].
  apply wp_bind. eapply wp_lift; [apply i32_add_ok; unfold i32_MIN, i32_MAX in *; lia|].
  apply wp_bind. cbn [possible set_curfd]. rewrite S3.
  destruct (possible it) eqn:Hp.
  { apply wp_ret, wp_ret. apply (scan_yield m it w it1 w1); try done. by rewrite Hp. }
  apply wp_is_fd_valid. intros b w2 Hb Hq2. rewrite (quiet_fds _ _ S5) in Hb.
  assert (Hq : quiet w w2) by (by eapply quiet_trans). destruct b.
  { apply wp_ret. apply (scan_yield m it w it1 w1); try done. intros _. by apply Hb. }
  apply IH; [|simpl; lia]. constructor; simpl; try done; try congruence; [lia|].
  intros f Hfr. destruct (decide (f = curfd it1)) as [->|]; [|apply S6; lia].
  apply eq_None_not_Some. intros Hs. by apply Hb in Hs.
Qed.

Lemma scan_loop_spec fuel m it w :
  dirfd_iter it = None -> maxfd it = Some m -> fd_inv it (kern w) ->
  (Z.to_nat (m + 1 - curfd it) < fuel)%nat ->
  wp (scan_loop fuel m it) (next_post it w) w.
Proof.
  intros Hd Hm Hi Hf. pose proof (fi_curfd _ _ Hi).
  eapply scan_loop_from; try done. constructor; try done; lia.
Qed.

Lemma scan_fuel m c fuel :
  m < i32_MAX -> 0 <= c -> enough_fuel fuel -> (Z.to_nat (m + 1 - c) < fuel)%nat.
Proof. unfold enough_fuel, i32_MAX. intros ???. lia. Qed.

Lemma scan_spec fuel it w :
  dirfd_iter it = None -> fd_inv it (kern w) -> enough_fuel fuel ->
  wp (scan fuel it) (next_post it w) w.
Proof.
  intros Hd Hi Hf. unfold scan. apply wp_bind. unfold get_maxfd.
  pose proof (fi_curfd _ _ Hi) as Hc.
  destruct (maxfd it) as [m|] eqn:Hm.
  { apply wp_ret. apply scan_loop_spec; try done.
    apply scan_fuel; [|lia|done]. apply (fi_maxfd _ _ Hi m Hm). }
  apply wp_bind. eapply wp_mono; [apply get_maxfd_direct_spec|].
  intros m w1 [Hq [Hm1 Hm2]]. apply wp_bind. eapply wp_lift.
  { apply debug_assert_ok, Z.leb_le. lia. }
  apply wp_ret. simpl. eapply wp_mono.
  - apply scan_loop_spec; simpl; try done; [|by apply scan_fuel; [lia|lia|]].
    constructor; simpl; [done|by rewrite Hd|]. intros m' [= <-].
    unfold fd_view. simpl. rewrite Hd, (quiet_fds _ _ Hq), (quiet_env _ _ Hq). by split.
  - intros [o it'] w2. unfold next_post, fd_view. simpl. rewrite Hd.
    rewrite (quiet_fds _ _ Hq), (quiet_env _ _ Hq), (proj2 Hq).
    intros (?&?&?&?&?&?). split_and!; done.
Qed.

(** [FdIter::next], with enough fuel, runs to the end in every build and
    profile, leaves the descriptors of the process alone, and yields the lowest
    descriptor not yet passed; see [next_post]. It keeps its promises when the
    directory fails in the middle: it then goes on with the fallback loop where
    the directory stopped. *)
Lemma fd_next_spec fuel it w :
  fd_inv it (kern w) -> enough_fuel fuel ->
  wp (next fuel it) (next_post it w) w.
Proof.
  intros Hi Hf. unfold next. destruct (dirfd_iter it) as [d|] eqn:Hd; last first.
  { destruct (has_dirfd target); by apply scan_spec. }
  destruct (fi_dir _ _ Hi d Hd) as [Ht Hdi]. rewrite Ht.
  pose proof (fi_curfd _ _ Hi) as Hc.
  assert (Hv : fd_view it (kern w) = dir_view d (kern w)) by (unfold fd_view; by rewrite Hd).
  apply wp_bind. eapply wp_mono; [by apply dir_next_spec|].
  intros [r d'] w1 (Hs & He & Hview & Hr). cbn beta iota.
  destruct r as [[fd|]|].
  - destruct Hr as (H1 & H2 & H3 & H4 & H5 & H6).
    apply wp_bind. eapply wp_lift; [apply debug_assert_ok, Z.leb_le; lia|].
    apply wp_bind. eapply wp_lift.
    { apply i32_add_ok. unfold i32_MIN, i32_MAX in *. lia. }
    apply wp_ret. unfold next_post. rewrite Hv. simpl.
    unfold fd_view. simpl. split_and!; try done; try lia.
    + constructor; simpl; [lia| |].
      * by intros ? [= <-].
      * intros m Hm. unfold fd_view. simpl. rewrite Hview, He.
        pose proof (fi_maxfd _ _ Hi m Hm) as Hx. by rewrite Hv in Hx.
    + intros ? [= <-]. congruence.
  - destruct Hr as (H1 & H2 & H3). apply wp_ret. unfold next_post. rewrite Hv. simpl.
    unfold fd_view. simpl. split_and!; try done.
    + constructor; simpl; [lia| |].
      * by intros ? [= <-].
      * intros m Hm. unfold fd_view. simpl. rewrite Hview, He.
        pose proof (fi_maxfd _ _ Hi m Hm) as Hx. by rewrite Hv in Hx.
    + intros f Hcf _. by apply H1.
  - apply wp_bind. eapply wp_mono; [apply drop_iter_spec|].
    intros [] w2 (Hfds & [He2 _] & Hs2).
    assert (Hfv : fd_view (set_dirfd_iter None it) (kern w2) = fd_view it (kern w)).
    { rewrite Hv. unfold fd_view. simpl. by rewrite Hfds. }
    eapply wp_mono; [apply scan_spec; [done| |done]|].
    + constructor; simpl; [done|done|]. intros m Hm. rewrite Hfv, He2, He.
      by apply (fi_maxfd _ _ Hi).
    + intros [o it'] w3. unfold next_post. rewrite Hfv. simpl.
      intros (A1 & A2 & A3 & A4 & A5 & A6). rewrite He2, He in A6.
      split_and!; try done; congruence.
Qed.

Lemma drop_fditer_spec it w :
  wp (drop_fditer it) (fun _ w' =>
    fds (kern w') = fd_view it (kern w) /\ frame (kern w) (kern w') /\
    statics w' = statics w) w.
Proof.
  unfold drop_fditer, fd_view. destruct (dirfd_iter it).
  - apply drop_iter_spec.
  - apply wp_ret. done.
Qed.
End iterator.

(** ** The end of the iteration *)

Section fused.
Context `{C : Config} {K : Type} `{SK : Sys K}.

Lemma get_maxfd_inv it (w : World K) m it' w' :
  get_maxfd it w = Done ((m, it'), w') ->
  maxfd it' = Some m /\ dirfd_iter it' = dirfd_iter it /\ curfd it' = curfd it.
Proof.
  unfold get_maxfd. destruct (maxfd it) as [m0|] eqn:Hm; [by intros [= -> <- _]|].
  intros (m1 & w1 & _ & (_ & w2 & _ & [= -> <- _])%ST_bind_Done)%ST_bind_Done. done.
Qed.

Lemma scan_loop_None fuel m it (w : World K) it' w' :
  scan_loop fuel m it w = Done ((None, it'), w') ->
  maxfd it' = maxfd it /\ dirfd_iter it' = dirfd_iter it /\ m < curfd it'.
Proof.
  revert it w. induction fuel as [|fuel IH]; intros it w; [done|]. simpl.
  destruct (Z.leb_spec (curfd it) m); [|by intros [= <- _]].
  intros (c & w1 & _ & (b & w2 & _ & Hr)%ST_bind_Done)%ST_bind_Done.
  destruct b; [done|]. by apply IH in Hr.
Qed.

Lemma scan_None fuel it (w : World K) it' w' :
  scan fuel it w = Done ((None, it'), w') ->
  dirfd_iter it' = dirfd_iter it /\ exists m, maxfd it' = Some m /\ m < curfd it'.
Proof.
  unfold scan. intros ([m it1] & w1 & Hm & Hs)%ST_bind_Done.
  apply get_maxfd_inv in Hm as (H1 & H2 & _).
  apply scan_loop_None in Hs as (H3 & H4 & H5). split; [congruence|]. exists m.
  split; [congruence|done].
Qed.

(** Nothing is left: the directory is exhausted, or the loop is. *)
Definition exhausted (it : FdIter) : Prop :=
  match (if has_dirfd target then dirfd_iter it else None) with
  | Some d => dirfd d < 0
  | None => exists m, maxfd it = Some m /\ m < curfd it
  end.

Lemma next_None_exhausted fuel it (w : World K) it' w' :
  next fuel it w = Done ((None, it'), w') -> exhausted it'.
Proof.
  unfold next, exhausted. destruct (has_dirfd target) eqn:Ht; simpl.
  - destruct (dirfd_iter it) as [d|] eqn:Hd.
    + intros ([o d'] & w1 & Hn & Hr)%ST_bind_Done. destruct o as [[fd|]|].
      * apply ST_bind_Done in Hr as (_ & w2 & _ & (c & w3 & _ & Hr)%ST_bind_Done). done.
      * injection Hr as <- <-. simpl. by eapply DirFdIter.next_None.
      * apply ST_bind_Done in Hr as (_ & w2 & _ & Hr).
        apply scan_None in Hr as [-> Hm]. done.
    + intros [-> Hm]%scan_None. by rewrite Hd.
  - intros [_ Hm]%scan_None. done.
Qed.

Lemma next_of_exhausted fuel it (w : World K) :
  exhausted it -> (0 < fuel)%nat -> next fuel it w = Done ((None, it), w).
Proof.
  unfold exhausted, next. intros He Hf. destruct (if has_dirfd target then _ else _) as [d|] eqn:Hd.
  - unfold mbind, ST_bind. rewrite DirFdIter.next_exhausted by done.
    assert (dirfd_iter it = Some d) as Hdi by (by destruct (has_dirfd target)).
    replace (set_dirfd_iter (Some d) it) with it; [done|].
    destruct it. simpl in *. unfold set_dirfd_iter. simpl. by subst.
  - destruct He as (m & Hm & Hlt). unfold scan, get_maxfd. rewrite Hm.
    unfold mbind, ST_bind, mret, ST_ret. destruct fuel as [|fuel]; [lia|]. simpl.
    by rewrite (proj2 (Z.leb_gt _ _)).
Qed.

(** C20. The iterator is fused ([impl FusedIterator for FdIter]): once [next]
    has returned [None], every later call returns [None] at once, whatever
    happened to the system in between, and changes neither the iterator nor
    the world. *)
Theorem next_fused fuel it (w : World K) it' w' fuel2 (w2 : World K) :
  next fuel it w = Done ((None, it'), w') -> (0 < fuel2)%nat ->
  next fuel2 it' w2 = Done ((None, it'), w2).
Proof. intros Hn. apply next_of_exhausted. by eapply next_None_exhausted. Qed.
End fused.

(** ** Properties *)

Section properties.
Context `{C : Config, !ConfigOk C} {K : Type} `{SK : Sys K} `{KV : KernelView K}
  {KS : KernelSpec K}.

(** C19. [FdIter::next] with enough fuel runs to the end in every build and on
    every target, and leaves the user's descriptors alone. It yields the
    lowest number from [curfd] up that it may: below it nothing is open, and
    it is open itself unless the iterator is a [possible] one in its fallback
    loop. [None] means that nothing is open from [curfd] up, for the fallback
    loop up to its limit. When the directory fails in the middle, the fallback
    loop goes on where the directory stopped. *)
Theorem fd_next_correct fuel it w :
  fd_inv it (kern w) -> enough_fuel fuel ->
  wp (next fuel it) (fun '(o, it') w' =>
    statics w' = statics w /\ fd_view it' (kern w') = fd_view it (kern w) /\
    fd_inv it' (kern w') /\
    match o with
    | Some fd =>
        curfd it <= fd < i32_MAX /\ curfd it' = fd + 1 /\
        (forall f, curfd it <= f < fd -> fd_view it (kern w) !! f = None) /\
        (possible it = false \/ dirfd_iter it' <> None ->
           is_Some (fd_view it (kern w) !! fd))
    | None =>
        forall f, curfd it <= f ->
          (dirfd_iter it' = None -> f <= scan_limit (env (kern w))) ->
          fd_view it (kern w) !! f = None
    end) w.
Proof.
  intros Hi Hf. eapply wp_mono; [by apply fd_next_spec|].
  intros [o it'] w' (H1 & H2 & H3 & H4 & H5 & H6). split_and!; [done..|].
  destruct o as [fd|]; [|done]. destruct H6 as (?&?&?&?&?). done.
Qed.

(** Given the number of open descriptors, [nfds_to_maxfd] returns the
    highest open descriptor (-1 when there is none), or gives up; it tries
    fewer than 200 numbers and changes nothing. *)
Theorem nfds_to_maxfd_correct nfds w :
  nfds = Z.of_nat (size (fds (kern w))) ->
  wp (nfds_to_maxfd nfds) (fun o w' => quiet w w' /\
    forall m, o = Some m -> -1 <= m < 198 /\
      (forall f, is_Some (fds (kern w) !! f) -> f <= m) /\
      (m = -1 /\ fds (kern w) = ∅ \/ is_Some (fds (kern w) !! m))) w.
Proof. apply nfds_to_maxfd_spec. Qed.

(** C33. [get_maxfd_direct] asks the system in the best way the target has. Its
    result is at least -1, no descriptor between it and the limit of the
    fallback loop is open, and asking changes nothing. *)
Theorem get_maxfd_direct_correct it w :
  wp (get_maxfd_direct it) (fun m w' => quiet w w' /\ -1 <= m < i32_MAX /\
    forall f, m < f <= scan_limit (env (kern w)) -> fds (kern w) !! f = None) w.
Proof.
  eapply wp_mono; [apply get_maxfd_direct_spec|]. intros m w' (H1 & H2 & H3). done.
Qed.

(** Where no better method is used, the maximum is the value of [sysconf]
    clamped between 1023 and 65535. *)
Theorem get_maxfd_direct_clamped it w :
  target <> netbsd -> has_nfds target && negb (skip_nfds it) = false ->
  wp (get_maxfd_direct it) (fun m w' =>
    quiet w w' /\ m = scan_limit (env (kern w)) /\ 1023 <= m <= 65535) w.
Proof.
  intros Hnb Hnf. unfold get_maxfd_direct. rewrite decide_False, Hnf by done.
  apply maxfd_sysconf_spec.
Qed.
End properties.
