(* ===== verification/IterFds.v ===== *)
(** * src/iterfds/mod.rs

    [FdIterBuilder] and the helper functions that create an [FdIter]; and what
    an iterator yields from its creation to its end. *)

From S2P Require Import Prelude Platform Ints Sys KernelSpec Util DirFdIter FdIter.

(** ** Definitions *)

(** The structure [FdIterBuilder]; [b_skip_nfds] and [b_dirfd] exist only on the
    targets whose methods set them. *)
Record FdIterBuilder := {
  b_possible : bool;
  b_skip_nfds : bool;
  b_dirfd : bool;
}.

(** [FdIterBuilder::new] *)
Definition fd_iter_builder_new : FdIterBuilder :=
  {| b_possible := false; b_skip_nfds := false; b_dirfd := true |}.

(** [impl Default for FdIterBuilder] *)
Definition fd_iter_builder_default : FdIterBuilder := fd_iter_builder_new.

(** [FdIterBuilder::possible] *)
Definition set_possible (possible : bool) (b : FdIterBuilder) : FdIterBuilder :=
  {| b_possible := possible; b_skip_nfds := b_skip_nfds b; b_dirfd := b_dirfd b |}.

Section builder.
Context `{C : Config}.

(** [FdIterBuilder::threadsafe] *)
Definition set_threadsafe (threadsafe : bool) (b : FdIterBuilder) : FdIterBuilder :=
  if has_nfds target then
    {| b_possible := b_possible b; b_skip_nfds := threadsafe; b_dirfd := b_dirfd b |}
  else b.

(** [FdIterBuilder::allow_filesystem] *)
Definition set_allow_filesystem (fs : bool) (b : FdIterBuilder) : FdIterBuilder :=
  if has_dirfd target then
    {| b_possible := b_possible b; b_skip_nfds := b_skip_nfds b; b_dirfd := fs |}
  else b.

Context {K : Type} `{SK : Sys K}.

(** [FdIterBuilder::iter_from] *)
Definition iter_from (b : FdIterBuilder) (minfd : Z) : ST (World K) FdIter :=
  let minfd := if minfd <? 0 then 0 else minfd in
  dirfd_iter ← (if has_dirfd target && b_dirfd b then open minfd else mret None);
  mret {| dirfd_iter := dirfd_iter; curfd := minfd; possible := b_possible b;
          maxfd := None; skip_nfds := b_skip_nfds b |}.

Definition iter_open_fds (minfd : Z) : ST (World K) FdIter :=
  iter_from fd_iter_builder_new minfd.
Definition iter_open_fds_threadsafe (minfd : Z) : ST (World K) FdIter :=
  iter_from (set_threadsafe true fd_iter_builder_new) minfd.
Definition iter_possible_fds (minfd : Z) : ST (World K) FdIter :=
  iter_from (set_possible true fd_iter_builder_new) minfd.
Definition iter_possible_fds_threadsafe (minfd : Z) : ST (World K) FdIter :=
  iter_from (set_threadsafe true (set_possible true fd_iter_builder_new)) minfd.

(** [iterfds::probe] *)
Definition iterfds_probe : ST (World K) unit :=
  if decide (target = linux) then _ ← is_wsl_1; mret tt else mret tt.
End builder.

(** ** Creating an iterator *)

Section iter_from.
Context `{C : Config, !ConfigOk C} {K : Type} `{SK : Sys K} `{KV : KernelView K}
  {KS : KernelSpec K}.

(** The statics agree with the system. *)
Definition world_ok (w : World K) : Prop := statics_ok (env (kern w)) (statics w).

(** [iter_from] leaves the user's descriptors alone, whether it opens a
    directory or not, and starts at [minfd], at 0 for a negative [minfd]. *)
Lemma iter_from_spec b minfd w :
  minfd <= i32_MAX -> world_ok w ->
  wp (iter_from b minfd) (fun it w' =>
    env (kern w') = env (kern w) /\ world_ok w' /\
    fd_view it (kern w') = fds (kern w) /\ fd_inv it (kern w') /\
    curfd it = Z.max 0 minfd /\ possible it = b_possible b) w.
Proof.
  intros Hm Hok. unfold iter_from.
  set (m := if minfd <? 0 then 0 else minfd).
  assert (Hmm : m = Z.max 0 minfd) by (unfold m; destruct (Z.ltb_spec minfd 0); lia).
  assert (Hnone : wp (mret None) (fun o w' => wp (mret {| dirfd_iter := o; curfd := m;
      possible := b_possible b; maxfd := None; skip_nfds := b_skip_nfds b |})
    (fun it w' => env (kern w') = env (kern w) /\ world_ok w' /\
    fd_view it (kern w') = fds (kern w) /\ fd_inv it (kern w') /\
    curfd it = Z.max 0 minfd /\ possible it = b_possible b) w') w).
  { apply wp_ret, wp_ret. split_and!; try done. constructor; simpl; [|done|done].
    unfold i32_MAX in *. lia. }
  apply wp_bind. destruct (has_dirfd target) eqn:Ht; [|exact Hnone].
  destruct (b_dirfd b); [|exact Hnone]. simpl.
  eapply wp_mono; [apply dir_open_spec; [done|lia|done]|].
  intros o w' (He & Hok' & Ho). apply wp_ret. destruct o as [d|].
  - destruct Ho as (H1 & H2 & H3 & H4). split_and!; try done.
    constructor; simpl; [unfold i32_MAX in *; lia| |done]. by intros ? [= <-].
  - split_and!; try done. constructor; simpl; [unfold i32_MAX in *; lia|done|done].
Qed.
End iter_from.

(** ** Iterating to the end *)

Section collecting.
Context `{C : Config, !ConfigOk C} {K : Type} `{SK : Sys K} `{KV : KernelView K}
  {KS : KernelSpec K}.

Definition steps_left (it : FdIter) : nat := Z.to_nat (i32_MAX - curfd it).

Lemma enough_steps it k fuel :
  fd_inv it k -> enough_fuel fuel -> (steps_left it < fuel)%nat.
Proof. intros [? _ _]. unfold steps_left, enough_fuel, i32_MAX in *. lia. Qed.

(** What a full iteration yields. *)
Record yields (it : FdIter) (t : gmap Z Z) (e : Env) (l : list Z) : Prop := {
  yields_ascending : strictly_ascending l;
  yields_from : forall f, f ∈ l -> curfd it <= f < i32_MAX;
  yields_open : possible it = false -> forall f, f ∈ l -> is_Some (t !! f);
  yields_all : forall f, curfd it <= f <= scan_limit e -> is_Some (t !! f) -> f ∈ l;
}.

Lemma collect_spec n fuel it w :
  fd_inv it (kern w) -> enough_fuel fuel -> (steps_left it < n)%nat ->
  wp (collect n fuel it) (fun l w' =>
    fds (kern w') = fd_view it (kern w) /\ env (kern w') = env (kern w) /\
    statics w' = statics w /\ yields it (fd_view it (kern w)) (env (kern w)) l) w.
Proof.
  intros Hi Hf. revert it w Hi. induction n as [|n IH]; intros it w Hi Hn; [lia|].
  simpl. apply wp_bind. eapply wp_mono; [by apply fd_next_spec|].
  intros [o it'] w1 (Hs & He & Hv & Hi' & Hp & Ho). cbn beta iota.
  destruct o as [fd|].
  - destruct Ho as (H1 & H2 & H3 & H4 & H5). apply wp_bind.
    eapply wp_mono; [apply IH; [done|unfold steps_left in *; lia]|].
    intros l w2 (A1 & A2 & A3 & [Y1 Y2 Y3 Y4]). apply wp_ret.
    rewrite Hv, He in *. split_and!; try congruence. constructor.
    + apply strictly_ascending_cons. split; [|done]. apply Forall_forall.
      intros f Hin. specialize (Y2 f Hin). lia.
    + intros f [->|Hin]%elem_of_cons; [lia|]. specialize (Y2 f Hin). lia.
    + intros Hpf f [->|Hin]%elem_of_cons; [apply H4; by left|].
      apply Y3; [congruence|done].
    + intros f Hfr Hsome. apply elem_of_cons. destruct (decide (f = fd)) as [->|]; [by left|].
      right. apply Y4; [|done]. destruct (Z.lt_ge_cases f fd); [|lia].
      rewrite H3 in Hsome by lia. by destruct Hsome.
  - apply wp_bind. eapply wp_mono; [apply drop_fditer_spec|].
    intros [] w2 (A1 & [A2 _] & A3). apply wp_ret. rewrite A1, A2, A3, Hv, He, Hs.
    split_and!; try done. constructor.
    + constructor.
    + intros f Hf'. by apply not_elem_of_nil in Hf'.
    + intros _ f Hf'. by apply not_elem_of_nil in Hf'.
    + intros f Hfr Hsome. rewrite Ho in Hsome; [by destruct Hsome|lia|lia].
Qed.

(** Creating an iterator and collecting it. *)
Definition iterate (fuel : nat) (b : FdIterBuilder) (minfd : Z) : ST (World K) (list Z) :=
  it ← iter_from b minfd; collect fuel fuel it.

(** Iterating from [minfd], with any builder, terminates, leaves the
    descriptor table exactly as it was (the directory used on the way is
    closed again) and yields strictly ascending numbers from [minfd] up: with
    [possible] unset only open descriptors; in every case every open
    descriptor up to the limit of the fallback loop. *)
Lemma iterate_spec fuel b minfd w :
  minfd <= i32_MAX -> world_ok w -> enough_fuel fuel ->
  wp (iterate fuel b minfd) (fun l w' =>
    fds (kern w') = fds (kern w) /\ env (kern w') = env (kern w) /\ world_ok w' /\
    strictly_ascending l /\
    (forall f, f ∈ l -> Z.max 0 minfd <= f < i32_MAX) /\
    (b_possible b = false -> forall f, f ∈ l -> is_Some (fds (kern w) !! f)) /\
    (forall f, minfd <= f <= scan_limit (env (kern w)) -> is_Some (fds (kern w) !! f) ->
       f ∈ l)) w.
Proof.
  intros Hm Hok Hf. unfold iterate. apply wp_bind.
  eapply wp_mono; [by apply iter_from_spec|].
  intros it w1 (He & Hok1 & Hv & Hi & Hc & Hp).
  eapply wp_mono; [apply collect_spec; [done|done|by eapply enough_steps]|].
  intros l w2 (A1 & A2 & A3 & [Y1 Y2 Y3 Y4]). rewrite Hv, He, Hc in *.
  split_and!; try congruence; try done.
  - unfold world_ok in *. rewrite A2, A3. by rewrite He in Hok1.
  - intros Hpb. apply Y3. congruence.
  - intros f Hfr [fl Hfl]. pose proof (fds_wf _ _ _ Hfl) as [Hf0 _].
    apply Y4; [lia|by rewrite Hfl].
Qed.

(** [Iterator::last] is the last element of what is collected. *)
Lemma last_loop_collect n fuel it acc (w : World K) l w' :
  collect n fuel it w = Done (l, w') ->
  last_loop n fuel acc it w =
    Done (match last l with Some x => Some x | None => acc end, w').
Proof.
  revert acc it w l. induction n as [|n IH]; intros acc it w l; [done|]. simpl.
  intros ([o it1] & w1 & Hn & Hr)%ST_bind_Done.
  unfold mbind at 1, ST_bind at 1. rewrite Hn. destruct o as [fd|].
  - apply ST_bind_Done in Hr as (l1 & w2 & Hc & [= <- <-]).
    rewrite (IH (Some fd) it1 w1 l1 Hc), last_cons. by destruct (last l1).
  - apply ST_bind_Done in Hr as ([] & w2 & Hd & [= <- <-]).
    unfold mbind, ST_bind. by rewrite Hd.
Qed.
(** [Iterator::max] and [Iterator::min] of an iterator over open descriptors. *)
Definition is_max (minfd : Z) (w : World K) (o : option Z) : Prop :=
  match o with
  | Some m => minfd <= m /\ is_Some (fds (kern w) !! m) /\
      forall f, is_Some (fds (kern w) !! f) -> f <= scan_limit (env (kern w)) -> f <= m
  | None => forall f, minfd <= f <= scan_limit (env (kern w)) -> fds (kern w) !! f = None
  end.
Definition is_min (minfd : Z) (w : World K) (o : option Z) : Prop :=
  match o with
  | Some m => minfd <= m /\ is_Some (fds (kern w) !! m) /\
      forall f, is_Some (fds (kern w) !! f) -> minfd <= f -> m <= f
  | None => forall f, minfd <= f <= scan_limit (env (kern w)) -> fds (kern w) !! f = None
  end.

Lemma max_spec fuel b minfd w :
  minfd <= i32_MAX -> world_ok w -> enough_fuel fuel -> b_possible b = false ->
  wp (it ← iter_from b minfd; FdIter.max fuel fuel it) (fun o w' =>
    fds (kern w') = fds (kern w) /\ env (kern w') = env (kern w) /\ world_ok w' /\
    is_max minfd w o) w.
Proof.
  intros Hm Hok Hf Hp. pose proof (iterate_spec fuel b minfd w Hm Hok Hf) as Hit.
  revert Hit. unfold iterate, wp, mbind, ST_bind.
  destruct (iter_from b minfd w) as [[it w1]| | | |]; try done.
  destruct (collect fuel fuel it w1) as [[l w']| | | |] eqn:Hcol; try done.
  unfold FdIter.max. rewrite (last_loop_collect _ _ _ None _ _ _ Hcol).
  intros (H1 & H2 & H3 & Hs & Hge & Hopen & Hall). split_and!; [done..|].
  destruct (last l) as [m|] eqn:Hl; simpl.
  - apply last_Some in Hl as [pre ->].
    assert (Hin : m ∈ pre ++ [m]) by (apply elem_of_app; right; by left).
    split; [specialize (Hge m Hin); lia|]. split; [by apply Hopen|].
    intros f Hsome Hlim. destruct (Z.lt_ge_cases f minfd); [specialize (Hge m Hin); lia|].
    specialize (Hall f ltac:(lia) Hsome).
    apply strictly_ascending_app in Hs as (_ & _ & Hlt).
    apply elem_of_app in Hall as [Hin'| ->%list_elem_of_singleton]; [|lia].
    specialize (Hlt f m Hin' ltac:(by left)). lia.
  - apply last_None in Hl as ->. intros f Hfr. apply eq_None_not_Some. intros Hsome.
    specialize (Hall f Hfr Hsome). by apply not_elem_of_nil in Hall.
Qed.

Lemma min_spec fuel b minfd w :
  minfd <= i32_MAX -> world_ok w -> enough_fuel fuel -> b_possible b = false ->
  wp (it ← iter_from b minfd; FdIter.min fuel it) (fun o w' =>
    fds (kern w') = fds (kern w) /\ env (kern w') = env (kern w) /\ world_ok w' /\
    is_min minfd w o) w.
Proof.
  intros Hm Hok Hf Hp. apply wp_bind. eapply wp_mono; [by apply iter_from_spec|].
  intros it w1 (He & Hok1 & Hv & Hi & Hc & Hpo). unfold FdIter.min. apply wp_bind.
  eapply wp_mono; [by apply fd_next_spec|]. intros [o it'] w2 (Hs & He2 & Hv2 & Hi' & _ & Ho).
  cbn beta iota. apply wp_bind. eapply wp_mono; [apply drop_fditer_spec|].
  intros [] w3 (Hf3 & [He3 _] & Hs3). apply wp_ret. split; [congruence|]. split; [congruence|].
  split; [unfold world_ok in *; by rewrite Hs3, Hs, He3, He2|]. rewrite Hv, He in *.
  destruct o as [m|]; simpl.
  - destruct Ho as (H1 & _ & H3 & H4 & _). split; [lia|].
    split; [apply H4; left; congruence|]. intros f [fl Hfl] Hmf.
    pose proof (fds_wf _ _ _ Hfl) as [Hf0 _]. destruct (Z.lt_ge_cases f m); [|lia].
    rewrite H3 in Hfl by lia. done.
  - intros f Hfr. destruct (Z.lt_ge_cases f 0).
    + apply eq_None_not_Some. intros [fl Hfl%fds_wf]. lia.
    + apply Ho; [lia|]. intros _. lia.
Qed.
End collecting.

(** ** Properties *)

Section properties.
Context `{C : Config, !ConfigOk C} {K : Type} `{SK : Sys K} `{KV : KernelView K}
  {KS : KernelSpec K}.

(** C7. Iterating from [minfd], with any builder, terminates, leaves the
    descriptor table exactly as it was (the directory used on the way is
    closed again) and yields strictly ascending numbers from [minfd] up: with
    [possible] unset only open descriptors; in every case every open
    descriptor up to the limit of the fallback loop. *)
Theorem iterate_correct fuel b minfd w :
  minfd <= i32_MAX -> world_ok w -> enough_fuel fuel ->
  wp (iterate fuel b minfd) (fun l w' =>
    fds (kern w') = fds (kern w) /\ world_ok w' /\
    strictly_ascending l /\
    (forall f, f ∈ l -> Z.max 0 minfd <= f < i32_MAX) /\
    (b_possible b = false -> forall f, f ∈ l -> is_Some (fds (kern w) !! f)) /\
    (forall f, minfd <= f <= scan_limit (env (kern w)) -> is_Some (fds (kern w) !! f) ->
       f ∈ l)) w.
Proof.
  intros Hm Hok Hf. eapply wp_mono; [by apply iterate_spec|].
  intros l w' (H1 & _ & H3 & H4 & H5 & H6 & H7). done.
Qed.

(** C8. [iter_open_fds(minfd).collect()] is the list of the open descriptors
    from [minfd] up, in ascending order, when no open descriptor lies beyond
    the limit of the fallback loop. *)
Theorem iter_open_fds_exact fuel minfd w t :
  minfd <= i32_MAX -> world_ok w -> enough_fuel fuel ->
  (forall f, is_Some (fds (kern w) !! f) -> f <= scan_limit (env (kern w))) ->
  strictly_ascending t ->
  (forall f, f ∈ t <-> minfd <= f /\ is_Some (fds (kern w) !! f)) ->
  wp (it ← iter_open_fds minfd; collect fuel fuel it) (fun l w' =>
    l = t /\ fds (kern w') = fds (kern w)) w.
Proof.
  intros Hm Hok Hf Hlim Hs Ht.
  eapply wp_mono; [by apply (iterate_spec fuel fd_iter_builder_new)|].
  intros l w' (A1 & _ & _ & Y1 & Y2 & Y3 & Y4). split; [|done].
  apply strictly_ascending_ext; [done|done|]. intros f. rewrite Ht. split.
  - intros Hin. specialize (Y2 f Hin). split; [lia|by apply Y3].
  - intros [Hfr Hsome]. apply Y4; [|done]. split; [done|by apply Hlim].
Qed.

(** [Iterator::max] of an iterator over open descriptors returns the
    highest one from [minfd] up, for descriptors up to the limit of the
    fallback loop, and leaves the table as it was. *)
Theorem max_correct fuel b minfd w :
  minfd <= i32_MAX -> world_ok w -> enough_fuel fuel -> b_possible b = false ->
  wp (it ← iter_from b minfd; FdIter.max fuel fuel it) (fun o w' =>
    fds (kern w') = fds (kern w) /\ is_max minfd w o) w.
Proof.
  intros Hm Hok Hf Hp. eapply wp_mono; [by apply max_spec|]. intros o w' (? & _ & _ & ?). done.
Qed.

(** [Iterator::min] of an iterator over open descriptors returns the
    lowest one from [minfd] up. It asks for a single element, and closes the
    directory it used for that. *)
Theorem min_correct fuel b minfd w :
  minfd <= i32_MAX -> world_ok w -> enough_fuel fuel -> b_possible b = false ->
  wp (it ← iter_from b minfd; FdIter.min fuel it) (fun o w' =>
    fds (kern w') = fds (kern w) /\ is_min minfd w o) w.
Proof.
  intros Hm Hok Hf Hp. eapply wp_mono; [by apply min_spec|]. intros o w' (? & _ & _ & ?). done.
Qed.
End properties.
