(* ===== verification/Steady.v ===== *)
(** * A steady system

    The laws of KernelSpec.v allow a system to answer a question in two ways:
    opening the directory may fail the first time and not the second. Here the
    system is steady: what it answers depends on the open descriptors and on the
    system alone. Then an iteration that is repeated yields the same list,
    whatever methods it uses, even with [possible]. *)

From S2P Require Import Prelude Platform Ints Sys KernelSpec Util RefKernel DirFdIter FdIter IterFds.

(** ** The laws *)

Section alike.
Context {K : Type} `{KV : KernelView K}.

(** Two kernels of the same system with the same descriptors; [o] is the
    directory stream that is being read, at the same position in both. *)
Definition alike (same : K -> K -> Prop) (o : option Z) (k1 k2 : K) : Prop :=
  same k1 k2 /\ fds k1 = fds k2 /\
  forall d, o = Some d -> is_Some (fds k1 !! d) /\ dirnext k1 d = dirnext k2 d.

(** Asked in alike kernels, the system answers alike. *)
Definition answers {A} (same : K -> K -> Prop) (o : option Z) (f : K -> A * K)
    (o' : A -> option Z) : Prop :=
  forall k1 k2 a k1', alike same o k1 k2 -> f k1 = (a, k1') ->
  exists k2', f k2 = (a, k2') /\ alike same (o' a) k1' k2'.
End alike.

(** The stream that a result of [open] is. *)
Definition stream (r : Z) : option Z := if 0 <=? r then Some r else None.

Class Steady (K : Type) `{SK : Sys K} `{KV : KernelView K} := {
  same_system : K -> K -> Prop;
  st_equiv :: Equivalence same_system;
  st_env k1 k2 : same_system k1 k2 -> env k1 = env k2;
  (** No call makes it another system. *)
  st_errno_set e k : same_system k (errno_set e k);
  st_open_same path flags k : same_system k (sys_open path flags k).2;
  st_close_same fd k : same_system k (sys_close fd k).2;
  st_getfd_same fd k : same_system k (sys_fcntl_getfd fd k).2;
  st_maxfd_same k : same_system k (sys_fcntl_maxfd k).2;
  st_getdents_same c d len k : same_system k (sys_getdents c d len k).2;
  st_sysconf_same k : same_system k (sys_sysconf_open_max k).2;
  st_uname_same k : same_system k (sys_uname_release k).2;
  st_nfds_same k : same_system k (sys_sysctl_nfds k).2;
  st_getdtablecount_same k : same_system k (sys_getdtablecount k).2;
  st_stat_same path k : same_system k (sys_stat_dev path k).2;
  st_fstat_same fd k : same_system k (sys_fstat_dev fd k).2;
  (** Where the laws leave a choice, the system has made it. *)
  st_open path flags : answers same_system None (sys_open path flags) stream;
  st_getdents c d len :
    answers same_system (Some d) (sys_getdents c d len) (fun _ => Some d);
  st_nfds k1 k2 :
    alike same_system None k1 k2 -> (sys_sysctl_nfds k1).1 = (sys_sysctl_nfds k2).1;
  st_stat path k1 k2 :
    alike same_system None k1 k2 -> (sys_stat_dev path k1).1 = (sys_stat_dev path k2).1;
  st_fstat d k1 k2 :
    alike same_system (Some d) k1 k2 -> (sys_fstat_dev d k1).1 = (sys_fstat_dev d k2).1;
  st_maxfd k1 k2 :
    alike same_system None k1 k2 -> errno_get k1 = errno_get k2 ->
    (sys_fcntl_maxfd k1).1 = (sys_fcntl_maxfd k2).1 /\
    errno_get (sys_fcntl_maxfd k1).2 = errno_get (sys_fcntl_maxfd k2).2;
}.

(** ** Programs that ask a steady system *)

Section steady.
Context `{C : Config, !ConfigOk C} {K : Type} `{SK : Sys K} `{KV : KernelView K}
  {KS : KernelSpec K} {ST_ : Steady K}.
Local Abbreviation M := (ST (World K)).

Definition similar (o : option Z) (w1 w2 : World K) : Prop :=
  alike same_system o (kern w1) (kern w2) /\ world_ok w1 /\ world_ok w2.

(** What a program answers, and does, in a world it answers and does in every
    similar one; and it does not change the system. *)
Record steady {A} (o : option Z) (m : M A) (o' : A -> option Z) : Prop := {
  sd_same w a w' : m w = Done (a, w') -> same_system (kern w) (kern w');
  sd_again w1 w2 a w1' : similar o w1 w2 -> m w1 = Done (a, w1') ->
    exists w2', m w2 = Done (a, w2') /\ similar (o' a) w1' w2';
}.

Lemma alike_weaken o (k1 k2 : K) : alike same_system o k1 k2 -> alike same_system None k1 k2.
Proof. intros (H1 & H2 & _). by split_and!. Qed.

Lemma similar_weaken o w1 w2 : similar o w1 w2 -> similar None w1 w2.
Proof. intros (H1 & H2 & H3). split_and!; [by eapply alike_weaken|done|done]. Qed.

Lemma steady_ret {A} o (a : A) o' : o' a = o -> steady o (mret a : M A) o'.
Proof.
  intros Ho. split; [by intros w ? ? [= _ <-]|]. intros w1 w2 b w1' Hs [= <- <-].
  exists w2. by rewrite Ho.
Qed.

Lemma steady_forget {A} o (m : M A) o' : steady None m o' -> steady o m o'.
Proof.
  intros [S1 S2]. split; [done|]. intros w1 w2 a w1' Hs. apply S2. by eapply similar_weaken.
Qed.

Lemma steady_bind_if {A B} (R : A -> Prop) o o1 (m : M A) (f : A -> M B) o2 :
  steady o m o1 -> (forall w a w', m w = Done (a, w') -> R a) ->
  (forall a, R a -> steady (o1 a) (f a) o2) -> steady o (m ≫= f) o2.
Proof.
  intros [S1 S2] HR Hf. split.
  - intros w b w' (a & w1 & H1 & H2)%ST_bind_Done.
    etrans; [by eapply S1|]. eapply (sd_same _ _ _ (Hf a ltac:(by eapply HR))). exact H2.
  - intros w1 w2 b w1' Hs (a & v1 & H1 & H2)%ST_bind_Done.
    destruct (S2 _ _ _ _ Hs H1) as (v2 & H3 & Hs').
    destruct (sd_again _ _ _ (Hf a ltac:(by eapply HR)) _ _ _ _ Hs' H2) as (w2' & H4 & Hs2).
    exists w2'. split; [|done]. unfold mbind, ST_bind. by rewrite H3.
Qed.

Lemma steady_bind {A B} o o1 (m : M A) (f : A -> M B) o2 :
  steady o m o1 -> (forall a, steady (o1 a) (f a) o2) -> steady o (m ≫= f) o2.
Proof. intros Hm Hf. by apply (steady_bind_if (fun _ => True) o o1). Qed.

Lemma steady_lift {A} o (x : outcome A) : steady o (lift x : M A) (fun _ => o).
Proof.
  split.
  - intros w a w'. destruct x; by intros [= _ <-].
  - intros w1 w2 a w1' Hs. destruct x; try done. intros [= <- <-]. by exists w2.
Qed.

Lemma steady_stop {A} o o' : steady o (out_of_fuel : M A) o'.
Proof. by split. Qed.

Lemma world_ok_same w k : same_system (kern w) k -> world_ok w -> world_ok (mkWorld k (statics w)).
Proof. unfold world_ok. simpl. by intros ->%st_env. Qed.

Lemma steady_call {A} o (f : K -> A * K) o' :
  (forall k, same_system k (f k).2) -> answers same_system o f o' ->
  steady o (call f : M A) o'.
Proof.
  intros Hs Ha. split.
  - intros w a w'. unfold call. specialize (Hs (kern w)). destruct (f (kern w)) as [b k].
    intros [= _ <-]. done.
  - intros w1 w2 a w1' (H & Ok1 & Ok2). unfold call.
    pose proof (Hs (kern w1)) as Hs1. pose proof (Hs (kern w2)) as Hs2.
    destruct (f (kern w1)) as [b k1] eqn:Hf1. intros [= <- <-].
    destruct (Ha _ _ _ _ H Hf1) as (k2 & Hf2 & H'). rewrite Hf2 in *.
    eexists. split; [done|]. split_and!; [done|by apply world_ok_same|by apply world_ok_same].
Qed.

(** A call that only looks. *)
Lemma answers_look {A} o (f : K -> A * K) :
  (forall k, same_system k (f k).2) -> (forall k a k', f k = (a, k') -> same_view k k') ->
  (forall k1 k2, alike same_system o k1 k2 -> (f k1).1 = (f k2).1) ->
  answers same_system o f (fun _ => o).
Proof.
  intros Hs Hv Hr k1 k2 a k1' Ha Hf1. pose proof (Hr _ _ Ha) as Heq.
  pose proof (Hs k1) as Hs1. pose proof (Hs k2) as Hs2.
  destruct (f k2) as [b k2'] eqn:Hf2. rewrite Hf1 in *. simpl in *. subst b.
  exists k2'. split; [done|]. destruct (Hv _ _ _ Hf1) as (F1 & _ & D1).
  destruct (Hv _ _ _ Hf2) as (F2 & _ & D2). destruct Ha as (H1 & H2 & H3).
  split_and!; [by rewrite <- Hs1, H1, Hs2|congruence|].
  intros d Hd. destruct (H3 d Hd) as [Ho Hn]. rewrite F1. split; [done|].
  rewrite D1, D2; [done| |]; [by rewrite F2, <- H2|by rewrite F1].
Qed.

Lemma steady_look {A} o (f : K -> A * K) :
  (forall k, same_system k (f k).2) -> (forall k a k', f k = (a, k') -> same_view k k') ->
  (forall k1 k2, alike same_system o k1 k2 -> (f k1).1 = (f k2).1) ->
  steady o (call f : M A) (fun _ => o).
Proof. intros Hs Hv Hr. apply steady_call; [done|]. by apply answers_look. Qed.
(** *** The calls of an iteration *)

Lemma steady_open path flags : steady None (libc_open path flags : M Z) stream.
Proof. apply steady_call; [apply st_open_same|apply st_open]. Qed.

(** The result of [close] is not looked at. *)
Lemma steady_close o fd : steady o (libc_close fd : M unit) (fun _ => None).
Proof.
  split.
  - intros w a w'. unfold libc_close, mbind, ST_bind, call. pose proof (st_close_same fd (kern w)).
    destruct (sys_close fd (kern w)). by intros [= _ <-].
  - intros w1 w2 a w1' ((H1 & H2 & _) & Ok1 & Ok2). unfold libc_close, mbind, ST_bind, call.
    pose proof (st_close_same fd (kern w1)) as Hs1. pose proof (st_close_same fd (kern w2)) as Hs2.
    destruct (sys_close fd (kern w1)) as [r1 k1] eqn:Hk1.
    destruct (sys_close fd (kern w2)) as [r2 k2] eqn:Hk2. intros [= <- <-].
    eexists. split; [done|]. destruct (close_spec _ _ _ _ Hk1) as [F1 _].
    destruct (close_spec _ _ _ _ Hk2) as [F2 _].
    split_and!; [|by apply world_ok_same|by apply world_ok_same].
    split_and!; simpl; [by rewrite <- Hs1, H1|congruence|done].
Qed.

Lemma steady_getfd o fd : steady o (call (sys_fcntl_getfd fd) : M Z) (fun _ => o).
Proof.
  apply steady_look; [apply st_getfd_same| |].
  - intros k a k' Hk. by apply getfd_spec in Hk as [_ ?].
  - intros k1 k2 (_ & Hf & _). destruct (sys_fcntl_getfd fd k1) as [r1 k1'] eqn:H1.
    destruct (sys_fcntl_getfd fd k2) as [r2 k2'] eqn:H2.
    apply getfd_spec in H1 as [-> _]. apply getfd_spec in H2 as [-> _]. simpl. by rewrite Hf.
Qed.

Lemma steady_sysconf o : steady o (call sys_sysconf_open_max : M Z) (fun _ => o).
Proof.
  apply steady_look; [apply st_sysconf_same| |].
  - intros k a k' Hk. by apply sysconf_spec in Hk as [_ ?].
  - intros k1 k2 (Hs & _ & _). destruct (sys_sysconf_open_max k1) as [r1 k1'] eqn:H1.
    destruct (sys_sysconf_open_max k2) as [r2 k2'] eqn:H2.
    apply sysconf_spec in H1 as [-> _]. apply sysconf_spec in H2 as [-> _]. simpl.
    by rewrite (st_env _ _ Hs).
Qed.

Lemma steady_getdtablecount : steady None (call sys_getdtablecount : M Z) (fun _ => None).
Proof.
  apply steady_look; [apply st_getdtablecount_same| |].
  - intros k a k' Hk. by apply getdtablecount_spec in Hk as [? _].
  - intros k1 k2 (_ & Hf & _). destruct (sys_getdtablecount k1) as [r1 k1'] eqn:H1.
    destruct (sys_getdtablecount k2) as [r2 k2'] eqn:H2.
    apply getdtablecount_spec in H1 as [_ ->]. apply getdtablecount_spec in H2 as [_ ->].
    simpl. by rewrite Hf.
Qed.

Lemma steady_nfds : steady None (call sys_sysctl_nfds : M (Z * Z)) (fun _ => None).
Proof.
  apply steady_look; [apply st_nfds_same| |apply st_nfds].
  intros k [r v] k' Hk. by apply nfds_spec in Hk as [? _].
Qed.

Lemma steady_stat o path : steady o (call (sys_stat_dev path) : M (Z * Z)) (fun _ => o).
Proof.
  apply steady_look; [apply st_stat_same|intros k a k'; apply stat_spec|].
  intros k1 k2 Ha. apply st_stat. by eapply alike_weaken.
Qed.

Lemma steady_fstat d : steady (Some d) (call (sys_fstat_dev d) : M (Z * Z)) (fun _ => Some d).
Proof.
  apply steady_look; [apply st_fstat_same|intros k a k'; apply fstat_spec|apply st_fstat].
Qed.

(** The static of [is_wsl_1] may have been settled in one of the worlds. *)
Lemma steady_is_wsl_1 o : steady o (is_wsl_1 : M bool) (fun _ => o).
Proof.
  assert (Hsame : forall w a w', is_wsl_1 w = Done (a, w') -> same_system (kern w) (kern w')).
  { intros w a w'. unfold is_wsl_1, mbind, ST_bind. rewrite load_alone.
    destruct (_ =? 1); [by intros [= _ <-]|]. destruct (_ =? 0); [by intros [= _ <-]|].
    unfold call. pose proof (st_uname_same (kern w)). destruct (sys_uname_release (kern w)).
    rewrite store_alone. by intros [= _ <-]. }
  split; [exact Hsame|]. intros w1 w2 a w1' ((H1 & H2 & H3) & Ok1 & Ok2) Hw1.
  pose proof (is_wsl_1_spec w1 Ok1) as P1. pose proof (is_wsl_1_spec w2 Ok2) as P2.
  unfold wp in P1, P2. rewrite Hw1 in P1.
  destruct (is_wsl_1 w2) as [[b w2']| | | |] eqn:Hw2; try done.
  destruct P1 as (B1 & (F1 & E1 & D1) & _ & Ok1' & _).
  destruct P2 as (B2 & (F2 & E2 & D2) & _ & Ok2' & _).
  rewrite (st_env _ _ H1) in B1. assert (a = b) as -> by (apply eq_true_iff_eq; tauto).
  exists w2'. split; [done|]. split_and!; [|done|done]. split_and!; [|congruence|].
  - rewrite <- (Hsame _ _ _ Hw1), H1. by eapply Hsame.
  - intros d Hd. destruct (H3 d Hd) as [Ho Hn]. rewrite F1. split; [done|].
    rewrite D1, D2; [done| |]; [by rewrite F2, <- H2|by rewrite F1].
Qed.
(** *** The directory *)

(** The stream that an iterator reads. *)
Definition dir_stream (it : DirFdIter) : option Z := stream (dirfd it).

Lemma stream_some r : 0 <= r -> stream r = Some r.
Proof. intros Hr. unfold stream. by rewrite (proj2 (Z.leb_le _ _)). Qed.
Lemma stream_none r : r < 0 -> stream r = None.
Proof. intros Hr. unfold stream. by rewrite (proj2 (Z.leb_gt _ _)). Qed.

Lemma steady_getdents d buf : steady (Some d) (getdents d buf : M _) (fun _ => Some d).
Proof.
  unfold getdents. eapply steady_bind with (o1 := fun _ => Some d);
    [|intros [n data]; by apply steady_ret].
  destruct target; apply steady_call; try (intros k; apply st_getdents_same);
    try apply st_getdents.
  intros k1 k2 a k1' Ha. pose proof Ha as (_ & _ & Ho).
  destruct (Ho d eq_refl) as [[fl Hfl%fds_wf] _].
  rewrite as_u32_small by (unfold i32_MAX, u32_MAX in *; lia). by apply st_getdents.
Qed.

Definition dir_post_stream (r : result (option Z) * DirFdIter) : option Z := dir_stream r.2.

Lemma steady_consume again it :
  (forall it', dirfd it' = dirfd it -> steady (dir_stream it) (again it' : M _) dir_post_stream) ->
  steady (dir_stream it) (consume_entry again it) dir_post_stream.
Proof.
  intros Hagain. unfold consume_entry. eapply steady_bind; [apply steady_lift|]. intros [fd len].
  eapply steady_bind; [apply steady_lift|]. intros off.
  destruct fd as [fd|]; [|by apply Hagain].
  destruct (_ && _); [by apply steady_ret|by apply Hagain].
Qed.

Lemma steady_next_loop fuel it :
  0 <= dirfd it -> steady (dir_stream it) (next_loop fuel it : M _) dir_post_stream.
Proof.
  intros Hd. revert it Hd. induction fuel as [|fuel IH]; intros it Hd; [apply steady_stop|].
  simpl. destruct (dirent_nbytes it <=? dirent_offset it); last first.
  { apply steady_consume. intros it' He. unfold dir_stream. rewrite <- He. apply IH. by rewrite He. }
  assert (Hs : dir_stream it = Some (dirfd it)) by (apply stream_some; lia).
  rewrite Hs. eapply steady_bind; [apply steady_getdents|]. intros [n buf]. cbn beta iota.
  rewrite <- Hs. destruct (n ?= 0).
  - eapply steady_bind; [apply steady_close|]. intros []. by apply steady_ret.
  - by apply steady_ret.
  - change (dir_stream it) with (dir_stream (set_buffer buf n 0 it)).
    apply steady_consume. intros it' He. unfold dir_stream. rewrite <- He. apply IH.
    by rewrite He.
Qed.

Lemma steady_dir_next fuel it :
  steady (dir_stream it) (DirFdIter.next fuel it : M _) dir_post_stream.
Proof.
  unfold DirFdIter.next. destruct (Z.ltb_spec (dirfd it) 0); [by apply steady_ret|].
  apply steady_next_loop. lia.
Qed.

Lemma steady_drop_iter o it : steady o (drop_iter it : M unit) (fun _ => None).
Proof.
  unfold drop_iter. destruct (0 <=? dirfd it); [apply steady_close|].
  apply steady_forget. by apply steady_ret.
Qed.

Lemma steady_weaken {A} o (m : M A) o' : steady o m o' -> steady o m (fun _ => None).
Proof.
  intros [S1 S2]. split; [done|]. intros w1 w2 a w1' Hs Hm.
  destruct (S2 _ _ _ _ Hs Hm) as (w2' & H & Hs'). exists w2'. split; [done|].
  by eapply similar_weaken.
Qed.

Definition opened_stream (o : option Z) : option Z := o ≫= stream.

Lemma steady_open_one path flags :
  steady None (d ← libc_open path flags; mret (Some d) : M (option Z)) opened_stream.
Proof. eapply steady_bind; [apply steady_open|]. intros d. by apply steady_ret. Qed.

Lemma steady_open_sun : steady None
  (fd ← libc_open "/dev/fd" [O_RDONLY; O_CLOEXEC];
   if fd <? 0 then fd ← libc_open "/proc/self/fd" [O_RDONLY; O_CLOEXEC]; mret (Some fd)
   else mret (Some fd) : M (option Z)) opened_stream.
Proof.
  eapply steady_bind; [apply steady_open|]. intros fd. destruct (Z.ltb_spec fd 0).
  - rewrite stream_none by done. apply steady_open_one.
  - by apply steady_ret.
Qed.

Lemma steady_open_dirfd : steady None (open_dirfd : M (option Z)) opened_stream.
Proof.
  unfold open_dirfd. destruct target; try apply steady_open_one; try apply steady_open_sun.
  - eapply steady_bind; [apply steady_is_wsl_1|]. intros wsl. destruct wsl;
      [by apply steady_ret|apply steady_open_one].
  - eapply steady_bind; [apply steady_open|]. intros d. destruct (Z.leb_spec 0 d) as [Hd|];
      [|by apply steady_ret].
    rewrite stream_some by done. eapply steady_bind; [apply steady_stat|]. intros [r1 dev].
    cbn beta iota. eapply steady_bind with (o1 := fun _ => Some d).
    + destruct (negb (r1 =? 0)); [by apply steady_ret|].
      eapply steady_bind; [apply steady_fstat|]. intros [r2 dev2]. by apply steady_ret.
    + intros u. destruct u; [|apply steady_ret; by apply stream_some].
      eapply steady_bind; [apply steady_close|]. intros []. by apply steady_ret.
Qed.

(** The stream of the directory iterator that there may be. *)
Definition maybe_stream (o : option DirFdIter) : option Z := o ≫= dir_stream.

Lemma steady_dir_open minfd : steady None (DirFdIter.open minfd : M _) maybe_stream.
Proof.
  unfold DirFdIter.open. eapply steady_bind; [apply steady_open_dirfd|].
  intros [d|]; [|by apply steady_ret]. destruct (Z.leb_spec 0 d).
  - by apply steady_ret.
  - apply steady_ret. simpl. by rewrite stream_none.
Qed.
(** *** The iterator *)

Definition iter_stream (it : FdIter) : option Z :=
  if has_dirfd target then maybe_stream (dirfd_iter it) else None.
Definition post_stream (r : option Z * FdIter) : option Z := iter_stream r.2.

Lemma steady_is_fd_valid o fd : steady o (is_fd_valid fd : M bool) (fun _ => o).
Proof. eapply steady_bind; [apply steady_getfd|]. intros r. by apply steady_ret. Qed.

Lemma steady_nfds_loop range nfds found :
  steady None (nfds_loop range nfds found : M _) (fun _ => None).
Proof.
  revert found. induction range as [|fd range IH]; intros found; simpl; [by apply steady_ret|].
  eapply steady_bind; [apply steady_is_fd_valid|]. intros []; [|apply IH].
  eapply steady_bind; [apply steady_lift|]. intros n.
  destruct (nfds <=? n); [by apply steady_ret|apply IH].
Qed.

Lemma steady_nfds_to_maxfd n : steady None (nfds_to_maxfd n : M _) (fun _ => None).
Proof.
  unfold nfds_to_maxfd. destruct (n =? 0); [by apply steady_ret|].
  destruct (n <? 0); [by apply steady_ret|]. destruct (100 <=? n); [by apply steady_ret|].
  eapply steady_bind; [apply steady_lift|]. intros l. apply steady_nfds_loop.
Qed.

Lemma steady_get_nfds : steady None (get_nfds : M _) (fun _ => None).
Proof.
  unfold get_nfds. destruct target;
    try (eapply steady_bind; [apply steady_getdtablecount|]; intros n; by apply steady_ret).
  eapply steady_bind; [apply steady_nfds|]. intros [r v]. by apply steady_ret.
Qed.

Lemma steady_sysconf_max : steady None (maxfd_sysconf : M Z) (fun _ => None).
Proof. eapply steady_bind; [apply steady_sysconf|]. intros l. apply steady_lift. Qed.

(** [errno] is set before the call that is to leave it alone, so what it was does
    not matter. *)
Lemma steady_netbsd : steady None
  (set_errno 0;; maxfd ← call sys_fcntl_maxfd;
   if 0 <=? maxfd then mret maxfd
   else errno ← get_errno;
        if (maxfd =? -1) && (errno =? 0) then mret (-1) else maxfd_sysconf : M Z)
  (fun _ => None).
Proof.
  set (f := fun k : K => let '(m, k) := sys_fcntl_maxfd (errno_set 0 k) in ((m, errno_get k), k)).
  assert (Hf : steady None (r ← call f; let '(m, e) := (r : Z * Z) in
    if 0 <=? m then mret m else if (m =? -1) && (e =? 0) then mret (-1) else maxfd_sysconf : M Z)
    (fun _ => None)).
  { eapply steady_bind with (o1 := fun _ => None).
    - apply steady_look.
      + intros k. unfold f. pose proof (st_maxfd_same (errno_set 0 k)) as Hs.
        destruct (sys_fcntl_maxfd (errno_set 0 k)). simpl in *. by rewrite <- Hs, <- st_errno_set.
      + intros k [m e] k'. unfold f.
        destruct (sys_fcntl_maxfd (errno_set 0 k)) as [m' k2] eqn:Hk. intros [= _ _ <-].
        apply maxfd_spec in Hk as [Hv _]. eapply same_view_trans; [apply errno_set_view|done].
      + intros k1 k2 (H1 & H2 & _). unfold f.
        destruct (st_maxfd (errno_set 0 k1) (errno_set 0 k2)) as [Hr He].
        * split_and!; [by rewrite <- !st_errno_set| |done].
          destruct (errno_set_view 0 k1) as [-> _]. by destruct (errno_set_view 0 k2) as [-> _].
        * by rewrite !errno_set_get.
        * destruct (sys_fcntl_maxfd (errno_set 0 k1)), (sys_fcntl_maxfd (errno_set 0 k2)).
          simpl in *. congruence.
    - intros [m e]. destruct (0 <=? m); [by apply steady_ret|].
      destruct (_ && _); [by apply steady_ret|apply steady_sysconf_max]. }
  assert (Heq : forall w, (set_errno 0;; maxfd ← call sys_fcntl_maxfd;
    if 0 <=? maxfd then mret maxfd
    else errno ← get_errno;
         if (maxfd =? -1) && (errno =? 0) then mret (-1) else maxfd_sysconf : M Z) w =
    (r ← call f; let '(m, e) := (r : Z * Z) in
     if 0 <=? m then mret m else if (m =? -1) && (e =? 0) then mret (-1) else maxfd_sysconf : M Z) w).
  { intros w. unfold mbind, ST_bind, call, set_errno, modify, get_errno, gets, f. simpl.
    destruct (sys_fcntl_maxfd (errno_set 0 (kern w))) as [m k]. simpl.
    by destruct (0 <=? m). }
  destruct Hf as [S1 S2]. split.
  - intros w a w'. rewrite Heq. apply S1.
  - intros w1 w2 a w1' Hs. rewrite !Heq. by apply S2.
Qed.

Lemma steady_get_maxfd_direct it : steady None (get_maxfd_direct it : M Z) (fun _ => None).
Proof.
  unfold get_maxfd_direct. case_decide; [apply steady_netbsd|].
  destruct (_ && _); [|apply steady_sysconf_max].
  eapply steady_bind; [apply steady_get_nfds|]. intros o.
  eapply steady_bind with (o1 := fun _ => None).
  - destruct o; [apply steady_nfds_to_maxfd|by apply steady_ret].
  - intros [m|]; [by apply steady_ret|apply steady_sysconf_max].
Qed.

Lemma steady_scan_loop fuel m it :
  iter_stream it = None -> steady None (scan_loop fuel m it : M _) post_stream.
Proof.
  revert it. induction fuel as [|fuel IH]; intros it Hs; [apply steady_stop|]. simpl.
  destruct (curfd it <=? m); [|by apply steady_ret].
  eapply steady_bind; [apply steady_lift|]. intros c.
  eapply steady_bind with (o1 := fun _ => None).
  - destruct (possible _); [by apply steady_ret|apply steady_is_fd_valid].
  - intros []; [by apply steady_ret|by apply IH].
Qed.

Lemma steady_scan fuel it :
  iter_stream it = None -> steady None (scan fuel it : M _) post_stream.
Proof.
  intros Hs. unfold scan. eapply (steady_bind_if (fun r => dirfd_iter r.2 = dirfd_iter it))
    with (o1 := fun _ => None).
  - unfold get_maxfd. destruct (maxfd it); [by apply steady_ret|].
    eapply steady_bind; [apply steady_get_maxfd_direct|]. intros m.
    eapply steady_bind; [apply steady_lift|]. intros []. by apply steady_ret.
  - intros w r w'. unfold get_maxfd. destruct (maxfd it); [by intros [= <- _]|].
    intros (m & w1 & _ & (u & w2 & _ & [= <- _])%ST_bind_Done)%ST_bind_Done. done.
  - intros [m it'] Hd. apply steady_scan_loop. unfold iter_stream in *. simpl in Hd. by rewrite Hd.
Qed.

Lemma steady_fd_next fuel it : steady (iter_stream it) (FdIter.next fuel it : M _) post_stream.
Proof.
  unfold FdIter.next. destruct (has_dirfd target) eqn:Ht; last first.
  { assert (Hs : iter_stream it = None) by (unfold iter_stream; by rewrite Ht).
    rewrite Hs. by apply steady_scan. }
  destruct (dirfd_iter it) as [d|] eqn:Hd; last first.
  { assert (Hs : iter_stream it = None) by (unfold iter_stream; by rewrite Ht, Hd).
    rewrite Hs. by apply steady_scan. }
  assert (Hs : iter_stream it = dir_stream d) by (unfold iter_stream; by rewrite Ht, Hd).
  assert (Hset : forall o c, iter_stream (set_curfd c (set_dirfd_iter o it)) = maybe_stream o).
  { intros o c. unfold iter_stream. by rewrite Ht. }
  rewrite Hs. eapply steady_bind; [apply steady_dir_next|]. intros [r d']. cbn beta iota.
  unfold dir_post_stream. simpl. destruct r as [[fd|]|].
  - eapply steady_bind; [apply steady_lift|]. intros [].
    eapply steady_bind; [apply steady_lift|]. intros c. apply steady_ret. apply Hset.
  - apply steady_ret. apply (Hset (Some d') (curfd it)).
  - eapply steady_bind; [apply steady_drop_iter|]. intros []. apply steady_scan.
    apply (Hset None (curfd it)).
Qed.

Lemma steady_drop o it : steady o (drop_fditer it : M unit) (fun _ => None).
Proof.
  unfold drop_fditer. destruct (dirfd_iter it); [apply steady_drop_iter|].
  apply steady_forget. by apply steady_ret.
Qed.

Lemma steady_collect n fuel it :
  steady (iter_stream it) (collect n fuel it : M _) (fun _ => None).
Proof.
  revert it. induction n as [|n IH]; intros it; [apply steady_stop|]. simpl.
  eapply steady_bind; [apply steady_fd_next|]. intros [[fd|] it']; cbn beta iota.
  - eapply steady_bind; [apply IH|]. intros l. by apply steady_ret.
  - eapply steady_bind; [apply steady_drop|]. intros []. by apply steady_ret.
Qed.

Lemma steady_iter_from b minfd : steady None (iter_from b minfd : M _) iter_stream.
Proof.
  unfold iter_from. eapply steady_bind with
    (o1 := fun o => if has_dirfd target then maybe_stream o else None).
  - destruct (has_dirfd target); simpl; [|by apply steady_ret].
    destruct (b_dirfd b); [apply steady_dir_open|by apply steady_ret].
  - intros o. by apply steady_ret.
Qed.

Lemma steady_iterate fuel b minfd :
  steady None (iterate fuel b minfd : M (list Z)) (fun _ => None).
Proof.
  eapply steady_bind; [apply steady_iter_from|]. intros it. apply steady_collect.
Qed.

(** *** Coming back *)

(** After an iteration the process is as it was before. *)
Lemma similar_back {A} o (m : M A) o' (w w' : World K) a :
  steady o m o' -> m w = Done (a, w') -> fds (kern w') = fds (kern w) -> world_ok w ->
  world_ok w' -> similar None w w'.
Proof.
  intros [S1 _] Hm Hf Hok Hok'. split_and!; [|done|done]. split_and!; [by eapply S1|done|done].
Qed.

(** What was iterated once is iterated again. *)
Lemma iterate_again fuel b minfd w w1 l w' :
  similar None w w1 -> iterate fuel b minfd w = Done (l, w') ->
  exists w1', iterate fuel b minfd w1 = Done (l, w1') /\ similar None w' w1'.
Proof. intros Hs Hi. by apply (sd_again _ _ _ (steady_iterate fuel b minfd) w w1). Qed.
End steady.

(** ** The reference kernel is steady *)

Section reference.
Context `{C : Config}.

Definition rk_same (k1 k2 : RK) : Prop := rk_conf k1 = rk_conf k2.

#[export] Instance rk_same_equiv : Equivalence rk_same.
Proof. split; unfold rk_same; congruence. Qed.

Lemma rk_alike_errno (o : option Z) n k1 k2 :
  alike rk_same o k1 k2 -> alike rk_same o (rk_set_errno n k1) (rk_set_errno n k2).
Proof. done. Qed.

Lemma rk_open_answers path flags : answers rk_same None (rk_open path flags) stream.
Proof.
  intros k1 k2 a k1' Ha. pose proof Ha as (Hc & Hf & _). unfold rk_same in Hc. simpl in Hf.
  unfold rk_open, rk_within. rewrite <- Hf, <- Hc.
  assert (Hfail : forall n, (-1, rk_set_errno n k1) = (a, k1') -> exists k2' : RK,
    (-1, rk_set_errno n k2) = (a, k2') /\ alike rk_same (stream a) k1' k2').
  { intros n [= <- <-]. eexists. split; [done|]. by apply (rk_alike_errno None). }
  case_decide; [|apply Hfail]. destruct (next_free _) as [fd|] eqn:Hfd; [|apply Hfail].
  destruct (_ && _) eqn:Hw; [|apply Hfail]. apply next_free_spec in Hfd as [Hpos _].
  apply andb_true_iff in Hw as [Hmax%Z.ltb_lt _]. intros [= <- <-].
  eexists. split; [done|]. split_and!; [done|done|]. intros d. unfold stream.
  rewrite (proj2 (Z.leb_le _ _)) by done. intros [= <-]. simpl. rewrite !lookup_insert_eq.
  split; [|done]. eexists. apply rk_fds_lookup. simpl. rewrite lookup_insert_eq.
  split; [done|]. split; simpl; [lia|]. case_decide; lia.
Qed.

Lemma rk_getdents_answers c d len :
  answers rk_same (Some d) (rk_getdents c d len) (fun _ => Some d).
Proof.
  intros k1 k2 a k1' Ha. pose proof Ha as (Hc & Hf & Hd). unfold rk_same in Hc. simpl in Hf.
  destruct (Hd d eq_refl) as [[x Hx] Hp]. simpl in Hx.
  unfold rk_getdents. rewrite <- Hf, <- Hc, <- Hp, Hx.
  assert (Hfail : forall n, ((-1, []), rk_set_errno n k1) = (a, k1') -> exists k2' : RK,
    ((-1, []), rk_set_errno n k2) = (a, k2') /\ alike rk_same (Some d) k1' k2').
  { intros n [= <- <-]. eexists. split; [done|]. by apply (rk_alike_errno (Some d)). }
  assert (Hread : forall n data q, ((n, data), rk_set_dir d q k1) = (a, k1') -> exists k2' : RK,
    ((n, data), rk_set_dir d q k2) = (a, k2') /\ alike rk_same (Some d) k1' k2').
  { intros n data q [= <- <-]. eexists. split; [done|]. split_and!; [done|done|].
    intros d' [= <-]. simpl. rewrite !lookup_insert_eq. split; [|done]. by exists x. }
  destruct (dirnext k1 d) as [p|]; [|apply Hfail]. destruct (_ || _); [apply Hfail|].
  destruct (match rc_getdents_fail _ with Some q => _ | None => _ end); [apply Hfail|].
  destruct (p <? 0); [apply Hread|]. destruct (last _) as [l|]; [apply Hread|].
  intros [= <- <-]. by exists k2.
Qed.

#[export, refine] Instance rk_steady : Steady RK := {| same_system := rk_same |}.
Proof.
  all: try done.
  - intros k1 k2 Hc. simpl. by rewrite Hc.
  - intros path flags k. simpl. unfold rk_open. by repeat case_match.
  - intros fd k. simpl. unfold rk_close. by case_match.
  - intros fd k. simpl. unfold rk_getfd. by case_match.
  - intros k. simpl. unfold rk_maxfd. by case_match.
  - intros c d len k. simpl. unfold rk_getdents. by repeat case_match.
  - intros k. simpl. by case_match.
  - apply rk_open_answers.
  - apply rk_getdents_answers.
  - intros k1 k2 (Hc & Hf & _). simpl in *. rewrite Hc, Hf. by case_match.
  - intros path k1 k2 (Hc & _). simpl. by rewrite Hc.
  - intros d k1 k2 (Hc & _). simpl. by rewrite Hc.
  - intros k1 k2 (Hc & Hf & _) He. simpl in *. unfold rk_maxfd. rewrite Hc, Hf.
    by case_match.
Defined.
End reference.

(** ** Properties *)

Section properties.
Context `{C : Config, !ConfigOk C} {K : Type} `{SK : Sys K} `{KV : KernelView K}
  {KS : KernelSpec K} {ST_ : Steady K}.

(** C25. On a steady system an iteration is repeatable: with any builder on any
    target, also with [possible], iterating a second time from the same minimum
    yields the same list, although the first time may have found out about WSL 1
    and has left its own [errno]. *)
Theorem iterate_repeats fuel b minfd w :
  minfd <= i32_MAX -> world_ok w -> enough_fuel fuel ->
  wp (l1 ← iterate fuel b minfd; l2 ← iterate fuel b minfd; mret (l1, l2))
    (fun '(l1, l2) w' => l1 = l2 /\ fds (kern w') = fds (kern w)) w.
Proof.
  intros Hm Hok Hf. pose proof (iterate_spec fuel b minfd w Hm Hok Hf) as Hi.
  apply wp_done in Hi as (l & w1 & Hi & F1 & E1 & Ok1 & _).
  apply wp_bind, wp_done. exists l, w1. split; [done|].
  pose proof (similar_back _ _ _ _ _ _ (steady_iterate fuel b minfd) Hi F1 Hok Ok1) as Hs.
  destruct (iterate_again _ _ _ _ _ _ _ Hs Hi) as (w2 & Hi2 & (_ & F2 & _) & _).
  apply wp_bind, wp_done. exists l, w2. split; [done|]. apply wp_ret. split; [done|congruence].
Qed.
End properties.
