(* ===== verification/Threads.v ===== *)
(** * Other threads

    In the model of the other files one thread runs, and it runs the crate. Here
    the process has more of them, which open and close descriptors and change
    their flags between any two system calls of the crate; they may be inside the
    crate as well, and store to its statics. [Shared K] is a kernel with the other
    threads' work on it still to come, in bursts; its instance of [Sys] lets one
    burst happen before each call and each load of a static. The definitions of
    the other files, run on [Shared K], are then the interleavings of the crate
    with the other threads: a schedule is the list of bursts. *)

From S2P Require Import Prelude Platform Ints Sys KernelSpec Util DirFdIter FdIter IterFds.

(** ** Interleaving *)

(** A store to one of the statics. *)
Inductive static_store :=
| to_MAY_HAVE_CLOSE_RANGE (b : bool)
| to_MAY_HAVE_CLOSE_RANGE_CLOEXEC (b : bool)
| to_HAS_CLOSE_RANGE (v : Z)
| to_IS_WSL1 (v : Z)
| to_PROBED (b : bool).

Definition stored (s : static_store) : Statics -> Statics :=
  match s with
  | to_MAY_HAVE_CLOSE_RANGE b => store_MAY_HAVE_CLOSE_RANGE b
  | to_MAY_HAVE_CLOSE_RANGE_CLOEXEC b => store_MAY_HAVE_CLOSE_RANGE_CLOEXEC b
  | to_HAS_CLOSE_RANGE v => store_HAS_CLOSE_RANGE v
  | to_IS_WSL1 v => store_IS_WSL1 v
  | to_PROBED b => store_PROBED b
  end.
Definition all_stored (l : list static_store) (st : Statics) : Statics :=
  foldl (fun st s => stored s st) st l.

(** What another thread does at a time; [other_store] is what it does inside
    the crate, besides its system calls. *)
Inductive action :=
| other_open (path : string) (flags : list oflag)
| other_close (fd : Z)
| other_setfd (fd : Z) (fl : N)
| other_store (s : static_store).

(** [mine] are the descriptors that the crate has opened and not yet closed;
    [seen] collects the descriptors that were open when one of the crate's calls
    was made, [shut] those that such a call closed; [unseen] are the stores of
    the other threads since this thread last loaded a static, [published] what
    this thread has stored. No call depends on [seen], [shut] and [published],
    and [mine] only keeps the other threads from closing what is not theirs:
    these four are ghost state. *)
Record Shared (K : Type) := mkShared {
  base : K;
  pending : list (list action);
  mine : gset Z;
  seen : gset Z;
  shut : gset Z;
  unseen : list static_store;
  published : list Statics;
}.
Arguments mkShared {_} _ _ _ _ _ _ _.
Arguments base {_} _.
Arguments pending {_} _.
Arguments mine {_} _.
Arguments seen {_} _.
Arguments shut {_} _.
Arguments unseen {_} _.
Arguments published {_} _.

Section shared.
Context {K : Type} `{SK : Sys K} `{KV : KernelView K}.

(** An action of another thread; [errno] is a variable of each thread. *)
Definition perform (m : gset Z) (k : K) (a : action) : K :=
  match a with
  | other_open path flags => errno_set (errno_get k) (sys_open path flags k).2
  | other_close fd =>
      if decide (fd ∈ m) then k else errno_set (errno_get k) (sys_close fd k).2
  | other_setfd fd fl =>
      if decide (fd ∈ m) then k
      else errno_set (errno_get k) (sys_fcntl_setfd fd (Z.of_N fl) k).2
  | other_store _ => k
  end.

Definition stores_of (l : list action) : list static_store :=
  omap (fun a => match a with other_store s => Some s | _ => None end) l.

Definition burst (m : gset Z) (l : list action) (k : K) : K := foldl (perform m) k l.

(** The other threads run until the crate's next call or load. *)
Definition turn (s : Shared K) : Shared K :=
  let l := default [] (head (pending s)) in
  let k := burst (mine s) l (base s) in
  mkShared k (tail (pending s)) (mine s) (seen s ∪ dom (fds k)) (shut s)
    (unseen s ++ stores_of l) (published s).

(** A call of the crate leaves the kernel [k]. *)
Definition set_base (k : K) (s : Shared K) : Shared K :=
  mkShared k (pending s) (mine s) (seen s) (shut s ∪ (dom (fds (base s)) ∖ dom (fds k)))
    (unseen s) (published s).
Definition set_mine (m : gset Z) (s : Shared K) : Shared K :=
  mkShared (base s) (pending s) m (seen s) (shut s) (unseen s) (published s).
Definition set_unseen (l : list static_store) (s : Shared K) : Shared K :=
  mkShared (base s) (pending s) (mine s) (seen s) (shut s) l (published s).
Definition set_published (l : list Statics) (s : Shared K) : Shared K :=
  mkShared (base s) (pending s) (mine s) (seen s) (shut s) (unseen s) l.

(** A call of the crate. *)
Definition after {A} (f : K -> A * K) (s : Shared K) : A * Shared K :=
  let s := turn s in let '(a, k) := f (base s) in (a, set_base k s).

#[export] Instance shared_sys : Sys (Shared K) := {|
  FD_CLOEXEC := FD_CLOEXEC;
  EINVAL := EINVAL;
  errno_get s := errno_get (base s);
  errno_set e s := set_base (errno_set e (base s)) s;
  sys_open path flags s :=
    let '(d, s) := after (sys_open path flags) s in
    (d, if 0 <=? d then set_mine ({[d]} ∪ mine s) s else s);
  sys_close fd s :=
    let '(r, s) := after (sys_close fd) s in (r, set_mine (mine s ∖ {[fd]}) s);
  sys_fcntl_getfd fd := after (sys_fcntl_getfd fd);
  sys_fcntl_setfd fd fl := after (sys_fcntl_setfd fd fl);
  sys_fcntl_maxfd := after sys_fcntl_maxfd;
  sys_getdents c d len := after (sys_getdents c d len);
  sys_close_range lo hi fl s :=
    let '(r, s) := after (sys_close_range lo hi fl) s in
    (r, if decide (r = Some 0 /\ fl = 0)
        then set_mine (filter (fun d => ~ (lo <= d <= hi)) (mine s)) s else s);
  sys_closefrom lo s :=
    let s := turn s in
    set_mine (filter (fun d => d < lo) (mine s)) (set_base (sys_closefrom lo (base s)) s);
  sys_sysconf_open_max := after sys_sysconf_open_max;
  sys_uname_release := after sys_uname_release;
  sys_sysctl_nfds := after sys_sysctl_nfds;
  sys_sysctl_osreldate := after sys_sysctl_osreldate;
  sys_getdtablecount := after sys_getdtablecount;
  sys_stat_dev path := after (sys_stat_dev path);
  sys_fstat_dev fd := after (sys_fstat_dev fd);
  race st s := let s := turn s in (all_stored (unseen s) st, set_unseen [] s);
  publish st s := set_published (st :: published s) s;
|}.
End shared.

(** ** What the other threads may do *)

(** [stay] are descriptors that the other threads leave open, [still] such whose
    flags they leave alone; with [only_closes] they open none. *)
Class Rely := {
  stay : Z -> Prop;
  still : Z -> Prop;
  only_closes : bool;
  stay_dec :: forall f, Decision (stay f);
  still_dec :: forall f, Decision (still f);
}.

Section rely.
Context `{C : Config, !ConfigOk C} {K : Type} `{SK : Sys K} `{KV : KernelView K}
  {KS : KernelSpec K} {R : Rely}.

(** What is stored in a static is true of the system. *)
Definition true_store (e : Env) (s : static_store) : Prop :=
  forall st, statics_ok e st -> statics_ok e (stored s st).

Definition allowed (e : Env) (a : action) : Prop :=
  match a with
  | other_open _ _ => only_closes = false
  | other_close fd => ~ stay fd
  | other_setfd fd _ => ~ still fd
  | other_store s => true_store e s
  end.

Lemma all_stored_ok e l st :
  Forall (true_store e) l -> statics_ok e st -> statics_ok e (all_stored l st).
Proof.
  intros Hl. revert st. induction Hl as [|s l Hs _ IH]; intros st Hst; [done|]. simpl. auto.
Qed.

Lemma stores_of_true e l : Forall (allowed e) l -> Forall (true_store e) (stores_of l).
Proof.
  unfold stores_of. induction 1 as [|a l Ha _ IH]; [constructor|].
  destruct a; simpl; [done..|]. by constructor.
Qed.

(** What a thread that keeps the statics true stores is what the others rely
    on: [stores_out st] are the stores that leave [st], whichever of the statics
    they are to. *)
Definition stores_out (st : Statics) : list static_store :=
  [to_MAY_HAVE_CLOSE_RANGE (MAY_HAVE_CLOSE_RANGE st);
   to_MAY_HAVE_CLOSE_RANGE_CLOEXEC (MAY_HAVE_CLOSE_RANGE_CLOEXEC st);
   to_HAS_CLOSE_RANGE (HAS_CLOSE_RANGE st); to_IS_WSL1 (IS_WSL1 st); to_PROBED (PROBED st)].

Lemma guarantee_true e st : statics_ok e st -> Forall (true_store e) (stores_out st).
Proof.
  intros Hs. unfold stores_out. rewrite !Forall_cons, Forall_nil.
  split_and!; try done; intros st' Ht; destruct Hs, Ht; by constructor.
Qed.

Lemma guarantee_rely e l : Forall (statics_ok e) l -> Forall (true_store e) (l ≫= stores_out).
Proof.
  induction 1 as [|st l Hst _ IH]; [done|]. rewrite bind_cons. apply Forall_app.
  auto using guarantee_true.
Qed.

(** The descriptors that the other threads do not touch at all. *)
Definition held (k : K) : gmap Z Z := filter (fun '(f, _) => stay f /\ still f) (fds k).

Lemma held_eq k k' :
  (forall f, stay f -> still f -> fds k' !! f = fds k !! f) -> held k' = held k.
Proof.
  intros He. apply map_eq. intros f. apply option_eq. intros fl. unfold held.
  rewrite !map_lookup_filter_Some. split; intros [Hfl [Hs Ht]]; (split; [|done]).
  - by rewrite <- He.
  - by rewrite He.
Qed.

Lemma held_same k k' : fds k' = fds k -> held k' = held k.
Proof. unfold held. by intros ->. Qed.

(** The effect of other threads on a kernel in which the crate owns [m]. *)
Record others (m : gset Z) (k k' : K) : Prop := {
  ot_env : env k' = env k;
  ot_errno : errno_get k' = errno_get k;
  ot_mine : forall d, d ∈ m -> fds k' !! d = fds k !! d /\ dirnext k' d = dirnext k d;
  ot_stay : forall f, stay f -> is_Some (fds k !! f) -> is_Some (fds k' !! f);
  ot_sub : only_closes = true -> dom (fds k') ⊆ dom (fds k);
  ot_held : held k' = held k;
}.

Lemma others_refl m k : others m k k.
Proof. by constructor. Qed.

Lemma others_trans m k1 k2 k3 : others m k1 k2 -> others m k2 k3 -> others m k1 k3.
Proof.
  intros [E1 R1 M1 S1 B1 H1] [E2 R2 M2 S2 B2 H2].
  constructor; [congruence|congruence| |auto| |congruence].
  - intros d Hd. destruct (M1 d Hd), (M2 d Hd). split; congruence.
  - intros Ho. etrans; [by apply B2|by apply B1].
Qed.

(** Setting [errno] back does not show. *)
Lemma others_errno m k k' :
  env k' = env k ->
  (forall d, d ∈ m ->
     is_Some (fds k' !! d) /\ fds k' !! d = fds k !! d /\ dirnext k' d = dirnext k d) ->
  (forall f, stay f -> is_Some (fds k !! f) -> is_Some (fds k' !! f)) ->
  (only_closes = true -> dom (fds k') ⊆ dom (fds k)) ->
  (forall f, stay f -> still f -> fds k' !! f = fds k !! f) ->
  others m k (errno_set (errno_get k) k').
Proof.
  intros He Hm Hs Hb Hh. destruct (errno_set_view (errno_get k) k') as (V1 & V2 & V3).
  constructor; rewrite ?V1, ?V2; [done|apply errno_set_get| |done|done|].
  2: { apply held_eq. by rewrite V1. }
  intros d Hd. destruct (Hm d Hd) as (Ho & H1 & H2). split; [done|].
  rewrite V3; [done|]. by rewrite V1.
Qed.

Lemma perform_others m k e a :
  m ⊆ dom (fds k) -> (forall f, stay f -> is_Some (fds k !! f)) -> allowed e a ->
  others m k (perform m k a).
Proof.
  intros Hm Hst Ha. assert (Hopen : forall d, d ∈ m -> is_Some (fds k !! d)).
  { intros d Hd. apply elem_of_dom. auto. }
  destruct a as [path flags|fd|fd fl|s]; simpl in *; [..|apply others_refl].
  - destruct (sys_open path flags k) as [r k'] eqn:Hk. simpl.
    destruct (open_spec _ _ _ _ _ Hk) as [(_ & V1 & V2 & V3)|(_ & Hr & He & [fl Hf] & Hd & _)].
    + apply others_errno; rewrite ?V1; auto. intros d Hdm. rewrite V3 by (rewrite V1; auto). auto.
    + assert (Hne : forall d, is_Some (fds k !! d) -> d <> r) by (intros d [? Hx] ->; congruence).
      apply others_errno; rewrite ?Hf; [done| | |congruence|].
      * intros d Hdm. rewrite lookup_insert_ne by (symmetry; auto).
        split_and!; [auto|done|]. apply Hd; [auto|].
        rewrite Hf, lookup_insert_ne by (symmetry; auto). auto.
      * intros f _ Hs. rewrite lookup_insert_ne by (symmetry; auto). done.
      * intros f Hs _. rewrite lookup_insert_ne by (symmetry; auto). done.
  - case_decide as Hin; [apply others_refl|].
    destruct (sys_close fd k) as [r k'] eqn:Hk. simpl.
    destruct (close_spec _ _ _ _ Hk) as [Hf [He Hd]]. apply others_errno; rewrite ?Hf; [done|..].
    + intros d Hdm. assert (fd <> d) by set_solver. rewrite lookup_delete_ne by done.
      split_and!; [auto|done|]. apply Hd. rewrite Hf, lookup_delete_ne by done. auto.
    + intros f Hs Ho. rewrite lookup_delete_ne by (by intros ->). done.
    + intros _. apply subseteq_dom, delete_subseteq.
    + intros f Hs _. rewrite lookup_delete_ne by (by intros ->). done.
  - case_decide as Hin; [apply others_refl|].
    destruct (sys_fcntl_setfd fd (Z.of_N fl) k) as [r k'] eqn:Hk. simpl.
    destruct (fds k !! fd) as [x|] eqn:Hx.
    + destruct (setfd_spec _ _ _ _ _ Hk (mk_is_Some _ _ Hx) ltac:(lia)) as [Hf [He Hd]].
      apply others_errno; rewrite ?Hf; [done|..].
      * intros d Hdm. assert (fd <> d) by set_solver. rewrite lookup_insert_ne by done.
        split_and!; [auto|done|]. apply Hd. rewrite Hf, lookup_insert_ne by done. auto.
      * intros f _ Ho. destruct (decide (f = fd)) as [->|];
          [by rewrite lookup_insert_eq|by rewrite lookup_insert_ne].
      * intros _ f. rewrite !elem_of_dom. destruct (decide (f = fd)) as [->|];
          [by rewrite Hx|by rewrite lookup_insert_ne].
      * intros f _ Hs. rewrite lookup_insert_ne by (by intros ->). done.
    + destruct (setfd_closed _ _ _ _ _ Hk Hx) as (V1 & V2 & V3).
      apply others_errno; rewrite ?V1; auto. intros d Hdm. rewrite V3 by (rewrite V1; auto). auto.
Qed.

Lemma others_mine m k k' : m ⊆ dom (fds k) -> others m k k' -> m ⊆ dom (fds k').
Proof.
  intros Hm Ho d Hd. apply elem_of_dom. rewrite (proj1 (ot_mine _ _ _ Ho d Hd)).
  apply elem_of_dom. auto.
Qed.

Lemma burst_others m l k e :
  m ⊆ dom (fds k) -> (forall f, stay f -> is_Some (fds k !! f)) -> Forall (allowed e) l ->
  others m k (burst m l k).
Proof.
  intros Hm Hst Hl. revert k Hm Hst.
  induction Hl as [|a l Ha _ IH]; intros k Hm Hst; [apply others_refl|].
  simpl. pose proof (perform_others m k e a Hm Hst Ha) as H1.
  eapply others_trans; [exact H1|]. apply IH; [by eapply others_mine|].
  intros f Hs. apply (ot_stay _ _ _ H1); auto.
Qed.

(** ** The crate among other threads *)

(** The rest of the schedule is allowed, the crate's descriptors are open and
    are none of the staying ones, and these are all open; what the threads have
    stored is true. *)
Record threads_ok (s : Shared K) : Prop := {
  to_unseen : Forall (true_store (env (base s))) (unseen s);
  to_published : Forall (statics_ok (env (base s))) (published s);
  to_pending : Forall (Forall (allowed (env (base s)))) (pending s);
  to_mine : mine s ⊆ dom (fds (base s));
  to_stay : forall f, stay f -> is_Some (fds (base s) !! f);
  to_sep : forall f, stay f -> f ∉ mine s;
}.

(** A call of the crate leaves the other threads' part as it is. *)
Lemma threads_ok_call s k m :
  threads_ok s -> env k = env (base s) -> m ⊆ dom (fds k) ->
  (forall f, stay f -> is_Some (fds k !! f)) -> (forall f, stay f -> f ∉ m) ->
  threads_ok (set_mine m (set_base k s)).
Proof.
  intros [Hu Hpub Hp _ _ _] He Hm Hs Hsep. by constructor; simpl; rewrite ?He.
Qed.

(** The logs only grow. *)
Definition grows (s s' : Shared K) : Prop := seen s ⊆ seen s' /\ shut s ⊆ shut s'.

#[export] Instance grows_pre_order : PreOrder grows.
Proof.
  split; [done|]. intros s1 s2 s3 [A1 B1] [A2 B2]. split; by etrans.
Qed.

Lemma set_base_grows k m s : grows s (set_mine m (set_base k s)).
Proof. split; simpl; [done|apply union_subseteq_l]. Qed.

(** Time passes, and the crate has the same descriptors after as before. *)
Record evolves (s s' : Shared K) : Prop := {
  ev_ok : threads_ok s';
  ev_env : env (base s') = env (base s);
  ev_same : mine s' = mine s;
  ev_mine : forall d, d ∈ mine s ->
    fds (base s') !! d = fds (base s) !! d /\ dirnext (base s') d = dirnext (base s) d;
  ev_logs : grows s s';
  ev_sub : only_closes = true -> dom (fds (base s')) ⊆ dom (fds (base s));
  ev_held : held (base s') = held (base s);
}.

Lemma evolves_trans s1 s2 s3 : evolves s1 s2 -> evolves s2 s3 -> evolves s1 s3.
Proof.
  intros [O1 E1 M1 D1 S1 B1 H1] [O2 E2 M2 D2 S2 B2 H2].
  constructor; [done|congruence|congruence| |by etrans| |congruence].
  - intros d Hd. destruct (D1 d Hd), (D2 d ltac:(by rewrite M1)). split; congruence.
  - intros Ho. etrans; [by apply B2|by apply B1].
Qed.

(** A burst of the other threads, as the crate's next call finds it. *)
Lemma turn_evolves s :
  threads_ok s ->
  evolves s (turn s) /\ dom (fds (base (turn s))) ⊆ seen (turn s) /\
  errno_get (base (turn s)) = errno_get (base s).
Proof.
  intros [Hu Hpub Hp Hm Hs Hsep]. unfold turn. simpl.
  assert (Hb : Forall (allowed (env (base s))) (default [] (head (pending s))) /\
               Forall (Forall (allowed (env (base s)))) (tail (pending s))).
  { destruct Hp; simpl; auto. }
  destruct Hb as [Hb Ht]. pose proof (burst_others _ _ _ _ Hm Hs Hb) as Ho.
  pose proof Ho as [H1 H2 H3 H4 H5 H6]. split_and!; [|apply union_subseteq_r|done].
  constructor; simpl; auto; [|split; simpl; [apply union_subseteq_l|done]].
  constructor; simpl; rewrite ?H1; auto; [|by eapply others_mine].
  apply Forall_app. split; [done|]. by apply stores_of_true.
Qed.

(** A load of one of the statics finds something true. *)
Lemma wp_load_threads {A} (f : Statics -> A) (Q : A -> World (Shared K) -> Prop) w :
  threads_ok (kern w) ->
  (forall w', evolves (kern w) (kern w') ->
     (statics_ok (env (base (kern w))) (statics w) ->
      statics_ok (env (base (kern w'))) (statics w')) -> Q (f (statics w')) w') ->
  wp (load f) Q w.
Proof.
  intros Hok HQ. destruct (turn_evolves _ Hok) as (He & _ & _).
  set (found := fun s : Shared K =>
    mkWorld (set_unseen [] s) (all_stored (unseen s) (statics w))).
  change (Q (f (statics (found (turn (kern w))))) (found (turn (kern w)))).
  generalize dependent (turn (kern w)). intros s He. unfold found.
  apply (HQ (mkWorld (set_unseen [] s) (all_stored (unseen s) (statics w)))).
  - destruct He as [[O1 O2 O3 O4 O5 O6] ? ? ? ? ? ?]. constructor; auto. constructor; simpl; auto.
  - intros Hst. apply all_stored_ok; simpl; [apply He|]. by rewrite (ev_env _ _ He).
Qed.

(** A store of something true. *)
Lemma publish_evolves s st :
  threads_ok s -> statics_ok (env (base s)) st ->
  evolves s (set_published (st :: published s) s).
Proof.
  intros [O1 O2 O3 O4 O5 O6] Hst. constructor; try done. constructor; simpl; auto.
Qed.

Lemma wp_store_threads f (Q : unit -> World (Shared K) -> Prop) w :
  threads_ok (kern w) -> statics_ok (env (base (kern w))) (f (statics w)) ->
  (forall s, evolves (kern w) s -> Q tt (mkWorld s (f (statics w)))) -> wp (store f) Q w.
Proof. intros Hok Hst HQ. by apply HQ, publish_evolves. Qed.

(** What a call does that changes nothing the view shows. *)
Lemma same_view_evolves s k :
  threads_ok s -> same_view (base s) k -> evolves s (set_base k s).
Proof.
  intros Hok (V1 & V2 & V3). pose proof Hok as [_ _ _ Hm Hs Hsep].
  assert (Hd : forall d, d ∈ mine s -> is_Some (fds k !! d)).
  { intros d Hd. rewrite V1. apply elem_of_dom. auto. }
  constructor; simpl; [|done|done| |apply (set_base_grows k (mine s))|by rewrite V1|by apply held_same].
  - apply (threads_ok_call s k (mine s)); rewrite ?V1; done.
  - intros d Hdm. rewrite V1. split; auto.
Qed.

(** The kernel [k] at the moment of a call made from [s]. *)
Record moment (s : Shared K) (k : K) (s' : Shared K) : Prop := {
  mo_env : env k = env (base s);
  mo_errno : errno_get k = errno_get (base s);
  mo_mine : forall d, d ∈ mine s ->
    fds k !! d = fds (base s) !! d /\ dirnext k d = dirnext (base s) d;
  mo_sub : only_closes = true -> dom (fds k) ⊆ dom (fds (base s));
  mo_stay : forall f, stay f -> is_Some (fds k !! f);
  mo_fds : fds (base s') = fds k;
  mo_seen : dom (fds k) ⊆ seen s';
}.

Definition quietly (w w' : World (Shared K)) : Prop :=
  evolves (kern w) (kern w') /\ statics w' = statics w.

Lemma quietly_trans w1 w2 w3 : quietly w1 w2 -> quietly w2 w3 -> quietly w1 w3.
Proof. intros [E1 S1] [E2 S2]. split; [by eapply evolves_trans|congruence]. Qed.

(** A call that only looks. *)
Lemma wp_look {A} (f : K -> A * K) (Q : A -> World (Shared K) -> Prop) w :
  threads_ok (kern w) ->
  (forall k a k', f k = (a, k') -> same_view k k') ->
  (forall k a w', f k = (a, base (kern w')) -> quietly w w' ->
     moment (kern w) k (kern w') -> Q a w') ->
  wp (call (after f)) Q w.
Proof.
  intros Hok Hview HQ. apply wp_call. intros a s'. unfold after.
  destruct (turn_evolves _ Hok) as (He & Hseen & Herr).
  destruct (f (base (turn (kern w)))) as [a' k'] eqn:Hf. intros [= -> <-].
  pose proof (Hview _ _ _ Hf) as Hv.
  apply (HQ (base (turn (kern w)))); [done| |].
  - split; [|done]. eapply evolves_trans; [exact He|].
    apply same_view_evolves; [by eapply ev_ok|done].
  - constructor; simpl; [apply He|done|apply He|by apply He| |apply Hv|done].
    apply (ev_ok _ _ He).
Qed.

Lemma wp_is_fd_valid_threads (fd : Z) (Q : bool -> World (Shared K) -> Prop) w :
  threads_ok (kern w) ->
  (forall (b : bool) w', quietly w w' ->
     (if b then fd ∈ dom (fds (base (kern w'))) /\ fd ∈ seen (kern w') else ~ stay fd) ->
     (only_closes = true -> b = true -> fd ∈ dom (fds (base (kern w)))) -> Q b w') ->
  wp (is_fd_valid fd) Q w.
Proof.
  intros Hok HQ. unfold is_fd_valid. apply wp_bind, wp_look; [done| |].
  { intros k r k' Hk. by apply getfd_spec in Hk as [_ ?]. }
  intros k r w' Hk Hq [M1 M2 _ M3 M4 M5 M6]. apply getfd_spec in Hk as [-> _]. apply wp_ret.
  destruct (fds k !! fd) as [fl|] eqn:Hfd; simpl.
  - pose proof (fds_wf _ _ _ Hfd) as [_ Hfl]. rewrite (proj2 (Z.leb_le _ _)) by done.
    assert (Hin : fd ∈ dom (fds k)) by (by apply elem_of_dom; rewrite Hfd).
    apply HQ; [done| |].
    + rewrite M5. auto.
    + intros Ho _. by apply M3.
  - apply HQ; [done| |done]. intros Hs. apply M4 in Hs. rewrite Hfd in Hs. by destruct Hs.
Qed.
End rely.
