(* ===== verification/IterThreads.v ===== *)
(** * Iterating among other threads

    The iterator of src/iterfds/, run on [Shared K]: every descriptor that stays
    open is yielded, whatever the other threads do with the others, provided the
    count of open descriptors is not used ([threadsafe]) or nothing is opened. *)

From S2P Require Import Prelude Platform Ints Sys KernelSpec Util DirFdIter FdIter IterFds Threads.

(** ** The maximum descriptor *)

Section maxfd.
Context `{C : Config, !ConfigOk C} {K : Type} `{SK : Sys K} `{KV : KernelView K}
  {KS : KernelSpec K} {R : Rely}.

(** A maximum that is safe for the fallback loop. *)
Definition covers (m : Z) (e : Env) : Prop :=
  -1 <= m < i32_MAX /\ forall f, stay f -> f <= scan_limit e -> f <= m.

Definition world_env (w : World (Shared K)) : Env := env (base (kern w)).

Lemma quietly_env w w' : quietly w w' -> world_env w' = world_env w.
Proof. intros [H _]. apply (ev_env _ _ H). Qed.

Lemma quietly_ok w w' : quietly w w' -> threads_ok (kern w').
Proof. intros [H _]. apply (ev_ok _ _ H). Qed.

(** Counting, while descriptors may only be closed: [T] is what was open when
    the system was asked for their number. *)
Lemma nfds_loop_threads k (T : gset Z) c nfds found seen w :
  only_closes = true -> threads_ok (kern w) ->
  0 <= c -> 0 <= found < nfds -> nfds < 100 -> nfds = Z.of_nat (size T) ->
  dom (fds (base (kern w))) ⊆ T ->
  seen ⊆ T -> Z.of_nat (size (seen : gset Z)) = found -> (forall f, f ∈ seen -> f < c) ->
  wp (nfds_loop (seqZ c (Z.of_nat k)) nfds found) (fun o w' => quietly w w' /\
    forall m, o = Some m -> c <= m < c + Z.of_nat k /\ forall f, stay f -> f <= m) w.
Proof.
  intros Hoc. revert c found seen w. induction k as [|k IH];
    intros c found seen w Hok Hc Hfound Hn Hsize HT Hsub Hseen Hlt.
  { apply wp_ret. split; [|done]. split; [|done]. constructor; done. }
  rewrite seqZ_cons by lia. rewrite Nat2Z.inj_succ, Z.pred_succ. simpl.
  apply wp_bind, wp_is_fd_valid_threads; [done|].
  intros b w1 Hq Hb Hin. pose proof (quietly_ok _ _ Hq) as Hok1.
  assert (HT1 : dom (fds (base (kern w1))) ⊆ T).
  { etrans; [apply (ev_sub _ _ (proj1 Hq) Hoc)|done]. }
  assert (Hrec : forall found' (seen' : gset Z), 0 <= found' < nfds -> seen' ⊆ T ->
    Z.of_nat (size seen') = found' -> (forall f, f ∈ seen' -> f < Z.succ c) ->
    wp (nfds_loop (seqZ (Z.succ c) (Z.of_nat k)) nfds found') (fun o w' => quietly w w' /\
      forall m, o = Some m ->
        c <= m < c + Z.succ (Z.of_nat k) /\ forall f, stay f -> f <= m) w1).
  { intros found' seen' H1 H2 H3 H4.
    eapply wp_mono; [apply (IH (Z.succ c) found' seen'); done || lia|].
    intros o w2 [Hq2 Ho]. split; [by eapply quietly_trans|]. intros m Hm.
    destruct (Ho m Hm). split; [lia|done]. }
  destruct b; [|apply (Hrec found seen); try done; intros f Hf; specialize (Hlt f Hf); lia].
  specialize (Hin Hoc eq_refl).
  assert (Hnew : c ∉ seen) by (intros Hx; specialize (Hlt c Hx); lia).
  assert (Hsub' : {[c]} ∪ seen ⊆ T).
  { intros f [->%elem_of_singleton|Hf]%elem_of_union; auto. }
  assert (Hsize' : Z.of_nat (size ({[c]} ∪ seen : gset Z)) = found + 1).
  { rewrite size_union by (intros f ->%elem_of_singleton; done). rewrite size_singleton. lia. }
  assert (Hlt' : forall f, f ∈ {[c]} ∪ seen -> f < Z.succ c).
  { intros f [->%elem_of_singleton|Hf]%elem_of_union; [lia|]. specialize (Hlt f Hf). lia. }
  apply wp_bind. eapply wp_lift; [apply i32_add_ok; unfold i32_MIN, i32_MAX; lia|].
  destruct (Z.leb_spec nfds (found + 1)); [|apply (Hrec _ ({[c]} ∪ seen)); done || lia].
  apply wp_ret. split; [done|]. intros m [= <-]. split; [lia|].
  assert (Heq : {[c]} ∪ seen ≡ T) by (apply set_subseteq_size_equiv; [done|lia]).
  intros f Hf%(to_stay _ Hok). apply elem_of_dom, HT in Hf. rewrite <- Heq in Hf.
  specialize (Hlt' f Hf). lia.
Qed.

Lemma quietly_refl w : threads_ok (kern w) -> quietly w w.
Proof. intros Hok. by split; [constructor|]. Qed.

Lemma nfds_to_maxfd_threads (T : gset Z) w :
  only_closes = true -> threads_ok (kern w) -> dom (fds (base (kern w))) ⊆ T ->
  wp (nfds_to_maxfd (Z.of_nat (size T))) (fun o w' => quietly w w' /\
    forall m, o = Some m -> -1 <= m < 198 /\ forall f, stay f -> f <= m) w.
Proof.
  intros Hoc Hok HT. pose proof (quietly_refl w Hok) as Hq. unfold nfds_to_maxfd.
  destruct (Z.eqb_spec (Z.of_nat (size T)) 0) as [He|].
  { apply wp_ret. split; [done|]. intros m [= <-]. split; [lia|].
    intros f Hf%(to_stay _ Hok). apply elem_of_dom, HT in Hf.
    assert (T ≡ ∅) as HE by (apply size_empty_inv; lia). by apply HE, not_elem_of_empty in Hf. }
  destruct (Z.ltb_spec (Z.of_nat (size T)) 0); [by apply wp_ret|].
  destruct (Z.leb_spec 100 (Z.of_nat (size T))); [by apply wp_ret|].
  apply wp_bind. eapply wp_lift.
  { apply i32_mul_ok. unfold i32_MIN, i32_MAX. lia. }
  replace (Z.of_nat (size T) * 2) with (Z.of_nat (Z.to_nat (Z.of_nat (size T) * 2))) by lia.
  eapply wp_mono; [apply (nfds_loop_threads _ T 0 _ _ ∅); try done; try lia; set_solver|].
  intros o w' [Hq' Ho]. split; [done|]. intros m Hm. destruct (Ho m Hm). split; [lia|done].
Qed.

Lemma maxfd_sysconf_threads w :
  threads_ok (kern w) ->
  wp maxfd_sysconf (fun m w' => quietly w w' /\ covers m (world_env w)) w.
Proof.
  intros Hok. unfold maxfd_sysconf. apply wp_bind, wp_look; [done| |].
  { intros k r k' Hk. by apply sysconf_spec in Hk as [_ ?]. }
  intros k r w' Hk Hq Hm. apply sysconf_spec in Hk as [-> _].
  rewrite (mo_env _ _ _ Hm). eapply wp_lift.
  { apply i32_sub_ok. unfold i32_MIN, i32_MAX. lia. }
  split; [done|]. unfold covers, scan_limit, world_env. split; [unfold i32_MAX; lia|lia].
Qed.

Lemma get_nfds_threads w :
  has_nfds target = true -> threads_ok (kern w) ->
  wp get_nfds (fun o w' => quietly w w' /\
    forall n, o = Some n -> exists T : gset Z, n = Z.of_nat (size T) /\
      dom (fds (base (kern w'))) ⊆ T) w.
Proof.
  intros Hnf Hok. unfold get_nfds. destruct target; try discriminate Hnf.
  - apply wp_bind, wp_look; [done| |].
    { intros k [r v] k' Hk. by apply nfds_spec in Hk as [? _]. }
    intros k [r v] w' Hk Hq [_ _ _ _ _ Hf _]. apply nfds_spec in Hk as [_ Hn]. apply wp_ret.
    split; [done|]. destruct (Z.eqb_spec r 0); [|done]. intros n [= <-].
    exists (dom (fds k)). rewrite size_dom, Hf. auto.
  - apply wp_bind, wp_look; [done| |].
    { intros k r k' Hk. by apply getdtablecount_spec in Hk as [? _]. }
    intros k r w' Hk Hq [_ _ _ _ _ Hf _]. apply getdtablecount_spec in Hk as [_ Hn]. apply wp_ret.
    split; [done|]. intros n [= <-]. exists (dom (fds k)). by rewrite size_dom, Hf.
Qed.

(** The count of descriptors is used only if it is right. *)
Definition nfds_safe (it : FdIter) : Prop :=
  only_closes = true \/ has_nfds target = false \/ skip_nfds it = true.

Lemma sysconf_after w w1 (Q : Z -> World (Shared K) -> Prop) :
  quietly w w1 ->
  (forall m w', quietly w w' -> covers m (world_env w) -> Q m w') ->
  wp maxfd_sysconf Q w1.
Proof.
  intros Hq HQ. eapply wp_mono; [apply maxfd_sysconf_threads; by eapply quietly_ok|].
  intros m w' [Hq' Hm]. rewrite (quietly_env _ _ Hq) in Hm.
  apply HQ; [by eapply quietly_trans|done].
Qed.

(** NetBSD's [fcntl(0, F_MAXFD)]: what stays open is open when it is asked. *)
Lemma maxfd_netbsd_threads w :
  threads_ok (kern w) ->
  wp (set_errno 0;; maxfd ← call sys_fcntl_maxfd;
      if 0 <=? maxfd then mret maxfd
      else errno ← get_errno;
           if (maxfd =? -1) && (errno =? 0) then mret (-1) else maxfd_sysconf)
    (fun m w' => quietly w w' /\ covers m (world_env w)) w.
Proof.
  intros Hok. apply wp_bind. unfold set_errno. apply wp_modify.
  set (w0 := mkWorld _ _).
  assert (Hq0 : quietly w w0).
  { split; [|done]. apply same_view_evolves; [done|]. apply errno_set_view. }
  apply wp_bind, wp_look;
    [by eapply quietly_ok| |].
  { intros k r k' Hk. by apply maxfd_spec in Hk as [? _]. }
  intros k m w1 Hk Hq1 [M1 M2 _ _ M4 _ _]. simpl in M2. rewrite errno_set_get in M2.
  apply maxfd_spec in Hk as (_ & Hlt & Hpos & Hneg).
  assert (Hq : quietly w w1) by (by eapply quietly_trans).
  destruct (Z.leb_spec 0 m).
  { apply wp_ret. split; [done|]. split; [lia|]. intros f Hf _. auto. }
  apply wp_bind, wp_gets. simpl.
  destruct ((m =? -1) && (errno_get (base (kern w1)) =? 0)) eqn:Hb;
    [|by apply (sysconf_after w)].
  apply andb_true_iff in Hb as [->%Z.eqb_eq H0%Z.eqb_eq]. apply wp_ret. split; [done|].
  split; [unfold i32_MAX; lia|]. intros f Hf%M4 _. rewrite Hneg in Hf by done.
  rewrite lookup_empty in Hf. by destruct Hf.
Qed.

Lemma get_maxfd_direct_threads it w :
  threads_ok (kern w) -> nfds_safe it ->
  wp (get_maxfd_direct it) (fun m w' => quietly w w' /\ covers m (world_env w)) w.
Proof.
  intros Hok Hsafe. unfold get_maxfd_direct.
  case_decide; [by apply maxfd_netbsd_threads|].
  destruct (has_nfds target && negb (skip_nfds it)) eqn:Hnf;
    [|by apply maxfd_sysconf_threads].
  apply andb_true_iff in Hnf as [Hnf Hskip%negb_true_iff].
  assert (Hoc : only_closes = true) by (destruct Hsafe as [?|[?|?]]; congruence).
  apply wp_bind. eapply wp_mono; [by apply get_nfds_threads|]. intros nfds w1 [Hq1 Hn].
  pose proof (quietly_ok _ _ Hq1) as Hok1. apply wp_bind.
  assert (Hmax : wp (match nfds with Some n => nfds_to_maxfd n | None => mret None end)
    (fun o w' => quietly w w' /\
      forall m, o = Some m -> -1 <= m < 198 /\ forall f, stay f -> f <= m) w1).
  { destruct nfds as [n|]; [|by apply wp_ret]. destruct (Hn n eq_refl) as (T & -> & HT).
    eapply wp_mono; [by apply nfds_to_maxfd_threads|]. intros o w2 [Hq2 Ho].
    split; [by eapply quietly_trans|done]. }
  eapply wp_mono; [exact Hmax|]. intros o w2 [Hq2 Ho]. destruct o as [m|].
  - apply wp_ret. split; [done|]. destruct (Ho m eq_refl) as [Hm Hs].
    split; [unfold i32_MAX; lia|auto].
  - by apply (sysconf_after w).
Qed.
End maxfd.

(** ** The directory *)

Section directory.
Context `{C : Config, !ConfigOk C} {K : Type} `{SK : Sys K} `{KV : KernelView K}
  {KS : KernelSpec K} {R : Rely}.

(** The crate ran for a while. *)
Definition progress (w w' : World (Shared K)) : Prop :=
  threads_ok (kern w') /\ world_env w' = world_env w /\ statics w' = statics w /\
  grows (kern w) (kern w') /\ held (base (kern w')) = held (base (kern w)).

Lemma progress_trans w1 w2 w3 : progress w1 w2 -> progress w2 w3 -> progress w1 w3.
Proof.
  intros (_ & E1 & S1 & I1 & H1) (O2 & E2 & S2 & I2 & H2).
  split_and!; [done|congruence|congruence|by etrans|congruence].
Qed.

Lemma progress_refl w : threads_ok (kern w) -> progress w w.
Proof. by intros Hok. Qed.

Lemma quietly_progress w w' : quietly w w' -> progress w w'.
Proof. intros [[] ?]. done. Qed.

(** The iterator owns an open stream at position [p], the entries [es] are still
    in its buffer, and everything that stays open from [c] up is still to come. *)
Record tstream (it : DirFdIter) (s : Shared K) (c : Z) (es : list (option Z)) (p : Z)
  : Prop := {
  ts_mine : dirfd it ∈ mine s;
  ts_next : dirnext (base s) (dirfd it) = Some p;
  ts_layout : layout it es;
  ts_sorted : strictly_ascending (listed_fds es);
  ts_below : forall f, f ∈ listed_fds es -> f < p;
  ts_limit : p <= i32_MAX + 1;
  ts_minfd : 0 <= minfd it <= c;
  ts_pos : c <= p \/ c = minfd it;
  ts_cover : forall f, stay f -> c <= f -> f ∈ listed_fds es \/ p <= f;
  ts_live : forall f, f ∈ listed_fds es -> minfd it <= f ->
    c <= f < i32_MAX /\ f ∈ seen s;
}.

Lemma tstream_small it s c e es p fd :
  tstream it s c (e :: es) p -> e = Some fd -> fd <= i32_MAX.
Proof.
  intros Hi ->. pose proof (ts_below _ _ _ _ _ Hi fd) as Hb.
  pose proof (ts_limit _ _ _ _ _ Hi). rewrite listed_fds_cons in Hb.
  specialize (Hb ltac:(by left)). lia.
Qed.

Lemma tstream_skip it it1 s c e es p :
  threads_ok s -> tstream it s c (e :: es) p ->
  (forall fd, e = Some fd -> fd < minfd it \/ fd = dirfd it) ->
  layout it1 es -> minfd it1 = minfd it -> dirfd it1 = dirfd it ->
  tstream it1 s c es p.
Proof.
  intros Hok [Ho Hn _ Hs Hb Hl Hm Hpos Hc Hlive] Hskip Hlay Em Ed.
  rewrite listed_fds_cons in *. constructor; rewrite ?Em, ?Ed; auto.
  - destruct e; [|done]. by apply strictly_ascending_cons in Hs as [_ Hs].
  - intros f Hf. apply Hb. destruct e; [by right|done].
  - intros f Hst Hcf. destruct (Hc f Hst Hcf) as [Hin|?]; [|by right].
    destruct e as [g|]; [|by left]. apply elem_of_cons in Hin as [->|?]; [|by left].
    destruct (Hskip g eq_refl) as [?| ->]; [lia|]. by destruct (to_sep _ Hok _ Hst).
  - intros f Hf. apply Hlive. destruct e; [by right|done].
Qed.

Lemma tstream_yield it it1 s c fd es p :
  tstream it s c (Some fd :: es) p -> minfd it <= fd ->
  layout it1 es -> minfd it1 = minfd it -> dirfd it1 = dirfd it ->
  tstream it1 s (fd + 1) es p /\ forall f, stay f -> c <= f -> fd <= f.
Proof.
  intros [Ho Hn _ Hs Hb Hl Hm Hpos Hc Hlive] Hge Hlay Em Ed.
  rewrite listed_fds_cons in *. apply strictly_ascending_cons in Hs as [Hgt Hs].
  rewrite Forall_forall in Hgt.
  assert (Hfd : c <= fd) by (apply Hlive; [by left|done]).
  assert (Hfp : fd < p) by (apply Hb; by left).
  split; [constructor; rewrite ?Em, ?Ed; auto; try lia|].
  - intros f Hf. apply Hb. by right.
  - intros f Hst Hcf. destruct (Hc f Hst ltac:(lia)) as [Hin|?]; [|by right].
    apply elem_of_cons in Hin as [->|?]; [lia|by left].
  - intros f Hf Hmf. specialize (Hgt f Hf). split; [|apply Hlive; [by right|done]].
    destruct (Hlive f ltac:(by right) Hmf). lia.
  - intros f Hst Hcf. destruct (Hc f Hst Hcf) as [[->|Hin]%elem_of_cons|?]; [lia| |lia].
    specialize (Hgt f Hin). lia.
Qed.

(** The postcondition of [next]. *)
Definition dir_post (it : DirFdIter) (w : World (Shared K)) (c : Z)
    (r : result (option Z) * DirFdIter) (w' : World (Shared K)) : Prop :=
  let '(r, it') := r in
  progress w w' /\
  match r with
  | Ok (Some fd) =>
      c <= fd < i32_MAX /\ (forall f, stay f -> c <= f -> fd <= f) /\
      fd ∈ seen (kern w') /\ mine (kern w') = mine (kern w) /\ dirfd it' = dirfd it /\
      fd <> dirfd it /\ exists es p, tstream it' (kern w') (fd + 1) es p
  | Ok None =>
      dirfd it' = -1 /\ mine (kern w') = mine (kern w) ∖ {[dirfd it]} /\
      forall f, stay f -> f < c
  | Err => dirfd it' = dirfd it /\ mine (kern w') = mine (kern w)
  end.

Lemma dir_post_trans it it1 w w1 c r w' :
  progress w w1 -> mine (kern w1) = mine (kern w) -> dirfd it1 = dirfd it ->
  dir_post it1 w1 c r w' -> dir_post it w c r w'.
Proof.
  unfold dir_post. destruct r as [r it']. intros Hp -> -> [Hp1 Hr].
  split; [by eapply progress_trans|done].
Qed.

Lemma consume_entry_threads again it w c e es p :
  threads_ok (kern w) -> tstream it (kern w) c (e :: es) p ->
  (forall it', tstream it' (kern w) c es p -> dirfd it' = dirfd it ->
     wp (again it') (dir_post it w c) w) ->
  wp (consume_entry again it) (dir_post it w c) w.
Proof.
  intros Hok Hi Hagain.
  destruct (consume_entry_eq again it w e es (ts_layout _ _ _ _ _ Hi)) as
    (it1 & Hlay & Em & Ed & Heq); [intros fd; by eapply tstream_small|].
  assert (Hskip : (forall fd, e = Some fd -> fd < minfd it \/ fd = dirfd it) ->
    wp (again it1) (dir_post it w c) w).
  { intros Hs. apply Hagain; [|done]. by eapply tstream_skip. }
  eapply wp_ext; [exact Heq|]. clear Heq.
  destruct e as [fd|]; [|by apply Hskip].
  destruct (Z.leb_spec (minfd it) fd); simpl; [|apply Hskip; intros ? [= <-]; lia].
  destruct (Z.eqb_spec fd (dirfd it)); simpl; [apply Hskip; intros ? [= <-]; lia|].
  apply wp_ret. split; [by apply progress_refl|].
  destruct (ts_live _ _ _ _ _ Hi fd) as [Hr Hseen]; [rewrite listed_fds_cons; by left|done|].
  destruct (tstream_yield it it1 (kern w) c fd es p Hi) as [Hi1 Hmin]; try done.
  split_and!; try done; try lia. by exists es, p.
Qed.

(** Reading the directory, after a burst of the other threads. *)
Lemma wp_getdents_threads d buf (Q : Z * list Z -> World (Shared K) -> Prop) w p :
  has_dirfd target = true -> threads_ok (kern w) -> d ∈ mine (kern w) ->
  dirnext (base (kern w)) d = Some p ->
  (forall n data w', progress w w' -> mine (kern w') = mine (kern w) ->
     (n = 0 -> forall f, stay f -> f < p) ->
     (0 < n -> n = Z.of_nat (length data) /\ n <= Z.of_nat (length buf) /\
        exists es p', dirents data es /\ dirnext (base (kern w')) d = Some p' /\
          p < p' <= i32_MAX + 1 /\ strictly_ascending (listed_fds es) /\
          (forall f, f ∈ listed_fds es -> p <= f < p' /\ f < i32_MAX /\ f ∈ seen (kern w')) /\
          (forall f, stay f -> p <= f < p' -> f ∈ listed_fds es)) ->
     Q (n, take (length buf) (data ++ drop (length data) buf)) w') ->
  wp (getdents d buf) Q w.
Proof.
  intros Ht Hok Hd Hp HQ. destruct (turn_evolves _ Hok) as (He & Hseen & _).
  set (s1 := turn (kern w)) in *. pose proof (ev_ok _ _ He) as [_ _ _ O2 O3 O4].
  destruct (ev_mine _ _ He d Hd) as [Hfd Hp1]. rewrite Hp in Hp1.
  assert (Hopen : is_Some (fds (base s1) !! d)).
  { apply elem_of_dom, O2. by rewrite (ev_same _ _ He). }
  unfold getdents. apply wp_bind, wp_call. intros [n data] s2 Hk. apply wp_ret.
  assert (exists call k', native_getdents target call /\
    sys_getdents call d (Z.of_nat (length buf)) (base s1) = ((n, data), k') /\
    s2 = set_base k' s1) as (call & k' & Hc & Hcall & ->).
  { destruct Hopen as [fl Hfl]. pose proof (fds_wf _ _ _ Hfl) as [Hdr _].
    rewrite as_u32_small in Hk by (unfold i32_MAX, u32_MAX in *; lia).
    destruct target; try discriminate Ht; simpl in Hk; unfold after in Hk; fold s1 in Hk;
      destruct (sys_getdents _ d _ (base s1)) as [[n' data'] k'] eqn:Hcall;
      injection Hk as -> -> <-; eexists _, k'; (split_and!; [reflexivity|exact Hcall|done]). }
  destruct (getdents_spec _ _ _ _ _ _ _ _ Hc Hcall Hopen Hp1) as (H1 & H2 & H3 & H4).
  apply HQ.
  - split_and!; [|unfold world_env; simpl; rewrite H2; apply He|done| |].
    + apply (threads_ok_call s1 k' (mine s1)); rewrite ?H1; try done. by apply He.
    + etrans; [apply He|apply (set_base_grows k' (mine s1))].
    + etrans; [by apply held_same|apply He].
  - apply He.
  - intros Hn f Hs. destruct (Z.lt_ge_cases f p); [done|]. destruct (O3 f Hs) as [x Hx].
    rewrite H3 in Hx by done. done.
  - intros Hn. destruct (H4 Hn) as (A1 & A2 & es & p' & A3 & A4 & A5 & A6 & A7).
    split_and!; [done|done|]. exists es, p'. split_and!; try done; try lia.
    + intros f Hf. apply A7 in Hf as [Hf [x Hx]]. pose proof (fds_wf _ _ _ Hx) as [? _].
      split_and!; try lia. apply Hseen, elem_of_dom. by exists x.
    + intros f Hs Hf. apply A7. auto.
Qed.

(** Closing one of the crate's descriptors. *)
Lemma wp_close_threads d (Q : unit -> World (Shared K) -> Prop) w :
  threads_ok (kern w) -> ~ stay d ->
  (forall w', progress w w' -> mine (kern w') = mine (kern w) ∖ {[d]} -> Q tt w') ->
  wp (libc_close d) Q w.
Proof.
  intros Hok Hd HQ. destruct (turn_evolves _ Hok) as (He & _ & _).
  pose proof (ev_ok _ _ He) as [_ _ _ O2 O3 O4].
  unfold libc_close. apply wp_bind, wp_call. intros r s2. simpl. unfold after.
  destruct (sys_close d (base (turn (kern w)))) as [r' k'] eqn:Hk. intros [= -> <-].
  destruct (close_spec _ _ _ _ Hk) as [Hf [He2 _]]. apply wp_ret, HQ; [|done].
  split_and!; [|unfold world_env; simpl; rewrite He2; apply He|done| |]; last first.
  { etrans; [apply held_eq|apply He]. intros f Hs _. simpl. rewrite Hf.
    by rewrite lookup_delete_ne by (by intros ->). }
  { etrans; [apply He|apply set_base_grows]. }
  apply threads_ok_call; simpl in *; rewrite ?Hf; [by apply He|done| | |].
  - intros x [Hx Hne]%elem_of_difference. rewrite elem_of_dom, lookup_delete_ne by set_solver.
    apply elem_of_dom. auto.
  - intros f Hs. rewrite lookup_delete_ne by (intros ->; done). auto.
  - intros f Hs Hx%elem_of_difference. destruct Hx as [Hx _]. by apply (O4 f Hs).
Qed.

(** The stream after a read. *)
Lemma tstream_refill it s s' c p n data es p' :
  tstream it s c [] p -> mine s' = mine s ->
  n = Z.of_nat (length data) -> n <= Z.of_nat (length (dirent_buf it)) ->
  dirents data es -> dirnext (base s') (dirfd it) = Some p' -> p < p' <= i32_MAX + 1 ->
  strictly_ascending (listed_fds es) ->
  (forall f, f ∈ listed_fds es -> p <= f < p' /\ f < i32_MAX /\ f ∈ seen s') ->
  (forall f, stay f -> p <= f < p' -> f ∈ listed_fds es) ->
  tstream (set_buffer
      (take (length (dirent_buf it)) (data ++ drop (length data) (dirent_buf it))) n 0 it)
    s' c es p'.
Proof.
  intros [Ho Hn Hlay _ _ Hl Hm Hpos Hc _] Hmine Hlen Hle Hdir Hp' Hpp Hs Hes Hst.
  constructor; simpl; rewrite ?Hmine; auto.
  - by eapply layout_refill.
  - intros f Hf%Hes. lia.
  - lia.
  - destruct Hpos; [left; lia|by right].
  - intros f Hsf Hcf. destruct (Hc f Hsf Hcf) as [[]%not_elem_of_nil|?].
    destruct (Z.lt_ge_cases f p'); [left; auto|by right].
  - intros f Hf Hmf. destruct (Hes f Hf) as (H1 & H2 & H3). split; [|done].
    destruct Hpos; lia.
Qed.

Lemma next_loop_threads fuel it w c es p :
  has_dirfd target = true -> threads_ok (kern w) -> tstream it (kern w) c es p ->
  (stream_measure es p < fuel)%nat ->
  wp (next_loop fuel it) (dir_post it w c) w.
Proof.
  intros Ht. revert it w es p. induction fuel as [|fuel IH]; intros it w es p Hok Hi Hf; [lia|].
  simpl. rewrite (layout_test _ _ (ts_layout _ _ _ _ _ Hi)). destruct es as [|e es]; last first.
  { apply consume_entry_threads with (e := e) (es := es) (p := p); [done|done|].
    intros it' Hi' Hd. eapply wp_mono.
    - apply (IH it' w es p Hok Hi'). unfold stream_measure in *. simpl in *. lia.
    - intros r w' Hr. by eapply dir_post_trans; [by apply progress_refl|..|exact Hr]. }
  apply wp_bind. pose proof (ts_mine _ _ _ _ _ Hi) as Hmine.
  eapply wp_getdents_threads; [done|done|done|by eapply ts_next|].
  intros n bytes w1 Hp1 Hm1 H0 Hpos. cbn beta iota. pose proof (proj1 Hp1) as Hok1.
  destruct (Z.compare_spec n 0).
  - apply wp_bind, wp_close_threads; [done| |].
    { intros Hs. by apply (to_sep _ Hok _ Hs). }
    intros w2 Hp2 Hm2. apply wp_ret. split; [by eapply progress_trans|].
    rewrite Hm2, Hm1. split_and!; [done|done|]. intros f Hs.
    destruct (Z.lt_ge_cases f c); [done|].
    destruct (ts_cover _ _ _ _ _ Hi f Hs) as [[]%not_elem_of_nil|?]; [done|].
    specialize (H0 ltac:(done) f Hs). lia.
  - apply wp_ret. done.
  - destruct Hpos as (Hn & Hle & es' & p' & Hdir' & Hp' & Hpp & Hs & Hes & Hst); [done|].
    pose proof (tstream_refill it _ _ c p n bytes es' p' Hi Hm1 Hn Hle Hdir' Hp' Hpp Hs Hes Hst)
      as Hi'.
    pose proof (dirents_length _ _ Hdir') as Hlen.
    rewrite (proj1 (ts_layout _ _ _ _ _ Hi)) in Hle.
    destruct es' as [|e es']; [inversion Hdir'; subst; simpl in *; lia|].
    eapply wp_mono; [apply (consume_entry_threads _ _ w1 c e es' p' Hok1 Hi')|].
    + intros it' Hi2 Hd. eapply wp_mono.
      * apply (IH it' w1 es' p' Hok1 Hi2). unfold stream_measure in *. simpl in *.
        assert (Z.to_nat (i32_MAX + 1 - p) >= S (Z.to_nat (i32_MAX + 1 - p')))%nat by lia. nia.
      * intros r w' Hr. by eapply dir_post_trans; [by apply progress_refl|..|exact Hr].
    + intros r w' Hr. by eapply dir_post_trans; [exact Hp1|..|exact Hr].
Qed.

Lemma tstream_fuel it s c es p fuel :
  tstream it s c es p -> enough_fuel fuel -> (stream_measure es p < fuel)%nat.
Proof.
  intros Hi. apply measure_fuel; [by eapply layout_length, ts_layout| |by eapply ts_limit].
  by eapply dirnext_wf, ts_next.
Qed.

(** The iterator is exhausted and nothing stays open from [c] up, or it owns a
    stream that has everything from [c] up still to come. *)
Definition dir_ok (it : DirFdIter) (s : Shared K) (c : Z) : Prop :=
  (dirfd it < 0 /\ forall f, stay f -> f < c) \/ exists es p, tstream it s c es p.

(** The descriptor that a directory iterator owns. *)
Definition dir_owned (it : DirFdIter) : gset Z := if 0 <=? dirfd it then {[dirfd it]} else ∅.

Lemma dir_owned_active it : 0 <= dirfd it -> dir_owned it = {[dirfd it]}.
Proof. intros H. unfold dir_owned. by rewrite (proj2 (Z.leb_le _ _)). Qed.

Lemma dir_owned_closed it : dirfd it < 0 -> dir_owned it = ∅.
Proof. intros H. unfold dir_owned. by rewrite (proj2 (Z.leb_gt _ _)). Qed.

Lemma mine_nonneg s d : threads_ok s -> d ∈ mine s -> 0 <= d.
Proof.
  intros Hok [fl Hfl]%(to_mine _ Hok)%elem_of_dom. apply fds_wf in Hfl. lia.
Qed.

Lemma dir_next_threads fuel it w c :
  has_dirfd target = true -> enough_fuel fuel -> threads_ok (kern w) ->
  mine (kern w) = dir_owned it -> dir_ok it (kern w) c ->
  wp (DirFdIter.next fuel it) (fun '(r, it') w' =>
    progress w w' /\ mine (kern w') = dir_owned it' /\
    match r with
    | Ok (Some fd) =>
        c <= fd < i32_MAX /\ (forall f, stay f -> c <= f -> fd <= f) /\
        fd ∈ seen (kern w') /\ dir_ok it' (kern w') (fd + 1) /\ fd ∉ mine (kern w')
    | Ok None => dirfd it' < 0 /\ forall f, stay f -> f < c
    | Err => True
    end) w.
Proof.
  intros Ht Hf Hok Hm [[Hd Hnone]|(es & p & Hi)]; unfold DirFdIter.next.
  { rewrite (proj2 (Z.ltb_lt _ _)) by done. apply wp_ret. by split_and!. }
  pose proof (mine_nonneg _ _ Hok (ts_mine _ _ _ _ _ Hi)) as Hd.
  rewrite (proj2 (Z.ltb_ge _ _)) by done.
  eapply wp_mono; [apply (next_loop_threads fuel it w c es p Ht Hok Hi); by eapply tstream_fuel|].
  intros [r it'] w' [Hp Hr]. split; [done|]. rewrite dir_owned_active in Hm by done.
  destruct r as [[fd|]|].
  - destruct Hr as (H1 & H2 & H3 & H4 & H5 & H6 & H7). rewrite (dir_owned_active it') by lia.
    split_and!; try done; [congruence|lia|lia|by right|].
    rewrite H4, Hm. by intros ->%elem_of_singleton.
  - destruct Hr as (H1 & H2 & H3). rewrite (dir_owned_closed it') by lia.
    split_and!; [|lia|done]. rewrite H2, Hm. apply difference_diag_L.
  - destruct Hr as (H1 & H2). rewrite (dir_owned_active it') by lia. split; [congruence|done].
Qed.

(** Dropping the iterator closes what it owns. *)
Lemma drop_iter_threads it w :
  threads_ok (kern w) -> mine (kern w) = dir_owned it ->
  wp (drop_iter it) (fun _ w' => progress w w' /\ mine (kern w') = ∅) w.
Proof.
  intros Hok Hm. unfold drop_iter, dir_owned in *. destruct (0 <=? dirfd it).
  - apply wp_close_threads; [done| |].
    { intros Hs. apply (to_sep _ Hok _ Hs). rewrite Hm. by apply elem_of_singleton. }
    intros w' Hp Hm'. split; [done|]. rewrite Hm', Hm. apply difference_diag_L.
  - apply wp_ret. by split.
Qed.
End directory.

(** ** The iterator *)

Section iterator.
Context `{C : Config, !ConfigOk C} {K : Type} `{SK : Sys K} `{KV : KernelView K}
  {KS : KernelSpec K} {R : Rely}.

Definition owned (it : FdIter) : gset Z :=
  match dirfd_iter it with Some d => dir_owned d | None => ∅ end.

Record iter_inv (it : FdIter) (w : World (Shared K)) : Prop := {
  ii_ok : threads_ok (kern w);
  ii_curfd : 0 <= curfd it <= i32_MAX;
  ii_mine : mine (kern w) = owned it;
  ii_dir : forall d, dirfd_iter it = Some d ->
    has_dirfd target = true /\ dir_ok d (kern w) (curfd it);
  ii_max : forall m, maxfd it = Some m -> covers m (world_env w);
  ii_safe : nfds_safe it;
}.

(** What [next] promises: no descriptor that stays open is passed over. *)
Definition next_ok (it : FdIter) (w : World (Shared K)) (r : option Z * FdIter)
    (w' : World (Shared K)) : Prop :=
  let '(o, it') := r in
  progress w w' /\ iter_inv it' w' /\ possible it' = possible it /\
  match o with
  | Some fd =>
      curfd it <= fd < i32_MAX /\ curfd it' = fd + 1 /\
      (forall f, stay f -> curfd it <= f -> fd <= f) /\
      (possible it = false -> fd ∈ seen (kern w')) /\ fd ∉ mine (kern w')
  | None =>
      forall f, stay f -> curfd it <= f -> f <= scan_limit (world_env w) -> False
  end.

Lemma scan_loop_threads fuel m it w :
  dirfd_iter it = None -> maxfd it = Some m -> iter_inv it w ->
  (Z.to_nat (m + 1 - curfd it) < fuel)%nat ->
  wp (scan_loop fuel m it) (next_ok it w) w.
Proof.
  intros Hd Hm. revert it w Hd Hm. induction fuel as [|fuel IH]; intros it w Hd Hm Hi Hf; [lia|].
  simpl. pose proof Hi as [Hok Hc Hmine _ Hmax Hsafe]. destruct (Hmax m Hm) as [Hmr Hcov].
  destruct (Z.leb_spec (curfd it) m); last first.
  { apply wp_ret. split_and!; [by apply progress_refl|done|done|].
    intros f Hs Hcf Hl. specialize (Hcov f Hs Hl). lia. }
  apply wp_bind. eapply wp_lift; [apply i32_add_ok; unfold i32_MIN, i32_MAX in *; lia|].
  set (it1 := set_curfd (curfd it + 1) it).
  assert (Hinv : forall w1, quietly w w1 -> iter_inv it1 w1).
  { intros w1 Hq. constructor; simpl; [by eapply quietly_ok|lia| |by rewrite Hd| |done].
    - rewrite (ev_same _ _ (proj1 Hq)), Hmine. done.
    - intros m' Hm'. rewrite (quietly_env _ _ Hq). auto. }
  assert (Hyield : forall w1, quietly w w1 ->
    (possible it = false -> curfd it ∈ seen (kern w1)) -> next_ok it w (Some (curfd it), it1) w1).
  { intros w1 Hq Hseen. split_and!; try done; try (simpl; lia); [|by apply Hinv|].
    - by apply quietly_progress.
    - rewrite (ev_same _ _ (proj1 Hq)), Hmine. unfold owned. rewrite Hd. apply not_elem_of_empty. }
  apply wp_bind. simpl. destruct (possible it) eqn:Hp.
  { apply wp_ret, wp_ret, Hyield; [by apply quietly_refl|done]. }
  apply wp_is_fd_valid_threads; [done|].
  intros b w1 Hq Hb _. destruct b; [by apply wp_ret, Hyield; [done|intros _; apply Hb]|].
  eapply wp_mono; [apply (IH it1 w1); [done|done|by apply Hinv|simpl; lia]|].
  intros [o it'] w' (P1 & P2 & P3 & P4).
  split_and!; [eapply progress_trans; [by apply quietly_progress|done]|done|done|].
  simpl in P4. rewrite (quietly_env _ _ Hq) in P4. destruct o as [fd|].
  - destruct P4 as (A1 & A2 & A3 & A4 & A5). split_and!; try done; try lia.
    intros f Hs Hcf. destruct (decide (f = curfd it)) as [->|]; [done|]. apply A3; [done|lia].
  - intros f Hs Hcf Hl. destruct (decide (f = curfd it)) as [->|]; [done|].
    apply (P4 f Hs); [lia|done].
Qed.

Lemma scan_threads fuel it w :
  dirfd_iter it = None -> iter_inv it w -> enough_fuel fuel ->
  wp (scan fuel it) (next_ok it w) w.
Proof.
  intros Hd Hi Hf. unfold scan. apply wp_bind. unfold get_maxfd.
  pose proof Hi as [Hok Hc Hmine _ Hmax Hsafe].
  destruct (maxfd it) as [m|] eqn:Hm.
  { apply wp_ret. apply scan_loop_threads; try done.
    apply scan_fuel; [|lia|done]. apply (Hmax m eq_refl). }
  apply wp_bind. eapply wp_mono; [by apply get_maxfd_direct_threads|].
  intros m w1 [Hq Hcov]. apply wp_bind. eapply wp_lift.
  { apply debug_assert_ok, Z.leb_le. destruct Hcov. lia. }
  apply wp_ret. cbn beta iota.
  eapply wp_mono; [apply (scan_loop_threads fuel m (set_maxfd m it) w1); try done|].
  - constructor; simpl; [by eapply quietly_ok|done| |by rewrite Hd| |done].
    + rewrite (ev_same _ _ (proj1 Hq)), Hmine. done.
    + intros m' [= <-]. by rewrite (quietly_env _ _ Hq).
  - apply scan_fuel; [apply Hcov|simpl; lia|done].
  - intros [o it'] w' (P1 & P2 & P3 & P4).
    split_and!; [eapply progress_trans; [by apply quietly_progress|done]|done|done|].
    simpl in P4. by rewrite (quietly_env _ _ Hq) in P4.
Qed.

(** [FdIter::next] among other threads; if the directory fails in the middle,
    the fallback loop goes on where it stopped. *)
Lemma fd_next_threads fuel it w :
  iter_inv it w -> enough_fuel fuel -> wp (FdIter.next fuel it) (next_ok it w) w.
Proof.
  intros Hi Hf. unfold FdIter.next. destruct (dirfd_iter it) as [d|] eqn:Hd; last first.
  { destruct (has_dirfd target); by apply scan_threads. }
  pose proof Hi as [Hok Hc Hmine Hdir Hmax Hsafe]. destruct (Hdir d Hd) as [Ht Hdo]. rewrite Ht.
  unfold owned in Hmine. rewrite Hd in Hmine.
  apply wp_bind. eapply wp_mono; [by apply (dir_next_threads fuel d w (curfd it))|].
  intros [r d'] w1 (Hp & Hm & Hr). cbn beta iota. pose proof Hp as (Hok1 & He1 & _).
  assert (Hinv : forall it', dirfd_iter it' = Some d' -> maxfd it' = maxfd it ->
    skip_nfds it' = skip_nfds it -> 0 <= curfd it' <= i32_MAX ->
    dir_ok d' (kern w1) (curfd it') -> iter_inv it' w1).
  { intros it' E1 E2 E3 E4 E5. constructor; [done|done| | | |].
    - unfold owned. by rewrite E1.
    - rewrite E1. by intros ? [= <-].
    - rewrite E2, He1. auto.
    - unfold nfds_safe. by rewrite E3. }
  destruct r as [[fd|]|].
  - destruct Hr as (H1 & H2 & H3 & H4 & H5).
    apply wp_bind. eapply wp_lift; [apply debug_assert_ok, Z.leb_le; lia|].
    apply wp_bind. eapply wp_lift.
    { apply i32_add_ok. unfold i32_MIN, i32_MAX in *. lia. }
    apply wp_ret. split_and!; try done; try lia. apply Hinv; try done. simpl. lia.
  - destruct Hr as (H1 & H2). apply wp_ret. split_and!; try done.
    + apply Hinv; try done. by left.
    + intros f Hs Hcf _. specialize (H2 f Hs). lia.
  - apply wp_bind. eapply wp_mono; [by apply (drop_iter_threads)|].
    intros [] w2 [Hp2 Hm2]. assert (Hp' : progress w w2) by (by eapply progress_trans).
    eapply wp_mono; [apply (scan_threads fuel (set_dirfd_iter None it) w2); try done|].
    + pose proof Hp' as (Hok2 & He2 & _). constructor; simpl; [done|done|done|done| |done].
      rewrite He2. auto.
    + intros [o it'] w' (P1 & P2 & P3 & P4). split_and!; [by eapply progress_trans|done|done|].
      destruct Hp' as (_ & He2 & _). simpl in P4. by rewrite He2 in P4.
Qed.

Lemma drop_fditer_threads it w :
  iter_inv it w -> wp (drop_fditer it) (fun _ w' => progress w w' /\ mine (kern w') = ∅) w.
Proof.
  intros [Hok _ Hm _ _ _]. unfold drop_fditer, owned in *. destruct (dirfd_iter it).
  - by apply drop_iter_threads.
  - apply wp_ret. by split.
Qed.

(** What iterating to the end yields. *)
Record survives (it : FdIter) (w w' : World (Shared K)) (l : list Z) : Prop := {
  sv_progress : progress w w';
  sv_mine : mine (kern w') = ∅;
  sv_ascending : strictly_ascending l;
  sv_from : forall f, f ∈ l -> curfd it <= f < i32_MAX;
  sv_seen : possible it = false -> forall f, f ∈ l -> f ∈ seen (kern w');
  sv_all : forall f, stay f -> curfd it <= f <= scan_limit (world_env w) -> f ∈ l;
}.

Lemma collect_threads n fuel it w :
  iter_inv it w -> enough_fuel fuel -> (steps_left it < n)%nat ->
  wp (collect n fuel it) (fun l w' => survives it w w' l) w.
Proof.
  intros Hi Hf. revert it w Hi. induction n as [|n IH]; intros it w Hi Hn; [lia|].
  simpl. apply wp_bind. eapply wp_mono; [by apply fd_next_threads|].
  intros [o it'] w1 (Hp & Hi' & Hpos & Ho). cbn beta iota. destruct o as [fd|].
  - destruct Ho as (H1 & H2 & H3 & H4 & _). apply wp_bind.
    eapply wp_mono; [apply (IH it' w1); [done|unfold steps_left in *; lia]|].
    intros l w2 [V1 V2 V3 V4 V5 V6]. apply wp_ret.
    pose proof Hp as (_ & He & _). constructor; [by eapply progress_trans|done|..].
    + apply strictly_ascending_cons. split; [|done]. apply Forall_forall.
      intros f Hin. specialize (V4 f Hin). lia.
    + intros f [->|Hin]%elem_of_cons; [lia|]. specialize (V4 f Hin). lia.
    + intros Hpf f [->|Hin]%elem_of_cons.
      * apply V1. auto.
      * apply V5; [congruence|done].
    + intros f Hs Hfr. apply elem_of_cons. destruct (decide (f = fd)) as [->|]; [by left|].
      right. apply V6; [done|]. rewrite He. specialize (H3 f Hs ltac:(lia)). lia.
  - apply wp_bind. eapply wp_mono; [by apply drop_fditer_threads|].
    intros [] w2 [Hp2 Hm2]. apply wp_ret. constructor; [by eapply progress_trans|done|constructor| | |].
    + intros f Hx. by apply not_elem_of_nil in Hx.
    + intros _ f Hx. by apply not_elem_of_nil in Hx.
    + intros f Hs Hfr. destruct (Ho f Hs); lia.
Qed.

(** ** Creating an iterator *)

(** The crate ran for a while, and its statics are still right. *)
Definition goes_on (w w' : World (Shared K)) : Prop :=
  threads_ok (kern w') /\ world_env w' = world_env w /\
  statics_ok (world_env w') (statics w') /\ grows (kern w) (kern w') /\
  held (base (kern w')) = held (base (kern w)).

Lemma progress_goes_on w w' :
  statics_ok (world_env w) (statics w) -> progress w w' -> goes_on w w'.
Proof. intros Hok (H1 & H2 & H3 & H4 & H5). split_and!; try done. by rewrite H2, H3. Qed.

Lemma goes_on_trans w1 w2 w3 : goes_on w1 w2 -> goes_on w2 w3 -> goes_on w1 w3.
Proof.
  intros (_ & E1 & _ & I1 & H1) (O2 & E2 & S2 & I2 & H2).
  split_and!; [done|congruence|done|by etrans|congruence].
Qed.

Lemma goes_on_published w w' :
  goes_on w w' -> Forall (statics_ok (world_env w)) (published (kern w')).
Proof. intros ([_ Hp _ _ _ _] & <- & _). exact Hp. Qed.

Lemma evolves_goes_on (w w' : World (Shared K)) :
  evolves (kern w) (kern w') -> statics_ok (world_env w') (statics w') -> goes_on w w'.
Proof. intros [E1 E2 E3 E4 E5 _ E7] Hst. by split_and!. Qed.

Lemma is_wsl_1_threads w :
  threads_ok (kern w) -> statics_ok (world_env w) (statics w) ->
  wp is_wsl_1 (fun b w' => goes_on w w' /\ mine (kern w') = mine (kern w) /\
    (b = true <-> wsl1_release (env_release (world_env w)))) w.
Proof.
  intros Hok Hst. unfold is_wsl_1. apply wp_bind, wp_load_threads; [done|].
  intros w0 He0 Hst0. specialize (Hst0 Hst).
  pose proof (evolves_goes_on _ _ He0 Hst0) as Hg0. pose proof (ev_same _ _ He0) as Hm0.
  pose proof Hg0 as (Hok0 & Henv0 & _). change (env (base (kern w0))) with (world_env w0) in Hst0.
  destruct (Z.eqb_spec (IS_WSL1 (statics w0)) 1) as [H1|_].
  { apply wp_ret. split; [done|]. split; [done|]. split; [|done].
    intros _. rewrite <- Henv0. by apply (statics_wsl_1 _ _ Hst0). }
  destruct (Z.eqb_spec (IS_WSL1 (statics w0)) 0) as [H0|_].
  { apply wp_ret. split; [done|]. split; [done|]. split; [done|]. rewrite <- Henv0.
    intros Hw. by destruct (statics_wsl_0 _ _ Hst0). }
  apply wp_bind, wp_look; [done| |].
  { intros k r k' Hk. by apply uname_spec in Hk as [_ ?]. }
  intros k r w1 Hk Hq Hm. apply uname_spec in Hk as [-> _]. rewrite (mo_env _ _ _ Hm).
  destruct (wsl_answer_spec _ _ Hst0) as [Hw Hst'].
  destruct Hq as [He1 Es]. pose proof (ev_env _ _ He1) as Henv1.
  assert (Hstore : forall s, evolves (kern w0) s -> env (base s) = world_env w0) by
    (intros s Hs; apply (ev_env _ _ Hs)).
  apply wp_bind, wp_store_threads; [by apply (ev_ok _ _ He1)|by rewrite Es, Henv1|].
  intros s Hs. pose proof (evolves_trans _ _ _ He1 Hs) as He2.
  apply wp_ret. split_and!.
  - eapply goes_on_trans; [exact Hg0|]. apply evolves_goes_on; [exact He2|].
    unfold world_env. simpl. rewrite Es, (Hstore _ He2). exact Hst'.
  - simpl. rewrite (ev_same _ _ He2). exact Hm0.
  - by rewrite <- Henv0.
Qed.

(** What [open] may return: nothing, or a descriptor that is the crate's, which
    lists the descriptors if the path is one that does. *)
Definition open_result (listing : Prop) (r : Z) (w' : World (Shared K)) : Prop :=
  (r < 0 /\ mine (kern w') = ∅) \/
  (0 <= r /\ mine (kern w') = {[r]} /\
   (listing -> exists p, dirnext (base (kern w')) r = Some p /\ p <= 0)).

Lemma wp_open_threads path flags (Q : Z -> World (Shared K) -> Prop) w :
  threads_ok (kern w) -> mine (kern w) = ∅ ->
  (forall r w' k, progress w w' -> open_result (lists_fds target (world_env w) path) r w' ->
     env k = world_env w -> sys_open path flags k = (r, base (kern w')) -> Q r w') ->
  wp (libc_open path flags) Q w.
Proof.
  intros Hok Hm HQ. destruct (turn_evolves _ Hok) as (He & _ & _).
  pose proof He as [[_ _ _ O2 O3 O4] E2 E3 _ E5 _ E7]. set (s1 := turn (kern w)) in *.
  unfold libc_open. apply wp_call. intros r s2. simpl. unfold after. fold s1.
  destruct (sys_open path flags (base s1)) as [r' k'] eqn:Hk. intros [= -> <-].
  assert (Hmine : mine s1 = ∅) by (rewrite E3; exact Hm).
  apply (HQ r _ (base s1)); [| |done|by destruct (0 <=? r)].
  - destruct (open_spec _ _ _ _ _ Hk) as [(Hr & V)|(Hr & Hnone & Hev & [fl Hfl] & Hd & _)].
    + rewrite (proj2 (Z.leb_gt _ _)) by done.
      destruct (same_view_evolves s1 k' (ev_ok _ _ He) V) as [A1 A2 _ _ A5 _ A7].
      split_and!; [done|unfold world_env; simpl in *; congruence|done|by etrans|by etrans].
    + rewrite (proj2 (Z.leb_le _ _)) by done.
      assert (Hns : forall f, stay f -> f <> r).
      { intros f Hs ->. destruct (O3 r Hs) as [? Hx]. congruence. }
      split_and!; [|unfold world_env; simpl; congruence|done| |]; last first.
      { etrans; [apply held_eq|exact E7]. intros f Hs _. simpl. rewrite Hfl.
        by rewrite lookup_insert_ne by (symmetry; auto). }
      { etrans; [exact E5|apply set_base_grows]. }
      apply threads_ok_call; simpl; rewrite ?Hfl; [by apply He|done| | |].
      * rewrite Hm. intros d [->%elem_of_singleton|[]%not_elem_of_empty]%elem_of_union.
        rewrite elem_of_dom, lookup_insert_eq. by eexists.
      * intros f Hs. rewrite lookup_insert_ne by (symmetry; auto). auto.
      * rewrite Hm. intros f Hs [->%elem_of_singleton|[]%not_elem_of_empty]%elem_of_union.
        by apply (Hns r).
  - destruct (open_spec _ _ _ _ _ Hk) as [(Hr & V)|(Hr & _ & _ & _ & _ & Hl)].
    + left. by rewrite (proj2 (Z.leb_gt _ _)) by done.
    + right. rewrite (proj2 (Z.leb_le _ _)) by done. simpl. split_and!; [done| |].
      * rewrite Hm. apply union_empty_r_L.
      * intros Hx. apply Hl. by rewrite E2.
Qed.

Definition open_post (w : World (Shared K)) (o : option Z) (w' : World (Shared K)) : Prop :=
  goes_on w w' /\
  match o with Some d => open_result True d w' | None => mine (kern w') = ∅ end.

Lemma open_one_threads path flags w :
  threads_ok (kern w) -> mine (kern w) = ∅ -> statics_ok (world_env w) (statics w) ->
  lists_fds target (world_env w) path ->
  wp (d ← libc_open path flags; mret (Some d)) (open_post w) w.
Proof.
  intros Hok Hm Hst Hl. apply wp_bind, wp_open_threads; [done|done|].
  intros r w' k Hp Ho _ _. apply wp_ret. split; [by apply progress_goes_on|].
  destruct Ho as [?|(H1 & H2 & H3)]; [by left|right]. auto.
Qed.

Lemma open_linux_threads w :
  target = linux -> threads_ok (kern w) -> mine (kern w) = ∅ ->
  statics_ok (world_env w) (statics w) -> wp open_dirfd (open_post w) w.
Proof.
  intros Ht Hok Hm Hst. unfold open_dirfd. rewrite Ht. apply wp_bind.
  eapply wp_mono; [by apply is_wsl_1_threads|].
  intros wsl w1 (Hg & Hm1 & Hw). rewrite Hm in Hm1. pose proof Hg as (Hok1 & He1 & Hst1 & _).
  destruct wsl; [by apply wp_ret|].
  eapply wp_mono; [apply open_one_threads; [done|done|done|]|].
  - rewrite He1, Ht. split; [done|]. intros Hx. by apply Hw in Hx.
  - intros o w2 [H1 H2]. split; [by eapply goes_on_trans|done].
Qed.

Lemma open_sun_threads w :
  target = solaris \/ target = illumos -> threads_ok (kern w) -> mine (kern w) = ∅ ->
  statics_ok (world_env w) (statics w) -> wp open_dirfd (open_post w) w.
Proof.
  intros Ht Hok Hm Hst.
  assert (Hl : forall e path, path = "/dev/fd"%string \/ path = "/proc/self/fd"%string ->
    lists_fds target e path).
  { intros e path Hp. destruct Ht as [-> | ->]; done. }
  assert (wp (fd ← libc_open "/dev/fd" [O_RDONLY; O_CLOEXEC];
      if fd <? 0 then fd ← libc_open "/proc/self/fd" [O_RDONLY; O_CLOEXEC]; mret (Some fd)
      else mret (Some fd)) (open_post w) w) as Hwp.
  { apply wp_bind, wp_open_threads; [done|done|]. intros r w1 k Hp Hr _ _.
    pose proof (progress_goes_on _ _ Hst Hp) as Hg. pose proof Hg as (Hok1 & He1 & Hst1 & _).
    destruct Hr as [[Hr Hm1]|(Hr & Hm1 & Hs)].
    - rewrite (proj2 (Z.ltb_lt _ _)) by done.
      eapply wp_mono; [apply open_one_threads; [done|done|done|by auto]|].
      intros o w2 [H1 H2]. split; [by eapply goes_on_trans|done].
    - rewrite (proj2 (Z.ltb_ge _ _)) by done. apply wp_ret. split; [done|]. right. auto 6. }
  unfold open_dirfd. destruct Ht as [-> | ->]; exact Hwp.
Qed.

(** FreeBSD: the two calls of [stat] may come much later than [open]; the
    descriptor is the crate's, so it is still the same directory. *)
Lemma open_freebsd_threads w :
  target = freebsd -> threads_ok (kern w) -> mine (kern w) = ∅ ->
  statics_ok (world_env w) (statics w) -> wp open_dirfd (open_post w) w.
Proof.
  intros Ht Hok Hm Hst. unfold open_dirfd. rewrite Ht.
  apply wp_bind, wp_open_threads; [done|done|]. intros d w1 k0 Hp1 Hr He0 Hopen.
  destruct Hr as [[Hd Hm1]|(Hd & Hm1 & Hlist)].
  { rewrite (proj2 (Z.leb_gt _ _)) by done. apply wp_ret. split; [by apply progress_goes_on|].
    by left. }
  rewrite (proj2 (Z.leb_le _ _)) by done. pose proof Hp1 as (Hok1 & He1 & _).
  assert (Hclose : forall w2, progress w w2 -> mine (kern w2) = {[d]} ->
    wp (libc_close d;; mret (Some (-1))) (open_post w) w2).
  { intros w2 Hp2 Hm2. pose proof Hp2 as (Hok2 & _). apply wp_bind, wp_close_threads; [done| |].
    - intros Hs. apply (to_sep _ Hok2 _ Hs). rewrite Hm2. by apply elem_of_singleton.
    - intros w3 Hp3 Hm3. apply wp_ret. split.
      + apply progress_goes_on; [done|]. by eapply progress_trans.
      + left. split; [lia|]. rewrite Hm3, Hm2. apply difference_diag_L. }
  assert (Hdm : d ∈ mine (kern w1)) by (rewrite Hm1; by apply elem_of_singleton).
  apply wp_bind, wp_look; [done| |].
  { intros k r k' Hk. by apply stat_spec in Hk. }
  intros k1 [r1 dev] w2 Hstat Hq2 Hmo2. cbn beta iota.
  pose proof (progress_trans _ _ _ Hp1 (quietly_progress _ _ Hq2)) as Hp2.
  pose proof (quietly_ok _ _ Hq2) as Hok2. pose proof (ev_same _ _ (proj1 Hq2)) as Hm2.
  apply wp_bind. destruct (Z.eqb_spec r1 0) as [->|Hne]; simpl; last first.
  { apply wp_ret, Hclose; [done|congruence]. }
  apply wp_bind, wp_look; [done| |].
  { intros k r k' Hk. by apply fstat_spec in Hk. }
  intros k2 [r2 devfd] w3 Hfstat Hq3 Hmo3. cbn beta iota. apply wp_ret.
  pose proof (progress_trans _ _ _ Hp2 (quietly_progress _ _ Hq3)) as Hp3.
  pose proof (ev_same _ _ (proj1 Hq3)) as Hm3.
  destruct (Z.eqb_spec r2 0) as [->|Hne]; simpl; [|apply Hclose; [done|congruence]].
  destruct (Z.eqb_spec dev devfd) as [|Hdev]; [apply Hclose; [done|congruence]|].
  apply wp_ret. split; [by apply progress_goes_on|]. right. split_and!; [done|congruence|].
  intros _. destruct (ev_mine _ _ (proj1 Hq2) d Hdm) as [Hf2 Hd2].
  assert (Hdm2 : d ∈ mine (kern w2)) by congruence.
  destruct (ev_mine _ _ (proj1 Hq3) d Hdm2) as [Hf3 Hd3]. rewrite Hd3, Hd2.
  apply Hlist. rewrite Ht. split; [done|]. rewrite <- He1.
  destruct (mo_mine _ _ _ Hmo3 d Hdm2) as [Hf4 Hd4].
  assert (Hu : untouched d (base (kern w1)) k2).
  { split_and!; [|congruence|congruence]. rewrite Hf4, Hf2. apply elem_of_dom.
    by apply (to_mine _ Hok1). }
  assert (Hek2 : env k2 = env (base (kern w1))).
  { rewrite (mo_env _ _ _ Hmo3). exact (quietly_env _ _ Hq2). }
  rewrite (stat_dev _ _ _ Hstat), (mo_env _ _ _ Hmo2) in Hdev.
  rewrite (fstat_devfd _ _ _ _ _ _ _ Hopen Hd Hek2 Hu Hfstat), He0, <- He1 in Hdev. done.
Qed.

Lemma open_dirfd_threads w :
  has_dirfd target = true -> threads_ok (kern w) -> mine (kern w) = ∅ ->
  statics_ok (world_env w) (statics w) -> wp open_dirfd (open_post w) w.
Proof.
  intros Ht Hok Hm Hst. destruct target eqn:Htgt; try discriminate Ht.
  - by apply open_linux_threads.
  - unfold open_dirfd. rewrite Htgt. apply open_one_threads; [done..|]. by rewrite Htgt.
  - unfold open_dirfd. rewrite Htgt. apply open_one_threads; [done..|]. by rewrite Htgt.
  - by apply open_freebsd_threads.
  - unfold open_dirfd. rewrite Htgt. apply open_one_threads; [done..|]. by rewrite Htgt.
  - apply open_sun_threads; auto.
  - apply open_sun_threads; auto.
Qed.

Lemma dir_open_threads minfd0 w :
  has_dirfd target = true -> 0 <= minfd0 -> threads_ok (kern w) -> mine (kern w) = ∅ ->
  statics_ok (world_env w) (statics w) ->
  wp (DirFdIter.open minfd0) (fun o w' => goes_on w w' /\
    match o with
    | None => mine (kern w') = ∅
    | Some it => mine (kern w') = dir_owned it /\ dir_ok it (kern w') minfd0
    end) w.
Proof.
  intros Ht Hm0 Hok Hm Hst. unfold open. apply wp_bind.
  eapply wp_mono; [by apply open_dirfd_threads|]. intros o w' [Hg Ho].
  destruct o as [d|]; [|by apply wp_ret].
  destruct Ho as [[Hd Hm']|(Hd & Hm' & Hl)].
  { rewrite (proj2 (Z.leb_gt _ _)) by done. by apply wp_ret. }
  destruct (Hl I) as (p & Hp & Hp0).
  rewrite (proj2 (Z.leb_le _ _)) by done. apply wp_ret. split; [done|].
  rewrite dir_owned_active by done. split; [done|]. right. exists [], p.
  constructor; simpl; auto; try lia; try (by intros f Hf%not_elem_of_nil).
  - rewrite Hm'. by apply elem_of_singleton.
  - apply layout_fresh.
  - unfold i32_MAX. lia.
Qed.

Lemma iter_from_threads b minfd w :
  minfd <= i32_MAX -> threads_ok (kern w) -> mine (kern w) = ∅ ->
  statics_ok (world_env w) (statics w) ->
  only_closes = true \/ has_nfds target = false \/ b_skip_nfds b = true ->
  wp (iter_from b minfd) (fun it w' => goes_on w w' /\ iter_inv it w' /\
    curfd it = Z.max 0 minfd /\ possible it = b_possible b) w.
Proof.
  intros Hmf Hok Hm Hst Hsafe. unfold iter_from.
  set (m := if minfd <? 0 then 0 else minfd).
  assert (Hmm : m = Z.max 0 minfd) by (unfold m; destruct (Z.ltb_spec minfd 0); lia).
  assert (Hmr : 0 <= m <= i32_MAX) by (unfold i32_MAX in *; lia).
  apply wp_bind. eapply wp_mono with (P := fun o w' => goes_on w w' /\
    match o with
    | None => mine (kern w') = ∅
    | Some it => has_dirfd target = true /\ mine (kern w') = dir_owned it /\
        dir_ok it (kern w') m
    end).
  - assert (Hnone : goes_on w w) by (unfold goes_on; by split_and!).
    destruct (has_dirfd target) eqn:Ht; [|by apply wp_ret]. destruct (b_dirfd b); [|by apply wp_ret].
    simpl. eapply wp_mono; [apply (dir_open_threads m w); done || lia|].
    intros [it|] w' [? ?]; done.
  - intros o w' [Hg Ho]. apply wp_ret. split; [done|]. split; [|done].
    destruct Hg as (Hok' & _). destruct o as [d|].
    + destruct Ho as (Ht & Hm' & Hd). constructor; try done. by intros ? [= <-].
    + by constructor.
Qed.

(** Creating an iterator and iterating to the end. *)
Lemma iterate_threads fuel b minfd w :
  minfd <= i32_MAX -> enough_fuel fuel -> threads_ok (kern w) -> mine (kern w) = ∅ ->
  statics_ok (world_env w) (statics w) ->
  only_closes = true \/ has_nfds target = false \/ b_skip_nfds b = true ->
  wp (iterate fuel b minfd) (fun l w' => goes_on w w' /\
    mine (kern w') = ∅ /\ strictly_ascending l /\
    (forall f, f ∈ l -> Z.max 0 minfd <= f < i32_MAX) /\
    (b_possible b = false -> forall f, f ∈ l -> f ∈ seen (kern w')) /\
    (forall f, stay f -> minfd <= f <= scan_limit (world_env w) -> f ∈ l)) w.
Proof.
  intros Hmf Hf Hok Hm Hst Hsafe. unfold iterate. apply wp_bind.
  eapply wp_mono; [by apply iter_from_threads|].
  intros it w1 (Hg & Hi & Hc & Hp). pose proof Hg as (_ & He & _).
  eapply wp_mono; [apply (collect_threads fuel fuel it w1 Hi Hf)|].
  { pose proof (ii_curfd _ _ Hi). unfold steps_left, enough_fuel, i32_MAX in *. lia. }
  intros l w2 [V1 V2 V3 V4 V5 V6]. rewrite Hc, Hp, He in *. split_and!; try done.
  { eapply goes_on_trans; [exact Hg|]. apply progress_goes_on; [apply Hg|done]. }
  intros f Hs Hfr. apply V6; [done|]. destruct (to_stay _ Hok f Hs) as [fl Hfl].
  apply fds_wf in Hfl. lia.
Qed.
End iterator.

(** ** Properties *)

Section properties.
Context `{C : Config, !ConfigOk C} {K : Type} `{SK : Sys K} `{KV : KernelView K}
  {KS : KernelSpec K}.

(** C9. [iter_open_fds_threadsafe(minfd)], iterated to the end while other
    threads open, close and change descriptors between any two of its system
    calls, terminates; every descriptor that stays open, from [minfd] up to the
    limit of the fallback loop, is yielded, in ascending order; only descriptors
    that were open at some call are yielded; the directory used on the way is
    closed again. The other threads may be inside the crate as well: a static may
    be stored to before any load, with something true, and what this thread
    stores is true. *)
Theorem iter_threadsafe_liveness {R : Rely} fuel minfd w :
  minfd <= i32_MAX -> enough_fuel fuel ->
  threads_ok (kern w) -> mine (kern w) = ∅ -> seen (kern w) = ∅ ->
  statics_ok (env (base (kern w))) (statics w) ->
  wp (it ← iter_open_fds_threadsafe minfd; collect fuel fuel it) (fun l w' =>
    mine (kern w') = ∅ /\ strictly_ascending l /\
    (forall f, f ∈ l -> minfd <= f /\ f ∈ seen (kern w')) /\
    (forall f, stay f -> minfd <= f <= scan_limit (env (base (kern w))) -> f ∈ l) /\
    Forall (statics_ok (env (base (kern w)))) (published (kern w'))) w.
Proof.
  intros Hm Hf Hok Hmine _ Hst. eapply wp_mono.
  - apply (iterate_threads fuel (set_threadsafe true fd_iter_builder_new)); try done.
    unfold set_threadsafe. destruct (has_nfds target); auto.
  - intros l w' (Hg & H1 & H2 & H3 & H4 & H5).
    split_and!; try done; [|by apply goes_on_published]. intros f Hin. split; [specialize (H3 f Hin); lia|]. apply H4; [|done].
    unfold set_threadsafe. by destruct (has_nfds target).
Qed.

(** C11. Closing descriptors during an iteration, in any thread, does not affect
    the iterator's ability to list the others: with any builder on any target, if
    the other threads open nothing, every descriptor that stays open is yielded.
    (That is the third warning of [FdIterBuilder].) *)
Theorem closing_spares_others {R : Rely} fuel b minfd w :
  minfd <= i32_MAX -> enough_fuel fuel ->
  only_closes = true -> threads_ok (kern w) -> mine (kern w) = ∅ ->
  statics_ok (env (base (kern w))) (statics w) ->
  wp (iterate fuel b minfd) (fun l w' =>
    mine (kern w') = ∅ /\ strictly_ascending l /\
    (forall f, stay f -> minfd <= f <= scan_limit (env (base (kern w))) -> f ∈ l)) w.
Proof.
  intros Hm Hf Ho Hok Hmine Hst.
  eapply wp_mono; [apply (iterate_threads fuel b minfd w); by auto|].
  intros l w' (_ & H1 & H2 & _ & _ & H5). by split_and!.
Qed.
End properties.
