(* ===== verification/Undercount.v ===== *)
(** * A count of descriptors that other threads make too small

    On OpenBSD the iterator of src/iterfds/fditer.rs asks for the number of open
    descriptors and then looks for as many. Here another thread opens some in
    between: which descriptors the iteration then yields. *)

From S2P Require Import Prelude Platform Ints Sys KernelSpec Util DirFdIter FdIter IterFds Threads.

(** ** Counting *)

(** The number of open descriptors below [c]. *)
Definition below (t : gmap Z Z) (c : Z) : Z :=
  Z.of_nat (size (filter (fun '(f, _) => f < c) t)).

Lemma below_succ t c :
  below t (c + 1) = below t c + (if decide (is_Some (t !! c)) then 1 else 0).
Proof.
  unfold below. destruct (t !! c) as [fl|] eqn:Hc.
  - rewrite decide_True by done.
    assert (filter (fun '(f, _) => f < c + 1) t =
            <[c := fl]> (filter (fun '(f, _) => f < c) t)) as ->.
    { apply map_eq. intros f. apply option_eq. intros x. destruct (decide (f = c)) as [->|Hf].
      - rewrite lookup_insert_eq, map_lookup_filter_Some, Hc. intuition (congruence || lia).
      - rewrite lookup_insert_ne, !map_lookup_filter_Some by done. intuition lia. }
    rewrite map_size_insert_None; [lia|]. apply map_lookup_filter_None. right. intros ? ?. lia.
  - rewrite decide_False by (by intros [? ?]). rewrite Z.add_0_r. do 2 f_equal.
    apply map_filter_ext. intros f x Hf. assert (f <> c) by congruence. lia.
Qed.

Lemma below_mono t c d : c <= d -> below t c <= below t d.
Proof.
  intros Hcd. replace d with (c + Z.of_nat (Z.to_nat (d - c))) by lia.
  induction (Z.to_nat (d - c)) as [|n IH]; [by rewrite Z.add_0_r|].
  replace (c + Z.of_nat (S n)) with (c + Z.of_nat n + 1) by lia.
  rewrite below_succ. case_decide; lia.
Qed.

Lemma below_0 t : (forall f, is_Some (t !! f) -> 0 <= f) -> below t 0 = 0.
Proof.
  intros Hw. unfold below. rewrite map_empty_filter_2; [by rewrite map_size_empty|].
  intros f x Hf. specialize (Hw f (mk_is_Some _ _ Hf)). lia.
Qed.

(** The [n]th of the open descriptors. *)
Lemma nth_lowest t n k :
  (forall f, is_Some (t !! f) -> 0 <= f) -> 0 < n <= below t (Z.of_nat k) ->
  exists m, 0 <= m < Z.of_nat k /\ is_Some (t !! m) /\ below t m = n - 1.
Proof.
  intros Hw. induction k as [|k IH]; intros Hn; [rewrite below_0 in Hn by done; lia|].
  replace (Z.of_nat (S k)) with (Z.of_nat k + 1) in * by lia. rewrite below_succ in Hn.
  destruct (decide (n <= below t (Z.of_nat k))) as [Hk|Hk].
  - destruct IH as (m & ? & ? & ?); [lia|]. exists m. split_and!; [lia|lia|done|done].
  - case_decide; [|lia]. exists (Z.of_nat k). split_and!; [lia|lia|done|lia].
Qed.

(** ** The iterator once the other threads have stopped *)

Section alone.
Context `{C : Config, !ConfigOk C} {K : Type} `{SK : Sys K} `{KV : KernelView K}
  {KS : KernelSpec K}.

(** The next call finds the table [t]; it is the last before which the other
    threads do anything. *)
Definition left_with (t : gmap Z Z) (w : World (Shared K)) : Prop :=
  tail (pending (kern w)) = [] /\ fds (base (turn (kern w))) = t.

Lemma wp_is_fd_valid_alone t fd (Q : bool -> World (Shared K) -> Prop) w :
  left_with t w ->
  (forall w', left_with t w' -> fds (base (kern w')) = t ->
     Q (bool_decide (is_Some (t !! fd))) w') ->
  wp (is_fd_valid fd) Q w.
Proof.
  intros [Hp Ht] HQ. unfold is_fd_valid. apply wp_bind, wp_call. intros r s'. simpl. unfold after.
  destruct (sys_fcntl_getfd fd (base (turn (kern w)))) as [r' k'] eqn:Hk. intros [= -> <-].
  destruct (getfd_spec _ _ _ _ Hk) as [-> [Hv _]]. rewrite Ht in *. apply wp_ret.
  replace (0 <=? _) with (bool_decide (is_Some (t !! fd))).
  - apply HQ; [|done]. split; simpl; by rewrite Hp.
  - destruct (t !! fd) as [fl|] eqn:Hfd; [|by rewrite bool_decide_false by (by intros [? ?])].
    rewrite bool_decide_true by done. rewrite <- Ht in Hfd.
    destruct (fds_wf _ _ _ Hfd) as [_ Hfl]. simpl. symmetry. by apply Z.leb_le.
Qed.

(** The search for [n] descriptors ends at the [n]th. *)
Lemma nfds_loop_alone t k m n c w :
  left_with t w -> 0 <= n < 100 -> 0 <= c <= m -> m < c + Z.of_nat k ->
  is_Some (t !! m) -> below t m = n - 1 ->
  wp (nfds_loop (seqZ c (Z.of_nat k)) n (below t c)) (fun o w' =>
    left_with t w' /\ o = Some m) w.
Proof.
  intros Hw Hn. revert c w Hw. induction k as [|k IH]; intros c w Hw Hc Hm Ho Hb; [lia|].
  rewrite seqZ_cons by lia. rewrite Nat2Z.inj_succ, Z.pred_succ. simpl.
  apply wp_bind, (wp_is_fd_valid_alone t); [done|]. intros w1 Hw1 _.
  pose proof (below_succ t c) as Hs. unfold Z.succ.
  pose proof (below_mono t c m ltac:(lia)) as Hcm. assert (0 <= below t c) by (unfold below; lia).
  case_bool_decide as Hv.
  - rewrite decide_True in Hs by done.
    apply wp_bind. eapply wp_lift; [apply i32_add_ok; unfold i32_MIN, i32_MAX; lia|].
    destruct (decide (c = m)) as [->|Hne].
    + rewrite (proj2 (Z.leb_le _ _)) by lia. by apply wp_ret.
    + pose proof (below_mono t (c + 1) m ltac:(lia)).
      rewrite (proj2 (Z.leb_gt _ _)) by lia. rewrite <- Hs. apply IH; done || lia.
  - rewrite decide_False, Z.add_0_r in Hs by done. rewrite <- Hs.
    assert (c <> m) by (by intros ->). apply IH; done || lia.
Qed.

(** The fallback loop with a maximum. *)
Lemma scan_loop_alone t fuel m it w :
  left_with t w -> possible it = false -> 0 <= curfd it -> m < i32_MAX ->
  (Z.to_nat (m + 1 - curfd it) < fuel)%nat ->
  wp (scan_loop fuel m it) (fun '(o, it') w' =>
    left_with t w' /\ possible it' = false /\ maxfd it' = maxfd it /\
    dirfd_iter it' = dirfd_iter it /\
    match o with
    | Some fd => curfd it <= fd <= m /\ is_Some (t !! fd) /\ curfd it' = fd + 1 /\
        forall f, curfd it <= f < fd -> t !! f = None
    | None => forall f, curfd it <= f <= m -> t !! f = None
    end) w.
Proof.
  intros Hw Hp. revert it w Hw Hp. induction fuel as [|fuel IH]; intros it w Hw Hp Hc Hm Hf; [lia|].
  simpl. destruct (Z.leb_spec (curfd it) m); [|apply wp_ret; split_and!; try done; lia].
  apply wp_bind. eapply wp_lift; [apply i32_add_ok; unfold i32_MIN, i32_MAX in *; lia|].
  apply wp_bind. simpl. rewrite Hp. apply (wp_is_fd_valid_alone t); [done|]. intros w1 Hw1 _.
  case_bool_decide as Hv.
  - apply wp_ret. split_and!; done || lia.
  - apply eq_None_not_Some in Hv. eapply wp_mono; [apply IH; done || (simpl; lia)|].
    intros [o it'] w2 (H1 & H2 & H3 & H4 & H5). split_and!; try done. simpl in H5.
    destruct o as [fd|].
    + destruct H5 as (? & ? & ? & H5). split_and!; try (done || lia). intros f Hlt.
      destruct (decide (f = curfd it)) as [->|]; [done|]. apply H5. lia.
    + intros f Hlt. destruct (decide (f = curfd it)) as [->|]; [done|]. apply H5. lia.
Qed.

(** On OpenBSD [next] is that loop. *)
Lemma next_alone t fuel m it w :
  target = openbsd -> maxfd it = Some m ->
  left_with t w -> possible it = false -> 0 <= curfd it -> -1 <= m < i32_MAX ->
  (Z.to_nat (m + 1 - curfd it) < fuel)%nat ->
  wp (next fuel it) (fun '(o, it') w' =>
    left_with t w' /\ possible it' = false /\ maxfd it' = Some m /\
    dirfd_iter it' = dirfd_iter it /\
    match o with
    | Some fd => curfd it <= fd <= m /\ is_Some (t !! fd) /\ curfd it' = fd + 1 /\
        forall f, curfd it <= f < fd -> t !! f = None
    | None => forall f, curfd it <= f <= m -> t !! f = None
    end) w.
Proof.
  intros Ht Hmx Hw Hp Hc Hm Hf. unfold next. rewrite Ht. change (has_dirfd openbsd) with false.
  cbn iota. unfold scan, get_maxfd. rewrite Hmx. apply wp_bind, wp_ret.
  rewrite <- Hmx. apply scan_loop_alone; done || lia.
Qed.

(** What is open from [curfd] up to the maximum. *)
Definition up_to (t : gmap Z Z) (c m : Z) (l : list Z) : Prop :=
  strictly_ascending l /\ forall f, f ∈ l <-> is_Some (t !! f) /\ c <= f <= m.

Lemma up_to_cons t c m fd l :
  c <= fd <= m -> is_Some (t !! fd) -> (forall f, c <= f < fd -> t !! f = None) ->
  up_to t (fd + 1) m l -> up_to t c m (fd :: l).
Proof.
  intros Hfd Ho Hn [Hs Hl]. split.
  - apply strictly_ascending_cons. split; [|done]. apply Forall_forall.
    intros f [_ ?]%Hl. lia.
  - intros f. rewrite elem_of_cons, Hl. split; [intros [->|[? ?]]; split; done || lia|].
    intros [[x Hf] Hr]. destruct (decide (f < fd)); [by rewrite Hn in Hf by lia|].
    destruct (decide (f = fd)) as [->|]; [by left|]. right. split; [done|lia].
Qed.

Lemma collect_alone t n fuel m it w :
  target = openbsd -> maxfd it = Some m -> dirfd_iter it = None ->
  left_with t w -> possible it = false -> 0 <= curfd it -> -1 <= m < i32_MAX ->
  (Z.to_nat (m + 1 - curfd it) < n)%nat -> (Z.to_nat (m + 1 - curfd it) < fuel)%nat ->
  wp (collect n fuel it) (fun l w' => left_with t w' /\ up_to t (curfd it) m l) w.
Proof.
  intros Ht. revert it w.
  induction n as [|n IH]; intros it w Hmx Hd Hw Hp Hc Hm Hn Hf; [lia|]. simpl.
  apply wp_bind. eapply wp_mono; [by apply (next_alone t fuel m)|].
  intros [o it'] w1 (Hw1 & Hp1 & Hmx1 & Hd1 & Ho). cbn beta iota. destruct o as [fd|].
  - destruct Ho as (H1 & H2 & H3 & H4). apply wp_bind.
    eapply wp_mono; [apply IH; done || congruence || lia|]. intros l w2 [Hw2 Hl]. apply wp_ret.
    split; [done|]. rewrite H3 in Hl. by apply up_to_cons with (fd := fd).
  - apply wp_bind. unfold drop_fditer. rewrite Hd1, Hd. apply wp_ret, wp_ret.
    split; [done|]. split; [constructor|]. intros f. rewrite elem_of_nil. split; [done|].
    intros [[x Hf'] Hr]. by rewrite Ho in Hf'.
Qed.

(** The first [next] looks for the maximum. *)
Lemma collect_get_maxfd n fuel it w (Q : list Z -> World (Shared K) -> Prop) :
  target = openbsd -> maxfd it = None ->
  wp (get_maxfd_direct it) (fun m w' =>
    -1 <= m /\ wp (collect (S n) fuel (set_maxfd m it)) Q w') w ->
  wp (collect (S n) fuel it) Q w.
Proof.
  intros Ht Hmx HQ. eapply wp_ext with
    (m' := m ← get_maxfd_direct it; lift (debug_assert (-1 <=? m));;
           collect (S n) fuel (set_maxfd m it)).
  { simpl. unfold next, scan, get_maxfd. rewrite Ht. simpl. rewrite Hmx.
    unfold mbind, ST_bind. destruct (get_maxfd_direct it w) as [[m w']| | | |]; [|done..].
    by destruct (lift _ w') as [[]| | | |]. }
  apply wp_bind. eapply wp_mono; [exact HQ|]. intros m w' [Hm HQ'].
  apply wp_bind. eapply wp_lift; [by apply debug_assert_ok, Z.leb_le|]. done.
Qed.

(** *** Counting and iterating *)

(** The other threads act before the count and before the next call, and then
    no more. *)
Definition counted (s : Shared K) : Shared K := turn s.
Definition after_count (s : Shared K) : Shared K := turn (sys_getdtablecount s).2.

Lemma get_maxfd_direct_alone it w n t :
  target = openbsd -> skip_nfds it = false -> (length (pending (kern w)) <= 2)%nat ->
  n = Z.of_nat (size (fds (base (counted (kern w))))) ->
  t = fds (base (after_count (kern w))) -> 0 < n < 100 -> n <= below t (2 * n) ->
  wp (get_maxfd_direct it) (fun m w' =>
    left_with t w' /\ 0 <= m < 2 * n /\ is_Some (t !! m) /\ below t m = n - 1) w.
Proof.
  intros Ht Hsk Hp Hn Hte Hr Hb. unfold get_maxfd_direct.
  rewrite decide_False by (by rewrite Ht). rewrite Hsk, Ht. simpl. unfold get_nfds. rewrite Ht.
  apply wp_bind, wp_bind, wp_call. intros r s' Hs. apply wp_ret.
  unfold after_count in Hte. simpl in Hs, Hte. rewrite Hs in Hte. cbn [snd] in Hte.
  unfold after in Hs.
  destruct (sys_getdtablecount (base (turn (kern w)))) as [r' k'] eqn:Hk.
  injection Hs as -> <-. apply getdtablecount_spec in Hk as [_ ->].
  unfold counted in Hn. rewrite <- Hn. set (s' := set_base k' _) in *.
  assert (Hl : left_with t (mkWorld s' (statics w))).
  { split; [|done]. simpl. by destruct (pending (kern w)) as [|? [|? [|? ?]]]; simpl in *; try lia. }
  assert (Hwf : forall f, is_Some (t !! f) -> 0 <= f).
  { rewrite Hte. intros f [x Hf]. apply fds_wf in Hf as [? _]. lia. }
  destruct (nth_lowest t n (Z.to_nat (2 * n)) Hwf) as (m & Hm & Ho & Hbm);
    [rewrite Z2Nat.id by lia; lia|].
  apply wp_bind. unfold nfds_to_maxfd. rewrite (proj2 (Z.eqb_neq n 0)) by lia.
  rewrite (proj2 (Z.ltb_ge n 0)), (proj2 (Z.leb_gt 100 n)) by lia.
  apply wp_bind. eapply wp_lift; [apply i32_mul_ok; unfold i32_MIN, i32_MAX; lia|].
  replace (n * 2) with (Z.of_nat (Z.to_nat (2 * n))) by lia.
  eapply wp_mono.
  { rewrite <- (below_0 t Hwf) at 2. apply (nfds_loop_alone _ _ m n 0 _ Hl); done || lia. }
  intros o w' [Hw' ->]. apply wp_ret. split_and!; done || lia.
Qed.
End alone.

(** ** Properties *)

Section properties.
Context `{C : Config, !ConfigOk C} {K : Type} `{SK : Sys K} `{KV : KernelView K}
  {KS : KernelSpec K}.

(** C26. The warning in the documentation of [FdIterBuilder] that a descriptor
    opened by another thread during the iteration may make the iterator skip
    others is real, and this is what is skipped on OpenBSD. Let [n] descriptors,
    fewer than 100, be open when [next] asks for their number, and let other
    threads then do anything before its next call, and nothing after, that leaves
    [n] open below [2 * n] (which is where [next] looks for them). Then the
    iteration yields the [n] lowest of the open descriptors, so far as they are
    from [minfd] up: one that has [n] others below it is not yielded, and may have
    been open all along. *)
Theorem opening_makes_skip fuel minfd w (n : Z) (t : gmap Z Z) :
  target = openbsd -> enough_fuel fuel -> minfd <= i32_MAX ->
  (length (pending (kern w)) <= 2)%nat ->
  n = Z.of_nat (size (fds (base (counted (kern w))))) ->
  t = fds (base (after_count (kern w))) ->
  0 < n < 100 -> n <= below t (2 * n) ->
  wp (it ← iter_open_fds minfd; collect fuel fuel it) (fun l _ =>
    strictly_ascending l /\
    forall f, f ∈ l <-> is_Some (t !! f) /\ minfd <= f /\ below t f < n) w.
Proof.
  intros Ht Hf Hm Hp Hn -> Hr Hb. unfold iter_open_fds, iter_from. rewrite Ht.
  change (has_dirfd openbsd) with false. simpl.
  set (t := fds (base (after_count (kern w)))) in *.
  set (c := if minfd <? 0 then 0 else minfd).
  assert (Hc : c = Z.max 0 minfd) by (unfold c; destruct (Z.ltb_spec minfd 0); lia).
  apply wp_bind, wp_bind, wp_ret, wp_ret.
  assert (Hall : forall m l, 0 <= m < 2 * n -> is_Some (t !! m) -> below t m = n - 1 ->
    up_to t c m l -> strictly_ascending l /\
    forall f, f ∈ l <-> is_Some (t !! f) /\ minfd <= f /\ below t f < n).
  { intros m l Hmr Hmo Hbm [Hs Hl]. split; [done|]. intros f. rewrite Hl.
    assert (f <= m <-> below t f < n) as Hfm.
    { pose proof (below_succ t m) as Hsm. rewrite decide_True in Hsm by done. split; intros Hx.
      - pose proof (below_mono t f m Hx). lia.
      - destruct (decide (f <= m)) as [|Hgt]; [done|].
        pose proof (below_mono t (m + 1) f ltac:(lia)). lia. }
    split; [intuition lia|]. intros (Ho & H1 & H2).
    pose proof Ho as [x Hfx]. apply fds_wf in Hfx as [? _]. intuition lia. }
  destruct fuel as [|fuel]; [unfold enough_fuel in Hf; lia|].
  apply collect_get_maxfd; [done|done|].
  eapply wp_mono; [by apply (get_maxfd_direct_alone _ w n t)|]. intros m w1 (Hw1 & H1 & H2 & H3).
  split; [lia|]. eapply wp_mono; [apply (collect_alone t (S fuel) (S fuel) m); try done|].
  - simpl. lia.
  - unfold i32_MAX. lia.
  - simpl. unfold enough_fuel, i32_MAX in *. lia.
  - simpl. unfold enough_fuel, i32_MAX in *. lia.
  - intros l w2 [_ Hl]. by apply (Hall m).
Qed.
End properties.
