(* ===== verification/SizeHint.v ===== *)
(** * [size_hint] of src/iterfds/dirfd.rs and src/iterfds/fditer.rs

    The bounds an [FdIter] gives for its length, against what iterating it
    yields. *)

From S2P Require Import Prelude Platform Ints Sys KernelSpec Util DirFdIter FdIter IterFds.

(** ** Entries that are already in the buffer *)

Section buffered.
Context `{C : Config, !ConfigOk C} {K : Type} `{SK : Sys K} `{KV : KernelView K}
  {KS : KernelSpec K}.

(** The descriptors in the buffer that [next] will return. *)
Definition buffered (it : DirFdIter) (es : list (option Z)) : list Z :=
  filter (fun f => minfd it <= f /\ f <> dirfd it) (listed_fds es).

Lemma consume_buffered fuel it (w : World K) c es p fd ys :
  stream_inv it (kern w) c es p -> buffered it es = fd :: ys -> (length es <= fuel)%nat ->
  exists it' es', consume_entry (next_loop fuel) it w = Done ((Ok (Some fd), it'), w) /\
    stream_inv it' (kern w) (fd + 1) es' p /\ buffered it' es' = ys /\
    minfd it' = minfd it /\ dirfd it' = dirfd it.
Proof.
  revert it es. induction fuel as [|fuel IH]; intros it es Hi Hb Hf.
  { destruct es; [done|simpl in Hf; lia]. }
  destruct es as [|e es]; [done|].
  destruct (consume_entry_eq (next_loop (S fuel)) it w e es (si_layout _ _ _ _ _ Hi)) as
    (it1 & Hlay & Em & Ed & ->); [intros g; by eapply stream_entry_small|].
  unfold buffered in Hb. rewrite listed_fds_cons in Hb.
  assert (Hskip : (forall g, e = Some g -> g < minfd it \/ g = dirfd it) ->
    buffered it es = fd :: ys ->
    exists it' es', next_loop (S fuel) it1 w = Done ((Ok (Some fd), it'), w) /\
      stream_inv it' (kern w) (fd + 1) es' p /\ buffered it' es' = ys /\
      minfd it' = minfd it /\ dirfd it' = dirfd it).
  { intros Hs Hb1. assert (Hi1 : stream_inv it1 (kern w) c es p) by (by eapply stream_skip).
    destruct (IH it1 es Hi1) as (it' & es' & Heq & ? & ? & ? & ?).
    { unfold buffered. by rewrite Em, Ed. }
    { simpl in Hf. lia. }
    exists it', es'. split_and!; [|done..|congruence|congruence]. simpl.
    rewrite (layout_test _ _ Hlay). by destruct es. }
  destruct e as [g|]; [|by apply Hskip].
  rewrite filter_cons in Hb. case_decide as Hd.
  - injection Hb as -> Hb. destruct Hd as [Hd1 Hd2].
    rewrite (proj2 (Z.leb_le _ _) Hd1), (proj2 (Z.eqb_neq _ _) Hd2).
    simpl. exists it1, es. split_and!; try done; [by eapply stream_yield|].
    unfold buffered. by rewrite Em, Ed, Hb.
  - destruct ((minfd it <=? g) && negb (g =? dirfd it)) eqn:Hc.
    + apply andb_true_iff in Hc as [H1 H2]. apply Z.leb_le in H1.
      apply negb_true_iff, Z.eqb_neq in H2. by destruct Hd.
    + apply Hskip; [|done]. intros ? [= <-]. destruct (Z.lt_ge_cases g (minfd it)); [by left|].
      destruct (decide (g = dirfd it)); [by right|]. by destruct Hd.
Qed.

(** While the buffer has a descriptor to return, [next] asks the system
    nothing. *)
Lemma next_buffered fuel it (w : World K) c es p fd ys :
  stream_inv it (kern w) c es p -> buffered it es = fd :: ys -> (length es < fuel)%nat ->
  exists it' es', DirFdIter.next fuel it w = Done ((Ok (Some fd), it'), w) /\
    stream_inv it' (kern w) (fd + 1) es' p /\ buffered it' es' = ys /\
    minfd it' = minfd it /\ dirfd it' = dirfd it.
Proof.
  intros Hi Hb Hf. pose proof (stream_dirfd _ _ _ _ _ Hi) as Hd.
  unfold DirFdIter.next. rewrite (proj2 (Z.ltb_ge _ _)) by done.
  destruct fuel as [|fuel]; [lia|]. simpl.
  rewrite (layout_test _ _ (si_layout _ _ _ _ _ Hi)). destruct es as [|e es]; [done|].
  eapply consume_buffered; [done|done|lia].
Qed.

(** The loop of [size_hint] counts them. *)
Lemma size_hint_loop_spec fuel it off data tail es low :
  drop off (dirent_buf it) = data ++ tail -> dirents data es ->
  dirent_nbytes it = Z.of_nat (off + length data) ->
  length (dirent_buf it) = d_size RawDirent ->
  Forall (fun f => minfd it <= f <= i32_MAX) (listed_fds es) ->
  (length es < fuel)%nat -> 0 <= low -> low + Z.of_nat (length data) <= u32_MAX ->
  size_hint_loop fuel it (Z.of_nat off) low =
    Done (low + Z.of_nat (length (buffered it es))).
Proof.
  pose proof RawDirent_ok as [_ _ Hsz]. pose proof usize_MAX_large as Hus.
  revert off data es low. induction fuel as [|fuel IH];
    intros off data es low Hdrop Hdir Hnb Hbuf Hall Hf Hlow Hsum; [lia|]. simpl.
  destruct es as [|e es].
  { inversion Hdir; subst. rewrite Hnb. rewrite (proj2 (Z.ltb_ge _ _)) by (simpl; lia).
    unfold buffered. simpl. f_equal. lia. }
  pose proof (dirents_length _ _ Hdir) as Hdl. simpl in Hdl.
  rewrite Hnb. rewrite (proj2 (Z.ltb_lt _ _)) by lia.
  rewrite listed_fds_cons in Hall.
  destruct (get_entry_info_ok it off data tail e es) as
    (n & data' & -> & Hn & Hlen & Hdrop' & Hdir'); [done|done| |].
  { intros g ->. apply Forall_cons in Hall as [? _]. lia. }
  pose proof (f_equal length Hdrop) as Hle. rewrite length_drop, length_app in Hle.
  simpl. rewrite (usize_add_ok (Z.of_nat off)) by (unfold u32_MAX in *; lia). simpl.
  rewrite <- Nat2Z.inj_add. unfold buffered. rewrite listed_fds_cons.
  assert (Hrec : forall low', 0 <= low' -> low' <= low + 1 ->
    Forall (fun f => minfd it <= f <= i32_MAX) (listed_fds es) ->
    size_hint_loop fuel it (Z.of_nat (off + n)) low' =
      Done (low' + Z.of_nat (length (buffered it es)))).
  { intros low' H0 H1 Hall'. eapply IH; try done; simpl in *; lia. }
  destruct e as [g|]; [|apply Hrec; [lia|lia|done]].
  apply Forall_cons in Hall as [Hg Hall].
  rewrite debug_assert_ok by (apply Z.leb_le; lia). simpl. rewrite filter_cons.
  destruct (Z.eqb_spec g (dirfd it)) as [He|He]; simpl.
  - rewrite decide_False by tauto. by apply Hrec; [lia|lia|].
  - rewrite usize_add_ok by (unfold u32_MAX in *; lia). simpl.
    rewrite decide_True by (split; [lia|done]). rewrite Hrec by (lia || done).
    simpl. f_equal. unfold buffered. lia.
Qed.
End buffered.

(** ** Lengths *)

Lemma strictly_ascending_length l a b :
  strictly_ascending l -> (forall f, f ∈ l -> a <= f < b) ->
  Z.of_nat (length l) <= Z.max 0 (b - a).
Proof.
  revert a. induction l as [|x l IH]; intros a Hs Hin; simpl; [lia|].
  apply strictly_ascending_cons in Hs as [Hx Hs]. rewrite Forall_forall in Hx.
  pose proof (Hin x ltac:(by left)) as Hxr.
  assert (Z.of_nat (length l) <= Z.max 0 (b - (x + 1))).
  { apply IH; [done|]. intros f Hf. specialize (Hx f Hf).
    specialize (Hin f ltac:(by right)). lia. }
  lia.
Qed.

Section lengths.
Context `{C : Config, !ConfigOk C} {K : Type} `{SK : Sys K} `{KV : KernelView K}
  {KS : KernelSpec K}.

(** Iterating yields at least what is in the buffer. *)
Lemma collect_buffered n fuel it d (w : World K) c es p :
  has_dirfd target = true -> dirfd_iter it = Some d -> enough_fuel fuel ->
  stream_inv d (kern w) c es p ->
  wp (collect n fuel it) (fun _ _ => True) w ->
  wp (collect n fuel it) (fun l _ => (length (buffered d es) <= length l)%nat) w.
Proof.
  intros Ht Hd Hf Hi. remember (buffered d es) as ys eqn:Hys. symmetry in Hys.
  revert n it d w c es Hd Hi Hys. induction ys as [|fd ys IH];
    intros n it d w c es Hd Hi Hys Htot; simpl.
  { eapply wp_mono; [exact Htot|]. intros. lia. }
  destruct n as [|n]; [done|]. simpl in *.
  destruct (next_buffered fuel d w c es p fd ys Hi Hys) as (d' & es' & Hnext & Hi' & Hys' & _).
  { eapply Nat.le_lt_trans; [|by eapply stream_fuel]. apply Nat.le_add_r. }
  revert Htot. unfold next. rewrite Ht, Hd.
  unfold wp at 1, mbind at 1, ST_bind at 1. unfold mbind at 1, ST_bind at 1. rewrite Hnext.
  unfold mbind at 1, ST_bind at 1.
  destruct (debug_assert (curfd it <=? fd)) as [[]| | | |] eqn:Hda; try done.
  unfold mbind at 1, ST_bind at 1. cbn beta iota delta [lift].
  destruct (i32_add fd 1) as [c1| | | |] eqn:Hadd; try done. simpl. intros Htot.
  assert (Htot' : wp (collect n fuel (set_curfd c1 (set_dirfd_iter (Some d') it)))
    (fun _ _ => True) w).
  { revert Htot. unfold wp, mbind, ST_bind. by destruct (collect _ _ _ w) as [[? ?]| | | |]. }
  pose proof (IH n (set_curfd c1 (set_dirfd_iter (Some d') it)) d' w _ es' eq_refl Hi' Hys' Htot') as Hlen.
  unfold wp, mbind, ST_bind. rewrite Hnext, Hda. cbn beta iota delta [lift].
  rewrite Hadd. cbn beta iota delta [lift mret ST_ret].
  revert Hlen. unfold wp. destruct (collect _ _ _ w) as [[l w']| | | |]; try done.
  simpl. lia.
Qed.

(** In the fallback loop the numbers are at most the maximum, and with
    [possible] set they are all of them. *)
Lemma scan_loop_Some fuel m it (w : World K) fd it' w' :
  m < i32_MAX -> 0 <= curfd it ->
  scan_loop fuel m it w = Done ((Some fd, it'), w') ->
  curfd it <= fd <= m /\ curfd it' = fd + 1 /\ maxfd it' = maxfd it /\
  dirfd_iter it' = dirfd_iter it /\ possible it' = possible it /\
  (possible it = true -> fd = curfd it).
Proof.
  intros Hm. revert it w. induction fuel as [|fuel IH]; intros it w Hc; [done|]. simpl.
  destruct (Z.leb_spec (curfd it) m); [|done].
  intros (c & w1 & Hadd & (b & w2 & Hb & Hr)%ST_bind_Done)%ST_bind_Done.
  rewrite i32_add_ok in Hadd by (unfold i32_MIN in *; lia). injection Hadd as <- <-.
  destruct b.
  - injection Hr as <- <- _. simpl. split_and!; done || lia.
  - destruct (possible it) eqn:Hp; simpl in Hb; [discriminate Hb|].
    apply IH in Hr as (H1 & H2 & H3 & H4 & H5 & H6); [|simpl; lia].
    simpl in *. split_and!; try done; try lia; congruence.
Qed.

Lemma collect_scan n fuel it (w : World K) m l w' :
  dirfd_iter it = None -> maxfd it = Some m -> m < i32_MAX -> 0 <= curfd it ->
  collect n fuel it w = Done (l, w') ->
  Z.of_nat (length l) <= Z.max 0 (m + 1 - curfd it) /\
  (possible it = true -> Z.of_nat (length l) = Z.max 0 (m + 1 - curfd it)).
Proof.
  revert it w l w'. induction n as [|n IH]; intros it w l w' Hd Hm Hlt Hc; [done|]. simpl.
  intros ([o it1] & w1 & Hnext & Hr)%ST_bind_Done.
  assert (Hscan : scan_loop fuel m it w = Done ((o, it1), w1)).
  { revert Hnext. unfold next, scan, get_maxfd. rewrite Hd, Hm. by destruct (has_dirfd target). }
  destruct o as [fd|].
  - apply scan_loop_Some in Hscan as (H1 & H2 & H3 & H4 & H5 & H6); [|done|done].
    apply ST_bind_Done in Hr as (l1 & w2 & Hr & [= <- _]).
    apply IH in Hr as [L1 L2]; [|congruence|congruence|done|lia]. rewrite H2 in *. simpl. split.
    + lia.
    + intros Hp. rewrite <- (H6 Hp) in *. rewrite H5 in L2. specialize (L2 Hp). lia.
  - apply ST_bind_Done in Hr as ([] & w2 & _ & [= <- _]). simpl. split; [lia|]. intros Hp.
    destruct (Z.le_gt_cases (curfd it) m); [|lia]. destruct fuel as [|fuel]; [done|].
    simpl in Hscan. rewrite (proj2 (Z.leb_le _ _)), Hp in Hscan by done.
    apply ST_bind_Done in Hscan as (c & w3 & _ & Hscan). discriminate Hscan.
Qed.

Lemma size_hint_dir fuel d (k : K) c :
  enough_fuel fuel -> dir_inv d k c ->
  DirFdIter.size_hint fuel d = Done (0, Some 0) /\ dirfd d < 0 \/
  exists es p, stream_inv d k c es p /\
    DirFdIter.size_hint fuel d = Done (Z.of_nat (length (buffered d es)), Some i32_MAX).
Proof.
  intros Hf [[Hd _]|(es & p & Hi & Hmin)]; unfold DirFdIter.size_hint.
  { left. by rewrite (proj2 (Z.ltb_lt _ _)). }
  right. exists es, p. split; [done|]. pose proof (stream_dirfd _ _ _ _ _ Hi) as Hd.
  rewrite (proj2 (Z.ltb_ge _ _)) by done.
  destruct (si_layout _ _ _ _ _ Hi) as (Hbuf & off & data & tail & -> & Hdrop & Hnb & Hdir).
  pose proof (f_equal length Hdrop) as Hle. rewrite length_drop, length_app in Hle.
  pose proof RawDirent_ok as [_ _ Hsz].
  rewrite (size_hint_loop_spec fuel d off data tail es 0); try done.
  - simpl. by rewrite as_usize_small by (unfold i32_MAX, u32_MAX; lia).
  - apply Forall_forall. intros f Hin. split; [auto|].
    pose proof (si_below _ _ _ _ _ Hi f Hin). pose proof (si_limit _ _ _ _ _ Hi). lia.
  - eapply Nat.le_lt_trans; [|by eapply stream_fuel]. apply Nat.le_add_r.
  - unfold u32_MAX. lia.
Qed.

(** No iteration is longer than the number of descriptors there can be. *)
Lemma collect_bound n fuel it (w : World K) :
  fd_inv it (kern w) -> enough_fuel fuel -> (steps_left it < n)%nat ->
  wp (collect n fuel it) (fun l _ => Z.of_nat (length l) <= i32_MAX - curfd it) w.
Proof.
  intros Hi Hf Hn. eapply wp_mono; [by apply collect_spec|].
  intros l w' (_ & _ & _ & [Y1 Y2 _ _]). pose proof (fi_curfd _ _ Hi).
  pose proof (strictly_ascending_length l (curfd it) i32_MAX Y1 Y2). lia.
Qed.

(** The bounds hold for the list. *)
Definition hint_holds (lo hi : Z) (l : list Z) : Prop := lo <= Z.of_nat (length l) <= hi.

(** The directory's hint. *)
Lemma size_hint_dir_spec n fuel it d (w : World K) :
  fd_inv it (kern w) -> dirfd_iter it = Some d -> enough_fuel fuel -> (steps_left it < n)%nat ->
  exists lo hi, size_hint fuel it = Done (lo, Some hi) /\ 0 <= lo /\ hi <= i32_MAX /\
    wp (collect n fuel it) (fun l _ => hint_holds lo hi l) w.
Proof.
  intros Hi Hd Hf Hn. pose proof (collect_bound n fuel it w Hi Hf Hn) as Hup.
  pose proof (fi_curfd _ _ Hi) as Hc.
  destruct (fi_dir _ _ Hi d Hd) as [Ht Hdi]. unfold size_hint. rewrite Hd, Ht.
  destruct (size_hint_dir fuel d (kern w) (curfd it) Hf Hdi) as [[-> Hneg]|(es & p & Hs & ->)].
  - exists 0, 0. split_and!; [done|done|unfold i32_MAX; lia|].
    assert (exhausted it) as Hex by (unfold exhausted; by rewrite Ht, Hd).
    destruct n as [|n]; [lia|]. revert Hup. simpl. unfold wp, mbind, ST_bind.
    rewrite next_of_exhausted by (done || (unfold enough_fuel in Hf; lia)).
    destruct (drop_fditer it w) as [[[] w2]| | | |]; unfold hint_holds; simpl; lia || done.
  - eexists _, _. split_and!; [done|lia|lia|].
    eapply wp_mono; [apply wp_and; [exact Hup|]|].
    + eapply collect_buffered; try done. eapply wp_mono; [exact Hup|done].
    + unfold hint_holds. simpl. intros l w' [? ?]. lia.
Qed.

(** [FdIter::size_hint] against what is still to come. *)
Lemma size_hint_spec n fuel it (w : World K) :
  fd_inv it (kern w) -> enough_fuel fuel -> (steps_left it < n)%nat ->
  exists lo hi, size_hint fuel it = Done (lo, Some hi) /\ 0 <= lo /\ hi <= i32_MAX /\
    wp (collect n fuel it) (fun l _ => hint_holds lo hi l) w.
Proof.
  intros Hi Hf Hn. destruct (dirfd_iter it) as [d|] eqn:Hd; [by apply (size_hint_dir_spec n fuel it d)|].
  pose proof (collect_bound n fuel it w Hi Hf Hn) as Hup. pose proof (fi_curfd _ _ Hi) as Hc.
  unfold size_hint. rewrite Hd.
  replace (if has_dirfd target then None else None) with (@None DirFdIter)
    by (by destruct (has_dirfd target)).
  destruct (maxfd it) as [m|] eqn:Hm; last first.
  { eexists _, _. rewrite as_usize_small by (unfold i32_MAX, u32_MAX; lia).
    split_and!; [done|lia|lia|]. eapply wp_mono; [exact Hup|]. unfold hint_holds. simpl. intros. lia. }
  destruct (fi_maxfd _ _ Hi m Hm) as [Hmr _].
  assert (Hscan : wp (collect n fuel it) (fun l _ =>
    Z.of_nat (length l) <= Z.max 0 (m + 1 - curfd it) /\
    (possible it = true -> Z.of_nat (length l) = Z.max 0 (m + 1 - curfd it))) w).
  { revert Hup. unfold wp. destruct (collect n fuel it w) as [[l w']| | | |] eqn:Hcol; try done.
    intros _. eapply collect_scan; try done; lia. }
  destruct (Z.eqb_spec m (-1)) as [->|Hne].
  - exists 0, 0. split_and!; [done|lia|unfold i32_MAX; lia|].
    eapply wp_mono; [exact Hscan|]. unfold hint_holds. simpl. intros l _ []. lia.
  - rewrite debug_assert_ok by (apply Z.leb_le; lia). simpl.
    rewrite !as_usize_small by (unfold i32_MAX, u32_MAX in *; lia).
    rewrite usize_add_ok by (pose proof usize_MAX_large; unfold i32_MAX, u32_MAX in *; lia).
    simpl. eexists _, _. unfold saturating_sub. split_and!; [done|by destruct (possible it); lia|lia|].
    eapply wp_mono; [exact Hscan|]. unfold hint_holds. simpl. intros l _ [H1 H2].
    destruct (possible it); [specialize (H2 eq_refl)|]; lia.
Qed.

(** C21. [FdIter::size_hint] never panics and reads no byte outside the
    buffer, and its bounds are right: iterating to the end yields at least as
    many numbers as the lower bound says and at most as many as the upper
    bound, even if the directory fails on the way. *)
Theorem size_hint_correct fuel it (w : World K) :
  fd_inv it (kern w) -> enough_fuel fuel ->
  exists lo hi, size_hint fuel it = Done (lo, Some hi) /\
    wp (collect fuel fuel it) (fun l _ => hint_holds lo hi l) w.
Proof.
  intros Hi Hf. destruct (size_hint_spec fuel fuel it w Hi Hf) as (lo & hi & H1 & _ & _ & H2);
    [by eapply enough_steps|]. by exists lo, hi.
Qed.
End lengths.
