(* ===== verification/IterTests.v ===== *)
(** * The unit tests of src/iterfds/mod.rs

    [test_size_hint_generic] and [test_fused_generic], as programs with their
    assertions, and the proof that they pass for every iterator on every system,
    and not only in the situations in which a test run finds them. *)

From S2P Require Import Prelude Platform Ints Sys KernelSpec Util DirFdIter FdIter IterFds SizeHint.

(** ** Definitions *)

Section tests.
Context `{C : Config} {K : Type} `{SK : Sys K}.

(** [if let Some(high) = high { assert!(high >= low) }] *)
Definition assert_hint (low : Z) (high : option Z) : ST (World K) unit :=
  match high with Some high => assert (low <=? high) | None => mret tt end.

(** The most restrictive upper limit so far. *)
Definition tighten (init_high adj_high : option Z) : option Z :=
  match adj_high with
  | Some adj =>
      match init_high with
      | Some ihigh => if adj <? ihigh then Some adj else init_high
      | None => Some adj
      end
  | None => init_high
  end.

(** The [while let] loop; it leaves the iterator, the limits and the count. *)
Fixpoint size_hint_test_loop (n fuel : nat) (fditer : FdIter) (init_low : Z)
    (init_high : option Z) (i : Z) : ST (World K) (FdIter * Z * option Z * Z) :=
  match n with
  | O => out_of_fuel
  | S n' =>
      r ← next fuel fditer;
      let '(o, fditer) := (r : option Z * FdIter) in
      match o with
      | None => mret (fditer, init_low, init_high, i)
      | Some _ =>
          h ← lift (size_hint fuel fditer);
          let '(cur_low, cur_high) := (h : Z * option Z) in
          low1 ← lift (usize_add cur_low i);
          adj_low ← lift (usize_add low1 1);
          assert_hint cur_low cur_high;;
          adj_high ←
            (match cur_high with
             | Some cur_high =>
                 high1 ← lift (usize_add cur_high i);
                 adj ← lift (usize_add high1 1);
                 mret (Some adj)
             | None => mret None
             end);
          i ← lift (usize_add i 1);
          size_hint_test_loop n' fuel fditer
            (if init_low <? adj_low then adj_low else init_low)
            (tighten init_high adj_high) i
      end
  end.

Definition test_size_hint_generic (fuel : nat) (fditer : FdIter) : ST (World K) unit :=
  h ← lift (size_hint fuel fditer);
  let '(init_low, init_high) := (h : Z * option Z) in
  assert_hint init_low init_high;;
  r ← size_hint_test_loop fuel fuel fditer init_low init_high 0;
  let '(fditer, init_low, init_high, i) := (r : FdIter * Z * option Z * Z) in
  h ← lift (size_hint fuel fditer);
  let '(final_low, _) := (h : Z * option Z) in
  assert (final_low =? 0);;
  assert (init_low <=? i);;
  (match init_high with Some init_high => assert (i <=? init_high) | None => mret tt end);;
  drop_fditer fditer.

(** [fditer.by_ref().count()]: the iterator is still there afterwards. *)
Fixpoint count_by_ref (n fuel : nat) (fditer : FdIter) (count : Z)
  : ST (World K) (Z * FdIter) :=
  match n with
  | O => out_of_fuel
  | S n' =>
      r ← next fuel fditer;
      let '(o, fditer) := (r : option Z * FdIter) in
      match o with
      | Some _ => count ← lift (usize_add count 1); count_by_ref n' fuel fditer count
      | None => mret (count, fditer)
      end
  end.

Definition test_fused_generic (fuel : nat) (fditer : FdIter) : ST (World K) unit :=
  r ← count_by_ref fuel fuel fditer 0;
  let '(_, fditer) := (r : Z * FdIter) in
  r ← next fuel fditer;
  let '(o, fditer) := (r : option Z * FdIter) in
  assert (bool_decide (o = None));;
  drop_fditer fditer.

(** The builder of a test. *)
Definition test_builder (possible threadsafe : bool) : FdIterBuilder :=
  let b := fd_iter_builder_new in
  set_threadsafe threadsafe (if possible then set_possible true b else b).

(** [open_files]: [n] is the length of its array. *)
Fixpoint open_n (n : nat) : ST (World K) (list Z) :=
  match n with
  | O => mret []
  | S n' =>
      cur_fd ← libc_open "/" [O_RDONLY];
      assert (0 <=? cur_fd);;
      fds ← open_n n'; mret (cur_fd :: fds)
  end.
Definition open_files : ST (World K) (list Z) := open_n 10.

Fixpoint close_files (fds : list Z) : ST (World K) unit :=
  match fds with
  | [] => mret tt
  | fd :: fds => libc_close fd;; close_files fds
  end.

(** One check with each setting of [threadsafe]. *)
Definition both (check : FdIter -> ST (World K) unit) (possible : bool) : ST (World K) unit :=
  it ← iter_from (test_builder possible false) 0; check it;;
  it ← iter_from (test_builder possible true) 0; check it.

(** The body that the four tests share: before and after files are opened. *)
Definition around_files (check : FdIter -> ST (World K) unit) (possible : bool)
  : ST (World K) unit :=
  both check possible;;
  fds ← open_files;
  both check possible;;
  close_files fds.

Definition test_size_hint_open (fuel : nat) : ST (World K) unit :=
  around_files (test_size_hint_generic fuel) false.
Definition test_size_hint_possible (fuel : nat) : ST (World K) unit :=
  around_files (test_size_hint_generic fuel) true.
Definition test_fused_open (fuel : nat) : ST (World K) unit :=
  around_files (test_fused_generic fuel) false.
Definition test_fused_possible (fuel : nat) : ST (World K) unit :=
  around_files (test_fused_generic fuel) true.
End tests.

(** ** The tests pass *)

Section pass.
Context `{C : Config, !ConfigOk C} {K : Type} `{SK : Sys K} `{KV : KernelView K}
  {KS : KernelSpec K}.

(** Between two states of an iteration, and when the iterator is dropped. *)
Record same_process (it : FdIter) (w : World K) (it' : FdIter) (w' : World K) : Prop := {
  sp_view : fd_view it' (kern w') = fd_view it (kern w);
  sp_env : env (kern w') = env (kern w);
  sp_statics : statics w' = statics w;
}.

Lemma same_process_trans it1 w1 it2 w2 it3 w3 :
  same_process it1 w1 it2 w2 -> same_process it2 w2 it3 w3 -> same_process it1 w1 it3 w3.
Proof. intros [] []. constructor; congruence. Qed.

Lemma next_same_process it w o it' w' :
  next_post it w (o, it') w' -> same_process it w it' w'.
Proof. by intros (? & ? & ? & _). Qed.

Lemma same_process_drop it w it' w' :
  same_process it w it' w' ->
  wp (drop_fditer it') (fun _ w2 => fds (kern w2) = fd_view it (kern w) /\
    env (kern w2) = env (kern w) /\ statics w2 = statics w) w'.
Proof.
  intros [H1 H2 H3]. eapply wp_mono; [apply drop_fditer_spec|].
  intros [] w2 (V1 & [V2 _] & V3). split_and!; congruence.
Qed.

Lemma collect_next_Some n fuel it (w : World K) fd it' w1 (Q : list Z -> World K -> Prop) :
  next fuel it w = Done ((Some fd, it'), w1) ->
  wp (collect (S n) fuel it) Q w -> wp (collect n fuel it') (fun l w2 => Q (fd :: l) w2) w1.
Proof.
  intros Hn. simpl. unfold wp, mbind, ST_bind. rewrite Hn.
  by destruct (collect n fuel it' w1) as [[l w2]| | | |].
Qed.

(** A state of the loop: what is still to come has [len] elements. *)
Definition remaining (n fuel : nat) (it : FdIter) (w : World K) (len : Z) : Prop :=
  wp (collect n fuel it) (fun l _ => Z.of_nat (length l) = len) w.

Lemma remaining_exists n fuel it (w : World K) :
  fd_inv it (kern w) -> enough_fuel fuel -> (steps_left it < n)%nat ->
  exists len, remaining n fuel it w len /\ 0 <= len <= i32_MAX - curfd it.
Proof.
  intros Hi Hf Hn. pose proof (collect_bound n fuel it w Hi Hf Hn) as Hc.
  apply wp_done in Hc as (l & w' & Hl & Hb). exists (Z.of_nat (length l)).
  split; [|lia]. unfold remaining. apply wp_done. by exists l, w'.
Qed.

Lemma remaining_hint n fuel it (w : World K) len :
  fd_inv it (kern w) -> enough_fuel fuel -> (steps_left it < n)%nat -> remaining n fuel it w len ->
  exists lo hi, size_hint fuel it = Done (lo, Some hi) /\ 0 <= lo <= len /\ len <= hi <= i32_MAX.
Proof.
  intros Hi Hf Hn Hr. destruct (size_hint_spec n fuel it w Hi Hf Hn) as (lo & hi & H1 & H2 & H3 & H4).
  exists lo, hi. split; [done|]. unfold remaining in Hr.
  apply wp_done in Hr as (l & w' & Hl & Hlen). unfold wp in H4. rewrite Hl in H4.
  unfold hint_holds in H4. lia.
Qed.

(** Where the loop ends: the iterator is exhausted, and the limits hold. *)
Lemma size_hint_test_loop_spec n fuel it (w : World K) len init_low init_high i :
  fd_inv it (kern w) -> enough_fuel fuel -> (steps_left it < n)%nat ->
  remaining n fuel it w len -> 0 <= i -> i + len <= i32_MAX ->
  init_low <= i + len <= init_high ->
  wp (size_hint_test_loop n fuel it init_low (Some init_high) i)
    (fun '(it', low, high, i') w' =>
       fd_inv it' (kern w') /\ exhausted it' /\ same_process it w it' w' /\
       i' = i + len /\ exists h, high = Some h /\ low <= i' <= h) w.
Proof.
  intros Hi Hf. revert it w Hi len init_low init_high i.
  induction n as [|n IH]; intros it w Hi len init_low init_high i Hn Hr H0 Hmax Hlim; [lia|].
  simpl. apply wp_bind.
  pose proof (fd_next_spec fuel it w Hi Hf) as Hnext. apply wp_done in Hnext as ([o it'] & w1 & He & Hp).
  apply wp_done. exists (o, it'), w1. split; [done|].
  pose proof (next_same_process it w o it' w1 Hp) as Hsame. destruct Hp as (_ & _ & _ & Hi' & _ & Ho). destruct o as [fd|].
  - destruct Ho as (H1 & H2 & _).
    pose proof (collect_next_Some n fuel it w fd it' w1 _ He Hr) as Hr'.
    assert (Hn' : (steps_left it' < n)%nat) by (unfold steps_left in *; lia).
    assert (Hlen : remaining n fuel it' w1 (len - 1)).
    { eapply wp_mono; [exact Hr'|]. simpl. intros l _ ?. lia. }
    destruct (remaining_hint n fuel it' w1 (len - 1) Hi' Hf Hn' Hlen) as (lo & hi & Hh & Hlo & Hhi).
    pose proof usize_MAX_large as Hus. unfold u32_MAX, i32_MAX in *.
    apply wp_bind. eapply wp_lift; [exact Hh|]. cbn beta iota.
    apply wp_bind. eapply wp_lift; [apply usize_add_ok; lia|].
    apply wp_bind. eapply wp_lift; [apply usize_add_ok; lia|].
    apply wp_bind, wp_assert; [apply Z.leb_le; lia|].
    apply wp_bind, wp_bind. eapply wp_lift; [apply usize_add_ok; lia|].
    apply wp_bind. eapply wp_lift; [apply usize_add_ok; lia|]. apply wp_ret.
    apply wp_bind. eapply wp_lift; [apply usize_add_ok; lia|].
    assert (Hth : exists h, tighten (Some init_high) (Some (hi + i + 1)) = Some h /\ i + len <= h).
    { simpl. destruct (Z.ltb_spec (hi + i + 1) init_high); eexists; (split; [done|lia]). }
    destruct Hth as (h & -> & Hh').
    eapply wp_mono; [apply (IH it' w1 Hi' (len - 1)); try done; try lia|].
    + destruct (Z.ltb_spec init_low (lo + i + 1)); lia.
    + intros [[[it2 low] high] i2] w2 (A1 & A2 & A3 & A4 & A5).
      split_and!; [done|done|by eapply same_process_trans|lia|done].
  - apply wp_ret. pose proof (next_None_exhausted _ _ _ _ _ He) as Hex.
    assert (len = 0) as ->.
    { revert Hr. unfold remaining. simpl. unfold wp, mbind, ST_bind. rewrite He.
      by destruct (drop_fditer it' w1) as [[[] ?]| | | |]; simpl; intros Hx; done || lia. }
    split_and!; try done; [lia|]. exists init_high. split; [done|lia].
Qed.

(** The lower limit of an exhausted iterator is 0. *)
Lemma exhausted_hint fuel it (w : World K) :
  fd_inv it (kern w) -> enough_fuel fuel -> exhausted it ->
  exists hi, size_hint fuel it = Done (0, Some hi).
Proof.
  intros Hi Hf Hex.
  destruct (remaining_exists (S (steps_left it)) fuel it w Hi Hf) as (len & Hr & Hlen); [lia|].
  assert (len = 0) as ->.
  { revert Hr. unfold remaining. simpl. unfold wp, mbind, ST_bind.
    rewrite next_of_exhausted by (done || (unfold enough_fuel in Hf; lia)).
    by destruct (drop_fditer it w) as [[[] ?]| | | |]; simpl; intros Hx; done || lia. }
  destruct (remaining_hint _ fuel it w 0 Hi Hf (Nat.lt_succ_diag_r _) Hr) as (lo & hi & -> & H1 & _).
  exists hi. by replace lo with 0 by lia.
Qed.

Lemma test_size_hint_spec fuel it (w : World K) :
  fd_inv it (kern w) -> enough_fuel fuel ->
  wp (test_size_hint_generic fuel it) (fun _ w' =>
    fds (kern w') = fd_view it (kern w) /\ env (kern w') = env (kern w) /\
    statics w' = statics w) w.
Proof.
  intros Hi Hf. pose proof (fi_curfd _ _ Hi) as Hc.
  pose proof (enough_steps _ _ _ Hi Hf) as Hn. unfold test_size_hint_generic.
  destruct (remaining_exists fuel fuel it w Hi Hf Hn) as (len & Hr & Hlen).
  destruct (remaining_hint fuel fuel it w len Hi Hf Hn Hr) as (lo & hi & Hh & Hlo & Hhi).
  apply wp_bind. eapply wp_lift; [exact Hh|]. cbn beta iota.
  apply wp_bind, wp_assert; [apply Z.leb_le; lia|]. apply wp_bind.
  eapply wp_mono; [apply (size_hint_test_loop_spec fuel fuel it w len); done || lia|].
  intros [[[it' low] high] i] w1 (Hi' & Hex & Hsame & -> & h & -> & Hlim). cbn beta iota.
  destruct (exhausted_hint fuel it' w1 Hi' Hf Hex) as [hi' Hh'].
  apply wp_bind. eapply wp_lift; [exact Hh'|]. cbn beta iota.
  apply wp_bind, wp_assert; [done|]. apply wp_bind, wp_assert; [apply Z.leb_le; lia|].
  apply wp_bind, wp_assert; [apply Z.leb_le; lia|].
  by apply same_process_drop.
Qed.

Lemma count_by_ref_spec n fuel it (w : World K) c :
  fd_inv it (kern w) -> enough_fuel fuel -> (steps_left it < n)%nat ->
  0 <= c <= curfd it ->
  wp (count_by_ref n fuel it c) (fun '(_, it') w' =>
    exhausted it' /\ same_process it w it' w') w.
Proof.
  intros Hi Hf. revert it w Hi c. induction n as [|n IH]; intros it w Hi c Hn Hc; [lia|]. simpl.
  pose proof (fd_next_spec fuel it w Hi Hf) as Hnext.
  apply wp_done in Hnext as ([o it'] & w1 & He & Hp).
  apply wp_bind, wp_done. exists (o, it'), w1. split; [done|].
  pose proof (next_same_process it w o it' w1 Hp) as Hsame. destruct Hp as (_ & _ & _ & Hi' & _ & Ho). destruct o as [fd|].
  - destruct Ho as (H1 & H2 & _). pose proof usize_MAX_large.
    apply wp_bind. eapply wp_lift; [apply usize_add_ok; unfold u32_MAX, i32_MAX in *; lia|].
    eapply wp_mono; [apply (IH it' w1 Hi' (c + 1)); [unfold steps_left in *; lia|lia]|].
    intros [cnt it2] w2 [? ?]. split; [done|by eapply same_process_trans].
  - apply wp_ret. split; [|done]. by eapply next_None_exhausted.
Qed.

Lemma test_fused_spec fuel it (w : World K) :
  fd_inv it (kern w) -> enough_fuel fuel ->
  wp (test_fused_generic fuel it) (fun _ w' =>
    fds (kern w') = fd_view it (kern w) /\ env (kern w') = env (kern w) /\
    statics w' = statics w) w.
Proof.
  intros Hi Hf. pose proof (fi_curfd _ _ Hi). unfold test_fused_generic. apply wp_bind.
  eapply wp_mono; [apply (count_by_ref_spec fuel fuel it w 0); [done|done| |lia]|].
  { by eapply enough_steps. }
  intros [cnt it'] w1 [Hex Hsame]. cbn beta iota. apply wp_bind, wp_done. exists (None, it'), w1.
  split; [apply next_of_exhausted; [done|]; unfold enough_fuel in Hf; lia|].
  apply wp_bind, wp_assert; [done|].
  by apply same_process_drop.
Qed.

(** [open_files] panics, or the table is as before but for the new files. *)
Lemma open_n_spec n (w : World K) :
  world_ok w ->
  open_n n w = Panic \/
  exists l w', open_n n w = Done (l, w') /\ env (kern w') = env (kern w) /\ world_ok w' /\
    forall f, fds (kern w) !! f = if decide (f ∈ l) then None else fds (kern w') !! f.
Proof.
  revert w. induction n as [|n IH]; intros w Hok.
  { right. exists [], w. split_and!; [done..|]. intros f. by rewrite decide_False by (by apply not_elem_of_nil). }
  simpl. unfold libc_open, call, mbind, ST_bind, mret, ST_ret, assert, panic.
  destruct (sys_open _ _ (kern w)) as [r k] eqn:Hk. destruct (Z.leb_spec 0 r); [|by left].
  destruct (open_spec _ _ _ _ _ Hk) as [[? _]|(_ & Hr & He & [fl Hf] & _)]; [lia|].
  assert (Hok1 : world_ok (mkWorld k (statics w))) by (unfold world_ok in *; simpl; by rewrite He).
  simpl. destruct (IH _ Hok1) as [-> |(l & w' & -> & He' & Hok' & Hl)]; [by left|]. right.
  exists (r :: l), w'. split_and!; [done|simpl in *; congruence|done|].
  intros f. specialize (Hl f). simpl in Hl. rewrite Hf in Hl.
  destruct (decide (f = r)) as [->|Hne].
  - by rewrite decide_True by left.
  - rewrite lookup_insert_ne in Hl by done. rewrite Hl.
    destruct (decide (f ∈ l)); [by rewrite decide_True by (by right)|].
    by rewrite decide_False by (by intros [?|?]%elem_of_cons).
Qed.

Lemma close_files_spec l (w : World K) :
  wp (close_files l) (fun _ w' =>
    forall f, fds (kern w') !! f = if decide (f ∈ l) then None else fds (kern w) !! f) w.
Proof.
  revert w. induction l as [|fd l IH]; intros w.
  { apply wp_ret. intros f. by rewrite decide_False by (by apply not_elem_of_nil). }
  apply wp_bind, wp_libc_close. intros k Hk _.
  eapply wp_mono; [apply IH|]. intros [] w' Hw f. rewrite Hw. cbn [kern]. rewrite Hk.
  destruct (decide (f = fd)) as [->|Hne].
  - rewrite lookup_delete_eq, (decide_True (P := fd ∈ fd :: l)) by left. by case_decide.
  - rewrite lookup_delete_ne by done. destruct (decide (f ∈ l)).
    + by rewrite decide_True by (by right).
    + by rewrite decide_False by (by intros [?|?]%elem_of_cons).
Qed.

(** A check that passes for every iterator and leaves the table alone. *)
Definition passes (check : FdIter -> ST (World K) unit) : Prop := forall it w,
  fd_inv it (kern w) -> wp (check it) (fun _ w' =>
    fds (kern w') = fd_view it (kern w) /\ env (kern w') = env (kern w) /\
    statics w' = statics w) w.

Lemma both_passes check possible w :
  passes check -> world_ok w ->
  wp (both check possible) (fun _ w' => fds (kern w') = fds (kern w) /\ world_ok w') w.
Proof.
  intros Hc Hok. assert (0 <= i32_MAX) by (unfold i32_MAX; lia). unfold both.
  assert (Hone : forall b w, world_ok w ->
    wp (it ← iter_from b 0; check it)
      (fun _ w' => fds (kern w') = fds (kern w) /\ world_ok w') w).
  { intros b v Hv. apply wp_bind. eapply wp_mono; [by apply iter_from_spec|].
    intros it v1 (_ & Hv1 & Hview & Hi & _). eapply wp_mono; [by apply Hc|].
    intros [] v2 (H1 & H2 & H3). split; [congruence|]. unfold world_ok in *. by rewrite H2, H3. }
  pose proof (Hone (test_builder possible false) w Hok) as H1. apply wp_bind.
  unfold wp at 1 in H1. unfold mbind, ST_bind in H1. unfold wp at 1.
  destruct (iter_from _ _ w) as [[it w1]| | | |]; try done. unfold wp, mbind, ST_bind.
  destruct (check it w1) as [[[] w2]| | | |]; try done. destruct H1 as [H1 H2].
  pose proof (Hone (test_builder possible true) w2 H2) as H3.
  unfold wp, mbind, ST_bind in H3.
  destruct (iter_from _ _ w2) as [[it2 w3]| | | |]; try done.
  destruct (check it2 w3) as [[[] w4]| | | |]; try done. destruct H3. split; [congruence|done].
Qed.

(** Such a check passes around [open_files], unless that fails to open a file. *)
Lemma around_files_spec check possible w :
  passes check -> world_ok w ->
  (exists w', around_files check possible w = Done (tt, w') /\ fds (kern w') = fds (kern w)) \/
  (around_files check possible w = Panic /\
   exists w1, fds (kern w1) = fds (kern w) /\ open_files w1 = Panic).
Proof.
  intros Hc Hok. unfold around_files, mbind, ST_bind.
  destruct (proj1 (wp_done _ _ _) (both_passes check possible w Hc Hok)) as ([] & w1 & -> & H1 & Hok1).
  destruct (open_n_spec 10 w1 Hok1) as [Hp|(l & w2 & Hl & He & Hok2 & Ht)].
  { right. unfold open_files. rewrite Hp. split; [done|]. by exists w1. }
  unfold open_files. rewrite Hl. left.
  destruct (proj1 (wp_done _ _ _) (both_passes check possible w2 Hc Hok2)) as ([] & w3 & -> & H3 & _).
  destruct (proj1 (wp_done _ _ _) (close_files_spec l w3)) as ([] & w4 & -> & H4).
  exists w4. split; [done|]. apply map_eq. intros f. by rewrite H4, H3, <- H1, Ht.
Qed.
End pass.

(** ** Properties *)

Section properties.
Context `{C : Config, !ConfigOk C} {K : Type} `{SK : Sys K} `{KV : KernelView K}
  {KS : KernelSpec K}.

(** The crate's tests of [size_hint] pass on every target and every system,
    whatever is open, and leave the table as it was: after every step of an
    iteration the limits are in order, none of them is broken at the end, an
    exhausted iterator promises nothing more, and no arithmetic of the test
    overflows. Only if the system does not let a test open its ten files does it
    fail, and then in [open_files]. *)
Theorem test_size_hint_passes fuel w :
  world_ok w -> enough_fuel fuel ->
  forall test, test ∈ [test_size_hint_open; test_size_hint_possible] ->
  (exists w', test fuel w = Done (tt, w') /\ fds (kern w') = fds (kern w)) \/
  (test fuel w = Panic /\ exists w1, fds (kern w1) = fds (kern w) /\ open_files w1 = Panic).
Proof.
  intros Hok Hf test Ht. pose proof (fun it w Hi => test_size_hint_spec fuel it w Hi Hf) as Hp.
  repeat (apply elem_of_cons in Ht as [->|Ht]; [by apply around_files_spec|]).
  by apply not_elem_of_nil in Ht.
Qed.

(** The crate's tests that iterators are fused pass in the same way. *)
Theorem test_fused_passes fuel w :
  world_ok w -> enough_fuel fuel ->
  forall test, test ∈ [test_fused_open; test_fused_possible] ->
  (exists w', test fuel w = Done (tt, w') /\ fds (kern w') = fds (kern w)) \/
  (test fuel w = Panic /\ exists w1, fds (kern w1) = fds (kern w) /\ open_files w1 = Panic).
Proof.
  intros Hok Hf test Ht. pose proof (fun it w Hi => test_fused_spec fuel it w Hi Hf) as Hp.
  repeat (apply elem_of_cons in Ht as [->|Ht]; [by apply around_files_spec|]).
  by apply not_elem_of_nil in Ht.
Qed.
End properties.
