(* ===== verification/UtilTests.v ===== *)
(** * The unit tests of src/util.rs and src/iterfds/dirfd.rs

    The tests as programs with their assertions. Those that touch no system are
    evaluated; [test_is_fd_valid] and [test_set_cloexec] are proved to pass on
    every system that lets them open a file. *)

From S2P Require Import Prelude Platform Ints Sys KernelSpec Util DirFdIter.

(** ** Tests without a system *)

Section pure.
Context `{C : Config} {S : Type}.

(** [assert_eq!(o, b)] *)
Definition assert_eq {A} `{EqDecision A} (o : outcome A) (b : A) : ST S unit :=
  a ← lift o; assert (bool_decide (a = b)).

Definition test_inspect_keep_fds : ST S unit :=
  assert_eq (inspect_keep_fds []) (i32_MIN, true);;
  assert_eq (inspect_keep_fds [0]) (0, true);;
  assert_eq (inspect_keep_fds [0; 1]) (1, true);;
  assert_eq (inspect_keep_fds [1; 0]) (1, false);;
  assert_eq (inspect_keep_fds [0; 1; 2; 5; 7]) (7, true);;
  assert_eq (inspect_keep_fds [0; 1; 2; 7; 5]) (7, false);;
  assert_eq (inspect_keep_fds [-1]) (-1, true);;
  assert_eq (inspect_keep_fds [i32_MIN]) (i32_MIN, true).

(** One call with the answer [kept], which leaves the slice [rest]. *)
Definition check_keep (keep_fds : list Z) (fd : Z) (fds_sorted kept : bool) (rest : list Z)
  : ST S (list Z) :=
  let '(b, keep_fds) := check_should_keep keep_fds fd fds_sorted in
  assert (Bool.eqb b kept);; assert_eq (Done keep_fds) rest;; mret keep_fds.

Definition test_check_should_keep_sorted : ST S unit :=
  keep_fds ← check_keep [0; 1; 5; 8; 10] 0 true true [0; 1; 5; 8; 10];
  keep_fds ← check_keep keep_fds 1 true true [1; 5; 8; 10];
  keep_fds ← check_keep keep_fds 2 true false [5; 8; 10];
  keep_fds ← check_keep keep_fds 2 true false [5; 8; 10];
  keep_fds ← check_keep keep_fds 3 true false [5; 8; 10];
  keep_fds ← check_keep keep_fds 5 true true [5; 8; 10];
  _ ← check_keep keep_fds 6 true false [8; 10]; mret tt.

Definition test_check_should_keep_not_sorted : ST S unit :=
  keep_fds ← check_keep [0; 1; 5; 8; 10] 0 false true [0; 1; 5; 8; 10];
  keep_fds ← check_keep keep_fds 1 false true [0; 1; 5; 8; 10];
  keep_fds ← check_keep keep_fds 2 false false [0; 1; 5; 8; 10];
  keep_fds ← check_keep keep_fds 3 false false [0; 1; 5; 8; 10];
  keep_fds ← check_keep keep_fds 5 false true [0; 1; 5; 8; 10];
  _ ← check_keep keep_fds 6 false false [0; 1; 5; 8; 10]; mret tt.

Definition test_simplify_keep_fds : ST S unit :=
  assert_eq (simplify_keep_fds [0; 1; 2] true 3) ([], 3);;
  assert_eq (simplify_keep_fds [2; 3; 4; 5; 6; 7] true 3) ([], 8);;
  assert_eq (simplify_keep_fds [3; 4; 5; 8; 10] true 3) ([8; 10], 6);;
  assert_eq (simplify_keep_fds [3; 5; 8; 10] true 3) ([5; 8; 10], 4);;
  assert_eq (simplify_keep_fds [4; 5; 8; 10] true 3) ([4; 5; 8; 10], 3);;
  assert_eq (simplify_keep_fds [2; 1; 0] false 3) ([2; 1; 0], 3);;
  assert_eq (simplify_keep_fds [4; 5; 8; 10; 3] false 3) ([4; 5; 8; 10; 3], 3).

(** The byte literals of [test_parse_int_bytes], and its [BufWriter]. *)
Record BufWriter := { bw_buf : list Z; bw_i : nat }.

Definition buf_new : BufWriter := {| bw_buf := replicate 80 0; bw_i := 0 |}.

Definition iter_bytes (b : BufWriter) : bytes_iter := Done <$> take (bw_i b) (bw_buf b).

Fixpoint write_bytes (b : BufWriter) (s : list Z) : outcome BufWriter :=
  match s with
  | [] => mret b
  | ch :: s =>
      if decide (bw_i b < length (bw_buf b))%nat
      then write_bytes {| bw_buf := <[bw_i b := ch]> (bw_buf b); bw_i := bw_i b + 1 |} s
      else Panic
  end.

Definition write_str (b : BufWriter) (s : list Z) : outcome (option BufWriter) :=
  if decide (length (bw_buf b) < bw_i b + length s)%nat then mret None
  else b ← write_bytes b s; mret (Some b).

Definition test_parse_int_bytes : ST S unit :=
  let parse l := parse_int_bytes (Done <$> l) in
  assert_eq (parse [48]) (Some 0);;
  assert_eq (parse [49; 48]) (Some 10);;
  assert_eq (parse [49; 52; 50; 51]) (Some 1423);;
  assert_eq (parse [32; 48]) None;;
  assert_eq (parse [48; 32]) None;;
  assert_eq (parse [45; 49]) None;;
  assert_eq (parse [43; 49]) None;;
  assert_eq (parse [49; 46]) None;;
  assert_eq (parse []) None;;
  b ← lift (write_str buf_new (decimal (as_u32 i32_MAX + 1)));
  match b with
  | Some b => assert_eq (parse_int_bytes (iter_bytes b)) None
  | None => panic
  end.
End pure.

(** [check_ok!] and [check_err!] of [test_apply_range], on the variables that
    their closures capture. *)
Section ranges.
Context `{C : Config}.

Definition check_ok (minfd : Z) (keep_fds : list Z) (calls : list (Z * Z))
  : ST (list (Z * Z)) unit :=
  modify (fun _ => []);;
  r ← apply_range minfd keep_fds (fun low high =>
        ranges ← gets id;
        assert (length ranges <? 100)%nat;;
        modify (fun _ => ranges ++ [(low, high)]);; mret (Ok tt));
  assert (is_ok r);;
  ranges ← gets id; assert_eq (Done ranges) calls.

Definition check_err (minfd : Z) (keep_fds : list Z) (expected : Z * Z)
  : ST (option (Z * Z)) unit :=
  modify (fun _ => None);;
  r ← apply_range minfd keep_fds (fun low high =>
        c ← gets id;
        assert (bool_decide (c = None));;
        modify (fun _ => Some (low, high));; mret Err);
  assert (negb (is_ok r));;
  c ← gets id; assert_eq (Done c) (Some expected).

Definition test_apply_range_ok : ST (list (Z * Z)) unit :=
  check_ok 0 [] [(0, i32_MAX)];;
  check_ok (-100) [] [(-100, i32_MAX)];;
  check_ok 3 [0; 2; 3; 4; 5; 6] [(7, i32_MAX)];;
  check_ok 3 [0; 2] [(3, i32_MAX)];;
  check_ok 3 [3; 4; 5; 6] [(7, i32_MAX)];;
  check_ok 3 [4; 5; 6] [(3, 3); (7, i32_MAX)];;
  check_ok 3 [5; 6; 9; 10] [(3, 4); (7, 8); (11, i32_MAX)];;
  check_ok 3 [5; 6; 9; 10; 20; 23] [(3, 4); (7, 8); (11, 19); (21, 22); (24, i32_MAX)].

Definition test_apply_range_err : ST (option (Z * Z)) unit :=
  check_err 0 [] (0, i32_MAX);;
  check_err (-100) [] (-100, i32_MAX);;
  check_err 3 [0; 2; 3; 4; 5; 6] (7, i32_MAX);;
  check_err 3 [0; 2] (3, i32_MAX);;
  check_err 3 [3; 4; 5; 6] (7, i32_MAX);;
  check_err 3 [4; 5; 6] (3, 3);;
  check_err 3 [5; 6; 9; 10] (3, 4);;
  check_err 3 [5; 6; 9; 10; 20; 23] (3, 4).
End ranges.

(** ** Tests of the system *)

Section system.
Context `{C : Config} {K : Type} `{SK : Sys K}.

Definition open_root : ST (World K) Z :=
  fd ← libc_open "/" [O_RDONLY]; assert (0 <=? fd);; mret fd.

Definition with_fd (f : Z -> ST (World K) unit) : ST (World K) unit :=
  fd ← open_root; f fd;; libc_close fd.

Definition test_is_fd_valid : ST (World K) unit :=
  b ← is_fd_valid (-1); assert (negb b);;
  b ← is_fd_valid i32_MAX; assert (negb b);;
  b ← is_fd_valid 0; assert b;;
  with_fd (fun fd => b ← is_fd_valid fd; assert b).

Definition is_cloexec (fd : Z) : ST (World K) bool :=
  flags ← call (sys_fcntl_getfd fd);
  assert (0 <=? flags);;
  mret (Z.land flags FD_CLOEXEC =? FD_CLOEXEC).

Definition test_set_cloexec : ST (World K) unit :=
  set_cloexec (-1);;
  set_cloexec i32_MAX;;
  with_fd (fun fd =>
    b ← is_cloexec fd; assert (negb b);;
    set_cloexec fd;;
    b ← is_cloexec fd; assert b).
End system.

(** ** Lemmas *)

Section system_spec.
Context `{C : Config} {K : Type} `{SK : Sys K} `{KV : KernelView K} {KS : KernelSpec K}.

(** The test [m] passes and leaves the table as it was, or [open] fails. *)
Definition passes_or_no_root (m : ST (World K) unit) (w : World K) : Prop :=
  (exists w', m w = Done (tt, w') /\ fds (kern w') = fds (kern w)) \/
  (m w = Panic /\ exists w1, fds (kern w1) = fds (kern w) /\ open_root w1 = Panic).

(** What a closure may do with a new descriptor that is not close-on-exec. *)
Definition uses_fd (f : Z -> ST (World K) unit) : Prop := forall fd fl w,
  fds (kern w) !! fd = Some fl -> Z.land fl FD_CLOEXEC = 0 ->
  wp (f fd) (fun _ w' => delete fd (fds (kern w')) = delete fd (fds (kern w))) w.

Lemma with_fd_spec f w : uses_fd f -> passes_or_no_root (with_fd f) w.
Proof.
  intros Hu. unfold with_fd, open_root, libc_open, call, assert, panic, passes_or_no_root.
  unfold mbind, ST_bind, mret, ST_ret.
  destruct (sys_open _ _ (kern w)) as [fd k] eqn:Hk. destruct (Z.leb_spec 0 fd).
  - left. destruct (open_spec _ _ _ _ _ Hk) as [[? _]|(_ & Hn & _ & [fl Hf] & _)]; [lia|].
    assert (Hfd : fds k !! fd = Some fl) by (rewrite Hf; apply lookup_insert_eq).
    pose proof (open_flags _ _ _ _ _ _ Hk ltac:(done) Hfd) as Hfl. rewrite decide_False in Hfl.
    2: { by intros [?|?%not_elem_of_nil]%elem_of_cons. }
    specialize (Hu fd fl (mkWorld k (statics w)) Hfd Hfl). apply wp_done in Hu as ([] & w1 & -> & Hw).
    simpl in Hw. rewrite Hf, delete_insert_id in Hw by done.
    assert (Hclose : wp (libc_close fd) (fun _ w' => fds (kern w') = fds (kern w)) w1).
    { apply wp_libc_close. intros k' Hk' _. simpl. by rewrite Hk', Hw. }
    apply wp_done in Hclose as ([] & w2 & -> & H2). by exists w2.
  - right. split; [done|]. exists w. split; [done|].
    unfold open_root, libc_open, call, assert, panic, mbind, ST_bind. rewrite Hk.
    by destruct (Z.leb_spec 0 fd); [lia|].
Qed.

(** A step before the rest of a test that leaves the table alone. *)
Lemma passes_bind {A} (m : ST (World K) A) (f : A -> ST (World K) unit) w :
  wp m (fun a w' => fds (kern w') = fds (kern w) /\ passes_or_no_root (f a) w') w ->
  passes_or_no_root (m ≫= f) w.
Proof.
  intros (a & w1 & Hm & H1 & Hf)%wp_done. unfold passes_or_no_root, mbind, ST_bind in *.
  rewrite Hm. rewrite H1 in Hf. done.
Qed.

Lemma passes_assert (b : bool) (m : ST (World K) unit) w :
  b = true -> passes_or_no_root m w -> passes_or_no_root (assert b;; m) w.
Proof. by intros ->. Qed.

(** A look at whether a descriptor is valid. *)
Lemma passes_is_fd_valid fd (f : bool -> ST (World K) unit) w :
  (forall w', fds (kern w') = fds (kern w) ->
     passes_or_no_root (f (bool_decide (is_Some (fds (kern w) !! fd)))) w') ->
  passes_or_no_root (b ← is_fd_valid fd; f b) w.
Proof.
  intros Hf. apply passes_bind. eapply wp_mono; [apply is_fd_valid_spec|].
  intros b w1 (Hb & [H1 _] & _). split; [done|].
  replace b with (bool_decide (is_Some (fds (kern w) !! fd))); [by apply Hf|].
  destruct b; [by apply bool_decide_eq_true_2, Hb|].
  apply bool_decide_eq_false_2. by intros ?%Hb.
Qed.

Lemma not_open fd (k : K) :
  fd < 0 \/ i32_MAX <= fd -> fds k !! fd = None.
Proof.
  intros Hfd. destruct (fds k !! fd) as [fl|] eqn:Hfl; [|done]. apply fds_wf in Hfl. lia.
Qed.

Lemma set_cloexec_not_open fd (w : World K) :
  fd < 0 \/ i32_MAX <= fd ->
  wp (set_cloexec fd) (fun _ w' => fds (kern w') = fds (kern w)) w.
Proof.
  intros Hfd. eapply wp_mono; [apply set_cloexec_spec|]. intros [] w' [Hm _].
  apply map_eq. intros f. rewrite Hm. case_decide as Hd; [|done]. subst f.
  by rewrite not_open.
Qed.

Lemma is_cloexec_spec fd fl (w : World K) :
  fds (kern w) !! fd = Some fl ->
  wp (is_cloexec fd) (fun b w' => b = (Z.land fl FD_CLOEXEC =? FD_CLOEXEC) /\
    fds (kern w') = fds (kern w)) w.
Proof.
  intros Hfl. unfold is_cloexec. apply wp_bind, wp_call. intros r k Hk.
  destruct (getfd_spec _ _ _ _ Hk) as [-> [Hv _]]. rewrite Hfl. simpl.
  pose proof (fds_wf _ _ _ Hfl) as [_ Hpos].
  apply wp_bind, wp_assert; [by apply Z.leb_le|]. by apply wp_ret.
Qed.

Lemma cloexec_closure_uses : uses_fd (fun fd =>
    b ← is_cloexec fd; assert (negb b);; set_cloexec fd;; b ← is_cloexec fd; assert b).
Proof.
  intros fd fl w Hfl H0. pose proof FD_CLOEXEC_wf as Hpos.
  apply wp_bind. eapply wp_mono; [by apply is_cloexec_spec|]. intros b w1 [-> H1].
  apply wp_bind, wp_assert; [rewrite H0; apply negb_true_iff, Z.eqb_neq; lia|].
  apply wp_bind. eapply wp_mono; [apply set_cloexec_spec|]. intros [] w2 [Hm _].
  assert (Hfl2 : fds (kern w2) !! fd = Some (Z.lor fl FD_CLOEXEC)).
  { by rewrite Hm, decide_True, H1, Hfl. }
  apply wp_bind. eapply wp_mono; [by apply is_cloexec_spec|]. intros b w3 [-> H3].
  apply wp_assert.
  - apply Z.eqb_eq. rewrite Z.land_lor_distr_l, Z.land_diag, H0. apply Z.lor_0_l.
  - apply map_eq. intros f. destruct (decide (f = fd)) as [->|];
      [by rewrite !lookup_delete_eq|].
    rewrite !lookup_delete_ne, H3, Hm, H1 by done. by case_decide.
Qed.
End system_spec.

(** ** The tests pass *)

Section pass.
Context `{C : Config} {S : Type}.

Example pass_inspect_keep_fds (s : S) : test_inspect_keep_fds s = Done (tt, s).
Proof. destruct C as [t [] ? ? ? ?]; reflexivity. Qed.
Example pass_check_should_keep_sorted (s : S) : test_check_should_keep_sorted s = Done (tt, s).
Proof. destruct C as [t [] ? ? ? ?]; reflexivity. Qed.
Example pass_check_should_keep_not_sorted (s : S) :
  test_check_should_keep_not_sorted s = Done (tt, s).
Proof. destruct C as [t [] ? ? ? ?]; reflexivity. Qed.
Example pass_simplify_keep_fds (s : S) : test_simplify_keep_fds s = Done (tt, s).
Proof. destruct C as [t [] ? ? ? ?]; reflexivity. Qed.
Example pass_parse_int_bytes (s : S) : test_parse_int_bytes s = Done (tt, s).
Proof. destruct C as [t [] ? ? ? ?]; reflexivity. Qed.
Example pass_apply_range_ok s :
  exists ranges, test_apply_range_ok s = Done (tt, ranges).
Proof. destruct C as [t [] ? ? ? ?]; by eexists. Qed.
Example pass_apply_range_err s : exists c, test_apply_range_err s = Done (tt, c).
Proof. destruct C as [t [] ? ? ? ?]; by eexists. Qed.
End pass.

Section properties.
Context `{C : Config} {K : Type} `{SK : Sys K} `{KV : KernelView K} {KS : KernelSpec K}.

(** The crate's tests of [is_fd_valid] and [set_cloexec] pass on every
    target and every system and leave the table as it was, the first where the
    standard input is open, unless the system does not let a test open its
    file. *)
Theorem util_tests_pass w :
  passes_or_no_root test_set_cloexec w /\
  (is_Some (fds (kern w) !! 0) -> passes_or_no_root test_is_fd_valid w).
Proof.
  assert (Hout : forall fd (k : K), fd = -1 \/ fd = i32_MAX -> fds k !! fd = None).
  { intros fd k Hfd. apply not_open. unfold i32_MAX in *. lia. }
  split.
  - assert (Hset : forall fd m w, fd = -1 \/ fd = i32_MAX ->
      (forall w', passes_or_no_root m w') -> passes_or_no_root (set_cloexec fd;; m) w).
    { intros fd m v Hfd Hm. apply passes_bind.
      eapply wp_mono; [apply set_cloexec_not_open; unfold i32_MAX in *; lia|]. by intros [] w'. }
    apply Hset; [by left|]. intros w1. apply Hset; [by right|]. intros w2.
    apply with_fd_spec, cloexec_closure_uses.
  - intros H0. apply passes_is_fd_valid. intros w1 H1. apply passes_assert.
    { rewrite bool_decide_eq_false_2; [done|]. rewrite Hout by auto. by intros [? ?]. }
    apply passes_is_fd_valid. intros w2 H2. apply passes_assert.
    { rewrite bool_decide_eq_false_2; [done|]. rewrite Hout by auto. by intros [? ?]. }
    apply passes_is_fd_valid. intros w3 H3. apply passes_assert.
    { apply bool_decide_eq_true_2. by rewrite H2, H1. }
    apply with_fd_spec. intros fd fl w4 Hfl _. apply wp_bind.
    eapply wp_mono; [apply is_fd_valid_spec|]. intros b w5 (Hb & [Hv _] & _).
    apply wp_assert; [apply Hb; by eexists|by rewrite Hv].
Qed.
End properties.
