(* ===== verification/KeepFds.v ===== *)
(** * [KeepFds] of src/closefds/mod.rs

    The descriptors to be left alone, with what is known about the slice. *)

From S2P Require Import Prelude Platform Ints Util.

(** The structure [KeepFds]. *)
Record KeepFds := { kf_fds : list Z; kf_max : Z; kf_sorted : bool }.

(** [KeepFds::empty] *)
Definition keep_empty : KeepFds := {| kf_fds := []; kf_max := -1; kf_sorted := true |}.

(** [KeepFds::new] *)
Definition keep_new `{Config} (fds : list Z) : outcome KeepFds :=
  r ← inspect_keep_fds fds;
  let '(max, sorted) := (r : Z * bool) in
  mret {| kf_fds := fds; kf_max := max; kf_sorted := sorted |}.

(** [KeepFds::new_sorted] *)
Definition keep_new_sorted (fds : list Z) : KeepFds :=
  {| kf_fds := fds; kf_max := default (-1) (last fds); kf_sorted := true |}.

(** ** The invariant of the type *)

(** The recorded facts are true, and the elements are descriptors that any
    system could have. *)
Record keep_ok (k : KeepFds) : Prop := {
  keep_sorted : kf_sorted k = true -> ascending (kf_fds k);
  keep_max : forall x, x ∈ kf_fds k -> x <= kf_max k;
  keep_max_in : kf_max k ∈ kf_fds k \/ kf_fds k = [] /\ kf_max k < 0;
  keep_i32 : Forall (fun x => is_i32 x) (kf_fds k);
  keep_limit : i32_MAX ∉ kf_fds k;
}.

Lemma keep_empty_ok : keep_ok keep_empty.
Proof.
  constructor; simpl.
  - constructor.
  - by intros x Hx%not_elem_of_nil.
  - by right.
  - constructor.
  - apply not_elem_of_nil.
Qed.

(** [KeepFds::new] on a slice of [c_int]s without [c_int::MAX] succeeds and
    records the truth about the slice. *)
Lemma keep_new_spec `{Config} l :
  Forall (fun x => is_i32 x) l -> i32_MAX ∉ l ->
  exists k, keep_new l = Done k /\ kf_fds k = l /\ keep_ok k /\
    (kf_sorted k = true <-> ascending l).
Proof.
  intros Hi Hx. destruct (inspect_keep_fds_spec l Hi) as (mx & b & Heq & Hb & Hmax & Hin).
  unfold keep_new. rewrite Heq. simpl. eexists. split; [done|]. split; [done|]. split; [|done].
  constructor; simpl; try done.
  - by apply Hb.
  - destruct Hin as [[? ->]|?]; [right|by left]. split; [done|unfold i32_MIN; lia].
Qed.

(** [KeepFds::new_sorted] records the same, provided that the slice is sorted,
    which is the contract of the unsafe function. *)
Lemma keep_new_sorted_spec l :
  ascending l -> Forall (fun x => is_i32 x) l -> i32_MAX ∉ l ->
  keep_ok (keep_new_sorted l).
Proof.
  intros Hs Hi Hx. constructor; simpl; try done.
  - intros x Hin. destruct (last l) as [y|] eqn:Hl; simpl.
    + apply last_Some in Hl as [pre ->]. apply ascending_app in Hs as (_ & _ & Hs).
      apply elem_of_app in Hin as [Hin| ->%list_elem_of_singleton]; [|done].
      apply Hs; [done|by left].
    + apply last_None in Hl as ->. by apply not_elem_of_nil in Hin.
  - destruct (last l) as [y|] eqn:Hl; simpl.
    + left. apply last_Some in Hl as [pre ->]. apply elem_of_app. right. by left.
    + right. by apply last_None in Hl.
Qed.

(** ** Properties *)

(** C31. [KeepFds::new], on a slice of C integers without [c_int::MAX], succeeds
    and records the truth about the slice: the invariant [keep_ok] holds, and
    the flag is set exactly when the slice is ascending. *)
Theorem keep_new_correct `{Config} l :
  Forall (fun x => is_i32 x) l -> i32_MAX ∉ l ->
  exists k, keep_new l = Done k /\ kf_fds k = l /\ keep_ok k /\
    (kf_sorted k = true <-> ascending l).
Proof. apply keep_new_spec. Qed.

(** The shortcut [KeepFds::new_sorted] computes the same as [KeepFds::new]
    on every nonempty ascending slice, without a scan. *)
Theorem keep_new_sorted_agrees `{Config} l :
  l <> [] -> ascending l -> Forall (fun x => is_i32 x) l ->
  keep_new l = Done (keep_new_sorted l).
Proof.
  intros Hne Hs Hi. destruct (inspect_keep_fds_spec l Hi) as (mx & b & Heq & Hb & Hmax & Hin).
  unfold keep_new, keep_new_sorted. rewrite Heq. simpl.
  destruct Hin as [[? _]|Hin]; [done|]. destruct (last l) as [y|] eqn:Hl.
  - apply last_Some in Hl as [pre ->]. simpl. rewrite (proj2 Hb) by done.
    apply ascending_app in Hs as (_ & _ & Hle).
    assert (y <= mx) by (apply Hmax, elem_of_app; right; by left).
    assert (mx <= y); [|by replace mx with y by lia].
    apply elem_of_app in Hin as [Hin| ->%list_elem_of_singleton]; [|done].
    apply Hle; [done|by left].
  - by apply last_None in Hl.
Qed.
