(* ===== verification/Visit.v ===== *)
(** * Acting on all descriptors but the kept ones

    [CloseFdsBuilder::closefrom] and [cloexecfrom] have the same shape: a loop
    over an iterator that acts on each descriptor that is not kept, and a
    function for the rest once every kept descriptor is passed. This file states
    what such a loop does, for any action, so that close.rs and cloexec.rs share
    the argument. *)

From S2P Require Import Prelude Platform Ints Sys KernelSpec Util DirFdIter FdIter IterFds KeepFds.

(** ** Effects on a table *)

(** What acting on an open descriptor does to its entry: [None] closes it. *)
Class Effect := {
  act : Z -> option Z;
  act_idem fl : act fl ≫= act = act fl;
}.

Section effect.
Context `{E : Effect}.

(** The entry of a descriptor after the action. *)
Definition acted (o : option Z) : option Z := o ≫= act.

Lemma acted_idem o : acted (acted o) = acted o.
Proof. destruct o as [fl|]; [apply act_idem|done]. Qed.

(** Some of the descriptors in [P] were acted on, and no others. *)
Definition touched (P : Z -> Prop) (t t' : gmap Z Z) : Prop :=
  forall f, t' !! f = t !! f \/ (P f /\ t' !! f = acted (t !! f)).

(** The descriptors in [P] up to the limit were acted on. *)
Definition acted_to (P : Z -> Prop) (limit : Z) (t t' : gmap Z Z) : Prop :=
  forall f, P f -> f <= limit -> t' !! f = acted (t !! f).

#[export] Instance touched_preorder P : PreOrder (touched P).
Proof.
  split; [by intros t f; left|]. intros t1 t2 t3 H1 H2 f.
  destruct (H1 f) as [E1|[Pf E1]], (H2 f) as [E2|[Pf' E2]]; rewrite E2, E1.
  - by left.
  - by right.
  - by right.
  - right. split; [done|]. apply acted_idem.
Qed.

Lemma touched_mono (P Q : Z -> Prop) t t' :
  (forall f, P f -> Q f) -> touched P t t' -> touched Q t t'.
Proof. intros HPQ Ht f. destruct (Ht f) as [?|[? ?]]; auto. Qed.

(** A closed descriptor needs no action. *)
Lemma touched_None P t t' f : touched P t t' -> t' !! f = None -> t' !! f = acted (t !! f).
Proof.
  intros Ht Hn. destruct (Ht f) as [He|[_ He]]; [|done].
  rewrite Hn in *. by rewrite <- He.
Qed.

(** Acting once more on a touched descriptor finishes it. *)
Lemma touched_acted P t t' f : touched P t t' -> acted (t' !! f) = acted (t !! f).
Proof. intros Ht. destruct (Ht f) as [->|[_ ->]]; [done|apply acted_idem]. Qed.

(** The action on a single descriptor. *)
Definition act_one (fd : Z) (t t' : gmap Z Z) : Prop :=
  forall f, t' !! f = if decide (f = fd) then acted (t !! f) else t !! f.

Lemma act_one_touched (P : Z -> Prop) fd t t' : P fd -> act_one fd t t' -> touched P t t'.
Proof.
  intros HP Ha f. rewrite (Ha f). case_decide as Hf; [right|by left]. by subst.
Qed.

(** The action on every descriptor from [lo] up. *)
Definition act_from (lo : Z) (t t' : gmap Z Z) : Prop :=
  forall f, t' !! f = if decide (lo <= f) then acted (t !! f) else t !! f.

(** The action on a range. *)
Definition act_range (lo hi : Z) (t t' : gmap Z Z) : Prop :=
  forall f, t' !! f = if decide (lo <= f <= hi) then acted (t !! f) else t !! f.

Lemma act_one_None fd t t' f : act_one fd t t' -> t !! f = None -> t' !! f = None.
Proof. intros Ha Hn. rewrite (Ha f), Hn. by case_decide. Qed.
End effect.

(** ** The loop over an iterator *)

Section visit.
Context `{C : Config, !ConfigOk C} {K : Type} `{SK : Sys K} `{KV : KernelView K}
  {KS : KernelSpec K} `{E : Effect}.

(** [action] has the effect on one descriptor. *)
Definition acts (action : Z -> ST (World K) unit) : Prop :=
  forall fd w, wp (action fd) (fun _ w' =>
    act_one fd (fds (kern w)) (fds (kern w')) /\ frame (kern w) (kern w') /\
    statics w' = statics w) w.

(** Acting on a descriptor that the iterator has passed, and that is not its
    directory, acts on the user's view and keeps the iterator's invariant. *)
Lemma act_view it k k' fd :
  fd_inv it k -> fd < curfd it -> (forall d, dirfd_iter it = Some d -> dirfd d <> fd) ->
  act_one fd (fds k) (fds k') -> frame k k' ->
  act_one fd (fd_view it k) (fd_view it k') /\ fd_inv it k'.
Proof.
  intros Hi Hlt Hne Ha Hfr.
  assert (Hv : act_one fd (fd_view it k) (fd_view it k')).
  { unfold fd_view, dir_view. destruct (dirfd_iter it) as [d|]; [|done].
    destruct (0 <=? dirfd d); [|done]. intros f. specialize (Hne d eq_refl).
    destruct (decide (f = dirfd d)) as [->|].
    - rewrite !lookup_delete_eq. by case_decide.
    - by rewrite !lookup_delete_ne. }
  split; [done|]. constructor.
  - by apply (fi_curfd _ _ Hi).
  - intros d Hd. destruct (fi_dir _ _ Hi d Hd) as [Ht Hdi]. split; [done|].
    eapply dir_inv_stable; [done|done| |].
    + intros Hpos. rewrite (Ha (dirfd d)). specialize (Hne d Hd).
      case_decide; [done|]. destruct Hdi as [[? _]|(es & p & Hs & _)]; [lia|].
      by apply si_open in Hs.
    + intros f Hf. rewrite (Ha f). case_decide; [lia|done].
  - intros m Hm. destruct (fi_maxfd _ _ Hi m Hm) as [H1 H2]. split; [done|].
    destruct Hfr as [-> _]. intros f Hf. eapply act_one_None; [done|by apply H2].
Qed.

(** The state of a loop: of the descriptors to act on ([P]), some were acted
    on, and all those the iterator has passed. *)
Definition progress (P : Z -> Prop) (t : gmap Z Z) (c : Z) (t' : gmap Z Z) : Prop :=
  touched P t t' /\ forall f, P f -> f < c -> t' !! f = acted (t !! f).

(** The end of a loop. *)
Definition finished (P : Z -> Prop) (t : gmap Z Z) (e : Env) (w' : World K) : Prop :=
  env (kern w') = e /\ world_ok w' /\
  touched P t (fds (kern w')) /\ acted_to P (scan_limit e) t (fds (kern w')).

(** Passing over descriptors that are closed. *)
Lemma progress_skip P t c c' t' :
  progress P t c t' -> (forall f, c <= f < c' -> t' !! f = None) -> progress P t c' t'.
Proof.
  intros [Ht Hc] Hn. split; [done|]. intros f HP Hf.
  destruct (Z.lt_ge_cases f c); [by apply Hc|].
  eapply touched_None; [done|]. apply Hn. lia.
Qed.

Lemma progress_act (P : Z -> Prop) t c t1 t2 :
  progress P t c t1 -> P c -> act_one c t1 t2 -> progress P t (c + 1) t2.
Proof.
  intros [Ht Hc] HP Ha. split.
  - etrans; [exact Ht|]. by eapply act_one_touched.
  - intros f HPf Hf. rewrite (Ha f). case_decide as Hd.
    + by eapply touched_acted.
    + apply Hc; [done|lia].
Qed.

Lemma progress_keep (P : Z -> Prop) t c t1 :
  progress P t c t1 -> ~ P c -> progress P t (c + 1) t1.
Proof.
  intros [Ht Hc] HP. split; [done|]. intros f HPf Hf.
  destruct (decide (f = c)) as [->|]; [done|]. apply Hc; [done|lia].
Qed.

(** The iterator ends: every descriptor up to the limit was passed. *)
Lemma progress_end P t c it w :
  progress P t c (fd_view it (kern w)) ->
  (forall f, c <= f <= scan_limit (env (kern w)) -> fd_view it (kern w) !! f = None) ->
  world_ok w ->
  wp (drop_fditer it) (fun _ w' => finished P t (env (kern w)) w') w.
Proof.
  intros [Ht Hc] Hn Hok. eapply wp_mono; [apply drop_fditer_spec|].
  intros [] w' (Hf & [He _] & Hs). split; [done|]. unfold world_ok. rewrite He, Hs, Hf.
  split_and!; [done|done|]. intros f HP Hl.
  destruct (Z.lt_ge_cases f c); [by apply Hc|].
  eapply touched_None; [done|]. apply Hn. lia.
Qed.

(** [for fd in it { action(fd) }], when everything left is to be acted on. *)
Lemma for_each_spec action P t n fuel it w :
  acts action -> fd_inv it (kern w) -> enough_fuel fuel -> (steps_left it < n)%nat ->
  (forall f, curfd it <= f -> P f) -> world_ok w ->
  progress P t (curfd it) (fd_view it (kern w)) ->
  wp (for_each n fuel action it) (fun _ w' => finished P t (env (kern w)) w') w.
Proof.
  intros Hact Hi Hf. revert it w Hi. induction n as [|n IH]; intros it w Hi Hn HP Hok Hpr; [lia|].
  simpl. apply wp_bind. eapply wp_mono; [by apply fd_next_spec|].
  intros [o it'] w1 (Hs & He & Hv & Hi' & _ & Ho). cbn beta iota.
  assert (Hok1 : world_ok w1) by (unfold world_ok; by rewrite He, Hs).
  rewrite <- Hv in Hpr. destruct o as [fd|].
  - destruct Ho as (H1 & H2 & H3 & _ & H5). rewrite <- Hv in H3.
    apply wp_bind. eapply wp_mono; [apply Hact|].
    intros [] w2 (A1 & A2 & A3).
    destruct (act_view it' (kern w1) (kern w2) fd) as [Hv2 Hi2]; [done|lia|done..|].
    eapply wp_mono; [apply IH; try done|].
    + unfold steps_left in *. lia.
    + intros f Hfr. apply HP. lia.
    + unfold world_ok. by rewrite (proj1 A2), A3.
    + rewrite H2. eapply progress_act; [|by apply HP; lia|done].
      by eapply progress_skip.
    + intros [] w3. by rewrite (proj1 A2), He.
  - eapply wp_mono; [apply (progress_end P t (curfd it) it'); [done| |done]|].
    + intros f Hfr. rewrite Hv. apply Ho; [lia|]. intros _. rewrite He in Hfr. lia.
    + intros [] w3. by rewrite He.
Qed.

(** ** The rest, once every kept descriptor is passed *)

(** What the function for the rest may rely on: the iterator has just yielded
    [fd], and everything from there on is to be acted on. *)
Record at_rest (P : Z -> Prop) (t : gmap Z Z) (fd : Z) (it : FdIter) (w : World K)
  : Prop := {
  ar_inv : fd_inv it (kern w);
  ar_curfd : curfd it = fd + 1;
  ar_fd : 0 <= fd < i32_MAX;
  ar_dir : forall d, dirfd_iter it = Some d -> dirfd d <> fd;
  ar_world : world_ok w;
  ar_all : forall f, fd <= f -> P f;
  ar_progress : progress P t fd (fd_view it (kern w));
}.

(** One by one: [action(fd); for fd in fditer { action(fd) }]. *)
Lemma rest_loop action P t n fuel fd it w :
  acts action -> enough_fuel fuel -> enough_fuel n -> at_rest P t fd it w ->
  wp (action fd;; for_each n fuel action it) (fun _ w' => finished P t (env (kern w)) w') w.
Proof.
  intros Hact Hf Hn [Hi Hc Hfd Hdir Hok Hall Hpr]. apply wp_bind.
  eapply wp_mono; [apply Hact|]. intros [] w1 (A1 & A2 & A3).
  destruct (act_view it (kern w) (kern w1) fd) as [Hv1 Hi1]; [done|lia|done..|].
  eapply wp_mono; [apply (for_each_spec action P t n fuel it w1); try done|].
  - by eapply enough_steps.
  - intros f Hf'. apply Hall. lia.
  - unfold world_ok. by rewrite (proj1 A2), A3.
  - rewrite Hc. eapply progress_act; [done| |done]. apply Hall. lia.
  - intros [] w2. by rewrite (proj1 A2).
Qed.

(** The same, after a call that did nothing. *)
Lemma at_rest_frame P t fd it w w1 :
  at_rest P t fd it w -> fds (kern w1) = fds (kern w) -> frame (kern w) (kern w1) ->
  world_ok w1 -> at_rest P t fd it w1.
Proof.
  intros [Hi Hc Hfd Hdir Hok Hall Hpr] Hf Hfr Hok1.
  assert (Hv : fd_view it (kern w1) = fd_view it (kern w)).
  { unfold fd_view, dir_view. by rewrite Hf. }
  constructor; try done; [|by rewrite Hv]. destruct Hi as [H1 H2 H3]. constructor; [done| |].
  - intros d Hd. destruct (H2 d Hd) as [Ht Hdi]. split; [done|].
    eapply dir_inv_stable; [done|done| |by rewrite Hf].
    intros Hpos. rewrite Hf. destruct Hdi as [[? _]|(es & p & Hs & _)]; [lia|].
    by apply si_open in Hs.
  - rewrite Hv, (proj1 Hfr). done.
Qed.

Lemma act_from_view it k k' lo :
  act_from lo (fds k) (fds k') -> act_from lo (fd_view it k) (fd_view it k').
Proof.
  intros Ha. unfold fd_view, dir_view. destruct (dirfd_iter it) as [d|]; [|done].
  destruct (0 <=? dirfd d); [|done]. intros f. destruct (decide (f = dirfd d)) as [->|].
  - rewrite !lookup_delete_eq. by case_decide.
  - by rewrite !lookup_delete_ne.
Qed.

(** Acting on everything from a position on finishes all there is to do. *)
Lemma progress_act_from (P : Z -> Prop) t c t1 t2 :
  progress P t c t1 -> (forall f, c <= f -> P f) -> act_from c t1 t2 ->
  touched P t t2 /\ forall f, P f -> t2 !! f = acted (t !! f).
Proof.
  intros [Ht Hc] Hall Ha. split.
  - intros f. rewrite (Ha f). case_decide as Hd; [|apply Ht].
    right. split; [by apply Hall|]. by eapply touched_acted.
  - intros f HP. rewrite (Ha f). case_decide as Hd; [by eapply touched_acted|].
    apply Hc; [done|lia].
Qed.

Lemma progress_from (P : Z -> Prop) t c t1 t2 e w' :
  progress P t c t1 -> (forall f, c <= f -> P f) -> act_from c t1 t2 ->
  fds (kern w') = t2 -> env (kern w') = e -> world_ok w' -> finished P t e w'.
Proof.
  intros Hpr Hall Ha <- <- Hok. destruct (progress_act_from _ _ _ _ _ Hpr Hall Ha) as [Ht Hc].
  split_and!; [done|done|done|]. intros f HP _. by apply Hc.
Qed.

(** All at once, and then dropping the iterator. *)
Lemma rest_range P t fd it w w1 :
  at_rest P t fd it w -> act_from fd (fds (kern w)) (fds (kern w1)) ->
  env (kern w1) = env (kern w) -> world_ok w1 ->
  wp (drop_fditer it) (fun _ w' => finished P t (env (kern w)) w') w1.
Proof.
  intros [Hi Hc Hfd Hdir Hok Hall Hpr] Ha He Hok1.
  eapply wp_mono; [apply drop_fditer_spec|]. intros [] w2 (Hf2 & [He2 _] & Hs2).
  eapply progress_from; [done|done|by apply act_from_view| |congruence|].
  - by rewrite Hf2.
  - unfold world_ok in *. by rewrite He2, Hs2.
Qed.

(** ** The loop over the iterator, with the kept descriptors *)

Section loop.
Context (action : Z -> ST (World K) unit) (rest : nat -> Z -> FdIter -> ST (World K) unit).

Fixpoint visit_loop (n fuel : nat) (keep_fds : list Z) (max_keep_fd : Z)
    (fds_sorted : bool) (fditer : FdIter) : ST (World K) unit :=
  match n with
  | O => out_of_fuel
  | S n' =>
      r ← FdIter.next fuel fditer;
      let '(o, fditer) := (r : option Z * FdIter) in
      match o with
      | Some fd =>
          if max_keep_fd <? fd then rest fuel fd fditer
          else
            let '(kept, keep_fds) := check_should_keep keep_fds fd fds_sorted in
            (if (kept : bool) then mret tt else action fd);;
            visit_loop n' fuel keep_fds max_keep_fd fds_sorted fditer
      | None => drop_fditer fditer
      end
  end.
End loop.

(** The descriptors to act on. *)
Definition chosen (minfd : Z) (keep : list Z) (f : Z) : Prop := minfd <= f /\ f ∉ keep.

Lemma visit_loop_spec action rest minfd keep mx srt t n fuel keepc it w :
  acts action -> enough_fuel fuel ->
  (forall x, x ∈ keep -> x <= mx) ->
  (forall fd it w, at_rest (chosen minfd keep) t fd it w ->
     wp (rest fuel fd it) (fun _ w' => finished (chosen minfd keep) t (env (kern w)) w') w) ->
  (srt = true -> ascending keepc) ->
  (forall f, curfd it <= f -> f ∈ keepc <-> f ∈ keep) ->
  fd_inv it (kern w) -> (steps_left it < n)%nat -> minfd <= curfd it -> world_ok w ->
  progress (chosen minfd keep) t (curfd it) (fd_view it (kern w)) ->
  wp (visit_loop action rest n fuel keepc mx srt it)
    (fun _ w' => finished (chosen minfd keep) t (env (kern w)) w') w.
Proof.
  intros Hact Hf Hmx Hrest. revert keepc it w.
  induction n as [|n IH]; intros keepc it w Hsrt Hkc Hi Hn Hm Hok Hpr; [lia|].
  simpl. apply wp_bind. eapply wp_mono; [by apply fd_next_spec|].
  intros [o it'] w1 (Hs & He & Hv & Hi' & _ & Ho). cbn beta iota.
  assert (Hok1 : world_ok w1) by (unfold world_ok; by rewrite He, Hs).
  rewrite <- Hv in Hpr. destruct o as [fd|]; last first.
  { eapply wp_mono; [apply (progress_end (chosen minfd keep) t (curfd it) it'); [done| |done]|].
    - intros f Hfr. rewrite Hv. apply Ho; [lia|]. intros _. rewrite He in Hfr. lia.
    - intros [] w3. by rewrite He. }
  destruct Ho as (H1 & H2 & H3 & _ & H5). rewrite <- Hv in H3. rewrite <- He.
  assert (Hpr' : progress (chosen minfd keep) t fd (fd_view it' (kern w1)))
    by (by eapply progress_skip).
  pose proof (fi_curfd _ _ Hi) as Hc0.
  destruct (Z.ltb_spec mx fd) as [Hgt|Hle].
  { apply Hrest. constructor; try done; [lia|]. intros f Hfr. split; [lia|].
    intros Hin. specialize (Hmx f Hin). lia. }
  destruct (check_should_keep_spec keepc srt fd Hsrt) as (b & kc & -> & Hb & Hsuf & Hs' & Hkc').
  rewrite Hkc in Hb by lia.
  assert (Hkc2 : forall f, curfd it' <= f -> f ∈ kc <-> f ∈ keep).
  { intros f Hfr. rewrite Hkc' by lia. apply Hkc. lia. }
  assert (Hn' : (steps_left it' < n)%nat) by (unfold steps_left in *; lia).
  apply wp_bind. destruct b.
  - apply wp_ret. apply IH; try done; [lia|]. rewrite H2.
    eapply progress_keep; [done|]. intros [_ Hnin]. by apply Hnin, Hb.
  - assert (Hnin : fd ∉ keep) by (intros Hin; by apply Hb in Hin).
    eapply wp_mono; [apply Hact|]. intros [] w2 (A1 & A2 & A3).
    destruct (act_view it' (kern w1) (kern w2) fd) as [Hv2 Hi2]; [done|lia|done..|].
    rewrite <- (proj1 A2). apply IH; try done; [lia| |].
    + unfold world_ok. by rewrite (proj1 A2), A3.
    + rewrite H2. eapply progress_act; [done|split; [lia|done]|done].
Qed.
End visit.

(** ** Ranges *)

Section ranges.
Context `{C : Config, !ConfigOk C} {K : Type} `{SK : Sys K} `{KV : KernelView K}
  {KS : KernelSpec K} `{E : Effect}.

(** Everything in [P] was acted on, wherever it is in the table. *)
Definition completed (P : Z -> Prop) (t : gmap Z Z) (e : Env) (w' : World K) : Prop :=
  env (kern w') = e /\ world_ok w' /\ touched P t (fds (kern w')) /\
  forall f, P f -> fds (kern w') !! f = acted (t !! f).

(** Nothing outside [P] was acted on. *)
Definition partial (P : Z -> Prop) (t : gmap Z Z) (e : Env) (w' : World K) : Prop :=
  env (kern w') = e /\ world_ok w' /\ touched P t (fds (kern w')).

Lemma completed_finished P t e w' : completed P t e w' -> finished P t e w'.
Proof. intros (H1 & H2 & H3 & H4). split_and!; [done..|]. intros f HP _. by apply H4. Qed.

(** A function that acts on a range of descriptors, or fails and does nothing;
    [inv] is what it relies on and keeps, and it does not fail where it
    [works]. *)
Definition ranger (inv : World K -> Prop) (works : K -> Prop)
    (func : Z -> Z -> ST (World K) (result unit)) : Prop :=
  forall lo hi w, 0 <= lo <= hi -> hi <= u32_MAX -> world_ok w -> inv w ->
  wp (func lo hi) (fun r w' =>
    frame (kern w) (kern w') /\ world_ok w' /\ inv w' /\
    (works (kern w) -> r = Ok tt /\ works (kern w')) /\
    match r with
    | Ok _ => act_range lo hi (fds (kern w)) (fds (kern w'))
    | Err => fds (kern w') = fds (kern w)
    end) w.

Lemma ranger_as_u32 inv works func :
  ranger inv works func -> ranger inv works (fun lo hi => func (as_u32 lo) (as_u32 hi)).
Proof.
  intros Hfunc lo hi w Hlo Hhi Hok Hinv. rewrite !as_u32_small by lia. by apply Hfunc.
Qed.

Lemma act_range_touched (P : Z -> Prop) lo hi t t' :
  (forall f, lo <= f <= hi -> P f) -> act_range lo hi t t' -> touched P t t'.
Proof.
  intros HP Ha f. rewrite (Ha f). case_decide as Hf; [right|by left]. auto.
Qed.

(** Once acted on, a descriptor stays as it is. *)
Lemma touched_stays P (t t1 t2 : gmap Z Z) f :
  touched P t1 t2 -> t1 !! f = acted (t !! f) -> t2 !! f = acted (t !! f).
Proof. intros Ht He. destruct (Ht f) as [->|[_ ->]]; rewrite He; [done|apply acted_idem]. Qed.

(** Acting on a list of ranges, up to the first failure. *)
Lemma run_ranges_spec inv works func P rs w :
  ranger inv works func -> world_ok w -> inv w ->
  Forall (fun r => 0 <= r.1 <= r.2 /\ r.2 <= u32_MAX) rs ->
  (forall r f, r ∈ rs -> r.1 <= f <= r.2 -> P f) ->
  wp (run_ranges func rs) (fun r w' =>
    partial P (fds (kern w)) (env (kern w)) w' /\ (works (kern w) -> r = Ok tt) /\
    forall f, r = Ok tt -> (exists r, r ∈ rs /\ r.1 <= f <= r.2) ->
      fds (kern w') !! f = acted (fds (kern w) !! f)) w.
Proof.
  intros Hfunc. revert w. induction rs as [|[lo hi] rs IH]; intros w Hok Hinv Hrs HP.
  { apply wp_ret. split; [by split_and!|]. split; [done|]. by intros f _ (r & []%not_elem_of_nil & _). }
  apply Forall_cons in Hrs as [[Hr1 Hr2] Hrs]. simpl in Hr1, Hr2. simpl. apply wp_try.
  eapply wp_mono; [by apply Hfunc|]. intros r w1 ([He _] & Hok1 & Hinv1 & Hw & Hr).
  destruct r as [[]|]; last first.
  { split; [split_and!; [done|done|by rewrite Hr]|]. split; [by intros [? _]%Hw|done]. }
  assert (Ht1 : touched P (fds (kern w)) (fds (kern w1))).
  { eapply act_range_touched; [|done]. intros f Hf. apply (HP (lo, hi)); [by left|done]. }
  eapply wp_mono; [apply IH; try done|].
  { intros r f Hin. apply HP. by right. }
  intros r w2 [(He2 & Hok2 & Ht2) [Hr2' Hall]]. split.
  { split_and!; [congruence|done|by etrans]. }
  split; [by intros [_ ?]%Hw; apply Hr2'|].
  intros f Hr0 (rg & [->|Hin]%elem_of_cons & Hf).
  - simpl in Hf. eapply touched_stays; [exact Ht2|]. by rewrite (Hr f), decide_True.
  - rewrite Hall by eauto. by eapply touched_acted.
Qed.

(** Nothing is open above [c_int::MAX]. *)
Lemma fds_high (k : K) f : i32_MAX <= f -> fds k !! f = None.
Proof.
  intros Hf. apply eq_None_not_Some. intros [fl Hfl]. apply fds_wf in Hfl. lia.
Qed.

Lemma act_range_from lo (k k' : K) :
  act_range lo u32_MAX (fds k) (fds k') -> act_from lo (fds k) (fds k').
Proof.
  intros Ha f. rewrite (Ha f). repeat case_decide; try done; try lia.
  rewrite fds_high by (unfold u32_MAX, i32_MAX in *; lia). done.
Qed.

(** What a shortcut leaves behind: all of the work, or some of it. *)
Definition shortcut_post (minfd : Z) (keep : list Z) (w : World K) (r : result unit)
    (w' : World K) : Prop :=
  partial (chosen minfd keep) (fds (kern w)) (env (kern w)) w' /\
  (r = Ok tt -> completed (chosen minfd keep) (fds (kern w)) (env (kern w)) w').

Lemma shortcut_nothing minfd keep w w' :
  fds (kern w') = fds (kern w) -> env (kern w') = env (kern w) -> world_ok w' ->
  shortcut_post minfd keep w Err w'.
Proof. intros Hf He Hok. split; [|done]. split_and!; [done|done|by rewrite Hf]. Qed.

(** Nothing is kept from [minfd] up: one range does it all. *)
Lemma shortcut_all minfd keep w w' :
  (forall x, x ∈ keep -> x < minfd) ->
  act_from minfd (fds (kern w)) (fds (kern w')) -> env (kern w') = env (kern w) ->
  world_ok w' -> shortcut_post minfd keep w (Ok tt) w'.
Proof.
  intros Hk Ha He Hok.
  assert (Hch : forall f, minfd <= f -> chosen minfd keep f).
  { intros f Hf. split; [done|]. intros Hin. specialize (Hk f Hin). lia. }
  assert (Ht : touched (chosen minfd keep) (fds (kern w)) (fds (kern w'))).
  { intros f. rewrite (Ha f). case_decide; [right|by left]. auto. }
  split; [by split_and!|]. intros _. split_and!; [done..|]. intros f [Hf _].
  rewrite (Ha f). by rewrite decide_True.
Qed.

(** Acting on the ranges between the kept descriptors. *)
Lemma gaps_spec inv works func minfd keep w :
  ranger inv works func -> world_ok w -> inv w -> 0 <= minfd <= i32_MAX ->
  ascending keep -> Forall (fun x => is_i32 x) keep -> i32_MAX ∉ keep ->
  wp (apply_range minfd keep func) (fun r w' =>
    shortcut_post minfd keep w r w' /\ (works (kern w) -> r = Ok tt)) w.
Proof.
  intros Hfunc Hok Hinv Hm Hs Hk Hx.
  assert (Hlt : Forall (fun x => is_i32 x /\ x < i32_MAX) keep).
  { rewrite Forall_forall in Hk |- *. intros x Hin. specialize (Hk x Hin).
    assert (x <> i32_MAX) by (intros ->; done). lia. }
  assert (Hlt' : Forall (fun x => x < i32_MAX) keep) by
    (eapply Forall_impl; [exact Hlt|]; simpl; tauto).
  eapply wp_ext; [by apply apply_range_spec|].
  eapply wp_mono; [eapply (run_ranges_spec inv works _ (chosen minfd keep)); try done|].
  - eapply Forall_impl; [apply gaps_wf; [lia|done]|]. simpl. unfold i32_MAX, u32_MAX. lia.
  - intros r f Hin Hf. destruct (proj1 (gaps_cover minfd keep f Hs Hlt' ltac:(lia))); [by eauto|].
    split; [lia|done].
  - intros r w' [Hp [Hw Hall]]. split; [|done]. split; [done|]. intros ->. destruct Hp as (He & Hok' & Ht).
    split_and!; [done..|]. intros f [Hf Hn]. destruct (Z.le_gt_cases f i32_MAX).
    + apply Hall; [done|]. apply gaps_cover; [done|done|lia|]. split; [lia|done].
    + rewrite !fds_high by lia. done.
Qed.

(** *** Before the shortcut *)

Lemma world_ok_view (w : World K) k' : world_ok w -> frame (kern w) k' ->
  world_ok (mkWorld k' (statics w)).
Proof. intros Hok [He _]. unfold world_ok. simpl. by rewrite He. Qed.

(** What the caller knows when it tries the shortcut. *)
Record shortcut_pre (minfd : Z) (keep : list Z) (mx : Z) (srt : bool) (w : World K)
  : Prop := {
  sp_world : world_ok w;
  sp_minfd : 0 <= minfd <= i32_MAX;
  sp_sorted : srt = true -> ascending keep;
  sp_i32 : Forall (fun x => is_i32 x) keep;
  sp_limit : i32_MAX ∉ keep;
  sp_max : forall x, x ∈ keep -> x <= mx;
  sp_nil : srt = true -> keep = [] -> mx < minfd;
}.

(** After [simplify_keep_fds], the shortcut's assumptions hold. *)
Lemma simplified_pre k minfd w :
  keep_ok k -> world_ok w -> 0 <= minfd <= i32_MAX ->
  exists keep' minfd', simplify_keep_fds (kf_fds k) (kf_sorted k) minfd = Done (keep', minfd') /\
    minfd <= minfd' /\ (forall f, chosen minfd' keep' f <-> chosen minfd (kf_fds k) f) /\
    shortcut_pre minfd' keep' (kf_max k) (kf_sorted k) w.
Proof.
  intros [Hs Hmx Hin Hi Hx] Hok Hm.
  destruct (simplify_keep_fds_spec (kf_fds k) (kf_sorted k) minfd)
    as (keep' & m & Heq & Hm' & Hsuf & Hch & Hsrt); [done..|unfold i32_MIN; lia|].
  exists keep', m. split; [done|]. split; [lia|]. split; [intros f; symmetry; apply Hch|].
  destruct Hsuf as [pre Hsuf]. constructor; [done|lia|..].
  - intros Hb. specialize (Hs Hb). rewrite Hsuf in Hs. by apply ascending_app in Hs as (_ & ? & _).
  - rewrite Hsuf in Hi. by apply Forall_app in Hi as [_ ?].
  - rewrite Hsuf in Hx. by apply not_elem_of_app in Hx as [_ ?].
  - intros x Hxin. apply Hmx. rewrite Hsuf. apply elem_of_app. by right.
  - intros Hb Hnil. destruct (Hsrt Hb) as [_ Hbelow]. specialize (Hbelow Hnil).
    destruct Hin as [Hin|[_ Hneg]]; [|lia]. rewrite Forall_forall in Hbelow. auto.
Qed.

(** [P] matters only up to equivalence. *)
Lemma finished_iff (P Q : Z -> Prop) t e w' :
  (forall f, P f <-> Q f) -> finished P t e w' -> finished Q t e w'.
Proof.
  intros HPQ (H1 & H2 & H3 & H4). split_and!; [done|done| |].
  - eapply touched_mono; [|done]. intros f. by apply HPQ.
  - intros f HQ. apply H4. by apply HPQ.
Qed.

Lemma completed_iff (P Q : Z -> Prop) t e w' :
  (forall f, P f <-> Q f) -> completed P t e w' -> completed Q t e w'.
Proof.
  intros HPQ (H1 & H2 & H3 & H4). split_and!; [done|done| |].
  - eapply touched_mono; [|done]. intros f. by apply HPQ.
  - intros f HQ. apply H4. by apply HPQ.
Qed.

(** The loop on a fresh iterator, after a shortcut that did some of the work. *)
Lemma fresh_visit_spec action rest b minfd keep mx srt t fuel w :
  acts action -> enough_fuel fuel ->
  (forall x, x ∈ keep -> x <= mx) -> (srt = true -> ascending keep) ->
  0 <= minfd <= i32_MAX -> partial (chosen minfd keep) t (env (kern w)) w ->
  (forall fd it w, at_rest (chosen minfd keep) t fd it w ->
     wp (rest fuel fd it) (fun _ w' => finished (chosen minfd keep) t (env (kern w)) w') w) ->
  wp (it ← iter_from b minfd; visit_loop action rest fuel fuel keep mx srt it)
    (fun _ w' => finished (chosen minfd keep) t (env (kern w)) w') w.
Proof.
  intros Hact Hf Hmx Hsrt Hm (_ & Hok & Ht) Hrest. apply wp_bind.
  eapply wp_mono; [apply iter_from_spec; [lia|done]|].
  intros it w1 (He & Hok1 & Hv & Hi & Hc & _). rewrite <- He.
  apply visit_loop_spec; try done.
  - by eapply enough_steps.
  - lia.
  - rewrite Hv. split; [done|]. intros f [Hfm _] Hlt. lia.
Qed.
End ranges.
