(* ===== verification/LoopThreads.v ===== *)
(** * The loops among other threads

    What the loops of src/closefds/cloexec.rs and close.rs need when they run on
    [Shared K]: between two steps of the iterator the loop may work on
    descriptors that are not the iterator's. *)

From S2P Require Import Prelude Platform Ints Sys KernelSpec Util DirFdIter FdIter IterFds Threads IterThreads KeepFds Visit.

Section steps.
Context `{C : Config, !ConfigOk C} {K : Type} `{SK : Sys K} `{KV : KernelView K}
  {KS : KernelSpec K} {R : Rely}.

(** What the crate and the theorem see of the table. *)
Definition held_by (w : World (Shared K)) : gmap Z Z := held (base (kern w)).

Lemma held_lookup (k : K) f :
  held k !! f = if decide (stay f /\ still f) then fds k !! f else None.
Proof.
  apply option_eq. intros fl. unfold held. rewrite map_lookup_filter_Some.
  case_decide as Hd; split; [by intros [? _]|done|by intros [_ ?]|done].
Qed.

Lemma held_stay (k : K) f : ~ stay f -> held k !! f = None.
Proof. intros Hf. rewrite held_lookup, decide_False; tauto. Qed.

(** The crate works on other descriptors, between two steps of its iterator. *)
Record works (w w' : World (Shared K)) : Prop := {
  wk_ok : threads_ok (kern w');
  wk_env : world_env w' = world_env w;
  wk_statics : statics_ok (world_env w) (statics w) -> statics_ok (world_env w') (statics w');
  wk_mine : mine (kern w') = mine (kern w);
  wk_next : forall d, d ∈ mine (kern w) ->
    dirnext (base (kern w')) d = dirnext (base (kern w)) d;
  wk_logs : grows (kern w) (kern w');
}.

Lemma works_trans w1 w2 w3 : works w1 w2 -> works w2 w3 -> works w1 w3.
Proof.
  intros [O1 E1 T1 M1 N1 S1] [O2 E2 T2 M2 N2 S2].
  constructor; [done|congruence|auto|congruence| |by etrans].
  intros d Hd. rewrite N2, N1; [done|done|by rewrite M1].
Qed.

Lemma works_refl w : threads_ok (kern w) -> works w w.
Proof. by constructor. Qed.

Lemma evolves_works (w w' : World (Shared K)) :
  evolves (kern w) (kern w') ->
  (statics_ok (world_env w) (statics w) -> statics_ok (world_env w') (statics w')) -> works w w'.
Proof.
  intros [O E M D S B H] Hst. constructor; [done|done|done|done| |done].
  intros d Hd. by apply D.
Qed.

Lemma quietly_works w w' : quietly w w' -> works w w'.
Proof.
  intros Hq. apply evolves_works; [apply Hq|]. rewrite (quietly_env _ _ Hq). by destruct Hq as [_ ->].
Qed.

(** The iterator does not depend on the others. *)
Lemma iter_inv_works it w w' : iter_inv it w -> works w w' -> iter_inv it w'.
Proof.
  intros [Hok Hc Hm Hd Hmax Hsafe] [O E T M N [S _]]. constructor; [done|done|congruence| | |done].
  - intros d Hdi. destruct (Hd d Hdi) as [Ht [Hx|(es & p & [T1 T2 T3 T4 T5 T6 T7 T8 T9 T10])]];
      (split; [done|]); [by left|right].
    exists es, p. constructor; try done; [by rewrite M|by rewrite N|].
    intros f Hf Hmf. destruct (T10 f Hf Hmf). split; [done|]. auto.
  - by rewrite E.
Qed.

(** Nothing happens that the crate or the theorems see. *)
Definition idles (w w' : World (Shared K)) : Prop := works w w' /\ held_by w' = held_by w.

Lemma idles_trans w1 w2 w3 : idles w1 w2 -> idles w2 w3 -> idles w1 w3.
Proof. intros [W1 H1] [W2 H2]. split; [by eapply works_trans|congruence]. Qed.

Lemma idles_refl w : threads_ok (kern w) -> idles w w.
Proof. intros Hok. split; [by apply works_refl|done]. Qed.

Lemma idles_goes_on w w' :
  statics_ok (world_env w) (statics w) -> idles w w' -> goes_on w w'.
Proof. intros Hst [[] Hh]. split_and!; auto. Qed.

Lemma quietly_idles w w' : quietly w w' -> idles w w'.
Proof. intros Hq. split; [by apply quietly_works|apply (ev_held _ _ (proj1 Hq))]. Qed.

(** A store that keeps the statics true. *)
Lemma wp_store_idles f (Q : unit -> World (Shared K) -> Prop) w :
  threads_ok (kern w) -> statics_ok (world_env w) (f (statics w)) ->
  (forall w', idles w w' -> statics w' = f (statics w) -> Q tt w') -> wp (store f) Q w.
Proof.
  intros Hok Hf HQ. apply wp_store_threads; [done|done|]. intros s Hs. apply HQ; [|done].
  split; [|apply (ev_held _ _ Hs)]. apply evolves_works; [done|]. intros _.
  unfold world_env in *. simpl. by rewrite (ev_env _ _ Hs).
Qed.

(** A load, and what it found. *)
Lemma wp_load_works {A} (f : Statics -> A) (Q : A -> World (Shared K) -> Prop) w :
  threads_ok (kern w) ->
  (forall w', works w w' -> held_by w' = held_by w -> Q (f (statics w')) w') -> wp (load f) Q w.
Proof.
  intros Hok HQ. apply wp_load_threads; [done|]. intros w' He Hst.
  apply HQ; [by apply evolves_works|apply (ev_held _ _ He)].
Qed.

(** What is above [c_int::MAX] is not open. *)
Lemma held_high w f : i32_MAX <= f -> held_by w !! f = None.
Proof. intros Hf. unfold held_by. rewrite held_lookup, fds_high by done. by case_decide. Qed.
End steps.

(** ** Fewer promises *)

(** [R2] promises less than [R1]. *)
Record weaker (R1 R2 : Rely) : Prop := {
  wr_stay : forall f, stay (Rely := R2) f -> stay (Rely := R1) f;
  wr_still : forall f, still (Rely := R2) f -> still (Rely := R1) f;
  wr_only : only_closes (Rely := R2) = only_closes (Rely := R1);
}.

(** Nothing is promised any more of the descriptors in [D]. *)
Definition besides {R : Rely} (D : Z -> bool) : Rely := {|
  stay f := stay f /\ D f = false; still := still; only_closes := only_closes;
  stay_dec f := and_dec _ _; still_dec := _ |}.

Lemma besides_weaker {R : Rely} (D D' : Z -> bool) :
  (forall f, D f = true -> D' f = true) -> weaker (besides D) (besides D').
Proof.
  intros HD. constructor; [|done|done]. intros f [Hs Hf]. split; [done|].
  apply not_true_iff_false. intros Ht%HD. congruence.
Qed.

Lemma nothing_weaker {R : Rely} : weaker R (besides (fun _ => false)).
Proof. constructor; [by intros f [? _]|done|done]. Qed.

Section weaken.
Context `{C : Config, !ConfigOk C} {K : Type} `{SK : Sys K} `{KV : KernelView K}
  {KS : KernelSpec K} {R1 R2 : Rely} (HR : weaker R1 R2).

Lemma allowed_weaken e a : allowed (R := R1) e a -> allowed (R := R2) e a.
Proof.
  destruct HR as [H1 H2 H3]. destruct a as [path flags|fd|fd fl|s]; simpl; [congruence|auto..].
Qed.

Lemma threads_ok_weaken (s : Shared K) : threads_ok (R := R1) s -> threads_ok (R := R2) s.
Proof.
  intros [U1 U2 O1 O2 O3 O4]. pose proof (wr_stay _ _ HR) as Hs.
  constructor; [done|done| |done|auto|auto].
  eapply Forall_impl; [exact O1|]. intros l Hl. eapply Forall_impl; [exact Hl|].
  intros a. apply allowed_weaken.
Qed.

Lemma covers_weaken m e : covers (R := R1) m e -> covers (R := R2) m e.
Proof. intros [Hm Hc]. split; [done|]. intros f Hs. by apply Hc, (wr_stay _ _ HR). Qed.

Lemma dir_ok_weaken it (s : Shared K) c : dir_ok (R := R1) it s c -> dir_ok (R := R2) it s c.
Proof.
  intros [[Hd Hs]|(es & p & [T1 T2 T3 T4 T5 T6 T7 T8 T9 T10])].
  - left. split; [done|]. intros f Hf. by apply Hs, (wr_stay _ _ HR).
  - right. exists es, p. constructor; try done. intros f Hf. by apply T9, (wr_stay _ _ HR).
Qed.

Lemma iter_inv_weaken it (w : World (Shared K)) :
  iter_inv (R := R1) it w -> iter_inv (R := R2) it w.
Proof.
  intros [I1 I2 I3 I4 I5 I6]. constructor; [by apply threads_ok_weaken|done|done| | |].
  - intros d Hd. destruct (I4 d Hd). split; [done|]. by apply dir_ok_weaken.
  - intros m Hm. by apply covers_weaken, I5.
  - unfold nfds_safe in *. by rewrite (wr_only _ _ HR).
Qed.
End weaken.
