(* ===== verification/Close.v ===== *)
(** * src/closefds/close.rs

    [close_fds]: closing every descriptor from a minimum up but the kept ones,
    with [closefrom] or [close_range] where the system has them. *)

From S2P Require Import Prelude Platform Ints Sys KernelSpec Util DirFdIter FdIter IterFds KeepFds Visit.

(** ** Definitions *)

Section close.
Context `{C : Config} {K : Type} `{SK : Sys K}.

(** [sys::closefrom]; its result is ignored. *)
Definition closefrom (fd : Z) : ST (World K) unit :=
  modify (fun w => mkWorld (sys_closefrom fd (kern w)) (statics w)).

(** FreeBSD *)
Definition check_has_close_range : ST (World K) (result unit) :=
  v ← load HAS_CLOSE_RANGE;
  if v =? 1 then mret (Ok tt)
  else if v =? 0 then mret Err
  else
    r ← call sys_sysctl_osreldate;
    let '(ret, osreldate) := (r : Z * Z) in
    if negb (ret =? 0) || (osreldate <? 1202000) then
      store (store_HAS_CLOSE_RANGE 0);; mret Err
    else
      store (store_HAS_CLOSE_RANGE 1);; mret (Ok tt).

(** Linux *)
Definition try_close_range_linux (minfd maxfd : Z) : ST (World K) (result unit) :=
  lift (debug_assert (minfd <=? maxfd));;
  r ← call_or_die (sys_close_range minfd maxfd 0);
  if r =? 0 then mret (Ok tt)
  else store (store_MAY_HAVE_CLOSE_RANGE false);; mret Err.

(** FreeBSD. [debug_assert!(check_has_close_range().is_ok())] evaluates its
    condition only in a build with debug assertions. *)
Definition try_close_range_freebsd (minfd maxfd : Z) : ST (World K) (result unit) :=
  lift (debug_assert (minfd <=? maxfd));;
  (if debug then
     has ← check_has_close_range;
     lift (debug_assert (is_ok has))
   else mret tt);;
  r ← call_or_die (sys_close_range minfd maxfd 0);
  mret (if r =? 0 then Ok tt else Err).

(** [try_close_range]; only Linux and FreeBSD have one. *)
Definition try_close_range (minfd maxfd : Z) : ST (World K) (result unit) :=
  match target with
  | linux => try_close_range_linux minfd maxfd
  | _ => try_close_range_freebsd minfd maxfd
  end.

(** The last part of [close_fds_shortcut], for sorted slices. *)
Definition close_gaps (minfd : Z) (keep_fds : list Z) (fds_sorted : bool)
  : ST (World K) (result unit) :=
  if has_close_range target && fds_sorted then
    lift (debug_assert (negb (bool_decide (keep_fds = []))));;
    try_then
      (if decide (target = freebsd) then check_has_close_range else mret (Ok tt))
      (apply_range minfd keep_fds (fun low high =>
         try_close_range (as_u32 low) (as_u32 high)))
  else mret Err.

Definition close_fds_shortcut (minfd : Z) (keep_fds : list Z) (max_keep_fd : Z)
    (fds_sorted : bool) : ST (World K) (result unit) :=
  if has_closefrom target && (max_keep_fd <? minfd) then
    closefrom minfd;; mret (Ok tt)
  else if decide (target = linux) then
    may ← load MAY_HAVE_CLOSE_RANGE;
    if negb may then mret Err
    else if max_keep_fd <? minfd then try_close_range (as_u32 minfd) u32_MAX
    else close_gaps minfd keep_fds fds_sorted
  else close_gaps minfd keep_fds fds_sorted.

(** The [close_range] of [close_rest] on Linux: whether it did the work. *)
Definition close_rest_range (fd : Z) : ST (World K) bool :=
  if decide (target = linux) then
    may ← load MAY_HAVE_CLOSE_RANGE;
    if (may : bool) then r ← try_close_range (as_u32 fd) u32_MAX; mret (is_ok r)
    else mret false
  else mret false.

Definition close_rest (fuel : nat) (fd : Z) (fditer : FdIter) : ST (World K) unit :=
  if has_closefrom target then drop_fditer fditer;; closefrom fd
  else
    done ← close_rest_range fd;
    if (done : bool) then drop_fditer fditer
    else libc_close fd;; for_each fuel fuel libc_close fditer.

(** The [while let] loop of [close_fds], with the end of its scope. *)
Fixpoint close_loop (n fuel : nat) (keep_fds : list Z) (max_keep_fd : Z)
    (fds_sorted : bool) (fditer : FdIter) : ST (World K) unit :=
  match n with
  | O => out_of_fuel
  | S n' =>
      r ← FdIter.next fuel fditer;
      let '(o, fditer) := (r : option Z * FdIter) in
      match o with
      | Some fd =>
          if max_keep_fd <? fd then close_rest fuel fd fditer
          else
            let '(kept, keep_fds) := check_should_keep keep_fds fd fds_sorted in
            (if (kept : bool) then mret tt else libc_close fd);;
            close_loop n' fuel keep_fds max_keep_fd fds_sorted fditer
      | None => drop_fditer fditer
      end
  end.

Definition close_fds (fuel : nat) (minfd : Z) (keep_fds : KeepFds)
    (itbuilder : FdIterBuilder) : ST (World K) unit :=
  let max_keep_fd := kf_max keep_fds in
  let fds_sorted := kf_sorted keep_fds in
  r ← lift (simplify_keep_fds (kf_fds keep_fds) fds_sorted minfd);
  let '(keep_fds, minfd) := (r : list Z * Z) in
  shortcut ← close_fds_shortcut minfd keep_fds max_keep_fd fds_sorted;
  if is_ok shortcut then mret tt
  else
    let itbuilder := set_possible true itbuilder in
    let itbuilder :=
      if has_closefrom target then set_threadsafe true itbuilder else itbuilder in
    fditer ← iter_from itbuilder minfd;
    close_loop fuel fuel keep_fds max_keep_fd fds_sorted fditer.

(** [close::probe] *)
Definition close_probe : ST (World K) unit :=
  match target with
  | linux =>
      r ← call_or_die (sys_close_range u32_MAX (u32_MAX - 1) 0);
      wrong ← (if r =? 0 then mret true
               else errno ← get_errno; mret (negb (errno =? EINVAL)));
      if (wrong : bool) then store (store_MAY_HAVE_CLOSE_RANGE false) else mret tt
  | freebsd => _ ← check_has_close_range; mret tt
  | _ => mret tt
  end.
End close.

(** ** Closing as an effect *)

Definition close_effect : Effect.
Proof. refine {| act := fun _ => None |}. done. Defined.

Lemma acted_close o : @acted close_effect o = None.
Proof. by destruct o. Qed.

#[local] Existing Instance close_effect.

Section close_spec.
Context `{C : Config, !ConfigOk C} {K : Type} `{SK : Sys K} `{KV : KernelView K}
  {KS : KernelSpec K}.

Lemma libc_close_acts : acts libc_close.
Proof.
  intros fd w. apply wp_libc_close. intros k' Hk Hf. split_and!; [|done|done].
  intros f. simpl. rewrite Hk, acted_close. case_decide as Hd.
  - subst. apply lookup_delete_eq.
  - by rewrite lookup_delete_ne.
Qed.

Lemma closefrom_spec' fd w (Q : unit -> World K -> Prop) :
  (forall k', frame (kern w) k' -> act_from fd (fds (kern w)) (fds k') ->
     Q tt (mkWorld k' (statics w))) ->
  wp (closefrom fd) Q w.
Proof.
  intros HQ. apply wp_modify, HQ.
  - apply closefrom_spec.
  - intros f. rewrite (proj2 (closefrom_spec fd (kern w))), acted_close. done.
Qed.

(** *** [close_range] *)

(** Only [HAS_CLOSE_RANGE] changes, and the answer is remembered. *)
Lemma check_has_close_range_spec w :
  world_ok w ->
  wp check_has_close_range (fun r w' =>
    same_view (kern w) (kern w') /\ world_ok w' /\
    (r = Ok tt -> HAS_CLOSE_RANGE (statics w') = 1) /\
    (HAS_CLOSE_RANGE (statics w) = 1 -> r = Ok tt /\ w' = w) /\
    (1202000 <= env_osreldate (env (kern w)) -> env_osreldate_known (env (kern w)) = true ->
     r = Ok tt) /\
    (HAS_CLOSE_RANGE (statics w') = 0 \/ HAS_CLOSE_RANGE (statics w') = 1)) w.
Proof.
  intros Hok. unfold check_has_close_range. apply wp_bind, wp_load.
  destruct (Z.eqb_spec (HAS_CLOSE_RANGE (statics w)) 1) as [H1|H1].
  { apply wp_ret. split_and!; try done. by right. }
  destruct (Z.eqb_spec (HAS_CLOSE_RANGE (statics w)) 0) as [H0|H0].
  { apply wp_ret. split_and!; try done; [|by left]. intros Ho Hkn.
    pose proof (statics_no_close_range _ _ Hok H0 Hkn). lia. }
  apply wp_bind, wp_call. intros [r v] k Hk.
  destruct (osreldate_spec _ _ _ _ Hk) as [Hv Hr]. cbn beta iota.
  pose proof (osreldate_known _ _ _ _ Hk) as Hkn.
  assert (Henv : env k = env (kern w)) by apply Hv.
  assert (Hst : statics_ok (env k) (statics w)) by (by rewrite Henv).
  assert (Hdone : forall v' (r' : result unit),
    (v' = 0 \/ v' = 1) -> (r' = Ok tt <-> v' = 1) ->
    (v' = 1 <-> r = 0 /\ 1202000 <= v) ->
    wp (store (store_HAS_CLOSE_RANGE v');; mret r') (fun r w' =>
      same_view (kern w) (kern w') /\ world_ok w' /\
      (r = Ok tt -> HAS_CLOSE_RANGE (statics w') = 1) /\
      (HAS_CLOSE_RANGE (statics w) = 1 -> r = Ok tt /\ w' = w) /\
      (1202000 <= env_osreldate (env (kern w)) -> env_osreldate_known (env (kern w)) = true ->
       r = Ok tt) /\
      (HAS_CLOSE_RANGE (statics w') = 0 \/ HAS_CLOSE_RANGE (statics w') = 1))
      (mkWorld k (statics w))).
  { intros v' r' H01 Hr' Hv'. apply wp_bind, wp_store, wp_ret. simpl.
    split_and!; [done| |by apply Hr'|done| |done].
    - apply store_has_close_range; [done|..]; simpl; rewrite Henv.
      + intros [Hr0 Hle]%Hv'. by rewrite <- Hr.
      + intros -> Hk0. specialize (Hkn Hk0). specialize (Hr Hkn). lia.
    - intros Ho Hk0. apply Hr', Hv'. specialize (Hkn Hk0). split; [done|]. by rewrite Hr. }
  destruct (Z.eqb_spec r 0); simpl; [destruct (Z.ltb_spec v 1202000)|];
    apply Hdone; (by auto) || (split; [done || lia|done || lia]).
Qed.

(** When it asks, it asks once. *)
Lemma check_has_close_range_kern (w : World K) :
  HAS_CLOSE_RANGE (statics w) <> 0 -> HAS_CLOSE_RANGE (statics w) <> 1 ->
  wp check_has_close_range (fun _ w' => kern w' = (sys_sysctl_osreldate (kern w)).2) w.
Proof.
  intros H0 H1. unfold check_has_close_range. apply wp_bind, wp_load.
  rewrite (proj2 (Z.eqb_neq _ _) H1), (proj2 (Z.eqb_neq _ _) H0).
  apply wp_bind, wp_call. intros [r v] k ->. cbn beta iota.
  destruct (_ || _); by apply wp_bind, wp_store, wp_ret.
Qed.

Lemma check_has_close_range_cached (w : World K) :
  wp check_has_close_range (fun r w' => check_has_close_range w' = Done (r, w')) w.
Proof.
  unfold check_has_close_range at 1. apply wp_bind, wp_load.
  destruct (HAS_CLOSE_RANGE (statics w) =? 1) eqn:H1.
  { apply wp_ret. unfold check_has_close_range, mbind, ST_bind. by rewrite load_alone, H1. }
  destruct (HAS_CLOSE_RANGE (statics w) =? 0) eqn:H0.
  { apply wp_ret. unfold check_has_close_range, mbind, ST_bind. by rewrite load_alone, H1, H0. }
  apply wp_bind, wp_call. intros [r v] k Hk. cbn beta iota.
  destruct (_ || _); apply wp_bind, wp_store, wp_ret;
    unfold check_has_close_range, mbind, ST_bind; by rewrite load_alone.
Qed.

(** When [try_close_range] may be called without risking the process. *)
Definition range_allowed (w : World K) : Prop :=
  target = linux \/ (target = freebsd /\ HAS_CLOSE_RANGE (statics w) = 1).

(** From this state on, [close_range] succeeds: the kernel has it. *)
Definition close_range_works (k : K) : Prop :=
  exists I : K -> Prop, I k /\ forall k lo hi, I k -> lo <= hi ->
    exists k', sys_close_range lo hi 0 k = (Some 0, k') /\ I k'.

Lemma close_range_works_step k lo hi r k' :
  sys_close_range lo hi 0 k = (Some r, k') -> lo <= hi -> close_range_works k ->
  r = 0 /\ close_range_works k'.
Proof.
  intros Hk Hle (I & HI & Hstep). destruct (Hstep k lo hi HI Hle) as (k2 & Hk2 & HI2).
  rewrite Hk in Hk2. injection Hk2 as -> ->. split; [done|]. by exists I.
Qed.

Lemma wp_close_range lo hi (Q : Z -> World K -> Prop) w :
  world_ok w -> range_allowed w ->
  (forall r k', frame (kern w) k' ->
     (r = 0 -> act_range lo hi (fds (kern w)) (fds k')) ->
     (r <> 0 -> fds k' = fds (kern w)) ->
     (lo <= hi -> close_range_works (kern w) -> r = 0 /\ close_range_works k') ->
     (target = linux ->
        (r = 0 -> lo <= hi) /\
        (0 <= lo <= hi -> hi <= u32_MAX -> r <> 0 -> env_close_range (env k') <> Some true) /\
        (hi < lo -> env_close_range (env k') = Some true -> errno_get k' = EINVAL) /\
        (env_close_range (env k') = Some false -> r <> 0 /\ errno_get k' <> EINVAL)) ->
     Q r (mkWorld k' (statics w))) ->
  wp (call_or_die (sys_close_range lo hi 0)) Q w.
Proof.
  intros Hok Hal HQ. apply wp_call_or_die. intros r k' Hk. destruct r as [r|].
  - exists r. split; [done|]. destruct (close_range_spec _ _ _ _ _ Hk) as (H1 & H2 & H3).
    apply HQ; [done| |done| |].
    + intros Hr f. rewrite acted_close. by apply H2.
    + intros Hle. by eapply close_range_works_step.
    + intros Ht. rewrite (proj1 H1). split_and!.
      * intros Hr. by apply H2.
      * intros Hle Hhi Hr He. by apply Hr, (close_range_present _ _ _ _ _ Ht He Hk).
      * intros Hlt He. by apply (close_range_present _ _ _ _ _ Ht He Hk).
      * intros He. by apply (close_range_absent _ _ _ _ _ Ht He Hk).
  - exfalso. eapply close_range_survives; [|exact Hk]. destruct Hal as [?|[? Hh]]; [by left|right].
    split; [done|]. by apply (statics_has_close_range _ _ Hok).
Qed.

Lemma try_close_range_ranger : ranger range_allowed close_range_works try_close_range.
Proof.
  intros lo hi w Hlo Hhi Hok Hal. unfold try_close_range.
  assert (Hle : debug_assert (lo <=? hi) = Done tt) by (apply debug_assert_ok, Z.leb_le; lia).
  destruct Hal as [Ht|[Ht Hh]]; rewrite Ht.
  - unfold try_close_range_linux. apply wp_bind. eapply wp_lift; [exact Hle|].
    apply wp_bind, wp_close_range; [done|by left|]. intros r k' Hf H0 H1 Hw Hpr.
    pose proof (world_ok_view _ _ Hok Hf) as Hok'. destruct (Z.eqb_spec r 0).
    + apply wp_ret. split_and!; [done|done|by left| |by apply H0].
      intros Hk. destruct (Hw ltac:(lia) Hk). done.
    + apply wp_bind, wp_store, wp_ret. simpl. split_and!; [done| |by left| |by apply H1].
      * apply store_no_close_range; [done|]. apply Hpr; done || lia.
      * intros Hk. destruct (Hw ltac:(lia) Hk). done.
  - unfold try_close_range_freebsd. apply wp_bind. eapply wp_lift; [exact Hle|].
    apply wp_bind. apply (wp_mono _ (fun _ w' => w' = w)).
    { destruct debug eqn:Hd; [|by apply wp_ret]. apply wp_bind.
      eapply wp_mono; [by apply check_has_close_range_spec|].
      intros r w' (_ & _ & _ & H4 & _). destruct (H4 Hh) as [-> ->].
      eapply wp_lift; [by apply debug_assert_ok|]. done. }
    intros [] w1 ->. apply wp_bind, wp_close_range; [done|by right|].
    intros r k' Hf H0 H1 Hw _. pose proof (world_ok_view _ _ Hok Hf) as Hok'. apply wp_ret.
    destruct (Z.eqb_spec r 0); (split_and!; [done|done|by right| |by auto]);
      intros Hk; by destruct (Hw ltac:(lia) Hk).
Qed.

(** A range from a descriptor to the end. *)
Lemma try_close_range_end fd w :
  0 <= fd <= i32_MAX -> world_ok w -> range_allowed w ->
  wp (try_close_range (as_u32 fd) u32_MAX) (fun r w' =>
    frame (kern w) (kern w') /\ world_ok w' /\
    (close_range_works (kern w) -> r = Ok tt) /\
    match r with
    | Ok _ => act_from fd (fds (kern w)) (fds (kern w'))
    | Err => fds (kern w') = fds (kern w)
    end) w.
Proof.
  intros Hfd Hok Hal. rewrite as_u32_small by (unfold i32_MAX, u32_MAX in *; lia).
  eapply wp_mono; [apply try_close_range_ranger; try done; unfold i32_MAX, u32_MAX in *; lia|].
  intros [[]|] w' (H1 & H2 & _ & H3 & H4); (split_and!; [done|done|by intros [? _]%H3|]); [|done].
  by apply act_range_from.
Qed.

(** *** The shortcut *)

(** FreeBSD has not been asked yet for its version. *)
Definition unasked (s : Statics) : Prop := HAS_CLOSE_RANGE s <> 0 /\ HAS_CLOSE_RANGE s <> 1.

(** FreeBSD: [close_range] works and is known to be there, or will be. *)
Definition freebsd_range (w : World K) : Prop :=
  (HAS_CLOSE_RANGE (statics w) = 1 /\ close_range_works (kern w)) \/
  (unasked (statics w) /\ env_osreldate_known (env (kern w)) = true /\
   1202000 <= env_osreldate (env (kern w)) /\
   close_range_works (sys_sysctl_osreldate (kern w)).2).

Lemma freebsd_range_check w :
  world_ok w -> freebsd_range w ->
  wp check_has_close_range (fun r w' => r = Ok tt /\ close_range_works (kern w')) w.
Proof.
  intros Hok [[Hh Hw]|((H0 & H1) & Hkn & Ho & Hw)].
  - eapply wp_mono; [by apply check_has_close_range_spec|].
    intros r w' (_ & _ & _ & H & _). by destruct (H Hh) as [-> ->].
  - eapply wp_mono; [apply wp_and; [by apply check_has_close_range_spec|]|].
    + apply (check_has_close_range_kern w H0 H1).
    + intros r w' [(_ & _ & _ & _ & H & _) Hk]. rewrite Hk. auto.
Qed.

(** When the shortcut does all of the work: a system that can close a range,
    and either nothing kept from [minfd] up or a sorted slice. *)
Definition shortcut_available (minfd mx : Z) (srt : bool) (w : World K) : Prop :=
  (has_closefrom target = true /\ mx < minfd) \/
  (target = linux /\ close_range_works (kern w) /\ MAY_HAVE_CLOSE_RANGE (statics w) = true /\
   (mx < minfd \/ srt = true)) \/
  (target = freebsd /\ freebsd_range w /\ srt = true).

Lemma close_gaps_spec minfd keep mx srt w :
  shortcut_pre minfd keep mx srt w -> minfd <= mx ->
  wp (close_gaps minfd keep srt) (fun r w' => shortcut_post minfd keep w r w' /\
    (shortcut_available minfd mx srt w -> r = Ok tt)) w.
Proof.
  intros [Hok Hm Hs Hi Hx Hmx Hnil] Hle. unfold close_gaps.
  destruct (has_close_range target && srt) eqn:Hcond; last first.
  { apply wp_ret. split; [by apply shortcut_nothing|].
    intros [[_ ?]|[(Ht & _ & _ & [?| ->])|(Ht & _ & ->)]]; try lia;
      rewrite Ht in Hcond; discriminate Hcond. }
  apply andb_true_iff in Hcond as [Ht ->]. apply wp_bind. eapply wp_lift.
  { apply debug_assert_ok. rewrite bool_decide_eq_false_2; [done|].
    intros Hk. specialize (Hnil eq_refl Hk). lia. }
  apply wp_try. apply (wp_mono _ (fun r w' => same_view (kern w) (kern w') /\ world_ok w' /\
    (r = Ok tt -> range_allowed w') /\
    (shortcut_available minfd mx true w -> r = Ok tt /\ close_range_works (kern w')))).
  { case_decide as Hf.
    - pose proof (check_has_close_range_spec w Hok) as Hc.
      apply wp_done in Hc as (r & w' & Hdone & H1 & H2 & H3 & _).
      apply wp_done. exists r, w'. split_and!; [done..| |].
      + intros Hr. right. auto.
      + intros [[_ ?]|[(Hl & _)|(_ & Hh & _)]]; [lia|congruence|].
        pose proof (freebsd_range_check w Hok Hh) as Hr. unfold wp in Hr. by rewrite Hdone in Hr.
    - apply wp_ret. split_and!; [done..| |].
      + intros _. left. destruct target; try discriminate Ht; done.
      + intros [[_ ?]|[(_ & Hw & _)|(Hfb & _)]]; [lia|done|congruence]. }
  intros r w1 (Hv & Hok1 & Hal & Hav). destruct Hv as [Hv [He _]].
  destruct r as [[]|]; last first.
  { split; [by apply shortcut_nothing|]. by intros [? _]%Hav. }
  unfold shortcut_post. rewrite <- Hv, <- He.
  eapply wp_mono; [eapply (gaps_spec range_allowed close_range_works); auto;
    apply ranger_as_u32, try_close_range_ranger|].
  intros r w2 [Hp Hw]. split; [done|]. intros Ha. by apply Hw, Hav.
Qed.

(** The shortcut, on every target: it does all of the work or reports an
    error, and what it did until then was part of the work. *)
Lemma close_fds_shortcut_spec minfd keep mx srt w :
  shortcut_pre minfd keep mx srt w ->
  wp (close_fds_shortcut minfd keep mx srt) (fun r w' => shortcut_post minfd keep w r w' /\
    (shortcut_available minfd mx srt w -> r = Ok tt)) w.
Proof.
  intros Hpre. pose proof Hpre as [Hok Hm Hs Hi Hx Hmx Hnil]. unfold close_fds_shortcut.
  assert (Hbelow : mx < minfd -> forall x, x ∈ keep -> x < minfd).
  { intros Hlt x Hin. specialize (Hmx x Hin). lia. }
  destruct (Z.ltb_spec mx minfd) as [Hlt|Hge].
  - destruct (has_closefrom target) eqn:Hcf; simpl.
    { apply wp_bind, closefrom_spec'. intros k' Hf Ha. apply wp_ret. split; [|done].
      apply shortcut_all; [by apply Hbelow|done|apply Hf|by apply world_ok_view]. }
    case_decide as Ht.
    + apply wp_bind, wp_load. destruct (MAY_HAVE_CLOSE_RANGE _) eqn:Hmay; simpl; last first.
      { apply wp_ret. split; [by apply shortcut_nothing|].
        intros [[? _]|[(_ & _ & ? & _)|(? & _)]]; congruence. }
      eapply wp_mono; [apply try_close_range_end; [lia|done|by left]|].
      intros r w' ([H1 _] & H2 & Hw & H3). split.
      * destruct r as [[]|]; [apply shortcut_all; auto|by apply shortcut_nothing].
      * intros [[? _]|[(_ & Hk & _)|(? & _)]]; [congruence|auto|congruence].
    + unfold close_gaps. replace (has_close_range target) with false; [simpl|].
      * apply wp_ret. split; [by apply shortcut_nothing|].
        intros [[? _]|[(? & _)|(Hfb & _)]]; [congruence|congruence|].
        rewrite Hfb in Hcf. discriminate Hcf.
      * destruct target; done.
  - rewrite andb_false_r. case_decide as Ht.
    + apply wp_bind, wp_load. destruct (MAY_HAVE_CLOSE_RANGE _) eqn:Hmay; simpl; last first.
      { apply wp_ret. split; [by apply shortcut_nothing|].
        intros [[_ ?]|[(_ & _ & ? & _)|(? & _)]]; [lia|congruence|congruence]. }
      eapply close_gaps_spec; [done|lia].
    + eapply close_gaps_spec; [done|lia].
Qed.

(** *** The loop *)

Lemma close_rest_spec P t fuel fd it w :
  enough_fuel fuel -> at_rest P t fd it w ->
  wp (close_rest fuel fd it) (fun _ w' => finished P t (env (kern w)) w') w.
Proof.
  intros Hf Har. unfold close_rest. destruct (has_closefrom target) eqn:Hcf.
  { apply wp_bind. eapply wp_mono; [apply drop_fditer_spec|].
    intros [] w1 (Hf1 & Hfr1 & Hs1). apply closefrom_spec'. intros k2 Hfr2 Ha.
    destruct Har as [_ _ _ _ Hok Hall Hpr]. rewrite Hf1 in Ha.
    pose proof (proj1 Hfr1) as He1. pose proof (proj1 Hfr2) as He2.
    eapply progress_from; [done|done|done|done|simpl; congruence|].
    unfold world_ok in *. simpl. by rewrite Hs1, He2, He1. }
  apply wp_bind. apply (wp_mono _ (fun (b : bool) w' => frame (kern w) (kern w') /\
    world_ok w' /\ if b then act_from fd (fds (kern w)) (fds (kern w'))
                   else fds (kern w') = fds (kern w))).
  { pose proof (ar_world _ _ _ _ _ Har) as Hok. pose proof (ar_fd _ _ _ _ _ Har) as Hfd.
    unfold close_rest_range. case_decide as Ht; [|by apply wp_ret].
    apply wp_bind, wp_load. destruct (MAY_HAVE_CLOSE_RANGE _); [|by apply wp_ret].
    apply wp_bind. eapply wp_mono; [apply try_close_range_end; [lia|done|by left]|].
    intros [[]|] w' (H1 & H2 & _ & H3); by apply wp_ret. }
  intros [] w1 (Hfr & Hok1 & Hr).
  - by eapply rest_range; [..|apply Hfr|].
  - rewrite <- (proj1 Hfr). eapply rest_loop; [apply libc_close_acts|done|done|].
    by eapply at_rest_frame.
Qed.

Lemma close_loop_visit n fuel keep mx srt it :
  close_loop n fuel keep mx srt it =
  visit_loop libc_close close_rest n fuel keep mx srt it.
Proof. reflexivity. Qed.

(** *** [close_fds] *)

(** [close_fds] closes what it has to, up to the limit of the fallback loop,
    and nothing else; where the shortcut is available, there is no limit. *)
Lemma close_fds_spec fuel minfd k b w :
  enough_fuel fuel -> keep_ok k -> world_ok w -> 0 <= minfd <= i32_MAX ->
  wp (close_fds fuel minfd k b) (fun _ w' =>
    finished (chosen minfd (kf_fds k)) (fds (kern w)) (env (kern w)) w' /\
    (shortcut_available minfd (kf_max k) (kf_sorted k) w ->
     completed (chosen minfd (kf_fds k)) (fds (kern w)) (env (kern w)) w')) w.
Proof.
  intros Hf Hk Hok Hm.
  destruct (simplified_pre k minfd w Hk Hok Hm) as (keep' & m & Heq & Hle & Hch & Hpre).
  assert (Hav : shortcut_available minfd (kf_max k) (kf_sorted k) w ->
    shortcut_available m (kf_max k) (kf_sorted k) w).
  { unfold shortcut_available. intuition lia. }
  unfold close_fds. apply wp_bind. eapply wp_lift; [exact Heq|]. cbn beta iota.
  apply wp_bind. eapply wp_mono; [by apply close_fds_shortcut_spec|].
  intros r w1 [[Hp Hc] Hr]. pose proof (proj1 Hp) as He.
  destruct r as [[]|]; simpl.
  { apply wp_ret. split; [|intros _]; eapply finished_iff || eapply completed_iff; try done.
    - apply completed_finished. auto.
    - auto. }
  rewrite <- He in Hp |- *. destruct Hpre as [_ Hm' Hs Hi Hx Hmx _].
  eapply wp_mono; [eapply (fresh_visit_spec libc_close close_rest); try done|].
  - apply libc_close_acts.
  - intros fd it w2. by apply close_rest_spec.
  - intros [] w2. split; [by eapply finished_iff|]. by intros ?%Hav%Hr.
Qed.

(** *** Probing *)

Lemma close_probe_spec w :
  world_ok w ->
  wp close_probe (fun _ w' => fds (kern w') = fds (kern w) /\
    frame (kern w) (kern w') /\ world_ok w' /\
    (target = linux -> env_close_range (env (kern w)) = Some false ->
     MAY_HAVE_CLOSE_RANGE (statics w') = false) /\
    (target = freebsd ->
     HAS_CLOSE_RANGE (statics w') = 0 \/ HAS_CLOSE_RANGE (statics w') = 1)) w.
Proof.
  intros Hok. unfold close_probe. destruct target eqn:Ht; try by apply wp_ret.
  - apply wp_bind, wp_close_range; [done|by left|]. intros r k' Hf H0 H1 _ Hpr.
    destruct (Hpr Ht) as (Hle & _ & Hinv & Habs). clear Hpr.
    assert (Hfds : fds k' = fds (kern w)).
    { destruct (Z.eq_dec r 0); [|auto]. apply map_eq. intros f. rewrite H0 by done.
      case_decide; [unfold u32_MAX in *; lia|done]. }
    pose proof (world_ok_view _ _ Hok Hf) as Hok'. rewrite <- (proj1 Hf).
    assert (Hr0 : r <> 0).
    { intros Hr%Hle. unfold u32_MAX in Hr. lia. }
    rewrite (proj2 (Z.eqb_neq r 0)) by done. apply wp_bind, wp_bind, wp_gets, wp_ret. simpl.
    destruct (Z.eqb_spec (errno_get k') EINVAL) as [He|He]; simpl.
    + apply wp_ret. split_and!; try done. intros _ Hx. by apply Habs in Hx as [_ ?].
    + apply wp_store. simpl. split_and!; try done. apply store_no_close_range; [done|].
      intros Hx. apply He, Hinv; [unfold u32_MAX; lia|done].
  - apply wp_bind. eapply wp_mono; [by apply check_has_close_range_spec|].
    intros r w' ((H1 & H2) & H3 & _ & _ & _ & H4). by apply wp_ret.
Qed.
End close_spec.

(** ** Properties *)

Section properties.
Context `{C : Config, !ConfigOk C} {K : Type} `{SK : Sys K} `{KV : KernelView K}
  {KS : KernelSpec K}.

(** FreeBSD's [check_has_close_range] says yes only on a kernel that has
    [close_range] (12.2 or later), where the system call cannot kill the
    process; it changes no descriptor, and it remembers its answer: a second
    call gives the same answer and asks the system nothing. *)
Theorem check_has_close_range_correct w :
  world_ok w ->
  wp check_has_close_range (fun r w' =>
    (r = Ok tt -> 1202000 <= env_osreldate (env (kern w))) /\
    same_view (kern w) (kern w') /\ check_has_close_range w' = Done (r, w')) w.
Proof.
  intros Hok. eapply wp_mono; [apply wp_and; [by apply check_has_close_range_spec|]|].
  - apply (check_has_close_range_cached w).
  - intros r w' [(Hv & Hok' & H1 & _) Hc]. split; [|done]. intros Hr.
    rewrite <- (proj1 (proj2 Hv)). by apply (statics_has_close_range _ _ Hok'), H1.
Qed.

(** C32. [try_close_range], called with a range and (on FreeBSD) after a
    successful check, never kills the process or panics: it closes exactly the
    range, or reports an error and leaves every descriptor as it was. *)
Theorem try_close_range_correct lo hi w :
  0 <= lo <= hi -> hi <= u32_MAX -> world_ok w -> range_allowed w ->
  wp (try_close_range lo hi) (fun r w' => world_ok w' /\
    match r with
    | Ok _ => forall f, fds (kern w') !! f =
        if decide (lo <= f <= hi) then None else fds (kern w) !! f
    | Err => fds (kern w') = fds (kern w)
    end) w.
Proof.
  intros Hlo Hhi Hok Hal. eapply wp_mono; [by apply try_close_range_ranger|].
  intros [[]|] w' (_ & H2 & _ & _ & H4); (split; [done|]); [|done].
  intros f. rewrite (H4 f), acted_close. done.
Qed.

(** On Linux a failed [close_range] is remembered: from then on the
    shortcut gives up at once, without a system call. *)
Theorem shortcut_gives_up lo hi (w w' : World K) minfd keep mx srt :
  target = linux -> try_close_range lo hi w = Done (Err, w') ->
  close_fds_shortcut minfd keep mx srt w' = Done (Err, w').
Proof.
  intros Ht. unfold try_close_range. rewrite Ht. unfold try_close_range_linux.
  intros (_ & w1 & _ & (r & w2 & _ & H)%ST_bind_Done)%ST_bind_Done.
  destruct (r =? 0); [done|]. apply ST_bind_Done in H as ([] & w3 & Hs & Hr).
  rewrite store_alone in Hs. injection Hs as <-. injection Hr as <-.
  unfold close_fds_shortcut. rewrite Ht. simpl. unfold mbind, ST_bind.
  rewrite load_alone. reflexivity.
Qed.

(** [close::probe] on Linux makes one call, on an inverted range, and
    keeps the belief in [close_range] exactly when the call fails with
    [EINVAL]. *)
Theorem close_probe_linux w r k' :
  target = linux -> sys_close_range u32_MAX (u32_MAX - 1) 0 (kern w) = (Some r, k') ->
  close_probe w = Done (tt, mkWorld k'
    (if negb (r =? 0) && (errno_get k' =? EINVAL) then statics w
     else store_MAY_HAVE_CLOSE_RANGE false (statics w))).
Proof.
  intros Ht Hk. unfold close_probe. rewrite Ht. unfold mbind, ST_bind, call_or_die.
  rewrite Hk. simpl. destruct (r =? 0); simpl; [by rewrite store_alone|]. unfold get_errno, gets. simpl.
  destruct (errno_get k' =? EINVAL); simpl; [done|]. unfold store. by rewrite publish_alone.
Qed.
End properties.
