(* ===== verification/Cloexec.v ===== *)
(** * src/closefds/cloexec.rs

    [set_fds_cloexec]: marking every descriptor from a minimum up but the kept
    ones close-on-exec, with [close_range] and its flag where Linux has it. *)

From S2P Require Import Prelude Platform Ints Sys KernelSpec Util DirFdIter FdIter IterFds KeepFds Visit.

(** ** Definitions *)

Section cloexec.
Context `{C : Config} {K : Type} `{SK : Sys K}.

(** Linux *)
Definition set_cloexec_range (minfd maxfd : Z) : ST (World K) (result unit) :=
  lift (debug_assert (minfd <=? maxfd));;
  r ← call_or_die (sys_close_range minfd maxfd CLOSE_RANGE_CLOEXEC);
  if r =? 0 then mret (Ok tt)
  else store (store_MAY_HAVE_CLOSE_RANGE_CLOEXEC false);; mret Err.

(** Linux *)
Definition set_cloexec_shortcut (minfd : Z) (keep_fds : list Z) (max_keep_fd : Z)
    (fds_sorted : bool) : ST (World K) (result unit) :=
  may ← load MAY_HAVE_CLOSE_RANGE_CLOEXEC;
  if negb may then mret Err
  else if max_keep_fd <? minfd then set_cloexec_range (as_u32 minfd) u32_MAX
  else if (fds_sorted : bool) then
    apply_range minfd keep_fds (fun low high =>
      set_cloexec_range (as_u32 low) (as_u32 high))
  else mret Err.

(** The [close_range] of [set_cloexec_rest] on Linux: whether it did the work. *)
Definition set_cloexec_rest_range (fd : Z) : ST (World K) bool :=
  if decide (target = linux) then
    may ← load MAY_HAVE_CLOSE_RANGE_CLOEXEC;
    if (may : bool) then r ← set_cloexec_range (as_u32 fd) u32_MAX; mret (is_ok r)
    else mret false
  else mret false.

(** The early return drops the iterator. *)
Definition set_cloexec_rest (fuel : nat) (fd : Z) (fditer : FdIter)
  : ST (World K) unit :=
  done ← set_cloexec_rest_range fd;
  if (done : bool) then drop_fditer fditer
  else set_cloexec fd;; for_each fuel fuel set_cloexec fditer.

(** The [while let] loop of [set_fds_cloexec], with the end of its scope. *)
Fixpoint cloexec_loop (n fuel : nat) (keep_fds : list Z) (max_keep_fd : Z)
    (fds_sorted : bool) (fditer : FdIter) : ST (World K) unit :=
  match n with
  | O => out_of_fuel
  | S n' =>
      r ← FdIter.next fuel fditer;
      let '(o, fditer) := (r : option Z * FdIter) in
      match o with
      | Some fd =>
          if max_keep_fd <? fd then set_cloexec_rest fuel fd fditer
          else
            let '(kept, keep_fds) := check_should_keep keep_fds fd fds_sorted in
            (if (kept : bool) then mret tt else set_cloexec fd);;
            cloexec_loop n' fuel keep_fds max_keep_fd fds_sorted fditer
      | None => drop_fditer fditer
      end
  end.

(** [cloexec::set_fds_cloexec] *)
Definition set_fds_cloexec (fuel : nat) (minfd : Z) (keep_fds : KeepFds)
    (itbuilder : FdIterBuilder) : ST (World K) unit :=
  let max_keep_fd := kf_max keep_fds in
  let fds_sorted := kf_sorted keep_fds in
  r ← lift (simplify_keep_fds (kf_fds keep_fds) fds_sorted minfd);
  let '(keep_fds, minfd) := (r : list Z * Z) in
  shortcut ← (if decide (target = linux)
              then set_cloexec_shortcut minfd keep_fds max_keep_fd fds_sorted
              else mret Err);
  if is_ok shortcut then mret tt
  else
    let itbuilder := set_possible true itbuilder in
    fditer ← iter_from itbuilder minfd;
    cloexec_loop fuel fuel keep_fds max_keep_fd fds_sorted fditer.

(** [cloexec::probe] *)
Definition cloexec_probe : ST (World K) unit :=
  if decide (target = linux) then _ ← set_cloexec_range u32_MAX u32_MAX; mret tt
  else mret tt.
End cloexec.

(** ** Marking as an effect *)

Definition cloexec_effect `{SK : Sys K} : Effect.
Proof.
  refine {| act := fun fl => Some (Z.lor fl FD_CLOEXEC) |}.
  intros fl. simpl. by rewrite <- Z.lor_assoc, Z.lor_diag.
Defined.

Section cloexec_spec.
Context `{C : Config, !ConfigOk C} {K : Type} `{SK : Sys K} `{KV : KernelView K}
  {KS : KernelSpec K}.

#[local] Instance marking : Effect := cloexec_effect.

Lemma acted_cloexec o : acted o = (fun fl => Z.lor fl FD_CLOEXEC) <$> o.
Proof. by destruct o. Qed.

Lemma set_cloexec_acts : acts set_cloexec.
Proof.
  intros fd w. eapply wp_mono; [apply set_cloexec_spec|].
  intros [] w' (Hm & Hf & Hs). split_and!; [|done|done].
  intros f. rewrite (Hm f), acted_cloexec. repeat case_decide; congruence.
Qed.

(** [close_range] with the flag succeeds, from this state on. *)
Definition cloexec_range_works (k : K) : Prop :=
  exists I : K -> Prop, I k /\ forall k lo hi, I k -> lo <= hi ->
    exists k', sys_close_range lo hi CLOSE_RANGE_CLOEXEC k = (Some 0, k') /\ I k'.

Lemma set_cloexec_range_ranger :
  ranger (fun _ => target = linux) cloexec_range_works set_cloexec_range.
Proof.
  intros lo hi w Hlo Hhi Hok Ht. unfold set_cloexec_range. apply wp_bind. eapply wp_lift.
  { apply debug_assert_ok, Z.leb_le. lia. }
  apply wp_bind, wp_call_or_die. intros [r|] k' Hk; last first.
  { exfalso. eapply close_range_survives; [by left|exact Hk]. }
  exists r. split; [done|].
  assert (Hw : cloexec_range_works (kern w) -> r = 0 /\ cloexec_range_works k').
  { intros (I & HI & Hstep). destruct (Hstep (kern w) lo hi HI ltac:(lia)) as (k2 & Hk2 & HI2).
    rewrite Hk in Hk2. injection Hk2 as -> ->. split; [done|]. by exists I. }
  destruct (close_range_cloexec_spec _ _ _ _ _ Hk) as (Hf & H0 & H1).
  pose proof (world_ok_view _ _ Hok Hf) as Hok'. destruct (Z.eqb_spec r 0) as [Hr|Hr].
  - apply wp_ret. split_and!; [done|done|done| |].
    + intros Hk'. split; [done|]. by apply Hw.
    + intros f. rewrite acted_cloexec. by apply H0.
  - apply wp_bind, wp_store, wp_ret. simpl. split_and!; [done| |done| |auto].
    + apply store_no_cloexec_range; [done|]. simpl. rewrite (proj1 Hf). intros He.
      by apply Hr, (cloexec_range_present _ _ _ _ _ Ht He Hk).
    + intros Hk'. by destruct (Hw Hk').
Qed.

Lemma set_cloexec_range_end fd w :
  target = linux -> 0 <= fd <= i32_MAX -> world_ok w ->
  wp (set_cloexec_range (as_u32 fd) u32_MAX) (fun r w' =>
    frame (kern w) (kern w') /\ world_ok w' /\
    (cloexec_range_works (kern w) -> r = Ok tt) /\
    match r with
    | Ok _ => act_from fd (fds (kern w)) (fds (kern w'))
    | Err => fds (kern w') = fds (kern w)
    end) w.
Proof.
  intros Ht Hfd Hok. rewrite as_u32_small by (unfold i32_MAX, u32_MAX in *; lia).
  eapply wp_mono; [apply set_cloexec_range_ranger; try done; unfold i32_MAX, u32_MAX in *; lia|].
  intros [[]|] w' (H1 & H2 & _ & H3 & H4); (split_and!; [done|done|by intros [? _]%H3|]); [|done].
  by apply act_range_from.
Qed.

(** *** The shortcut *)

Definition cloexec_available (minfd mx : Z) (srt : bool) (w : World K) : Prop :=
  target = linux /\ cloexec_range_works (kern w) /\
  MAY_HAVE_CLOSE_RANGE_CLOEXEC (statics w) = true /\ (mx < minfd \/ srt = true).

Lemma set_cloexec_shortcut_spec minfd keep mx srt w :
  target = linux -> shortcut_pre minfd keep mx srt w ->
  wp (set_cloexec_shortcut minfd keep mx srt) (fun r w' =>
    shortcut_post minfd keep w r w' /\
    (cloexec_available minfd mx srt w -> r = Ok tt)) w.
Proof.
  intros Ht [Hok Hm Hs Hi Hx Hmx Hnil]. unfold set_cloexec_shortcut.
  apply wp_bind, wp_load. destruct (MAY_HAVE_CLOSE_RANGE_CLOEXEC _) eqn:Hmay; simpl; last first.
  { apply wp_ret. split; [by apply shortcut_nothing|]. intros (_ & _ & ? & _). congruence. }
  destruct (Z.ltb_spec mx minfd) as [Hlt|Hge].
  - eapply wp_mono; [by apply set_cloexec_range_end|].
    intros r w' ([H1 _] & H2 & Hw & H3). split; [|intros (_ & ? & _); auto].
    destruct r as [[]|]; [|by apply shortcut_nothing].
    apply shortcut_all; [|done..]. intros f Hin. specialize (Hmx f Hin). lia.
  - destruct srt.
    + eapply wp_mono; [eapply (gaps_spec (fun _ => target = linux) cloexec_range_works); auto;
        apply ranger_as_u32, set_cloexec_range_ranger|].
      intros r w' [Hp Hw]. split; [done|]. intros (_ & ? & _). auto.
    + apply wp_ret. split; [by apply shortcut_nothing|]. intros (_ & _ & _ & [?|?]); [lia|done].
Qed.

(** *** The loop *)

Lemma set_cloexec_rest_spec P t fuel fd it w :
  enough_fuel fuel -> at_rest P t fd it w ->
  wp (set_cloexec_rest fuel fd it) (fun _ w' => finished P t (env (kern w)) w') w.
Proof.
  intros Hf Har. unfold set_cloexec_rest. apply wp_bind.
  apply (wp_mono _ (fun (b : bool) w' => frame (kern w) (kern w') /\
    world_ok w' /\ if b then act_from fd (fds (kern w)) (fds (kern w'))
                   else fds (kern w') = fds (kern w))).
  { pose proof (ar_world _ _ _ _ _ Har) as Hok. pose proof (ar_fd _ _ _ _ _ Har) as Hfd.
    unfold set_cloexec_rest_range. case_decide as Ht; [|by apply wp_ret].
    apply wp_bind, wp_load. destruct (MAY_HAVE_CLOSE_RANGE_CLOEXEC _); [|by apply wp_ret].
    apply wp_bind. eapply wp_mono; [apply set_cloexec_range_end; [done|lia|done]|].
    intros [[]|] w' (H1 & H2 & _ & H3); by apply wp_ret. }
  intros [] w1 (Hfr & Hok1 & Hr).
  - by eapply rest_range; [..|apply Hfr|].
  - rewrite <- (proj1 Hfr). eapply rest_loop; [apply set_cloexec_acts|done|done|].
    by eapply at_rest_frame.
Qed.

Lemma cloexec_loop_visit n fuel keep mx srt it :
  cloexec_loop n fuel keep mx srt it =
  visit_loop set_cloexec set_cloexec_rest n fuel keep mx srt it.
Proof. reflexivity. Qed.

(** [set_fds_cloexec] marks what it has to, up to the limit of the fallback
    loop, and nothing else; where the shortcut is available, there is no
    limit. *)
Lemma set_fds_cloexec_spec fuel minfd k b w :
  enough_fuel fuel -> keep_ok k -> world_ok w -> 0 <= minfd <= i32_MAX ->
  wp (set_fds_cloexec fuel minfd k b) (fun _ w' =>
    finished (chosen minfd (kf_fds k)) (fds (kern w)) (env (kern w)) w' /\
    (cloexec_available minfd (kf_max k) (kf_sorted k) w ->
     completed (chosen minfd (kf_fds k)) (fds (kern w)) (env (kern w)) w')) w.
Proof.
  intros Hf Hk Hok Hm.
  destruct (simplified_pre k minfd w Hk Hok Hm) as (keep' & m & Heq & Hle & Hch & Hpre).
  assert (Hav : cloexec_available minfd (kf_max k) (kf_sorted k) w ->
    cloexec_available m (kf_max k) (kf_sorted k) w).
  { unfold cloexec_available. intuition lia. }
  unfold set_fds_cloexec. apply wp_bind. eapply wp_lift; [exact Heq|]. cbn beta iota.
  apply wp_bind. apply (wp_mono _ (fun r w' =>
    shortcut_post m keep' w r w' /\
    (cloexec_available m (kf_max k) (kf_sorted k) w -> r = Ok tt))).
  { case_decide as Ht; [by apply set_cloexec_shortcut_spec|].
    apply wp_ret. split; [by apply shortcut_nothing|]. by intros [? _]. }
  intros r w1 [[Hp Hc] Hr]. pose proof (proj1 Hp) as He.
  destruct r as [[]|]; simpl.
  { apply wp_ret. split; [|intros _]; eapply finished_iff || eapply completed_iff; try done.
    - apply completed_finished. auto.
    - auto. }
  rewrite <- He in Hp |- *. destruct Hpre as [_ Hm' Hs Hi Hx Hmx _].
  eapply wp_mono; [eapply (fresh_visit_spec set_cloexec set_cloexec_rest); try done|].
  - apply set_cloexec_acts.
  - intros fd it w2. by apply set_cloexec_rest_spec.
  - intros [] w2. split; [by eapply finished_iff|]. by intros ?%Hav%Hr.
Qed.

Lemma set_cloexec_range_has lo hi w :
  target = linux -> lo <= hi ->
  wp (set_cloexec_range lo hi) (fun _ w' =>
    HAS_CLOSE_RANGE (statics w') = HAS_CLOSE_RANGE (statics w) /\
    MAY_HAVE_CLOSE_RANGE (statics w') = MAY_HAVE_CLOSE_RANGE (statics w) /\
    (env_cloexec_range (env (kern w)) = Some false ->
     MAY_HAVE_CLOSE_RANGE_CLOEXEC (statics w') = false)) w.
Proof.
  intros Ht Hle. unfold set_cloexec_range. apply wp_bind. eapply wp_lift.
  { apply debug_assert_ok, Z.leb_le. lia. }
  apply wp_bind, wp_call_or_die. intros [r|] k' Hk; last first.
  { exfalso. eapply close_range_survives; [by left|exact Hk]. }
  exists r. split; [done|]. destruct (Z.eqb_spec r 0); (split; [done|]); (split; [done|]); [|done].
  intros He. by destruct (cloexec_range_absent _ _ _ _ _ Ht He Hk).
Qed.

Lemma cloexec_probe_spec w :
  world_ok w ->
  wp cloexec_probe (fun _ w' => fds (kern w') = fds (kern w) /\
    frame (kern w) (kern w') /\ world_ok w' /\
    HAS_CLOSE_RANGE (statics w') = HAS_CLOSE_RANGE (statics w) /\
    MAY_HAVE_CLOSE_RANGE (statics w') = MAY_HAVE_CLOSE_RANGE (statics w) /\
    (target = linux -> env_cloexec_range (env (kern w)) = Some false ->
     MAY_HAVE_CLOSE_RANGE_CLOEXEC (statics w') = false)) w.
Proof.
  intros Hok. unfold cloexec_probe. case_decide as Ht; [|by apply wp_ret].
  apply wp_bind. eapply wp_mono; [apply wp_and; [by apply set_cloexec_range_has|
    apply set_cloexec_range_ranger; try done; unfold u32_MAX; lia]|].
  intros r w' ((Hh & Hm & Hc) & H1 & H2 & _ & _ & H3). apply wp_ret. split_and!; [|done..|auto].
  destruct r as [[]|]; [|done]. apply map_eq. intros f. rewrite (H3 f).
  case_decide; [|done]. rewrite fds_high by (unfold u32_MAX, i32_MAX in *; lia). done.
Qed.
End cloexec_spec.
