(* ===== verification/CloseFds.v ===== *)
(** * src/closefds/mod.rs

    [CloseFdsBuilder] and the helper functions that close the descriptors of the
    process or mark them close-on-exec; and what they promise to their user. *)

From S2P Require Import Prelude Platform Ints Sys KernelSpec Util DirFdIter FdIter IterFds KeepFds Visit Close Cloexec.

(** ** Definitions *)

(** The structure [CloseFdsBuilder]. *)
Record CloseFdsBuilder := { cb_keep_fds : KeepFds; cb_it : FdIterBuilder }.

(** [CloseFdsBuilder::new] *)
Definition close_fds_builder_new : CloseFdsBuilder :=
  {| cb_keep_fds := keep_empty; cb_it := fd_iter_builder_new |}.

(** [impl Default for CloseFdsBuilder] *)
Definition close_fds_builder_default : CloseFdsBuilder := close_fds_builder_new.

Section builder.
Context `{C : Config}.

(** The methods that change the builder; they return it. *)
Definition keep_fds (fds : list Z) (b : CloseFdsBuilder) : outcome CloseFdsBuilder :=
  k ← keep_new fds;
  mret {| cb_keep_fds := k; cb_it := cb_it b |}.
Definition keep_fds_sorted (fds : list Z) (b : CloseFdsBuilder) : CloseFdsBuilder :=
  {| cb_keep_fds := keep_new_sorted fds; cb_it := cb_it b |}.
Definition threadsafe (threadsafe : bool) (b : CloseFdsBuilder) : CloseFdsBuilder :=
  {| cb_keep_fds := cb_keep_fds b; cb_it := set_threadsafe threadsafe (cb_it b) |}.
Definition allow_filesystem (fs : bool) (b : CloseFdsBuilder) : CloseFdsBuilder :=
  {| cb_keep_fds := cb_keep_fds b; cb_it := set_allow_filesystem fs (cb_it b) |}.

Context {K : Type} `{SK : Sys K}.

Definition cloexecfrom (fuel : nat) (b : CloseFdsBuilder) (minfd : Z) : ST (World K) unit :=
  Cloexec.set_fds_cloexec fuel (Z.max minfd 0) (cb_keep_fds b) (cb_it b).

Definition closefrom (fuel : nat) (b : CloseFdsBuilder) (minfd : Z) : ST (World K) unit :=
  close_fds fuel (Z.max minfd 0) (cb_keep_fds b) (cb_it b).

(** The helper functions. *)
Definition set_fds_cloexec (fuel : nat) (minfd : Z) (fds : list Z) : ST (World K) unit :=
  b ← lift (keep_fds fds close_fds_builder_new);
  cloexecfrom fuel b minfd.

Definition set_fds_cloexec_threadsafe (fuel : nat) (minfd : Z) (fds : list Z)
  : ST (World K) unit :=
  b ← lift (keep_fds fds close_fds_builder_new);
  cloexecfrom fuel (threadsafe true b) minfd.

Definition close_open_fds (fuel : nat) (minfd : Z) (fds : list Z) : ST (World K) unit :=
  b ← lift (keep_fds fds close_fds_builder_new);
  closefrom fuel b minfd.

(** [closefds::probe] *)
Definition closefds_probe : ST (World K) unit := close_probe;; cloexec_probe.
End builder.

(** ** Builders *)

(** The builder's list is a list of descriptors, and what is recorded of it is
    true. *)
Definition builder_ok (b : CloseFdsBuilder) : Prop := keep_ok (cb_keep_fds b).

(** A slice a caller may pass: C integers, and no system has the descriptor
    [c_int::MAX]. *)
Record slice_ok (l : list Z) : Prop := {
  slice_i32 : Forall (fun x => is_i32 x) l;
  slice_limit : i32_MAX ∉ l;
}.

Section builder_spec.
Context `{C : Config}.

Lemma new_ok : builder_ok close_fds_builder_new.
Proof. apply keep_empty_ok. Qed.

Lemma keep_fds_ok l b :
  slice_ok l -> exists b', keep_fds l b = Done b' /\ builder_ok b' /\
    kf_fds (cb_keep_fds b') = l /\ cb_it b' = cb_it b /\
    (kf_sorted (cb_keep_fds b') = true <-> ascending l).
Proof.
  intros [Hi Hx]. destruct (keep_new_spec l Hi Hx) as (k & Hk & Hl & Hok & Hs).
  unfold keep_fds. rewrite Hk. simpl. eexists. split; [done|]. done.
Qed.

Lemma keep_fds_sorted_ok l b :
  slice_ok l -> ascending l -> builder_ok (keep_fds_sorted l b).
Proof. intros [Hi Hx] Hs. by apply keep_new_sorted_spec. Qed.

Lemma threadsafe_ok t b : builder_ok b -> builder_ok (threadsafe t b).
Proof. done. Qed.

Lemma allow_filesystem_ok fs b : builder_ok b -> builder_ok (allow_filesystem fs b).
Proof. done. Qed.
End builder_spec.

(** ** What is left of a table *)

(** The descriptors below [minfd] and the kept ones. *)
Definition spared (minfd : Z) (keep : list Z) (f : Z) : Prop := f < minfd \/ f ∈ keep.

#[export] Instance spared_dec minfd keep f : Decision (spared minfd keep f).
Proof. unfold spared. apply _. Defined.

(** The table after closing everything else, and after marking it. *)
Definition closed_table (minfd : Z) (keep : list Z) (t : gmap Z Z) : gmap Z Z :=
  filter (fun p => spared minfd keep p.1) t.

Definition marked_table `{SK : Sys K} (minfd : Z) (keep : list Z) (t : gmap Z Z) : gmap Z Z :=
  map_imap (fun f fl => Some (if decide (spared minfd keep f) then fl
                              else Z.lor fl FD_CLOEXEC)) t.

Section tables.
Context `{C : Config, !ConfigOk C} {K : Type} `{SK : Sys K} `{KV : KernelView K}
  {KS : KernelSpec K}.

Lemma chosen_spared minfd keep (f : Z) :
  0 <= f -> chosen (Z.max minfd 0) keep f <-> ~ spared minfd keep f.
Proof.
  intros Hf. unfold chosen, spared. split.
  - intros [Hm Hn] [?|?]; [lia|done].
  - intros Hn. split; [|by intros ?; apply Hn; right].
    destruct (Z.lt_ge_cases f minfd); [|lia]. destruct Hn. by left.
Qed.

Lemma fds_negative (k : K) f : f < 0 -> fds k !! f = None.
Proof. intros Hf. apply eq_None_not_Some. intros [fl Hfl%fds_wf]. lia. Qed.

Section effect.
Context `{E : Effect}.

(** What a user sees of the end of a loop, descriptor by descriptor. *)
Lemma finished_spared minfd keep (w w' : World K) f :
  finished (chosen (Z.max minfd 0) keep) (fds (kern w)) (env (kern w)) w' ->
  spared minfd keep f -> fds (kern w') !! f = fds (kern w) !! f.
Proof.
  intros (_ & _ & Ht & _) Hs. destruct (Z.lt_ge_cases f 0); [by rewrite !fds_negative|].
  destruct (Ht f) as [?|[Hc _]]; [done|]. by apply chosen_spared in Hc.
Qed.

Lemma finished_acted minfd keep (w w' : World K) f :
  finished (chosen (Z.max minfd 0) keep) (fds (kern w)) (env (kern w)) w' ->
  ~ spared minfd keep f -> f <= scan_limit (env (kern w)) ->
  fds (kern w') !! f = acted (fds (kern w) !! f).
Proof.
  intros (_ & _ & _ & Hc) Hs Hl. destruct (Z.lt_ge_cases f 0); [by rewrite !fds_negative|].
  apply Hc; [|done]. by apply chosen_spared.
Qed.

Lemma finished_either minfd keep (w w' : World K) f :
  finished (chosen (Z.max minfd 0) keep) (fds (kern w)) (env (kern w)) w' ->
  fds (kern w') !! f = fds (kern w) !! f \/
  fds (kern w') !! f = acted (fds (kern w) !! f).
Proof. intros (_ & _ & Ht & _). destruct (Ht f) as [?|[_ ?]]; auto. Qed.

Lemma completed_acted minfd keep (w w' : World K) f :
  completed (chosen (Z.max minfd 0) keep) (fds (kern w)) (env (kern w)) w' ->
  fds (kern w') !! f =
    if decide (spared minfd keep f) then fds (kern w) !! f else acted (fds (kern w) !! f).
Proof.
  intros Hc. case_decide as Hs.
  - eapply finished_spared; [by apply completed_finished|done].
  - destruct Hc as (_ & _ & _ & Hc). destruct (Z.lt_ge_cases f 0); [by rewrite !fds_negative|].
    apply Hc. by apply chosen_spared.
Qed.

(** When all open descriptors are within the limit, a finished loop did all
    of its work. *)
Lemma finished_completed minfd keep (w w' : World K) :
  (forall f, is_Some (fds (kern w) !! f) -> f <= scan_limit (env (kern w))) ->
  finished (chosen (Z.max minfd 0) keep) (fds (kern w)) (env (kern w)) w' ->
  completed (chosen (Z.max minfd 0) keep) (fds (kern w)) (env (kern w)) w'.
Proof.
  intros Hlim (H1 & H2 & H3 & H4). split_and!; [done..|]. intros f Hf.
  destruct (fds (kern w) !! f) as [fl|] eqn:Hfl.
  - rewrite <- Hfl. apply H4; [done|]. apply Hlim. by rewrite Hfl.
  - destruct (H3 f) as [He|[_ He]]; by rewrite He, Hfl.
Qed.
End effect.

Lemma closed_table_eq minfd keep (w w' : World K) :
  completed (E := close_effect) (chosen (Z.max minfd 0) keep) (fds (kern w)) (env (kern w)) w' ->
  fds (kern w') = closed_table minfd keep (fds (kern w)).
Proof.
  intros Hc. apply map_eq. intros f.
  pose proof (completed_acted (E := close_effect) minfd keep w w' f Hc) as ->.
  rewrite acted_close. unfold closed_table. symmetry. case_decide as Hs.
  - destruct (fds (kern w) !! f) as [fl|] eqn:Hfl.
    + by apply map_lookup_filter_Some_2.
    + apply map_lookup_filter_None. by left.
  - apply map_lookup_filter_None. by right.
Qed.

Lemma marked_table_eq minfd keep (w w' : World K) :
  completed (E := cloexec_effect) (chosen (Z.max minfd 0) keep) (fds (kern w)) (env (kern w)) w' ->
  fds (kern w') = marked_table minfd keep (fds (kern w)).
Proof.
  intros Hc. apply map_eq. intros f.
  pose proof (completed_acted (E := cloexec_effect) minfd keep w w' f Hc) as ->.
  unfold marked_table. rewrite map_lookup_imap.
  destruct (fds (kern w) !! f); by case_decide.
Qed.

(** The helpers on a table that is within the limit. *)
Lemma close_open_fds_spec fuel minfd l w :
  enough_fuel fuel -> slice_ok l -> world_ok w -> minfd <= i32_MAX ->
  (forall f, is_Some (fds (kern w) !! f) -> f <= scan_limit (env (kern w))) ->
  wp (close_open_fds fuel minfd l) (fun _ w' =>
    fds (kern w') = closed_table minfd l (fds (kern w)) /\ env (kern w') = env (kern w) /\
    world_ok w') w.
Proof.
  intros Hf Hl Hok Hm Hlim. unfold close_open_fds.
  destruct (keep_fds_ok l close_fds_builder_new Hl) as (b & Hb & Hbok & Hk & _).
  apply wp_bind. eapply wp_lift; [exact Hb|]. unfold closefrom.
  eapply wp_mono; [apply close_fds_spec; [done..|unfold i32_MAX in *; lia]|].
  intros [] w' [Hfin _]. split; [|split; apply Hfin].
  apply closed_table_eq. rewrite <- Hk. by apply finished_completed.
Qed.

Lemma set_fds_cloexec_table fuel minfd l w :
  enough_fuel fuel -> slice_ok l -> world_ok w -> minfd <= i32_MAX ->
  (forall f, is_Some (fds (kern w) !! f) -> f <= scan_limit (env (kern w))) ->
  wp (set_fds_cloexec fuel minfd l) (fun _ w' =>
    fds (kern w') = marked_table minfd l (fds (kern w))) w.
Proof.
  intros Hf Hl Hok Hm Hlim. unfold set_fds_cloexec.
  destruct (keep_fds_ok l close_fds_builder_new Hl) as (b & Hb & Hbok & Hk & _).
  apply wp_bind. eapply wp_lift; [exact Hb|]. unfold cloexecfrom.
  eapply wp_mono; [apply set_fds_cloexec_spec; [done..|unfold i32_MAX in *; lia]|].
  intros [] w' [Hfin _]. apply marked_table_eq. rewrite <- Hk. by apply finished_completed.
Qed.
End tables.

(** ** Properties *)

Section properties.
Context `{C : Config, !ConfigOk C} {K : Type} `{SK : Sys K} `{KV : KernelView K}
  {KS : KernelSpec K}.

(** C1. [CloseFdsBuilder::closefrom], on every target and in every build:
    it terminates without a panic, an undefined read or a fatal system call;
    descriptors below [minfd] and kept ones are exactly as before; every other
    descriptor up to the limit of the fallback loop is closed; beyond it a
    descriptor is closed or untouched; and no descriptor appears (the
    directory used on the way is closed). *)
Theorem closefrom_correct fuel b minfd w :
  enough_fuel fuel -> builder_ok b -> world_ok w -> minfd <= i32_MAX ->
  wp (closefrom fuel b minfd) (fun _ w' =>
    (forall f, f < minfd \/ f ∈ kf_fds (cb_keep_fds b) ->
       fds (kern w') !! f = fds (kern w) !! f) /\
    (forall f, minfd <= f -> f ∉ kf_fds (cb_keep_fds b) ->
       f <= scan_limit (env (kern w)) -> fds (kern w') !! f = None) /\
    (forall f, fds (kern w') !! f = None \/ fds (kern w') !! f = fds (kern w) !! f) /\
    world_ok w') w.
Proof.
  intros Hf Hb Hok Hm. unfold closefrom.
  eapply wp_mono; [apply close_fds_spec; [done..|unfold i32_MAX in *; lia]|].
  intros [] w' [Hfin _]. split_and!; [..|apply Hfin].
  - intros f Hs. by eapply finished_spared.
  - intros f Hmf Hn Hl. rewrite (finished_acted _ _ _ _ f Hfin), acted_close; [done| |done].
    intros [?|?]; [lia|done].
  - intros f. destruct (finished_either _ _ _ _ f Hfin) as [->| ->]; [by right|left].
    apply acted_close.
Qed.

(** C2. [CloseFdsBuilder::cloexecfrom], likewise: descriptors below [minfd]
    and kept ones are as before; every other open descriptor up to the limit
    of the fallback loop gets the close-on-exec flag and keeps its other
    flags; beyond it a descriptor gets the flag or is untouched; no descriptor
    is opened or closed. *)
Theorem cloexecfrom_correct fuel b minfd w :
  enough_fuel fuel -> builder_ok b -> world_ok w -> minfd <= i32_MAX ->
  wp (cloexecfrom fuel b minfd) (fun _ w' =>
    (forall f, f < minfd \/ f ∈ kf_fds (cb_keep_fds b) ->
       fds (kern w') !! f = fds (kern w) !! f) /\
    (forall f fl, minfd <= f -> f ∉ kf_fds (cb_keep_fds b) ->
       f <= scan_limit (env (kern w)) -> fds (kern w) !! f = Some fl ->
       fds (kern w') !! f = Some (Z.lor fl FD_CLOEXEC)) /\
    (forall f, fds (kern w') !! f = fds (kern w) !! f \/
       exists fl, fds (kern w) !! f = Some fl /\
         fds (kern w') !! f = Some (Z.lor fl FD_CLOEXEC)) /\
    world_ok w') w.
Proof.
  intros Hf Hb Hok Hm. unfold cloexecfrom.
  eapply wp_mono; [apply set_fds_cloexec_spec; [done..|unfold i32_MAX in *; lia]|].
  intros [] w' [Hfin _]. split_and!; [..|apply Hfin].
  - intros f Hs. by eapply finished_spared.
  - intros f fl Hmf Hn Hl Hfl. rewrite (finished_acted _ _ _ _ f Hfin), Hfl; [done| |done].
    intros [?|?]; [lia|done].
  - intros f. destruct (finished_either _ _ _ _ f Hfin) as [->| ->]; [by left|].
    destruct (fds (kern w) !! f) as [fl|]; [right; by exists fl|by left].
Qed.

(** C3. [close_open_fds(minfd, fds)], for any slice of C integers without
    [c_int::MAX]: when no open descriptor lies beyond the limit of the
    fallback loop, the table afterwards is the table before restricted to the
    descriptors below [minfd] and those in the slice. *)
Theorem close_open_fds_exact fuel minfd l w :
  enough_fuel fuel -> slice_ok l -> world_ok w -> minfd <= i32_MAX ->
  (forall f, is_Some (fds (kern w) !! f) -> f <= scan_limit (env (kern w))) ->
  wp (close_open_fds fuel minfd l) (fun _ w' =>
    fds (kern w') = closed_table minfd l (fds (kern w))) w.
Proof.
  intros Hf Hl Hok Hm Hlim. eapply wp_mono; [by apply close_open_fds_spec|]. by intros [] w' [? _].
Qed.

(** C4. [set_fds_cloexec(minfd, fds)], under the same conditions: the table
    afterwards is the table before with the close-on-exec flag added to every
    descriptor from [minfd] up that is not in the slice. *)
Theorem set_fds_cloexec_exact fuel minfd l w :
  enough_fuel fuel -> slice_ok l -> world_ok w -> minfd <= i32_MAX ->
  (forall f, is_Some (fds (kern w) !! f) -> f <= scan_limit (env (kern w))) ->
  wp (set_fds_cloexec fuel minfd l) (fun _ w' =>
    fds (kern w') = marked_table minfd l (fds (kern w))) w.
Proof. apply set_fds_cloexec_table. Qed.

(** C5. Where the system can close ranges, [closefrom] has no limit: with
    [closefrom] (the BSDs) when every kept descriptor is below [minfd], with a
    working [close_range] (Linux, FreeBSD) also when the slice is known to be
    sorted, every descriptor from [minfd] up that is not kept is closed,
    wherever it is in the table. *)
Theorem closefrom_complete fuel b minfd w :
  enough_fuel fuel -> builder_ok b -> world_ok w -> 0 <= minfd <= i32_MAX ->
  shortcut_available minfd (kf_max (cb_keep_fds b)) (kf_sorted (cb_keep_fds b)) w ->
  wp (closefrom fuel b minfd) (fun _ w' =>
    fds (kern w') = closed_table minfd (kf_fds (cb_keep_fds b)) (fds (kern w))) w.
Proof.
  intros Hf Hb Hok Hm Hav. unfold closefrom. rewrite Z.max_l by lia.
  eapply wp_mono; [by apply close_fds_spec|]. intros [] w' [_ Hc].
  apply closed_table_eq. rewrite Z.max_l by lia. auto.
Qed.

(** C6. On Linux with a [close_range] that knows [CLOSE_RANGE_CLOEXEC],
    [cloexecfrom] has no limit either, when every kept descriptor is below
    [minfd] or the slice is known to be sorted. *)
Theorem cloexecfrom_complete fuel b minfd w :
  enough_fuel fuel -> builder_ok b -> world_ok w -> 0 <= minfd <= i32_MAX ->
  cloexec_available minfd (kf_max (cb_keep_fds b)) (kf_sorted (cb_keep_fds b)) w ->
  wp (cloexecfrom fuel b minfd) (fun _ w' =>
    fds (kern w') = marked_table minfd (kf_fds (cb_keep_fds b)) (fds (kern w))) w.
Proof.
  intros Hf Hb Hok Hm Hav. unfold cloexecfrom. rewrite Z.max_l by lia.
  eapply wp_mono; [by apply set_fds_cloexec_spec|]. intros [] w' [_ Hc].
  apply marked_table_eq. rewrite Z.max_l by lia. auto.
Qed.

(** C14. The options of the builder and what it knows of the slice change how
    [closefrom] works, not what it does: two builders with the same kept
    descriptors leave the same table, when no open descriptor lies beyond the
    limit of the fallback loop. *)
Theorem closefrom_options_irrelevant fuel b1 b2 minfd w :
  enough_fuel fuel -> builder_ok b1 -> builder_ok b2 -> world_ok w -> minfd <= i32_MAX ->
  kf_fds (cb_keep_fds b1) = kf_fds (cb_keep_fds b2) ->
  (forall f, is_Some (fds (kern w) !! f) -> f <= scan_limit (env (kern w))) ->
  exists w1 w2, closefrom fuel b1 minfd w = Done (tt, w1) /\
    closefrom fuel b2 minfd w = Done (tt, w2) /\ fds (kern w1) = fds (kern w2).
Proof.
  intros Hf Hb1 Hb2 Hok Hm Hk Hlim.
  assert (Hall : forall b, builder_ok b -> exists w', closefrom fuel b minfd w = Done (tt, w') /\
    fds (kern w') = closed_table minfd (kf_fds (cb_keep_fds b)) (fds (kern w))).
  { intros b Hb. assert (Hwp : wp (closefrom fuel b minfd) (fun _ w' =>
      fds (kern w') = closed_table minfd (kf_fds (cb_keep_fds b)) (fds (kern w))) w).
    { eapply wp_mono; [apply close_fds_spec; [done..|unfold i32_MAX in *; lia]|].
      intros [] w' [Hfin _]. apply closed_table_eq. by apply finished_completed. }
    apply wp_done in Hwp as ([] & w' & ? & ?). by exists w'. }
  destruct (Hall b1 Hb1) as (w1 & H1 & E1), (Hall b2 Hb2) as (w2 & H2 & E2).
  exists w1, w2. split_and!; [done|done|]. by rewrite E1, E2, Hk.
Qed.

(** C13. What the crate's own tests check: after [close_open_fds(minfd, fds)],
    iterating over the open descriptors from [minfd] yields exactly those in
    the slice that were open before, in ascending order. *)
Theorem close_then_iterate fuel minfd l w :
  enough_fuel fuel -> slice_ok l -> world_ok w -> minfd <= i32_MAX ->
  (forall f, is_Some (fds (kern w) !! f) -> f <= scan_limit (env (kern w))) ->
  wp (close_open_fds fuel minfd l;; it ← iter_open_fds minfd; collect fuel fuel it)
    (fun left _ => strictly_ascending left /\
       forall f, f ∈ left <-> minfd <= f /\ f ∈ l /\ is_Some (fds (kern w) !! f)) w.
Proof.
  intros Hf Hl Hok Hm Hlim. apply wp_bind.
  eapply wp_mono; [by apply close_open_fds_spec|]. intros [] w1 (Htab & He & Hok1).
  assert (Hopen : forall f, is_Some (fds (kern w1) !! f) <->
    is_Some (fds (kern w) !! f) /\ spared minfd l f).
  { intros f. rewrite Htab. unfold closed_table. split.
    - intros [fl [H1 H2]%map_lookup_filter_Some]. split; [by exists fl|done].
    - intros [[fl H1] H2]. exists fl. by apply map_lookup_filter_Some. }
  eapply wp_mono; [by apply (iterate_spec fuel fd_iter_builder_new)|].
  intros lft w2 (_ & _ & _ & Hs & Hge & Hin & Hall). split; [done|]. intros f. split.
  - intros Hfl. specialize (Hge f Hfl). destruct (proj1 (Hopen f) (Hin eq_refl f Hfl)) as [H1 H2].
    destruct H2; [lia|]. split_and!; [lia|done|done].
  - intros (H1 & H2 & H3). apply Hall.
    + rewrite He. split; [done|by apply Hlim].
    + apply Hopen. split; [done|by right].
Qed.
End properties.
