(* ===== verification/CloexecThreads.v ===== *)
(** * Marking among other threads

    [CloseFdsBuilder::cloexecfrom] run on [Shared K]: with [threadsafe], every
    descriptor that is to be marked and that the other threads leave alone is
    marked, whatever they do with the others, and no other one is. *)

From S2P Require Import Prelude Platform Ints Sys KernelSpec Util DirFdIter FdIter IterFds Threads IterThreads KeepFds Visit LoopThreads Cloexec CloseFds.

Section marking.
Context `{C : Config, !ConfigOk C} {K : Type} `{SK : Sys K} `{KV : KernelView K}
  {KS : KernelSpec K} {R : Rely}.

#[local] Instance flagging : Effect := cloexec_effect.

Lemma acted_flag o : acted o = (fun fl => Z.lor fl FD_CLOEXEC) <$> o.
Proof. by destruct o. Qed.

(** A call, after a burst of the other threads, that only changes flags. *)
Lemma flags_call (w : World (Shared K)) k' st :
  let s := turn (kern w) in
  threads_ok (kern w) -> frame (base s) k' ->
  (forall f, is_Some (fds (base s) !! f) -> is_Some (fds k' !! f)) ->
  (statics_ok (world_env w) (statics w) -> statics_ok (world_env w) st) ->
  works w (mkWorld (set_base k' s) st).
Proof.
  intros s Hok [He Hd] Hf Hst. destruct (turn_evolves _ Hok) as (Hev & _ & _).
  fold s in Hev. destruct Hev as [[O1 O2 O3 O4 O5 O6] E M D S B H].
  assert (Henv : env k' = world_env w) by (unfold world_env; congruence).
  assert (Hmine : mine s ⊆ dom (fds k')).
  { intros d Hdm. apply elem_of_dom, Hf, elem_of_dom. auto. }
  constructor; simpl; try done.
  - apply (threads_ok_call s k' (mine s)); auto. by constructor.
  - unfold world_env. simpl. by rewrite Henv.
  - intros d Hdm. rewrite Hd; [by apply D|]. apply elem_of_dom, Hmine. by rewrite M.
  - etrans; [exact S|apply (set_base_grows k' (mine s))].
Qed.

(** [fcntl(fd, F_SETFD, fl)], where [fl] adds the flag to what a held
    descriptor has. *)
Lemma wp_setfd_threads fd fl (Q : unit -> World (Shared K) -> Prop) w :
  threads_ok (kern w) -> 0 <= fl ->
  (held_by w !! fd = None \/ Some fl = acted (held_by w !! fd)) ->
  (forall w', works w w' -> act_one fd (held_by w) (held_by w') -> Q tt w') ->
  wp (_ ← call (sys_fcntl_setfd fd fl); mret tt) Q w.
Proof.
  intros Hok Hfl Hh HQ. apply wp_bind, wp_call. intros r s2. simpl. unfold after.
  destruct (sys_fcntl_setfd fd fl (base (turn (kern w)))) as [r' k'] eqn:Hk. intros [= -> <-].
  apply wp_ret. pose proof (ev_held _ _ (proj1 (turn_evolves _ Hok))) as Hheld.
  set (s1 := turn (kern w)) in *. unfold held_by in *. rewrite <- Hheld in *.
  destruct (fds (base s1) !! fd) as [x|] eqn:Hx.
  - destruct (setfd_spec _ _ _ _ _ Hk (mk_is_Some _ _ Hx) Hfl) as [Hf Hfr].
    apply HQ; [apply flags_call; [done|done| |done]|].
    + intros f Hs. rewrite Hf. destruct (decide (f = fd)) as [->|];
        [by rewrite lookup_insert_eq; eexists|by rewrite lookup_insert_ne].
    + intros f. cbn [kern base set_base]. rewrite !held_lookup, Hf. rewrite held_lookup in Hh.
      destruct (decide (f = fd)) as [->|]; [|by rewrite lookup_insert_ne].
      rewrite lookup_insert_eq, Hx in *. destruct (decide (stay fd /\ still fd)); [|done].
      by destruct Hh.
  - destruct (setfd_closed _ _ _ _ _ Hk Hx) as [Hf Hfr].
    apply HQ; [apply flags_call; [done|done|by rewrite Hf|done]|].
    intros f. cbn [kern base set_base]. rewrite (held_same _ _ Hf). case_decide as Hd; [|done]. subst f.
    rewrite held_lookup, Hx. by case_decide.
Qed.

Lemma set_cloexec_threads fd (Q : unit -> World (Shared K) -> Prop) w :
  threads_ok (kern w) ->
  (forall w', works w w' -> act_one fd (held_by w) (held_by w') -> Q tt w') ->
  wp (set_cloexec fd) Q w.
Proof.
  intros Hok HQ. unfold set_cloexec. apply wp_bind, wp_look; [done| |].
  { intros k r k' Hk. by apply getfd_spec in Hk as [_ ?]. }
  intros k r w1 Hk Hq Hmo. apply getfd_spec in Hk as [-> _].
  pose proof (quietly_works _ _ Hq) as Hw1. destruct Hq as [Hev Hst].
  assert (Hh : forall f, held_by w !! f = if decide (stay f /\ still f) then fds k !! f else None).
  { intros f. unfold held_by. rewrite <- (ev_held _ _ Hev), held_lookup.
    by rewrite (mo_fds _ _ _ Hmo). }
  assert (Hsame : forall w', held_by w' = held_by w -> acted (held_by w !! fd) = held_by w !! fd ->
    act_one fd (held_by w) (held_by w')).
  { intros w' Hw' Ha f. rewrite Hw'. case_decide as Hd; [|done]. by subst. }
  assert (Hheld1 : held_by w1 = held_by w) by apply (ev_held _ _ Hev).
  destruct (fds k !! fd) as [fl|] eqn:Hfl; simpl; last first.
  { apply wp_ret, HQ; [done|]. apply Hsame; [done|]. rewrite Hh, Hfl. by case_decide. }
  pose proof (fds_wf _ _ _ Hfl) as [_ Hpos]. pose proof FD_CLOEXEC_wf as Hcl.
  rewrite (proj2 (Z.leb_le _ _)) by done. simpl.
  destruct (Z.eqb_spec (Z.land fl FD_CLOEXEC) FD_CLOEXEC) as [Ha|Ha]; simpl.
  - apply wp_ret, HQ; [done|]. apply Hsame; [done|]. rewrite Hh, Hfl. case_decide; [|done].
    simpl. by rewrite lor_absorb.
  - apply wp_setfd_threads; [apply Hw1|by apply Z.lor_nonneg; split; lia| |].
    + rewrite Hheld1, Hh, Hfl. case_decide; [by right|by left].
    + intros w' Hw' Hact. rewrite Hheld1 in Hact. apply HQ; [by eapply works_trans|done].
Qed.

(** [close_range] with the flag, on Linux. *)
Lemma set_cloexec_range_threads lo hi w :
  target = linux -> 0 <= lo <= hi -> hi <= u32_MAX -> threads_ok (kern w) ->
  statics_ok (world_env w) (statics w) ->
  wp (set_cloexec_range lo hi) (fun r w' => works w w' /\
    match r with
    | Ok _ => act_range lo hi (held_by w) (held_by w')
    | Err => held_by w' = held_by w
    end) w.
Proof.
  intros Ht Hlo Hhi Hok Hsok. unfold set_cloexec_range. apply wp_bind. eapply wp_lift.
  { apply debug_assert_ok, Z.leb_le. lia. }
  apply wp_bind, wp_call_or_die. intros r s2. simpl. unfold after.
  destruct (sys_close_range lo hi CLOSE_RANGE_CLOEXEC (base (turn (kern w)))) as [r' k'] eqn:Hk.
  rewrite decide_False by (by intros [_ ?]). intros [= -> <-].
  destruct r as [r|]; last first.
  { exfalso. eapply close_range_survives; [by left|exact Hk]. }
  exists r. split; [done|]. pose proof (ev_held _ _ (proj1 (turn_evolves _ Hok))) as Hheld.
  set (s1 := turn (kern w)) in *. unfold held_by. rewrite <- Hheld.
  destruct (close_range_cloexec_spec _ _ _ _ _ Hk) as (Hf & H0 & H1).
  destruct (Z.eqb_spec r 0) as [Hr|Hr].
  - destruct (H0 Hr) as [_ Ha]. apply wp_ret. split.
    + apply flags_call; [done|done| |done]. intros f [x Hx]. fold s1 in Hx. rewrite Ha, Hx.
      case_decide; by eexists.
    + intros f. cbn [kern base set_base]. rewrite !held_lookup, Ha, acted_flag.
      by repeat case_decide.
  - specialize (H1 Hr).
    assert (Hw : works w (mkWorld (set_base k' s1) (statics w))).
    { apply flags_call; [done|done|by rewrite H1|done]. }
    assert (He : env k' = world_env w) by exact (wk_env _ _ Hw).
    assert (Hcl : forall st, statics_ok (world_env w) st ->
      statics_ok (world_env w) (store_MAY_HAVE_CLOSE_RANGE_CLOEXEC false st)).
    { intros st Hst. apply store_no_cloexec_range; [done|]. rewrite <- He, (proj1 Hf). intros Hx.
      by apply Hr, (cloexec_range_present _ _ _ _ _ Ht Hx Hk). }
    apply wp_bind, wp_store_threads; [apply Hw|simpl; rewrite He; auto|].
    intros s Hs. apply wp_ret. split.
    + eapply works_trans; [exact Hw|]. apply evolves_works; [done|]. intros _.
      change (statics_ok (env (base s)) (store_MAY_HAVE_CLOSE_RANGE_CLOEXEC false (statics w))).
      rewrite (ev_env _ _ Hs). simpl. rewrite He. auto.
    + unfold held_by. simpl. rewrite (ev_held _ _ Hs). by apply held_same.
Qed.

Lemma run_ranges_threads P rs w :
  target = linux -> threads_ok (kern w) -> statics_ok (world_env w) (statics w) ->
  Forall (fun r => 0 <= r.1 <= r.2 /\ r.2 <= u32_MAX) rs ->
  (forall r f, r ∈ rs -> r.1 <= f <= r.2 -> P f) ->
  wp (run_ranges (fun lo hi => set_cloexec_range (as_u32 lo) (as_u32 hi)) rs) (fun r w' =>
    works w w' /\ touched P (held_by w) (held_by w') /\
    forall f, r = Ok tt -> (exists r, r ∈ rs /\ r.1 <= f <= r.2) ->
      held_by w' !! f = acted (held_by w !! f)) w.
Proof.
  intros Ht. revert w. induction rs as [|[lo hi] rs IH]; intros w Hok Hst Hrs HP.
  { apply wp_ret. split; [by apply works_refl|]. split; [done|].
    by intros f _ (r & []%not_elem_of_nil & _). }
  apply Forall_cons in Hrs as [[Hr1 Hr2] Hrs]. simpl in Hr1, Hr2. simpl. apply wp_try.
  rewrite !as_u32_small by lia.
  eapply wp_mono; [apply set_cloexec_range_threads; done || lia|]. intros r w1 [Hw Hr].
  destruct r as [[]|]; last first.
  { split; [done|]. split; [by rewrite Hr|done]. }
  assert (Ht1 : touched P (held_by w) (held_by w1)).
  { eapply act_range_touched; [|done]. intros f Hf. apply (HP (lo, hi)); [by left|done]. }
  eapply wp_mono; [apply IH; [apply Hw|by apply Hw|done|]|].
  { intros r f Hin. apply HP. by right. }
  intros r w2 (Hw2 & Ht2 & Hall). split; [by eapply works_trans|]. split; [by etrans|].
  intros f Hr0 (rg & [->|Hin]%elem_of_cons & Hf).
  - simpl in Hf. eapply touched_stays; [exact Ht2|]. by rewrite (Hr f), decide_True.
  - rewrite Hall by eauto. by eapply touched_acted.
Qed.

(** ** The loop *)

Local Abbreviation progress := Visit.progress.

(** The end: the crate has nothing open, and of the held descriptors those in
    [P] are marked up to the limit, and no others. *)
Record flagged (P : Z -> Prop) (t : gmap Z Z) (e : Env) (w' : World (Shared K)) : Prop := {
  fl_ok : threads_ok (kern w');
  fl_env : world_env w' = e;
  fl_mine : mine (kern w') = ∅;
  fl_touched : touched P t (held_by w');
  fl_acted : acted_to P (scan_limit e) t (held_by w');
}.

Lemma held_passed P t c c' w :
  progress P t c (held_by w) -> (forall f, stay f -> c <= f -> c' <= f) ->
  progress P t c' (held_by w).
Proof.
  intros Hpr Hs. eapply progress_skip; [done|]. intros f Hf. apply held_stay.
  intros Hst. specialize (Hs f Hst). lia.
Qed.

Lemma flagged_end P t c it e w :
  iter_inv it w -> world_env w = e -> progress P t c (held_by w) ->
  (forall f, stay f -> c <= f -> f <= scan_limit e -> False) ->
  wp (drop_fditer it) (fun _ w' => flagged P t e w') w.
Proof.
  intros Hi <- [Ht Hc] Hn. eapply wp_mono; [by apply drop_fditer_threads|].
  intros [] w' [(Hok & He & _ & _ & Hh) Hm].
  assert (Hheld : held_by w' = held_by w) by exact Hh. constructor; rewrite ?Hheld; try done.
  intros f HP Hl. destruct (Z.lt_ge_cases f c); [by apply Hc|].
  eapply touched_None; [done|]. apply held_stay. intros Hs. by apply (Hn f Hs).
Qed.

(** One step of a loop. *)
Lemma flag_next P t fuel it w (Q : option Z * FdIter -> World (Shared K) -> Prop) :
  iter_inv it w -> enough_fuel fuel -> progress P t (curfd it) (held_by w) ->
  (forall o it' w', iter_inv it' w' -> world_env w' = world_env w -> statics w' = statics w ->
     match o with
     | Some fd => curfd it <= fd < i32_MAX /\ curfd it' = fd + 1 /\ progress P t fd (held_by w')
     | None => wp (drop_fditer it') (fun _ w2 => flagged P t (world_env w) w2) w'
     end -> Q (o, it') w') ->
  wp (FdIter.next fuel it) Q w.
Proof.
  intros Hi Hf Hpr HQ. eapply wp_mono; [by apply fd_next_threads|].
  intros [o it'] w1 ((Hok & He & Hst & _ & Hh) & Hi' & _ & Ho).
  assert (Hheld : held_by w1 = held_by w) by exact Hh.
  apply HQ; [done|done|done|]. destruct o as [fd|].
  - destruct Ho as (H1 & H2 & H3 & _). rewrite Hheld. split_and!; try done; try lia.
    by eapply held_passed.
  - apply (flagged_end P t (curfd it)); [done|done|by rewrite Hheld|done].
Qed.

(** [for fd in it { set_cloexec(fd) }], when everything left is to be marked. *)
Lemma for_each_threads P t n fuel it w :
  iter_inv it w -> enough_fuel fuel -> (steps_left it < n)%nat ->
  (forall f, curfd it <= f -> P f) -> progress P t (curfd it) (held_by w) ->
  wp (for_each n fuel set_cloexec it) (fun _ w' => flagged P t (world_env w) w') w.
Proof.
  intros Hi Hf. revert it w Hi. induction n as [|n IH]; intros it w Hi Hn HP Hpr; [lia|].
  simpl. apply wp_bind, (flag_next P t); [done..|].
  intros o it' w1 Hi' He _ Ho. cbn beta iota. destruct o as [fd|]; [|done].
  destruct Ho as (H1 & H2 & H3).
  apply wp_bind, set_cloexec_threads; [apply Hi'|]. intros w2 Hw Ha.
  rewrite <- He, <- (wk_env _ _ Hw).
  apply IH; [by eapply iter_inv_works|unfold steps_left in *; lia| |].
  - intros f Hfr. apply HP. lia.
  - rewrite H2. eapply progress_act; [done|apply HP; lia|done].
Qed.

(** The range that [set_cloexec_rest] asks for. *)
Lemma rest_range_threads fd w :
  threads_ok (kern w) -> statics_ok (world_env w) (statics w) -> 0 <= fd <= i32_MAX ->
  wp (set_cloexec_rest_range fd) (fun (b : bool) w' => works w w' /\
    if b then act_from fd (held_by w) (held_by w') else held_by w' = held_by w) w.
Proof.
  intros Hok Hst Hfd. unfold set_cloexec_rest_range.
  case_decide as Ht; [|apply wp_ret; split; [by apply works_refl|done]].
  apply wp_bind, wp_load_works; [done|]. intros w0 Hw0 Hh0. rewrite <- Hh0.
  destruct (MAY_HAVE_CLOSE_RANGE_CLOEXEC _); [|by apply wp_ret].
  rewrite as_u32_small by (unfold i32_MAX, u32_MAX in *; lia). apply wp_bind.
  eapply wp_mono; [apply set_cloexec_range_threads;
    [done|unfold i32_MAX, u32_MAX in *; lia|done|apply Hw0|by apply Hw0]|].
  intros [[]|] w' [Hw Hr]; apply wp_ret; (split; [by eapply works_trans|]); [|done].
  intros f. rewrite (Hr f). repeat case_decide; try done; try lia.
  assert (Hn : held_by w0 !! f = None); [|by rewrite Hn].
  unfold held_by. rewrite held_lookup, fds_high by (unfold i32_MAX, u32_MAX in *; lia).
  by case_decide.
Qed.

Lemma rest_threads P t fuel fd it w :
  iter_inv it w -> statics_ok (world_env w) (statics w) -> enough_fuel fuel ->
  curfd it = fd + 1 -> 0 <= fd < i32_MAX ->
  (forall f, fd <= f -> P f) -> progress P t fd (held_by w) ->
  wp (set_cloexec_rest fuel fd it) (fun _ w' => flagged P t (world_env w) w') w.
Proof.
  intros Hi Hst Hf Hc Hfd HP Hpr. unfold set_cloexec_rest. apply wp_bind.
  eapply wp_mono; [apply rest_range_threads; [apply Hi|done|lia]|]. intros b w1 [Hw Hr].
  pose proof (iter_inv_works _ _ _ Hi Hw) as Hi1. rewrite <- (wk_env _ _ Hw). destruct b.
  - destruct (progress_act_from _ _ _ _ _ Hpr HP Hr) as [Ht Hall].
    apply (flagged_end P t (i32_MAX + 1)); [done|done|split; [done|by intros f HPf _; apply Hall]|].
    intros f Hs Hlt Hl. destruct (to_stay _ (wk_ok _ _ Hw) f Hs) as [x Hx%fds_wf]. lia.
  - rewrite <- Hr in Hpr. apply wp_bind, set_cloexec_threads; [apply Hw|]. intros w2 Hw2 Ha.
    rewrite <- (wk_env _ _ Hw2). pose proof (iter_inv_works _ _ _ Hi1 Hw2) as Hi2.
    apply for_each_threads; [done|done| |intros f Hfr; apply HP; lia|].
    + pose proof (ii_curfd _ _ Hi2). unfold steps_left, enough_fuel, i32_MAX in *. lia.
    + rewrite Hc. eapply progress_act; [done|apply HP; lia|done].
Qed.

Lemma cloexec_loop_threads minfd keep mx srt t n fuel keepc it w :
  enough_fuel fuel -> (forall x, x ∈ keep -> x <= mx) ->
  (srt = true -> ascending keepc) ->
  (forall f, curfd it <= f -> f ∈ keepc <-> f ∈ keep) ->
  iter_inv it w -> statics_ok (world_env w) (statics w) -> (steps_left it < n)%nat ->
  minfd <= curfd it ->
  progress (chosen minfd keep) t (curfd it) (held_by w) ->
  wp (cloexec_loop n fuel keepc mx srt it)
    (fun _ w' => flagged (chosen minfd keep) t (world_env w) w') w.
Proof.
  intros Hf Hmx. revert keepc it w.
  induction n as [|n IH]; intros keepc it w Hsrt Hkc Hi Hst Hn Hm Hpr; [lia|].
  simpl. pose proof (ii_curfd _ _ Hi) as Hc0.
  apply wp_bind, (flag_next (chosen minfd keep) t); [done..|].
  intros o it' w1 Hi' He Hst1 Ho. cbn beta iota. destruct o as [fd|]; [|done].
  destruct Ho as (H1 & H2 & H3). rewrite <- Hst1, <- He in Hst. rewrite <- He.
  destruct (Z.ltb_spec mx fd) as [Hgt|Hle].
  { apply rest_threads; try done; try lia. intros f Hfr. split; [lia|].
    intros Hin. specialize (Hmx f Hin). lia. }
  destruct (check_should_keep_spec keepc srt fd Hsrt) as (b & kc & -> & Hb & Hsuf & Hs' & Hkc').
  rewrite Hkc in Hb by lia.
  assert (Hkc2 : forall f, curfd it' <= f -> f ∈ kc <-> f ∈ keep).
  { intros f Hfr. rewrite Hkc' by lia. apply Hkc. lia. }
  assert (Hn' : (steps_left it' < n)%nat) by (unfold steps_left in *; lia).
  apply wp_bind. destruct b.
  - apply wp_ret. apply IH; try done; [lia|]. rewrite H2.
    eapply progress_keep; [done|]. intros [_ Hnin]. by apply Hnin, Hb.
  - assert (Hnin : fd ∉ keep) by (intros Hin; by apply Hb in Hin).
    apply set_cloexec_threads; [apply Hi'|]. intros w2 Hw Ha. rewrite <- (wk_env _ _ Hw).
    apply IH; try done; [by eapply iter_inv_works|by apply Hw|lia|].
    rewrite H2. eapply progress_act; [done|split; [lia|done]|done].
Qed.

(** ** The shortcut and the whole *)

Definition shortcut_done (minfd : Z) (keep : list Z) (w : World (Shared K)) (r : result unit)
    (w' : World (Shared K)) : Prop :=
  works w w' /\ touched (chosen minfd keep) (held_by w) (held_by w') /\
  (r = Ok tt -> forall f, chosen minfd keep f -> held_by w' !! f = acted (held_by w !! f)).

Lemma shortcut_done_after minfd keep w w0 r w' :
  works w w0 -> held_by w0 = held_by w -> shortcut_done minfd keep w0 r w' ->
  shortcut_done minfd keep w r w'.
Proof.
  intros Hw Hh (Hw' & Ht & Hr). unfold shortcut_done. rewrite <- Hh.
  split_and!; [by eapply works_trans|done|done].
Qed.

Lemma shortcut_done_nothing minfd keep w w' :
  works w w' -> held_by w' = held_by w -> shortcut_done minfd keep w Err w'.
Proof. intros Hw Hh. split; [done|]. by rewrite Hh. Qed.

Lemma gaps_threads minfd keep w :
  target = linux -> threads_ok (kern w) -> statics_ok (world_env w) (statics w) ->
  0 <= minfd <= i32_MAX -> ascending keep ->
  Forall (fun x => is_i32 x) keep -> i32_MAX ∉ keep ->
  wp (apply_range minfd keep (fun low high => set_cloexec_range (as_u32 low) (as_u32 high)))
    (shortcut_done minfd keep w) w.
Proof.
  intros Ht Hok Hst Hm Hs Hk Hx.
  assert (Hlt : Forall (fun x => is_i32 x /\ x < i32_MAX) keep).
  { rewrite Forall_forall in Hk |- *. intros x Hin. specialize (Hk x Hin).
    assert (x <> i32_MAX) by (intros ->; done). lia. }
  assert (Hlt' : Forall (fun x => x < i32_MAX) keep) by
    (eapply Forall_impl; [exact Hlt|]; simpl; tauto).
  eapply wp_ext; [by apply apply_range_spec|].
  eapply wp_mono; [apply (run_ranges_threads (chosen minfd keep)); [done|done|done| |]|].
  - eapply Forall_impl; [apply gaps_wf; [lia|done]|]. simpl. unfold i32_MAX, u32_MAX. lia.
  - intros r f Hin Hf. destruct (proj1 (gaps_cover minfd keep f Hs Hlt' ltac:(lia))); [by eauto|].
    split; [lia|done].
  - intros r w' (Hw & Htch & Hall). split_and!; [done|done|]. intros -> f [Hf Hn].
    destruct (Z.le_gt_cases f i32_MAX); [|by rewrite !held_high by lia].
    apply Hall; [done|]. apply gaps_cover; [done|done|lia|]. split; [lia|done].
Qed.

Lemma shortcut_threads minfd keep mx srt w w0 :
  target = linux -> threads_ok (kern w) -> statics_ok (world_env w) (statics w) ->
  shortcut_pre (K := K) minfd keep mx srt w0 ->
  wp (set_cloexec_shortcut minfd keep mx srt) (shortcut_done minfd keep w) w.
Proof.
  intros Ht Hok0 Hst0 [_ Hm Hs Hi Hx Hmx _]. unfold set_cloexec_shortcut.
  apply wp_bind, wp_load_works; [done|]. intros w1 Hw1 Hh1.
  apply (wp_mono _ (shortcut_done minfd keep w1)); [|by intros r w'; apply shortcut_done_after].
  pose proof (wk_statics _ _ Hw1 Hst0) as Hst. pose proof (wk_ok _ _ Hw1) as Hok.
  pose proof (works_refl w1 Hok) as Hrefl.
  destruct (MAY_HAVE_CLOSE_RANGE_CLOEXEC _); simpl;
    [|by apply wp_ret, shortcut_done_nothing].
  destruct (Z.ltb_spec mx minfd) as [Hlt|Hge].
  - rewrite as_u32_small by (unfold i32_MAX, u32_MAX in *; lia).
    eapply wp_mono; [apply set_cloexec_range_threads; try done; unfold i32_MAX, u32_MAX in *; lia|].
    intros [[]|] w' [Hw Hr]; [|by apply shortcut_done_nothing].
    assert (Hch : forall f, minfd <= f -> chosen minfd keep f).
    { intros f Hf. split; [done|]. intros Hin. specialize (Hmx f Hin). lia. }
    split_and!; [done| |].
    + eapply act_range_touched; [|exact Hr]. intros f Hf. apply Hch. lia.
    + intros _ f [Hf _]. rewrite (Hr f). case_decide; [done|].
      rewrite held_high; [done|]. unfold i32_MAX, u32_MAX in *. lia.
  - destruct srt; [by apply gaps_threads; auto|by apply wp_ret, shortcut_done_nothing].
Qed.

Lemma set_fds_cloexec_threads fuel minfd k b w :
  enough_fuel fuel -> keep_ok k -> 0 <= minfd <= i32_MAX -> threads_ok (kern w) ->
  mine (kern w) = ∅ -> statics_ok (world_env w) (statics w) ->
  only_closes = true \/ has_nfds target = false \/ b_skip_nfds b = true ->
  wp (Cloexec.set_fds_cloexec fuel minfd k b) (fun _ w' =>
    flagged (chosen minfd (kf_fds k)) (held_by w) (world_env w) w') w.
Proof.
  intros Hf Hk Hm Hok Hmine Hst Hsafe.
  destruct (simplified_pre k minfd (mkWorld (base (kern w)) (statics w)) Hk Hst Hm)
    as (keep' & m & Heq & Hle & Hch & Hpre).
  unfold Cloexec.set_fds_cloexec. apply wp_bind. eapply wp_lift; [exact Heq|]. cbn beta iota.
  assert (Hiff : forall w', flagged (chosen m keep') (held_by w) (world_env w) w' ->
    flagged (chosen minfd (kf_fds k)) (held_by w) (world_env w) w').
  { intros w' [F1 F2 F3 F4 F5]. constructor; [done..| |].
    - eapply touched_mono; [|done]. intros f. by apply Hch.
    - intros f HP. by apply F5, Hch. }
  apply wp_bind. apply (wp_mono _ (shortcut_done m keep' w)).
  { case_decide as Ht; [by eapply shortcut_threads|].
    apply wp_ret, shortcut_done_nothing; [by apply works_refl|done]. }
  intros r w1 ([O1 E1 S1 M1 _ _] & Htch & Hr). destruct r as [[]|]; simpl.
  { apply wp_ret, Hiff. constructor; [done|done|congruence|done|]. intros f HP _. by apply Hr. }
  destruct Hpre as [_ Hm' Hs Hi Hx Hmx _]. apply wp_bind.
  eapply wp_mono; [apply iter_from_threads; [lia|done|congruence|by auto|exact Hsafe]|].
  intros it w2 ((_ & E2 & Hst2 & _ & H2) & Hi2 & Hc & _).
  assert (Hheld : held_by w2 = held_by w1) by exact H2.
  eapply wp_mono; [apply (cloexec_loop_threads m keep'); try done|].
  - pose proof (ii_curfd _ _ Hi2). unfold steps_left, enough_fuel, i32_MAX in *. lia.
  - lia.
  - rewrite Hheld. split; [exact Htch|]. intros f [Hfm _] Hlt. lia.
  - intros [] w3. rewrite E2, E1. apply Hiff.
Qed.
End marking.

(** ** Properties *)

Section properties.
Context `{C : Config, !ConfigOk C} {K : Type} `{SK : Sys K} `{KV : KernelView K}
  {KS : KernelSpec K}.

(** C10. [set_fds_cloexec_threadsafe(minfd, keep)], run while other threads open,
    close and change descriptors between any two of its system calls, terminates,
    and leaves nothing of its own open. Every descriptor that the other threads
    leave alone ends up as documented: below [minfd] or in the slice it is as it
    was, otherwise, up to the limit of the fallback loop, it has the close-on-exec
    flag and its other flags. Threads inside the crate at the same time are
    included, as in [iter_threadsafe_liveness]. *)
Theorem cloexec_threadsafe_correct {R : Rely} fuel minfd l w :
  enough_fuel fuel -> slice_ok l -> minfd <= i32_MAX -> threads_ok (kern w) ->
  mine (kern w) = ∅ -> statics_ok (env (base (kern w))) (statics w) ->
  wp (set_fds_cloexec_threadsafe fuel minfd l) (fun _ w' =>
    mine (kern w') = ∅ /\
    (forall f fl, stay f -> still f -> fds (base (kern w)) !! f = Some fl ->
      (f < minfd \/ f ∈ l -> fds (base (kern w')) !! f = Some fl) /\
      (minfd <= f -> f ∉ l -> f <= scan_limit (env (base (kern w))) ->
         fds (base (kern w')) !! f = Some (Z.lor fl FD_CLOEXEC))) /\
    Forall (statics_ok (env (base (kern w)))) (published (kern w'))) w.
Proof.
  intros Hf Hl Hm Hok Hmine Hst.
  destruct (keep_fds_ok l close_fds_builder_new Hl) as (b & Hb & Hbok & Hk & _).
  unfold set_fds_cloexec_threadsafe, cloexecfrom. apply wp_bind. eapply wp_lift; [exact Hb|].
  eapply wp_mono; [apply set_fds_cloexec_threads; try done|].
  - unfold i32_MAX in *. lia.
  - simpl. unfold set_threadsafe. destruct (has_nfds target); auto.
  - intros [] w' [[_ Hpub _ _ _ _] He H1 H2 H3]. unfold world_env in *. rewrite He in Hpub.
    split_and!; [done| |done]. intros f fl Hs Ht Hfl.
    specialize (H2 f). specialize (H3 f). unfold held_by in *.
    rewrite !held_lookup, !decide_True, Hfl in H2, H3 by done. simpl in *. rewrite Hk in *.
    pose proof (fds_wf _ _ _ Hfl) as [Hpos _]. split.
    + intros Hsp. destruct H2 as [?|[[? ?] _]]; [done|]. destruct Hsp; [lia|done].
    + intros Hge Hn Hlim. apply H3; [split; [lia|done]|done].
Qed.
End properties.
