(* ===== verification/CloseThreads.v ===== *)
(** * Closing among other threads

    [CloseFdsBuilder::closefrom] run on [Shared K]. Its documentation forbids it
    in a process whose other threads use descriptors; the theorem says what it
    does there all the same: of the descriptors that the other threads do not
    close, it closes all it has to, whatever they do with the rest, and it never
    touches one that is to be kept. *)

From S2P Require Import Prelude Platform Ints Sys KernelSpec Util DirFdIter FdIter IterFds Threads IterThreads KeepFds Visit LoopThreads Close CloseFds.

(** ** FreeBSD's check *)

Section check.
Context `{C : Config, !ConfigOk C} {K : Type} `{SK : Sys K} `{KV : KernelView K}
  {KS : KernelSpec K} {R : Rely}.

Lemma check_has_close_range_threads w :
  threads_ok (kern w) -> statics_ok (world_env w) (statics w) ->
  wp check_has_close_range (fun r w' => idles w w' /\
    (r = Ok tt -> 1202000 <= env_osreldate (world_env w)) /\
    (1202000 <= env_osreldate (world_env w) -> env_osreldate_known (world_env w) = true ->
     r = Ok tt)) w.
Proof.
  intros Hok Hst. unfold check_has_close_range.
  apply wp_bind, wp_load_works; [done|]. intros w0 Hw0 Hh0.
  pose proof (wk_statics _ _ Hw0 Hst) as Hst0. pose proof (wk_env _ _ Hw0) as He0.
  destruct (Z.eqb_spec (HAS_CLOSE_RANGE (statics w0)) 1) as [H1|H1].
  { apply wp_ret. split; [done|]. split; [|done]. intros _. rewrite <- He0.
    by apply (statics_has_close_range _ _ Hst0). }
  destruct (Z.eqb_spec (HAS_CLOSE_RANGE (statics w0)) 0) as [H0|H0].
  { apply wp_ret. split; [done|]. split; [done|]. intros Ho Hkn. rewrite <- He0 in *.
    pose proof (statics_no_close_range _ _ Hst0 H0 Hkn). lia. }
  apply wp_bind, wp_look; [apply Hw0| |].
  { intros k r k' Hk. destruct r. by apply osreldate_spec in Hk as [? _]. }
  intros k [r v] w1 Hk Hq Hmo. pose proof (osreldate_known _ _ _ _ Hk) as Hkn.
  apply osreldate_spec in Hk as [_ Hr]. cbn beta iota.
  assert (He : env k = world_env w) by (rewrite <- He0; apply Hmo). rewrite He in Hkn, Hr.
  pose proof (quietly_idles _ _ Hq) as Hw1. pose proof (quietly_env _ _ Hq) as He1.
  assert (Hw : idles w w1) by (eapply idles_trans; [by split|done]).
  assert (Hst1 : statics_ok (world_env w1) (statics w1)) by (apply Hw; done).
  assert (Hdone : forall v' (r' : result unit),
    (v' = 0 \/ v' = 1) -> (r' = Ok tt <-> v' = 1) -> (v' = 1 <-> r = 0 /\ 1202000 <= v) ->
    wp (store (store_HAS_CLOSE_RANGE v');; mret r') (fun r w' => idles w w' /\
      (r = Ok tt -> 1202000 <= env_osreldate (world_env w)) /\
      (1202000 <= env_osreldate (world_env w) -> env_osreldate_known (world_env w) = true ->
       r = Ok tt)) w1).
  { intros v' r' H01 Hr' Hv'.
    assert (Hyes : v' = 1 -> 1202000 <= env_osreldate (world_env w)).
    { intros [Hr0 Hle]%Hv'. by rewrite <- Hr. }
    assert (Hno : 1202000 <= env_osreldate (world_env w) ->
      env_osreldate_known (world_env w) = true -> v' = 1).
    { intros Ho Hk0. apply Hv'. specialize (Hkn Hk0). split; [done|]. by rewrite Hr. }
    apply wp_bind, wp_store_idles; [apply Hw1| |].
    - apply store_has_close_range; [done|..]; rewrite He1, He0; [done|].
      intros -> Hk0. apply Z.nle_gt. intros Ho. by specialize (Hno Ho Hk0).
    - intros w2 Hw2 _. apply wp_ret. split; [by eapply idles_trans|].
      split; [intros Hx; by apply Hyes, Hr'|intros Ho Hk0; by apply Hr', Hno]. }
  destruct (Z.eqb_spec r 0); simpl; [destruct (Z.ltb_spec v 1202000)|];
    apply Hdone; (by auto) || (split; [done || lia|done || lia]).
Qed.
End check.

Section closing.
Context `{C : Config, !ConfigOk C} {K : Type} `{SK : Sys K} `{KV : KernelView K}
  {KS : KernelSpec K} {R : Rely}.

Local Abbreviation progress := IterThreads.progress.

(** ** What has been closed so far *)

(** [D] has been closed, out of [P], the descriptors to close; [t] is the table
    at the start. *)
Record shutting (P : Z -> Prop) (t : gmap Z Z) (e : Env) (D : Z -> bool)
    (w : World (Shared K)) : Prop := {
  sh_ok : threads_ok (R := besides D) (kern w);
  sh_env : world_env w = e;
  sh_statics : statics_ok e (statics w);
  sh_only : forall f, D f = true -> P f;
  sh_shut : forall f, stay f -> D f = true -> f ∈ shut (kern w);
  sh_held : forall f, stay f -> still f -> ~ P f -> fds (base (kern w)) !! f = t !! f;
}.

Definition adding (X D : Z -> bool) (f : Z) : bool := D f || X f.

Lemma adding_weaker X D : weaker (besides D) (besides (adding X D)).
Proof. apply besides_weaker. intros f Hf. unfold adding. by rewrite Hf. Qed.

Lemma shutting_start P w :
  threads_ok (kern w) -> statics_ok (world_env w) (statics w) ->
  shutting P (fds (base (kern w))) (world_env w) (fun _ => false) w.
Proof.
  intros Hok Hst. constructor; try done. by apply (threads_ok_weaken nothing_weaker).
Qed.

(** The crate ran and closed none of the others. *)
Lemma shutting_goes_on P t e D w w' :
  shutting P t e D w -> goes_on (R := besides D) w w' -> shutting P t e D w'.
Proof.
  intros [S1 S2 S3 S4 S5 S6] (O & E & T & [_ L] & H). constructor; try done; [congruence| | |].
  - by rewrite <- S2, <- E.
  - intros f Hs Hf. apply L. auto.
  - intros f Hs Ht HP. rewrite <- S6 by done.
    assert (HD : D f = false) by (apply not_true_iff_false; intros Ht'%S4; done).
    pose proof (held_lookup (R := besides D) (base (kern w)) f) as H1.
    pose proof (held_lookup (R := besides D) (base (kern w')) f) as H2.
    rewrite decide_True in H1, H2 by (by split). congruence.
Qed.

Lemma shutting_progress P t e D w w' :
  shutting P t e D w -> progress (R := besides D) w w' -> shutting P t e D w'.
Proof.
  intros Hs Hp. eapply shutting_goes_on; [exact Hs|]. apply progress_goes_on; [|done].
  rewrite (sh_env _ _ _ _ _ Hs). apply Hs.
Qed.

(** A call, after a burst of the other threads, that closes [X]. *)
Lemma shutting_call P t e D (X : Z -> bool) (m : gset Z) k' w :
  let s := turn (kern w) in
  shutting P t e D w -> frame (base s) k' ->
  (forall f, fds k' !! f = if X f then None else fds (base s) !! f) ->
  (forall f, X f = true -> P f) -> m ⊆ mine s -> (forall d, d ∈ m -> X d = false) ->
  shutting P t e (adding X D) (mkWorld (set_mine m (set_base k' s)) (statics w)).
Proof.
  intros s [S1 S2 S3 S4 S5 S6] [He Hd] Hf HX Hm HmX.
  destruct (turn_evolves (R := besides D) _ S1) as (Hev & _ & _). fold s in Hev.
  destruct Hev as [O E M N [_ L] _ H].
  pose proof (threads_ok_weaken (adding_weaker X D) _ O) as O'.
  pose proof O as [_ _ _ Om Os Osep]. constructor; simpl; try done.
  - apply threads_ok_call; [done|done| | |].
    + intros d Hdm. apply elem_of_dom. rewrite Hf, HmX by done. apply elem_of_dom. auto.
    + intros f [Hs Ha]. unfold adding in Ha. apply orb_false_iff in Ha as [HD HXf].
      rewrite Hf, HXf. apply Os. by split.
    + intros f Hs Hin. apply (to_sep _ O' f Hs). auto.
  - unfold world_env in *. simpl. congruence.
  - intros f [HD|Hx]%orb_true_iff; auto.
  - intros f Hs Ha. apply elem_of_union. destruct (D f) eqn:HD; [left; apply L; auto|right].
    unfold adding in Ha. rewrite HD in Ha. simpl in Ha. apply elem_of_difference.
    rewrite elem_of_dom, not_elem_of_dom, Hf, Ha. split; [|done]. apply Os. by split.
  - intros f Hs Ht HP. assert (HXf : X f = false) by (apply not_true_iff_false; intros ?%HX; done).
    assert (HD : D f = false) by (apply not_true_iff_false; intros ?%S4; done).
    rewrite Hf, HXf, <- S6 by done.
    pose proof (held_lookup (R := besides D) (base (kern w)) f) as H1.
    pose proof (held_lookup (R := besides D) (base s) f) as H2.
    rewrite decide_True in H1, H2 by (by split). congruence.
Qed.

(** [libc::close] of a descriptor that is not the iterator's. *)
Definition one (fd f : Z) : bool := f =? fd.

Lemma wp_close_shutting P t e D fd it (Q : unit -> World (Shared K) -> Prop) w :
  shutting P t e D w -> iter_inv (R := besides D) it w -> P fd -> fd ∉ mine (kern w) ->
  (forall w', shutting P t e (adding (one fd) D) w' ->
     iter_inv (R := besides (adding (one fd) D)) it w' -> Q tt w') ->
  wp (libc_close fd) Q w.
Proof.
  intros Hs Hi HP Hn HQ.
  destruct (turn_evolves (R := besides D) _ (sh_ok _ _ _ _ _ Hs)) as (Hev & _ & _).
  unfold libc_close. apply wp_bind, wp_call. intros r s2. simpl. unfold after.
  destruct (sys_close fd (base (turn (kern w)))) as [r' k'] eqn:Hk. intros [= -> <-].
  destruct (close_spec _ _ _ _ Hk) as [Hf Hfr]. apply wp_ret.
  set (w' := mkWorld (set_mine (mine (set_base k' (turn (kern w))) ∖ {[fd]})
    (set_base k' (turn (kern w)))) (statics w)).
  assert (Hs' : shutting P t e (adding (one fd) D) w').
  { apply shutting_call; [done|done| | | |].
    - intros f. rewrite Hf. unfold one. destruct (Z.eqb_spec f fd) as [->|].
      + apply lookup_delete_eq.
      + by apply lookup_delete_ne.
    - intros f ->%Z.eqb_eq. done.
    - apply subseteq_difference_l. done.
    - intros d [_ Hd]%elem_of_difference. apply Z.eqb_neq. set_solver. }
  apply (HQ w'); [exact Hs'|]. eapply iter_inv_works; [by apply (iter_inv_weaken (adding_weaker _ _))|].
  destruct Hev as [O E M N L _ _]. pose proof Hs' as [O' E' _ _ _ _].
  constructor; [done|by rewrite E', (sh_env _ _ _ _ _ Hs)| | | |].
  - intros _. rewrite E'. apply Hs.
  - change (mine (turn (kern w)) ∖ {[fd]} = mine (kern w)). rewrite M.
    by apply difference_disjoint_L, disjoint_singleton_r.
  - intros d Hd. change (dirnext k' d = dirnext (base (kern w)) d). destruct (N d Hd) as [N1 N2]. rewrite <- N2. apply Hfr.
    rewrite Hf, lookup_delete_ne by (intros ->; done). rewrite N1.
    apply elem_of_dom, (to_mine _ (sh_ok _ _ _ _ _ Hs)). done.
  - etrans; [exact L|apply set_base_grows].
Qed.
(** ** Ranges *)

Definition range (lo hi f : Z) : bool := (lo <=? f) && (f <=? hi).

(** What the system calls that close many descriptors leave of the iterator's. *)
Definition wiped (w w' : World (Shared K)) : Prop := mine (kern w') ⊆ mine (kern w).

#[local] Instance wiped_pre_order : PreOrder wiped.
Proof. split; intros w; unfold wiped; [done|]. intros w2 w3. by etrans. Qed.

Lemma wiped_empty w w' : wiped w w' -> mine (kern w) = ∅ -> mine (kern w') = ∅.
Proof. unfold wiped. intros Hw Hm. rewrite Hm in Hw. apply set_eq. set_solver. Qed.

Lemma closefrom_shutting P t e D fd (Q : unit -> World (Shared K) -> Prop) w :
  shutting P t e D w -> (forall f, fd <= f -> P f) ->
  (forall w', shutting P t e (adding (fun f => fd <=? f) D) w' -> wiped w w' -> Q tt w') ->
  wp (Close.closefrom fd) Q w.
Proof.
  intros Hs HP HQ. unfold Close.closefrom. apply wp_modify.
  destruct (turn_evolves (R := besides D) _ (sh_ok _ _ _ _ _ Hs)) as (Hev & _ & _).
  destruct (closefrom_spec fd (base (turn (kern w)))) as [Hfr Hf].
  apply HQ.
  - change (shutting P t e (adding (fun f => fd <=? f) D) (mkWorld
      (set_mine (filter (fun d => d < fd) (mine (turn (kern w))))
        (set_base (sys_closefrom fd (base (turn (kern w)))) (turn (kern w)))) (statics w))).
    apply shutting_call; [done|done| | | |].
    + intros f. rewrite Hf. case_decide as Hd.
      * by rewrite (proj2 (Z.leb_le _ _)).
      * by rewrite (proj2 (Z.leb_gt _ _)) by lia.
    + intros f Hx%Z.leb_le. auto.
    + intros d [_ Hd]%elem_of_filter. done.
    + intros d [Hd _]%elem_of_filter. by apply Z.leb_gt.
  - unfold wiped. rewrite <- (ev_same _ _ Hev).
    change (filter (fun d => d < fd) (mine (turn (kern w))) ⊆ mine (turn (kern w))).
    intros d [_ Hd]%elem_of_filter. done.
Qed.

(** [close_range(lo, hi, 0)] where it cannot kill the process. *)
Lemma wp_close_range_threads P t e D lo hi (Q : Z -> World (Shared K) -> Prop) w :
  shutting P t e D w -> target = linux \/ (target = freebsd /\ 1202000 <= env_osreldate e) ->
  (forall f, lo <= f <= hi -> P f) ->
  (forall r w', wiped w w' -> statics w' = statics w ->
     (r = 0 -> shutting P t e (adding (range lo hi) D) w') ->
     (r <> 0 -> shutting P t e D w' /\ works (R := besides D) w w' /\
        (target = linux -> 0 <= lo <= hi -> hi <= u32_MAX -> env_close_range e <> Some true)) ->
     Q r w') ->
  wp (call_or_die (sys_close_range lo hi 0)) Q w.
Proof.
  intros Hs Hal HP HQ. pose proof Hs as [Hok Hse Hst _ _ _].
  destruct (turn_evolves (R := besides D) _ Hok) as (Hev & _ & _). pose proof Hev as [O E M N L _ H].
  apply wp_call_or_die. intros r s2. simpl. unfold after.
  destruct (sys_close_range lo hi 0 (base (turn (kern w)))) as [r' k'] eqn:Hk. intros [= -> <-].
  destruct r as [r|]; last first.
  { exfalso. eapply close_range_survives; [|exact Hk]. rewrite E. unfold world_env in Hse.
    by rewrite Hse. }
  exists r. split; [done|]. destruct (close_range_spec _ _ _ _ _ Hk) as (Hfr & H0 & H1).
  apply HQ; [| |intros ->|intros Hr].
  - unfold wiped. rewrite <- M. case_decide; [|done]. intros d [_ Hd]%elem_of_filter. done.
  - done.
  - rewrite decide_True by done.
    set (m := filter _ _).
    change (shutting P t e (adding (range lo hi) D)
      (mkWorld (set_mine m (set_base k' (turn (kern w)))) (statics w))).
    apply shutting_call; [done|done| | | |].
    + intros f. rewrite (proj2 (H0 eq_refl)). unfold range. case_decide as Hd.
      * by rewrite !(proj2 (Z.leb_le _ _)) by lia.
      * symmetry. case_match eqn:Hb; [|done]. apply andb_true_iff in Hb. lia.
    + intros f Hb. apply HP. unfold range in Hb. lia.
    + intros d [_ Hd]%elem_of_filter. done.
    + intros d [Hd _]%elem_of_filter. unfold range. lia.
  - rewrite decide_False by (intros [[= ?] _]; done).
    assert (Hv : same_view (base (turn (kern w))) k') by (split; [by apply H1|done]).
    pose proof (evolves_trans (R := besides D) _ _ _ Hev
      (same_view_evolves (R := besides D) _ _ O Hv)) as Hev'.
    split_and!.
    + eapply shutting_progress; [exact Hs|]. apply quietly_progress. by split.
    + by apply quietly_works.
    + intros Ht Hlo Hhi He. apply Hr. eapply close_range_present; [done| |exact Hk|done|done].
      rewrite E. unfold world_env in Hse. by rewrite Hse.
Qed.
(** In a build with debug assertions FreeBSD's [try_close_range] asserts the
    answer of [check_has_close_range], which another thread may have changed to
    "no" in the meantime; not so if nothing keeps [kern.osreldate] from being
    read. *)
Definition assertion_safe (e : Env) : Prop :=
  target = freebsd -> debug = true -> env_osreldate_known e = true.

(** Where closing a range cannot kill the process, nor the assertion fail. *)
Definition range_safe (e : Env) : Prop :=
  target = linux \/ (target = freebsd /\ assertion_safe e /\ 1202000 <= env_osreldate e).

Lemma shutting_idles P t e D w w' :
  shutting P t e D w -> idles (R := besides D) w w' -> shutting P t e D w'.
Proof.
  intros Hs Hi. eapply shutting_goes_on; [exact Hs|]. apply idles_goes_on; [|done].
  rewrite (sh_env _ _ _ _ _ Hs). apply Hs.
Qed.

(** FreeBSD's second assertion. *)
Lemma asserted_check P t e D w :
  shutting P t e D w -> target = freebsd -> assertion_safe e -> 1202000 <= env_osreldate e ->
  wp (if debug then has ← check_has_close_range; lift (debug_assert (is_ok has)) else mret tt)
    (fun _ w' => shutting P t e D w' /\ works (R := besides D) w w') w.
Proof.
  intros Hs Ht Hsafe Ho. unfold assertion_safe in Hsafe. destruct debug eqn:Hd; last first.
  { apply wp_ret. split; [done|]. apply works_refl, Hs. }
  apply wp_bind. eapply wp_mono; [apply (check_has_close_range_threads (R := besides D))|].
  { apply Hs. } { rewrite (sh_env _ _ _ _ _ Hs). apply Hs. }
  rewrite (sh_env _ _ _ _ _ Hs). intros r w' (Hid & _ & Hr). rewrite Hr by auto.
  eapply wp_lift; [by apply debug_assert_ok|]. split; [by eapply shutting_idles|apply Hid].
Qed.

Lemma try_close_range_threads P t e D lo hi w :
  shutting P t e D w -> range_safe e -> 0 <= lo <= hi -> hi <= u32_MAX ->
  (forall f, lo <= f <= hi -> P f) ->
  wp (try_close_range lo hi) (fun r w' => wiped w w' /\
    match r with
    | Ok _ => shutting P t e (adding (range lo hi) D) w'
    | Err => shutting P t e D w' /\ works (R := besides D) w w'
    end) w.
Proof.
  intros Hs Hsafe Hle Hhi HP. unfold try_close_range.
  assert (Hda : debug_assert (lo <=? hi) = Done tt) by (apply debug_assert_ok, Z.leb_le; lia).
  destruct Hsafe as [Ht|(Ht & Hd & Ho)]; rewrite Ht.
  - unfold try_close_range_linux. apply wp_bind. eapply wp_lift; [exact Hda|].
    apply wp_bind. eapply wp_close_range_threads; [done|by left|done|].
    intros r w1 Hwi Hst H0 H1. destruct (Z.eqb_spec r 0); [apply wp_ret; auto|].
    destruct (H1 ltac:(done)) as (Hs1 & Hw1 & Hno).
    apply wp_bind, (wp_store_idles (R := besides D)); [apply Hw1| |].
    + rewrite (sh_env _ _ _ _ _ Hs1). apply store_no_close_range; [apply Hs1|auto].
    + intros w2 [Hw2 Hh2] _. apply wp_ret. split_and!.
      * unfold wiped. by rewrite (wk_mine _ _ Hw2).
      * by eapply shutting_idles.
      * by eapply works_trans.
  - unfold try_close_range_freebsd. apply wp_bind. eapply wp_lift; [exact Hda|].
    apply wp_bind. eapply wp_mono; [apply (asserted_check P t e D); done|].
    intros [] w0 [Hs0 Hw0].
    apply wp_bind. eapply wp_close_range_threads; [done|by right|done|].
    intros r w1 Hwi _ H0 H1. unfold wiped in *. rewrite (wk_mine _ _ Hw0) in Hwi.
    apply wp_ret. destruct (Z.eqb_spec r 0) as [Hr|Hr]; [by auto|].
    destruct (H1 Hr) as (? & ? & _). split_and!; [done|done|by eapply works_trans].
Qed.
(** ** The shortcut *)

(** The work went on from [D]; after [Ok] what is in [X] has been closed. *)
Definition wiping (P : Z -> Prop) (t : gmap Z Z) (e : Env) (D : Z -> bool) (X : Z -> Prop)
    (w : World (Shared K)) (r : result unit) (w' : World (Shared K)) : Prop :=
  exists D', shutting P t e D' w' /\ wiped w w' /\ (forall f, D f = true -> D' f = true) /\
    (r = Ok tt -> forall f, X f -> D' f = true).

Lemma wiping_nothing P t e D X w w' :
  shutting P t e D w' -> wiped w w' -> wiping P t e D X w Err w'.
Proof. intros Hs Hw. by exists D. Qed.

Lemma wiping_range P t e D lo hi w :
  shutting P t e D w -> range_safe e -> 0 <= lo <= hi -> hi <= u32_MAX ->
  (forall f, lo <= f <= hi -> P f) ->
  wp (try_close_range (as_u32 lo) (as_u32 hi))
    (wiping P t e D (fun f => lo <= f <= hi) w) w.
Proof.
  intros Hs Hsafe Hlo Hhi HP. rewrite !as_u32_small by lia.
  eapply wp_mono; [apply try_close_range_threads; done || lia|].
  intros [[]|] w' [Hw Hr]; [|by apply wiping_nothing; [apply Hr|]].
  exists (adding (range lo hi) D). split_and!; [done|done| |].
  - intros f Hf. unfold adding. by rewrite Hf.
  - intros _ f Hf. unfold adding, range. apply orb_true_iff. right. lia.
Qed.

Lemma run_ranges_wiping P t e rs D w :
  shutting P t e D w -> range_safe e ->
  Forall (fun r => 0 <= r.1 <= r.2 /\ r.2 <= u32_MAX) rs ->
  (forall r f, r ∈ rs -> r.1 <= f <= r.2 -> P f) ->
  wp (run_ranges (fun lo hi => try_close_range (as_u32 lo) (as_u32 hi)) rs)
    (wiping P t e D (fun f => exists r, r ∈ rs /\ r.1 <= f <= r.2) w) w.
Proof.
  intros Hs Hsafe. revert D w Hs. induction rs as [|[lo hi] rs IH]; intros D w Hs Hrs HP.
  { apply wp_ret. exists D. split_and!; try done. by intros _ f (r & []%not_elem_of_nil & _). }
  apply Forall_cons in Hrs as [[Hr1 Hr2] Hrs]. simpl in Hr1, Hr2. simpl. apply wp_try.
  eapply wp_mono; [apply (wiping_range P t e D lo hi); try done|].
  { intros f Hf. apply (HP (lo, hi)); [by left|done]. }
  intros r w1 (D1 & Hs1 & Hw1 & HD1 & Hr). destruct r as [[]|]; last by exists D1.
  eapply wp_mono; [apply (IH D1 w1); [done|done|]|].
  { intros r f Hin. apply HP. by right. }
  intros r w2 (D2 & Hs2 & Hw2 & HD2 & Hr'). exists D2. split_and!; [done|by etrans|auto|].
  intros Hok f (rg & [->|Hin]%elem_of_cons & Hf); [apply HD2; by apply Hr|].
  apply Hr'; [done|]. by exists rg.
Qed.

Lemma close_gaps_wiping minfd keep mx srt w0 t e D w :
  shortcut_pre (K := K) minfd keep mx srt w0 -> minfd <= mx ->
  assertion_safe e -> shutting (chosen minfd keep) t e D w ->
  wp (close_gaps minfd keep srt)
    (wiping (chosen minfd keep) t e D (fun f => chosen minfd keep f /\ f <= i32_MAX) w) w.
Proof.
  intros [_ Hm Hs Hi Hx Hmx Hnil] Hle Hdbg Hsh. unfold close_gaps.
  destruct (has_close_range target && srt) eqn:Hcond; [|by apply wp_ret, wiping_nothing].
  apply andb_true_iff in Hcond as [Ht ->]. specialize (Hs eq_refl).
  apply wp_bind. eapply wp_lift.
  { apply debug_assert_ok. rewrite bool_decide_eq_false_2; [done|].
    intros Hk. specialize (Hnil eq_refl Hk). lia. }
  apply wp_try. apply (wp_mono _ (fun r w' => shutting (chosen minfd keep) t e D w' /\
    wiped w w' /\ (r = Ok tt -> range_safe e))).
  { case_decide as Hf.
    - eapply wp_mono; [apply (check_has_close_range_threads (R := besides D))|].
      + apply Hsh.
      + rewrite (sh_env _ _ _ _ _ Hsh). apply Hsh.
      + intros r w' (Hid & Hr & _). split_and!; [by eapply shutting_idles| |].
        * unfold wiped. by rewrite (wk_mine _ _ (proj1 Hid)).
        * rewrite (sh_env _ _ _ _ _ Hsh) in Hr. intros Hok. right. auto.
    - apply wp_ret. split_and!; [done..|]. intros _. left.
      destruct target; try discriminate Ht; done. }
  intros r w1 (Hs1 & Hw1 & Hsafe). destruct r as [[]|]; [|by apply wiping_nothing].
  assert (Hlt : Forall (fun x => is_i32 x /\ x < i32_MAX) keep).
  { rewrite Forall_forall in Hi |- *. intros x Hin. specialize (Hi x Hin).
    assert (x <> i32_MAX) by (intros ->; done). lia. }
  assert (Hlt' : Forall (fun x => x < i32_MAX) keep) by
    (eapply Forall_impl; [exact Hlt|]; simpl; tauto).
  eapply wp_ext; [by apply apply_range_spec|].
  eapply wp_mono; [apply (run_ranges_wiping (chosen minfd keep)); [done|by apply Hsafe| |]|].
  - eapply Forall_impl; [apply gaps_wf; [lia|done]|]. simpl. unfold i32_MAX, u32_MAX. lia.
  - intros r f Hin Hf. destruct (proj1 (gaps_cover minfd keep f Hs Hlt' ltac:(lia))); [by eauto|].
    split; [lia|done].
  - intros r w2 (D2 & Hs2 & Hw2 & HD2 & Hr). exists D2. split_and!; [done|by etrans|done|].
    intros Hok f [[Hf Hn] Hmax]. apply Hr; [done|]. apply gaps_cover; [done|done|lia|].
    split; [lia|done].
Qed.

Lemma shortcut_wiping minfd keep mx srt w0 t e D w :
  shortcut_pre (K := K) minfd keep mx srt w0 ->
  assertion_safe e -> shutting (chosen minfd keep) t e D w ->
  wp (close_fds_shortcut minfd keep mx srt)
    (wiping (chosen minfd keep) t e D (fun f => chosen minfd keep f /\ f <= i32_MAX) w) w.
Proof.
  intros Hpre Hdbg Hs. pose proof Hpre as [_ Hm _ _ _ Hmx _]. unfold close_fds_shortcut.
  assert (Hall : mx < minfd -> forall f, minfd <= f -> chosen minfd keep f).
  { intros Hlt f Hf. split; [done|]. intros Hin. specialize (Hmx f Hin). lia. }
  destruct (has_closefrom target && (mx <? minfd)) eqn:Hcf.
  { apply andb_true_iff in Hcf as [_ Hlt%Z.ltb_lt].
    apply wp_bind. eapply closefrom_shutting; [done|by apply Hall|]. intros w' Hs' Hw'.
    apply wp_ret. eexists. split_and!; [exact Hs'|done| |].
    - intros f Hf. unfold adding. by rewrite Hf.
    - intros _ f [[Hf _] _]. unfold adding. apply orb_true_iff. right. by apply Z.leb_le. }
  assert (Hge : has_close_range target = true -> target <> linux -> minfd <= mx).
  { intros H1 H2. destruct (Z.ltb_spec mx minfd); [|lia].
    destruct target; try discriminate H1; try done. }
  case_decide as Ht; last first.
  { destruct (has_close_range target) eqn:Hhr.
    - eapply close_gaps_wiping; [exact Hpre|auto|done|done].
    - unfold close_gaps. rewrite Hhr. by apply wp_ret, wiping_nothing. }
  apply wp_bind, (wp_load_works (R := besides D)); [apply Hs|]. intros w1 Hw1 Hh1.
  assert (Hs1 : shutting (chosen minfd keep) t e D w1) by (eapply shutting_idles; [exact Hs|by split]).
  apply (wp_mono _ (wiping (chosen minfd keep) t e D
    (fun f => chosen minfd keep f /\ f <= i32_MAX) w1)); last first.
  { intros r w' (D' & ? & Hw' & ? & ?). exists D'. split_and!; try done. unfold wiped in *.
    by rewrite <- (wk_mine _ _ Hw1). }
  destruct (MAY_HAVE_CLOSE_RANGE _); simpl; [|by apply wp_ret, wiping_nothing].
  destruct (Z.ltb_spec mx minfd) as [Hlt|Hge'].
  - replace u32_MAX with (as_u32 u32_MAX) by (by apply as_u32_small).
    eapply wp_mono; [apply (wiping_range (chosen minfd keep) t e D minfd u32_MAX); try done;
      unfold i32_MAX, u32_MAX in *; try lia|].
    + by left.
    + intros f Hf. apply Hall; lia.
    + intros r w' (D' & H1 & H2 & H3 & H4). exists D'. split_and!; try done.
      intros Hr f [[Hf _] Hmax]. apply H4; [done|]. unfold i32_MAX, u32_MAX in *. lia.
  - by eapply close_gaps_wiping.
Qed.
(** ** The loops *)

(** The end: the crate has nothing open, and what had to be closed, up to the
    limit of the fallback loop, has been. *)
Definition shut_down (P : Z -> Prop) (t : gmap Z Z) (e : Env) (w' : World (Shared K)) : Prop :=
  exists D, shutting P t e D w' /\ mine (kern w') = ∅ /\
    forall f, stay f -> P f -> f <= scan_limit e -> D f = true.

(** Below [c] everything has been closed. *)
Definition passed (P : Z -> Prop) (D : Z -> bool) (c : Z) : Prop :=
  forall f, stay f -> P f -> f < c -> D f = true.

Lemma passed_one P D fd : passed P D fd -> passed P (adding (one fd) D) (fd + 1).
Proof.
  intros Hp f Hs HP Hf. unfold adding, one. apply orb_true_iff.
  destruct (decide (f = fd)) as [->|]; [right; apply Z.eqb_refl|left]. apply Hp; [done..|lia].
Qed.

Lemma passed_kept P D fd : passed P D fd -> ~ P fd -> passed P D (fd + 1).
Proof.
  intros Hp HP f Hs HPf Hf. destruct (decide (f = fd)) as [->|]; [done|]. apply Hp; [done..|lia].
Qed.

(** Dropping the iterator, possibly after [close_range] has closed its directory
    and another thread has opened something there. *)
Lemma drop_shutting P t e D it w :
  shutting P t e D w -> mine (kern w) ⊆ owned it -> (forall d, d ∈ owned it -> ~ stay d \/ D d = true) ->
  wp (drop_fditer it) (fun _ w' => shutting P t e D w' /\ mine (kern w') = ∅) w.
Proof.
  intros Hs Hm Ho. unfold drop_fditer, owned in *. destruct (dirfd_iter it) as [d|]; last first.
  { apply wp_ret. split; [done|]. set_solver. }
  unfold drop_iter, dir_owned in *. destruct (0 <=? dirfd d); last first.
  { apply wp_ret. split; [done|]. set_solver. }
  apply (wp_close_threads (R := besides D)); [apply Hs| |].
  { intros [Hst HD]. destruct (Ho (dirfd d)); [by apply elem_of_singleton|done|congruence]. }
  intros w' Hp Hm'. split; [by eapply shutting_progress|]. rewrite Hm'.
  by apply subseteq_empty_difference_L.
Qed.

Lemma owned_not_staying D it w d :
  iter_inv (R := besides D) it w -> d ∈ owned it -> ~ stay d \/ D d = true.
Proof.
  intros Hi Hd. destruct (D d) eqn:HD; [by right|left]. intros Hs.
  apply (to_sep (R := besides D) _ (ii_ok _ _ Hi) d); [by split|]. by rewrite (ii_mine _ _ Hi).
Qed.

Lemma shut_down_end P t e D it w :
  iter_inv (R := besides D) it w -> shutting P t e D w ->
  (forall f, stay f -> P f -> f <= scan_limit e -> D f = true) ->
  wp (drop_fditer it) (fun _ w' => shut_down P t e w') w.
Proof.
  intros Hi Hs HD. eapply wp_mono; [apply (drop_shutting P t e D); [done| |]|].
  - by rewrite (ii_mine _ _ Hi).
  - intros d. by eapply owned_not_staying.
  - intros [] w' [Hs' Hm]. by exists D.
Qed.

(** One step of a loop. *)
Lemma shut_next P t e D fuel it w (Q : option Z * FdIter -> World (Shared K) -> Prop) :
  iter_inv (R := besides D) it w -> enough_fuel fuel -> shutting P t e D w ->
  passed P D (curfd it) ->
  (forall o it' w', iter_inv (R := besides D) it' w' -> shutting P t e D w' ->
     match o with
     | Some fd => curfd it <= fd < i32_MAX /\ curfd it' = fd + 1 /\ passed P D fd /\
         fd ∉ mine (kern w')
     | None => wp (drop_fditer it') (fun _ w2 => shut_down P t e w2) w'
     end -> Q (o, it') w') ->
  wp (FdIter.next fuel it) Q w.
Proof.
  intros Hi Hf Hs Hpa HQ. eapply wp_mono; [by apply (fd_next_threads (R := besides D))|].
  intros [o it'] w1 (Hp & Hi' & _ & Ho).
  assert (Hs1 : shutting P t e D w1) by (by eapply shutting_progress).
  apply HQ; [done|done|]. destruct o as [fd|].
  - destruct Ho as (H1 & H2 & H3 & _ & H5). split_and!; try done; try lia.
    intros f Hst HP Hlt. destruct (Z.lt_ge_cases f (curfd it)); [by apply Hpa|].
    destruct (D f) eqn:HD; [done|]. specialize (H3 f (conj Hst HD) ltac:(lia)). lia.
  - apply (shut_down_end P t e D); [done|done|]. intros f Hst HP Hl.
    destruct (Z.lt_ge_cases f (curfd it)); [by apply Hpa|].
    destruct (D f) eqn:HD; [done|]. exfalso. apply (Ho f (conj Hst HD)); [done|].
    by rewrite (sh_env _ _ _ _ _ Hs).
Qed.

(** [for fd in it { libc::close(fd) }], when everything left is to be closed. *)
Lemma for_each_shutting P t e n fuel D it w :
  iter_inv (R := besides D) it w -> enough_fuel fuel -> (steps_left it < n)%nat ->
  (forall f, curfd it <= f -> P f) -> shutting P t e D w -> passed P D (curfd it) ->
  wp (for_each n fuel libc_close it) (fun _ w' => shut_down P t e w') w.
Proof.
  intros Hi Hf. revert D it w Hi.
  induction n as [|n IH]; intros D it w Hi Hn HP Hs Hpa; [lia|].
  simpl. apply wp_bind, (shut_next P t e D); [done..|].
  intros o it' w1 Hi' Hs1 Ho. cbn beta iota. destruct o as [fd|]; [|done].
  destruct Ho as (H1 & H2 & H3 & H4).
  apply wp_bind, (wp_close_shutting P t e D fd it'); [done|done|apply HP; lia|done|].
  intros w2 Hs2 Hi2. eapply IH; [exact Hi2|unfold steps_left in *; lia| |done|].
  - intros f Hfr. apply HP. lia.
  - rewrite H2. by apply passed_one.
Qed.
(** Whether [close_rest] got its range closed. *)
Lemma rest_range_shutting P t e D fd it w :
  iter_inv (R := besides D) it w -> shutting P t e D w -> 0 <= fd <= i32_MAX ->
  (forall f, fd <= f -> P f) ->
  wp (close_rest_range fd) (fun (b : bool) w' => wiped w w' /\
    if b then shutting P t e (adding (range fd u32_MAX) D) w'
    else shutting P t e D w' /\ iter_inv (R := besides D) it w') w.
Proof.
  intros Hi Hs Hfd HP. unfold close_rest_range. case_decide as Ht; [|by apply wp_ret].
  apply wp_bind, (wp_load_works (R := besides D)); [apply Hs|]. intros w1 Hw1 Hh1.
  assert (Hs1 : shutting P t e D w1) by (eapply shutting_idles; [exact Hs|by split]).
  assert (Hwi : wiped w w1) by (unfold wiped; by rewrite (wk_mine _ _ Hw1)).
  pose proof (iter_inv_works _ _ _ Hi Hw1) as Hi1.
  destruct (MAY_HAVE_CLOSE_RANGE _); [|by apply wp_ret].
  apply wp_bind. rewrite as_u32_small by (unfold i32_MAX, u32_MAX in *; lia).
  eapply wp_mono; [apply (try_close_range_threads P t e D fd u32_MAX); try done|].
  - by left.
  - unfold i32_MAX, u32_MAX in *. lia.
  - intros f Hf. apply HP. lia.
  - intros [[]|] w2 [Hw2 Hr]; apply wp_ret; (split; [by etrans|]); [done|].
    destruct Hr as [Hs2 Hwk]. split; [done|]. by eapply iter_inv_works.
Qed.

Lemma rest_shutting P t e D fuel fd it w :
  iter_inv (R := besides D) it w -> enough_fuel fuel -> shutting P t e D w ->
  0 <= fd < i32_MAX -> curfd it = fd + 1 -> (forall f, fd <= f -> P f) -> passed P D fd ->
  fd ∉ mine (kern w) ->
  wp (close_rest fuel fd it) (fun _ w' => shut_down P t e w') w.
Proof.
  intros Hi Hf Hs Hfd Hc HP Hpa Hn. unfold close_rest. destruct (has_closefrom target).
  { apply wp_bind. eapply wp_mono; [apply (drop_shutting P t e D); [done| |]|].
    - by rewrite (ii_mine _ _ Hi).
    - intros d. by eapply owned_not_staying.
    - intros [] w1 [Hs1 Hm1]. eapply closefrom_shutting; [done|done|]. intros w2 Hs2 Hw2.
      eexists. split_and!; [exact Hs2|by eapply wiped_empty|].
      intros f Hst HPf _. unfold adding. destruct (Z.leb_spec fd f); [apply orb_true_r|].
      by rewrite (Hpa f). }
  apply wp_bind. eapply wp_mono; [apply (rest_range_shutting P t e D fd it); done || lia|].
  intros [] w1 [Hw1 Hr].
  - eapply wp_mono; [eapply (drop_shutting P t e); [exact Hr| |]|].
    + unfold wiped in Hw1. by rewrite (ii_mine _ _ Hi) in Hw1.
    + intros d Hd. destruct (owned_not_staying D it w d Hi Hd) as [?|HD]; [by left|right].
      unfold adding. by rewrite HD.
    + intros [] w2 [Hs2 Hm2]. eexists. split_and!; [exact Hs2|done|].
      intros f Hst HPf _. unfold adding, range. destruct (D f) eqn:HD; [done|].
      destruct (to_stay (R := besides D) _ (sh_ok _ _ _ _ _ Hs) f (conj Hst HD)) as [x Hx%fds_wf].
      assert (fd <= f) by (destruct (Z.lt_ge_cases f fd) as [Hlt|]; [|done]; by rewrite (Hpa f) in HD).
      simpl. unfold i32_MAX, u32_MAX in *. lia.
  - destruct Hr as [Hs1 Hi1].
    assert (Hn1 : fd ∉ mine (kern w1)) by (by intros ?%Hw1).
    apply wp_bind, (wp_close_shutting P t e D fd it); [done|done|apply HP; lia|done|].
    intros w2 Hs2 Hi2. eapply for_each_shutting; [exact Hi2|done| | |done|].
    + pose proof (ii_curfd _ _ Hi2). unfold steps_left, enough_fuel, i32_MAX in *. lia.
    + intros f Hfr. apply HP. lia.
    + rewrite Hc. by apply passed_one.
Qed.

Lemma close_loop_shutting minfd keep mx srt t e n fuel D keepc it w :
  enough_fuel fuel -> (forall x, x ∈ keep -> x <= mx) ->
  (srt = true -> ascending keepc) ->
  (forall f, curfd it <= f -> f ∈ keepc <-> f ∈ keep) ->
  iter_inv (R := besides D) it w -> (steps_left it < n)%nat -> minfd <= curfd it ->
  shutting (chosen minfd keep) t e D w -> passed (chosen minfd keep) D (curfd it) ->
  wp (close_loop n fuel keepc mx srt it)
    (fun _ w' => shut_down (chosen minfd keep) t e w') w.
Proof.
  intros Hf Hmx. revert D keepc it w.
  induction n as [|n IH]; intros D keepc it w Hsrt Hkc Hi Hn Hm Hs Hpa; [lia|].
  simpl. pose proof (ii_curfd _ _ Hi) as Hc0.
  apply wp_bind, (shut_next (chosen minfd keep) t e D); [done..|].
  intros o it' w1 Hi' Hs1 Ho. cbn beta iota. destruct o as [fd|]; [|done].
  destruct Ho as (H1 & H2 & H3 & H4).
  destruct (Z.ltb_spec mx fd) as [Hgt|Hle].
  { apply (rest_shutting (chosen minfd keep) t e D); try done; try lia. intros f Hfr. split; [lia|].
    intros Hin. specialize (Hmx f Hin). lia. }
  destruct (check_should_keep_spec keepc srt fd Hsrt) as (b & kc & -> & Hb & Hsuf & Hs' & Hkc').
  rewrite Hkc in Hb by lia.
  assert (Hkc2 : forall f, curfd it' <= f -> f ∈ kc <-> f ∈ keep).
  { intros f Hfr. rewrite Hkc' by lia. apply Hkc. lia. }
  assert (Hn' : (steps_left it' < n)%nat) by (unfold steps_left in *; lia).
  apply wp_bind. destruct b.
  - apply wp_ret. apply (IH D); try done; [lia|]. rewrite H2.
    apply passed_kept; [done|]. intros [_ Hnin]. by apply Hnin, Hb.
  - assert (Hnin : fd ∉ keep) by (intros Hin; by apply Hb in Hin).
    apply (wp_close_shutting (chosen minfd keep) t e D fd it'); [done|done|split; [lia|done]|done|].
    intros w2 Hs2 Hi2. eapply IH; [done|done|exact Hi2|done|lia|done|].
    rewrite H2. by apply passed_one.
Qed.

(** ** [close_fds] *)

(** The count of descriptors is not used, or is right. *)
Definition close_count_safe (b : FdIterBuilder) : Prop :=
  only_closes = true \/ has_nfds target = false \/ has_closefrom target = true \/
  b_skip_nfds b = true.

Lemma close_fds_shutting fuel minfd k b w :
  enough_fuel fuel -> keep_ok k -> 0 <= minfd <= i32_MAX -> threads_ok (kern w) ->
  mine (kern w) = ∅ -> statics_ok (world_env w) (statics w) -> close_count_safe b ->
  assertion_safe (world_env w) ->
  wp (close_fds fuel minfd k b) (fun _ w' =>
    shut_down (chosen minfd (kf_fds k)) (fds (base (kern w))) (world_env w) w') w.
Proof.
  intros Hf Hk Hm Hok Hmine Hst Hsafe Hdbg.
  destruct (simplified_pre k minfd (mkWorld (base (kern w)) (statics w)) Hk Hst Hm)
    as (keep' & m & Heq & Hle & Hch & Hpre).
  unfold close_fds. apply wp_bind. eapply wp_lift; [exact Heq|]. cbn beta iota.
  assert (Hiff : forall w', shut_down (chosen m keep') (fds (base (kern w))) (world_env w) w' ->
    shut_down (chosen minfd (kf_fds k)) (fds (base (kern w))) (world_env w) w').
  { intros w' (D & [S1 S2 S3 S4 S5 S6] & Hm' & HD). exists D. split_and!; [constructor|done|]; try done.
    - intros f Hf'. by apply Hch, S4.
    - intros f Hs Ht HP. apply S6; [done|done|]. by rewrite Hch.
    - intros f Hs HP. apply HD; [done|]. by apply Hch. }
  apply wp_bind. eapply wp_mono; [eapply shortcut_wiping; [exact Hpre|done|by apply shutting_start]|].
  intros r w1 (D & Hs1 & Hw1 & _ & Hr).
  assert (Hm1 : mine (kern w1) = ∅) by (by eapply wiped_empty).
  destruct r as [[]|]; simpl.
  { apply wp_ret, Hiff. exists D. split_and!; [done|done|]. intros f Hs HP Hl.
    apply Hr; [done|]. split; [done|]. destruct (D f) eqn:HD; [|].
    - pose proof (sh_shut _ _ _ _ _ Hs1 f Hs HD).
      destruct (to_stay _ Hok f Hs) as [x Hx%fds_wf]. lia.
    - destruct (to_stay _ Hok f Hs) as [x Hx%fds_wf]. lia. }
  destruct Hpre as [_ Hm' Hs Hi Hx Hmx _].
  set (b' := if has_closefrom target then _ else _).
  assert (Hsafe' : only_closes = true \/ has_nfds target = false \/ b_skip_nfds b' = true).
  { subst b'. destruct Hsafe as [?|[?|[Hcf|Hb]]]; [by left|by right; left| |].
    - rewrite Hcf. unfold set_threadsafe. destruct (has_nfds target) eqn:Hn; auto.
    - destruct (has_closefrom target); unfold set_threadsafe;
        destruct (has_nfds target); auto. }
  apply wp_bind. eapply wp_mono; [apply (iter_from_threads (R := besides D))|].
  { lia. } { apply Hs1. } { done. } { rewrite (sh_env _ _ _ _ _ Hs1). apply Hs1. } { exact Hsafe'. }
  intros it w2 (Hg2 & Hi2 & Hc & _).
  eapply wp_mono; [apply (close_loop_shutting m keep' (kf_max k) (kf_sorted k)
    (fds (base (kern w))) (world_env w) fuel fuel D); try done|].
  - pose proof (ii_curfd _ _ Hi2). unfold steps_left, enough_fuel, i32_MAX in *. lia.
  - lia.
  - by eapply shutting_goes_on.
  - intros f _ [Hfm _] Hlt. lia.
  - intros [] w3. apply Hiff.
Qed.
End closing.

(** ** Properties *)

Section properties.
Context `{C : Config, !ConfigOk C} {K : Type} `{SK : Sys K} `{KV : KernelView K}
  {KS : KernelSpec K}.

(** C12. [closefrom(minfd)] while other threads open, close and change
    descriptors and store to the statics between any two of its steps: it
    terminates and leaves nothing of its own open. Every descriptor that the
    other threads do not close, from [minfd] up to the limit of the fallback
    loop, was open when a call of the crate closed it, unless it is in the list;
    those that are in the list or below [minfd] are open in the end, and as they
    were if the other threads leave their flags alone. The count of open
    descriptors must not be used, unless nothing is opened; and in a FreeBSD build
    with debug assertions [kern.osreldate] must be readable at any time, since
    otherwise a thread that failed to read it makes an assertion of this one fail
    ([Runs.assertion_race_debug]). *)
Theorem closing_among_threads {R : Rely} fuel b minfd w :
  enough_fuel fuel -> builder_ok b -> minfd <= i32_MAX -> threads_ok (kern w) ->
  mine (kern w) = ∅ -> shut (kern w) = ∅ ->
  statics_ok (env (base (kern w))) (statics w) -> close_count_safe (cb_it b) ->
  (target = freebsd -> debug = true ->
   env_osreldate_known (env (base (kern w))) = true) ->
  wp (closefrom fuel b minfd) (fun _ w' =>
    let keep := kf_fds (cb_keep_fds b) in
    mine (kern w') = ∅ /\
    (forall f, stay f -> ~ spared minfd keep f -> f <= scan_limit (env (base (kern w))) ->
       f ∈ shut (kern w')) /\
    (forall f, stay f -> spared minfd keep f ->
       is_Some (fds (base (kern w')) !! f) /\
       (still f -> fds (base (kern w')) !! f = fds (base (kern w)) !! f)) /\
    Forall (statics_ok (env (base (kern w)))) (published (kern w'))) w.
Proof.
  intros Hf Hb Hm Hok Hmine _ Hst Hsafe Hdbg. unfold closefrom.
  eapply wp_mono; [apply close_fds_shutting; try done; unfold i32_MAX in *; lia|].
  intros [] w' (D & [S1 S2 S3 S4 S5 S6] & Hm' & HD). simpl.
  assert (Hch : forall f, stay f -> chosen (Z.max minfd 0) (kf_fds (cb_keep_fds b)) f <->
    ~ spared minfd (kf_fds (cb_keep_fds b)) f).
  { intros f Hs. apply chosen_spared. destruct (to_stay _ Hok f Hs) as [x Hx%fds_wf]. lia. }
  split_and!; [done| | |].
  - intros f Hs Hn Hl. apply S5; [done|]. apply HD; [done|by apply Hch|done].
  - intros f Hs Hsp. assert (Hn : ~ chosen (Z.max minfd 0) (kf_fds (cb_keep_fds b)) f) by
      (intros Hc; by apply Hch in Hc). split; [|intros Ht; by apply S6].
    apply (to_stay _ S1). split; [done|]. apply not_true_iff_false. intros Ht. by apply Hn, S4.
  - destruct S1 as [_ Hpub _ _ _ _]. unfold world_env in S2. by rewrite S2 in Hpub.
Qed.
End properties.
