(* ===== verification/Trace.v ===== *)
(** * The calls that are made

    [Traced K] is a kernel that records each call made on it. Every law of
    KernelSpec.v holds of it, so every theorem of the development does, and the
    record shows which calls an operation makes. *)

From S2P Require Import Prelude Platform Ints Sys KernelSpec.

Inductive sys_call :=
| c_open (path : string) (flags : list oflag)
| c_close (fd : Z)
| c_getfd (fd : Z)
| c_setfd (fd fl : Z)
| c_maxfd
| c_getdents (c : getdents_call) (fd len : Z)
| c_close_range (lo hi fl : Z)
| c_closefrom (lo : Z)
| c_sysconf
| c_uname
| c_nfds
| c_osreldate
| c_getdtablecount
| c_stat (path : string)
| c_fstat (fd : Z).

(** The last call comes first in the log. *)
Record Traced (K : Type) := mkTraced { real : K; log : list sys_call }.
Arguments mkTraced {_} _ _.
Arguments real {_} _.
Arguments log {_} _.

Section traced.
Context {K : Type} `{SK : Sys K} `{KV : KernelView K}.

Definition record {A} (c : sys_call) (f : K -> A * K) (s : Traced K) : A * Traced K :=
  let '(a, k) := f (real s) in (a, mkTraced k (c :: log s)).

#[export] Instance traced_sys : Sys (Traced K) := {|
  FD_CLOEXEC := FD_CLOEXEC;
  EINVAL := EINVAL;
  errno_get s := errno_get (real s);
  errno_set e s := mkTraced (errno_set e (real s)) (log s);
  sys_open path flags := record (c_open path flags) (sys_open path flags);
  sys_close fd := record (c_close fd) (sys_close fd);
  sys_fcntl_getfd fd := record (c_getfd fd) (sys_fcntl_getfd fd);
  sys_fcntl_setfd fd fl := record (c_setfd fd fl) (sys_fcntl_setfd fd fl);
  sys_fcntl_maxfd := record c_maxfd sys_fcntl_maxfd;
  sys_getdents c d len := record (c_getdents c d len) (sys_getdents c d len);
  sys_close_range lo hi fl := record (c_close_range lo hi fl) (sys_close_range lo hi fl);
  sys_closefrom lo s := mkTraced (sys_closefrom lo (real s)) (c_closefrom lo :: log s);
  sys_sysconf_open_max := record c_sysconf sys_sysconf_open_max;
  sys_uname_release := record c_uname sys_uname_release;
  sys_sysctl_nfds := record c_nfds sys_sysctl_nfds;
  sys_sysctl_osreldate := record c_osreldate sys_sysctl_osreldate;
  sys_getdtablecount := record c_getdtablecount sys_getdtablecount;
  sys_stat_dev path := record (c_stat path) (sys_stat_dev path);
  sys_fstat_dev fd := record (c_fstat fd) (sys_fstat_dev fd);
  race st s := let '(st, k) := race st (real s) in (st, mkTraced k (log s));
  publish st s := mkTraced (publish st (real s)) (log s);
|}.

#[export] Instance traced_view : KernelView (Traced K) := {|
  fds s := fds (real s);
  dirnext s := dirnext (real s);
  env s := env (real s);
|}.

Lemma record_inv {A} c (f : K -> A * K) s a s' :
  record c f s = (a, s') -> f (real s) = (a, real s') /\ log s' = c :: log s.
Proof. unfold record. destruct (f (real s)). by intros [= -> <-]. Qed.
End traced.

(** The laws hold, each by that of the kernel below. *)
Ltac traced_law :=
  intros; simpl in *;
  repeat match goal with H : record _ _ _ = _ |- _ => apply record_inv in H as [H _] end.

Section laws.
Context `{C : Config} {K : Type} `{SK : Sys K} `{KV : KernelView K} {KS : KernelSpec K}.

#[export] Instance traced_spec : KernelSpec (Traced K).
Proof.
  constructor.
  - intros s. apply (fds_wf (real s)).
  - apply (FD_CLOEXEC_wf (K := K)).
  - intros s. apply (dirnext_wf (real s)).
  - intros e s. apply (errno_set_get e (real s)).
  - intros e s. apply (errno_set_view e (real s)).
  - traced_law. by eapply (open_spec (K := K)).
  - traced_law. by eapply (open_flags (K := K)).
  - traced_law. by eapply (open_lowest (K := K)).
  - traced_law. by eapply (open_limit (K := K)).
  - traced_law. by eapply (open_missing (K := K)).
  - traced_law. by eapply (close_spec (K := K)).
  - traced_law. by eapply (getfd_spec (K := K)).
  - traced_law. by eapply (setfd_spec (K := K)).
  - traced_law. by eapply (setfd_result (K := K)).
  - traced_law. by eapply (setfd_closed (K := K)).
  - traced_law. by eapply (getdents_spec (K := K)).
  - traced_law. by eapply (close_range_spec (K := K)).
  - traced_law. by eapply (close_range_cloexec_spec (K := K)).
  - intros lo hi fl s s' Ht. simpl. intros [Hk _]%record_inv. 
    eapply (close_range_survives (K := K)); [exact Ht|exact Hk].
  - traced_law. by eapply (close_range_present (K := K)).
  - traced_law. by eapply (close_range_absent (K := K)).
  - traced_law. by eapply (cloexec_range_present (K := K)).
  - traced_law. by eapply (cloexec_range_absent (K := K)).
  - intros lo s. apply (closefrom_spec lo (real s)).
  - traced_law. by eapply (sysconf_spec (K := K)).
  - traced_law. by eapply (uname_spec (K := K)).
  - traced_law. by eapply (osreldate_spec (K := K)).
  - traced_law. by eapply (osreldate_known (K := K)).
  - traced_law. by eapply (nfds_spec (K := K)).
  - traced_law. by eapply (getdtablecount_spec (K := K)).
  - traced_law. by eapply (maxfd_spec (K := K)).
  - traced_law. by eapply (stat_spec (K := K)).
  - traced_law. by eapply (stat_dev (K := K)).
  - traced_law. by eapply (fstat_spec (K := K)).
  - traced_law. by eapply (fstat_devfd (K := K)).
  - intros st [k l]. simpl. by rewrite (race_alone (K := K)).
  - intros st [k l]. simpl. by rewrite (publish_alone (K := K)).
Qed.
End laws.

(** ** Programs and their calls *)

Section traces.
Context {K : Type} `{SK : Sys K}.

(** When [m] returns, it has made calls that satisfy [P], and its value satisfies
    [R]. *)
Definition traces {A} (P : list sys_call -> Prop) (R : A -> Prop) (m : ST (World (Traced K)) A)
  : Prop := forall w a w', m w = Done (a, w') ->
  (exists l, log (kern w') = l ++ log (kern w) /\ P l) /\ R a.

(** All calls satisfy [p]. *)
Definition calls {A} (p : sys_call -> Prop) (R : A -> Prop) (m : ST (World (Traced K)) A)
  : Prop := traces (Forall p) R m.

Lemma traces_ret {A} (P : list sys_call -> Prop) (R : A -> Prop) (a : A) :
  P [] -> R a -> traces P R (mret a).
Proof. intros HP HR w b w' [= <- <-]. split; [by exists []|done]. Qed.

Lemma traces_mono {A} (P P' : list sys_call -> Prop) (R R' : A -> Prop) m :
  traces P R m -> (forall l, P l -> P' l) -> (forall a, R a -> R' a) -> traces P' R' m.
Proof.
  intros Hm HP HR w a w' Hw. destruct (Hm w a w' Hw) as [(l & Hl & Hp) Hr].
  split; [|auto]. exists l. auto.
Qed.

Lemma traces_bind {A B} (P1 P2 P : list sys_call -> Prop) (R1 : A -> Prop) (R : B -> Prop)
    (m : ST (World (Traced K)) A) (f : A -> ST (World (Traced K)) B) :
  traces P1 R1 m -> (forall a, R1 a -> traces P2 R (f a)) ->
  (forall l1 l2, P1 l1 -> P2 l2 -> P (l2 ++ l1)) -> traces P R (m ≫= f).
Proof.
  intros Hm Hf HP w b w' (a & w1 & H1 & H2)%ST_bind_Done.
  destruct (Hm _ _ _ H1) as [(l1 & E1 & P1l) Ra]. destruct (Hf a Ra _ _ _ H2) as [(l2 & E2 & P2l) Rb].
  split; [|done]. exists (l2 ++ l1). rewrite E2, E1, app_assoc. auto.
Qed.

Lemma calls_bind {A B} p (R1 : A -> Prop) (R : B -> Prop)
    (m : ST (World (Traced K)) A) (f : A -> ST (World (Traced K)) B) :
  calls p R1 m -> (forall a, R1 a -> calls p R (f a)) -> calls p R (m ≫= f).
Proof. intros Hm Hf. eapply traces_bind; [exact Hm|exact Hf|]. intros. by apply Forall_app. Qed.

Lemma calls_ret {A} p (R : A -> Prop) (a : A) : R a -> calls p R (mret a).
Proof. intros HR. by apply traces_ret. Qed.

Lemma traces_lift {A} (P : list sys_call -> Prop) (o : outcome A) :
  P [] -> traces P (fun _ => True) (lift o).
Proof. intros HP w a w' [_ ->]%lift_inv. split; [by exists []|done]. Qed.

Lemma traces_gets {A} (P : list sys_call -> Prop) (f : World (Traced K) -> A) :
  P [] -> traces P (fun _ => True) (gets f).
Proof. intros HP w a w' [= _ <-]. split; [by exists []|done]. Qed.

Lemma traces_load {A} (P : list sys_call -> Prop) (f : Statics -> A) :
  P [] -> traces P (fun _ => True) (load f : ST (World (Traced K)) A).
Proof.
  intros HP w a w'. unfold load. simpl. destruct (race (statics w) (real (kern w))) as [s k].
  intros [= _ <-]. split; [by exists []|done].
Qed.

Lemma traces_store (P : list sys_call -> Prop) f :
  P [] -> traces P (fun _ => True) (store f : ST (World (Traced K)) unit).
Proof. intros HP w a w' [= _ <-]. split; [by exists []|done]. Qed.

Lemma traces_set_errno (P : list sys_call -> Prop) e :
  P [] -> traces P (fun _ => True) (set_errno e : ST (World (Traced K)) unit).
Proof. intros HP w a w' [= _ <-]. split; [by exists []|done]. Qed.

(** A recorded call. *)
Lemma traces_record {A} (P : list sys_call -> Prop) c (f : K -> A * K) :
  P [c] -> traces P (fun _ => True) (call (record c f)).
Proof.
  intros HP w a w'. unfold call. destruct (record c f (kern w)) as [r s] eqn:Hr.
  intros [= _ <-]. apply record_inv in Hr as [_ Hl]. split; [by exists [c]|done].
Qed.

Lemma traces_record_or_die {A} (P : list sys_call -> Prop) c (f : K -> option A * K) :
  P [c] -> traces P (fun _ => True) (call_or_die (record c f)).
Proof.
  intros HP w a w'. unfold call_or_die. destruct (record c f (kern w)) as [[r|] s] eqn:Hr; [|done].
  intros [= _ <-]. apply record_inv in Hr as [_ Hl]. split; [by exists [c]|done].
Qed.

Lemma traces_stop {A} (P : list sys_call -> Prop) (R : A -> Prop) :
  traces P R (out_of_fuel : ST (World (Traced K)) A).
Proof. intros w a w'. done. Qed.

(** What a run that is known to end leaves in the log. *)
Lemma traces_wp {A} (P : list sys_call -> Prop) R (m : ST (World (Traced K)) A)
    (Q : A -> World (Traced K) -> Prop) w :
  traces P R m -> log (kern w) = [] -> wp m Q w ->
  wp m (fun a w' => Q a w' /\ P (log (kern w')) /\ R a) w.
Proof.
  intros Hm Hl (a & w' & Hw & HQ)%wp_done. apply wp_done. exists a, w'. split; [done|].
  destruct (Hm w a w' Hw) as [(l & El & HP) HR]. rewrite Hl, app_nil_r in El. by rewrite El.
Qed.
End traces.
