(* ===== verification/Fuel.v ===== *)
(** * Fuel

    The loops of the model are fixpoints on fuel. What a run does must not depend
    on how much of it there is: this file shows that more fuel never changes the
    outcome of a run that did not run out of it, for every operation that has a
    loop. With the theorems that [enough_fuel] is enough, this makes the model's
    runs those of the code, whose loops have no bound. *)

From S2P Require Import Prelude Platform Ints Sys KernelSpec Util DirFdIter FdIter IterFds KeepFds Visit Close Cloexec CloseFds.

(** ** Programs with more fuel *)

Section more.
Context {S : Type}.

(** [m'] does what [m] does, unless [m] runs out of fuel. *)
Definition more {A} (m m' : ST S A) : Prop := forall s, m s = OutOfFuel \/ m' s = m s.

Lemma more_refl {A} (m : ST S A) : more m m.
Proof. by right. Qed.

Lemma more_out {A} (m : ST S A) : more out_of_fuel m.
Proof. by left. Qed.

Lemma more_bind {A B} (m m' : ST S A) (f f' : A -> ST S B) :
  more m m' -> (forall a, more (f a) (f' a)) -> more (m ≫= f) (m' ≫= f').
Proof.
  intros Hm Hf s. unfold mbind, ST_bind. destruct (Hm s) as [-> | ->]; [by left|].
  destruct (m s) as [[a s']| | | |]; try by right. apply Hf.
Qed.
End more.

Create HintDb fuel discriminated.
#[export] Hint Resolve more_refl more_out : fuel.

(** Descend into two programs of the same shape. *)
Ltac fuel_step :=
  first
    [ solve [auto with fuel]
    | apply more_bind; [|intros ?]
    | match goal with
      | |- more (match ?x with _ => _ end) _ => destruct x
      end ].
Ltac fuel_mono := repeat fuel_step.

(** ** The operations *)

Section operations.
Context `{C : Config} {K : Type} `{SK : Sys K}.

Lemma dir_next_loop_more (fuel fuel' : nat) it :
  (fuel <= fuel')%nat -> more (next_loop fuel it) (next_loop fuel' it : ST (World K) _).
Proof.
  revert fuel' it. induction fuel as [|fuel IH]; intros [|fuel'] it Hf; auto with fuel; [lia|].
  assert (Hrec : forall it, more (next_loop fuel it) (next_loop fuel' it : ST (World K) _)).
  { intros it'. apply IH. lia. }
  simpl. unfold consume_entry. fuel_mono.
Qed.
#[local] Hint Resolve dir_next_loop_more : fuel.

Lemma dir_next_more (fuel fuel' : nat) it :
  (fuel <= fuel')%nat -> more (DirFdIter.next fuel it) (DirFdIter.next fuel' it : ST (World K) _).
Proof. intros Hf. unfold DirFdIter.next. fuel_mono. Qed.
#[local] Hint Resolve dir_next_more : fuel.

Lemma scan_loop_more (fuel fuel' : nat) m it :
  (fuel <= fuel')%nat -> more (scan_loop fuel m it) (scan_loop fuel' m it : ST (World K) _).
Proof.
  revert fuel' it. induction fuel as [|fuel IH]; intros [|fuel'] it Hf; auto with fuel; [lia|].
  assert (Hrec : forall it, more (scan_loop fuel m it) (scan_loop fuel' m it : ST (World K) _)).
  { intros it'. apply IH. lia. }
  simpl. fuel_mono.
Qed.
#[local] Hint Resolve scan_loop_more : fuel.

Lemma fd_next_more (fuel fuel' : nat) it :
  (fuel <= fuel')%nat -> more (FdIter.next fuel it) (FdIter.next fuel' it : ST (World K) _).
Proof. intros Hf. unfold FdIter.next, scan. fuel_mono. Qed.
#[local] Hint Resolve fd_next_more : fuel.

Lemma for_each_more (n n' fuel fuel' : nat) body it :
  (n <= n')%nat -> (fuel <= fuel')%nat ->
  more (for_each n fuel body it) (for_each n' fuel' body it : ST (World K) _).
Proof.
  intros Hn Hf. revert n' it Hn. induction n as [|n IH]; intros [|n'] it Hn; auto with fuel; [lia|].
  assert (Hrec : forall it,
    more (for_each n fuel body it) (for_each n' fuel' body it : ST (World K) _)).
  { intros it'. apply IH. lia. }
  simpl. fuel_mono.
Qed.
#[local] Hint Resolve for_each_more : fuel.

Lemma collect_more (n n' fuel fuel' : nat) it :
  (n <= n')%nat -> (fuel <= fuel')%nat ->
  more (collect n fuel it) (collect n' fuel' it : ST (World K) _).
Proof.
  intros Hn Hf. revert n' it Hn. induction n as [|n IH]; intros [|n'] it Hn; auto with fuel; [lia|].
  assert (Hrec : forall it, more (collect n fuel it) (collect n' fuel' it : ST (World K) _)).
  { intros it'. apply IH. lia. }
  simpl. fuel_mono.
Qed.
#[local] Hint Resolve collect_more : fuel.

Lemma close_loop_more (n n' fuel fuel' : nat) keep mx srt it :
  (n <= n')%nat -> (fuel <= fuel')%nat ->
  more (close_loop n fuel keep mx srt it) (close_loop n' fuel' keep mx srt it : ST (World K) _).
Proof.
  intros Hn Hf. revert n' keep it Hn.
  induction n as [|n IH]; intros [|n'] keep it Hn; auto with fuel; [lia|].
  assert (Hrec : forall keep it, more (close_loop n fuel keep mx srt it)
    (close_loop n' fuel' keep mx srt it : ST (World K) _)).
  { intros keep' it'. apply IH. lia. }
  simpl. unfold close_rest. fuel_mono.
Qed.
#[local] Hint Resolve close_loop_more : fuel.

Lemma cloexec_loop_more (n n' fuel fuel' : nat) keep mx srt it :
  (n <= n')%nat -> (fuel <= fuel')%nat ->
  more (cloexec_loop n fuel keep mx srt it) (cloexec_loop n' fuel' keep mx srt it : ST (World K) _).
Proof.
  intros Hn Hf. revert n' keep it Hn.
  induction n as [|n IH]; intros [|n'] keep it Hn; auto with fuel; [lia|].
  assert (Hrec : forall keep it, more (cloexec_loop n fuel keep mx srt it)
    (cloexec_loop n' fuel' keep mx srt it : ST (World K) _)).
  { intros keep' it'. apply IH. lia. }
  simpl. unfold set_cloexec_rest. fuel_mono.
Qed.
#[local] Hint Resolve cloexec_loop_more : fuel.

Lemma closefrom_more (fuel fuel' : nat) b minfd :
  (fuel <= fuel')%nat ->
  more (CloseFds.closefrom fuel b minfd) (CloseFds.closefrom fuel' b minfd : ST (World K) _).
Proof. intros Hf. unfold CloseFds.closefrom, close_fds. fuel_mono. Qed.

Lemma cloexecfrom_more (fuel fuel' : nat) b minfd :
  (fuel <= fuel')%nat ->
  more (cloexecfrom fuel b minfd) (cloexecfrom fuel' b minfd : ST (World K) _).
Proof. intros Hf. unfold cloexecfrom, Cloexec.set_fds_cloexec. fuel_mono. Qed.

Lemma iterate_more (fuel fuel' : nat) b minfd :
  (fuel <= fuel')%nat ->
  more (iterate fuel b minfd) (iterate fuel' b minfd : ST (World K) _).
Proof. intros Hf. unfold iterate. fuel_mono. Qed.
End operations.

(** ** Properties *)

Section properties.
Context `{C : Config, !ConfigOk C} {K : Type} `{SK : Sys K} `{KV : KernelView K}
  {KS : KernelSpec K}.

(** Termination, without fuel: [closefrom], [cloexecfrom] and a whole
    iteration each have one run, which ends; every amount of fuel that is enough
    for a run to end, and [enough_fuel] is, gives that run, and a panic or
    another failure of a run does not come from the fuel either. *)
Theorem runs_without_fuel fuel1 fuel2 b bi minfd w :
  builder_ok b -> world_ok w -> minfd <= i32_MAX -> enough_fuel fuel2 ->
  (CloseFds.closefrom fuel1 b minfd w <> OutOfFuel ->
   CloseFds.closefrom fuel1 b minfd w = CloseFds.closefrom fuel2 b minfd w) /\
  (cloexecfrom fuel1 b minfd w <> OutOfFuel ->
   cloexecfrom fuel1 b minfd w = cloexecfrom fuel2 b minfd w) /\
  (iterate fuel1 bi minfd w <> OutOfFuel ->
   iterate fuel1 bi minfd w = iterate fuel2 bi minfd w) /\
  (exists w', CloseFds.closefrom fuel2 b minfd w = Done (tt, w')) /\
  (exists w', cloexecfrom fuel2 b minfd w = Done (tt, w')) /\
  (exists l w', iterate fuel2 bi minfd w = Done (l, w')).
Proof.
  intros Hb Hok Hm Hf.
  assert (Hany : forall {A} (m : nat -> ST (World K) A),
    (forall n n', (n <= n')%nat -> more (m n) (m n')) -> m fuel2 w <> OutOfFuel ->
    m fuel1 w <> OutOfFuel -> m fuel1 w = m fuel2 w).
  { intros A m Hmore H2 H1. destruct (Nat.le_ge_cases fuel1 fuel2) as [Hle|Hle];
      destruct (Hmore _ _ Hle w); congruence. }
  assert (H1 : exists w', CloseFds.closefrom fuel2 b minfd w = Done (tt, w')).
  { destruct (proj1 (wp_done _ _ _) (close_fds_spec fuel2 (Z.max minfd 0) (cb_keep_fds b) (cb_it b) w
      Hf Hb Hok ltac:(unfold i32_MAX in *; lia))) as ([] & w' & Hw & _). by exists w'. }
  assert (H2 : exists w', cloexecfrom fuel2 b minfd w = Done (tt, w')).
  { destruct (proj1 (wp_done _ _ _) (set_fds_cloexec_spec fuel2 (Z.max minfd 0) (cb_keep_fds b) (cb_it b) w
      Hf Hb Hok ltac:(unfold i32_MAX in *; lia))) as ([] & w' & Hw & _). by exists w'. }
  assert (H3 : exists l w', iterate fuel2 bi minfd w = Done (l, w')).
  { destruct (proj1 (wp_done _ _ _) (iterate_spec fuel2 bi minfd w Hm Hok Hf)) as (l & w' & Hw & _).
    by exists l, w'. }
  assert (Hdone : forall {A} (o : outcome A) a, o = Done a -> o <> OutOfFuel) by (by intros A o a ->).
  split_and!; [| | |done|done|done].
  - apply (Hany _ (fun n => CloseFds.closefrom n b minfd)).
    + intros. by apply closefrom_more.
    + destruct H1 as [w' Hw]. by eapply Hdone.
  - apply (Hany _ (fun n => cloexecfrom n b minfd)).
    + intros. by apply cloexecfrom_more.
    + destruct H2 as [w' Hw]. by eapply Hdone.
  - apply (Hany _ (fun n => iterate n bi minfd)).
    + intros. by apply iterate_more.
    + destruct H3 as (l & w' & Hw). by eapply Hdone.
Qed.
End properties.
