(* ===== verification/Command.v ===== *)
(** * examples/command-close.rs

    The example program: it opens three files, makes them inheritable, and starts
    a command that is to inherit two of them. [main_open] and [main_rest] are
    [main] up to the [execve] of the child, which runs on a copy of the world. *)

From S2P Require Import Prelude Platform Ints Sys KernelSpec Util DirFdIter FdIter IterFds KeepFds Visit Close Cloexec CloseFds.

(** ** Definitions *)

Section command.
Context `{C : Config} {K : Type} `{SK : Sys K}.

Definition unset_cloexec (fd : Z) : ST (World K) unit :=
  flags ← call (sys_fcntl_getfd fd);
  assert (0 <=? flags);;
  if negb (Z.land flags FD_CLOEXEC =? 0) then
    r ← call (sys_fcntl_setfd fd (Z.land flags (Z.lnot FD_CLOEXEC)));
    assert (r =? 0)
  else mret tt.

(** [fs::File::open("/").unwrap()]: the standard library opens with
    [O_CLOEXEC]. *)
Definition file_open_root : ST (World K) Z :=
  fd ← libc_open "/" [O_RDONLY; O_CLOEXEC];
  if fd <? 0 then panic else mret fd.

Definition main_open : ST (World K) (Z * Z * Z) :=
  f1 ← file_open_root; f2 ← file_open_root; f3 ← file_open_root;
  mret (f1, f2, f3).

(** The closure that runs in the child before [execve]. *)
Definition pre_exec (fuel : nat) (keep_fds : list Z) : ST (World K) unit :=
  if cfg_any [macos; ios] target then CloseFds.set_fds_cloexec fuel 3 keep_fds
  else close_open_fds fuel 3 keep_fds.

(** [keep_fds.sort_unstable()], on integers. *)
Definition sort_unstable (l : list Z) : list Z := merge_sort Z.le l.

Definition main_rest (fuel : nat) (f1 f2 f3 : Z) : ST (World K) unit :=
  unset_cloexec f1;; unset_cloexec f2;; unset_cloexec f3;;
  pre_exec fuel (sort_unstable [f1; f3]).
End command.

(** ** What the command inherits *)

Section inherited.
Context {K : Type} `{SK : Sys K}.

(** [execve] closes the descriptors that are marked. *)
Definition inherited (t : gmap Z Z) (f : Z) : Prop :=
  exists fl, t !! f = Some fl /\ Z.land fl FD_CLOEXEC = 0.

Lemma inherited_closed minfd keep t f :
  inherited (closed_table minfd keep t) f <-> inherited t f /\ spared minfd keep f.
Proof.
  unfold inherited, closed_table. split.
  - intros (fl & [H1 H2]%map_lookup_filter_Some & H3). split; [by exists fl|done].
  - intros [(fl & H1 & H2) Hs]. exists fl. by rewrite map_lookup_filter_Some.
Qed.

Lemma inherited_marked minfd keep t f :
  0 < FD_CLOEXEC ->
  inherited (marked_table minfd keep t) f <-> inherited t f /\ spared minfd keep f.
Proof.
  intros Hpos. unfold inherited, marked_table. rewrite map_lookup_imap. split.
  - intros (fl & H1 & H2). destruct (t !! f) as [x|] eqn:Hx; [|done]. simpl in H1.
    case_decide; injection H1 as <-; [split; [by exists x|done]|].
    rewrite Z.land_lor_distr_l, Z.land_diag in H2. apply Z.lor_eq_0_iff in H2. lia.
  - intros [(fl & H1 & H2) Hs]. exists fl. rewrite H1. simpl. by rewrite decide_True.
Qed.
End inherited.

Section command_spec.
Context `{C : Config, !ConfigOk C} {K : Type} `{SK : Sys K} `{KV : KernelView K}
  {KS : KernelSpec K}.

(** Both ways of keeping descriptors from the command do the same. *)
Lemma pre_exec_spec fuel l w :
  enough_fuel fuel -> slice_ok l -> world_ok w ->
  (forall f, is_Some (fds (kern w) !! f) -> f <= scan_limit (env (kern w))) ->
  wp (pre_exec fuel l) (fun _ w' => forall f,
    inherited (fds (kern w')) f <-> inherited (fds (kern w)) f /\ spared 3 l f) w.
Proof.
  intros Hf Hl Hok Hlim. assert (3 <= i32_MAX) by (unfold i32_MAX; lia).
  unfold pre_exec. destruct (cfg_any _ _).
  - eapply wp_mono; [by apply set_fds_cloexec_table|]. intros [] w' -> f.
    apply inherited_marked, FD_CLOEXEC_wf.
  - eapply wp_mono; [by apply close_open_fds_spec|]. intros [] w' (-> & _) f.
    apply inherited_closed.
Qed.

Lemma ldiff_land_0 a b : Z.land (Z.land a (Z.lnot b)) b = 0.
Proof. by rewrite <- Z.land_assoc, (Z.land_comm _ b), Z.land_lnot_diag, Z.land_0_r. Qed.

(** [unset_cloexec] on an open descriptor does not panic; the descriptor is
    inheritable then, and nothing else changes. *)
Lemma unset_cloexec_spec fd w :
  is_Some (fds (kern w) !! fd) -> world_ok w ->
  wp (unset_cloexec fd) (fun _ w' =>
    inherited (fds (kern w')) fd /\
    (forall f, f <> fd -> fds (kern w') !! f = fds (kern w) !! f) /\
    env (kern w') = env (kern w) /\ world_ok w') w.
Proof.
  intros [fl Hfl] Hok. unfold unset_cloexec. apply wp_bind, wp_call. intros r k Hk.
  destruct (getfd_spec _ _ _ _ Hk) as [-> (V1 & V2 & _)]. rewrite Hfl. simpl.
  pose proof (fds_wf _ _ _ Hfl) as [_ Hpos].
  apply wp_bind, wp_assert; [by apply Z.leb_le|].
  assert (Hok1 : world_ok (mkWorld k (statics w))) by (unfold world_ok; simpl; by rewrite V2).
  destruct (Z.eqb_spec (Z.land fl FD_CLOEXEC) 0) as [H0|_]; simpl.
  - apply wp_ret. simpl. rewrite V1. split_and!; try done. by exists fl.
  - apply wp_bind, wp_call. intros r k2 Hk2. simpl in Hk2.
    assert (Hopen : is_Some (fds k !! fd)) by (rewrite V1, Hfl; by eexists).
    assert (Hnn : 0 <= Z.land fl (Z.lnot FD_CLOEXEC)) by (apply Z.land_nonneg; by left).
    rewrite (setfd_result _ _ _ _ _ Hk2 Hopen Hnn).
    destruct (setfd_spec _ _ _ _ _ Hk2 Hopen Hnn) as [Hf [He _]].
    apply wp_assert; [done|]. simpl. rewrite Hf, V1. split_and!.
    + eexists. split; [apply lookup_insert_eq|apply ldiff_land_0].
    + intros f Hne. by apply lookup_insert_ne.
    + congruence.
    + unfold world_ok in *. simpl in *. by rewrite He.
Qed.

Lemma inherited_eq (t t' : gmap Z Z) f : t !! f = t' !! f -> inherited t f <-> inherited t' f.
Proof. intros He. unfold inherited. by rewrite He. Qed.

Lemma inherited_open (t : gmap Z Z) f : inherited t f -> is_Some (t !! f).
Proof. intros (fl & Hfl & _). by exists fl. Qed.

(** Unsetting the flag of one descriptor after the other. *)
Lemma unset_more l fd (w w1 : World K) :
  (forall f, f ∈ l -> inherited (fds (kern w1)) f) ->
  (forall f, is_Some (fds (kern w1) !! f) <-> is_Some (fds (kern w) !! f)) ->
  env (kern w1) = env (kern w) -> world_ok w1 -> is_Some (fds (kern w) !! fd) ->
  wp (unset_cloexec fd) (fun _ w2 =>
    (forall f, f ∈ fd :: l -> inherited (fds (kern w2)) f) /\
    (forall f, is_Some (fds (kern w2) !! f) <-> is_Some (fds (kern w) !! f)) /\
    env (kern w2) = env (kern w) /\ world_ok w2) w1.
Proof.
  intros Hl Hs He Hok Hfd.
  eapply wp_mono; [apply unset_cloexec_spec; [by apply Hs|done]|].
  intros [] w2 (H1 & H2 & H3 & H4). split_and!; [| |congruence|done].
  - intros f Hin. destruct (decide (f = fd)) as [->|Hne]; [done|].
    apply (inherited_eq _ (fds (kern w1))); [auto|]. apply Hl.
    by apply elem_of_cons in Hin as [?|?].
  - intros f. rewrite <- Hs. destruct (decide (f = fd)) as [->|Hne]; [|by rewrite H2].
    split; intros _; [by apply Hs|by apply inherited_open].
Qed.

Lemma file_open_root_spec (w : World K) fd w' :
  file_open_root w = Done (fd, w') -> world_ok w ->
  is_Some (fds (kern w') !! fd) /\ world_ok w' /\
  forall f, is_Some (fds (kern w) !! f) -> is_Some (fds (kern w') !! f).
Proof.
  intros Hrun Hok. unfold file_open_root, libc_open in Hrun.
  apply ST_bind_Done in Hrun as (r & w1 & Hc & Hr). unfold call in Hc.
  destruct (sys_open _ _ (kern w)) as [d k] eqn:Hk. injection Hc as <- <-.
  destruct (Z.ltb_spec d 0); [done|]. injection Hr as <- <-. simpl.
  destruct (open_spec _ _ _ _ _ Hk) as [[? _]|(_ & _ & He & [fl Hfl] & _)]; [lia|].
  rewrite Hfl. split_and!.
  - rewrite lookup_insert_eq. by eexists.
  - unfold world_ok in *. simpl. by rewrite He.
  - intros f Hf. destruct (decide (f = d)) as [->|];
      [rewrite lookup_insert_eq; by eexists|by rewrite lookup_insert_ne].
Qed.
End command_spec.

(** ** Properties *)

Section properties.
Context `{C : Config, !ConfigOk C} {K : Type} `{SK : Sys K} `{KV : KernelView K}
  {KS : KernelSpec K}.

(** C23. The closure that the documentation of the crate and its example run
    before [execve] does the same on macOS and iOS, where it marks descriptors,
    as elsewhere, where it closes them: of the descriptors the command would
    inherit, it inherits exactly the standard ones and the kept ones. *)
Theorem pre_exec_correct fuel l w :
  enough_fuel fuel -> slice_ok l -> world_ok w ->
  (forall f, is_Some (fds (kern w) !! f) -> f <= scan_limit (env (kern w))) ->
  wp (pre_exec fuel l) (fun _ w' => forall f,
    inherited (fds (kern w')) f <-> inherited (fds (kern w)) f /\ (f < 3 \/ f ∈ l)) w.
Proof. apply pre_exec_spec. Qed.

(** C22. The example program, once it has opened its three files, does not
    panic, and the command it starts inherits, besides the standard streams, the
    first and the third file and nothing else. *)
Theorem command_close_correct fuel w f1 f2 f3 w0 :
  enough_fuel fuel -> world_ok w -> main_open w = Done ((f1, f2, f3), w0) ->
  (forall f, is_Some (fds (kern w0) !! f) -> f <= scan_limit (env (kern w0))) ->
  wp (main_rest fuel f1 f2 f3) (fun _ w' => forall f, 3 <= f ->
    inherited (fds (kern w')) f <-> f = f1 \/ f = f3) w0.
Proof.
  intros Hf Hok Hopen Hlim. unfold main_open in Hopen.
  apply ST_bind_Done in Hopen as (d1 & w1 & H1 & Hopen).
  apply ST_bind_Done in Hopen as (d2 & w2 & H2 & Hopen).
  apply ST_bind_Done in Hopen as (d3 & w3 & H3 & [= -> -> -> ->]).
  apply file_open_root_spec in H1 as (O1 & Hok1 & M1); [|done].
  apply file_open_root_spec in H2 as (O2 & Hok2 & M2); [|done].
  apply file_open_root_spec in H3 as (O3 & Hok3 & M3); [|done].
  unfold main_rest.
  apply wp_bind. eapply wp_mono; [apply (unset_more [] f1 w0 w0); auto|].
  { intros f []%not_elem_of_nil. }
  intros [] v1 (I1 & S1 & E1 & K1).
  apply wp_bind. eapply wp_mono; [apply (unset_more [f1] f2 w0 v1); auto|].
  intros [] v2 (I2 & S2 & E2 & K2).
  apply wp_bind. eapply wp_mono; [apply (unset_more [f2; f1] f3 w0 v2); auto|].
  intros [] v3 (I3 & S3 & E3 & K3).
  assert (Hin : forall f, f ∈ sort_unstable [f1; f3] <-> f = f1 \/ f = f3).
  { intros f. unfold sort_unstable. rewrite (merge_sort_Permutation Z.le [f1; f3]).
    rewrite !elem_of_cons, elem_of_nil. tauto. }
  eapply wp_mono; [apply pre_exec_spec; [done| |done|]|].
  - constructor; [apply Forall_forall|]; [intros f|intros]; rewrite Hin; intros Hx;
      assert (Hs : is_Some (fds (kern w0) !! f1) /\ is_Some (fds (kern w0) !! f3)) by auto;
      destruct Hs as [[x1 Hx1%fds_wf] [x3 Hx3%fds_wf]]; unfold i32_MIN, i32_MAX in *; lia.
  - intros f Hs. rewrite E3. by apply Hlim, S3.
  - intros [] w' Hi f H3f. rewrite Hi. unfold spared. rewrite Hin. split; [lia|].
    intros Hx. split; [|by right]. apply I3. rewrite !elem_of_cons. tauto.
Qed.
End properties.
