(* ===== verification/Lib.v ===== *)
(** * src/lib.rs

    [probe_features], the only function of the crate root. *)

From S2P Require Import Prelude Platform Ints Sys KernelSpec Util IterFds Visit Close Cloexec CloseFds.

Section lib.
Context `{C : Config} {K : Type} `{SK : Sys K}.

Definition probe_features_imp : ST (World K) unit :=
  if cfg_any [linux; freebsd] target then
    probed ← load PROBED;
    if (probed : bool) then mret tt
    else
      store (store_PROBED true);;
      closefds_probe;;
      iterfds_probe
  else mret tt.

Definition probe_features : ST (World K) unit := probe_features_imp.
End lib.

(** ** What probing leaves alone *)

Section probed.
Context `{C : Config} {K : Type} `{SK : Sys K} `{KV : KernelView K} {KS : KernelSpec K}.

(** [m] does not touch the static [PROBED]. *)
Definition keeps_probed {A} (m : ST (World K) A) : Prop :=
  forall w a w', m w = Done (a, w') -> PROBED (statics w') = PROBED (statics w).

Lemma keeps_ret {A} (a : A) : keeps_probed (mret a).
Proof. by intros w ? ? [= _ <-]. Qed.

Lemma keeps_bind {A B} (m : ST (World K) A) (f : A -> ST (World K) B) :
  keeps_probed m -> (forall a, keeps_probed (f a)) -> keeps_probed (m ≫= f).
Proof.
  intros Hm Hf w b w2. unfold mbind, ST_bind. destruct (m w) as [[a w1]| | | |] eqn:Hw; try done.
  intros H2. by rewrite (Hf _ _ _ _ H2), (Hm _ _ _ Hw).
Qed.

Lemma keeps_call {A} (f : K -> A * K) : keeps_probed (call f).
Proof. intros w a w'. unfold call. destruct (f (kern w)). by intros [= _ <-]. Qed.

Lemma keeps_call_or_die {A} (f : K -> option A * K) : keeps_probed (call_or_die f).
Proof. intros w a w'. unfold call_or_die. destruct (f (kern w)) as [[?|] ?]; by intros [= ? <-]. Qed.

Lemma keeps_gets {A} (f : World K -> A) : keeps_probed (gets f).
Proof. by intros w ? ? [= _ <-]. Qed.

Lemma keeps_load {A} (f : Statics -> A) : keeps_probed (load f).
Proof. intros w a w'. rewrite load_alone. by intros [= _ <-]. Qed.

Lemma keeps_store (f : Statics -> Statics) :
  (forall s, PROBED (f s) = PROBED s) -> keeps_probed (store f).
Proof. intros Hf w a w'. rewrite store_alone. intros [= _ <-]. apply Hf. Qed.

Lemma keeps_lift {A} (o : outcome A) : keeps_probed (lift o).
Proof. intros w a w'. destruct o; by intros [= ? <-]. Qed.
End probed.

Create HintDb probed discriminated.
#[export] Hint Resolve keeps_ret keeps_call keeps_call_or_die keeps_gets keeps_lift
  : probed.
#[export] Hint Extern 1 (keeps_probed (load _)) => apply keeps_load : probed.
#[export] Hint Extern 1 (keeps_probed (store _)) => apply keeps_store; reflexivity : probed.

(** Descend into the program; the leaves are in the database. *)
Ltac keeps_probed :=
  repeat first
    [ progress auto with probed
    | apply keeps_bind; [|intros ?]
    | match goal with
      | |- keeps_probed (match ?x with _ => _ end) => destruct x
      | |- keeps_probed (if ?x then _ else _) => destruct x
      end ].

(** What is known after probing. (That it is also true is [statics_ok].) *)
Definition settled `{C : Config} (e : Env) (s : Statics) : Prop :=
  (target = linux ->
     (IS_WSL1 s = 0 \/ IS_WSL1 s = 1) /\
     (forall b, env_close_range e = Some b -> MAY_HAVE_CLOSE_RANGE s = b) /\
     (forall b, env_cloexec_range e = Some b -> MAY_HAVE_CLOSE_RANGE_CLOEXEC s = b)) /\
  (target = freebsd -> HAS_CLOSE_RANGE s = 0 \/ HAS_CLOSE_RANGE s = 1).

(** A flag that is cleared where the system has nothing is right if it is true. *)
Lemma settled_flag (o : option bool) (f : bool) :
  (f = false -> o <> Some true) -> (o = Some false -> f = false) ->
  forall b, o = Some b -> f = b.
Proof. intros Ht Hf [] Hb; [|auto]. destruct f; [done|]. by destruct (Ht eq_refl). Qed.

Section probe_spec.
Context `{C : Config, !ConfigOk C} {K : Type} `{SK : Sys K} `{KV : KernelView K}
  {KS : KernelSpec K}.

Lemma check_has_close_range_probed : keeps_probed check_has_close_range.
Proof. unfold check_has_close_range. keeps_probed. Qed.

Lemma closefds_probe_probed : keeps_probed closefds_probe.
Proof.
  pose proof check_has_close_range_probed.
  unfold closefds_probe, close_probe, cloexec_probe, set_cloexec_range, get_errno. keeps_probed.
Qed.

Lemma iterfds_probe_probed : keeps_probed iterfds_probe.
Proof. unfold iterfds_probe, is_wsl_1. keeps_probed. Qed.
End probe_spec.

Section probe_features.
Context `{C : Config, !ConfigOk C} {K : Type} `{SK : Sys K} `{KV : KernelView K}
  {KS : KernelSpec K}.

Lemma probe_features_spec w :
  world_ok w ->
  wp probe_features (fun _ w' =>
    fds (kern w') = fds (kern w) /\ env (kern w') = env (kern w) /\ world_ok w' /\
    (PROBED (statics w) = false -> settled (env (kern w)) (statics w'))) w.
Proof.
  intros Hok. unfold probe_features, probe_features_imp, settled.
  destruct (cfg_any _ _) eqn:Ht; last first.
  { apply wp_ret. split_and!; [done..|]. intros _.
    by split; intros He; rewrite He in Ht. }
  apply wp_bind, wp_load. destruct (PROBED _) eqn:Hp; [by apply wp_ret|].
  apply wp_bind, wp_store, wp_bind. unfold closefds_probe. apply wp_bind.
  assert (world_ok (mkWorld (kern w) (store_PROBED true (statics w)))) as Hok0.
  { by apply store_probed. }
  eapply wp_mono; [by apply close_probe_spec|]. intros [] w1 (F1 & [E1 _] & Hok1 & M1 & H1).
  eapply wp_mono; [by apply cloexec_probe_spec|]. intros [] w2 (F2 & [E2 _] & Hok2 & H2 & M2 & C2).
  simpl in *. unfold iterfds_probe. case_decide as Hl.
  - apply wp_bind. eapply wp_mono; [by apply is_wsl_1_spec|].
    intros b w3 (_ & (F3 & E3 & _) & Hs & Hok3 & _). apply wp_ret.
    split_and!; [congruence|congruence|done|]. intros _. split; [|congruence].
    intros _. rewrite Hs. simpl. split_and!; [destruct b; [by right|by left]|..].
    + apply settled_flag; [|intros Hb; rewrite M2; auto]. rewrite <- E1, <- E2.
      apply (statics_close_range _ _ Hok2).
    + rewrite E1 in C2. apply settled_flag; [|auto]. rewrite <- E1, <- E2.
      apply (statics_cloexec_range _ _ Hok2).
  - apply wp_ret. split_and!; [congruence|congruence|done|]. intros _.
    split; [done|]. intros Hf. rewrite H2. auto.
Qed.
End probe_features.

(** ** Properties *)

Section properties.
Context `{C : Config, !ConfigOk C} {K : Type} `{SK : Sys K} `{KV : KernelView K}
  {KS : KernelSpec K}.

(** C36. [probe_features] changes no descriptor, on any target, and what it
    remembers is true of the system ([world_ok]). The first call settles what can
    be asked: on Linux whether this is WSL 1, and whether [close_range] works and
    knows its flag (unless the system is of two minds about them); on FreeBSD
    whether there is a [close_range]. *)
Theorem probe_features_correct w :
  world_ok w ->
  wp probe_features (fun _ w' =>
    fds (kern w') = fds (kern w) /\ env (kern w') = env (kern w) /\ world_ok w' /\
    (PROBED (statics w) = false -> settled (env (kern w)) (statics w'))) w.
Proof. apply probe_features_spec. Qed.

(** Probing again does nothing: whatever state a call of
    [probe_features] ends in, another call returns at once and leaves that
    state, kernel and statics, as it is. *)
Theorem probe_features_once w w' :
  probe_features w = Done (tt, w') -> probe_features w' = Done (tt, w').
Proof.
  unfold probe_features, probe_features_imp. destruct (cfg_any _ _); [|by intros [= ->]].
  intros Hw. assert (PROBED (statics w') = true) as Hp; last first.
  { unfold mbind, ST_bind. by rewrite load_alone, Hp. }
  revert Hw. unfold mbind at 1, ST_bind at 1. rewrite load_alone.
  destruct (PROBED (statics w)) eqn:Hp; [by intros [= <-]|]. intros Hw.
  assert (Hk : keeps_probed (closefds_probe;; iterfds_probe)).
  { apply keeps_bind; [apply closefds_probe_probed|]. intros _. apply iterfds_probe_probed. }
  by apply Hk in Hw.
Qed.
End properties.
