(* ===== verification/ProbeThreads.v ===== *)
(** * Probing among other threads

    [probe_features] of src/lib.rs run on [Shared K], while other threads use
    descriptors and are inside the crate themselves. *)

From S2P Require Import Prelude Platform Ints Sys KernelSpec Util IterFds Threads IterThreads KeepFds Visit LoopThreads Close Cloexec CloseFds CloexecThreads CloseThreads Lib.

Section probing.
Context `{C : Config, !ConfigOk C} {K : Type} `{SK : Sys K} `{KV : KernelView K}
  {KS : KernelSpec K} {R : Rely}.

(** The inverted range of [close::probe] closes nothing. *)
Lemma probe_range_threads (Q : Z -> World (Shared K) -> Prop) w :
  target = linux -> threads_ok (kern w) ->
  (forall r w', idles w w' -> r <> 0 ->
     (env_close_range (world_env w) = Some true -> errno_get (kern w') = EINVAL) -> Q r w') ->
  wp (call_or_die (sys_close_range u32_MAX (u32_MAX - 1) 0)) Q w.
Proof.
  intros Ht Hok HQ. destruct (turn_evolves _ Hok) as (Hev & _ & _). pose proof (ev_ok _ _ Hev) as O.
  apply wp_call_or_die. intros r s2. simpl. unfold after.
  destruct (sys_close_range u32_MAX (u32_MAX - 1) 0 (base (turn (kern w)))) as [r' k'] eqn:Hk.
  intros [= -> <-]. destruct r as [r|]; last first.
  { exfalso. eapply close_range_survives; [by left|exact Hk]. }
  exists r. split; [done|]. destruct (close_range_spec _ _ _ _ _ Hk) as (Hfr & H0 & H1).
  assert (Hr : r <> 0) by (intros Hr; apply H0 in Hr as [Hle _]; unfold u32_MAX in Hle; lia).
  rewrite decide_False by (intros [[= ?] _]; done).
  apply HQ; [|done|].
  - apply quietly_idles. split; [|done]. eapply evolves_trans; [exact Hev|].
    apply same_view_evolves; [done|]. split; [by apply H1|done].
  - intros He. eapply (close_range_present (K := K)); [done| |exact Hk|unfold u32_MAX; lia].
    by rewrite (ev_env _ _ Hev).
Qed.

Lemma close_probe_threads w :
  threads_ok (kern w) -> statics_ok (world_env w) (statics w) ->
  wp close_probe (fun _ w' => idles w w') w.
Proof.
  intros Hok Hst. unfold close_probe.
  destruct target eqn:Ht; try (apply wp_ret; by apply idles_refl).
  - apply wp_bind, probe_range_threads; [done|done|]. intros r w1 Hw1 Hr He.
    rewrite (proj2 (Z.eqb_neq r 0)) by done. apply wp_bind, wp_bind, wp_gets, wp_ret.
    change (@EINVAL (Shared K) _) with (@EINVAL K _) in *.
    destruct (Z.eqb_spec (errno_get (kern w1)) EINVAL) as [Hi|Hi]; [by apply wp_ret|].
    apply wp_store_idles; [apply Hw1| |].
    + apply store_no_close_range; [by apply Hw1|]. rewrite (wk_env _ _ (proj1 Hw1)). auto.
    + intros w2 Hw2 _. by eapply idles_trans.
  - apply wp_bind. eapply wp_mono; [by apply check_has_close_range_threads|].
    intros r w1 [Hw1 _]. by apply wp_ret.
Qed.

Lemma cloexec_probe_threads w :
  threads_ok (kern w) -> statics_ok (world_env w) (statics w) ->
  wp cloexec_probe (fun _ w' => idles w w') w.
Proof.
  intros Hok Hst. unfold cloexec_probe. case_decide as Ht; [|apply wp_ret; by apply idles_refl].
  apply wp_bind. eapply wp_mono; [apply set_cloexec_range_threads; try done; unfold u32_MAX; lia|].
  intros r w1 [Hw Hr]. apply wp_ret. split; [done|]. destruct r as [[]|]; [|done].
  apply map_eq. intros f. rewrite (Hr f). case_decide; [|done].
  rewrite held_high; [done|]. unfold i32_MAX, u32_MAX in *. lia.
Qed.

Lemma probe_features_threads w :
  threads_ok (kern w) -> statics_ok (world_env w) (statics w) ->
  wp probe_features (fun _ w' => goes_on w w' /\ mine (kern w') = mine (kern w)) w.
Proof.
  intros Hok Hst. unfold probe_features, probe_features_imp.
  assert (Hend : forall w', idles w w' -> goes_on w w' /\ mine (kern w') = mine (kern w)).
  { intros w' Hw. split; [by apply idles_goes_on|apply Hw]. }
  destruct (cfg_any _ _); [|apply wp_ret, Hend; by apply idles_refl].
  apply wp_bind, wp_load_works; [done|]. intros w1 Hw1 Hh1.
  assert (Hi1 : idles w w1) by done. pose proof (wk_statics _ _ Hw1 Hst) as Hst1.
  destruct (PROBED _); [by apply wp_ret, Hend|].
  apply wp_bind, wp_store_idles; [apply Hw1|by apply store_probed|].
  intros w2 Hw2 _. pose proof (idles_trans _ _ _ Hi1 Hw2) as Hi2.
  unfold closefds_probe. apply wp_bind, wp_bind.
  eapply wp_mono; [apply close_probe_threads; [apply Hw2|by apply Hi2]|].
  intros [] w3 Hw3. pose proof (idles_trans _ _ _ Hi2 Hw3) as Hi3.
  eapply wp_mono; [apply cloexec_probe_threads; [apply Hw3|by apply Hi3]|].
  intros [] w4 Hw4. pose proof (idles_trans _ _ _ Hi3 Hw4) as Hi4.
  unfold iterfds_probe. case_decide; [|by apply wp_ret, Hend].
  apply wp_bind. eapply wp_mono; [apply is_wsl_1_threads; [apply Hw4|by apply Hi4]|].
  intros b w5 (Hg5 & Hm5 & _). apply wp_ret. destruct (Hend _ Hi4) as [Hg4 Hm4].
  split; [by eapply goes_on_trans|congruence].
Qed.
End probing.

(** ** Properties *)

Section properties.
Context `{C : Config, !ConfigOk C} {K : Type} `{SK : Sys K} `{KV : KernelView K}
  {KS : KernelSpec K}.

(** C37. [probe_features] may be called from several threads and while other
    threads use descriptors: it returns, opens nothing and closes nothing,
    leaves every descriptor that the others leave alone as it was, what it finds
    in the statics afterwards is true of the system, and so is all it has stored
    there. *)
Theorem probe_among_threads {R : Rely} w :
  threads_ok (kern w) -> statics_ok (env (base (kern w))) (statics w) ->
  wp probe_features (fun _ w' =>
    mine (kern w') = mine (kern w) /\
    (forall f, stay f -> is_Some (fds (base (kern w')) !! f) /\
       (still f -> fds (base (kern w')) !! f = fds (base (kern w)) !! f)) /\
    statics_ok (env (base (kern w))) (statics w') /\
    Forall (statics_ok (env (base (kern w)))) (published (kern w'))) w.
Proof.
  intros Hok Hst. eapply wp_mono; [by apply probe_features_threads|].
  intros [] w' [Hg Hm]. pose proof Hg as (O & E & S & _ & H).
  split_and!; [done| |unfold world_env in *; by rewrite E in S|by apply goes_on_published].
  intros f Hs. split; [by apply (to_stay _ O)|]. intros Ht.
  pose proof (held_lookup (base (kern w)) f) as H1.
  pose proof (held_lookup (base (kern w')) f) as H2.
  rewrite decide_True in H1, H2 by done. congruence.
Qed.
End properties.
