(* ===== verification/IntegrationTests.v ===== *)
(** * The integration tests: tests/test_close_fds.rs

    The tests that use the crate from outside, as programs with their
    assertions. Shown.v has what they see of the crate's operations, TestsPass.v
    the proof that they pass. *)

From S2P Require Import Prelude Platform Ints Sys KernelSpec Util DirFdIter FdIter IterFds SizeHint IterTests KeepFds Visit Close Cloexec CloseFds Lib.

(** ** Definitions *)

Section tests.
Context `{C : Config} {K : Type} `{SK : Sys K}.

(** [for x in l { body(x) }] *)
Fixpoint each {A} (body : A -> ST (World K) unit) (l : list A) : ST (World K) unit :=
  match l with
  | [] => mret tt
  | x :: l => body x;; each body l
  end.

(** [fcntl(fd, F_GETFD)] and its uses in the tests. *)
Definition is_fd_open (fd : Z) : ST (World K) bool :=
  r ← call (sys_fcntl_getfd fd); mret (0 <=? r).

Definition set_fd_cloexec (fd : Z) (cloexec : bool) : ST (World K) unit :=
  flags ← call (sys_fcntl_getfd fd);
  if flags <? 0 then mret tt
  else
    let flags := if cloexec then Z.lor flags FD_CLOEXEC
                 else Z.land flags (Z.lnot FD_CLOEXEC) in
    _ ← call (sys_fcntl_setfd fd flags); mret tt.

Definition is_fd_cloexec (fd : Z) : ST (World K) (option bool) :=
  flags ← call (sys_fcntl_getfd fd);
  mret (if flags <? 0 then None
        else if Z.land flags FD_CLOEXEC =? FD_CLOEXEC then Some true
        else Some false).

(** [assert_eq!(is_fd_cloexec(fd), v)] *)
Definition assert_cloexec (v : option bool) (fd : Z) : ST (World K) unit :=
  c ← is_fd_cloexec fd; assert (bool_decide (c = v)).

Fixpoint check_sorted_loop (last_item : option Z) (items : list Z) : ST (World K) unit :=
  match items with
  | [] => mret tt
  | item :: items =>
      (match last_item with Some last_item => assert (last_item <=? item) | None => mret tt end);;
      check_sorted_loop (Some item) items
  end.
Definition check_sorted (items : list Z) : ST (World K) unit := check_sorted_loop None items.

(** [assert!(fds.contains(&fd))] where the second component is [true],
    [assert!(!fds.contains(&fd))] where it is [false]. *)
Definition contains (fds : list Z) (expected : list (Z * bool)) : ST (World K) unit :=
  each (fun p => assert (bool_decide (bool_decide (p.1 ∈ fds) = p.2))) expected.

(** [File::open("/").unwrap()], whose descriptor is close-on-exec. *)
Definition file_open : ST (World K) Z :=
  fd ← libc_open "/" [O_RDONLY; O_CLOEXEC]; assert (0 <=? fd);; mret fd.

Abbreviation callback := (Z -> Z -> Z -> CloseFdsBuilder -> ST (World K) unit).

(** Dropping a [File] closes it. *)
Definition run_basic_test (callback : callback) (builder : CloseFdsBuilder)
  : ST (World K) unit :=
  fd1 ← file_open;
  fd2 ← file_open;
  fd3 ← file_open;
  libc_close fd3;;
  o ← is_fd_open fd1; assert o;;
  o ← is_fd_open fd2; assert o;;
  o ← is_fd_open fd3; assert (negb o);;
  callback fd1 fd2 fd3 builder;;
  libc_close fd2;; libc_close fd1.

(** Collecting an iterator and looking at the list. *)
Definition collect_check (fuel : nat) (b : FdIterBuilder) (minfd : Z)
    (expected : list (Z * bool)) : ST (World K) (list Z) :=
  fds ← iterate fuel b minfd; check_sorted fds;; contains fds expected;; mret fds.

(** [builder.iter_from(minfd).count()] *)
Definition count (fuel : nat) (b : FdIterBuilder) (minfd : Z) : ST (World K) Z :=
  it ← iter_from b minfd;
  r ← count_by_ref fuel fuel it 0;
  let '(c, it) := (r : Z * FdIter) in
  drop_fditer it;; mret c.

(** The three [assert_eq!]s on the methods of the iterator. *)
Definition methods_check (fuel : nat) (b : FdIterBuilder) (fds : list Z) : ST (World K) unit :=
  m ← (it ← iter_from b (-1); FdIter.min fuel it); assert (bool_decide (m = Some 0));;
  m ← (it ← iter_from b (-1); FdIter.max fuel fuel it); assert (bool_decide (m = last fds));;
  c ← count fuel b (-1); assert (c =? Z.of_nat (length fds)).

(** [fs] and [threadsafe] *)
Definition settings : list (bool * bool) :=
  [(true, true); (true, false); (false, true); (false, false)].

Definition iter_open_fds_test (fuel : nat) : callback := fun fd1 fd2 fd3 _ =>
  each (fun s =>
    let builder := set_threadsafe s.2 (set_allow_filesystem s.1 fd_iter_builder_new) in
    fds ← collect_check fuel builder (-1)
            [(-1, false); (0, true); (fd1, true); (fd2, true); (fd3, false)];
    methods_check fuel builder fds;;
    _ ← collect_check fuel builder 0 [(0, true); (fd1, true); (fd2, true); (fd3, false)];
    _ ← collect_check fuel builder fd1 [(0, false); (fd1, true); (fd2, true); (fd3, false)];
    _ ← collect_check fuel builder fd2 [(0, false); (fd1, false); (fd2, true); (fd3, false)];
    _ ← collect_check fuel builder fd3 [(0, false); (fd1, false); (fd2, false); (fd3, false)];
    mret tt) settings.

Definition iter_possible_fds_test (fuel : nat) : callback := fun fd1 fd2 fd3 _ =>
  each (fun s =>
    let builder := set_possible true
      (set_threadsafe s.2 (set_allow_filesystem s.1 fd_iter_builder_new)) in
    fds ← collect_check fuel builder (-1) [(-1, false); (0, true); (fd1, true); (fd2, true)];
    methods_check fuel builder fds;;
    _ ← collect_check fuel builder 0 [(0, true); (fd1, true); (fd2, true)];
    _ ← collect_check fuel builder fd1 [(0, false); (fd1, true); (fd2, true)];
    _ ← collect_check fuel builder fd2 [(0, false); (fd1, false); (fd2, true)];
    _ ← collect_check fuel builder fd3 [(0, false); (fd1, false); (fd2, false)];
    mret tt) settings.

(** The shape of the four tests of closing: [b] is the builder with its list. *)
Definition close_test (fuel : nat) (b : outcome CloseFdsBuilder) (fd1 fd2 fd3 : Z)
    (left1 left2 : bool) : ST (World K) unit :=
  _ ← collect_check fuel fd_iter_builder_new fd1 [(fd1, true); (fd2, true); (fd3, false)];
  b ← lift b; closefrom fuel b fd1;;
  _ ← collect_check fuel fd_iter_builder_new fd1 [(fd1, left1); (fd2, left2); (fd3, false)];
  mret tt.

Definition close_fds_test (fuel : nat) : callback := fun fd1 fd2 fd3 builder =>
  close_test fuel (keep_fds [0] builder) fd1 fd2 fd3 false false.
Definition close_fds_keep1_test (fuel : nat) : callback := fun fd1 fd2 fd3 builder =>
  close_test fuel (keep_fds [fd1; fd3] builder) fd1 fd2 fd3 true false.
Definition close_fds_keep2_test (fuel : nat) : callback := fun fd1 fd2 fd3 builder =>
  close_test fuel (keep_fds [fd2; fd3] builder) fd1 fd2 fd3 false true.
Definition close_fds_keep3_test (fuel : nat) : callback := fun fd1 fd2 fd3 builder =>
  close_test fuel (Done (keep_fds_sorted [fd2] builder)) fd1 fd2 fd3 false true.

(** *** [large_open_fds_test] *)

(** The first loop: [n] files, with a check of the two functions above. *)
Fixpoint open_checked (n : nat) : ST (World K) (list Z) :=
  match n with
  | O => mret []
  | S n' =>
      fd ← file_open;
      assert_cloexec (Some true) fd;;
      set_fd_cloexec fd false;; assert_cloexec (Some false) fd;;
      set_fd_cloexec fd true;; assert_cloexec (Some true) fd;;
      fds ← open_checked n'; mret (fd :: fds)
  end.

(** [Vec::remove] for each index in turn: what is removed, in that order, and
    what is left. *)
Fixpoint remove_all (indices : list nat) (v : list Z) : ST (World K) (list Z * list Z) :=
  match indices with
  | [] => mret ([], v)
  | index :: indices =>
      match v !! index with
      | None => panic
      | Some fd =>
          r ← remove_all indices (delete index v);
          let '(removed, v) := (r : list Z * list Z) in mret (fd :: removed, v)
      end
  end.

(** The loop that removes and closes a few: what is left, and what it closed. *)
Fixpoint close_few (indices : list nat) (openfds closedfds : list Z)
  : ST (World K) (list Z * list Z) :=
  match indices with
  | [] => mret (openfds, closedfds)
  | index :: indices =>
      match openfds !! index with
      | None => panic
      | Some fd =>
          libc_close fd;; assert_cloexec None fd;;
          close_few indices (delete index openfds) (closedfds ++ [fd])
      end
  end.

(** "Check that our expectations of which should be open and which should be
    closed are correct" *)
Definition check_expectations (fuel : nat) (lowfd : Z) (openfds closedfds : list Z)
  : ST (World K) unit :=
  cur_open_fds ← iterate fuel fd_iter_builder_new lowfd;
  check_sorted cur_open_fds;;
  each (fun fd => assert_cloexec (Some true) fd;; contains cur_open_fds [(fd, true)]) openfds;;
  each (fun fd => assert_cloexec None fd;; contains cur_open_fds [(fd, false)]) closedfds.

(** All are set to non-close-on-exec, marked by [builder] and checked. *)
Definition mark_all (fuel : nat) (lowfd : Z) (openfds : list Z) (builder : CloseFdsBuilder)
  : ST (World K) unit :=
  each (fun fd => set_fd_cloexec fd false;; assert_cloexec (Some false) fd) openfds;;
  cloexecfrom fuel builder lowfd;;
  each (assert_cloexec (Some true)) openfds.

(** The same with a list of descriptors to leave. *)
Definition mark_some (fuel : nat) (lowfd : Z) (openfds extra_closedfds : list Z)
    (builder : CloseFdsBuilder) : ST (World K) unit :=
  each (fun fd => set_fd_cloexec fd false) (openfds ++ extra_closedfds);;
  b ← lift (keep_fds openfds builder); cloexecfrom fuel b lowfd;;
  each (assert_cloexec (Some false)) openfds;;
  each (assert_cloexec (Some true)) extra_closedfds.

(** All but a list are closed. *)
Definition close_all_but (fuel : nat) (lowfd : Z) (openfds closedfds : list Z)
    (builder : CloseFdsBuilder) : ST (World K) unit :=
  b ← lift (keep_fds openfds builder); closefrom fuel b lowfd;;
  cur_open_fds ← iterate fuel fd_iter_builder_new lowfd;
  check_sorted cur_open_fds;;
  contains cur_open_fds ((fun fd => (fd, true)) <$> openfds);;
  contains cur_open_fds ((fun fd => (fd, false)) <$> closedfds);;
  again ← iterate fuel (set_threadsafe true fd_iter_builder_new) lowfd;
  assert (bool_decide (cur_open_fds = again));;
  each libc_close openfds.

Definition sort_unstable (l : list Z) : list Z := merge_sort Z.le l.

Definition large_open_fds_test (fuel : nat) (mangle_keep_fds : list Z -> list Z)
    (builder : CloseFdsBuilder) : ST (World K) unit :=
  openfds ← open_checked 150;
  lowfd ← (match openfds with fd :: _ => mret fd | [] => panic end);
  r ← close_few [140; 110; 100; 75; 10]%nat openfds [];
  let '(openfds, closedfds) := (r : list Z * list Z) in
  check_expectations fuel lowfd openfds closedfds;;
  mark_all fuel lowfd openfds builder;;
  mark_all fuel lowfd openfds (threadsafe true builder);;
  r ← remove_all [130; 110; 90; 89; 65; 34; 21; 3]%nat (sort_unstable openfds);
  let '(openfds, extra_closedfds) := (r : list Z * list Z) in
  let closedfds := closedfds ++ extra_closedfds in
  let openfds := mangle_keep_fds openfds in
  mark_some fuel lowfd openfds extra_closedfds builder;;
  mark_some fuel lowfd openfds extra_closedfds (threadsafe true builder);;
  close_all_but fuel lowfd openfds closedfds builder.

(** *** [run_tests] and the child of [run_no_fds_tests] *)

(** The callbacks, in the order of the test; [shuffle] is what
    [sort_unstable_by] does with a comparison that is not an order. *)
Definition one_setting (fuel : nat) (shuffle : list Z -> list Z) (callbacks : list callback)
    (s : bool * bool) : ST (World K) unit :=
  let builder := CloseFds.threadsafe s.2 (allow_filesystem s.1 close_fds_builder_new) in
  each (fun c => run_basic_test c builder) callbacks;;
  large_open_fds_test fuel sort_unstable builder;;
  large_open_fds_test fuel id builder;;
  large_open_fds_test fuel shuffle builder.

(** The end of the test: only the standard streams are left. *)
Definition standard_streams (fuel : nat) (minfd : Z) (keep : list Z) : ST (World K) unit :=
  close_open_fds fuel minfd keep;;
  fds ← iterate fuel fd_iter_builder_new 0; assert (bool_decide (fds = [0; 1; 2])).

Definition run_tests_with (fuel : nat) (shuffle : list Z -> list Z) (callbacks : list callback)
  : ST (World K) unit :=
  each (fun _ : nat => each (one_setting fuel shuffle callbacks) settings;; probe_features)
    [0; 1; 2]%nat;;
  standard_streams fuel 3 [];;
  standard_streams fuel 0 [0; 1; 2];;
  standard_streams fuel (-1) [0; 1; 2].

Definition run_tests (fuel : nat) (shuffle : list Z -> list Z) : ST (World K) unit :=
  run_tests_with fuel shuffle
    [iter_open_fds_test fuel; iter_possible_fds_test fuel; close_fds_test fuel;
     close_fds_keep1_test fuel; close_fds_keep2_test fuel; close_fds_keep3_test fuel].

(** The exit status of the child. *)
Definition no_fds_child (fuel : nat) : ST (World K) Z :=
  close_open_fds fuel 0 [];;
  fditer ← iter_open_fds 0;
  r ← next fuel fditer;
  let '(o, fditer) := (r : option Z * FdIter) in
  if bool_decide (is_Some o) then mret 1 else
  fd ← libc_open "/" [O_RDONLY];
  if fd <? 0 then mret 2 else
  it ← iter_open_fds 0;
  r ← next fuel it;
  let '(o, it) := (r : option Z * FdIter) in
  drop_fditer it;;
  if negb (bool_decide (o = Some 0)) then mret 3 else
  r ← next fuel fditer;
  let '(o, fditer) := (r : option Z * FdIter) in
  if bool_decide (is_Some o) then mret 4 else
  h ← lift (size_hint fuel fditer);
  if negb (bool_decide (h = (0, Some 0))) then mret 5 else
  r ← count_by_ref fuel fuel fditer 0;
  let '(c, fditer) := (r : Z * FdIter) in
  drop_fditer fditer;;
  if negb (c =? 0) then mret 6 else
  mret 0.
End tests.
