(* ===== verification/Shown.v ===== *)
(** * What the integration tests see

    The tests look at the table through [fcntl], as descriptors that are open or
    not, close-on-exec or not. Here every operation they use, the crate's and
    their own, is specified on that view. *)

From S2P Require Import Prelude Platform Ints Sys KernelSpec Util DirFdIter FdIter IterFds SizeHint IterTests KeepFds Visit Close Cloexec CloseFds Lib IntegrationTests.

(** ** What the tests see of the table *)

Section seen.
Context `{C : Config, !ConfigOk C} {K : Type} `{SK : Sys K} `{KV : KernelView K}
  {KS : KernelSpec K}.

(** Whether a descriptor is open, and then whether it is close-on-exec. *)
Definition shown (w : World K) (f : Z) : option bool :=
  (fun fl => bool_decide (Z.land fl FD_CLOEXEC = FD_CLOEXEC)) <$> fds (kern w) !! f.

(** The tests see [F] on a system with the constants [e], and no descriptor is
    beyond the limit of the fallback loop. *)
Record showing (e : Env) (F : Z -> option bool) (w : World K) : Prop := {
  sh_ok : world_ok w;
  sh_env : env (kern w) = e;
  sh_shown : forall f, shown w f = F f;
  sh_bound : forall f, is_Some (F f) -> 0 <= f <= scan_limit e;
}.

Lemma shown_open w f : is_Some (shown w f) <-> is_Some (fds (kern w) !! f).
Proof. apply fmap_is_Some. Qed.

Lemma showing_open e F w f : showing e F w -> is_Some (fds (kern w) !! f) <-> is_Some (F f).
Proof. intros H. by rewrite <- (sh_shown _ _ _ H), shown_open. Qed.

Lemma showing_closed e F w f : showing e F w -> fds (kern w) !! f = None <-> F f = None.
Proof.
  intros H. by rewrite !eq_None_not_Some, (showing_open e F w).
Qed.

Lemma showing_ext e F G w : showing e F w -> (forall f, F f = G f) -> showing e G w.
Proof.
  intros [H1 H2 H3 H4] HG. constructor; [done|done| |]; intros f; rewrite <- HG; auto.
Qed.

(** What does not change the table changes nothing that is seen. *)
Lemma showing_same e F (w w' : World K) :
  showing e F w -> fds (kern w') = fds (kern w) -> env (kern w') = env (kern w) ->
  world_ok w' -> showing e F w'.
Proof.
  intros [H1 H2 H3 H4] Hf He Hok. constructor; [done|congruence| |done].
  intros f. rewrite <- H3. unfold shown. by rewrite Hf.
Qed.

Lemma showing_bound e F w f :
  showing e F w -> is_Some (fds (kern w) !! f) -> f <= scan_limit (env (kern w)).
Proof.
  intros H Hf. rewrite (sh_env _ _ _ H). apply (sh_bound _ _ _ H). by apply (showing_open e F w).
Qed.

Lemma showing_start w :
  world_ok w -> (forall f, is_Some (fds (kern w) !! f) -> f <= scan_limit (env (kern w))) ->
  showing (env (kern w)) (shown w) w.
Proof.
  intros Hok Hlim. constructor; [done..|]. intros f Hf%shown_open. split; [|auto].
  destruct Hf as [fl Hfl%fds_wf]. lia.
Qed.

(** How the operations of the tests change what is seen. *)
Definition put (fd : Z) (o : option bool) (F : Z -> option bool) (f : Z) : option bool :=
  if decide (f = fd) then o else F f.
Definition set_all (l : list Z) (b : bool) (F : Z -> option bool) (f : Z) : option bool :=
  if decide (f ∈ l) then (fun _ => b) <$> F f else F f.
Definition drop_all (l : list Z) (F : Z -> option bool) (f : Z) : option bool :=
  if decide (f ∈ l) then None else F f.
Definition marked (minfd : Z) (keep : list Z) (F : Z -> option bool) (f : Z) : option bool :=
  if decide (spared minfd keep f) then F f else (fun _ => true) <$> F f.
Definition only (minfd : Z) (keep : list Z) (F : Z -> option bool) (f : Z) : option bool :=
  if decide (spared minfd keep f) then F f else None.

Lemma set_all_open l b F f : is_Some (set_all l b F f) <-> is_Some (F f).
Proof. unfold set_all. case_decide; [|done]. apply fmap_is_Some. Qed.

(** *** The flags *)

Lemma flag_set (fl : Z) : Z.land (Z.lor fl FD_CLOEXEC) FD_CLOEXEC = FD_CLOEXEC.
Proof.
  apply Z.bits_inj'. intros n _. rewrite Z.land_spec, Z.lor_spec.
  by destruct (Z.testbit fl n), (Z.testbit FD_CLOEXEC n).
Qed.

Lemma flag_cleared (fl : Z) :
  Z.land (Z.land fl (Z.lnot FD_CLOEXEC)) FD_CLOEXEC <> FD_CLOEXEC.
Proof.
  pose proof (FD_CLOEXEC_wf (K := K)). rewrite <- Z.land_assoc.
  rewrite (Z.land_comm (Z.lnot _)), Z.land_lnot_diag, Z.land_0_r. lia.
Qed.

Lemma wp_is_fd_open e F fd w (Q : bool -> World K -> Prop) :
  showing e F w ->
  (forall w', showing e F w' -> Q (bool_decide (is_Some (F fd))) w') ->
  wp (is_fd_open fd) Q w.
Proof.
  intros H HQ. apply wp_bind, wp_call. intros r k Hk.
  destruct (getfd_spec _ _ _ _ Hk) as [-> (Hf & He & _)]. apply wp_ret.
  replace (0 <=? _) with (bool_decide (is_Some (F fd))).
  { apply HQ. apply (showing_same e F w); [done..|]. unfold world_ok. simpl. rewrite He. apply H. }
  pose proof (showing_open e F w fd H) as Ho. destruct (fds (kern w) !! fd) as [fl|] eqn:Hfl; simpl.
  - pose proof (fds_wf _ _ _ Hfl). rewrite (proj2 (Z.leb_le 0 fl)) by lia.
    apply bool_decide_eq_true, Ho. by eexists.
  - apply bool_decide_eq_false. by intros [x Hx]%Ho.
Qed.

Lemma wp_is_fd_cloexec e F fd w (Q : option bool -> World K -> Prop) :
  showing e F w -> (forall w', showing e F w' -> Q (F fd) w') ->
  wp (is_fd_cloexec fd) Q w.
Proof.
  intros H HQ. apply wp_bind, wp_call. intros r k Hk.
  destruct (getfd_spec _ _ _ _ Hk) as [-> (Hf & He & _)]. apply wp_ret.
  replace (if _ <? 0 then _ else _) with (F fd).
  { apply HQ. apply (showing_same e F w); [done..|]. unfold world_ok. simpl. rewrite He. apply H. }
  rewrite <- (sh_shown _ _ _ H). unfold shown. destruct (fds (kern w) !! fd) as [fl|] eqn:Hfl; [|done].
  pose proof (fds_wf _ _ _ Hfl). simpl. rewrite (proj2 (Z.ltb_ge _ _)) by lia.
  case_bool_decide as Hd; [by rewrite (proj2 (Z.eqb_eq _ _))|by rewrite (proj2 (Z.eqb_neq _ _))].
Qed.

Lemma assert_cloexec_spec e F v fd w :
  showing e F w -> F fd = v -> wp (assert_cloexec v fd) (fun _ => showing e F) w.
Proof.
  intros H Hv. apply wp_bind. apply (wp_is_fd_cloexec e F); [done|]. intros w' H'.
  apply wp_assert; [by apply bool_decide_eq_true|done].
Qed.

Lemma set_fd_cloexec_spec e F fd b w :
  showing e F w -> wp (set_fd_cloexec fd b) (fun _ => showing e (set_all [fd] b F)) w.
Proof.
  intros H. apply wp_bind, wp_call. intros r k Hk.
  destruct (getfd_spec _ _ _ _ Hk) as [-> (Hf & He & _)].
  assert (H1 : showing e F (mkWorld k (statics w))).
  { apply (showing_same e F w); [done..|]. unfold world_ok. simpl. rewrite He. apply H. }
  assert (HF : forall f, f <> fd -> set_all [fd] b F f = F f).
  { intros f Hne. unfold set_all. by rewrite decide_False by (by intros ->%list_elem_of_singleton). }
  destruct (fds (kern w) !! fd) as [fl|] eqn:Hfl; simpl.
  - pose proof (fds_wf _ _ _ Hfl) as [_ Hpos]. rewrite (proj2 (Z.ltb_ge _ _)) by lia.
    pose proof (FD_CLOEXEC_wf (K := K)) as Hc.
    set (fl' := if b then _ else _).
    assert (Hfl' : 0 <= fl' /\ bool_decide (Z.land fl' FD_CLOEXEC = FD_CLOEXEC) = b).
    { unfold fl'. destruct b.
      - split; [apply Z.lor_nonneg; lia|]. apply bool_decide_eq_true, flag_set.
      - split; [apply Z.land_nonneg; lia|]. apply bool_decide_eq_false, flag_cleared. }
    destruct Hfl' as [Hp' Hb]. apply wp_bind, wp_call. intros r2 k2 Hk2. simpl in Hk2.
    assert (Hsome : is_Some (fds k !! fd)) by (rewrite Hf, Hfl; by eexists).
    destruct (setfd_spec _ _ _ _ _ Hk2 Hsome Hp') as [Hf2 [He2 _]]. apply wp_ret.
    destruct H1 as [A1 A2 A3 A4]. simpl in *. constructor; [|simpl in *; congruence| |].
    + unfold world_ok in *. simpl in *. by rewrite He2.
    + intros f. specialize (A3 f). unfold shown in *. simpl in *. rewrite Hf2.
      destruct (decide (f = fd)) as [->|Hne].
      * rewrite lookup_insert_eq. simpl. rewrite Hb. unfold set_all.
        rewrite decide_True by (by apply list_elem_of_singleton). rewrite <- A3, Hf, Hfl. done.
      * by rewrite lookup_insert_ne, HF, A3.
    + intros f Hf'%set_all_open. by apply A4.
  - apply wp_ret. destruct H1 as [A1 A2 A3 A4]. constructor; [done|done| |].
    + intros f. rewrite A3. destruct (decide (f = fd)) as [->|Hne]; [|by rewrite HF].
      unfold set_all. rewrite decide_True by (by apply list_elem_of_singleton).
      rewrite <- A3. unfold shown. simpl. by rewrite Hf, Hfl.
    + intros f Hf'%set_all_open. by apply A4.
Qed.
End seen.

(** ** The operations of the tests *)

(** A system on which the tests can run: it opens "/" while fewer than [N]
    descriptors are open, and it has no more descriptors than the fallback loop
    tries. *)
Record hospitable `{C : Config} {K : Type} `{SK : Sys K} `{KV : KernelView K}
    (e : Env) (N : nat) : Prop := {
  hosp_limit : 0 <= env_open_max e <= 65536;
  hosp_open (k : K) r k' : env k = e -> (size (fds k) < N)%nat ->
    sys_open "/" [O_RDONLY; O_CLOEXEC] k = (r, k') -> 0 <= r;
}.

(** At most [n] descriptors are open. *)
Definition fits (F : Z -> option bool) (n : nat) : Prop :=
  exists l : list Z, (length l <= n)%nat /\ forall f, is_Some (F f) -> f ∈ l.

Lemma fits_put F n fd o : fits F n -> fits (put fd o F) (S n).
Proof.
  intros (l & Hl & Hin). exists (fd :: l). split; [simpl; lia|]. intros f Hf.
  unfold put in Hf. case_decide as Hd; [subst f; left|right; auto].
Qed.

Lemma fits_sub F F' n m :
  fits F n -> (n <= m)%nat -> (forall f, is_Some (F' f) -> is_Some (F f)) -> fits F' m.
Proof. intros (l & Hl & Hin) Hm Hsub. exists l. split; [lia|auto]. Qed.

Section operations.
Context `{C : Config, !ConfigOk C} {K : Type} `{SK : Sys K} `{KV : KernelView K}
  {KS : KernelSpec K}.
Context {e : Env} {N fuel : nat} (He : hospitable (K := K) e N) (Hfuel : enough_fuel fuel).

Lemma fits_size F n (w : World K) : showing e F w -> fits F n -> (size (fds (kern w)) <= n)%nat.
Proof.
  intros H (l & Hl & Hin).
  assert (Hsub : (map_to_list (fds (kern w))).*1 ⊆+ l).
  { apply NoDup_submseteq; [apply NoDup_fst_map_to_list|].
    intros f ([g x] & -> & Hx%elem_of_map_to_list)%list_elem_of_fmap.
    apply Hin, (showing_open e F w _ H). by eexists. }
  apply submseteq_length in Hsub. rewrite length_fmap, length_map_to_list in Hsub. lia.
Qed.

Lemma fits_start (w : World K) : fits (shown w) (size (fds (kern w))).
Proof.
  exists (map_to_list (fds (kern w))).*1. split; [by rewrite length_fmap, length_map_to_list|].
  intros f [fl Hfl]%shown_open. apply list_elem_of_fmap. exists (f, fl). split; [done|].
  by apply elem_of_map_to_list.
Qed.

Lemma file_open_spec F n w :
  showing e F w -> fits F n -> (n < N)%nat ->
  wp file_open (fun fd w' => showing e (put fd (Some true) F) w' /\ F fd = None /\
    0 <= fd <= scan_limit e /\ forall f, 0 <= f < fd -> is_Some (F f)) w.
Proof.
  intros H Hfit Hn. unfold file_open. apply wp_bind, wp_call. intros r k Hk.
  pose proof (fits_size F n w H Hfit) as Hsz. pose proof (sh_env _ _ _ H) as Hew.
  assert (Hr : 0 <= r) by (eapply (hosp_open _ _ He (kern w)); [done|lia|done]).
  assert (Hlim : r <= scan_limit e).
  { pose proof (open_limit _ _ _ _ _ Hk) as Hl. rewrite Hew in Hl.
    pose proof (hosp_limit _ _ He). unfold scan_limit. lia. }
  destruct (open_spec _ _ _ _ _ Hk) as [[? _]|(_ & Hnone & Hek & [fl Hfl] & _)]; [lia|].
  apply wp_bind, wp_assert; [by apply Z.leb_le|]. apply wp_ret. split_and!; try done.
  - constructor; simpl.
    + unfold world_ok. simpl. rewrite Hek. apply H.
    + congruence.
    + intros f. unfold shown, put. simpl. rewrite Hfl.
      case_decide as Hd; [subst f; rewrite lookup_insert_eq|by rewrite lookup_insert_ne, <- (sh_shown _ _ _ H)].
      simpl. f_equal. apply bool_decide_eq_true.
      assert (Hkr : fds k !! r = Some fl) by (rewrite Hfl; apply lookup_insert_eq).
      rewrite (open_flags _ _ _ _ _ _ Hk Hr Hkr). apply decide_True. right. by left.
    + intros f. unfold put. case_decide as Hd; [by subst|]. apply (sh_bound _ _ _ H).
  - by apply (showing_closed e F w).
  - intros f Hf. apply (showing_open e F w _ H). by eapply open_lowest.
Qed.

Lemma close_file_spec F fd w :
  showing e F w -> wp (libc_close fd) (fun _ => showing e (put fd None F)) w.
Proof.
  intros [H1 H2 H3 H4]. apply wp_libc_close. intros k Hk [Hek _]. constructor; simpl.
  - unfold world_ok in *. simpl. by rewrite Hek.
  - congruence.
  - intros f. unfold put, shown. simpl. rewrite Hk.
    case_decide as Hd; [subst f; by rewrite lookup_delete_eq|by rewrite lookup_delete_ne, <- H3].
  - intros f. unfold put. case_decide; [by intros [??]|apply H4].
Qed.

(** *** Iterators *)

(** The list of the open descriptors from [minfd] up. *)
Record listing (F : Z -> option bool) (minfd : Z) (l : list Z) : Prop := {
  ls_ascending : strictly_ascending l;
  ls_elem : forall f, f ∈ l <-> minfd <= f /\ is_Some (F f);
}.

Lemma listing_unique F minfd l l' : listing F minfd l -> listing F minfd l' -> l = l'.
Proof.
  intros [H1 H2] [H3 H4]. apply strictly_ascending_ext; [done|done|].
  intros f. by rewrite H2, H4.
Qed.

Lemma iterate_listing F b minfd w :
  showing e F w -> minfd <= i32_MAX -> b_possible b = false ->
  wp (iterate fuel b minfd) (fun l w' => showing e F w' /\ listing F minfd l) w.
Proof.
  intros H Hm Hp. eapply wp_mono; [apply (iterate_spec fuel b minfd w Hm (sh_ok _ _ _ H) Hfuel)|].
  intros l w' (H1 & H2 & H3 & H4 & H5 & H6 & H7).
  split; [by apply (showing_same e F w)|]. split; [done|]. intros f. split.
  - intros Hf. specialize (H5 f Hf). split; [lia|]. apply (showing_open e F w _ H). auto.
  - intros [Hf Ho%(showing_open e F w _ H)]. apply H7; [|done]. split; [done|].
    by apply (showing_bound e F w).
Qed.

Lemma min_listing F b w :
  showing e F w -> b_possible b = false -> is_Some (F 0) ->
  wp (it ← iter_from b (-1); FdIter.min fuel it) (fun o w' => showing e F w' /\ o = Some 0) w.
Proof.
  intros H Hp H0. eapply wp_mono;
    [apply (min_spec fuel b (-1) w); [unfold i32_MAX; lia|apply H|done..]|].
  intros o w' (H1 & H2 & H3 & H4). split; [by apply (showing_same e F w)|].
  apply (showing_open e F w _ H) in H0. destruct o as [m|]; simpl in H4.
  - destruct H4 as (_ & [fl Hm] & Hmin). specialize (Hmin 0 H0 ltac:(lia)).
    pose proof (fds_wf _ _ _ Hm). f_equal. lia.
  - rewrite H4 in H0; [by destruct H0|]. split; [lia|]. by apply (showing_bound e F w).
Qed.

Lemma max_listing F b w l :
  showing e F w -> b_possible b = false -> listing F (-1) l ->
  wp (it ← iter_from b (-1); FdIter.max fuel fuel it) (fun o w' => showing e F w' /\ o = last l) w.
Proof.
  intros H Hp Hl. assert (Hm : -1 <= i32_MAX) by (unfold i32_MAX; lia).
  pose proof (iterate_listing F b (-1) w H Hm Hp) as Hi.
  unfold iterate, wp, mbind, ST_bind in *. destruct (iter_from b (-1) w) as [[it w1]| | | |]; try done.
  destruct (collect fuel fuel it w1) as [[l' w2]| | | |] eqn:Hc; try done.
  unfold FdIter.max. rewrite (last_loop_collect _ _ _ None _ _ _ Hc).
  destruct Hi as [Hs Hl']. split; [done|]. rewrite (listing_unique _ _ _ _ Hl Hl').
  by destruct (last l').
Qed.

(** Counting counts what is collected. *)
Lemma count_by_ref_collect n m it c (w : World K) l w' :
  collect n m it w = Done (l, w') -> c + Z.of_nat (length l) <= usize_MAX ->
  (r ← count_by_ref n m it c; let '(c, it) := (r : Z * FdIter) in drop_fditer it;; mret c) w =
    Done (c + Z.of_nat (length l), w').
Proof.
  revert it c w l. induction n as [|n IH]; intros it c w l; [done|]. simpl.
  intros ([o it1] & w1 & Hn & Hr)%ST_bind_Done Hle. unfold mbind, ST_bind. rewrite Hn.
  destruct o as [fd|].
  - apply ST_bind_Done in Hr as (l1 & w2 & Hc & [= <- <-]). simpl in Hle. unfold lift.
    rewrite usize_add_ok by lia. specialize (IH it1 (c + 1) w1 l1 Hc ltac:(lia)).
    unfold mbind, ST_bind in IH. rewrite IH. simpl. do 2 f_equal. lia.
  - apply ST_bind_Done in Hr as ([] & w2 & Hd & [= <- <-]). unfold mret, ST_ret. rewrite Hd.
    simpl. do 2 f_equal. lia.
Qed.

Lemma count_listing F b w l :
  showing e F w -> b_possible b = false -> listing F (-1) l ->
  wp (count fuel b (-1)) (fun c w' => showing e F w' /\ c = Z.of_nat (length l)) w.
Proof.
  intros H Hp Hl. assert (Hm : -1 <= i32_MAX) by (unfold i32_MAX; lia).
  pose proof (iterate_listing F b (-1) w H Hm Hp) as Hi.
  pose proof (iter_from_spec b (-1) w Hm (sh_ok _ _ _ H)) as Hfrom.
  unfold count, iterate, wp, mbind, ST_bind in *. destruct (iter_from b (-1) w) as [[it w1]| | | |]; try done.
  destruct Hfrom as (_ & _ & _ & Hinv & _).
  pose proof (collect_bound fuel fuel it w1 Hinv Hfuel (enough_steps _ _ _ Hinv Hfuel)) as Hb.
  unfold wp in Hb. destruct (collect fuel fuel it w1) as [[l' w2]| | | |] eqn:Hc; try done.
  pose proof usize_MAX_large. pose proof (fi_curfd _ _ Hinv).
  assert (Hle : 0 + Z.of_nat (length l') <= usize_MAX) by (unfold u32_MAX, i32_MAX in *; lia).
  pose proof (count_by_ref_collect fuel fuel it 0 w1 l' w2 Hc Hle) as Hcount.
  unfold mbind, ST_bind in Hcount. rewrite Hcount. destruct Hi as [Hs Hl'].
  split; [done|]. by rewrite (listing_unique _ _ _ _ Hl Hl').
Qed.

(** *** Closing and marking *)

(** A builder of the tests before its list is given. *)
Definition plain_builder (b : CloseFdsBuilder) : Prop := cb_keep_fds b = keep_empty.

Lemma closefrom_spec F b minfd w :
  showing e F w -> builder_ok b -> minfd <= i32_MAX ->
  wp (closefrom fuel b minfd)
    (fun _ => showing e (only minfd (kf_fds (cb_keep_fds b)) F)) w.
Proof.
  intros H Hb Hm. unfold closefrom.
  eapply wp_mono; [apply close_fds_spec; [done|done|apply H|unfold i32_MAX in *; lia]|].
  intros [] w' [Hfin _].
  pose proof (finished_completed (E := close_effect) minfd _ w w' (fun f => showing_bound e F w f H) Hfin) as Hc.
  pose proof (closed_table_eq _ _ _ _ Hc) as Ht. destruct Hfin as (Hew & Hok & _).
  constructor; [done|by rewrite Hew, (sh_env _ _ _ H)| |].
  - intros f. unfold shown, only. rewrite Ht. unfold closed_table.
    rewrite <- (sh_shown _ _ _ H). unfold shown. case_decide as Hs.
    + destruct (fds (kern w) !! f) as [fl|] eqn:Hfl.
      * by rewrite (map_lookup_filter_Some_2 _ _ _ fl).
      * by rewrite (proj2 (map_lookup_filter_None _ _ _)) by (by left).
    + by rewrite (proj2 (map_lookup_filter_None _ _ _)) by (by right).
  - intros f. unfold only. case_decide; [apply (sh_bound _ _ _ H)|by intros [??]].
Qed.

Lemma cloexecfrom_spec F b minfd w :
  showing e F w -> builder_ok b -> minfd <= i32_MAX ->
  wp (cloexecfrom fuel b minfd)
    (fun _ => showing e (marked minfd (kf_fds (cb_keep_fds b)) F)) w.
Proof.
  intros H Hb Hm. unfold cloexecfrom.
  eapply wp_mono; [apply set_fds_cloexec_spec; [done|done|apply H|unfold i32_MAX in *; lia]|].
  intros [] w' [Hfin _].
  pose proof (finished_completed (E := cloexec_effect) minfd _ w w' (fun f => showing_bound e F w f H) Hfin) as Hc.
  pose proof (marked_table_eq _ _ _ _ Hc) as Ht. destruct Hfin as (Hew & Hok & _).
  constructor; [done|by rewrite Hew, (sh_env _ _ _ H)| |].
  - intros f. unfold shown, marked. rewrite Ht. unfold marked_table. rewrite map_lookup_imap.
    rewrite <- (sh_shown _ _ _ H). unfold shown.
    destruct (fds (kern w) !! f) as [fl|] eqn:Hfl; simpl; [|by case_decide].
    case_decide as Hs; [done|]. simpl. f_equal. apply bool_decide_eq_true, flag_set.
  - intros f. unfold marked. case_decide; [apply (sh_bound _ _ _ H)|].
    intros Hf%fmap_is_Some. by apply (sh_bound _ _ _ H).
Qed.

(** The list of a builder. *)
Lemma wp_keep_fds l b w (Q : CloseFdsBuilder -> World K -> Prop) :
  slice_ok l ->
  (forall b', builder_ok b' -> kf_fds (cb_keep_fds b') = l -> Q b' w) ->
  wp (lift (keep_fds l b)) Q w.
Proof.
  intros Hl HQ. destruct (keep_fds_ok l b Hl) as (b' & Hb & H1 & H2 & _).
  eapply wp_lift; [exact Hb|]. auto.
Qed.

(** Descriptors of the process may be kept. *)
Lemma open_slice_ok l : (forall f, f ∈ l -> 0 <= f <= scan_limit e) -> slice_ok l.
Proof.
  intros Hl. assert (Hb : forall f, f ∈ l -> 0 <= f < 65536).
  { intros f Hf. specialize (Hl f Hf). unfold scan_limit in Hl. lia. }
  split.
  - apply Forall_forall. intros f Hf%Hb. unfold i32_MIN, i32_MAX. lia.
  - intros Hin%Hb. unfold i32_MAX in Hin. lia.
Qed.

Lemma open_le_max f : f <= scan_limit e -> f <= i32_MAX.
Proof. unfold scan_limit, i32_MAX. lia. Qed.

(** *** Loops and assertions *)

Lemma each_inv {A} (I : World K -> Prop) (body : A -> ST (World K) unit) l w :
  I w -> (forall x w, x ∈ l -> I w -> wp (body x) (fun _ => I) w) ->
  wp (each body l) (fun _ => I) w.
Proof.
  intros Hi Hbody. revert w Hi. induction l as [|x l IH]; intros w Hi; [done|].
  apply wp_bind. eapply wp_mono; [apply Hbody; [by left|done]|]. intros [] w' Hi'.
  apply IH; [|done]. intros y v Hy. apply Hbody. by right.
Qed.

(** A loop that changes what is seen one descriptor at a time. *)
Lemma each_set body b l F w :
  (forall fd G w, fd ∈ l -> showing e G w -> G fd = F fd \/ G fd = (fun _ => b) <$> F fd ->
     wp (body fd) (fun _ => showing e (set_all [fd] b G)) w) ->
  showing e F w -> wp (each body l) (fun _ => showing e (set_all l b F)) w.
Proof.
  intros Hbody H.
  assert (Hgen : forall l2 l1 w, (forall f, f ∈ l2 -> f ∈ l) -> showing e (set_all l1 b F) w ->
    wp (each body l2) (fun _ => showing e (set_all (l1 ++ l2) b F)) w).
  { intros l2. induction l2 as [|fd l2 IH]; intros l1 v Hsub Hv.
    { rewrite app_nil_r. done. }
    apply wp_bind. eapply wp_mono; [apply Hbody; [apply Hsub; by left|exact Hv|]|].
    { unfold set_all. case_decide; [by right|by left]. }
    intros [] v' Hv'. replace (l1 ++ fd :: l2) with ((l1 ++ [fd]) ++ l2) by (by rewrite <- app_assoc).
    apply IH; [intros f Hf; apply Hsub; by right|]. eapply showing_ext; [exact Hv'|].
    intros f. unfold set_all. pose proof (elem_of_app l1 [fd] f) as Happ.
    destruct (F f); repeat case_decide; done || tauto. }
  apply (Hgen l [] w ltac:(done)). eapply showing_ext; [exact H|].
  intros f. unfold set_all. by rewrite decide_False by (apply not_elem_of_nil).
Qed.

Lemma check_sorted_spec l (w : World K) : strictly_ascending l ->
  wp (check_sorted l) (fun _ w' => w' = w) w.
Proof.
  intros Hs. unfold check_sorted.
  assert (Hgen : forall last, (forall x, last = Some x -> Forall (fun y => x < y) l) ->
    wp (check_sorted_loop last l) (fun _ w' => w' = w) w); [|by apply Hgen].
  induction l as [|x l IH]; intros last Hlast; [done|].
  apply strictly_ascending_cons in Hs as [Hx Hs]. apply wp_bind.
  assert (Hnext : wp (check_sorted_loop (Some x) l) (fun _ w' => w' = w) w).
  { apply IH; [done|]. by intros ? [= <-]. }
  destruct last as [y|]; [|done].
  specialize (Hlast y eq_refl). apply Forall_cons in Hlast as [Hyx _].
  apply wp_assert; [by apply Z.leb_le, Z.lt_le_incl|done].
Qed.

Lemma contains_spec l ex (w : World K) :
  Forall (fun p => p.1 ∈ l <-> p.2 = true) ex -> wp (contains l ex) (fun _ w' => w' = w) w.
Proof.
  intros Hex. apply each_inv; [done|]. intros [fd b] v Hin ->. rewrite Forall_forall in Hex.
  specialize (Hex _ Hin). simpl in *. apply wp_assert; [|done]. apply bool_decide_eq_true.
  case_bool_decide as Hd; destruct b; intuition congruence.
Qed.

Lemma collect_check_spec F b minfd ex w :
  showing e F w -> minfd <= i32_MAX -> b_possible b = false ->
  Forall (fun p => minfd <= p.1 /\ is_Some (F p.1) <-> p.2 = true) ex ->
  wp (collect_check fuel b minfd ex) (fun l w' => showing e F w' /\ listing F minfd l) w.
Proof.
  intros H Hm Hp Hex. apply wp_bind. eapply wp_mono; [by apply iterate_listing|].
  intros l w1 [H1 Hl]. apply wp_bind. eapply wp_mono; [apply check_sorted_spec, Hl|].
  intros [] w2 ->. apply wp_bind. eapply wp_mono; [apply contains_spec|].
  - eapply Forall_impl; [exact Hex|]. intros [fd v] Hv. by rewrite (ls_elem _ _ _ Hl).
  - intros [] w3 ->. by apply wp_ret.
Qed.

Lemma methods_check_spec F b l w :
  showing e F w -> b_possible b = false -> is_Some (F 0) -> listing F (-1) l ->
  wp (methods_check fuel b l) (fun _ => showing e F) w.
Proof.
  intros H Hp H0 Hl. apply wp_bind. eapply wp_mono; [by apply (min_listing F)|].
  intros o w1 [H1 ->]. apply wp_bind, wp_assert; [done|].
  apply wp_bind. eapply wp_mono; [by apply (max_listing F)|].
  intros o w2 [H2 ->]. apply wp_bind, wp_assert; [by apply bool_decide_eq_true|].
  apply wp_bind. eapply wp_mono; [by apply (count_listing F)|].
  intros c w3 [H3 ->]. apply wp_assert; [by apply Z.eqb_eq|done].
Qed.
End operations.
