(* ===== verification/TestsPass.v ===== *)
(** * The integration tests pass

    On every target, with every setting of the builders, on any system that
    opens the files of the tests and has its limit of descriptors within that of
    the fallback loop. *)

From S2P Require Import Prelude Platform Ints Sys KernelSpec Util DirFdIter FdIter IterFds SizeHint IterTests KeepFds Visit Close Cloexec CloseFds Lib IntegrationTests Shown.

Section pass.
Context `{C : Config, !ConfigOk C} {K : Type} `{SK : Sys K} `{KV : KernelView K}
  {KS : KernelSpec K}.
Context {e : Env} {N fuel : nat} (He : hospitable (K := K) e N) (Hfuel : enough_fuel fuel).

(** ** The basic tests *)

(** The standard streams are open. *)
Definition streams (F : Z -> option bool) : Prop := forall f, 0 <= f <= 2 -> is_Some (F f).

(** Nothing was opened, and the standard streams were left alone. *)
Record shrinks (F F' : Z -> option bool) : Prop := {
  shr_sub : forall f, is_Some (F' f) -> is_Some (F f);
  shr_streams : forall f, f <= 2 -> is_Some (F f) -> is_Some (F' f);
}.

#[export] Instance shrinks_preorder : PreOrder shrinks.
Proof.
  split; [done|]. intros F G H [A1 A2] [B1 B2]. split; auto.
Qed.

Lemma shrinks_of_streams F F' : shrinks F F' -> streams F -> streams F'.
Proof. intros [_ H] Hs f Hf. apply H; [lia|auto]. Qed.

Lemma shrinks_only minfd keep F : 2 < minfd -> shrinks F (only minfd keep F).
Proof.
  intros Hm. unfold only. split; intros f.
  - case_decide; [done|by intros [??]].
  - intros Hf. rewrite decide_True by (left; lia). done.
Qed.

(** What [run_basic_test] gives to its callback. *)
Record three (F : Z -> option bool) (fd1 fd2 fd3 : Z) : Prop := {
  th_order : 2 < fd1 < fd2 /\ fd2 < fd3 <= scan_limit e;
  th_fd1 : is_Some (F fd1);
  th_fd2 : is_Some (F fd2);
  th_fd3 : F fd3 = None;
}.

Abbreviation callback := (Z -> Z -> Z -> CloseFdsBuilder -> ST (World K) unit).

Definition good (c : callback) : Prop := forall F fd1 fd2 fd3 b w,
  showing e F w -> streams F -> three F fd1 fd2 fd3 -> plain_builder b ->
  wp (c fd1 fd2 fd3 b) (fun _ w' => exists F', showing e F' w' /\ shrinks F F') w.

(** A file that is opened is above what is open from 0 on. *)
Lemma lowest_above (F : Z -> option bool) f fd :
  F fd = None -> 0 <= fd -> (forall g, 0 <= g <= f -> is_Some (F g)) -> f < fd.
Proof.
  intros Hn Hfd Hf. destruct (Z.lt_ge_cases f fd); [done|].
  destruct (Hf fd ltac:(lia)) as [x Hx]. congruence.
Qed.

Lemma put_eq fd o (F : Z -> option bool) : put fd o F fd = o.
Proof. by apply decide_True. Qed.
Lemma put_ne fd o (F : Z -> option bool) f : f <> fd -> put fd o F f = F f.
Proof. apply decide_False. Qed.
Lemma put_Some fd b (F : Z -> option bool) f :
  is_Some (put fd (Some b) F f) <-> f = fd \/ is_Some (F f).
Proof.
  destruct (decide (f = fd)) as [->|Hne]; [rewrite put_eq|rewrite put_ne by done].
  - split; [by left|by eexists].
  - split; [by right|by intros [?|?]].
Qed.
Lemma put_None fd (F : Z -> option bool) f :
  is_Some (put fd None F f) <-> f <> fd /\ is_Some (F f).
Proof.
  destruct (decide (f = fd)) as [->|Hne]; [rewrite put_eq|rewrite put_ne by done].
  - split; [by intros [??]|by intros [??]].
  - split; [done|by intros [??]].
Qed.

Lemma wp_open_three F n w (k : Z -> Z -> Z -> ST (World K) unit) (Q : unit -> World K -> Prop) :
  showing e F w -> streams F -> fits F n -> (n + 3 <= N)%nat ->
  (forall fd1 fd2 fd3 w',
     showing e (put fd3 (Some true) (put fd2 (Some true) (put fd1 (Some true) F))) w' ->
     2 < fd1 < fd2 -> fd2 < fd3 <= scan_limit e -> F fd1 = None -> F fd2 = None -> F fd3 = None ->
     wp (k fd1 fd2 fd3) Q w') ->
  wp (fd1 ← file_open; fd2 ← file_open; fd3 ← file_open; k fd1 fd2 fd3) Q w.
Proof.
  intros H Hs Hfit Hn HQ.
  apply wp_bind. eapply wp_mono; [eapply (file_open_spec He F n); [done..|lia]|].
  intros fd1 w1 (H1 & N1 & B1 & L1). set (F1 := put fd1 _ F) in H1.
  apply wp_bind. eapply wp_mono; [eapply (file_open_spec He F1 (S n)); [done|by apply fits_put|lia]|].
  intros fd2 w2 (H2 & N2 & B2 & L2). set (F2 := put fd2 _ F1) in H2.
  apply wp_bind. eapply wp_mono;
    [eapply (file_open_spec He F2 (S (S n))); [done|by apply fits_put, fits_put|lia]|].
  intros fd3 w3 (H3 & N3 & B3 & L3).
  assert (Ho1 : 2 < fd1) by (apply (lowest_above F); [done|lia|exact Hs]).
  assert (Ho2 : fd1 < fd2).
  { apply (lowest_above F1); [done|lia|]. intros g Hg. apply put_Some.
    destruct (decide (g = fd1)); [by left|]. right. apply L1. lia. }
  assert (Ho3 : fd2 < fd3).
  { apply (lowest_above F2); [done|lia|].
    intros g Hg. apply put_Some. destruct (decide (g = fd2)); [by left|]. right. apply L2. lia. }
  unfold F1 in N2. rewrite put_ne in N2 by lia.
  unfold F2, F1 in N3. rewrite !put_ne in N3 by lia. apply HQ; done || lia.
Qed.

Lemma run_basic_test_spec c F n b w :
  good c -> showing e F w -> streams F -> fits F n -> (n + 3 <= N)%nat -> plain_builder b ->
  wp (run_basic_test c b) (fun _ w' => exists F', showing e F' w' /\ shrinks F F') w.
Proof.
  intros Hc H Hs Hfit Hn Hb. apply (wp_open_three F n w); [done..|].
  intros fd1 fd2 fd3 w1 H1 O1 O2 N1 N2 N3. apply wp_bind.
  eapply wp_mono; [by eapply close_file_spec|]. intros [] w2 H2.
  set (G := put fd3 None _) in H2.
  assert (HG : forall f, is_Some (G f) <-> f = fd1 \/ f = fd2 \/ is_Some (F f)).
  { intros f. unfold G. rewrite put_None, !put_Some. split; [intuition congruence|].
    intros Hf. split; [|tauto]. intros ->. destruct Hf as [?|[?|[x Hx]]]; [lia|lia|congruence]. }
  assert (Hth : three G fd1 fd2 fd3).
  { constructor; [done|apply HG; tauto|apply HG; tauto|apply put_eq]. }
  assert (HsG : streams G) by (intros f Hf; apply HG; auto).
  apply wp_bind, (wp_is_fd_open e G); [done|]. intros w3 H3. apply wp_bind, wp_assert;
    [by apply bool_decide_eq_true, Hth|].
  apply wp_bind, (wp_is_fd_open e G); [done|]. intros w4 H4. apply wp_bind, wp_assert;
    [by apply bool_decide_eq_true, Hth|].
  apply wp_bind, (wp_is_fd_open e G); [done|]. intros w5 H5. apply wp_bind, wp_assert.
  { by rewrite (th_fd3 _ _ _ _ Hth). }
  apply wp_bind. eapply wp_mono; [by apply (Hc G)|]. intros [] w6 (G' & H6 & [S1 S2]).
  apply wp_bind. eapply wp_mono; [by eapply close_file_spec|]. intros [] w7 H7.
  eapply wp_mono; [by eapply close_file_spec|]. intros [] w8 H8. eexists. split; [exact H8|].
  split; intros f.
  - rewrite !put_None. intros (D1 & D2 & Hf%S1%HG). intuition congruence.
  - intros Hf1 Hf2. rewrite !put_None. split_and!; [lia|lia|]. apply S2; [done|]. apply HG. auto.
Qed.

(** *** The callbacks *)

(** What a list of expectations comes to. *)
Local Ltac expect Hth :=
  destruct Hth as [[? ?] ? ? ?];
  repeat (apply Forall_cons; split; [simpl|]); try (by apply Forall_nil);
  (split; [intros [Hx1 [x Hx2]]; try done; exfalso; (lia || congruence)
          |intros Hx; first [discriminate | split; [lia|done]]]).

Lemma iter_open_fds_test_good : good (iter_open_fds_test fuel).
Proof.
  intros F fd1 fd2 fd3 b w H Hs Hth Hb. unfold iter_open_fds_test.
  eapply wp_mono; [apply (each_inv (showing e F)); [done|]|].
  2:{ intros [] w' H'. exists F. split; [done|reflexivity]. }
  clear w H. intros s w _ H. set (it := set_threadsafe _ _).
  assert (Hp : b_possible it = false).
  { unfold it, set_threadsafe, set_allow_filesystem. by repeat case_match. }
  assert (H0 : is_Some (F 0)) by (apply Hs; lia).
  assert (Hneg : F (-1) = None).
  { apply eq_None_not_Some. intros Hf%(sh_bound _ _ _ H). lia. }
  assert (Hmx : fd3 <= i32_MAX) by (apply (open_le_max (e := e)), Hth).
  pose proof (th_order _ _ _ _ Hth) as Hord.
  apply wp_bind. eapply wp_mono; [eapply (collect_check_spec Hfuel F); [done|unfold i32_MAX; lia|done|]|].
  { expect Hth. }
  intros l w1 [H1 Hl]. apply wp_bind. eapply wp_mono; [by eapply (methods_check_spec Hfuel F)|].
  intros [] w2 H2.
  apply wp_bind. eapply wp_mono; [eapply (collect_check_spec Hfuel F); [done|unfold i32_MAX; lia|done|]|].
  { expect Hth. }
  intros l2 w3 [H3 _].
  apply wp_bind. eapply wp_mono; [eapply (collect_check_spec Hfuel F); [done|lia|done|expect Hth]|].
  intros l4 w4 [H4 _].
  apply wp_bind. eapply wp_mono; [eapply (collect_check_spec Hfuel F); [done|lia|done|expect Hth]|].
  intros l5 w5 [H5 _].
  apply wp_bind. eapply wp_mono; [eapply (collect_check_spec Hfuel F); [done|lia|done|expect Hth]|].
  intros l6 w6 [H6 _]. done.
Qed.

Lemma only_Some minfd keep F f :
  is_Some (only minfd keep F f) <-> spared minfd keep f /\ is_Some (F f).
Proof. unfold only. case_decide; [tauto|]. split; [by intros [??]|tauto]. Qed.

(** The four tests of closing differ in the list. *)
Lemma close_test_spec F fd1 fd2 fd3 b keep left1 left2 w :
  showing e F w -> three F fd1 fd2 fd3 -> builder_ok b -> kf_fds (cb_keep_fds b) = keep ->
  (fd1 ∈ keep <-> left1 = true) -> (fd2 ∈ keep <-> left2 = true) ->
  wp (close_test fuel (Done b) fd1 fd2 fd3 left1 left2)
    (fun _ w' => exists F', showing e F' w' /\ shrinks F F') w.
Proof.
  intros H Hth Hb Hk Hl1 Hl2. pose proof (th_order _ _ _ _ Hth) as [Ho1 Ho2].
  assert (Hm : fd1 <= i32_MAX) by (apply (open_le_max (e := e)); lia).
  apply wp_bind. eapply wp_mono; [eapply (collect_check_spec Hfuel F); [done|done|done|expect Hth]|].
  intros l w1 [H1 _]. apply wp_bind. eapply wp_lift; [reflexivity|].
  apply wp_bind. eapply wp_mono; [by eapply (closefrom_spec Hfuel F)|]. rewrite Hk. intros [] w2 H2.
  apply wp_bind. eapply wp_mono;
    [eapply (collect_check_spec Hfuel (only fd1 keep F)); [done|done|done|]|].
  - assert (Hsp : forall f, fd1 <= f -> spared fd1 keep f <-> f ∈ keep).
    { intros f Hf. unfold spared. split; [|by right]. intros [?|?]; [lia|done]. }
    destruct Hth as [_ T1 T2 T3].
    repeat (apply Forall_cons; split; [simpl; rewrite only_Some, Hsp by lia|]);
      try (by apply Forall_nil).
    + rewrite Hl1. intuition lia.
    + rewrite Hl2. intuition lia.
    + rewrite T3. split; [|done]. by intros (_ & _ & [??]).
  - intros l2 w3 [H3 _]. exists (only fd1 keep F). split; [done|]. apply shrinks_only. lia.
Qed.

Lemma fds_123_ok F fd1 fd2 fd3 l : three F fd1 fd2 fd3 ->
  (forall f, f ∈ l -> f ∈ [0; fd1; fd2; fd3]) -> slice_ok l.
Proof.
  intros Hth Hl. apply (open_slice_ok (e := e)). intros f Hf%Hl.
  pose proof (th_order _ _ _ _ Hth) as [Ho1 Ho2].
  repeat (apply elem_of_cons in Hf as [->|Hf]; [lia|]). by apply not_elem_of_nil in Hf.
Qed.

(** A test whose list goes through [keep_fds]. *)
Lemma close_keep_good F fd1 fd2 fd3 l b left1 left2 w :
  showing e F w -> three F fd1 fd2 fd3 ->
  (forall f, f ∈ l -> f ∈ [0; fd1; fd2; fd3]) ->
  (fd1 ∈ l <-> left1 = true) -> (fd2 ∈ l <-> left2 = true) ->
  wp (close_test fuel (keep_fds l b) fd1 fd2 fd3 left1 left2)
    (fun _ w' => exists F', showing e F' w' /\ shrinks F F') w.
Proof.
  intros H Hth Hl H1 H2.
  destruct (keep_fds_ok l b (fds_123_ok _ _ _ _ l Hth Hl)) as (b' & -> & Hb & Hk & _).
  by apply (close_test_spec F _ _ _ b' l).
Qed.

Local Ltac close_good :=
  intros F fd1 fd2 fd3 b w H _ Hth _; pose proof (th_order _ _ _ _ Hth) as [Ho1 Ho2];
  apply (close_keep_good F); [done|done| | |]; intros *; rewrite ?elem_of_cons, ?elem_of_nil;
  intuition lia.

Lemma close_fds_test_good : good (close_fds_test fuel).
Proof. close_good. Qed.

Lemma close_fds_keep1_test_good : good (close_fds_keep1_test fuel).
Proof. close_good. Qed.

Lemma close_fds_keep2_test_good : good (close_fds_keep2_test fuel).
Proof. close_good. Qed.

Lemma close_fds_keep3_test_good : good (close_fds_keep3_test fuel).
Proof.
  intros F fd1 fd2 fd3 b w H _ Hth _. pose proof (th_order _ _ _ _ Hth) as [Ho1 Ho2].
  apply (close_test_spec F _ _ _ _ [fd2]); [done|done| |done| |].
  - apply keep_fds_sorted_ok; [|by repeat constructor].
    apply (fds_123_ok F fd1 fd2 fd3 _ Hth). intros *. rewrite !elem_of_cons, elem_of_nil. tauto.
  - rewrite list_elem_of_singleton. intuition lia.
  - by rewrite list_elem_of_singleton.
Qed.

(** ** The large test *)

Definition opened (l : list Z) (F : Z -> option bool) (f : Z) : option bool :=
  if decide (f ∈ l) then Some true else F f.

(** The descriptors that are opened are the lowest free ones, in order. *)
Lemma open_checked_spec n m F w :
  showing e F w -> fits F m -> (m + n <= N)%nat ->
  wp (open_checked n) (fun l w' =>
    showing e (opened l F) w' /\ length l = n /\ strictly_ascending l /\
    Forall (fun f => F f = None /\ 0 <= f) l) w.
Proof.
  revert m F w. induction n as [|n IH]; intros m F w H Hfit Hn.
  { by apply wp_ret. }
  apply wp_bind. eapply wp_mono; [eapply (file_open_spec He F m); [done..|lia]|].
  intros fd w1 (H1 & Hnone & Hb & Hlow). set (F1 := put fd (Some true) F) in H1.
  assert (Hfd : F1 fd = Some true) by apply put_eq.
  assert (Hset : forall b f, set_all [fd] b F1 f = if decide (f = fd) then Some b else F f).
  { intros b f. unfold set_all. case_decide as Hd1; rewrite list_elem_of_singleton in Hd1.
    - subst f. by rewrite Hfd, decide_True.
    - unfold F1. by rewrite put_ne, decide_False. }
  apply wp_bind. eapply wp_mono; [by apply (assert_cloexec_spec e F1)|]. intros [] w2 H2.
  apply wp_bind. eapply wp_mono; [by eapply set_fd_cloexec_spec|]. intros [] w3 H3.
  apply wp_bind. eapply wp_mono; [apply (assert_cloexec_spec e); [exact H3|]|].
  { by rewrite Hset, decide_True. }
  intros [] w4 H4. apply wp_bind. eapply wp_mono; [by eapply set_fd_cloexec_spec|]. intros [] w5 H5.
  assert (H5' : showing e F1 w5).
  { eapply showing_ext; [exact H5|]. intros f. unfold set_all at 1.
    case_decide as Hd; rewrite list_elem_of_singleton in Hd.
    - subst f. by rewrite Hset, decide_True, Hfd.
    - unfold F1. by rewrite Hset, decide_False, put_ne. }
  apply wp_bind. eapply wp_mono; [by apply (assert_cloexec_spec e F1)|]. intros [] w6 H6.
  apply wp_bind. eapply wp_mono; [apply (IH (S m) F1); [done|by apply fits_put|lia]|].
  intros l w7 (H7 & Hlen & Hs & Hall). apply wp_ret.
  assert (Hnew : Forall (fun f => fd < f /\ F f = None /\ 0 <= f) l).
  { eapply Forall_impl; [exact Hall|]. intros f [Hf Hf0].
    assert (Hne : f <> fd) by (intros ->; congruence). unfold F1 in Hf. rewrite put_ne in Hf by done.
    split; [|done]. destruct (Z.lt_ge_cases fd f); [done|].
    destruct (Hlow f ltac:(lia)) as [x Hx]. congruence. }
  split_and!.
  - eapply showing_ext; [exact H7|]. intros f. unfold opened, F1, put.
    pose proof (elem_of_cons l f fd). repeat case_decide; done || tauto.
  - simpl. lia.
  - apply strictly_ascending_cons. split; [|done]. eapply Forall_impl; [exact Hnew|]. by intros f [? _].
  - constructor; [split; [done|lia]|]. eapply Forall_impl; [exact Hnew|]. by intros f [_ ?].
Qed.

(** The indices are valid for a vector of length [n]. *)
Fixpoint removable (indices : list nat) (n : nat) : bool :=
  match indices with
  | [] => true
  | index :: indices => (index <? n)%nat && removable indices (n - 1)
  end.

Lemma remove_all_spec indices v (w : World K) :
  removable indices (length v) = true ->
  wp (remove_all indices v) (fun '(removed, rest) w' =>
    w' = w /\ removed ++ rest ≡ₚ v /\ length removed = length indices) w.
Proof.
  revert v. induction indices as [|i indices IH]; intros v Hr; [by apply wp_ret|].
  simpl in *. apply andb_true_iff in Hr as [Hi%Nat.ltb_lt Hr].
  destruct (lookup_lt_is_Some_2 v i Hi) as [fd Hfd]. rewrite Hfd. apply wp_bind.
  eapply wp_mono; [apply IH; by rewrite length_delete|].
  intros [rem lft] w' (-> & Hp & Hlen). apply wp_ret. split; [done|]. simpl. split; [|lia].
  rewrite (delete_Permutation v i fd Hfd). by rewrite Hp.
Qed.

Lemma close_few_spec indices openfds closedfds F w :
  showing e F w -> removable indices (length openfds) = true ->
  wp (close_few indices openfds closedfds) (fun '(openfds', closedfds') w' =>
    exists gone, openfds' ++ gone ≡ₚ openfds /\ closedfds' = closedfds ++ gone /\
      length gone = length indices /\ showing e (drop_all gone F) w') w.
Proof.
  revert openfds closedfds F w. induction indices as [|i indices IH]; intros openfds closedfds F w H Hr.
  { apply wp_ret. exists []. by rewrite !app_nil_r. }
  simpl in *. apply andb_true_iff in Hr as [Hi%Nat.ltb_lt Hr].
  destruct (lookup_lt_is_Some_2 openfds i Hi) as [fd Hfd]. rewrite Hfd.
  apply wp_bind. eapply wp_mono; [by eapply close_file_spec|]. intros [] w1 H1.
  apply wp_bind. eapply wp_mono; [apply (assert_cloexec_spec e); [exact H1|apply put_eq]|].
  intros [] w2 H2. eapply wp_mono; [apply (IH _ _ _ _ H2); by rewrite length_delete|].
  intros [o c] w3 (gone & Hp & -> & Hlen & H3). exists (fd :: gone). split_and!.
  - rewrite (delete_Permutation openfds i fd Hfd), <- Hp. by rewrite Permutation_middle.
  - by rewrite <- app_assoc.
  - simpl. lia.
  - eapply showing_ext; [exact H3|]. intros f. unfold drop_all, put.
    pose proof (elem_of_cons gone f fd). repeat case_decide; done || tauto.
Qed.

(** *** The checks of the large test *)

Definition same_open (F F' : Z -> option bool) : Prop := forall f, is_Some (F' f) <-> is_Some (F f).

#[local] Instance same_open_equivalence : Equivalence same_open.
Proof.
  split; [done| |].
  - intros F G HFG f. by rewrite (HFG f).
  - intros F G H HFG HGH f. by rewrite (HGH f), (HFG f).
Qed.

Lemma each_assert_cloexec v l F w :
  showing e F w -> (forall f, f ∈ l -> F f = v) ->
  wp (each (assert_cloexec v) l) (fun _ => showing e F) w.
Proof.
  intros H Hl. apply each_inv; [done|]. intros f w' Hf H'.
  apply assert_cloexec_spec; [done|auto].
Qed.

Lemma contains_one F lowfd cur fd b w :
  showing e F w -> listing F lowfd cur -> (lowfd <= fd /\ is_Some (F fd) <-> b = true) ->
  wp (contains cur [(fd, b)]) (fun _ => showing e F) w.
Proof.
  intros H Hl Hb. eapply wp_mono; [apply contains_spec|by intros [] w' ->].
  constructor; [|done]. by rewrite (ls_elem _ _ _ Hl).
Qed.

Lemma check_expectations_spec lowfd openfds closedfds F w :
  showing e F w -> lowfd <= i32_MAX ->
  (forall f, f ∈ openfds -> lowfd <= f /\ F f = Some true) ->
  (forall f, f ∈ closedfds -> F f = None) ->
  wp (check_expectations fuel lowfd openfds closedfds) (fun _ => showing e F) w.
Proof.
  intros H Hm Ho Hc. apply wp_bind. eapply wp_mono; [by eapply (iterate_listing Hfuel F)|].
  intros cur w1 [H1 Hl]. apply wp_bind. eapply wp_mono; [apply check_sorted_spec, Hl|].
  intros [] w2 ->. apply wp_bind. eapply wp_mono; [apply (each_inv (showing e F)); [done|]|].
  - intros f w3 [Hf1 Hf2]%Ho H3. apply wp_bind.
    eapply wp_mono; [by apply (assert_cloexec_spec e F)|]. intros [] w4 H4.
    apply (contains_one F lowfd); [done|done|]. by rewrite Hf2.
  - intros [] w3 H3. apply each_inv; [done|]. intros f w4 Hf%Hc H4. apply wp_bind.
    eapply wp_mono; [by apply (assert_cloexec_spec e F)|]. intros [] w5 H5.
    apply (contains_one F lowfd); [done|done|]. rewrite Hf. split; [by intros [_ [??]]|done].
Qed.

Lemma set_all_in l b F f : f ∈ l -> is_Some (F f) -> set_all l b F f = Some b.
Proof. intros Hf [x Hx]. unfold set_all. by rewrite decide_True, Hx. Qed.

Lemma marked_same_open minfd keep F : same_open F (marked minfd keep F).
Proof. intros f. unfold marked. case_decide; [done|]. apply fmap_is_Some. Qed.

Lemma marked_in minfd keep F f :
  minfd <= f -> f ∉ keep -> is_Some (F f) -> marked minfd keep F f = Some true.
Proof.
  intros Hf Hk [x Hx]. unfold marked. rewrite decide_False by (intros [?|?]; [lia|done]).
  by rewrite Hx.
Qed.

Lemma plain_ok b : plain_builder b -> builder_ok b /\ kf_fds (cb_keep_fds b) = [].
Proof. unfold plain_builder, builder_ok. intros ->. split; [apply keep_empty_ok|done]. Qed.

Lemma mark_all_spec lowfd openfds b F w :
  showing e F w -> lowfd <= i32_MAX -> plain_builder b ->
  (forall f, f ∈ openfds -> lowfd <= f /\ is_Some (F f)) ->
  wp (mark_all fuel lowfd openfds b)
    (fun _ w' => exists F', showing e F' w' /\ same_open F F') w.
Proof.
  intros H Hm [Hb Hk]%plain_ok Ho. apply wp_bind.
  eapply wp_mono; [eapply (each_set _ false openfds F); [|done]|].
  { intros f G w1 [_ Hf]%Ho H1 HG. apply wp_bind.
    eapply wp_mono; [by eapply set_fd_cloexec_spec|]. intros [] w2 H2.
    apply assert_cloexec_spec; [done|]. apply set_all_in; [by left|].
    destruct HG as [->| ->]; [done|by apply fmap_is_Some]. }
  intros [] w1 H1. apply wp_bind. eapply wp_mono; [by eapply cloexecfrom_spec|].
  rewrite Hk. intros [] w2 H2.
  eapply wp_mono; [apply (each_assert_cloexec _ _ _ _ H2)|].
  - intros f [Hf1 Hf2]%Ho. apply marked_in; [done|apply not_elem_of_nil|]. by apply set_all_open.
  - intros [] w3 H3. eexists. split; [exact H3|]. etrans; [|apply marked_same_open].
    intros f. apply set_all_open.
Qed.

Lemma mark_some_spec lowfd openfds extra b F w :
  showing e F w -> lowfd <= i32_MAX ->
  (forall f, f ∈ openfds ++ extra -> lowfd <= f /\ is_Some (F f)) ->
  (forall f, f ∈ extra -> f ∉ openfds) ->
  wp (mark_some fuel lowfd openfds extra b)
    (fun _ w' => exists F', showing e F' w' /\ same_open F F') w.
Proof.
  intros H Hm Ho Hdis. set (F1 := set_all (openfds ++ extra) false F).
  assert (HF1 : forall f, f ∈ openfds ++ extra -> F1 f = Some false).
  { intros f Hf. by apply set_all_in; [|apply Ho]. }
  apply wp_bind. eapply wp_mono; [eapply (each_set _ false _ F); [|done]|].
  { intros f G w1 _ H1 _. by eapply set_fd_cloexec_spec. }
  intros [] w1 H1. apply wp_bind, wp_keep_fds.
  { apply (open_slice_ok (e := e)). intros f Hf. apply (sh_bound _ _ _ H). apply Ho, elem_of_app. by left. }
  intros b' Hb Hk. apply wp_bind. eapply wp_mono; [by eapply cloexecfrom_spec|].
  rewrite Hk. intros [] w2 H2. apply wp_bind.
  eapply wp_mono; [apply (each_assert_cloexec _ _ _ _ H2)|].
  { intros f Hf. unfold marked. rewrite decide_True by (by right). apply HF1, elem_of_app. by left. }
  intros [] w3 H3. eapply wp_mono; [apply (each_assert_cloexec _ _ _ _ H3)|].
  { intros f Hf. assert (Hin : f ∈ openfds ++ extra) by (apply elem_of_app; by right).
    apply marked_in; [by apply Ho|by apply Hdis|]. fold F1. rewrite HF1 by done. by eexists. }
  intros [] w4 H4. eexists. split; [exact H4|]. etrans; [|apply marked_same_open].
  intros f. apply set_all_open.
Qed.

(** Closing one file after the other. *)
Lemma each_close l F w :
  showing e F w -> wp (each libc_close l) (fun _ => showing e (drop_all l F)) w.
Proof.
  revert F w. induction l as [|fd l IH]; intros F w H; [done|]. apply wp_bind.
  eapply wp_mono; [by eapply close_file_spec|]. intros [] w1 H1.
  eapply wp_mono; [by apply IH|]. intros [] w2 H2. eapply showing_ext; [exact H2|].
  intros f. unfold drop_all, put. pose proof (elem_of_cons l f fd).
  repeat case_decide; done || tauto.
Qed.

Lemma close_all_but_spec lowfd openfds closedfds b F w :
  showing e F w -> lowfd <= i32_MAX ->
  (forall f, f ∈ openfds -> lowfd <= f /\ is_Some (F f)) ->
  (forall f, f ∈ closedfds -> f ∉ openfds) ->
  wp (close_all_but fuel lowfd openfds closedfds b)
    (fun _ => showing e (drop_all openfds (only lowfd openfds F))) w.
Proof.
  intros H Hm Ho Hc. apply wp_bind, wp_keep_fds.
  { apply (open_slice_ok (e := e)). intros f Hf. apply (sh_bound _ _ _ H). by apply Ho. }
  intros b' Hb Hk. apply wp_bind. eapply wp_mono; [by eapply (closefrom_spec Hfuel F)|].
  rewrite Hk. intros [] w1 H1. set (G := only lowfd openfds F) in *.
  assert (HG : forall f, lowfd <= f /\ is_Some (G f) <-> f ∈ openfds).
  { intros f. unfold G. rewrite only_Some. unfold spared. split.
    - intros (? & [?|?] & _); [lia|done].
    - intros Hf. destruct (Ho f Hf). tauto. }
  apply wp_bind. eapply wp_mono; [by eapply (iterate_listing Hfuel G)|]. intros cur w2 [H2 Hl].
  apply wp_bind. eapply wp_mono; [apply check_sorted_spec, Hl|]. intros [] w3 ->.
  apply wp_bind. eapply wp_mono; [apply contains_spec|].
  { apply Forall_fmap, Forall_forall. intros f Hf. simpl. by rewrite (ls_elem _ _ _ Hl), HG. }
  intros [] w3 ->. apply wp_bind. eapply wp_mono; [apply contains_spec|].
  { apply Forall_fmap, Forall_forall. intros f Hf%Hc. simpl. rewrite (ls_elem _ _ _ Hl), HG.
    split; [done|done]. }
  intros [] w3 ->. apply wp_bind. eapply wp_mono; [eapply (iterate_listing Hfuel G); [done|done|]|].
  { unfold set_threadsafe. by case_match. }
  intros again w4 [H4 Hl']. apply wp_bind, wp_assert.
  { apply bool_decide_eq_true. by eapply listing_unique. }
  by apply each_close.
Qed.

(** *** The whole of it *)

Lemma strictly_ascending_NoDup l : strictly_ascending l -> NoDup l.
Proof.
  induction l as [|x l IH]; [constructor|]. intros [Hx Hs]%strictly_ascending_cons.
  constructor; [|auto]. intros Hin. rewrite Forall_forall in Hx. specialize (Hx _ Hin). lia.
Qed.

(** The parts into which the test divides the files it has opened. *)
Record division (lowfd : Z) (l left1 gone kept extra : list Z) : Prop := {
  dv_low : forall f, f ∈ l -> lowfd <= f;
  dv_nodup : NoDup l;
  dv_first : left1 ++ gone ≡ₚ l;
  dv_second : kept ++ extra ≡ₚ left1;
}.

Lemma division_disjoint lowfd l left1 gone kept extra :
  division lowfd l left1 gone kept extra ->
  (forall f, f ∈ left1 -> f ∈ l /\ f ∉ gone) /\ (forall f, f ∈ gone -> f ∈ l) /\
  (forall f, f ∈ kept ++ extra -> f ∈ left1) /\
  (forall f, f ∈ gone ++ extra -> f ∉ kept) /\ (forall f, f ∈ extra -> f ∉ kept).
Proof.
  intros [H1 H2 H3 H4]. rewrite <- H3 in H2. apply NoDup_app in H2 as (N1 & D1 & N2).
  rewrite <- H4 in N1. apply NoDup_app in N1 as (N3 & D3 & N4).
  assert (Hin : forall f, f ∈ kept ++ extra -> f ∈ left1) by (intros f; by rewrite H4).
  split_and!.
  - intros f Hf. split; [|by apply D1]. rewrite <- H3. apply elem_of_app. by left.
  - intros f Hf. rewrite <- H3. apply elem_of_app. by right.
  - done.
  - intros f [Hf|Hf]%elem_of_app Hk; [|by apply (D3 f)].
    apply (D1 f); [|done]. apply Hin, elem_of_app. by left.
  - intros f Hf Hk. by apply (D3 f).
Qed.

(** What is left in the end. *)
Lemma division_shrinks lowfd l left1 gone kept extra F G :
  division lowfd l left1 gone kept extra -> 2 < lowfd ->
  same_open (drop_all gone (opened l F)) G ->
  shrinks F (drop_all kept (only lowfd kept G)).
Proof.
  intros Hd Hlow Hso. destruct (division_disjoint _ _ _ _ _ _ Hd) as (D1 & D2 & D3 & _).
  assert (Hk : forall f, f ∈ kept -> lowfd <= f).
  { intros f Hf. apply (dv_low _ _ _ _ _ _ Hd), D1, D3, elem_of_app. by left. }
  unfold drop_all at 1. split; intros f.
  - case_decide as Hfk; [by intros [??]|]. intros [Hs Hg]%only_Some.
    destruct Hs as [Hs|?]; [|done]. apply Hso in Hg. unfold drop_all, opened in Hg.
    case_decide; [by destruct Hg|]. case_decide as Hfl; [|done].
    pose proof (dv_low _ _ _ _ _ _ Hd f Hfl). lia.
  - intros Hf2 Hf. rewrite decide_False by (intros ?%Hk; lia). apply only_Some.
    split; [left; lia|]. apply Hso. unfold drop_all, opened.
    rewrite !decide_False; [done| |].
    + intros ?%(dv_low _ _ _ _ _ _ Hd). lia.
    + intros ?%D2%(dv_low _ _ _ _ _ _ Hd). lia.
Qed.

(** The checks between the closing of the first few files and the end. *)
Lemma wp_large_middle lowfd l left1 gone b F w {A} (k : ST (World K) A) (Q : A -> World K -> Prop) :
  division lowfd l left1 gone left1 [] -> lowfd <= i32_MAX -> plain_builder b ->
  showing e (drop_all gone (opened l F)) w ->
  (forall G w', showing e G w' -> same_open (drop_all gone (opened l F)) G -> wp k Q w') ->
  wp (check_expectations fuel lowfd left1 gone;;
      mark_all fuel lowfd left1 b;; mark_all fuel lowfd left1 (threadsafe true b);; k) Q w.
Proof.
  intros Hd Hm Hb H HQ. destruct (division_disjoint _ _ _ _ _ _ Hd) as (D1 & D2 & _).
  assert (Ho : forall f, f ∈ left1 -> lowfd <= f /\ drop_all gone (opened l F) f = Some true).
  { intros f [Hl Hg]%D1. split; [by apply (dv_low _ _ _ _ _ _ Hd)|].
    unfold drop_all, opened. by rewrite decide_False, decide_True. }
  assert (Ho' : forall G f, same_open (drop_all gone (opened l F)) G ->
    f ∈ left1 -> lowfd <= f /\ is_Some (G f)).
  { intros G f HG [Hf1 Hf2]%Ho. split; [done|]. apply HG. by rewrite Hf2. }
  apply wp_bind. eapply wp_mono; [apply (check_expectations_spec _ _ _ _ _ H Hm Ho)|].
  { intros f Hf. unfold drop_all. by rewrite decide_True. }
  intros [] w1 H1. apply wp_bind.
  eapply wp_mono; [apply (mark_all_spec _ _ _ _ _ H1 Hm Hb)|].
  { intros f Hf. by apply (Ho' (drop_all gone (opened l F))). }
  intros [] w2 (G & H2 & HG). apply wp_bind.
  eapply wp_mono; [apply (mark_all_spec _ _ _ _ _ H2 Hm)|].
  - done.
  - intros f Hf. by apply Ho'.
  - intros [] w3 (G' & H3 & HG'). apply (HQ G'); [done|]. by etrans.
Qed.

(** With the list of what is kept. *)
Lemma large_end_spec lowfd l left1 gone kept extra b F G w :
  division lowfd l left1 gone kept extra -> 2 < lowfd <= i32_MAX ->
  showing e G w -> same_open (drop_all gone (opened l F)) G ->
  wp (mark_some fuel lowfd kept extra b;; mark_some fuel lowfd kept extra (threadsafe true b);;
      close_all_but fuel lowfd kept (gone ++ extra) b)
    (fun _ w' => exists F', showing e F' w' /\ shrinks F F') w.
Proof.
  intros Hd [Hlow Hm] H HG. destruct (division_disjoint _ _ _ _ _ _ Hd) as (D1 & D2 & D3 & D4 & D5).
  assert (Ho : forall G f, same_open (drop_all gone (opened l F)) G ->
    f ∈ kept ++ extra -> lowfd <= f /\ is_Some (G f)).
  { intros G' f HG' [Hl Hg]%D3%D1. split; [by apply (dv_low _ _ _ _ _ _ Hd)|].
    apply HG'. unfold drop_all, opened. by rewrite decide_False, decide_True. }
  apply wp_bind. eapply wp_mono; [apply (mark_some_spec _ _ _ _ _ _ H Hm); [by intros f; apply Ho|done]|].
  intros [] w1 (G1 & H1 & HG1). assert (HG1' : same_open (drop_all gone (opened l F)) G1) by (by etrans).
  apply wp_bind. eapply wp_mono; [apply (mark_some_spec _ _ _ _ _ _ H1 Hm); [by intros f; apply Ho|done]|].
  intros [] w2 (G2 & H2 & HG2). assert (HG2' : same_open (drop_all gone (opened l F)) G2) by (by etrans).
  eapply wp_mono; [apply (close_all_but_spec _ _ _ _ _ _ H2 Hm); [|done]|].
  - intros f Hf. apply Ho; [done|]. apply elem_of_app. by left.
  - intros [] w3 H3. eexists. split; [exact H3|]. by eapply division_shrinks.
Qed.

Lemma large_open_fds_test_spec mangle b F n w :
  (forall l, mangle l ≡ₚ l) -> plain_builder b ->
  showing e F w -> streams F -> fits F n -> (n + 150 <= N)%nat ->
  wp (large_open_fds_test fuel mangle b) (fun _ w' => exists F', showing e F' w' /\ shrinks F F') w.
Proof.
  intros Hmangle Hb H Hs Hfit Hn. unfold large_open_fds_test. apply wp_bind.
  eapply wp_mono; [by apply (open_checked_spec 150 n F)|].
  intros l w1 (H1 & Hlen & Hasc & Hnew). destruct l as [|lowfd l']; [done|].
  pose proof (strictly_ascending_NoDup _ Hasc) as Hnd. set (l := lowfd :: l') in *.
  apply wp_bind, wp_ret.
  assert (Hlow : forall f, f ∈ l -> lowfd <= f).
  { apply strictly_ascending_cons in Hasc as [Hx _]. rewrite Forall_forall in Hx.
    intros f [->|Hf%Hx]%elem_of_cons; lia. }
  assert (Hin : lowfd ∈ l) by (by left). rewrite Forall_forall in Hnew.
  assert (Hlow2 : 2 < lowfd).
  { destruct (Hnew _ Hin). by apply (lowest_above F). }
  assert (Hm : lowfd <= i32_MAX).
  { apply (open_le_max (e := e)). apply (sh_bound _ _ _ H1). unfold opened. by rewrite decide_True. }
  clearbody l. apply wp_bind. eapply wp_mono; [apply (close_few_spec _ _ _ _ _ H1); by rewrite Hlen|].
  intros [left1 closed1] w2 (gone & Hp1 & -> & Hgl & H2). cbn beta iota. simpl app.
  assert (Hlen1 : length (sort_unstable left1) = 145%nat).
  { unfold sort_unstable. rewrite merge_sort_Permutation. apply Permutation_length in Hp1.
    rewrite length_app in Hp1. simpl in Hgl. lia. }
  assert (Hd1 : division lowfd l left1 gone left1 []) by (split; [done|done|done|by rewrite app_nil_r]).
  apply (wp_large_middle _ l _ _ _ F); [done..|]. intros G w3 H3 HG. apply wp_bind.
  eapply wp_mono; [apply remove_all_spec; by rewrite Hlen1|].
  intros [kept extra] w4 (-> & Hp2 & _). cbn beta iota.
  assert (Hd : division lowfd l left1 gone (mangle kept) extra).
  { split; [done|done|done|]. rewrite Hmangle, Hp2. apply merge_sort_Permutation. }
  by apply (large_end_spec _ l left1 _ _ _ _ _ G).
Qed.

(** ** [run_tests] *)

Lemma one_setting_spec shuffle callbacks s F n w :
  (forall l, shuffle l ≡ₚ l) -> (forall c, c ∈ callbacks -> good c) ->
  showing e F w -> streams F -> fits F n -> (n + 150 <= N)%nat ->
  wp (one_setting fuel shuffle callbacks s)
    (fun _ w' => exists F', showing e F' w' /\ shrinks F F') w.
Proof.
  intros Hsh Hc H Hs Hfit Hn. unfold one_setting.
  set (b := CloseFds.threadsafe _ _). assert (Hb : plain_builder b) by done.
  assert (Hfit' : forall F', shrinks F F' -> fits F' n) by (intros F' HF; by eapply fits_sub, HF).
  assert (Hlarge : forall mangle w, (forall l, mangle l ≡ₚ l) ->
    (exists F', showing e F' w /\ shrinks F F') ->
    wp (large_open_fds_test fuel mangle b) (fun _ w' => exists F', showing e F' w' /\ shrinks F F') w).
  { intros mangle v Hm (F' & H1 & H2).
    eapply wp_mono; [apply (large_open_fds_test_spec mangle b F' n); try done|].
    - by eapply shrinks_of_streams.
    - auto.
    - intros [] v' (F2 & ? & ?). exists F2. split; [done|by etrans]. }
  apply wp_bind. eapply wp_mono; [apply (each_inv (fun w => exists F', showing e F' w /\ shrinks F F'))|].
  - exists F. split; [done|reflexivity].
  - intros c v Hin (F' & H1 & H2).
    eapply wp_mono; [apply (run_basic_test_spec c F' n); auto; [|lia]|].
    + by eapply shrinks_of_streams.
    + intros [] v' (F2 & ? & ?). exists F2. split; [done|by etrans].
  - intros [] w1 H1. apply wp_bind.
    eapply wp_mono; [apply Hlarge; [apply merge_sort_Permutation|done]|].
    intros [] w2 H2. apply wp_bind. eapply wp_mono; [by apply Hlarge|]. intros [] w3 H3.
    by apply Hlarge.
Qed.

Lemma probe_spec F w : showing e F w -> wp probe_features (fun _ => showing e F) w.
Proof.
  intros H. eapply wp_mono; [apply probe_features_spec, H|].
  intros [] w' (H1 & H2 & H3 & _). by apply (showing_same e F w).
Qed.

(** Exactly the standard streams are open. *)
Definition only_streams (F : Z -> option bool) : Prop := forall f, is_Some (F f) <-> 0 <= f <= 2.

Lemma standard_streams_spec minfd keep F w :
  showing e F w -> minfd <= i32_MAX -> slice_ok keep -> only_streams (only minfd keep F) ->
  wp (standard_streams fuel minfd keep) (fun _ => showing e (only minfd keep F)) w.
Proof.
  intros H Hm Hk Ho. unfold standard_streams, close_open_fds. apply wp_bind, wp_bind, wp_keep_fds; [done|].
  intros b Hb Hkb. eapply wp_mono; [by eapply closefrom_spec|]. rewrite Hkb. intros [] w1 H1.
  apply wp_bind. eapply wp_mono; [by eapply (iterate_listing Hfuel (only minfd keep F))|].
  intros l w2 [H2 Hl]. apply wp_assert; [|done]. apply bool_decide_eq_true.
  apply (listing_unique _ _ _ _ Hl). split.
  - by repeat constructor.
  - intros f. rewrite (Ho f), !elem_of_cons, elem_of_nil. lia.
Qed.

Lemma streams_only minfd keep F :
  streams F -> (minfd = 3 /\ keep = [] \/ only_streams F /\ keep = [0; 1; 2] /\ minfd <= 0) ->
  (forall f, is_Some (F f) -> 0 <= f) -> only_streams (only minfd keep F).
Proof.
  intros Hs Hcase Hpos f. rewrite only_Some. unfold spared.
  destruct Hcase as [[-> ->]|(Ho & -> & Hm)].
  - rewrite elem_of_nil. split; [intros [? ?%Hpos]; lia|]. intros Hf. split; [lia|auto].
  - rewrite (Ho f), !elem_of_cons, elem_of_nil. lia.
Qed.

Lemma run_tests_with_spec shuffle callbacks F n w :
  (forall l, shuffle l ≡ₚ l) -> (forall c, c ∈ callbacks -> good c) ->
  showing e F w -> streams F -> fits F n -> (n + 150 <= N)%nat ->
  wp (run_tests_with fuel shuffle callbacks)
    (fun _ w' => exists F', showing e F' w' /\ only_streams F') w.
Proof.
  intros Hsh Hc H Hs Hfit Hn. set (I := fun w => exists F', showing e F' w /\ shrinks F F').
  apply wp_bind. eapply wp_mono; [apply (each_inv I)|].
  { exists F. split; [done|reflexivity]. }
  { intros _ v _ Hv. apply wp_bind. eapply wp_mono; [apply (each_inv I); [exact Hv|]|].
    - intros s v1 _ (F1 & H1 & S1). eapply wp_mono; [apply (one_setting_spec _ _ _ F1 n); try done|].
      + by eapply shrinks_of_streams.
      + by eapply fits_sub, S1.
      + intros [] v2 (F2 & ? & ?). exists F2. split; [done|by etrans].
    - intros [] v1 (F1 & H1 & S1). eapply wp_mono; [by apply probe_spec|].
      intros [] v2 H2. by exists F1. }
  intros [] w1 (F1 & H1 & S1). pose proof (shrinks_of_streams _ _ S1 Hs) as Hs1.
  assert (Hm : forall m, m <= 3 -> m <= i32_MAX) by (unfold i32_MAX; lia).
  assert (Hok0 : slice_ok []) by (split; [constructor|apply not_elem_of_nil]).
  assert (Hok3 : slice_ok [0; 1; 2]).
  { split; [by repeat constructor|]. rewrite !elem_of_cons, elem_of_nil. unfold i32_MAX. lia. }
  assert (Hpos : forall G v, showing e G v -> forall f, is_Some (G f) -> 0 <= f).
  { intros G v Hv f Hf. apply (sh_bound _ _ _ Hv f Hf). }
  assert (O1 : only_streams (only 3 [] F1)) by (apply streams_only; [auto|by left|eauto]).
  apply wp_bind. eapply wp_mono; [by apply (standard_streams_spec 3 [] F1); auto|].
  intros [] w2 H2. set (F2 := only 3 [] F1) in *.
  assert (Hof : forall G, only_streams G -> streams G) by (intros G HG f; apply HG).
  assert (O2 : only_streams (only 0 [0; 1; 2] F2)) by (apply streams_only; [auto|right; split_and!; [done|done|lia]|eauto]).
  apply wp_bind. eapply wp_mono; [apply (standard_streams_spec 0 [0; 1; 2] F2); auto; apply Hm; lia|].
  intros [] w3 H3. set (F3 := only 0 _ F2) in *.
  assert (O3 : only_streams (only (-1) [0; 1; 2] F3)).
  { apply streams_only; [auto| |eauto]. right. split_and!; [done|done|lia]. }
  eapply wp_mono; [apply (standard_streams_spec (-1) [0; 1; 2] F3); auto; apply Hm; lia|].
  intros [] w4 H4. by exists (only (-1) [0; 1; 2] F3).
Qed.
End pass.

(** ** The child of [run_no_fds_tests] *)

Section no_fds.
Context `{C : Config, !ConfigOk C} {K : Type} `{SK : Sys K} `{KV : KernelView K}
  {KS : KernelSpec K}.

(** An exhausted iterator says so. *)
Lemma exhausted_size_hint fuel it (k : K) :
  fd_inv it k -> exhausted it -> size_hint fuel it = Done (0, Some 0).
Proof.
  intros Hi. pose proof (fi_curfd _ _ Hi) as Hc. unfold exhausted, size_hint.
  destruct (if has_dirfd target then dirfd_iter it else None) as [d|].
  - intros Hd. unfold DirFdIter.size_hint. by rewrite (proj2 (Z.ltb_lt _ _)).
  - intros (m & Hm & Hlt). rewrite Hm. destruct (fi_maxfd _ _ Hi m Hm) as [Hmr _].
    destruct (Z.eqb_spec m (-1)); [done|].
    rewrite debug_assert_ok by (apply Z.leb_le; lia). simpl.
    rewrite !as_usize_small by (unfold i32_MAX, u32_MAX in *; lia).
    rewrite usize_add_ok by (pose proof usize_MAX_large; unfold i32_MAX, u32_MAX in *; lia).
    simpl. unfold saturating_sub. rewrite Z.max_l by lia. by destruct (possible it).
Qed.

(** It holds no descriptor. *)
Lemma exhausted_view it (k : K) : fd_inv it k -> exhausted it -> fd_view it k = fds k.
Proof.
  intros Hi. unfold exhausted, fd_view. destruct (dirfd_iter it) as [d|] eqn:Hd; [|done].
  destruct (fi_dir _ _ Hi d Hd) as [-> _]. intros ?. by apply dir_view_exhausted.
Qed.

Lemma count_exhausted fuel it (w : World K) :
  exhausted it -> (0 < fuel)%nat -> count_by_ref fuel fuel it 0 w = Done ((0, it), w).
Proof.
  intros He Hf. destruct fuel as [|n]; [lia|]. simpl. unfold mbind, ST_bind.
  by rewrite next_of_exhausted.
Qed.

(** An iterator over an empty table. *)
Lemma next_of_nothing fuel it (w : World K) :
  fd_inv it (kern w) -> enough_fuel fuel -> possible it = false -> fd_view it (kern w) = ∅ ->
  wp (next fuel it) (fun '(o, it') w' => o = None /\ exhausted it' /\ fds (kern w') = ∅ /\
    fd_inv it' (kern w') /\ env (kern w') = env (kern w) /\ statics w' = statics w) w.
Proof.
  intros Hi Hf Hp Hv. pose proof (fd_next_spec fuel it w Hi Hf) as Hn.
  apply wp_done in Hn as ([o it'] & w' & Hrun & Hs & He & Hv' & Hi' & _ & Ho).
  apply wp_done. exists (o, it'), w'. split; [done|]. rewrite Hv in *. destruct o as [fd|].
  - destruct Ho as (_ & _ & _ & [x Hx] & _); [by left|]. by rewrite lookup_empty in Hx.
  - pose proof (next_None_exhausted _ _ _ _ _ Hrun) as Hex.
    split_and!; try done. by rewrite <- (exhausted_view it').
Qed.

(** A new iterator when 0 is open. *)
Lemma next_of_zero fuel it (w : World K) :
  fd_inv it (kern w) -> enough_fuel fuel -> possible it = false -> curfd it = 0 ->
  is_Some (fd_view it (kern w) !! 0) ->
  wp (next fuel it) (fun '(o, _) _ => o = Some 0) w.
Proof.
  intros Hi Hf Hp Hc H0. eapply wp_mono; [by apply fd_next_spec|].
  intros [o it'] w' (_ & _ & _ & _ & _ & Ho). rewrite Hc in Ho. destruct o as [fd|].
  - destruct Ho as (H1 & _ & H2 & _). f_equal. destruct (Z.eq_dec fd 0); [done|].
    rewrite H2 in H0 by lia. by destruct H0.
  - rewrite Ho in H0; [by destruct H0|lia|]. intros _. unfold scan_limit. lia.
Qed.

Lemma no_fds_child_spec fuel w :
  enough_fuel fuel -> world_ok w ->
  (forall f, is_Some (fds (kern w) !! f) -> f <= scan_limit (env (kern w))) ->
  (forall k r k', env k = env (kern w) -> fds k = ∅ ->
     sys_open "/" [O_RDONLY] k = (r, k') -> 0 <= r) ->
  wp (no_fds_child fuel) (fun status _ => status = 0) w.
Proof.
  intros Hf Hok Hlim Hopen. assert (Hm : 0 <= i32_MAX) by (unfold i32_MAX; lia).
  assert (Hpos : (0 < fuel)%nat) by (unfold enough_fuel in Hf; lia). unfold no_fds_child.
  apply wp_bind. eapply wp_mono; [apply close_open_fds_spec; try done|].
  { split; [constructor|apply not_elem_of_nil]. }
  intros [] w1 (Ht & He1 & Hok1). assert (Hemp : fds (kern w1) = ∅).
  { rewrite Ht. apply map_empty. intros f. apply map_lookup_filter_None. right.
    intros fl Hfl [Hneg|Hin]; simpl in *; [|by apply not_elem_of_nil in Hin].
    apply fds_wf in Hfl. lia. }
  apply wp_bind. eapply wp_mono; [by apply iter_from_spec|].
  intros it w2 (He2 & Hok2 & Hv2 & Hi2 & _ & Hp2). apply wp_bind.
  eapply wp_mono; [apply next_of_nothing; [done|done|done|congruence]|].
  intros [o it'] w3 (-> & Hex & Ht3 & Hi3 & He3 & Hs3). cbn beta iota.
  rewrite bool_decide_eq_false_2 by (by intros [??]).
  apply wp_bind, wp_call. intros r k Hk.
  assert (Hr : 0 <= r) by (eapply (Hopen (kern w3)); [congruence|done|done]).
  rewrite (proj2 (Z.ltb_ge _ _)) by done.
  assert (r = 0) as ->.
  { destruct (Z.eq_dec r 0); [done|]. destruct (open_lowest _ _ _ _ _ 0 Hk ltac:(lia)) as [x Hx].
    by rewrite Ht3, lookup_empty in Hx. }
  destruct (open_spec _ _ _ _ _ Hk) as [[? _]|(_ & _ & Hek & [fl Hfl] & _)]; [lia|].
  set (w4 := mkWorld k (statics w3)). assert (Hok4 : world_ok w4).
  { unfold world_ok in *. simpl. by rewrite Hek, Hs3, He3. }
  apply wp_bind. eapply wp_mono; [by apply iter_from_spec|].
  intros it2 w5 (_ & _ & Hv5 & Hi5 & Hc5 & Hp5). apply wp_bind.
  eapply wp_mono; [apply next_of_zero; try done|].
  { rewrite Hv5. simpl. rewrite Hfl, lookup_insert_eq. by eexists. }
  intros [o2 it3] w6 ->. cbn beta iota. apply wp_bind.
  eapply wp_mono; [apply drop_fditer_spec|]. intros [] w7 _. simpl negb.
  apply wp_bind, wp_done. exists (None, it'), w7. split; [by apply next_of_exhausted|].
  cbn beta iota. rewrite bool_decide_eq_false_2 by (by intros [??]).
  apply wp_bind. eapply wp_lift; [by eapply exhausted_size_hint|].
  rewrite bool_decide_eq_true_2 by done. simpl negb.
  apply wp_bind, wp_done. exists (0, it'), w7. split; [by apply count_exhausted|].
  cbn beta iota. apply wp_bind. eapply wp_mono; [apply drop_fditer_spec|].
  intros [] w8 _. by apply wp_ret.
Qed.
End no_fds.

(** ** [run_tests] *)

Section run.
Context `{C : Config, !ConfigOk C} {K : Type} `{SK : Sys K} `{KV : KernelView K}
  {KS : KernelSpec K}.

(** The tests of [run_tests] but for [iter_possible_fds_test]. *)
Definition exact_tests (fuel : nat)
  : list (Z -> Z -> Z -> CloseFdsBuilder -> ST (World K) unit) :=
  [iter_open_fds_test fuel; close_fds_test fuel; close_fds_keep1_test fuel;
   close_fds_keep2_test fuel; close_fds_keep3_test fuel].

Lemma exact_tests_good e fuel c :
  enough_fuel fuel -> c ∈ exact_tests fuel -> good (e := e) c.
Proof.
  intros Hf Hc. unfold exact_tests in Hc.
  repeat (apply elem_of_cons in Hc as [->|Hc]); [..|by apply not_elem_of_nil in Hc].
  - by apply iter_open_fds_test_good.
  - by apply close_fds_test_good.
  - by apply close_fds_keep1_test_good.
  - by apply close_fds_keep2_test_good.
  - by apply close_fds_keep3_test_good.
Qed.

(** Callbacks that do what they should make the whole of it pass. *)
Lemma good_tests_pass fuel shuffle callbacks N w :
  enough_fuel fuel -> world_ok w -> (forall l, shuffle l ≡ₚ l) ->
  (forall c, c ∈ callbacks -> good (e := env (kern w)) c) ->
  hospitable (K := K) (env (kern w)) N -> (size (fds (kern w)) + 150 <= N)%nat ->
  (forall f, is_Some (fds (kern w) !! f) -> f <= scan_limit (env (kern w))) ->
  (forall f, 0 <= f <= 2 -> is_Some (fds (kern w) !! f)) ->
  wp (run_tests_with fuel shuffle callbacks)
    (fun _ w' => forall f, is_Some (fds (kern w') !! f) <-> 0 <= f <= 2) w.
Proof.
  intros Hf Hok Hsh Hc He HN Hlim Hs.
  assert (H : showing (env (kern w)) (shown w) w) by (by apply showing_start).
  eapply wp_mono; [apply (run_tests_with_spec He Hf shuffle _ (shown w) (size (fds (kern w)))); try done|].
  - intros f Hf'. by apply shown_open, Hs.
  - apply fits_start.
  - intros [] w' (F & HF & Ho) f. by rewrite (showing_open _ F w' _ HF).
Qed.
End run.

(** ** Properties *)

Section properties.
Context `{C : Config, !ConfigOk C} {K : Type} `{SK : Sys K} `{KV : KernelView K}
  {KS : KernelSpec K}.

(** The tests of [run_tests] that need no steady system pass on every target and
    in every build, as all of them do in PossibleTests.v. *)
Theorem integration_tests_pass fuel shuffle N w :
  enough_fuel fuel -> world_ok w -> (forall l, shuffle l ≡ₚ l) ->
  hospitable (K := K) (env (kern w)) N -> (size (fds (kern w)) + 150 <= N)%nat ->
  (forall f, is_Some (fds (kern w) !! f) -> f <= scan_limit (env (kern w))) ->
  (forall f, 0 <= f <= 2 -> is_Some (fds (kern w) !! f)) ->
  wp (run_tests_with fuel shuffle (exact_tests fuel))
    (fun _ w' => forall f, is_Some (fds (kern w') !! f) <-> 0 <= f <= 2) w.
Proof.
  intros Hf Hok Hsh He HN. apply (good_tests_pass fuel shuffle _ N); try done.
  intros c. by apply exact_tests_good.
Qed.

(** The test of what no test process can do to itself: a child that has closed
    everything gets an empty iterator, which stays empty and says so when a file
    is opened, while a new iterator finds that file. Its exit status is 0 on
    every target, if the system opens "/" for a process without descriptors. *)
Theorem no_fds_child_passes fuel w :
  enough_fuel fuel -> world_ok w ->
  (forall f, is_Some (fds (kern w) !! f) -> f <= scan_limit (env (kern w))) ->
  (forall k r k', env k = env (kern w) -> fds k = ∅ ->
     sys_open "/" [O_RDONLY] k = (r, k') -> 0 <= r) ->
  wp (no_fds_child fuel) (fun status _ => status = 0) w.
Proof. apply no_fds_child_spec. Qed.
End properties.
