(* ===== verification/PossibleTests.v ===== *)
(** * The test of [possible], and so all of [run_tests]

    [iter_possible_fds_test] of tests/test_close_fds.rs iterates four times over
    the same table and expects the same answer; on a steady system it gets it. *)

From S2P Require Import Prelude Platform Ints Sys KernelSpec Util DirFdIter FdIter IterFds Steady SizeHint IterTests KeepFds Visit Close Cloexec CloseFds Lib IntegrationTests Shown TestsPass.

Section possible.
Context `{C : Config, !ConfigOk C} {K : Type} `{SK : Sys K} `{KV : KernelView K}
  {KS : KernelSpec K} {ST_ : Steady K}.
Context {e : Env} {N fuel : nat} (He : hospitable (K := K) e N) (Hfuel : enough_fuel fuel).

(** [l] is what an iteration from a world like [w] yields. *)
Definition repeats (b : FdIterBuilder) (minfd : Z) (l : list Z) (w : World K) : Prop :=
  exists w', iterate fuel b minfd w = Done (l, w').

(** After a program that leaves the table alone the list is still right. *)
Lemma repeats_after {A} (m : ST (World K) A) o' F b minfd l w a w' :
  steady None m o' -> m w = Done (a, w') -> showing e F w -> showing e F w' ->
  fds (kern w') = fds (kern w) -> repeats b minfd l w -> repeats b minfd l w'.
Proof.
  intros Hm Hw H H' Hf (w1 & Hi).
  pose proof (similar_back _ _ _ _ _ _ Hm Hw Hf (sh_ok _ _ _ H) (sh_ok _ _ _ H')) as Hs.
  destruct (iterate_again _ _ _ _ _ _ _ Hs Hi) as (w2 & Hi2 & _). by exists w2.
Qed.

Lemma iterate_repeated F b minfd w :
  showing e F w -> minfd <= i32_MAX ->
  wp (iterate fuel b minfd) (fun l w' => showing e F w' /\ repeats b minfd l w' /\
    strictly_ascending l /\ (forall f, f ∈ l -> Z.max 0 minfd <= f < i32_MAX) /\
    (forall f, minfd <= f -> is_Some (F f) -> f ∈ l)) w.
Proof.
  intros H Hm. pose proof (iterate_spec fuel b minfd w Hm (sh_ok _ _ _ H) Hfuel) as Hi.
  apply wp_done in Hi as (l & w' & Hi & H1 & H2 & H3 & H4 & H5 & _ & H7).
  apply wp_done. exists l, w'. split; [done|].
  assert (H' : showing e F w') by (by apply (showing_same e F w)).
  split_and!; try done.
  - eapply (repeats_after _ _ F); [apply steady_iterate|exact Hi|done|done|done|]. by exists w'.
  - intros f Hf Ho%(showing_open e F w _ H). apply H7; [|done]. split; [done|].
    by apply (showing_bound e F w).
Qed.

(** [min], [max] and [count] agree with the list. *)
Lemma min_repeated F b l w :
  showing e F w -> repeats b (-1) l w ->
  wp (it ← iter_from b (-1); FdIter.min fuel it) (fun o w' =>
    showing e F w' /\ repeats b (-1) l w' /\ o = head l) w.
Proof.
  intros H Hr. pose proof Hr as (wi & Hi). assert (Hm : -1 <= i32_MAX) by (unfold i32_MAX; lia).
  assert (Hmin : wp (it ← iter_from b (-1); FdIter.min fuel it) (fun o w' =>
    fds (kern w') = fds (kern w) /\ env (kern w') = env (kern w) /\ world_ok w' /\ o = head l) w).
  { pose proof (iter_from_spec b (-1) w Hm (sh_ok _ _ _ H)) as Hfrom.
    apply wp_done in Hfrom as (it & w1 & Hfrom & He1 & Hok1 & Hv & Hinv & _).
    apply wp_bind, wp_done. exists it, w1. split; [done|].
    pose proof (fd_next_spec fuel it w1 Hinv Hfuel) as Hn.
    apply wp_done in Hn as ([o it'] & w2 & Hn & Hs2 & He2 & Hv2 & _).
    unfold FdIter.min. apply wp_bind, wp_done. exists (o, it'), w2. split; [done|].
    cbn beta iota. apply wp_bind. eapply wp_mono; [apply drop_fditer_spec|].
    intros [] w3 (F3 & [E3 _] & S3). apply wp_ret.
    split_and!; [congruence|congruence|unfold world_ok in *; by rewrite S3, E3, Hs2, He2|].
    unfold iterate, mbind, ST_bind in Hi. rewrite Hfrom in Hi.
    destruct fuel as [|n] eqn:Hfu; [done|]. simpl in Hi. unfold mbind, ST_bind in Hi.
    rewrite Hn in Hi. destruct o as [fd|].
    - destruct (collect n (S n) it' w2) as [[l' w4]| | | |]; try done. by injection Hi as <- _.
    - destruct (drop_fditer it' w2) as [[[] w4]| | | |]; try done. by injection Hi as <- _. }
  apply wp_done in Hmin as (o & w' & Hw & F1 & E1 & Ok1 & Ho).
  apply wp_done. exists o, w'. split; [done|].
  assert (H' : showing e F w') by (by apply (showing_same e F w)).
  split_and!; [done| |done].
  assert (Hst : steady None (it ← iter_from b (-1); FdIter.min fuel it : ST (World K) _)
    (fun _ => None)).
  { eapply steady_bind; [apply steady_iter_from|]. intros it.
    eapply steady_bind; [apply steady_fd_next|]. intros [o' it'].
    eapply steady_bind; [apply steady_drop|]. intros []. by apply steady_ret. }
  by eapply (repeats_after _ _ F); [exact Hst|exact Hw|..].
Qed.

(** A program that runs the iteration and does something with the list. *)
Lemma whole_repeated {A} (m : ST (World K) A) F b l w a :
  showing e F w -> repeats b (-1) l w ->
  (forall w', iterate fuel b (-1) w = Done (l, w') -> m w = Done (a, w')) ->
  wp m (fun x w' => showing e F w' /\ repeats b (-1) l w' /\ x = a) w.
Proof.
  intros H (w1 & Hi) Hm. assert (Hle : -1 <= i32_MAX) by (unfold i32_MAX; lia).
  pose proof (iterate_repeated F b (-1) w H Hle) as Hrep.
  apply wp_done in Hrep as (l' & w' & Hi' & H' & Hr & _). rewrite Hi in Hi'.
  injection Hi' as <- <-. apply wp_done. exists a, w1. split; [by apply Hm|done].
Qed.

Lemma max_repeated F b l w :
  showing e F w -> repeats b (-1) l w ->
  wp (it ← iter_from b (-1); FdIter.max fuel fuel it) (fun o w' =>
    showing e F w' /\ repeats b (-1) l w' /\ o = last l) w.
Proof.
  intros H Hr. eapply whole_repeated; [done|done|]. intros w' Hi.
  unfold iterate, mbind, ST_bind in *. destruct (iter_from b (-1) w) as [[it w1]| | | |]; try done.
  unfold FdIter.max. rewrite (last_loop_collect _ _ _ None _ _ _ Hi). by destruct (last l).
Qed.

Lemma count_repeated F b l w :
  showing e F w -> repeats b (-1) l w ->
  wp (count fuel b (-1)) (fun c w' =>
    showing e F w' /\ repeats b (-1) l w' /\ c = Z.of_nat (length l)) w.
Proof.
  intros H Hr. eapply whole_repeated; [done|done|]. intros w' Hi.
  assert (Hm : -1 <= i32_MAX) by (unfold i32_MAX; lia).
  pose proof (iter_from_spec b (-1) w Hm (sh_ok _ _ _ H)) as Hfrom.
  unfold count, iterate, wp, mbind, ST_bind in *.
  destruct (iter_from b (-1) w) as [[it w1]| | | |]; try done.
  destruct Hfrom as (_ & _ & _ & Hinv & _).
  pose proof (collect_bound fuel fuel it w1 Hinv Hfuel (enough_steps _ _ _ Hinv Hfuel)) as Hb.
  unfold wp in Hb. rewrite Hi in Hb. pose proof usize_MAX_large. pose proof (fi_curfd _ _ Hinv).
  pose proof (count_by_ref_collect fuel fuel it 0 w1 l w' Hi
    ltac:(unfold u32_MAX, i32_MAX in *; lia)) as Hcount.
  unfold mbind, ST_bind in Hcount. by rewrite Hcount.
Qed.

Lemma methods_repeated F b l w :
  showing e F w -> repeats b (-1) l w -> head l = Some 0 ->
  wp (methods_check fuel b l) (fun _ => showing e F) w.
Proof.
  intros H Hr H0. apply wp_bind. eapply wp_mono; [by apply (min_repeated F)|].
  intros o w1 (H1 & R1 & ->). apply wp_bind, wp_assert; [by apply bool_decide_eq_true|].
  apply wp_bind. eapply wp_mono; [by apply (max_repeated F)|].
  intros o w2 (H2 & R2 & ->). apply wp_bind, wp_assert; [by apply bool_decide_eq_true|].
  apply wp_bind. eapply wp_mono; [by apply (count_repeated F)|].
  intros c w3 (H3 & _ & ->). apply wp_assert; [by apply Z.eqb_eq|done].
Qed.

(** What is open is in the list; what is below [minfd] is not. *)
Lemma collect_possible F b minfd ex w :
  showing e F w -> minfd <= i32_MAX ->
  Forall (fun p => if p.2 : bool then minfd <= p.1 /\ is_Some (F p.1)
                   else p.1 < Z.max 0 minfd) ex ->
  wp (collect_check fuel b minfd ex) (fun l w' => showing e F w' /\ repeats b minfd l w' /\
    (minfd <= 0 -> is_Some (F 0) -> head l = Some 0)) w.
Proof.
  intros H Hm Hex. apply wp_bind. eapply wp_mono; [by apply (iterate_repeated F)|].
  intros l w1 (H1 & Hr & Hs & Hlow & Hall). apply wp_bind.
  eapply wp_mono; [by apply check_sorted_spec|]. intros [] w2 ->.
  apply wp_bind. eapply wp_mono; [apply contains_spec|].
  - eapply Forall_impl; [exact Hex|]. intros [fd []]; simpl.
    + intros [? ?]. split; [done|]. intros _. auto.
    + intros Hlt. split; [|done]. intros Hin. specialize (Hlow fd Hin). lia.
  - intros [] w3 ->. apply wp_ret. split_and!; [done|done|]. intros Hm0 H0.
    specialize (Hall 0 Hm0 H0). destruct l as [|x l]; [by apply not_elem_of_nil in Hall|].
    pose proof (Hlow x ltac:(by left)). apply strictly_ascending_cons in Hs as [Hx _].
    apply elem_of_cons in Hall as [<-|Hin]; [done|]. rewrite Forall_forall in Hx.
    specialize (Hx 0 Hin). lia.
Qed.

Local Ltac expect Hth :=
  destruct Hth as [[? ?] ? ? ?];
  repeat (apply Forall_cons; split; [simpl|]); try (by apply Forall_nil);
  simpl; first [split; [lia|done]|lia].

Lemma iter_possible_fds_test_good : good (e := e) (iter_possible_fds_test fuel).
Proof.
  intros F fd1 fd2 fd3 b w H Hs Hth _. unfold iter_possible_fds_test.
  eapply wp_mono; [apply (each_inv (showing e F)); [done|]|].
  2:{ intros [] w' H'. exists F. split; [done|reflexivity]. }
  clear w H. intros s w _ H. set (it := set_possible _ _).
  assert (H0 : is_Some (F 0)) by (apply Hs; lia).
  assert (Hmx : fd3 <= i32_MAX) by (apply (open_le_max (e := e)), Hth).
  pose proof (th_order _ _ _ _ Hth) as Hord.
  apply wp_bind. eapply wp_mono; [eapply (collect_possible F); [done|unfold i32_MAX; lia|]|].
  { expect Hth. }
  intros l w1 (H1 & Hr & Hh). apply wp_bind.
  eapply wp_mono; [by apply (methods_repeated F); [..|apply Hh]|]. intros [] w2 H2.
  apply wp_bind. eapply wp_mono; [eapply (collect_possible F); [done|unfold i32_MAX; lia|]|].
  { expect Hth. }
  intros l2 w3 [H3 _].
  apply wp_bind. eapply wp_mono; [eapply (collect_possible F); [done|lia|expect Hth]|].
  intros l4 w4 [H4 _].
  apply wp_bind. eapply wp_mono; [eapply (collect_possible F); [done|lia|expect Hth]|].
  intros l5 w5 [H5 _].
  apply wp_bind. eapply wp_mono; [eapply (collect_possible F); [done|lia|expect Hth]|].
  by intros l6 w6 [H6 _].
Qed.
End possible.

(** ** Properties *)

Section properties.
Context `{C : Config, !ConfigOk C} {K : Type} `{SK : Sys K} `{KV : KernelView K}
  {KS : KernelSpec K} {ST_ : Steady K}.

(** C24. [run_tests], the whole of tests/test_close_fds.rs that a process can run
    on itself, passes: on every target, with every setting of the builders,
    whatever order the third list of the large test is in, no assertion fails and
    at the end only the standard streams are open. The system is steady, opens
    the files of the tests and has its descriptors within the reach of the
    fallback loop. *)
Theorem run_tests_pass fuel shuffle N w :
  enough_fuel fuel -> world_ok w -> (forall l, shuffle l ≡ₚ l) ->
  hospitable (K := K) (env (kern w)) N -> (size (fds (kern w)) + 150 <= N)%nat ->
  (forall f, is_Some (fds (kern w) !! f) -> f <= scan_limit (env (kern w))) ->
  (forall f, 0 <= f <= 2 -> is_Some (fds (kern w) !! f)) ->
  wp (run_tests fuel shuffle)
    (fun _ w' => forall f, is_Some (fds (kern w') !! f) <-> 0 <= f <= 2) w.
Proof.
  intros Hf Hok Hsh He HN. apply (good_tests_pass fuel shuffle _ N); try done.
  intros c [->|[->|Hc]%elem_of_cons]%elem_of_cons.
  - apply (exact_tests_good _ fuel); [done|by left].
  - by apply iter_possible_fds_test_good.
  - apply (exact_tests_good _ fuel); [done|by right].
Qed.
End properties.
