(* ===== verification/Calls.v ===== *)
(** * Which calls the crate makes

    The functions of the crate are meant for the child after a [fork], so its
    documentation (src/lib.rs) lists the system functions that it calls and takes
    to be async-signal-safe; [allow_filesystem(false)] is a promise not to look
    at files, and closing never counts the open descriptors (README.md). Here
    these are theorems about the calls that are made, on [Traced K]. *)

From S2P Require Import Prelude Platform Ints Sys KernelSpec Util DirFdIter FdIter IterFds KeepFds Visit Close Cloexec CloseFds Lib Trace.

(** ** Kinds of calls *)

(** What POSIX requires to be async-signal-safe, and the list in src/lib.rs. *)
Definition signal_safe (t : target_os) (c : sys_call) : bool :=
  match c with
  | c_open _ _ | c_close _ | c_getfd _ | c_setfd _ _ | c_maxfd | c_stat _ | c_fstat _
  | c_uname => true
  | c_sysconf => true
  | c_closefrom _ => cfg_any [freebsd; netbsd; openbsd; dragonfly] t
  | c_close_range _ _ _ => cfg_any [linux; freebsd] t
  | c_nfds | c_osreldate => cfg_any [freebsd] t
  | c_getdtablecount => cfg_any [openbsd] t
  | c_getdents _ _ _ => cfg_any [linux; netbsd; freebsd; macos; ios; solaris; illumos] t
  end.

(** Calls that look at files. *)
Definition looks (c : sys_call) : bool :=
  match c with c_open _ _ | c_getdents _ _ _ | c_stat _ | c_fstat _ => true | _ => false end.

(** Calls that count the open descriptors. *)
Definition counts (c : sys_call) : bool :=
  match c with c_nfds | c_getdtablecount => true | _ => false end.

Record permitted `{Config} (fs cnt : bool) (c : sys_call) : Prop := {
  pm_safe : signal_safe target c = true;
  pm_looks : fs = false -> looks c = false;
  pm_counts : cnt = false -> counts c = false;
}.

(** ** The calls of each operation *)

Create HintDb calls discriminated.

(** Through a program whose values do not matter. *)
Ltac calls_step :=
  first
    [ solve [auto with calls]
    | apply calls_ret; done
    | apply calls_bind with (R1 := fun _ => True); [|intros ? _]
    | match goal with
      | |- calls _ _ (match ?x with _ => _ end) => destruct x
      | |- calls _ _ (call (if ?x then _ else _)) => destruct x
      end ].
Ltac calls_auto := repeat calls_step.

Section operations.
Context `{C : Config} {K : Type} `{SK : Sys K}.

(** May the operation look at files, and may it count? *)
Context (fs cnt : bool).
Local Abbreviation ok := (permitted fs cnt).
Local Abbreviation any := (fun _ => True).
Local Abbreviation M := (ST (World (Traced K))).

Lemma calls_lift {A} (o : outcome A) : calls ok any (lift o : M A).
Proof. by apply traces_lift. Qed.
Lemma calls_gets {A} (f : World (Traced K) -> A) : calls ok any (gets f : M A).
Proof. by apply traces_gets. Qed.
Lemma calls_load {A} (f : Statics -> A) : calls ok any (load f : M A).
Proof. by apply traces_load. Qed.
Lemma calls_store f : calls ok any (store f : M unit).
Proof. by apply traces_store. Qed.
Lemma calls_set_errno e : calls ok any (set_errno e : M unit).
Proof. by apply traces_set_errno. Qed.
Lemma calls_get_errno : calls ok any (get_errno : M Z).
Proof. by apply traces_gets. Qed.
Lemma calls_stop {A} (R : A -> Prop) : calls ok R (out_of_fuel : M A).
Proof. apply traces_stop. Qed.
Hint Resolve calls_lift calls_gets calls_load calls_store calls_set_errno calls_get_errno
  calls_stop : calls.

Lemma calls_record {A} c (f : K -> A * K) : ok c -> calls ok any (call (record c f) : M A).
Proof. intros Hc. apply traces_record. by constructor. Qed.

(** The calls that are always permitted. *)
Lemma calls_close fd : calls ok any (call (sys_close fd) : M Z).
Proof. by apply calls_record. Qed.
Lemma calls_getfd fd : calls ok any (call (sys_fcntl_getfd fd) : M Z).
Proof. by apply calls_record. Qed.
Lemma calls_setfd fd fl : calls ok any (call (sys_fcntl_setfd fd fl) : M Z).
Proof. by apply calls_record. Qed.
Lemma calls_maxfd : calls ok any (call sys_fcntl_maxfd : M Z).
Proof. by apply calls_record. Qed.
Lemma calls_sysconf : calls ok any (call sys_sysconf_open_max : M Z).
Proof. by apply calls_record. Qed.
Lemma calls_uname : calls ok any (call sys_uname_release : M (list Z)).
Proof. by apply calls_record. Qed.
Hint Resolve calls_close calls_getfd calls_setfd calls_maxfd calls_sysconf calls_uname : calls.

Lemma calls_libc_close fd : calls ok any (libc_close fd : M unit).
Proof. unfold libc_close. calls_auto. Qed.
Lemma calls_is_fd_valid fd : calls ok any (is_fd_valid fd : M bool).
Proof. unfold is_fd_valid. calls_auto. Qed.
Lemma calls_set_cloexec fd : calls ok any (set_cloexec fd : M unit).
Proof. unfold set_cloexec. calls_auto. Qed.
Lemma calls_is_wsl_1 : calls ok any (is_wsl_1 : M bool).
Proof. unfold is_wsl_1. calls_auto. Qed.
Hint Resolve calls_libc_close calls_is_fd_valid calls_set_cloexec calls_is_wsl_1 : calls.

(** *** The directory *)

Section directory.
Context (Ht : has_dirfd target = true) (Hfs : fs = true).

Lemma calls_getdents d buf : calls ok any (getdents d buf : M _).
Proof.
  unfold getdents. apply calls_bind with (R1 := any); [|intros [? ?] _; by apply calls_ret].
  destruct target eqn:He; try discriminate Ht; apply calls_record; constructor;
    by rewrite ?He, ?Hfs.
Qed.
Hint Resolve calls_getdents : calls.

Lemma calls_next_loop fuel it : calls ok any (next_loop fuel it : M _).
Proof.
  revert it. induction fuel as [|fuel IH]; intros it; [apply calls_stop|].
  simpl. unfold consume_entry. calls_auto.
Qed.
Hint Resolve calls_next_loop : calls.

Lemma calls_dir_next fuel it : calls ok any (DirFdIter.next fuel it : M _).
Proof. unfold DirFdIter.next. calls_auto. Qed.

Lemma calls_open path flags : calls ok any (libc_open path flags : M Z).
Proof. apply calls_record. constructor; by rewrite ?Hfs. Qed.
Lemma calls_stat path : calls ok any (call (sys_stat_dev path) : M (Z * Z)).
Proof. apply calls_record. constructor; by rewrite ?Hfs. Qed.
Lemma calls_fstat fd : calls ok any (call (sys_fstat_dev fd) : M (Z * Z)).
Proof. apply calls_record. constructor; by rewrite ?Hfs. Qed.
Hint Resolve calls_open calls_stat calls_fstat : calls.

Lemma calls_dir_open minfd : calls ok any (DirFdIter.open minfd : M _).
Proof.
  unfold DirFdIter.open. apply calls_bind with (R1 := any).
  - unfold open_dirfd. destruct target; calls_auto.
  - intros o _. calls_auto.
Qed.
End directory.

Lemma calls_drop_iter it : calls ok any (drop_iter it : M unit).
Proof. unfold drop_iter. calls_auto. Qed.
Hint Resolve calls_drop_iter : calls.

(** *** The iterator *)

(** An iterator that does what is permitted. *)
Record obeys (it : FdIter) : Prop := {
  ob_fs : fs = false -> dirfd_iter it = None;
  ob_cnt : cnt = false -> has_nfds target = false \/ skip_nfds it = true;
}.
Local Abbreviation obeying := (fun r : option Z * FdIter => obeys r.2).

Lemma calls_nfds_loop range nfds found : calls ok any (nfds_loop range nfds found : M _).
Proof.
  revert found. induction range as [|fd range IH]; intros found; simpl; calls_auto.
Qed.
Hint Resolve calls_nfds_loop : calls.

Lemma calls_get_nfds : has_nfds target = true -> cnt = true -> calls ok any (get_nfds : M _).
Proof.
  intros Ht Hc. unfold get_nfds. destruct target eqn:He; try discriminate Ht.
  - apply calls_bind with (R1 := any); [|intros [? ?] _; by apply calls_ret].
    apply calls_record. constructor; by rewrite ?He, ?Hc.
  - apply calls_bind with (R1 := any); [|intros ? _; by apply calls_ret].
    apply calls_record. constructor; by rewrite ?He, ?Hc.
Qed.

Lemma calls_maxfd_sysconf : calls ok any (maxfd_sysconf : M Z).
Proof. unfold maxfd_sysconf. calls_auto. Qed.
Hint Resolve calls_maxfd_sysconf : calls.

Lemma calls_get_maxfd_direct it : obeys it -> calls ok any (get_maxfd_direct it : M Z).
Proof.
  intros [_ Hcnt]. unfold get_maxfd_direct. case_decide; [calls_auto|].
  destruct (has_nfds target && negb (skip_nfds it)) eqn:Hn; [|calls_auto].
  apply andb_true_iff in Hn as [Ht Hs%negb_true_iff].
  assert (cnt = true) as Hc.
  { destruct cnt; [done|]. destruct (Hcnt eq_refl); congruence. }
  apply calls_bind with (R1 := any); [by apply calls_get_nfds|]. intros o _.
  unfold nfds_to_maxfd. calls_auto.
Qed.

Lemma calls_get_maxfd it : obeys it -> calls ok (fun r => obeys r.2) (get_maxfd it : M _).
Proof.
  intros Ho. unfold get_maxfd. destruct (maxfd it); [by apply calls_ret|].
  apply calls_bind with (R1 := any); [by apply calls_get_maxfd_direct|]. intros m _.
  apply calls_bind with (R1 := any); [apply calls_lift|]. intros _ _. apply calls_ret.
  destruct Ho. by constructor.
Qed.

Lemma calls_scan_loop fuel m it : obeys it -> calls ok obeying (scan_loop fuel m it : M _).
Proof.
  revert it. induction fuel as [|fuel IH]; intros it Ho; [apply calls_stop|]. simpl.
  destruct (curfd it <=? m); [|by apply calls_ret].
  apply calls_bind with (R1 := any); [apply calls_lift|]. intros c _.
  assert (Ho' : obeys (set_curfd c it)) by (destruct Ho; by constructor).
  apply calls_bind with (R1 := any); [calls_auto|]. intros [] _; [apply calls_ret; exact Ho'|by apply IH].
Qed.

Lemma calls_scan fuel it : obeys it -> calls ok obeying (scan fuel it : M _).
Proof.
  intros Ho. unfold scan. eapply calls_bind; [by apply calls_get_maxfd|].
  intros [m it'] Ho'. by apply calls_scan_loop.
Qed.

Lemma calls_next fuel it : obeys it -> calls ok obeying (FdIter.next fuel it : M _).
Proof.
  intros Ho. unfold FdIter.next. destruct (has_dirfd target) eqn:Ht; [|by apply calls_scan].
  destruct (dirfd_iter it) as [d|] eqn:Hd; [|by apply calls_scan].
  assert (Hfs : fs = true).
  { destruct fs eqn:Hfs; [done|]. by rewrite (ob_fs _ Ho Hfs) in Hd. }
  assert (Hset : forall o c, obeys (set_curfd c (set_dirfd_iter o it))).
  { intros o c. destruct Ho. constructor; [by rewrite Hfs|done]. }
  apply calls_bind with (R1 := any); [by apply calls_dir_next|]. intros [o d'] _.
  destruct o as [[fd|]|].
  - apply calls_bind with (R1 := any); [apply calls_lift|]. intros _ _.
    apply calls_bind with (R1 := any); [apply calls_lift|]. intros c _.
    apply calls_ret, Hset.
  - apply calls_ret. apply (Hset (Some d') (curfd it)).
  - apply calls_bind with (R1 := any); [apply calls_drop_iter|]. intros _ _.
    apply calls_scan. apply (Hset None (curfd it)).
Qed.

Lemma calls_drop it : calls ok any (drop_fditer it : M unit).
Proof. unfold drop_fditer. calls_auto. Qed.
Hint Resolve calls_drop : calls.

Lemma calls_for_each n fuel body it :
  (forall fd, calls ok any (body fd : M unit)) -> obeys it ->
  calls ok any (for_each n fuel body it : M unit).
Proof.
  intros Hb. revert it. induction n as [|n IH]; intros it Ho; [apply calls_stop|]. simpl.
  eapply calls_bind; [by apply calls_next|]. intros [[fd|] it'] Ho'; [|apply calls_drop].
  apply calls_bind with (R1 := any); [apply Hb|]. intros _ _. by apply IH.
Qed.

Lemma calls_collect n fuel it : obeys it -> calls ok any (collect n fuel it : M _).
Proof.
  revert it. induction n as [|n IH]; intros it Ho; [apply calls_stop|]. simpl.
  eapply calls_bind; [by apply calls_next|]. intros [[fd|] it'] Ho'; [|calls_auto].
  apply calls_bind with (R1 := any); [by apply IH|]. intros l _. by apply calls_ret.
Qed.

(** A builder whose iterators do what is permitted. *)
Record obeys_builder (b : FdIterBuilder) : Prop := {
  obb_fs : fs = false -> has_dirfd target = false \/ b_dirfd b = false;
  obb_cnt : cnt = false -> has_nfds target = false \/ b_skip_nfds b = true;
}.

Lemma calls_iter_from b minfd : obeys_builder b -> calls ok obeys (iter_from b minfd : M _).
Proof.
  intros [Hbf Hbc]. unfold iter_from.
  apply calls_bind with (R1 := fun o : option DirFdIter => fs = false -> o = None).
  - destruct (has_dirfd target && b_dirfd b) eqn:Hd; [|by apply calls_ret].
    apply andb_true_iff in Hd as [Ht Hb].
    assert (Hfs : fs = true).
    { destruct fs eqn:Hfs; [done|]. destruct (Hbf eq_refl); congruence. }
    eapply traces_mono; [by apply calls_dir_open|done|]. intros o _. by rewrite Hfs.
  - intros o Hn. apply calls_ret. by constructor.
Qed.

(** *** Closing and marking *)

Lemma calls_close_range lo hi fl :
  has_close_range target = true ->
  calls ok any (call_or_die (sys_close_range lo hi fl) : M Z).
Proof.
  intros Ht. apply traces_record_or_die. constructor; [|done]. by constructor.
Qed.

Lemma calls_osreldate : target = freebsd -> calls ok any (call sys_sysctl_osreldate : M (Z * Z)).
Proof. intros Ht. apply calls_record. constructor; by rewrite ?Ht. Qed.

Lemma calls_check_has_close_range :
  target = freebsd -> calls ok any (check_has_close_range : M _).
Proof.
  intros Ht. unfold check_has_close_range.
  apply calls_bind with (R1 := any); [apply calls_load|]. intros v _.
  destruct (v =? 1); [by apply calls_ret|]. destruct (v =? 0); [by apply calls_ret|].
  apply calls_bind with (R1 := any); [by apply calls_osreldate|]. intros [? ?] _. calls_auto.
Qed.

Lemma calls_closefrom fd :
  has_closefrom target = true -> calls ok any (Close.closefrom fd : M unit).
Proof.
  intros Ht w a w' [= _ <-]. split; [|done]. exists [c_closefrom fd]. split; [done|].
  constructor; [|done]. by constructor.
Qed.

Lemma calls_try_close_range lo hi :
  has_close_range target = true -> calls ok any (try_close_range lo hi : M _).
Proof.
  intros Ht. assert (Hr := fun fl => calls_close_range lo hi fl Ht).
  pose proof calls_check_has_close_range as Hc.
  unfold try_close_range, try_close_range_linux, try_close_range_freebsd.
  destruct target eqn:He; try discriminate Ht.
  - apply calls_bind with (R1 := any); [apply calls_lift|]. intros _ _.
    apply calls_bind with (R1 := any); [apply Hr|]. intros r _. calls_auto.
  - apply calls_bind with (R1 := any); [apply calls_lift|]. intros _ _.
    apply calls_bind with (R1 := any).
    { destruct debug; [|by apply calls_ret].
      apply calls_bind with (R1 := any); [by apply Hc|]. intros h _. apply calls_lift. }
    intros _ _. apply calls_bind with (R1 := any); [apply Hr|]. intros r _. by apply calls_ret.
Qed.

Lemma calls_try {A} (m : M (result unit)) (k : M (result A)) :
  calls ok any m -> calls ok any k -> calls ok any (try_then m k).
Proof.
  intros Hm Hk. unfold try_then. apply calls_bind with (R1 := any); [done|].
  intros [?|] _; [done|by apply calls_ret].
Qed.

Lemma calls_apply_range minfd keep (func : Z -> Z -> M (result unit)) :
  (forall lo hi, calls ok any (func lo hi)) -> calls ok any (apply_range minfd keep func).
Proof.
  intros Hf. unfold apply_range. destruct (position _ keep) as [idx|]; [|apply Hf].
  apply calls_bind with (R1 := any); [apply calls_lift|]. intros first _. apply calls_try.
  { destruct (minfd <? first); [|by apply calls_ret].
    apply calls_bind with (R1 := any); [apply calls_lift|]. intros hi _. apply Hf. }
  apply calls_bind with (R1 := any); [apply calls_lift|]. intros n _. apply calls_try.
  - generalize (seq 0 (Z.to_nat n)) as ids. intros ids. induction ids as [|i ids IH]; simpl;
      [by apply calls_ret|]. repeat first [apply Hf | apply calls_try | exact IH | calls_step].
  - apply calls_bind with (R1 := any); [apply calls_lift|]. intros last _.
    apply calls_bind with (R1 := any); [apply calls_lift|]. intros lo _. apply Hf.
Qed.

Lemma calls_close_gaps minfd keep srt : calls ok any (close_gaps minfd keep srt : M _).
Proof.
  unfold close_gaps. destruct (has_close_range target && srt) eqn:Hs; [|by apply calls_ret].
  apply andb_true_iff in Hs as [Ht _].
  apply calls_bind with (R1 := any); [apply calls_lift|]. intros _ _. apply calls_try.
  - case_decide; [by apply calls_check_has_close_range|by apply calls_ret].
  - apply calls_apply_range. intros lo hi. by apply calls_try_close_range.
Qed.
Hint Resolve calls_close_gaps : calls.

Lemma calls_close_fds_shortcut minfd keep mx srt :
  calls ok any (close_fds_shortcut minfd keep mx srt : M _).
Proof.
  unfold close_fds_shortcut. destruct (has_closefrom target && (mx <? minfd)) eqn:Hc.
  { apply andb_true_iff in Hc as [Hc _].
    apply calls_bind with (R1 := any); [by apply calls_closefrom|]. intros _ _. by apply calls_ret. }
  case_decide as Ht; [|apply calls_close_gaps].
  apply calls_bind with (R1 := any); [apply calls_load|]. intros may _.
  destruct (negb may); [by apply calls_ret|]. destruct (mx <? minfd); [|apply calls_close_gaps].
  apply calls_try_close_range. by rewrite Ht.
Qed.

Lemma calls_close_rest fuel fd it : obeys it -> calls ok any (close_rest fuel fd it : M unit).
Proof.
  intros Ho. unfold close_rest. destruct (has_closefrom target) eqn:Hc.
  { apply calls_bind with (R1 := any); [apply calls_drop|]. intros _ _. by apply calls_closefrom. }
  apply calls_bind with (R1 := any).
  - unfold close_rest_range. case_decide as Ht; [|by apply calls_ret].
    apply calls_bind with (R1 := any); [apply calls_load|]. intros [] _; [|by apply calls_ret].
    apply calls_bind with (R1 := any); [|intros r _; by apply calls_ret].
    apply calls_try_close_range. by rewrite Ht.
  - intros [] _; [apply calls_drop|].
    apply calls_bind with (R1 := any); [apply calls_libc_close|]. intros _ _.
    apply calls_for_each; [apply calls_libc_close|done].
Qed.

(** The loops of close.rs and cloexec.rs are one. *)
Lemma calls_visit_loop action rest n fuel keep mx srt it :
  (forall fd, calls ok any (action fd : M unit)) ->
  (forall fuel fd it, obeys it -> calls ok any (rest fuel fd it : M unit)) -> obeys it ->
  calls ok any (visit_loop action rest n fuel keep mx srt it : M unit).
Proof.
  intros Ha Hr. revert keep it. induction n as [|n IH]; intros keep it Ho; [apply calls_stop|].
  simpl. eapply calls_bind; [by apply calls_next|]. intros [[fd|] it'] Ho'; [|apply calls_drop].
  destruct (mx <? fd); [by apply Hr|]. destruct (check_should_keep keep fd srt) as [kept keep'].
  apply calls_bind with (R1 := any); [destruct kept; [by apply calls_ret|apply Ha]|].
  intros _ _. by apply IH.
Qed.

Lemma calls_close_fds fuel minfd k b :
  (fs = false -> has_dirfd target = false \/ b_dirfd b = false) ->
  (cnt = false -> has_nfds target = false \/ has_closefrom target = true) ->
  calls ok any (close_fds fuel minfd k b : M unit).
Proof.
  intros Hbf Hbc. unfold close_fds.
  apply calls_bind with (R1 := any); [apply calls_lift|]. intros [keep m] _.
  apply calls_bind with (R1 := any); [apply calls_close_fds_shortcut|]. intros r _.
  destruct (is_ok r); [by apply calls_ret|].
  eapply calls_bind.
  - apply calls_iter_from. constructor.
    + intros Hf. unfold set_threadsafe. destruct (has_closefrom target), (has_nfds target); auto.
    + intros Hc. unfold set_threadsafe. destruct (Hbc Hc) as [->| ->]; [by left|].
      destruct (has_nfds target); [by right|by left].
  - intros it Ho. apply (calls_visit_loop libc_close close_rest); [apply calls_libc_close| |done].
    intros. by apply calls_close_rest.
Qed.

Lemma calls_set_cloexec_range lo hi :
  target = linux -> calls ok any (set_cloexec_range lo hi : M _).
Proof.
  intros Ht. unfold set_cloexec_range.
  apply calls_bind with (R1 := any); [apply calls_lift|]. intros _ _.
  apply calls_bind with (R1 := any); [apply calls_close_range; by rewrite Ht|]. intros r _.
  calls_auto.
Qed.

Lemma calls_set_cloexec_rest fuel fd it :
  obeys it -> calls ok any (set_cloexec_rest fuel fd it : M unit).
Proof.
  intros Ho. unfold set_cloexec_rest. apply calls_bind with (R1 := any).
  - unfold set_cloexec_rest_range. case_decide as Ht; [|by apply calls_ret].
    apply calls_bind with (R1 := any); [apply calls_load|]. intros [] _; [|by apply calls_ret].
    apply calls_bind with (R1 := any); [|intros r _; by apply calls_ret].
    by apply calls_set_cloexec_range.
  - intros [] _; [apply calls_drop|].
    apply calls_bind with (R1 := any); [apply calls_set_cloexec|]. intros _ _.
    apply calls_for_each; [apply calls_set_cloexec|done].
Qed.

Lemma calls_set_fds_cloexec fuel minfd k b :
  obeys_builder b -> calls ok any (Cloexec.set_fds_cloexec fuel minfd k b : M unit).
Proof.
  intros Hb. unfold Cloexec.set_fds_cloexec.
  apply calls_bind with (R1 := any); [apply calls_lift|]. intros [keep m] _.
  apply calls_bind with (R1 := any).
  { case_decide as Ht; [|by apply calls_ret]. unfold set_cloexec_shortcut.
    apply calls_bind with (R1 := any); [apply calls_load|]. intros may _.
    destruct (negb may); [by apply calls_ret|].
    destruct (_ <? m); [by apply calls_set_cloexec_range|].
    destruct (kf_sorted k); [|by apply calls_ret].
    apply calls_apply_range. intros lo hi. by apply calls_set_cloexec_range. }
  intros r _. destruct (is_ok r); [by apply calls_ret|].
  eapply calls_bind; [apply calls_iter_from; destruct Hb; by constructor|].
  intros it Ho. apply (calls_visit_loop set_cloexec set_cloexec_rest);
    [apply calls_set_cloexec| |done]. intros. by apply calls_set_cloexec_rest.
Qed.

Lemma calls_iterate fuel b minfd :
  obeys_builder b -> calls ok any (iterate fuel b minfd : M _).
Proof.
  intros Hb. unfold iterate. eapply calls_bind; [by apply calls_iter_from|].
  intros it Ho. by apply calls_collect.
Qed.

Lemma calls_probe_features : calls ok any (probe_features : M unit).
Proof.
  unfold probe_features, probe_features_imp, closefds_probe, iterfds_probe.
  destruct (cfg_any _ _); [|by apply calls_ret].
  apply calls_bind with (R1 := any); [apply calls_load|]. intros [] _; [by apply calls_ret|].
  apply calls_bind with (R1 := any); [apply calls_store|]. intros _ _.
  apply calls_bind with (R1 := any); [apply calls_bind with (R1 := any)|intros _ _].
  - unfold close_probe. destruct target eqn:Ht; try by apply calls_ret.
    + apply calls_bind with (R1 := any); [apply calls_close_range; by rewrite Ht|].
      intros r _. calls_auto.
    + apply calls_bind with (R1 := any); [by apply calls_check_has_close_range|].
      intros r _. by apply calls_ret.
  - intros _ _. unfold cloexec_probe. case_decide; [|by apply calls_ret].
    apply calls_bind with (R1 := any); [by apply calls_set_cloexec_range|].
    intros r _. by apply calls_ret.
  - calls_auto.
Qed.
End operations.

(** ** The number of calls *)

Section few.
Context `{C : Config, !ConfigOk C} {K : Type} `{SK : Sys K} `{KV : KernelView K}
  {KS : KernelSpec K}.
Local Abbreviation M := (ST (World (Traced K))).

(** FreeBSD asks once for its version; until then there is that call to come. *)
Definition to_ask (s : Statics) : nat :=
  if decide (target = freebsd /\ HAS_CLOSE_RANGE s <> 0 /\ HAS_CLOSE_RANGE s <> 1) then 1 else 0.

(** At most [n] calls besides that one. *)
Definition at_most {A} (n : nat) (m : M A) : Prop := forall w a w', m w = Done (a, w') ->
  exists l, log (kern w') = l ++ log (kern w) /\
    (length l + to_ask (statics w') <= n + to_ask (statics w))%nat.

(** [m] makes at most [n] calls and leaves that static alone. *)
Lemma at_most_traces {A} n (m : M A) :
  traces (fun l => (length l <= n)%nat) (fun _ => True) m ->
  (forall w a w', m w = Done (a, w') ->
     HAS_CLOSE_RANGE (statics w') = HAS_CLOSE_RANGE (statics w)) -> at_most n m.
Proof.
  intros Hm Hs w a w' Hw. destruct (Hm _ _ _ Hw) as [(l & Hl & Hn) _]. exists l.
  split; [done|]. unfold to_ask. rewrite (Hs _ _ _ Hw). lia.
Qed.

Lemma at_most_ret {A} n (a : A) : at_most n (mret a : M A).
Proof. intros w b w' [= _ <-]. exists []. split; [done|simpl; lia]. Qed.

Lemma at_most_mono {A} n n' (m : M A) : (n <= n')%nat -> at_most n m -> at_most n' m.
Proof. intros Hn Hm w a w' (l & Hl & Hc)%Hm. exists l. split; [done|lia]. Qed.

Lemma at_most_bind {A B} n1 n2 (m : M A) (f : A -> M B) :
  at_most n1 m -> (forall a, at_most n2 (f a)) -> at_most (n1 + n2) (m ≫= f).
Proof.
  intros Hm Hf w b w' (a & w1 & (l1 & E1 & H1)%Hm & (l2 & E2 & H2)%Hf)%ST_bind_Done.
  exists (l2 ++ l1). rewrite E2, E1, app_assoc, length_app. split; [done|lia].
Qed.

(** Steps that make no call. *)
Lemma at_most_lift {A B} n (o : outcome A) (f : A -> M B) :
  (forall a, at_most n (f a)) -> at_most n (lift o ≫= f).
Proof.
  intros Hf. apply (at_most_bind 0 n); [|done]. apply at_most_traces; [by apply traces_lift|].
  by intros w a w' [_ ->]%lift_inv.
Qed.

Lemma at_most_lift_last {A} n (o : outcome A) : at_most n (lift o : M A).
Proof. intros w a w' [_ ->]%lift_inv. exists []. split; [done|simpl; lia]. Qed.

Lemma at_most_load {A B} n (g : Statics -> A) (f : A -> M B) :
  (forall a, at_most n (f a)) -> at_most n (load g ≫= f).
Proof.
  intros Hf. apply (at_most_bind 0 n); [|done]. apply at_most_traces; [by apply traces_load|].
  intros w a w'. rewrite load_alone. by intros [= _ <-].
Qed.

Lemma at_most_ext {A} n (m m' : M A) : (forall w, m w = m' w) -> at_most n m' -> at_most n m.
Proof. intros He Hm w a w'. rewrite He. apply Hm. Qed.

Lemma run_ranges_at_most (func : Z -> Z -> M (result unit)) rs :
  (forall lo hi, at_most 1 (func lo hi)) -> at_most (length rs) (run_ranges func rs).
Proof.
  intros Hf. induction rs as [|[lo hi] rs IH]; [apply at_most_ret|]. simpl.
  apply (at_most_bind 1 (length rs)); [apply Hf|]. intros [?|]; [exact IH|apply at_most_ret].
Qed.

Lemma gaps_length minfd keep : (length (gaps minfd keep) <= length keep + 1)%nat.
Proof.
  revert minfd. induction keep as [|x keep IH]; intros minfd; simpl; [lia|].
  pose proof (IH minfd). pose proof (IH (x + 1)).
  destruct (x <? minfd); [lia|]. rewrite length_app. destruct (minfd <? x); simpl; lia.
Qed.

Lemma apply_range_at_most minfd keep mx (func : Z -> Z -> M (result unit)) (w : World (Traced K)) :
  (forall lo hi, at_most 1 (func lo hi)) -> shortcut_pre minfd keep mx true w ->
  at_most (length keep + 1) (apply_range minfd keep func).
Proof.
  intros Hf [_ Hm Hs Hi Hx _ _]. eapply at_most_ext.
  - intros w'. apply apply_range_spec; [done|by apply Hs|].
    rewrite Forall_forall in Hi |- *. intros x Hin. specialize (Hi x Hin).
    assert (x <> i32_MAX) by (intros ->; done). lia.
  - eapply at_most_mono; [apply gaps_length|by apply run_ranges_at_most].
Qed.

(** One range is one call. *)
Lemma range_at_most {B} n lo hi fl (f : Z -> M B) :
  (forall r, at_most n (f r)) -> at_most (1 + n) (call_or_die (sys_close_range lo hi fl) ≫= f).
Proof.
  intros Hf. apply at_most_bind; [|done]. apply at_most_traces; [by apply traces_record_or_die|].
  intros w a w'. unfold call_or_die. destruct (sys_close_range lo hi fl (kern w)) as [[?|] ?];
    by intros [= _ <-].
Qed.

Lemma store_err_at_most f :
  (forall s, HAS_CLOSE_RANGE (f s) = HAS_CLOSE_RANGE s) ->
  at_most 0 (store f;; mret Err : M (result unit)).
Proof.
  intros Hf. apply (at_most_bind 0 0); [|intros _; apply at_most_ret].
  apply at_most_traces; [by apply traces_store|]. intros w a w'. rewrite store_alone.
  intros [= _ <-]. apply Hf.
Qed.

(** The check makes the call that is still to come, and remembers the answer. *)
Lemma check_has_close_range_at_most :
  target = freebsd -> at_most 0 (check_has_close_range : M _).
Proof.
  intros Ht w a w'. unfold check_has_close_range.
  intros (v & w1 & Hl & Hw)%ST_bind_Done. rewrite load_alone in Hl. injection Hl as <- <-.
  destruct (Z.eqb_spec (HAS_CLOSE_RANGE (statics w)) 1) as [H1|H1].
  { injection Hw as _ <-. by exists []. }
  destruct (Z.eqb_spec (HAS_CLOSE_RANGE (statics w)) 0) as [H0|H0].
  { injection Hw as _ <-. by exists []. }
  apply ST_bind_Done in Hw as ([r v] & w2 & Hc & Hw). cbn beta iota in Hw.
  assert (Hdone : forall v' (r' : result unit), v' = 0 \/ v' = 1 ->
    (store (store_HAS_CLOSE_RANGE v');; mret r' : M _) w2 = Done (a, w') ->
    kern w' = kern w2 /\ to_ask (statics w') = O).
  { intros v' r' Hv' (u & w3 & Hs & [= _ <-])%ST_bind_Done. rewrite store_alone in Hs.
    injection Hs as _ <-. split; [done|]. unfold to_ask. rewrite decide_False; [done|].
    simpl. tauto. }
  assert (kern w' = kern w2 /\ to_ask (statics w') = O) as [Hk Hz].
  { destruct (_ || _); eapply Hdone; try exact Hw; auto. }
  assert (Hask : to_ask (statics w) = 1%nat) by (unfold to_ask; by rewrite decide_True).
  exists [c_osreldate]. rewrite Hk, Hz, Hask. split; [|done].
  revert Hc. unfold call. simpl. destruct (record c_osreldate sys_sysctl_osreldate (kern w)) eqn:Hr.
  intros [= _ <-]. by apply record_inv in Hr as [_ ?].
Qed.

Lemma try_close_range_at_most lo hi :
  target = linux \/ target = freebsd -> at_most 1 (try_close_range lo hi : M _).
Proof.
  intros [Ht|Ht]; unfold try_close_range; rewrite Ht; apply at_most_lift; intros _.
  - apply (range_at_most 0). intros r.
    destruct (r =? 0); [apply at_most_ret|by apply store_err_at_most].
  - apply (at_most_bind 0 1).
    + destruct debug; [|apply at_most_ret].
      apply (at_most_bind 0 0); [by apply check_has_close_range_at_most|].
      intros r. apply at_most_lift_last.
    + intros _. apply (range_at_most 0). intros r. apply at_most_ret.
Qed.

Lemma set_cloexec_range_at_most lo hi : at_most 1 (set_cloexec_range lo hi : M _).
Proof.
  apply at_most_lift. intros _. apply (range_at_most 0). intros r.
  destruct (r =? 0); [apply at_most_ret|by apply store_err_at_most].
Qed.

Lemma closefrom_at_most fd : at_most 1 (Close.closefrom fd : M _).
Proof.
  intros w a w' [= _ <-]. exists [c_closefrom fd]. split; [done|simpl; lia].
Qed.

Lemma shortcut_at_most minfd keep mx srt (w : World (Traced K)) :
  shortcut_pre minfd keep mx srt w ->
  at_most (length keep + 1) (close_fds_shortcut minfd keep mx srt : M _).
Proof.
  intros Hpre. assert (Hone : (1 <= length keep + 1)%nat) by lia.
  assert (Hgaps : at_most (length keep + 1) (close_gaps minfd keep srt : M _)).
  { unfold close_gaps. destruct (has_close_range target && srt) eqn:Hc; [|apply at_most_ret].
    apply andb_true_iff in Hc as [Ht ->].
    assert (Ht' : target = linux \/ target = freebsd) by (destruct target; try done; auto).
    apply at_most_lift. intros _. apply (at_most_bind 0 _).
    - case_decide; [by apply check_has_close_range_at_most|apply at_most_ret].
    - intros [u|]; [|apply at_most_ret]. eapply apply_range_at_most; [|exact Hpre].
      intros lo hi. by apply try_close_range_at_most. }
  unfold close_fds_shortcut. destruct (has_closefrom target && (mx <? minfd)).
  { eapply at_most_mono; [exact Hone|].
    apply (at_most_bind 1 0); [apply closefrom_at_most|intros _; apply at_most_ret]. }
  case_decide as Ht; [|done]. apply at_most_load. intros may.
  destruct (negb may); [apply at_most_ret|]. destruct (mx <? minfd); [|done].
  eapply at_most_mono; [exact Hone|]. apply try_close_range_at_most. by left.
Qed.

Lemma cloexec_shortcut_at_most minfd keep mx srt (w : World (Traced K)) :
  shortcut_pre minfd keep mx srt w ->
  at_most (length keep + 1) (set_cloexec_shortcut minfd keep mx srt : M _).
Proof.
  intros Hpre. apply at_most_load. intros may. destruct (negb may); [apply at_most_ret|].
  destruct (mx <? minfd).
  { eapply at_most_mono; [|apply set_cloexec_range_at_most]. lia. }
  destruct srt; [|apply at_most_ret]. eapply apply_range_at_most; [|exact Hpre].
  intros lo hi. apply set_cloexec_range_at_most.
Qed.

(** What a run that is known to end has made. *)
Lemma at_most_wp {A} n (m : M A) Q w :
  at_most n m -> log (kern w) = [] -> wp m Q w ->
  wp m (fun a w' => Q a w' /\ (length (log (kern w')) <= n + to_ask (statics w))%nat) w.
Proof.
  intros Hm Hl (a & w' & Hw & HQ)%wp_done. apply wp_done. exists a, w'. split_and!; [done|done|].
  destruct (Hm _ _ _ Hw) as (l & El & Hn). rewrite Hl, app_nil_r in El. rewrite El. lia.
Qed.

(** The slice never gets longer. *)
Lemma simplify_keep_fds_length keep srt minfd keep' minfd' :
  simplify_keep_fds keep srt minfd = Done (keep', minfd') -> (length keep' <= length keep)%nat.
Proof.
  unfold simplify_keep_fds. destruct srt; [|by intros [= <- _]].
  revert minfd. induction keep as [|x keep IH]; intros minfd; simpl; [by intros [= <- _]|].
  destruct (x ?= minfd).
  - intros (m & _ & Hs)%outcome_bind_Done. apply IH in Hs. lia.
  - intros Hs%IH. lia.
  - by intros [= <- _].
Qed.
End few.

(** ** Properties *)

Section properties.
Context `{C : Config, !ConfigOk C} {K : Type} `{SK : Sys K} `{KV : KernelView K}
  {KS : KernelSpec K}.

(** A run that is known to end makes only the calls shown. *)
Lemma wp_calls {A} (q : sys_call -> Prop) fs cnt (m : ST (World (Traced K)) A) Q w :
  log (kern w) = [] -> calls (permitted fs cnt) (fun _ => True) m -> wp m Q w ->
  (forall c, permitted fs cnt c -> q c) ->
  wp m (fun _ w' => Forall q (log (kern w'))) w.
Proof.
  intros Hl Hm Hw Hq. eapply wp_mono; [by apply (traces_wp _ _ _ _ _ Hm Hl Hw)|].
  intros a w' (_ & Hp & _). eapply Forall_impl; [exact Hp|]. exact Hq.
Qed.

Lemma obeys_any b : obeys_builder true true b.
Proof. by constructor. Qed.

(** C15. Async-signal-safety, as src/lib.rs states it: on every target, closing,
    marking, a whole iteration and probing terminate and call nothing but
    functions that POSIX requires to be async-signal-safe and those of the list
    in the documentation, each on the systems listed there. *)
Theorem async_signal_safety fuel b bi minfd w :
  enough_fuel fuel -> builder_ok b -> world_ok w -> minfd <= i32_MAX -> log (kern w) = [] ->
  let safe (w' : World (Traced K)) :=
    Forall (fun c => signal_safe target c = true) (log (kern w')) in
  wp (CloseFds.closefrom fuel b minfd) (fun _ w' => safe w') w /\
  wp (cloexecfrom fuel b minfd) (fun _ w' => safe w') w /\
  wp (iterate fuel bi minfd) (fun _ w' => safe w') w /\
  wp probe_features (fun _ w' => safe w') w.
Proof.
  intros Hf Hb Hok Hm Hl safe. assert (Hz : 0 <= Z.max minfd 0 <= i32_MAX) by (unfold i32_MAX in *; lia).
  pose proof (pm_safe true true) as Hsafe.
  split_and!; eapply wp_calls; try exact Hsafe; try done.
  - by apply calls_close_fds.
  - by apply close_fds_spec.
  - apply calls_set_fds_cloexec, obeys_any.
  - by apply set_fds_cloexec_spec.
  - apply calls_iterate, obeys_any.
  - by apply iterate_spec.
  - apply calls_probe_features.
  - by apply probe_features_spec.
Qed.

(** C16. [allow_filesystem(false)] is kept: nothing is opened or read and no
    file is looked at, in closing, marking or iterating, on any target. *)
Theorem no_filesystem_calls fuel b bi minfd w :
  enough_fuel fuel -> builder_ok b -> world_ok w -> minfd <= i32_MAX -> log (kern w) = [] ->
  let blind (w' : World (Traced K)) := Forall (fun c => looks c = false) (log (kern w')) in
  wp (CloseFds.closefrom fuel (allow_filesystem false b) minfd) (fun _ w' => blind w') w /\
  wp (cloexecfrom fuel (allow_filesystem false b) minfd) (fun _ w' => blind w') w /\
  wp (iterate fuel (set_allow_filesystem false bi) minfd) (fun _ w' => blind w') w.
Proof.
  intros Hf Hb Hok Hm Hl blind. assert (Hz : 0 <= Z.max minfd 0 <= i32_MAX) by (unfold i32_MAX in *; lia).
  assert (Hblind : forall c, permitted false true c -> looks c = false) by (intros c [_ Hc _]; auto).
  assert (Hbi : forall bi, has_dirfd target = false \/ b_dirfd (set_allow_filesystem false bi) = false).
  { intros bi'. unfold set_allow_filesystem. destruct (has_dirfd target); auto. }
  split_and!; eapply wp_calls; try exact Hblind; try done.
  - apply calls_close_fds; [intros _; apply Hbi|done].
  - by apply close_fds_spec.
  - apply calls_set_fds_cloexec. constructor; [intros _; apply Hbi|done].
  - by apply set_fds_cloexec_spec.
  - apply calls_iterate. constructor; [intros _; apply Hbi|done].
  - by apply iterate_spec.
Qed.

(** C17. The open descriptors are never counted "by the thread-safe functions or
    when closing file descriptors" (README.md): not by [closefrom] with any
    builder, and not by [cloexecfrom] or an iteration with [threadsafe(true)]. *)
Theorem no_counting_calls fuel b bi minfd w :
  enough_fuel fuel -> builder_ok b -> world_ok w -> minfd <= i32_MAX -> log (kern w) = [] ->
  let uncounted (w' : World (Traced K)) := Forall (fun c => counts c = false) (log (kern w')) in
  wp (CloseFds.closefrom fuel b minfd) (fun _ w' => uncounted w') w /\
  wp (cloexecfrom fuel (threadsafe true b) minfd) (fun _ w' => uncounted w') w /\
  wp (iterate fuel (set_threadsafe true bi) minfd) (fun _ w' => uncounted w') w.
Proof.
  intros Hf Hb Hok Hm Hl uncounted. assert (Hz : 0 <= Z.max minfd 0 <= i32_MAX) by (unfold i32_MAX in *; lia).
  assert (Hun : forall c, permitted true false c -> counts c = false) by (intros c [_ _ Hc]; auto).
  assert (Hbi : forall bi, has_nfds target = false \/ b_skip_nfds (set_threadsafe true bi) = true).
  { intros bi'. unfold set_threadsafe. destruct (has_nfds target); auto. }
  split_and!; eapply wp_calls; try exact Hun; try done.
  - apply calls_close_fds; [done|]. intros _. destruct target; auto.
  - by apply close_fds_spec.
  - apply calls_set_fds_cloexec. constructor; [done|intros _; apply Hbi].
  - by apply set_fds_cloexec_spec.
  - apply calls_iterate. constructor; [done|intros _; apply Hbi].
  - by apply iterate_spec.
Qed.

(** C18. The shortcuts are short: where [closefrom] or a working [close_range] does
    the work ([shortcut_available], [cloexec_available]), [closefrom] and
    [cloexecfrom] make at most one call for each kept descriptor and one more; so
    a single call when nothing is kept. On FreeBSD a process that has not asked
    for the version of its system yet makes that call as well, once. *)
Theorem few_calls fuel b minfd w :
  enough_fuel fuel -> builder_ok b -> world_ok w -> 0 <= minfd <= i32_MAX -> log (kern w) = [] ->
  let k := cb_keep_fds b in
  let few n (w' : World (Traced K)) := (length (log (kern w')) <= length (kf_fds k) + n)%nat in
  (shortcut_available minfd (kf_max k) (kf_sorted k) w ->
   wp (CloseFds.closefrom fuel b minfd)
     (fun _ w' => few (1 + to_ask (statics w))%nat w') w) /\
  (cloexec_available minfd (kf_max k) (kf_sorted k) w ->
   wp (cloexecfrom fuel b minfd) (fun _ w' => few 1%nat w') w).
Proof.
  intros Hf Hb Hok Hm Hl k few. unfold CloseFds.closefrom, cloexecfrom. rewrite Z.max_l by lia.
  destruct (simplified_pre k minfd w Hb Hok Hm) as (keep' & m & Heq & Hle & _ & Hpre).
  pose proof (simplify_keep_fds_length _ _ _ _ _ Heq) as Hlen. split; intros Hav.
  - assert (Hav' : shortcut_available m (kf_max k) (kf_sorted k) w).
    { unfold shortcut_available in *. intuition lia. }
    apply wp_bind. eapply wp_lift; [exact Heq|]. cbn beta iota. apply wp_bind.
    eapply wp_mono; [eapply at_most_wp; [by eapply shortcut_at_most|exact Hl|
      by apply close_fds_shortcut_spec]|].
    intros r w' ([_ Hr] & Hn). rewrite Hr by done. apply wp_ret. unfold few, k in *. lia.
  - assert (Hav' : cloexec_available m (kf_max k) (kf_sorted k) w).
    { unfold cloexec_available in *. intuition lia. }
    assert (Hz : to_ask (statics w) = O).
    { unfold to_ask. rewrite decide_False; [done|]. destruct Hav as [-> _]. by intros [? _]. }
    apply wp_bind. eapply wp_lift; [exact Heq|]. cbn beta iota. apply wp_bind.
    rewrite decide_True by apply Hav.
    eapply wp_mono; [eapply at_most_wp; [by eapply cloexec_shortcut_at_most|exact Hl|
      by apply set_cloexec_shortcut_spec; [apply Hav|]]|].
    intros r w' ([_ Hr] & Hn). rewrite Hr by done. apply wp_ret. unfold few, k in *. lia.
Qed.
End properties.
