(* ===== verification/Runs.v ===== *)
(** * Running the model

    Concrete targets and systems on the kernel of RefKernel.v, and runs of the
    whole crate on them: the scenarios of tests/test_close_fds.rs, each fallback
    path, other threads at work, and the inputs on which the crate does not do
    what it means to. *)

From S2P Require Import Prelude Platform Ints Sys KernelSpec Util RefKernel DirFdIter FdIter IterFds Threads KeepFds Visit Close Cloexec CloseFds Trace Lib IntegrationTests.

(** ** Systems *)

(** A 64-bit target, with the [dirent64] of Linux. *)
Definition cfg (t : target_os) (dbg : bool) : Config := {|
  target := t; debug := dbg; usize_bits := 64; big_endian := false; ino_t_size := 8;
  libc_dirent :=
    {| d_reclen_off := 16; d_name_off := 19; d_name_len := 256; d_size := 280 |} |}.

#[export] Instance cfg_ok t dbg : ConfigOk (cfg t dbg).
Proof. constructor; [by right|by right|]. constructor; simpl; lia. Qed.

(** Release "5.15", then NUL bytes; with or without [close_range] and its flag. *)
Definition env_with (range flag : option bool) (known : bool) (paths : list string) : Env := {|
  env_open_max := 1024; env_release := [53; 46; 49; 53; 0; 0]; env_osreldate := 1300000;
  env_dev := 1; env_devfd := 2; env_paths := paths; env_close_range := range;
  env_cloexec_range := flag; env_osreldate_known := known |}.
Definition env0 : list string -> Env := env_with (Some false) (Some false) true.

(** A system with or without directories, [close_range] and its flag, and with
    directory reads that fail from a position on. *)
Definition conf (dirs : list string) (range flag : bool) (fail : option Z) : RKConf := {|
  rc_env := env_with (Some range) (Some flag) true dirs;
  rc_getdents_fail := fail; rc_nfds := true; rc_maxfd := true |}.

Definition fd_dirs : list string := ["/proc/self/fd"; "/dev/fd"]%string.

(** Everything available; directories only; neither; a directory that fails
    once descriptors up to 4 are read. *)
Definition modern : RKConf := conf fd_dirs true true None.
Definition classic : RKConf := conf fd_dirs false false None.
Definition bare : RKConf := conf [] false false None.
Definition flaky : RKConf := conf fd_dirs false false (Some 5).

(** The descriptors [l] are open, with no flags. *)
Definition table (l : list Z) : gmap Z Z := list_to_map ((fun f => (f, 0)) <$> l).

Definition kernel (l : list Z) (c : RKConf) : RK :=
  {| rk_table := table l; rk_dirs := ∅; rk_errno := 0; rk_conf := c |}.

(** A process that has just started. *)
Definition start (l : list Z) (c : RKConf) : World RK := mkWorld (kernel l c) initial_statics.

(** ** What a run shows: the descriptors with their flags, in order *)

Definition entries (k : RK) : list (Z * Z) :=
  (fun f => (f, default 0 (fds k !! f))) <$> sorted_fds (fds k).

Definition observe {A} (o : outcome (A * World RK)) : outcome (list (Z * Z)) :=
  match o with
  | Done (_, w) => Done (entries (kern w))
  | Panic => Panic | Undefined => Undefined | Killed => Killed | OutOfFuel => OutOfFuel
  end.

Definition result_of {A} (o : outcome (A * World RK)) : outcome (A * list Z) :=
  match o with
  | Done (a, w) => Done (a, (entries (kern w)).*1)
  | Panic => Panic | Undefined => Undefined | Killed => Killed | OutOfFuel => OutOfFuel
  end.

(** Enough for these tables. *)
Definition steps : nat := 2000.

Definition opens : list Z := [0; 1; 2; 3; 5; 6; 7; 9].

Section runs.
Context `{C : Config}.

Definition run_close (minfd : Z) (keep l : list Z) (c : RKConf) : outcome (list (Z * Z)) :=
  observe (close_open_fds steps minfd keep (start l c)).
Definition run_cloexec (minfd : Z) (keep l : list Z) (c : RKConf) : outcome (list (Z * Z)) :=
  observe (set_fds_cloexec steps minfd keep (start l c)).
Definition run_iter (b : FdIterBuilder) (minfd : Z) (l : list Z) (c : RKConf)
  : outcome (list Z * list Z) :=
  result_of (iterate steps b minfd (start l c)).

(** The statics after a run. *)
Definition statics_of {A} (o : outcome (A * World RK)) : option Statics :=
  match o with Done (_, w) => Some (statics w) | _ => None end.
Definition probe_statics (l : list Z) (c : RKConf) : option Statics :=
  statics_of (probe_features (start l c)).
Definition close_statics (minfd : Z) (keep l : list Z) (c : RKConf) : option Statics :=
  statics_of (close_open_fds steps minfd keep (start l c)).
End runs.

Abbreviation plain l := (Done ((fun f => (f, 0)) <$> l)).

(** ** [close_open_fds]: every method closes the same descriptors *)

Example close_modern : run_close (C := cfg linux true) 3 [5; 7] opens modern = plain [0; 1; 2; 5; 7].
Proof. by vm_compute. Qed.
Example close_classic : run_close (C := cfg linux true) 3 [5; 7] opens classic = plain [0; 1; 2; 5; 7].
Proof. by vm_compute. Qed.
Example close_bare : run_close (C := cfg linux true) 3 [7; 5] opens bare = plain [0; 1; 2; 5; 7].
Proof. by vm_compute. Qed.
Example close_flaky : run_close (C := cfg linux true) 3 [7; 5] opens flaky = plain [0; 1; 2; 5; 7].
Proof. by vm_compute. Qed.
Example close_freebsd : run_close (C := cfg freebsd true) 3 [7; 5] opens modern = plain [0; 1; 2; 5; 7].
Proof. by vm_compute. Qed.
Example close_netbsd : run_close (C := cfg netbsd true) 3 [5; 7] opens bare = plain [0; 1; 2; 5; 7].
Proof. by vm_compute. Qed.
Example close_openbsd : run_close (C := cfg openbsd false) 3 [5; 7] opens bare = plain [0; 1; 2; 5; 7].
Proof. by vm_compute. Qed.
Example close_macos : run_close (C := cfg macos false) 3 [5; 7] opens classic = plain [0; 1; 2; 5; 7].
Proof. by vm_compute. Qed.
Example close_solaris : run_close (C := cfg solaris true) (-1) [5; 7] opens classic = plain [5; 7].
Proof. by vm_compute. Qed.

(** ** [set_fds_cloexec] *)

Example cloexec_modern : run_cloexec (C := cfg linux true) 3 [5] opens modern =
  Done [(0, 0); (1, 0); (2, 0); (3, 1); (5, 0); (6, 1); (7, 1); (9, 1)].
Proof. by vm_compute. Qed.
Example cloexec_flaky : run_cloexec (C := cfg linux true) 3 [5] opens flaky =
  Done [(0, 0); (1, 0); (2, 0); (3, 1); (5, 0); (6, 1); (7, 1); (9, 1)].
Proof. by vm_compute. Qed.

(** ** Iterators *)

Example iter_open_dir :
  run_iter (C := cfg linux true) fd_iter_builder_new (-1) opens classic = Done (opens, opens).
Proof. by vm_compute. Qed.
Example iter_open_flaky :
  run_iter (C := cfg linux true) fd_iter_builder_new 2 opens flaky = Done ([2; 3; 5; 6; 7; 9], opens).
Proof. by vm_compute. Qed.
Example iter_possible_openbsd :
  run_iter (C := cfg openbsd true) (set_possible true fd_iter_builder_new) 4 opens bare =
    Done ([4; 5; 6; 7; 8; 9], opens).
Proof. by vm_compute. Qed.

(** ** [probe_features] *)

Example probe_classic : probe_statics (C := cfg linux true) opens classic =
  Some {| MAY_HAVE_CLOSE_RANGE := false; MAY_HAVE_CLOSE_RANGE_CLOEXEC := false;
          HAS_CLOSE_RANGE := 2; IS_WSL1 := 0; PROBED := true |}.
Proof. by vm_compute. Qed.
Example probe_modern : probe_statics (C := cfg linux true) opens modern =
  Some {| MAY_HAVE_CLOSE_RANGE := true; MAY_HAVE_CLOSE_RANGE_CLOEXEC := true;
          HAS_CLOSE_RANGE := 2; IS_WSL1 := 0; PROBED := true |}.
Proof. by vm_compute. Qed.
Example probe_freebsd : probe_statics (C := cfg freebsd true) opens modern =
  Some {| MAY_HAVE_CLOSE_RANGE := true; MAY_HAVE_CLOSE_RANGE_CLOEXEC := true;
          HAS_CLOSE_RANGE := 1; IS_WSL1 := 2; PROBED := true |}.
Proof. by vm_compute. Qed.

(** ** The integration tests *)

Section test_runs.
Context `{C : Config}.

(** A basic test, with one setting of the builder, and what it leaves open. *)
Definition run_basic (c : Z -> Z -> Z -> CloseFdsBuilder -> ST (World RK) unit)
    (s : bool * bool) (k : RKConf) : outcome (unit * list Z) :=
  result_of (run_basic_test c
    (CloseFds.threadsafe s.2 (allow_filesystem s.1 close_fds_builder_new)) (start [0; 1; 2; 4] k)).
Definition run_possible := run_basic (iter_possible_fds_test steps).
Definition run_keep1 := run_basic (close_fds_keep1_test steps).
Definition run_child (k : RKConf) : outcome (Z * list Z) :=
  result_of (no_fds_child steps (start opens k)).
End test_runs.

(** "/" and the directories. *)
Definition all_files : list string := "/"%string :: fd_dirs.

(** [iter_possible_fds_test], where a directory is used and where none is. *)
Example possible_test_linux :
  run_possible (C := cfg linux true) (true, true)
    (conf all_files true true None) = Done (tt, [0; 1; 2; 4]).
Proof. by vm_compute. Qed.
Example possible_test_freebsd :
  run_possible (C := cfg freebsd true)
    (true, false) (conf ["/"%string] true true None) = Done (tt, [0; 1; 2; 4]).
Proof. by vm_compute. Qed.
Example possible_test_netbsd :
  run_possible (C := cfg netbsd false)
    (false, false) (conf all_files true true None) = Done (tt, [0; 1; 2; 4]).
Proof. by vm_compute. Qed.

(** [close_fds_keep1_test] closes what is above its files and not in its list. *)
Example keep1_test_linux :
  run_keep1 (C := cfg linux true) (true, true)
    (conf all_files false false None) = Done (tt, [0; 1; 2]).
Proof. by vm_compute. Qed.

(** The child of [run_no_fds_tests]; its status is 2 where "/" cannot be opened. *)
Example child_linux :
  run_child (C := cfg linux true) (conf all_files true true None) = Done (0, [0]).
Proof. by vm_compute. Qed.
Example child_openbsd :
  run_child (C := cfg openbsd true) (conf ["/"%string] false false None) = Done (0, [0]).
Proof. by vm_compute. Qed.
Example child_no_root :
  run_child (C := cfg linux true) (conf fd_dirs false false None) = Done (2, []).
Proof. by vm_compute. Qed.

(** ** At the upper bound of [c_int]

    The slice [[c_int::MAX]] with that same minimum: there is nothing to close,
    but [*minfd += 1] in [simplify_keep_fds] overflows. With overflow checks the
    call panics; without them [minfd] wraps to [c_int::MIN] and every descriptor
    is closed, the standard streams included. *)
Example close_limit_debug :
  run_close (C := cfg linux true) i32_MAX [i32_MAX] opens bare = Panic.
Proof. by vm_compute. Qed.
Example close_limit_release :
  run_close (C := cfg linux false) i32_MAX [i32_MAX] opens bare = Done [].
Proof. by vm_compute. Qed.

(** [c_int::MAX] at the end of a sorted slice: [last + 1] in [apply_range]
    overflows. With overflow checks the call panics after it has closed the
    first ranges; without them it asks for an inverted range and then believes
    that a working [close_range] is missing. *)
Example close_last_debug :
  run_close (C := cfg linux true) 3 [5; i32_MAX] opens modern = Panic.
Proof. by vm_compute. Qed.
Example close_last_release :
  run_close (C := cfg linux false) 3 [5; i32_MAX] opens modern = plain [0; 1; 2; 5] /\
  MAY_HAVE_CLOSE_RANGE <$> close_statics (C := cfg linux false) 3 [5; i32_MAX] opens modern =
    Some false.
Proof. by vm_compute. Qed.

(** Beyond the limit of the fallback loop a descriptor stays open: without
    [close_range] and without a directory, 70000 survives. *)
Example close_beyond_limit :
  run_close (C := cfg linux true) 3 [] (opens ++ [70000]) bare = plain [0; 1; 2; 70000].
Proof. by vm_compute. Qed.

(** ** Among other threads *)

(** A process that has just started, with the schedule [p] of its other
    threads. *)
Definition shared_start (l : list Z) (c : RKConf) (p : list (list action))
  : World (Shared RK) :=
  mkWorld (mkShared (kernel l c) p ∅ ∅ ∅ [] []) initial_statics.

(** No directory of descriptors; the only file is "/". *)
Definition slash_conf : RKConf := conf ["/"]%string false false None.

Section shared_runs.
Context `{C : Config}.

(** What is yielded, and the descriptors at the end. *)
Definition run_shared (b : FdIterBuilder) (minfd : Z) (l : list Z) (c : RKConf)
    (p : list (list action)) : outcome (list Z * list Z) :=
  match iterate steps b minfd (shared_start l c p) with
  | Done (a, w) => Done (a, (entries (base (kern w))).*1)
  | Panic => Panic | Undefined => Undefined | Killed => Killed | OutOfFuel => OutOfFuel
  end.
Definition threadsafe_builder : FdIterBuilder := set_threadsafe true fd_iter_builder_new.

(** The descriptors at the end of [close_open_fds]. *)
Definition run_close_shared (minfd : Z) (keep l : list Z) (c : RKConf)
    (p : list (list action)) : outcome (list Z) :=
  match close_open_fds steps minfd keep (shared_start l c p) with
  | Done (_, w) => Done (entries (base (kern w))).*1
  | Panic => Panic | Undefined => Undefined | Killed => Killed | OutOfFuel => OutOfFuel
  end.
End shared_runs.

(** 0, 1, 2 and 9 are open; another thread opens 3 when the crate has counted
    them. *)
Definition opens_3 : list (list action) := [[]; [other_open "/" []]].

(** The other threads do something once, before the crate's call or load number
    [n]. *)
Definition late (n : nat) (l : list action) : list (list action) := replicate n [] ++ [l].

(** Another thread opens six files. *)
Definition opening : list action := replicate 6 (other_open "/" []).

(** "/" can be opened, and [close_range] works. *)
Definition slash_modern : RKConf := conf ["/"; "/proc/self/fd"]%string true true None.

(** A descriptor that another thread has just opened is closed, which is why
    [closefrom] is not safe then: nothing is left of the six files. *)
Example close_takes_others :
  run_close_shared (C := cfg linux true) 3 [7; 5] [0; 1; 2; 3; 4; 5; 6; 7; 8] slash_modern
    (late 0 opening) = Done [0; 1; 2; 5; 7].
Proof. by vm_compute. Qed.

(** A system on which [close_range] and the [sysctl] may fail. *)
Definition unreliable : RKConf := {|
  rc_env := env_with None None false fd_dirs;
  rc_getdents_fail := None; rc_nfds := true; rc_maxfd := true |}.

(** What another thread stores in [HAS_CLOSE_RANGE] between the check and the
    assertion in [try_close_range] makes a debug build panic on FreeBSD (it
    stores 0 if its own [sysctl] fails); a release build does not look. *)
Definition no_range : list action := [other_store (to_HAS_CLOSE_RANGE 0)].
Example assertion_race_debug :
  run_close_shared (C := cfg freebsd true) 3 [5; 7] opens unreliable (late 2 no_range) = Panic.
Proof. by vm_compute. Qed.
Example assertion_race_release :
  run_close_shared (C := cfg freebsd false) 3 [5; 7] opens unreliable (late 2 no_range) =
    Done [0; 1; 2; 5; 7].
Proof. by vm_compute. Qed.

(** The statics are read again at each use: on Linux another thread's failed
    [close_range] makes this one fall back to the loop. *)
Example falls_back_after_store :
  run_close_shared (C := cfg linux true) 3 [5; 7] opens unreliable
    [[other_store (to_MAY_HAVE_CLOSE_RANGE false)]] = Done [0; 1; 2; 5; 7].
Proof. by vm_compute. Qed.

(** What the iterator yields with [possible] depends on the method, so without a
    steady system (Steady.v) it is not repeatable: in a process that may have
    eight descriptors, another thread has them all while the crate opens the
    directory, and closes them again when it has failed to. *)
Definition eight : RKConf := {|
  rc_env := {| env_open_max := 8; env_release := [53; 46; 49; 53; 0; 0];
    env_osreldate := 1300000; env_dev := 1; env_devfd := 2;
    env_paths := ["/"; "/proc/self/fd"]%string; env_close_range := Some true;
    env_cloexec_range := Some true; env_osreldate_known := true |};
  rc_getdents_fail := None;
  rc_nfds := true; rc_maxfd := true |}.

Section twice.
Context `{C : Config}.

Definition iterate_twice (b : FdIterBuilder) (minfd : Z) (l : list Z) (c : RKConf)
    (p : list (list action)) : outcome (list Z * list Z) :=
  match (l1 ← iterate steps b minfd; l2 ← iterate steps b minfd; mret (l1, l2))
          (shared_start l c p) with
  | Done (a, _) => Done a
  | Panic => Panic | Undefined => Undefined | Killed => Killed | OutOfFuel => OutOfFuel
  end.
Definition possible_builder : FdIterBuilder := set_possible true fd_iter_builder_new.
End twice.

Definition all_held : list (list action) :=
  [[]; []; replicate 5 (other_open "/" []); other_close <$> [3; 4; 5; 6; 7]].

Example possible_alone :
  iterate_twice (C := cfg linux true) possible_builder 0 [0; 1; 2]
    eight [] = Done ([0; 1; 2], [0; 1; 2]).
Proof. by vm_compute. Qed.
Example possible_not_steady :
  iterate_twice (C := cfg linux true) possible_builder 0 [0; 1; 2]
    eight all_held = Done (seqZ 0 1024, [0; 1; 2]).
Proof. by vm_compute. Qed.

(** ** The calls that are made *)

Definition traced_start (l : list Z) (c : RKConf) : World (Traced RK) :=
  mkWorld (mkTraced (kernel l c) []) initial_statics.

Section traced_runs.
Context `{C : Config}.

(** In the order in which they are made. *)
Definition calls_made {A} (m : ST (World (Traced RK)) A) (l : list Z) (c : RKConf)
  : outcome (list sys_call) :=
  match m (traced_start l c) with
  | Done (_, w) => Done (rev (log (kern w)))
  | Panic => Panic | Undefined => Undefined | Killed => Killed | OutOfFuel => OutOfFuel
  end.
Definition close_calls (minfd : Z) (keep l : list Z) (c : RKConf) : outcome (list sys_call) :=
  calls_made (close_open_fds steps minfd keep) l c.
End traced_runs.

Example calls_modern :
  close_calls (C := cfg linux true) 3 [] opens modern = Done [c_close_range 3 4294967295 0].
Proof. by vm_compute. Qed.
Example calls_modern_sorted :
  close_calls (C := cfg linux true) 3 [5; 7] opens modern =
    Done [c_close_range 3 4 0; c_close_range 6 6 0; c_close_range 8 2147483647 0].
Proof. by vm_compute. Qed.
(** FreeBSD: the version is asked for once. *)
Example calls_freebsd :
  close_calls (C := cfg freebsd true) 3 [5] opens modern =
    Done [c_osreldate; c_close_range 3 4 0; c_close_range 6 2147483647 0].
Proof. by vm_compute. Qed.
Example calls_openbsd :
  close_calls (C := cfg openbsd true) 3 [] opens bare = Done [c_closefrom 3].
Proof. by vm_compute. Qed.
Example calls_classic :
  close_calls (C := cfg linux true) 3 [] [0; 3] classic =
    Done [c_close_range 3 4294967295 0; c_uname;
          c_open "/proc/self/fd" [O_RDONLY; O_DIRECTORY; O_CLOEXEC];
          c_getdents SYS_getdents64 1 280; c_getdents SYS_getdents64 1 280; c_close 3;
          c_getdents SYS_getdents64 1 280; c_close 1].
Proof. by vm_compute. Qed.

(** ** Threads in the way *)

(** The shortest schedule of [Undercount.opening_makes_skip]: on OpenBSD, 9 is open
    throughout and not yielded, because the number of open descriptors is counted
    before the other thread opens 3 and is reached at 3. With [threadsafe(true)],
    on the same system with the same schedule, 9 is yielded. *)
Example threads_can_skip :
  run_shared (C := cfg openbsd true) fd_iter_builder_new 0 [0; 1; 2; 9] slash_conf opens_3 =
    Done ([0; 1; 2; 3], [0; 1; 2; 3; 9]) /\
  run_shared (C := cfg openbsd true) (threadsafe_builder (C := cfg openbsd true))
      0 [0; 1; 2; 9] slash_conf opens_3 =
    Done ([0; 1; 2; 3; 9], [0; 1; 2; 3; 9]).
Proof. split; by vm_compute. Qed.

(** The race that the comment in [close_rest] describes is real: with an unsorted
    list on Linux the directory of descriptors is at 9, [close_range(8, ...)]
    closes it, another thread opens six files (3, 4, 6, 8, 9 and 10), and dropping
    the iterator closes its 9. (Alone, the call leaves what is to be kept.) *)
Theorem close_race_real :
  run_close_shared (C := cfg linux true) 3 [7; 5] [0; 1; 2; 3; 4; 5; 6; 7; 8] slash_modern
    (late 11 opening) = Done [0; 1; 2; 3; 4; 5; 6; 7; 8; 10] /\
  run_close_shared (C := cfg linux true) 3 [7; 5] [0; 1; 2; 3; 4; 5; 6; 7; 8] slash_modern
    [] = Done [0; 1; 2; 5; 7].
Proof. split; by vm_compute. Qed.
