(* ===== verification/Witnesses.v ===== *)
(** * The theorems at concrete inputs

    Each property that has hypotheses, applied to a concrete system and a
    concrete call where they hold. *)

From S2P Require Import Prelude Platform Ints Sys KernelSpec Util RefKernel DirFdIter FdIter IterFds Steady Threads IterThreads Undercount SizeHint IterTests UtilTests KeepFds Visit Close Cloexec CloseFds CloexecThreads CloseThreads Trace Fuel Command Lib ProbeThreads Calls IntegrationTests Shown TestsPass PossibleTests Runs.

(** ** The setting: Linux, a debug build, and the systems of Runs.v *)

Definition linux_debug : Config := cfg linux true.
#[local] Existing Instance linux_debug.
#[local] Instance linux_debug_ok : ConfigOk linux_debug := cfg_ok linux true.

Definition fuel0 : nat := Z.to_nat (2 ^ 48).

Lemma fuel0_enough : enough_fuel fuel0.
Proof. unfold enough_fuel, fuel0. rewrite Z2Nat.id; lia. Qed.
#[global] Opaque fuel0.

(** A freshly started process knows nothing wrong. *)
Lemma start_ok l c : world_ok (start l c).
Proof. by constructor. Qed.

Lemma opens_fds c f : fds (kernel opens c) !! f = if decide (f ∈ opens) then Some 0 else None.
Proof.
  simpl. unfold rk_fds. simpl. apply option_eq. intros fl.
  rewrite map_lookup_filter_Some. unfold table, opens. case_decide as Hin.
  - split.
    + intros [Hl _]. apply elem_of_list_to_map_2 in Hl.
      apply list_elem_of_fmap in Hl as (g & [= -> ->] & _). done.
    + intros [= <-]. repeat (apply elem_of_cons in Hin as [->|Hin]; [by vm_compute|]).
      by apply not_elem_of_nil in Hin.
  - split; [|done]. intros [Hl _]. apply elem_of_list_to_map_2 in Hl.
    apply list_elem_of_fmap in Hl as (g & [= -> ->] & Hg). done.
Qed.

Lemma opens_limit c paths f :
  rc_env c = env0 paths -> is_Some (fds (kernel opens c) !! f) -> f <= scan_limit (rc_env c).
Proof.
  intros -> [fl Hf]. rewrite opens_fds in Hf. case_decide as Hin; [|done].
  unfold opens in Hin. change (scan_limit (env0 paths)) with 1023.
  repeat (apply elem_of_cons in Hin as [->|Hin]; [lia|]). by apply not_elem_of_nil in Hin.
Qed.

Lemma slice57_ok : slice_ok [5; 7].
Proof.
  constructor; [repeat constructor; unfold i32_MIN, i32_MAX; lia|].
  unfold i32_MAX. by repeat (apply not_elem_of_cons; split; [lia|]); apply not_elem_of_nil.
Qed.

(** The builder for [keep_fds_sorted(&[5, 7])]. *)
Definition keep57 : CloseFdsBuilder := keep_fds_sorted [5; 7] close_fds_builder_new.

Lemma keep57_ok : builder_ok keep57.
Proof.
  apply keep_fds_sorted_ok; [apply slice57_ok|]. repeat constructor. lia.
Qed.

(** ** Closing and marking *)

Lemma closefrom_correct_witness :
  wp (closefrom fuel0 keep57 3) (fun _ w' =>
    fds (kern w') !! 5 = Some 0 /\ fds (kern w') !! 2 = Some 0 /\ fds (kern w') !! 6 = None)
    (start opens classic).
Proof.
  eapply wp_mono; [apply (closefrom_correct fuel0 keep57 3 (start opens classic));
    [apply fuel0_enough|apply keep57_ok|apply start_ok|unfold i32_MAX; lia]|].
  intros [] w' (H1 & H2 & _). split_and!.
  - rewrite H1 by (right; by left). by vm_compute.
  - rewrite H1 by (left; lia). by vm_compute.
  - apply H2; [lia| |by vm_compute]. simpl.
    by repeat (apply not_elem_of_cons; split; [lia|]); apply not_elem_of_nil.
Defined.

Lemma cloexecfrom_correct_witness :
  wp (cloexecfrom fuel0 keep57 3) (fun _ w' =>
    fds (kern w') !! 5 = Some 0 /\ fds (kern w') !! 6 = Some 1) (start opens classic).
Proof.
  eapply wp_mono; [apply (cloexecfrom_correct fuel0 keep57 3 (start opens classic));
    [apply fuel0_enough|apply keep57_ok|apply start_ok|unfold i32_MAX; lia]|].
  intros [] w' (H1 & H2 & _). split.
  - rewrite H1 by (right; by left). by vm_compute.
  - rewrite (H2 6 0); [done|lia| |by vm_compute|by vm_compute].
    simpl. by repeat (apply not_elem_of_cons; split; [lia|]); apply not_elem_of_nil.
Defined.

Lemma close_open_fds_exact_witness :
  wp (close_open_fds fuel0 3 [5; 7]) (fun _ w' =>
    entries (kern w') = [(0, 0); (1, 0); (2, 0); (5, 0); (7, 0)]) (start opens bare).
Proof.
  eapply wp_mono; [apply (close_open_fds_exact fuel0 3 [5; 7] (start opens bare));
    [apply fuel0_enough|apply slice57_ok|apply start_ok|unfold i32_MAX; lia|]|].
  - intros f. by eapply opens_limit.
  - intros [] w' Hw. unfold entries. rewrite Hw. by vm_compute.
Defined.

Lemma set_fds_cloexec_exact_witness :
  wp (set_fds_cloexec fuel0 3 [5; 7]) (fun _ w' =>
    entries (kern w') =
      [(0, 0); (1, 0); (2, 0); (3, 1); (5, 0); (6, 1); (7, 0); (9, 1)]) (start opens flaky).
Proof.
  eapply wp_mono; [apply (set_fds_cloexec_exact fuel0 3 [5; 7] (start opens flaky));
    [apply fuel0_enough|apply slice57_ok|apply start_ok|unfold i32_MAX; lia|]|].
  - intros f. by eapply opens_limit.
  - intros [] w' Hw. unfold entries. rewrite Hw. by vm_compute.
Defined.

(** The kernel of these systems keeps its [close_range]. *)
Lemma modern_range l : close_range_works (kernel l modern).
Proof.
  exists (fun k => rk_conf k = modern). split; [done|]. intros k lo hi Hk Hle.
  rewrite rk_close_range_linux by done. unfold rk_has_range. rewrite Hk. simpl.
  rewrite (proj2 (Z.ltb_ge hi lo)) by lia. by eexists.
Qed.

Lemma modern_cloexec_range l : cloexec_range_works (kernel l modern).
Proof.
  exists (fun k => rk_conf k = modern). split; [done|]. intros k lo hi Hk Hle.
  rewrite rk_close_range_linux by done. unfold rk_has_range. rewrite Hk. simpl.
  rewrite (proj2 (Z.ltb_ge hi lo)) by lia. by eexists.
Qed.

(** Descriptor 70000 is beyond the limit of the fallback loop. *)
Lemma closefrom_complete_witness :
  wp (closefrom fuel0 keep57 3) (fun _ w' =>
    entries (kern w') = [(0, 0); (1, 0); (2, 0); (5, 0); (7, 0)])
    (start (opens ++ [70000]) modern).
Proof.
  eapply wp_mono; [apply (closefrom_complete fuel0 keep57 3 (start (opens ++ [70000]) modern));
    [apply fuel0_enough|apply keep57_ok|apply start_ok|unfold i32_MAX; lia|]|].
  - right. left. split_and!; [done|apply modern_range|done|by right].
  - intros [] w' Hw. unfold entries. rewrite Hw. by vm_compute.
Defined.

Lemma cloexecfrom_complete_witness :
  wp (cloexecfrom fuel0 keep57 6) (fun _ w' =>
    entries (kern w') = [(0, 0); (5, 0); (7, 0); (70000, 1)])
    (start [0; 5; 7; 70000] modern).
Proof.
  eapply wp_mono; [apply (cloexecfrom_complete fuel0 keep57 6 (start [0; 5; 7; 70000] modern));
    [apply fuel0_enough|apply keep57_ok|apply start_ok|unfold i32_MAX; lia|]|].
  - split_and!; [done|apply modern_cloexec_range|done|by right].
  - intros [] w' Hw. unfold entries. rewrite Hw. by vm_compute.
Defined.

(** The same slice, not known to be sorted, and no filesystem. *)
Definition keep57_slow : CloseFdsBuilder :=
  allow_filesystem false {| cb_keep_fds := {| kf_fds := [5; 7]; kf_max := 7; kf_sorted := false |};
                            cb_it := fd_iter_builder_new |}.

Lemma keep57_slow_ok : builder_ok keep57_slow.
Proof.
  constructor; simpl.
  - done.
  - intros x. rewrite !elem_of_cons. intros [->|[->|Hx]]; [lia|lia|]. by apply not_elem_of_nil in Hx.
  - left. by right; left.
  - apply slice57_ok.
  - apply slice57_ok.
Qed.

Lemma closefrom_options_irrelevant_witness :
  exists w1 w2, closefrom fuel0 keep57 3 (start opens classic) = Done (tt, w1) /\
    closefrom fuel0 keep57_slow 3 (start opens classic) = Done (tt, w2) /\
    fds (kern w1) = fds (kern w2).
Proof.
  apply (closefrom_options_irrelevant fuel0 keep57 keep57_slow 3 (start opens classic));
    [apply fuel0_enough|apply keep57_ok|apply keep57_slow_ok|apply start_ok
    |unfold i32_MAX; lia|done|].
  intros f. by eapply opens_limit.
Defined.

Lemma close_then_iterate_witness :
  wp (close_open_fds fuel0 3 [5; 7];; it ← iter_open_fds 3; collect fuel0 fuel0 it)
    (fun left _ => left = [5; 7]) (start opens classic).
Proof.
  eapply wp_mono; [apply (close_then_iterate fuel0 3 [5; 7] (start opens classic));
    [apply fuel0_enough|apply slice57_ok|apply start_ok|unfold i32_MAX; lia|]|].
  - intros f. by eapply opens_limit.
  - intros l w' [Hs Hin]. apply strictly_ascending_ext; [done|repeat constructor; lia|].
    intros f. rewrite Hin. split; [tauto|]. intros Hf. split_and!; [|done|].
    + rewrite !elem_of_cons in Hf. destruct Hf as [->|[->|Hf]]; [lia|lia|by apply not_elem_of_nil in Hf].
    + rewrite !elem_of_cons in Hf.
      destruct Hf as [->|[->|Hf]]; [by eexists|by eexists|by apply not_elem_of_nil in Hf].
Defined.

(** ** Iterating *)

Lemma iterate_correct_witness :
  wp (iterate fuel0 fd_iter_builder_new (-1)) (fun l w' =>
    fds (kern w') = fds (kernel opens classic) /\ 9 ∈ l /\ 4 ∉ l) (start opens classic).
Proof.
  eapply wp_mono; [apply (iterate_correct fuel0 fd_iter_builder_new (-1) (start opens classic));
    [unfold i32_MAX; lia|apply start_ok|apply fuel0_enough]|].
  intros l w' (H1 & _ & _ & _ & H5 & H6). split_and!; [done| |].
  - apply H6; [by vm_compute|]. simpl. by eexists.
  - intros H4. apply (H5 eq_refl) in H4. simpl in H4. by destruct H4.
Defined.

Lemma iter_open_fds_exact_witness :
  wp (it ← iter_open_fds 3; collect fuel0 fuel0 it) (fun l w' =>
    l = [3; 5; 6; 7; 9] /\ fds (kern w') = fds (kernel opens flaky)) (start opens flaky).
Proof.
  apply (iter_open_fds_exact fuel0 3 (start opens flaky) [3; 5; 6; 7; 9]);
    [unfold i32_MAX; lia|apply start_ok|apply fuel0_enough| | |].
  - intros f. by eapply opens_limit.
  - repeat constructor; lia.
  - intros f. change (kern (start opens flaky)) with (kernel opens flaky). rewrite opens_fds.
    unfold opens. split.
    + intros Hf. rewrite decide_True; rewrite !elem_of_cons in *; [|tauto].
      split; [|done].
      destruct Hf as [->|[->|[->|[->|[->|Hf]]]]]; try lia. by apply not_elem_of_nil in Hf.
    + case_decide as Hf; [|by intros [_ []]]. intros [Hge _]. rewrite !elem_of_cons in *.
      destruct Hf as [->|[->|[->|Hf]]]; try lia. tauto.
Defined.

Lemma max_correct_witness :
  wp (it ← iter_from fd_iter_builder_new 3; FdIter.max fuel0 fuel0 it)
    (fun o _ => exists m, o = Some m /\ 9 <= m) (start opens classic).
Proof.
  eapply wp_mono; [apply (max_correct fuel0 fd_iter_builder_new 3 (start opens classic));
    [unfold i32_MAX; lia|apply start_ok|apply fuel0_enough|done]|].
  intros o w' [_ Ho]. destruct o as [m|].
  - exists m. split; [done|]. apply Ho; [by eexists|by vm_compute].
  - discriminate (Ho 9 ltac:(by vm_compute)).
Defined.

Lemma min_correct_witness :
  wp (it ← iter_from fd_iter_builder_new 4; FdIter.min fuel0 it)
    (fun o _ => exists m, o = Some m /\ 4 <= m <= 5) (start opens classic).
Proof.
  eapply wp_mono; [apply (min_correct fuel0 fd_iter_builder_new 4 (start opens classic));
    [unfold i32_MAX; lia|apply start_ok|apply fuel0_enough|done]|].
  intros o w' [_ Ho]. destruct o as [m|].
  - exists m. split; [done|]. destruct Ho as (H1 & _ & H3).
    split; [done|]. apply H3; [by eexists|lia].
  - discriminate (Ho 5 ltac:(by vm_compute)).
Defined.

(** An iterator without a directory, from 4 up. *)
Definition bare_it : FdIter :=
  {| dirfd_iter := None; curfd := 4; possible := false; maxfd := None; skip_nfds := false |}.

Lemma bare_it_inv : fd_inv bare_it (kern (start opens bare)).
Proof. constructor; [simpl; unfold i32_MAX; lia|done|done]. Qed.

Lemma fd_next_correct_witness :
  wp (FdIter.next fuel0 bare_it) (fun '(o, it') _ => o = Some 5 /\ curfd it' = 6)
    (start opens bare).
Proof.
  eapply wp_mono; [apply (fd_next_correct fuel0 bare_it (start opens bare));
    [apply bare_it_inv|apply fuel0_enough]|].
  intros [o it'] w' (_ & _ & _ & Ho). destruct o as [fd|].
  - destruct Ho as (H1 & H2 & H3 & H4). specialize (H4 (or_introl eq_refl)).
    assert (fd = 5) as ->; [|by split].
    destruct (Z.lt_total fd 5) as [Hlt|[->|Hgt]]; [|done|].
    + assert (fd = 4) as -> by (simpl in H1; lia). by destruct H4.
    + specialize (H3 5). simpl in H3. discriminate (H3 ltac:(lia)).
  - specialize (Ho 5). simpl in Ho. discriminate (Ho ltac:(lia) (fun _ => ltac:(by vm_compute))).
Defined.

Lemma next_fused_witness :
  let it := {| dirfd_iter := None; curfd := 10; possible := true; maxfd := Some 9;
               skip_nfds := false |} in
  FdIter.next 3 it (start opens bare) = Done ((None, it), start opens bare) /\
  FdIter.next 1 it (start [10] classic) = Done ((None, it), start [10] classic).
Proof.
  intros it. split; [reflexivity|].
  apply (next_fused 3 it (start opens bare) it (start opens bare) 1 (start [10] classic));
    [reflexivity|lia].
Defined.

(** The maximum is known, and every number counts. *)
Definition possible_it : FdIter :=
  {| dirfd_iter := None; curfd := 4; possible := true; maxfd := Some 1023; skip_nfds := false |}.

Lemma size_hint_correct_witness :
  exists lo hi, FdIter.size_hint fuel0 possible_it = Done (lo, Some hi) /\
    wp (collect fuel0 fuel0 possible_it) (fun l _ => hint_holds lo hi l)
      (start opens bare).
Proof.
  apply (size_hint_correct fuel0 possible_it (start opens bare)); [|apply fuel0_enough].
  constructor; [simpl; unfold i32_MAX; lia|done|]. intros m [= <-].
  split; [unfold i32_MAX; lia|]. intros f Hf. change (scan_limit _) with 1023 in Hf. simpl in Hf. lia.
Defined.

(** ** The directory *)

(** Descriptor 4 is the directory, at its start. *)
Definition dir_kernel : RK :=
  {| rk_table := table [0; 1; 2; 3; 4; 7]; rk_dirs := {[4 := -2]}; rk_errno := 0;
     rk_conf := classic |}.
Definition dir_it : DirFdIter :=
  {| minfd := 3; dirfd := 4; dirent_buf := replicate 280 0; dirent_nbytes := 0;
     dirent_offset := 0 |}.

Lemma dir_it_inv : dir_inv dir_it dir_kernel 3.
Proof.
  right. exists [], (-2). split; [|by intros f []%not_elem_of_nil].
  constructor; try (by intros f []%not_elem_of_nil).
  - by eexists.
  - by vm_compute.
  - split; [done|]. exists 0%nat, [], (replicate 280 0). split_and!; [done..|constructor].
  - constructor.
  - unfold i32_MAX. lia.
  - simpl. lia.
  - by right.
  - intros f Hf _ _. right. lia.
Qed.

Lemma dir_next_correct_witness :
  wp (DirFdIter.next fuel0 dir_it) (fun '(r, _) _ =>
    match r with Ok (Some fd) => fd = 3 | Ok None => False | Err => True end)
    (mkWorld dir_kernel initial_statics).
Proof.
  eapply wp_mono; [apply (dir_next_correct fuel0 dir_it (mkWorld dir_kernel initial_statics) 3);
    [done|apply fuel0_enough|apply dir_it_inv]|].
  intros [r it'] w' [_ Hr]. destruct r as [[fd|]|]; [| |done].
  - destruct Hr as (H1 & _ & H3 & _). destruct (Z.eq_dec fd 3); [done|].
    specialize (H3 3 ltac:(lia)). vm_compute in H3. discriminate H3.
  - destruct Hr as (H1 & _). specialize (H1 3 ltac:(lia)). vm_compute in H1. discriminate H1.
Defined.

Lemma dir_open_correct_witness :
  wp (DirFdIter.open 3) (fun o w' => match o with
    | None => fds (kern w') = fds (kernel opens classic)
    | Some it => delete (dirfd it) (fds (kern w')) = fds (kernel opens classic)
    end) (start opens classic).
Proof.
  eapply wp_mono; [apply (dir_open_correct 3 (start opens classic)); [done|lia|apply start_ok]|].
  intros o w' (_ & _ & Ho). destruct o as [it|]; [apply Ho|done].
Defined.

(** A buffer with the entries of ".." and of descriptor 7. *)
Definition two_entries : list Z := encode_name [46; 46] ++ encode_fd 7.
Definition entry_it : DirFdIter :=
  {| minfd := 0; dirfd := 4; dirent_buf := two_entries ++ replicate 220 0;
     dirent_nbytes := Z.of_nat (length two_entries); dirent_offset := 0 |}.

Lemma two_entries_dirents : dirents two_entries [None; Some 7].
Proof.
  unfold two_entries. apply dirents_encode; [vm_compute; lia|constructor|simpl; lia|].
  rewrite <- (app_nil_r (encode_fd 7)).
  apply dirents_encode; [vm_compute; lia|by constructor|vm_compute; lia|constructor].
Qed.

Lemma get_entry_info_correct_witness :
  exists n data', get_entry_info entry_it (Z.of_nat 0) = Done (None, Z.of_nat n) /\
    (0 < n)%nat /\ drop (0 + n) (dirent_buf entry_it) = data' ++ replicate 220 0 /\
    dirents data' [Some 7].
Proof.
  apply (get_entry_info_correct entry_it 0 two_entries (replicate 220 0) None [Some 7]);
    [reflexivity|apply two_entries_dirents|done].
Defined.

Lemma parse_decimal_roundtrip_witness :
  decimal 2147483646 = [50; 49; 52; 55; 52; 56; 51; 54; 52; 54] /\
  parse_int_bytes (Done <$> decimal 2147483646) = Done (Some 2147483646).
Proof.
  split; [by vm_compute|]. apply (parse_decimal_roundtrip 2147483646). unfold i32_MAX. lia.
Defined.

(** ** Lists of descriptors *)

Lemma inspect_keep_fds_correct_witness :
  exists mx b, inspect_keep_fds [5; 3; 7] = Done (mx, b) /\ (b = true <-> ascending [5; 3; 7]) /\
    (forall x, x ∈ [5; 3; 7] -> x <= mx) /\ ([5; 3; 7] = [] /\ mx = i32_MIN \/ mx ∈ [5; 3; 7]).
Proof.
  apply (inspect_keep_fds_correct [5; 3; 7]). repeat constructor; unfold i32_MIN, i32_MAX; lia.
Defined.

Lemma simplify_keep_fds_correct_witness :
  simplify_keep_fds [1; 3; 4; 9] true 3 = Done ([9], 5) /\
  exists keep' minfd', simplify_keep_fds [1; 3; 4; 9] true 3 = Done (keep', minfd') /\
    3 <= minfd' <= i32_MAX /\ keep' `suffix_of` [1; 3; 4; 9] /\
    (forall f, 3 <= f /\ f ∉ [1; 3; 4; 9] <-> minfd' <= f /\ f ∉ keep') /\
    (true = true -> Forall (fun x => minfd' < x) keep' /\ minfd' ∉ [1; 3; 4; 9]).
Proof.
  split; [reflexivity|]. apply (simplify_keep_fds_correct [1; 3; 4; 9] true 3).
  - intros _. repeat constructor; lia.
  - unfold i32_MAX. by repeat (apply not_elem_of_cons; split; [lia|]); apply not_elem_of_nil.
  - repeat constructor; unfold i32_MIN, i32_MAX; lia.
  - unfold i32_MIN, i32_MAX; lia.
Defined.

Lemma check_should_keep_correct_witness :
  exists b keep', check_should_keep [3; 5; 9] 5 true = (b, keep') /\ (b = true <-> 5 ∈ [3; 5; 9]) /\
    keep' `suffix_of` [3; 5; 9] /\ (true = true -> ascending keep') /\
    (forall f, 5 <= f -> f ∈ keep' <-> f ∈ [3; 5; 9]).
Proof.
  apply (check_should_keep_correct [3; 5; 9] true 5). intros _. repeat constructor; lia.
Defined.

(** The ranges for minimum 3 and slice [[1, 5, 6, 9]]. *)
Lemma apply_range_correct_witness :
  gaps 3 [1; 5; 6; 9] = [(3, 4); (7, 8); (10, i32_MAX)] /\
  apply_range 3 [1; 5; 6; 9] try_close_range (start opens modern) =
    run_ranges try_close_range (gaps 3 [1; 5; 6; 9]) (start opens modern) /\
  Forall (fun r => 3 <= r.1 <= r.2 /\ r.2 <= i32_MAX) (gaps 3 [1; 5; 6; 9]) /\
  (forall f, (exists r, r ∈ gaps 3 [1; 5; 6; 9] /\ r.1 <= f <= r.2) <->
     3 <= f <= i32_MAX /\ f ∉ [1; 5; 6; 9]).
Proof.
  split; [reflexivity|].
  apply (apply_range_correct try_close_range 3 [1; 5; 6; 9] (start opens modern)).
  - unfold i32_MAX. lia.
  - repeat constructor; lia.
  - repeat constructor; unfold i32_MIN, i32_MAX; lia.
Defined.

(** Everything from [minfd] up is kept, so [minfd] overflows. *)
Lemma simplify_keep_fds_overflow_witness :
  ((forall f, i32_MAX - 1 <= f <= i32_MAX -> f ∈ [5; i32_MAX - 1; i32_MAX]) ->
   if debug then simplify_keep_fds [5; i32_MAX - 1; i32_MAX] true (i32_MAX - 1) = Panic
   else exists rest,
     simplify_keep_fds [5; i32_MAX - 1; i32_MAX] true (i32_MAX - 1) = Done (rest, i32_MIN) /\
     Forall (eq i32_MAX) rest) /\
  (forall f, i32_MAX - 1 <= f <= i32_MAX -> f ∉ [5; i32_MAX - 1; i32_MAX] ->
     exists rest minfd',
       simplify_keep_fds [5; i32_MAX - 1; i32_MAX] true (i32_MAX - 1) = Done (rest, minfd') /\
       i32_MAX - 1 <= minfd' <= f).
Proof.
  apply (simplify_keep_fds_overflow [5; i32_MAX - 1; i32_MAX] (i32_MAX - 1)).
  - unfold i32_MAX. repeat constructor; lia.
  - repeat constructor; unfold i32_MIN, i32_MAX; lia.
  - unfold i32_MIN, i32_MAX; lia.
Defined.

(** With 5 and [c_int::MAX] kept, the calls for 3-4 and from 6 up to
    [c_int::MAX - 1] are made before the panic. *)
Lemma apply_range_overflow_witness :
  inner_gaps 3 [5; i32_MAX] = [(3, 4); (6, i32_MAX - 1)] /\
  apply_range 3 [5; i32_MAX] (fun lo hi s => Done (Ok tt, s ++ [(lo, hi)])) [] =
    try_then (run_ranges (fun lo hi s => Done (Ok tt, s ++ [(lo, hi)]))
                (inner_gaps 3 [5; i32_MAX]))
      (if debug then panic else fun s => Done (Ok tt, s ++ [(i32_MIN, i32_MAX)])) [] /\
  (forall f, (exists r, r ∈ inner_gaps 3 [5; i32_MAX] /\ r.1 <= f <= r.2) <->
     3 <= f <= i32_MAX /\ f ∉ [5; i32_MAX]) /\
  as_u32 i32_MAX < as_u32 i32_MIN.
Proof.
  split; [reflexivity|].
  apply (apply_range_overflow (fun lo hi s => Done (Ok tt, s ++ [(lo, hi)])) 3 [5; i32_MAX]).
  - unfold i32_MAX. lia.
  - unfold i32_MAX. repeat constructor; lia.
  - repeat constructor; unfold i32_MIN, i32_MAX; lia.
  - set_solver.
Defined.

Lemma keep_new_correct_witness :
  exists k, keep_new [7; 5] = Done k /\ kf_fds k = [7; 5] /\ keep_ok k /\
    (kf_sorted k = true <-> ascending [7; 5]).
Proof.
  apply (keep_new_correct [7; 5]).
  - repeat constructor; unfold i32_MIN, i32_MAX; lia.
  - unfold i32_MAX. by repeat (apply not_elem_of_cons; split; [lia|]); apply not_elem_of_nil.
Defined.

Lemma keep_new_sorted_agrees_witness : keep_new [5; 7] = Done (keep_new_sorted [5; 7]).
Proof.
  apply (keep_new_sorted_agrees [5; 7]); [done|repeat constructor; lia|].
  repeat constructor; unfold i32_MIN, i32_MAX; lia.
Defined.

(** ** Calls to the system *)

Lemma try_close_range_correct_witness :
  wp (try_close_range 5 6) (fun r w' =>
    match r with
    | Ok _ => fds (kern w') !! 6 = None /\ fds (kern w') !! 7 = Some 0
    | Err => fds (kern w') !! 6 = Some 0
    end) (start opens modern).
Proof.
  eapply wp_mono; [apply (try_close_range_correct 5 6 (start opens modern));
    [lia|unfold u32_MAX; lia|apply start_ok|by left]|].
  intros [[]|] w' [_ Hw].
  - rewrite !Hw. split; [by vm_compute|by vm_compute].
  - rewrite Hw. by vm_compute.
Defined.

Lemma shortcut_gives_up_witness :
  let w' := mkWorld (rk_set_errno 38 (kernel opens classic))
              (store_MAY_HAVE_CLOSE_RANGE false initial_statics) in
  close_fds_shortcut 3 [5] 5 true w' = Done (Err, w').
Proof.
  intros w'. apply (shortcut_gives_up 3 4 (start opens classic) w' 3 [5] 5 true);
    [reflexivity|reflexivity].
Defined.

Lemma close_probe_linux_witness :
  close_probe (start opens classic) =
    Done (tt, mkWorld (rk_set_errno 38 (kernel opens classic))
                (store_MAY_HAVE_CLOSE_RANGE false initial_statics)).
Proof.
  etrans; [apply (close_probe_linux (start opens classic) (-1)
    (rk_set_errno 38 (kernel opens classic)))|]; reflexivity.
Defined.

Lemma get_maxfd_direct_correct_witness :
  wp (get_maxfd_direct bare_it) (fun m _ => 9 <= m < i32_MAX) (start opens bare).
Proof.
  eapply wp_mono; [apply (get_maxfd_direct_correct bare_it (start opens bare))|].
  intros m w' (_ & H1 & H2). split; [|lia]. destruct (Z.le_gt_cases 9 m) as [|Hlt]; [done|].
  assert (Hlim : 9 <= scan_limit (env0 [])) by (by vm_compute).
  specialize (H2 9 (conj Hlt Hlim)). vm_compute in H2. discriminate H2.
Defined.

Lemma get_maxfd_direct_clamped_witness :
  wp (get_maxfd_direct bare_it) (fun m _ => m = 1023) (start opens bare).
Proof.
  eapply wp_mono; [apply (get_maxfd_direct_clamped bare_it (start opens bare)); done|].
  intros m w' (_ & -> & _). by vm_compute.
Defined.

Lemma nfds_to_maxfd_correct_witness :
  wp (nfds_to_maxfd 8) (fun o _ => forall m, o = Some m -> 9 <= m < 198) (start opens bare).
Proof.
  eapply wp_mono; [apply (nfds_to_maxfd_correct 8 (start opens bare)); by vm_compute|].
  intros o w' [_ Ho] m Hm. destruct (Ho m Hm) as (H1 & H2 & _). split; [|lia].
  apply H2. by eexists.
Defined.

Lemma set_cloexec_correct_witness :
  wp (set_cloexec 5) (fun _ w' => fds (kern w') !! 5 = Some 1 /\ fds (kern w') !! 6 = Some 0)
    (start opens bare).
Proof.
  eapply wp_mono; [apply (set_cloexec_correct 5 (start opens bare))|].
  intros [] w' (H1 & _ & H3 & _). split.
  - rewrite (H1 0); by vm_compute.
  - rewrite H3 by lia. by vm_compute.
Defined.

(** Release "4.4.0-Microsoft". *)
Definition wsl_release : list Z := [52; 46; 52; 46; 48; 45] ++ Microsoft ++ [0; 0].
Definition wsl_world : World RK := mkWorld
  {| rk_table := table opens; rk_dirs := ∅; rk_errno := 0;
     rk_conf := {| rc_env := {| env_open_max := 1024; env_release := wsl_release;
                                env_osreldate := 0; env_dev := 1; env_devfd := 2;
                                env_paths := fd_dirs; env_close_range := Some false;
                                env_cloexec_range := Some false; env_osreldate_known := true |};
                   rc_getdents_fail := None; rc_nfds := false; rc_maxfd := false |} |} initial_statics.

Lemma is_wsl_1_correct_witness :
  wp is_wsl_1 (fun b w' => b = true /\ is_wsl_1 w' = Done (true, w')) wsl_world.
Proof.
  eapply wp_mono; [apply (is_wsl_1_correct wsl_world); by constructor|].
  intros b w' (H1 & _ & _ & H4). assert (b = true) as -> ; [|done].
  apply H1. exists [52; 46; 52; 46; 48; 45]. by vm_compute.
Defined.

Lemma probe_features_correct_witness :
  wp probe_features (fun _ w' => fds (kern w') = fds (kernel opens classic) /\
    (IS_WSL1 (statics w') = 0 \/ IS_WSL1 (statics w') = 1)) (start opens classic).
Proof.
  eapply wp_mono; [apply (probe_features_correct (start opens classic)); apply start_ok|].
  intros [] w' (H1 & _ & _ & H4). split; [done|]. by apply H4.
Defined.

Lemma probe_features_once_witness :
  let w' := mkWorld (kernel opens classic)
              (store_PROBED true initial_statics) in
  probe_features w' = Done (tt, w').
Proof.
  intros w'. apply (probe_features_once w' w'). reflexivity.
Defined.

(** ** Other threads *)

(** The other threads close 3, open a file, mark 6 and close 7; 5 and 9 stay.
    They find out that this is not WSL 1, and stop believing in [close_range]. *)
Definition busy : list (list action) :=
  [[other_close 3; other_store (to_IS_WSL1 0)]; [other_open "/dev/fd" []; other_setfd 6 1]; [];
   [other_close 7; other_store (to_MAY_HAVE_CLOSE_RANGE_CLOEXEC false)]].
Definition closing : list (list action) := [[]; [other_close 3; other_close 7]; [other_close 0]].

Definition stay59 (only_closes : bool) : Rely := {|
  stay f := f = 5 \/ f = 9; still f := f = 5 \/ f = 9; only_closes := only_closes;
  stay_dec f := _; still_dec f := _ |}.

Lemma stay59_ok only_closes p :
  Forall (Forall (allowed (R := stay59 only_closes) (env0 fd_dirs))) p ->
  threads_ok (R := stay59 only_closes) (kern (shared_start opens classic p)).
Proof.
  intros Hp. constructor; [done|done|done|apply empty_subseteq| |].
  - intros f [-> | ->]; apply (mk_is_Some _ 0); by vm_compute.
  - intros f _. apply not_elem_of_empty.
Qed.

Lemma busy_allowed :
  Forall (Forall (allowed (R := stay59 false) (env0 fd_dirs))) busy.
Proof.
  unfold busy. rewrite !Forall_cons, !Forall_nil.
  split_and!; simpl; try done; try (by intros [? | ?]); intros st [A1 A2 A3 A4 A5 A6]; constructor; try done.
  intros _ Hw%(suffix_length _ _). revert Hw. vm_compute. lia.
Qed.

Lemma iter_threadsafe_liveness_witness :
  wp (it ← iter_open_fds_threadsafe 3; collect fuel0 fuel0 it)
    (fun l _ => 5 ∈ l /\ 9 ∈ l /\ 0 ∉ l) (shared_start opens classic busy).
Proof.
  eapply wp_mono; [apply (iter_threadsafe_liveness (R := stay59 false) fuel0 3 (shared_start opens classic busy));
    [unfold i32_MAX; lia|apply fuel0_enough| |done|done|by constructor]|].
  - apply stay59_ok, busy_allowed.
  - intros l w' (_ & _ & H1 & H2 & _). assert (Hlim : scan_limit (env_with (Some false) (Some false) true fd_dirs) = 1023) by (by vm_compute).
    simpl in H2. rewrite Hlim in H2. split_and!.
    + apply H2; [by left|lia].
    + apply H2; [by right|lia].
    + intros [? _]%H1. lia.
Defined.

Lemma closing_spares_others_witness :
  wp (iterate fuel0 fd_iter_builder_new 0) (fun l _ => 5 ∈ l /\ 9 ∈ l)
    (shared_start opens classic closing).
Proof.
  eapply wp_mono; [apply (closing_spares_others (R := stay59 true) fuel0 fd_iter_builder_new 0
    (shared_start opens classic closing));
    [unfold i32_MAX; lia|apply fuel0_enough|done| |done|by constructor]|].
  - apply stay59_ok. repeat constructor; by intros [? | ?].
  - intros l w' (_ & _ & H). assert (Hlim : scan_limit (env_with (Some false) (Some false) true fd_dirs) = 1023) by (by vm_compute).
    simpl in H. rewrite Hlim in H. split; apply H; (by left) || (by right) || lia.
Defined.

Lemma cloexec_threadsafe_correct_witness :
  wp (set_fds_cloexec_threadsafe fuel0 3 [5; 7]) (fun _ w' =>
    fds (base (kern w')) !! 5 = Some 0 /\ fds (base (kern w')) !! 9 = Some 1)
    (shared_start opens classic busy).
Proof.
  eapply wp_mono; [apply (cloexec_threadsafe_correct (R := stay59 false) fuel0 3 [5; 7]
    (shared_start opens classic busy));
    [apply fuel0_enough|apply slice57_ok|unfold i32_MAX; lia| |done|by constructor]|].
  - apply stay59_ok, busy_allowed.
  - assert (Hlim : scan_limit (env_with (Some false) (Some false) true fd_dirs) = 1023) by (by vm_compute).
    intros [] w' (_ & Hw & _). split.
    + apply (Hw 5 0); [by left|by left|by vm_compute|by right; left].
    + apply (Hw 9 0); [by right|by right|by vm_compute|lia| |simpl; rewrite Hlim; lia].
      by repeat (apply not_elem_of_cons; split; [lia|]); apply not_elem_of_nil.
Defined.

Lemma closing_among_threads_witness :
  wp (closefrom fuel0 (threadsafe true keep57) 3) (fun _ w' =>
    fds (base (kern w')) !! 5 = Some 0 /\ 9 ∈ shut (kern w')) (shared_start opens classic busy).
Proof.
  eapply wp_mono; [apply (closing_among_threads (R := stay59 false) fuel0 (threadsafe true keep57) 3
    (shared_start opens classic busy));
    [apply fuel0_enough|apply threadsafe_ok, keep57_ok|unfold i32_MAX; lia| |done|done|by constructor|
     by right; left|done]|].
  - apply stay59_ok, busy_allowed.
  - assert (Hlim : scan_limit (env_with (Some false) (Some false) true fd_dirs) = 1023) by (by vm_compute).
    intros [] w' (_ & Hs & Hk & _). split.
    + apply (Hk 5); [by left|by right; left|by left].
    + apply (Hs 9); [by right| |simpl; rewrite Hlim; lia].
      intros [?|Hin]; [lia|]. revert Hin.
      by repeat (apply not_elem_of_cons; split; [lia|]); apply not_elem_of_nil.
Defined.

Lemma probe_among_threads_witness :
  wp probe_features (fun _ w' => fds (base (kern w')) !! 9 = Some 0)
    (shared_start opens classic busy).
Proof.
  eapply wp_mono; [apply (probe_among_threads (R := stay59 false) (shared_start opens classic busy));
    [|by constructor]|].
  - apply stay59_ok, busy_allowed.
  - intros [] w' (_ & Hs & _). apply (Hs 9); [by right|by right].
Defined.

(** ** Other targets *)

Section openbsd.
#[local] Instance openbsd_debug : Config := cfg openbsd true.
#[local] Instance openbsd_debug_ok : ConfigOk openbsd_debug := cfg_ok openbsd true.

(** The schedule of [Runs.threads_can_skip]: 3 is yielded and 9 is skipped. *)
Lemma opening_makes_skip_witness :
  wp (it ← iter_open_fds 0; collect fuel0 fuel0 it) (fun l _ => 3 ∈ l /\ 9 ∉ l)
    (shared_start [0; 1; 2; 9] slash_conf opens_3).
Proof.
  eapply wp_mono; [apply (opening_makes_skip fuel0 0
    (shared_start [0; 1; 2; 9] slash_conf opens_3) 4 (table [0; 1; 2; 3; 9]));
    [done|apply fuel0_enough|unfold i32_MAX; lia|simpl; lia|by vm_compute|by vm_compute|lia|
     by vm_compute]|].
  intros l w' (_ & Hl). split.
  - apply Hl. split_and!; [by eexists|lia|by vm_compute].
  - intros Hin. apply Hl in Hin as (_ & _ & Hb). revert Hb. by vm_compute.
Defined.
End openbsd.

Section solaris.
(** libc's [dirent] of Solaris. *)
#[local] Instance solaris_debug : Config := {|
  target := solaris; debug := true; usize_bits := 64; big_endian := false; ino_t_size := 8;
  libc_dirent := {| d_reclen_off := 16; d_name_off := 18; d_name_len := 3; d_size := 24 |} |}.

(** A record of 24 bytes for the name "1000" is read as descriptor 100. *)
Definition solaris_record : list Z := replicate 16 0 ++ [24; 0; 49; 48; 48; 48; 0; 0].

Definition solaris_it : DirFdIter := {|
  minfd := 0; dirfd := 3; dirent_buf := solaris_record; dirent_nbytes := 24;
  dirent_offset := 0 |}.

Lemma long_name_truncated_witness :
  ConfigOk solaris_debug /\ decimal 1000 = [49; 48; 48; 48] /\
  get_entry_info solaris_it 0 = Done (Some 100, 24).
Proof.
  split_and!; [constructor; [by right|by right|constructor; simpl; lia]|by vm_compute|].
  etrans; [apply (long_name_truncated solaris_it 0 (take 18 solaris_record) 1000 [0] 24 0 []);
    (unfold i32_MAX; simpl; lia) || (by vm_compute)|by vm_compute].
Defined.
End solaris.

(** ** Fuel *)

Lemma runs_without_fuel_witness :
  closefrom steps keep57 3 (start opens modern) = closefrom fuel0 keep57 3 (start opens modern).
Proof.
  refine (proj1 (runs_without_fuel steps fuel0 keep57 fd_iter_builder_new 3 (start opens modern)
    keep57_ok (start_ok _ _) _ fuel0_enough) _).
  - unfold i32_MAX. lia.
  - intros Hrun. apply (f_equal observe) in Hrun. revert Hrun. vm_compute. discriminate.
Defined.

(** ** The calls that are made *)

Lemma traced_ok l c : world_ok (traced_start l c).
Proof. by constructor. Qed.

Lemma async_signal_safety_witness :
  wp (closefrom fuel0 keep57 3) (fun _ w' =>
    Forall (fun c => signal_safe linux c = true) (log (kern w'))) (traced_start opens classic).
Proof.
  pose proof (async_signal_safety fuel0 keep57 fd_iter_builder_new 3 (traced_start opens classic) fuel0_enough keep57_ok
    (traced_ok _ _) ltac:(unfold i32_MAX; lia) eq_refl) as Hw. cbv zeta in Hw.
  exact (proj1 Hw).
Defined.

Lemma no_filesystem_calls_witness :
  wp (cloexecfrom fuel0 (allow_filesystem false keep57) 3) (fun _ w' =>
    Forall (fun c => looks c = false) (log (kern w'))) (traced_start opens classic).
Proof.
  pose proof (no_filesystem_calls fuel0 keep57 fd_iter_builder_new 3 (traced_start opens classic) fuel0_enough keep57_ok
    (traced_ok _ _) ltac:(unfold i32_MAX; lia) eq_refl) as Hw. cbv zeta in Hw.
  exact (proj1 (proj2 Hw)).
Defined.

Lemma no_counting_calls_witness :
  wp (iterate fuel0 (set_threadsafe true fd_iter_builder_new) 3) (fun _ w' =>
    Forall (fun c => counts c = false) (log (kern w'))) (traced_start opens bare).
Proof.
  pose proof (no_counting_calls fuel0 keep57 fd_iter_builder_new 3 (traced_start opens bare) fuel0_enough keep57_ok
    (traced_ok _ _) ltac:(unfold i32_MAX; lia) eq_refl) as Hw. cbv zeta in Hw.
  exact (proj2 (proj2 Hw)).
Defined.

Lemma few_calls_witness :
  wp (closefrom fuel0 keep57 3) (fun _ w' => (length (log (kern w')) <= 3)%nat)
    (traced_start opens modern).
Proof.
  pose proof (few_calls fuel0 keep57 3 (traced_start opens modern) fuel0_enough keep57_ok
    (traced_ok _ _) ltac:(unfold i32_MAX; lia) eq_refl) as Hw. cbv zeta in Hw.
  refine (proj1 Hw _). right. left. split_and!; [done| |done|by right].
  exists (fun k => rk_conf (real k) = modern). split; [done|]. intros [k l] lo hi Hk Hle.
  simpl in Hk. simpl. unfold record. simpl. unfold rk_close_range, rk_has_range. rewrite Hk. simpl.
  rewrite (proj2 (Z.ltb_ge hi lo)) by lia. simpl. by eexists.
Defined.

(** ** The crate's tests and its example program *)

Lemma test_size_hint_passes_witness :
  (exists w', test_size_hint_possible fuel0 (start opens classic) = Done (tt, w') /\
     fds (kern w') = fds (kernel opens classic)) \/
  (test_size_hint_possible fuel0 (start opens classic) = Panic /\
     exists w1, fds (kern w1) = fds (kernel opens classic) /\ open_files w1 = Panic).
Proof.
  apply (test_size_hint_passes fuel0 (start opens classic) (start_ok _ _) fuel0_enough
    test_size_hint_possible). by right; left.
Defined.

Lemma test_fused_passes_witness :
  (exists w', test_fused_open fuel0 (start opens bare) = Done (tt, w') /\
     fds (kern w') = fds (kernel opens bare)) \/
  (test_fused_open fuel0 (start opens bare) = Panic /\
     exists w1, fds (kern w1) = fds (kernel opens bare) /\ open_files w1 = Panic).
Proof.
  apply (test_fused_passes fuel0 (start opens bare) (start_ok _ _) fuel0_enough test_fused_open).
  by left.
Defined.

Lemma util_tests_pass_witness :
  passes_or_no_root test_is_fd_valid (start opens classic) /\
  result_of (test_set_cloexec (start opens slash_conf)) = Done (tt, opens).
Proof.
  split; [|by vm_compute].
  apply (util_tests_pass (start opens classic)). apply (mk_is_Some _ 0). by vm_compute.
Defined.

Lemma pre_exec_correct_witness :
  wp (pre_exec fuel0 [5; 7]) (fun _ w' =>
    inherited (K := RK) (fds (kern w')) 7 /\ ~ inherited (K := RK) (fds (kern w')) 6) (start opens classic).
Proof.
  eapply wp_mono; [apply (pre_exec_correct fuel0 [5; 7] (start opens classic));
    [apply fuel0_enough|apply slice57_ok|apply start_ok|]|].
  - intros f. by eapply opens_limit.
  - intros [] w' Hw. rewrite !Hw. split.
    + split; [exists 0; by vm_compute|]. right. by right; left.
    + intros [_ [?|Hin]]; [lia|]. revert Hin.
      by repeat (apply not_elem_of_cons; split; [lia|]); apply not_elem_of_nil.
Defined.

(** The example program, on a system with the standard streams. *)
Definition command_world : World RK := start [0; 1; 2] slash_conf.

Lemma command_close_correct_witness :
  exists w0, main_open command_world = Done ((3, 4, 5), w0) /\
    wp (main_rest fuel0 3 4 5) (fun _ w' =>
      inherited (K := RK) (fds (kern w')) 5 /\ ~ inherited (K := RK) (fds (kern w')) 4) w0.
Proof.
  destruct (main_open command_world) as [[[[f1 f2] f3] w0]| | | |] eqn:Hopen;
    vm_compute in Hopen; try discriminate Hopen.
  injection Hopen as <- <- <- <-. eexists. split; [reflexivity|].
  eapply wp_mono; [apply (command_close_correct fuel0 command_world 3 4 5);
    [apply fuel0_enough|apply start_ok|by vm_compute|]|].
  - intros f [fl Hf]. pose proof (fds_wf _ _ _ Hf) as [? _].
    destruct (Z.le_gt_cases f 1023) as [|Hgt]; [by vm_compute|].
    apply map_lookup_filter_Some in Hf as [Hf _]. exfalso. revert Hf. simpl. intros Hf.
    apply (elem_of_map_to_list _ f fl) in Hf. revert Hf. vm_compute map_to_list.
    rewrite !elem_of_cons, elem_of_nil. intros Hf.
    by repeat (destruct Hf as [[= -> _]|Hf]; [lia|]).
  - intros [] w' Hw. split.
    + apply Hw; [lia|by right].
    + intros ?%Hw; lia.
Defined.

(** ** FreeBSD *)

Definition freebsd_release : Config := cfg freebsd false.

Lemma check_has_close_range_correct_witness :
  wp (check_has_close_range (SK := @rk_sys freebsd_release)) (fun r w' =>
    check_has_close_range (SK := @rk_sys freebsd_release) w' = Done (r, w')) (start opens modern).
Proof.
  eapply wp_mono; [apply (check_has_close_range_correct (C := freebsd_release)
    (KS := rk_spec (C := freebsd_release) (ConfigOk0 := cfg_ok freebsd false)) (start opens modern)); by constructor|].
  intros r w' (_ & _ & H). exact H.
Defined.

Lemma sys_dirent_layout_correct_witness :
  @sys_dirent_layout (@ino_t_size freebsd_release) =
    {| d_reclen_off := 16; d_name_off := 24; d_name_len := 256; d_size := 280 |}.
Proof. apply (@sys_dirent_layout_correct freebsd_release (cfg_ok freebsd false)). Defined.

(** *** The integration tests *)

Lemma slash_opens (k : RK) r k' flags :
  env k = env0 ["/"%string] -> Z.of_nat (size (fds k)) < 1024 ->
  sys_open "/" flags k = (r, k') -> 0 <= r.
Proof.
  intros He Hsz Hk. eapply (rk_open_succeeds "/" flags k r k' Hk).
  - rewrite He. by left.
  - rewrite He. simpl in *. unfold i32_MAX. lia.
Qed.

Lemma slash_hospitable : hospitable (K := RK) (env0 ["/"%string]) 1000.
Proof.
  split; [simpl; lia|]. intros k r k' He Hsz Hk. eapply slash_opens; [done| |done]. lia.
Qed.

Lemma integration_tests_pass_witness :
  wp (run_tests_with fuel0 (@reverse Z) (exact_tests fuel0))
    (fun _ w' => forall f, is_Some (fds (kern w') !! f) <-> 0 <= f <= 2) (start opens slash_conf).
Proof.
  apply (integration_tests_pass fuel0 (@reverse Z) 1000 (start opens slash_conf)).
  - apply fuel0_enough.
  - done.
  - intros l. apply reverse_Permutation.
  - apply slash_hospitable.
  - by apply Nat.leb_le.
  - intros f. by eapply opens_limit.
  - intros f Hf. simpl fds. unfold kern, start. rewrite opens_fds.
    rewrite decide_True; [by eexists|]. unfold opens. rewrite !elem_of_cons. lia.
Defined.

Lemma run_tests_pass_witness :
  wp (run_tests fuel0 (@reverse Z))
    (fun _ w' => forall f, is_Some (fds (kern w') !! f) <-> 0 <= f <= 2) (start opens slash_conf).
Proof.
  apply (run_tests_pass fuel0 (@reverse Z) 1000 (start opens slash_conf)).
  - apply fuel0_enough.
  - done.
  - intros l. apply reverse_Permutation.
  - apply slash_hospitable.
  - by apply Nat.leb_le.
  - intros f. by eapply opens_limit.
  - intros f Hf. simpl fds. unfold kern, start. rewrite opens_fds.
    rewrite decide_True; [by eexists|]. unfold opens. rewrite !elem_of_cons. lia.
Defined.

(** The builder with [possible] on a system with a directory of descriptors. *)
Lemma iterate_repeats_witness :
  wp (l1 ← iterate fuel0 (set_possible true fd_iter_builder_new) 1;
      l2 ← iterate fuel0 (set_possible true fd_iter_builder_new) 1; mret (l1, l2))
    (fun '(l1, l2) w' => l1 = l2 /\ fds (kern w') = fds (kernel opens classic))
    (start opens classic).
Proof.
  apply (iterate_repeats fuel0 (set_possible true fd_iter_builder_new) 1 (start opens classic));
    [unfold i32_MAX; lia|done|apply fuel0_enough].
Defined.

Lemma no_fds_child_passes_witness :
  wp (no_fds_child fuel0) (fun status _ => status = 0) (start opens slash_conf).
Proof.
  apply (no_fds_child_passes fuel0 (start opens slash_conf)).
  - apply fuel0_enough.
  - done.
  - intros f. by eapply opens_limit.
  - intros k r k' He Hemp Hk. eapply slash_opens; [exact He| |exact Hk].
    rewrite Hemp, map_size_empty. done.
Defined.
